(* ===== verification/_CoqProject ===== *)
-Q . S2P
Prelude.v
Platform.v
Crypto.v
Repository.v
Postgres.v
Config.v
World.v
Service.v
LedgerSpec.v
InMemory.v
PostgresLaws.v
Chain.v
Examples.v
ServiceWrite.v
Concurrency.v
ConcurrentWrites.v
TestRepos.v
ServiceVerify.v
Query.v
PostgresService.v
PostgresSchema.v
Outbox.v
Verifier.v
OnlineVerify.v
FaultyVerify.v
OnlineQuery.v
PostgresOutbox.v
Announce.v
FaultyWrites.v
Grpc.v
Durable.v
Access.v
Tls.v
Startup.v
Shutdown.v
Gateway.v
Health.v
Conformance.v
Integration.v
