(* ===== verification/Prelude.v ===== *)
(** * The immutable ledger: a verification development

    The crate under [src/src] is a gRPC service that keeps, per entry type, an
    append-only chain of entries.  Every entry carries a SHA-256 digest of a
    canonical envelope of its own fields and of the digest of the entry before
    it; the service appends entries, answers queries and receipts, verifies
    chains, and forwards an event per entry through an outbox.

    ** The parts and how they interact

    A request enters through [grpc/mod.rs] (behind the bearer check of
    [main.rs]), which maps protobuf messages to calls of
    [ImmutableLedgerService] ([service/mod.rs]).  The service runs against the
    trait [LedgerRepository] ([repository/mod.rs]), computes digests with
    [crypto/mod.rs], and keeps a halt table and a lock per chain.  The outbox
    processor ([service/mod.rs]) and the background verifier ([verifier.rs]) are
    tasks that share the repository and the service.  [config/mod.rs] parses the
    environment once, at start-up.

    ** The files

    - Prelude (this file): [Result], machine integers, UTF-8 strings as byte
      sequences, decimal rendering and parsing, stable sorting, and the lemmas and
      tactics every file uses.
    - Platform: the class [Platform] of what comes from outside the repository
      (SHA-256, hex, UUIDs, timestamps, JSON, the order of a hash map) and its
      documented laws; [Toy], an instance on which the witnesses compute.
    - Crypto: [crypto/mod.rs], the V2 and V3 envelopes, byte for byte.
    - Repository: [repository/mod.rs], the records, the trait as the class
      [LedgerRepository], the in-memory repository ([Inner], its five maps) and
      the tampering helpers of the tests.
    - Postgres: [repository/postgres.rs] and the tables of [migrations], the trait's
      second instance: statements as operations on relations, transactions, and
      every point at which the server may fail.
    - Config: [config/mod.rs], over an environment that is a function.
    - World: the state a call runs in ([World]: repository, [chain_halted],
      [chain_locks], clock, identifiers, sleeps, [metrics.rs]) and the monad of
      its effects; the monadic notations thread [Result] as [?] does.
    - Service: [service/mod.rs], a definition per method, generic in repository
      and publisher.
    - LedgerSpec: the specification.  [Ledger] is a map from entry types to lists
      of entries; [spec_*] are the trait's operations on it; [LedgerStoreLaws] is
      the contract between a repository and the service.
    - InMemory: the in-memory repository keeps that contract (a functional
      refinement: [inner_ledger] abstracts the five maps).
    - PostgresLaws: so does the SQL repository while its server answers
      ([pg_ledger] abstracts the table); what is left when it does not.
    - Chain: [links_ok], what it is for a chain to verify, its reference decision
      procedure [audit], and the binding lemma for chains.
    - Examples: the concrete ledgers the witnesses evaluate.
    - ServiceWrite, ServiceVerify, Query: the theorems on writing, on
      verification, and on queries, against the contract of LedgerSpec.
    - Concurrency, ConcurrentWrites: [write_entry_impl] cut at its [await] points,
      and the step relation that interleaves calls, cancellations (a COMMIT under
      way may land after them) and the writes of other processes; first over any
      repository, then over the contract.
    - PostgresService, PostgresSchema: the service over the SQL repository, and the
      types of its tables.
    - TestRepos: the repositories of the service tests that do not keep the
      contract, and what the service makes of them.
    - Outbox: the processor, [publish_one] and the HTTP publisher.
    - OnlineQuery: paging over [Growing], for any repository whose queries are slices
      of its sorted matches ([PagedQueries]); both repositories are.
    - PostgresOutbox: the processor's loop cut at its [await] points, and any number
      of processors next to writers over the SQL repository.
    - Announce: from an acknowledged write to its event, with a logic of triples for
      what the methods of the service make of the tables.
    - FaultyWrites: concurrent calls, other processes and processors over the SQL
      repository while the database fails, as one step relation.
    - Verifier: [verifier.rs] and the readiness endpoint.
    - OnlineVerify: verification over a repository that changes between reads
      ([Growing]); FaultyVerify: over one whose requests may also fail, by a
      simulation between the failing repository and the healed one.
    - Grpc: [grpc/mod.rs], the messages and handlers.
    - Durable: from an acknowledged gRPC write to every later read of its entry.
    - Access: the bearer checks of [main.rs], the TLS choice of [tls.rs] and the
      role check of [db_permissions/mod.rs].
    - Tls: the rest of [tls.rs], the connector, its future and its stream.
    - Startup: [main], from the environment to the running servers, what it has
      spawned when it gives up, and its end.
    - Shutdown: the channel between the signal, [/shutdownz] and the three servers,
      as a run of events.
    - Gateway: the classification filter and the start of the gateway under
      [src/demo].
    - Health: the routes of the health server and the JSON of [/verifyz].
    - Conformance, Integration: the repository's unit tests, and the integration
      tests of [src/tests], evaluated on the model.

    ** What the theorems show

    - Writing.  [write_entry_refines]: for any repository that keeps the contract,
      [write_entry] computes the specification [spec_write_entry] (outcome, ledger,
      halt table; not the metrics) on every branch, for the requests the repository
      can store as they are sent ([request_accepted]); [write_sequence_keeps_ledger]: any
      sequence of writes yields a ledger that extends the old one and verifies.
      Idempotent replays, the reuse of a key, invalid requests, halted chains and
      the retry loop with its back-off have a theorem each.
    - Verification.  [verify_chain_audit]: the batched walk is the one-pass [audit]
      of the resolved range, counts and failure reason included;
      [verify_chain_tamper_evident]: two ledgers that both verify up to one tip
      hash agree on every field the digest binds, or exhibit a SHA-256 collision;
      honest ledgers verify, over every range; a modified entry is named; the
      newest-window walk, the single-entry check, receipts and proofs are decided
      exactly.  [truncated_chain_accepted] states what the walk cannot see.
    - The digest.  The envelope decodes back to the fields it binds
      ([envelope_roundtrip]), so equal digests mean equal fields or a collision
      ([entry_hash_binding]); nowhere is SHA-256 assumed injective.
    - Concurrency.  The phases of a thread are [write_entry_impl], cut at its
      [await]s ([phases_are_write_entry]); the lock of a chain has one holder, is released
      when the method returns or is dropped, and the calls never wait for each
      other for good; in every reachable state the ledger is valid and extends the
      first one, answers are stored entries of their requests, two calls with one
      key get one entry, and a retry is spent only on a write without the lock: of
      another process, or of a call that was dropped during its COMMIT.  Over
      the SQL repository all of this but the last is kept while the database fails
      and loses answers ([writes_survive_failures]).
    - The repositories.  [in_memory_write_refines], [postgres_write_refines] and the
      instances [inner_laws], [postgres_laws]; the tampering helpers keep the shape
      invariant ([tampering_keeps_shape]).  A SQL write is atomic whatever the
      server does, a lost commit is recovered by a retry with the same key, every
      statement keeps the schema and the outbox moves as its state machine says.
    - Queries.  A page is the right slice of the sorted matches, and following the
      tokens enumerates them all, once, in order; next to writers, it is the answer of
      one query at one moment ([pages_next_to_writers]), as long as new entries come
      later in the order than those that are there.
    - Tasks.  One outbox pass moves each record as the state machine says and
      touches nothing else, and enough passes leave none pending; over the SQL
      repository, with other processors, crashes and faults, delivery is at least
      once and an event is given up only after the attempts allowed; a verifier round
      publishes exactly which windows verify, and fails open when the types cannot
      be listed; next to writers and over a database that fails it never takes
      either for tampering ([failures_are_not_tampering]).
    - End to end.  Whoever was told that an entry is written will see its event
      ([acknowledged_writes_are_announced]) and reads that entry, the same every
      time, for good ([acknowledged_writes_are_durable]), whatever fails in between.
    - The edge.  The gRPC handlers, the bearer checks, the configuration parser,
      the TLS choice, the role check and start-up as a whole, errors included; a
      stream that was to be encrypted is rustls's own ([tls_stream_is_rustls]); which
      servers hear of a shutdown ([shutdown_reaches_started_servers]); [/verifyz]
      and [/readyz] agree; the gateway stamps exactly the method and the name of a
      call.

    ** Bounds and fuel

    Integers keep their Rust width ([i64_add] and the like wrap, as in a release
    build; [as] truncates).  Theorems that need no wrap-around say so with a bound
    on the number of entries.  [verify_chain]'s loop takes fuel: its theorems hold
    for every fuel above the length of the chain, so a result is always produced.
    [collect_pages] takes fuel above the number of results.  The retry loop is
    structural in [max_retries]; the paged loop and the outbox pass are structural
    in their lists.

    ** Premises the theorems share

    [request_accepted] says that the repository stores a request as it is sent: the
    in-memory one always, the SQL one when every text fits its column without
    being cut (a VARCHAR drops trailing spaces it has no room for) and has no NUL
    character; [stored_text_verifies_or_cut] and [acknowledged_writes_are_durable]
    say what holds of the others.  [store_reads] is whether the repository can be asked about a text at all: PostgreSQL refuses
    a parameter with a NUL character, so such an entry type or filter is answered
    Unavailable and has no entries.  [alone] is that nobody writes to the
    repository without the lock of the chain.

    ** What is not modelled, and why

    - The PostgreSQL server and its driver: a parameter ([PgPlatform]); a
      transaction is one step, since the advisory lock orders those of one chain.
    - The queue of a [tokio] mutex: any waiter may be next.
    - Log records; what tonic, axum, prometheus, rustls and tokio do below the calls
      of the source (the dispatch on paths, the text of [/metrics], handshakes);
      [lib.rs] and [build.rs]; the proxy and the plugins the demonstration gateway
      registers, and the scripts around it: no logic of the ledger. *)

From Stdlib Require Import String Strings.Byte ZArith Lia.
From stdpp Require Import base tactics numbers strings list gmap sorting.

Open Scope Z_scope.

(** ** Results: Rust's [Result<T, E>] *)

Inductive result (T E : Type) : Type :=
| Ok (t : T)
| Err (e : E).

Arguments Ok {T E} t.
Arguments Err {T E} e.

Definition map_err {T E F : Type} (f : E → F) (r : result T E) : result T F :=
  match r with Ok t => Ok t | Err e => Err (f e) end.

Definition ok_or {T E : Type} (o : option T) (e : E) : result T E :=
  match o with Some t => Ok t | None => Err e end.

Definition is_ok {T E : Type} (r : result T E) : bool :=
  match r with Ok _ => true | Err _ => false end.

(** The [?] operator on a pure result. *)
Definition rbind {T U E : Type} (r : result T E) (k : T → result U E) : result U E :=
  match r with Ok t => k t | Err e => Err e end.

Declare Scope ledger_scope.
Delimit Scope ledger_scope with ledger.
Notation "'let?' x ':=' r 'in' k" := (rbind r (fun x => k))
  (at level 10, x pattern, r at level 100, k at level 200) : ledger_scope.
Open Scope ledger_scope.

(** ** Machine integers

    The service is built with [cargo build --release], where [+], [-], [*] on
    fixed-width integers wrap; an [as] cast truncates. *)

Definition u64_max : Z := 2 ^ 64 - 1.
Definition u32_max : Z := 2 ^ 32 - 1.
Definition u16_max : Z := 2 ^ 16 - 1.
Definition usize_max : Z := 2 ^ 64 - 1.
Definition i64_max : Z := 2 ^ 63 - 1.
Definition i64_min : Z := - 2 ^ 63.
Definition i32_max : Z := 2 ^ 31 - 1.

Definition wrap_u (w : Z) (z : Z) : Z := z mod 2 ^ w.
Definition wrap_i (w : Z) (z : Z) : Z := (z + 2 ^ (w - 1)) mod 2 ^ w - 2 ^ (w - 1).

Definition i64_add (a b : Z) : Z := wrap_i 64 (a + b).
Definition i64_sub (a b : Z) : Z := wrap_i 64 (a - b).
Definition i32_add (a b : Z) : Z := wrap_i 32 (a + b).
Definition u64_mul (a b : Z) : Z := wrap_u 64 (a * b).
Definition u64_pow (a e : Z) : Z := wrap_u 64 (a ^ e).
Definition usize_add (a b : Z) : Z := wrap_u 64 (a + b).

Definition i64_ok (z : Z) : Prop := i64_min ≤ z ≤ i64_max.

(** ** Bytes and strings

    A Rust [String] or [&str] is modelled by [string], the sequence of its
    UTF-8 bytes; [as_bytes] gives that sequence, and [len] and [==] are those
    of the byte sequence as in Rust. *)

Abbreviation byte := Byte.byte.

#[global] Instance byte_eq_decision : EqDecision byte := Byte.byte_eq_dec.

Definition as_bytes (s : string) : list byte := list_byte_of_string s.
Definition is_empty (s : string) : bool := String.eqb s "".
Definition is_nil {A : Type} (l : list A) : bool :=
  match l with [] => true | _ => false end.

(** [starts_with] and [strip_prefix] of [str]. *)
Fixpoint strip_prefix (p s : string) {struct p} : option string :=
  match p, s with
  | EmptyString, _ => Some s
  | String a p', String b s' => if Ascii.eqb a b then strip_prefix p' s' else None
  | String _ _, EmptyString => None
  end.

Definition starts_with (p s : string) : bool :=
  match strip_prefix p s with Some _ => true | None => false end.

(** A printable ASCII character other than the space. *)
Definition ascii_graphic (b : byte) : bool :=
  let n := Z.of_N (Byte.to_N b) in (33 <=? n) && (n <=? 126).

(** ** Decimal rendering: [to_string] on integers *)

Definition digit_byte (d : Z) : byte :=
  default "0"%byte (Byte.of_N (Z.to_N (48 + d))).

(** The digits of [n], most significant first, in front of [acc]; the fuel is
    the number of digits to produce at most. *)
Fixpoint decimal_go (fuel : nat) (n : Z) (acc : list byte) : list byte :=
  match fuel with
  | O => acc
  | S f =>
      let acc' := digit_byte (n mod 10) :: acc in
      if n <? 10 then acc' else decimal_go f (n / 10) acc'
  end.

Definition decimal_fuel (n : Z) : nat := S (Z.to_nat (Z.log2 n)).

Definition decimal (n : Z) : list byte :=
  if n <? 0 then "-"%byte :: decimal_go (decimal_fuel (- n)) (- n) []
  else decimal_go (decimal_fuel n) n [].

Definition int_to_string (n : Z) : string := string_of_list_byte (decimal n).

(** ** Decimal parsing: [str::parse] on integers

    One optional sign ([-] for the signed types only), then one or more
    digits; a value out of range, an empty text and any other byte are errors.
    The source never looks at which error it was. *)

Definition digit_value (b : byte) : option Z :=
  let n := Z.of_N (Byte.to_N b) in
  if (48 <=? n) && (n <=? 57) then Some (n - 48) else None.

Fixpoint digits_value (l : list byte) (acc : Z) : option Z :=
  match l with
  | [] => Some acc
  | b :: l' =>
      match digit_value b with
      | Some d => digits_value l' (acc * 10 + d)
      | None => None
      end
  end.

Definition parse_digits (l : list byte) : option Z :=
  match l with [] => None | _ => digits_value l 0 end.

Definition in_range (lo hi : Z) (o : option Z) : option Z :=
  match o with
  | Some z => if (lo <=? z) && (z <=? hi) then Some z else None
  | None => None
  end.

Definition parse_unsigned (max : Z) (s : string) : option Z :=
  match as_bytes s with
  | "+"%byte :: l => in_range 0 max (parse_digits l)
  | l => in_range 0 max (parse_digits l)
  end.

Definition parse_signed (lo hi : Z) (s : string) : option Z :=
  match as_bytes s with
  | "+"%byte :: l => in_range lo hi (parse_digits l)
  | "-"%byte :: l => in_range lo hi (Z.opp <$> parse_digits l)
  | l => in_range lo hi (parse_digits l)
  end.

(** ** Stable sorting: [slice::sort_by_key] and [sort]

    Rust's slice sorts are stable, and a stable sort of a list by a total
    preorder has one result; insertion sort computes it. *)

Section StableSort.
Context {A : Type} (leb : A → A → bool).

Fixpoint insert_sorted (x : A) (l : list A) : list A :=
  match l with
  | [] => [x]
  | y :: l' => if leb x y then x :: y :: l' else y :: insert_sorted x l'
  end.

Fixpoint stable_sort (l : list A) : list A :=
  match l with
  | [] => []
  | x :: l' => insert_sorted x (stable_sort l')
  end.
End StableSort.

(** Lexicographic order on pairs of integers: the key
    [(timestamp, position)] of the query order. *)
Definition pair_leb (a b : Z * Z) : bool :=
  (a.1 <? b.1) || ((a.1 =? b.1) && (a.2 <=? b.2)).

(** * Lemmas *)

(** ** Automation

    [inv_ok] inverts an equation between results, [by_compute] closes an equation
    between closed terms by evaluating both sides, and [bool_lia] turns boolean
    comparisons into inequalities for [lia]. *)

Ltac inv_ok :=
  repeat match goal with
  | H : Ok _ = Ok _ |- _ => injection H as H
  | H : Err _ = Err _ |- _ => injection H as H
  | H : Ok _ = Err _ |- _ => discriminate H
  | H : Err _ = Ok _ |- _ => discriminate H
  end; subst.

Ltac by_compute :=
  match goal with |- @eq ?A ?x ?y => vm_cast_no_check (@eq_refl A y) | |- _ => done end.

Ltac bool_lia :=
  repeat match goal with
  | H : (_ && _) = true |- _ => apply andb_true_iff in H as [? ?]
  | H : (_ || _) = false |- _ => apply orb_false_iff in H as [? ?]
  | H : (_ =? _) = true |- _ => apply Z.eqb_eq in H
  | H : (_ =? _) = false |- _ => apply Z.eqb_neq in H
  | H : (_ <? _) = true |- _ => apply Z.ltb_lt in H
  | H : (_ <? _) = false |- _ => apply Z.ltb_ge in H
  | H : (_ <=? _) = true |- _ => apply Z.leb_le in H
  | H : (_ <=? _) = false |- _ => apply Z.leb_gt in H
  end; try lia.

(** ** Machine integers *)

Lemma wrap_i_small (w z : Z) :
  0 < w → - 2 ^ (w - 1) ≤ z < 2 ^ (w - 1) → wrap_i w z = z.
Proof.
  intros Hw Hz. unfold wrap_i.
  assert (2 ^ w = 2 * 2 ^ (w - 1)) as E.
  { rewrite <- Z.pow_succ_r by lia. f_equal. lia. }
  rewrite Z.mod_small by lia. lia.
Qed.

Lemma wrap_u_small (w z : Z) : 0 ≤ z < 2 ^ w → wrap_u w z = z.
Proof. intros Hz. unfold wrap_u. by apply Z.mod_small. Qed.

Lemma i64_add_small (a b : Z) : i64_ok (a + b) → i64_add a b = a + b.
Proof. unfold i64_ok, i64_min, i64_max. intros. apply wrap_i_small; lia. Qed.

Lemma i64_sub_small (a b : Z) : i64_ok (a - b) → i64_sub a b = a - b.
Proof. unfold i64_ok, i64_min, i64_max. intros. apply wrap_i_small; lia. Qed.

Lemma i32_add_small (a b : Z) : - 2 ^ 31 ≤ a + b < 2 ^ 31 → i32_add a b = a + b.
Proof. intros. apply wrap_i_small; lia. Qed.

Lemma usize_add_small (a b : Z) : 0 ≤ a + b ≤ usize_max → usize_add a b = a + b.
Proof. unfold usize_max. intros. apply wrap_u_small; lia. Qed.

(** ** Strings and bytes *)

#[global] Instance as_bytes_inj : Inj (=) (=) as_bytes.
Proof.
  intros s1 s2 H. unfold as_bytes in H.
  rewrite <- (string_of_list_byte_of_string s1), <- (string_of_list_byte_of_string s2).
  by rewrite H.
Qed.

Lemma as_bytes_of_bytes (l : list byte) : as_bytes (string_of_list_byte l) = l.
Proof. apply list_byte_of_string_of_list_byte. Qed.

Lemma is_empty_true (s : string) : is_empty s = true ↔ s = "".
Proof. apply String.eqb_eq. Qed.

Lemma is_empty_false (s : string) : is_empty s = false ↔ s ≠ "".
Proof. apply String.eqb_neq. Qed.

Lemma strip_prefix_spec (p s r : string) :
  strip_prefix p s = Some r ↔ s = (p +:+ r)%string.
Proof.
  revert s. induction p as [|a p IH]; intros s; simpl.
  - change ("" +:+ r)%string with r. split; congruence.
  - change (String a p +:+ r)%string with (String a (p +:+ r)). destruct s as [|b s]; [split; congruence|].
    destruct (Ascii.eqb_spec a b) as [->|Hne].
    + rewrite IH. split; congruence.
    + split; congruence.
Qed.

Lemma starts_with_spec (p s : string) :
  starts_with p s = true ↔ ∃ r, s = (p +:+ r)%string.
Proof.
  unfold starts_with. destruct (strip_prefix p s) as [r|] eqn:E.
  - apply strip_prefix_spec in E. split; eauto.
  - split; [done|]. intros [r Hr]. apply strip_prefix_spec in Hr. congruence.
Qed.

(** ** Decimals *)

Definition is_digit (b : byte) : Prop := digit_value b ≠ None.

Lemma digit_graphic (b : byte) : is_digit b → ascii_graphic b = true.
Proof. unfold is_digit. by destruct b. Qed.

Lemma digit_value_byte (d : Z) : 0 ≤ d < 10 → digit_value (digit_byte d) = Some d.
Proof.
  intros Hd.
  assert (d = 0 ∨ d = 1 ∨ d = 2 ∨ d = 3 ∨ d = 4 ∨ d = 5 ∨ d = 6 ∨ d = 7 ∨ d = 8 ∨ d = 9)
    as Hc by lia.
  by repeat destruct Hc as [->|Hc]; subst.
Qed.

Lemma digit_byte_is_digit (d : Z) : 0 ≤ d < 10 → is_digit (digit_byte d).
Proof. intros Hd. unfold is_digit. by rewrite digit_value_byte. Qed.

Lemma decimal_go_digits (fuel : nat) (n : Z) (acc : list byte) :
  0 ≤ n → Forall is_digit acc → Forall is_digit (decimal_go fuel n acc).
Proof.
  revert n acc. induction fuel as [|f IH]; intros n acc Hn Hacc; simpl; [done|].
  assert (Forall is_digit (digit_byte (n mod 10) :: acc)).
  { constructor; [|done]. apply digit_byte_is_digit, Z.mod_pos_bound. lia. }
  case_match; [done|]. apply IH; [|done]. apply Z.div_pos; lia.
Qed.

Lemma decimal_go_value (fuel : nat) (n : Z) (acc : list byte) :
  0 ≤ n < 10 ^ Z.of_nat fuel →
  digits_value (decimal_go fuel n acc) 0 = digits_value acc n.
Proof.
  revert n acc. induction fuel as [|f IH]; intros n acc Hn; simpl.
  - f_equal. simpl in Hn. lia.
  - assert (0 ≤ n mod 10 < 10) by (apply Z.mod_pos_bound; lia).
    destruct (Z.ltb_spec n 10).
    + simpl. rewrite digit_value_byte by done. f_equal. rewrite Z.mod_small; lia.
    + rewrite IH.
      * simpl. rewrite digit_value_byte by done. f_equal.
        pose proof (Z.div_mod n 10). lia.
      * split; [apply Z.div_pos; lia|]. apply Z.div_lt_upper_bound; [lia|].
        rewrite <- Z.pow_succ_r by lia. rewrite <- Nat2Z.inj_succ. lia.
Qed.

Lemma decimal_fuel_enough (n : Z) : 0 ≤ n → n < 10 ^ Z.of_nat (decimal_fuel n).
Proof.
  intros Hn. unfold decimal_fuel. rewrite Nat2Z.inj_succ.
  rewrite Z2Nat.id by apply Z.log2_nonneg.
  destruct (decide (n = 0)) as [->|]; [by vm_compute|].
  pose proof (Z.log2_spec n ltac:(lia)) as [_ H].
  eapply Z.lt_le_trans; [exact H|]. apply Z.pow_le_mono_l.
  pose proof (Z.log2_nonneg n). lia.
Qed.

Lemma decimal_nonneg (n : Z) : 0 ≤ n → decimal n = decimal_go (decimal_fuel n) n [].
Proof. intros. unfold decimal. destruct (n <? 0) eqn:E; bool_lia; done. Qed.

Lemma decimal_neg (n : Z) : n < 0 → decimal n = "-"%byte :: decimal (- n).
Proof.
  intros. rewrite (decimal_nonneg (- n)) by lia. unfold decimal.
  destruct (n <? 0) eqn:E; bool_lia; done.
Qed.

Lemma decimal_digits (n : Z) : 0 ≤ n → Forall is_digit (decimal n).
Proof. intros. rewrite decimal_nonneg by done. by apply decimal_go_digits. Qed.

Lemma digits_value_decimal (n : Z) : 0 ≤ n → digits_value (decimal n) 0 = Some n.
Proof.
  intros. rewrite decimal_nonneg by done.
  rewrite decimal_go_value; [done|]. split; [done|]. by apply decimal_fuel_enough.
Qed.

Lemma decimal_go_nonempty (f : nat) (n : Z) (acc : list byte) :
  (f ≠ 0)%nat ∨ acc ≠ [] → decimal_go f n acc ≠ [].
Proof.
  revert n acc. induction f as [|f IH]; intros n acc H; simpl; [by destruct H|].
  case_match; [done|]. apply IH. by right.
Qed.

Lemma decimal_nonempty (n : Z) : decimal n ≠ [].
Proof.
  unfold decimal. case_match; [done|]. apply decimal_go_nonempty. by left.
Qed.

(** The head of a rendered natural number is a digit: neither sign. *)
Lemma decimal_head (n : Z) :
  0 ≤ n → ∃ b l, decimal n = b :: l ∧ is_digit b.
Proof.
  intros Hn. pose proof (decimal_digits n Hn) as Hd.
  destruct (decimal n) as [|b l] eqn:E.
  - by apply decimal_nonempty in E.
  - exists b, l. split; [done|]. by inversion Hd.
Qed.

Lemma parse_digits_decimal (n : Z) : 0 ≤ n → parse_digits (decimal n) = Some n.
Proof.
  intros Hn. destruct (decimal_head n Hn) as (b & l & E & _).
  unfold parse_digits. rewrite E, <- E. by apply digits_value_decimal.
Qed.

#[global] Instance decimal_inj : Inj (=) (=) decimal.
Proof.
  intros n m H.
  destruct (decide (n < 0)) as [Hn|Hn], (decide (m < 0)) as [Hm|Hm].
  - rewrite (decimal_neg n), (decimal_neg m) in H by done. injection H as H.
    apply (f_equal parse_digits) in H. rewrite !parse_digits_decimal in H by lia.
    injection H. lia.
  - rewrite (decimal_neg n) in H by done.
    destruct (decimal_head m) as (b & l & E & Hd); [lia|].
    rewrite E in H. injection H as <- _. by destruct Hd.
  - rewrite (decimal_neg m) in H by done.
    destruct (decimal_head n) as (b & l & E & Hd); [lia|].
    rewrite E in H. injection H as -> _. by destruct Hd.
  - apply (f_equal parse_digits) in H. rewrite !parse_digits_decimal in H by lia.
    by injection H.
Qed.

Lemma as_bytes_int_to_string (n : Z) : as_bytes (int_to_string n) = decimal n.
Proof. apply as_bytes_of_bytes. Qed.

#[global] Instance int_to_string_inj : Inj (=) (=) int_to_string.
Proof.
  intros n m H. apply (f_equal as_bytes) in H.
  rewrite !as_bytes_int_to_string in H. by apply (inj decimal).
Qed.

Lemma int_to_string_nonempty (n : Z) : is_empty (int_to_string n) = false.
Proof.
  apply is_empty_false. intros H. apply (f_equal as_bytes) in H.
  rewrite as_bytes_int_to_string in H. by apply decimal_nonempty in H.
Qed.

Lemma in_range_Some (lo hi z : Z) : lo ≤ z ≤ hi → in_range lo hi (Some z) = Some z.
Proof.
  intros. unfold in_range. destruct ((lo <=? z) && (z <=? hi)) eqn:E; [done|].
  apply andb_false_iff in E as [E|E]; bool_lia.
Qed.

Lemma in_range_bounds (lo hi z : Z) (o : option Z) :
  in_range lo hi o = Some z → o = Some z ∧ lo ≤ z ≤ hi.
Proof.
  destruct o as [x|]; simpl; [|done]. case_match eqn:E; [|done].
  intros [= ->]. split; [done|]. bool_lia.
Qed.

Lemma parse_unsigned_to_string (max n : Z) :
  0 ≤ n ≤ max → parse_unsigned max (int_to_string n) = Some n.
Proof.
  intros Hn. unfold parse_unsigned. rewrite as_bytes_int_to_string.
  destruct (decimal_head n) as (b & l & E & Hd); [lia|].
  assert (in_range 0 max (parse_digits (b :: l)) = Some n) as H.
  { rewrite <- E, parse_digits_decimal by lia. by apply in_range_Some. }
  rewrite E. destruct b; try exact H; by destruct Hd.
Qed.

Lemma parse_unsigned_bounds (max n : Z) (s : string) :
  parse_unsigned max s = Some n → 0 ≤ n ≤ max.
Proof.
  unfold parse_unsigned. destruct (as_bytes s) as [|b l]; [|destruct b];
    by intros [_ ?]%in_range_bounds.
Qed.

Lemma parse_signed_bounds (lo hi n : Z) (s : string) :
  parse_signed lo hi s = Some n → lo ≤ n ≤ hi.
Proof.
  unfold parse_signed. destruct (as_bytes s) as [|b l]; [|destruct b];
    by intros [_ ?]%in_range_bounds.
Qed.

Lemma parse_signed_to_string (lo hi n : Z) :
  lo ≤ n ≤ hi → parse_signed lo hi (int_to_string n) = Some n.
Proof.
  intros Hn. unfold parse_signed. rewrite as_bytes_int_to_string.
  destruct (decide (n < 0)) as [Hneg|Hneg].
  - rewrite decimal_neg, parse_digits_decimal by lia. simpl.
    replace (Z.opp (- n)) with n by lia. by apply in_range_Some.
  - destruct (decimal_head n) as (b & l & E & Hd); [lia|].
    assert (in_range lo hi (parse_digits (b :: l)) = Some n) as H.
    { rewrite <- E, parse_digits_decimal by lia. by apply in_range_Some. }
    rewrite E. destruct b; try exact H; by destruct Hd.
Qed.

(** ** Stable sorting *)

Section StableSortLemmas.
Context {A : Type} (leb : A → A → bool).
Hypothesis leb_total : ∀ x y, leb x y = true ∨ leb y x = true.
Hypothesis leb_trans : ∀ x y z, leb x y = true → leb y z = true → leb x z = true.

Implicit Types (x y : A) (l : list A).

Lemma insert_sorted_perm x l : insert_sorted leb x l ≡ₚ x :: l.
Proof.
  induction l as [|y l IH]; simpl; [done|]. case_match; [done|].
  rewrite IH. apply Permutation_swap.
Qed.

Lemma stable_sort_perm l : stable_sort leb l ≡ₚ l.
Proof. induction l as [|x l IH]; simpl; [done|]. by rewrite insert_sorted_perm, IH. Qed.

Lemma insert_sorted_sorted x l :
  StronglySorted (λ a b, leb a b = true) l →
  StronglySorted (λ a b, leb a b = true) (insert_sorted leb x l).
Proof.
  induction 1 as [|y l Hl IH Hy]; simpl; [by repeat constructor|].
  destruct (leb x y) eqn:E.
  - constructor; [by constructor|]. constructor; [done|].
    eapply Forall_impl; [exact Hy|]. simpl. eauto.
  - constructor; [done|]. rewrite insert_sorted_perm. constructor; [|done].
    destruct (leb_total x y); congruence.
Qed.

Lemma stable_sort_sorted l : StronglySorted (λ a b, leb a b = true) (stable_sort leb l).
Proof. induction l; simpl; [constructor|]. by apply insert_sorted_sorted. Qed.

(** Elements the order does not separate keep their relative order. *)
Lemma insert_sorted_stable (P : A → Prop) `{∀ x, Decision (P x)} x l :
  (∀ y z, P y → P z → leb y z = true) →
  filter P (insert_sorted leb x l) = filter P (x :: l).
Proof.
  intros HP. induction l as [|y l IH]; [done|]. simpl.
  destruct (leb x y) eqn:E; [done|].
  rewrite filter_cons, IH, !filter_cons.
  repeat case_decide; try done.
  rewrite (HP x y) in E by done. done.
Qed.

Lemma stable_sort_stable (P : A → Prop) `{∀ x, Decision (P x)} l :
  (∀ y z, P y → P z → leb y z = true) →
  filter P (stable_sort leb l) = filter P l.
Proof.
  intros HP. induction l as [|x l IH]; [done|]. simpl.
  rewrite insert_sorted_stable, !filter_cons by done. by rewrite IH.
Qed.

(** Elements that come after all of [l] leave [l] in front. *)
Lemma sorted_prefix l l' new :
  StronglySorted (λ a b, leb a b = true) l → StronglySorted (λ a b, leb a b = true) l' →
  l' ≡ₚ l ++ new →
  (∀ a b, a ∈ l' → b ∈ l' → leb a b = true → leb b a = true → a = b) →
  (∀ a b, a ∈ l → b ∈ new → leb b a = false) →
  l `prefix_of` l'.
Proof.
  intros Hl. revert l'. induction Hl as [|x l Hl IH Hx]; intros l' Hl' Hp Heq Hnew; [apply prefix_nil|].
  destruct Hl' as [|y l' Hl' Hy]; [by apply Permutation_nil in Hp|].
  rewrite Forall_forall in Hx, Hy.
  assert (∀ z, leb z z = true) as Hrefl by (intros z; by destruct (leb_total z z)).
  assert (x = y) as ->.
  { assert (y ∈ (x :: l) ++ new) as Hin by (rewrite <- Hp; by left).
    assert (x ∈ y :: l') as Hin' by (rewrite Hp; by left).
    assert (leb y x = true) as Hyx by (apply elem_of_cons in Hin' as [->|Hin']; auto).
    apply elem_of_app in Hin as [Hin|Hin]; [|by rewrite Hnew in Hyx by (done || by left)].
    apply elem_of_cons in Hin as [->|Hin]; [done|]. apply Heq; auto. by left. }
  apply prefix_cons, IH; [done|by apply (Permutation_cons_inv (a := y))|..].
  - intros a b Ha Hb. apply Heq; by right.
  - intros a b Ha. apply Hnew. by right.
Qed.

Lemma stable_sort_id l :
  StronglySorted (λ a b, leb a b = true) l → stable_sort leb l = l.
Proof.
  induction 1 as [|x l Hl IH Hx]; simpl; [done|]. rewrite IH.
  destruct l as [|y l]; [done|]. simpl. inversion Hx. by simplify_eq/=; case_match.
Qed.
End StableSortLemmas.

Lemma pair_leb_spec (a b : Z * Z) :
  pair_leb a b = true ↔ a.1 < b.1 ∨ (a.1 = b.1 ∧ a.2 ≤ b.2).
Proof.
  unfold pair_leb. rewrite orb_true_iff, andb_true_iff, Z.ltb_lt, Z.eqb_eq, Z.leb_le.
  done.
Qed.

Lemma pair_leb_total (a b : Z * Z) : pair_leb a b = true ∨ pair_leb b a = true.
Proof. rewrite !pair_leb_spec. lia. Qed.

Lemma pair_leb_trans (a b c : Z * Z) :
  pair_leb a b = true → pair_leb b c = true → pair_leb a c = true.
Proof. rewrite !pair_leb_spec. lia. Qed.

(** ** Lists *)

Lemma is_nil_true {A} (l : list A) : is_nil l = true ↔ l = [].
Proof. by destruct l. Qed.

Lemma existsb_none {A} (f : A → bool) (l : list A) :
  (∀ x, x ∈ l → f x = false) → existsb f l = false.
Proof.
  intros Hf. apply not_true_iff_false. rewrite existsb_exists.
  intros (x & Hx%list_elem_of_In & Hfx). by rewrite Hf in Hfx.
Qed.

Lemma filter_none {A} (Q : A → Prop) `{∀ x, Decision (Q x)} (l : list A) :
  Forall (λ x, ¬ Q x) l → filter Q l = [].
Proof. induction 1; [done|]. by rewrite filter_cons_False. Qed.

Lemma filter_all {A} (Q : A → Prop) `{∀ x, Decision (Q x)} (l : list A) :
  Forall Q l → filter Q l = l.
Proof. induction 1; [done|]. rewrite filter_cons_True by done. by f_equal. Qed.

Lemma StronglySorted_snoc {A} (R : relation A) (l : list A) (x : A) :
  StronglySorted R l → Forall (λ y, R y x) l → StronglySorted R (l ++ [x]).
Proof.
  induction 1 as [|y l Hl IH Hy]; intros Hx; simpl.
  - by repeat constructor.
  - inversion Hx; subst. constructor; [by apply IH|].
    apply Forall_app. split; [done|]. by constructor.
Qed.

Lemma StronglySorted_impl {A} (R1 R2 : relation A) (l : list A) :
  (∀ x y, R1 x y → R2 x y) → StronglySorted R1 l → StronglySorted R2 l.
Proof.
  intros HR. induction 1 as [|x l Hl IH Hx]; constructor; [done|].
  eapply Forall_impl; [exact Hx|]. simpl. auto.
Qed.

Lemma StronglySorted_reverse {A} (R : relation A) (l : list A) :
  StronglySorted (λ x y, R y x) l → StronglySorted R (reverse l).
Proof.
  induction 1 as [|x l Hl IH Hx]; [constructor|]. rewrite reverse_cons.
  apply StronglySorted_snoc; [done|]. apply Forall_forall. intros y Hy.
  rewrite elem_of_reverse in Hy. rewrite Forall_forall in Hx. by apply Hx.
Qed.

Lemma StronglySorted_filter {A} (R : relation A) (Q : A → Prop) `{∀ x, Decision (Q x)}
    (l : list A) : StronglySorted R l → StronglySorted R (filter Q l).
Proof.
  induction 1 as [|x l Hl IH Hx]; [constructor|]. rewrite filter_cons.
  case_decide; [|done]. constructor; [done|]. apply Forall_forall. intros y.
  rewrite list_elem_of_filter. rewrite Forall_forall in Hx. naive_solver.
Qed.

Lemma StronglySorted_map {A} (R : relation A) (f : A → A) (l : list A) :
  (∀ x y, R x y → R (f x) (f y)) → StronglySorted R l → StronglySorted R (map f l).
Proof.
  intros Hf. induction 1 as [|x l Hl IH Hx]; simpl; constructor; [done|].
  rewrite Forall_map. eapply Forall_impl; [exact Hx|]. simpl. auto.
Qed.

Lemma last_map {A B} (f : A → B) (l : list A) : last (map f l) = f <$> last l.
Proof. apply fmap_last. Qed.

Lemma StronglySorted_lookup {A} (R : relation A) (l : list A) (i j : nat) (x y : A) :
  StronglySorted R l → (i < j)%nat → l !! i = Some x → l !! j = Some y → R x y.
Proof.
  intros Hl. revert i j. induction Hl as [|z l Hl IH Hz]; intros i j Hij Hi Hj; [done|].
  destruct j as [|j]; [lia|]. destruct i as [|i]; simpl in *.
  - simplify_eq. rewrite Forall_lookup in Hz. eauto.
  - apply (IH i j); [lia|done|done].
Qed.

(** The byte-wise order of strings, [Ord for String]. *)
Lemma string_leb_trans (s1 s2 s3 : string) :
  String.leb s1 s2 = true → String.leb s2 s3 = true → String.leb s1 s3 = true.
Proof.
  unfold String.leb. revert s2 s3.
  induction s1 as [|a s1 IH]; intros [|b s2] [|c s3]; simpl; try done.
  unfold Ascii.compare.
  destruct (N.compare_spec (Ascii.N_of_ascii a) (Ascii.N_of_ascii b)) as [E1|E1|E1];
  destruct (N.compare_spec (Ascii.N_of_ascii b) (Ascii.N_of_ascii c)) as [E2|E2|E2];
  destruct (N.compare_spec (Ascii.N_of_ascii a) (Ascii.N_of_ascii c)) as [E3|E3|E3];
  try done; try lia. apply IH.
Qed.

Lemma take_1_head {A} (l : list A) : head (take 1 l) = head l.
Proof. by destruct l. Qed.

Create HintDb ledger.
Create Rewrite HintDb ledger_rw.
#[export] Hint Rewrite @as_bytes_int_to_string @as_bytes_of_bytes @length_app : ledger_rw.
#[export] Hint Resolve pair_leb_total pair_leb_trans : ledger.

Lemma nodup_fmap_unique {A B} (f : A → B) (l : list A) (x y : A) :
  NoDup (f <$> l) → x ∈ l → y ∈ l → f x = f y → x = y.
Proof.
  induction l as [|a l IH]; [by intros _ ?%elem_of_nil|]. intros [Ha Hl]%NoDup_cons.
  intros [->|Hx]%elem_of_cons [->|Hy]%elem_of_cons Hf; [done|..|by apply IH].
  - destruct Ha. rewrite Hf. by apply list_elem_of_fmap_2.
  - destruct Ha. rewrite <- Hf. by apply list_elem_of_fmap_2.
Qed.
