(* ===== verification/Platform.v ===== *)
(** * The platform: what the crate takes from code that is not in the repository

    The crate computes digests with [sha2], renders them with [hex], names
    entries with [uuid], stamps them with [chrono], serialises the outbox event
    with [serde_json] and iterates over [std::collections::HashMap].  None of
    that code is in the repository, so it is a parameter of the model, the class
    [Platform]; [PlatformLaws] states the documented behaviour the theorems
    use.  In particular nothing assumes that SHA-256 is injective: a theorem that
    needs two digests to differ concludes "or here is a collision", [collision];
    and nothing assumes that two calls of [Uuid::new_v4] differ: a theorem that
    needs a fresh identifier has that as its premise.

    [Toy] is a concrete platform that satisfies the laws: the witnesses of the
    development evaluate on it. *)

From Stdlib Require Import String Ascii Strings.Byte ZArith Lia.
From stdpp Require Import base tactics numbers strings list gmap sorting.
From S2P Require Import Prelude.

(** A JSON value, [serde_json::Value], as far as the crate builds them. *)
#[warnings="-register-all"]
Inductive Json : Type :=
| JNull
| JString (s : string)
| JInt (z : Z)
| JObject (fields : list (string * Json)).

Class Platform := {
  (* the uuid crate *)
  Uuid : Type;
  #[global] Uuid_eq_decision :: EqDecision Uuid;
  #[global] Uuid_countable :: Countable Uuid;
  uuid_to_string : Uuid → string;             (* Uuid::to_string *)
  uuid_from_str : string → option Uuid;       (* Uuid::from_str, Err as None *)
  uuid_v4 : nat → Uuid;                       (* the n-th call of Uuid::new_v4 *)
  (* the sha2 and hex crates *)
  sha256 : list byte → list byte;             (* Sha256::digest *)
  hex_encode : list byte → string;            (* hex::encode *)
  (* the chrono crate and the clocks *)
  DateTime : Type;                            (* chrono::DateTime<Utc> *)
  timestamp_millis : DateTime → Z;
  utc_now : nat → DateTime;                   (* Utc::now, at the n-th clock reading *)
  instant_now : nat → Z;                      (* Instant::now in nanoseconds, likewise *)
  (* serde_json *)
  json_to_string : Json → string;             (* Value::to_string *)
  (* the iteration order of a HashMap, fixed by its contents within a run *)
  hashmap_values : ∀ {V : Type}, gmap Uuid V → list V;
  hashmap_keys : ∀ {V : Type}, gmap string V → list string
}.

Class PlatformLaws (P : Platform) : Prop := {
  #[global] uuid_to_string_inj :: Inj (=) (=) uuid_to_string;
  uuid_from_to_string : ∀ u, uuid_from_str (uuid_to_string u) = Some u;
  sha256_length : ∀ l, length (sha256 l) = 32%nat;
  #[global] hex_encode_inj :: Inj (=) (=) hex_encode;
  hex_encode_length : ∀ l, String.length (hex_encode l) = (2 * length l)%nat;
  timestamp_millis_i64 : ∀ t, i64_ok (timestamp_millis t);
  instant_now_mono : ∀ n m, (n ≤ m)%nat → instant_now n ≤ instant_now m;
  (* both crates print printable ASCII *)
  uuid_to_string_graphic : ∀ u, Forall (λ b, ascii_graphic b = true) (as_bytes (uuid_to_string u));
  hex_encode_graphic : ∀ l, Forall (λ b, ascii_graphic b = true) (as_bytes (hex_encode l));
  hashmap_values_perm : ∀ V (m : gmap Uuid V), hashmap_values m ≡ₚ (map_to_list m).*2;
  hashmap_keys_perm : ∀ V (m : gmap string V), hashmap_keys m ≡ₚ (map_to_list m).*1
}.

(** Two different byte strings with one SHA-256 digest. *)
Definition collision `{Platform} (x y : list byte) : Prop :=
  x ≠ y ∧ sha256 x = sha256 y.

(** ** Lemmas *)

Section PlatformLemmas.
Context {P : Platform} {PL : PlatformLaws P}.

Lemma elem_of_hashmap_values {V} (m : gmap Uuid V) (v : V) :
  v ∈ hashmap_values m ↔ ∃ u, m !! u = Some v.
Proof.
  rewrite hashmap_values_perm, list_elem_of_fmap. split.
  - intros ([u v'] & -> & Hin). exists u. by apply elem_of_map_to_list.
  - intros [u Hu]. exists (u, v). split; [done|]. by apply elem_of_map_to_list.
Qed.

Lemma elem_of_hashmap_keys {V} (m : gmap string V) (k : string) :
  k ∈ hashmap_keys m ↔ is_Some (m !! k).
Proof.
  rewrite hashmap_keys_perm, list_elem_of_fmap. split.
  - intros ([k' v] & -> & Hin). exists v. by apply elem_of_map_to_list.
  - intros [v Hv]. exists (k, v). split; [done|]. by apply elem_of_map_to_list.
Qed.

Lemma hashmap_keys_nodup {V} (m : gmap string V) : NoDup (hashmap_keys m).
Proof. rewrite hashmap_keys_perm. apply NoDup_fst_map_to_list. Qed.
End PlatformLemmas.

(** ** A concrete platform

    Identifiers are numbers rendered in decimal; the digest is a polynomial
    checksum of the bytes modulo [2^32], padded to 32 bytes; a time is its number of
    milliseconds, clamped to an [i64]. *)

Module Toy.
Definition byte_of_Z (z : Z) : byte := default "000"%byte (Byte.of_N (Z.to_N (Z.land z 255))).

Fixpoint bytes_be (k : nat) (z : Z) (acc : list byte) : list byte :=
  match k with
  | O => acc
  | S k' => bytes_be k' (Z.shiftr z 8) (byte_of_Z z :: acc)
  end.

Definition digest (l : list byte) : list byte :=
  bytes_be 32
    (fold_left (λ a b, Z.land (a * 31 + Z.of_N (Byte.to_N b) + 1) 4294967295) l 7) [].

Definition nibble (z : Z) : Ascii.ascii :=
  match Z.to_nat z with
  | 0 => "0" | 1 => "1" | 2 => "2" | 3 => "3" | 4 => "4" | 5 => "5" | 6 => "6"
  | 7 => "7" | 8 => "8" | 9 => "9" | 10 => "a" | 11 => "b" | 12 => "c"
  | 13 => "d" | 14 => "e" | _ => "f"
  end%char%nat.

Definition hex_byte (b : byte) : Ascii.ascii * Ascii.ascii :=
  let z := Z.of_N (Byte.to_N b) in (nibble (z / 16), nibble (z mod 16)).

Fixpoint hex (l : list byte) : string :=
  match l with
  | [] => ""
  | b :: l' => String (hex_byte b).1 (String (hex_byte b).2 (hex l'))
  end.

Definition clamp_i64 (z : Z) : Z := Z.max i64_min (Z.min i64_max z).

Definition uuid_parse (s : string) : option N := Z.to_N <$> parse_digits (as_bytes s).

(** A flat rendering of JSON: enough to see the event. *)
Fixpoint json (j : Json) : string :=
  match j with
  | JNull => "null"
  | JString s => "'" +:+ s +:+ "'"
  | JInt z => int_to_string z
  | JObject fs =>
      "{" +:+ foldr (λ f acc, "'" +:+ f.1 +:+ "':" +:+ json f.2 +:+ "," +:+ acc) "}" fs
  end.

Definition platform : Platform := {|
  Uuid := N;
  uuid_to_string u := int_to_string (Z.of_N u);
  uuid_from_str := uuid_parse;
  uuid_v4 := N.of_nat;
  sha256 := digest;
  hex_encode := hex;
  DateTime := Z;
  timestamp_millis := clamp_i64;
  utc_now n := 1700000000000 + Z.of_nat n;
  instant_now n := 1000000 * Z.of_nat n;
  json_to_string := json;
  hashmap_values V m := (map_to_list m).*2;
  hashmap_keys V m := (map_to_list m).*1
|}.

Lemma bytes_be_length (k : nat) (z : Z) (acc : list byte) :
  length (bytes_be k z acc) = (k + length acc)%nat.
Proof.
  revert z acc. induction k as [|k IH]; intros z acc; simpl; [done|].
  rewrite IH. simpl. lia.
Qed.

Definition nibble_value (a : Ascii.ascii) : Z :=
  let z := Z.of_N (Ascii.N_of_ascii a) in if z <? 97 then z - 48 else z - 87.

Definition unhex_byte (p : Ascii.ascii * Ascii.ascii) : byte :=
  byte_of_Z (16 * nibble_value p.1 + nibble_value p.2).

Lemma unhex_hex_byte (b : byte) : unhex_byte (hex_byte b) = b.
Proof. by destruct b. Qed.

Lemma hex_inj (l1 l2 : list byte) : hex l1 = hex l2 → l1 = l2.
Proof.
  revert l2. induction l1 as [|a l1 IH]; intros [|b l2]; simpl; try done.
  intros [= H1 H2 H]. f_equal; [|by apply IH].
  rewrite <- (unhex_hex_byte a), <- (unhex_hex_byte b). f_equal.
  by apply injective_projections.
Qed.

Lemma hex_length (l : list byte) : String.length (hex l) = (2 * length l)%nat.
Proof. induction l as [|b l IH]; simpl; [done|]. rewrite IH. lia. Qed.

Lemma nibble_graphic (z : Z) : ascii_graphic (byte_of_ascii (nibble z)) = true.
Proof. unfold nibble. by repeat case_match. Qed.

Lemma hex_graphic (l : list byte) : Forall (λ b, ascii_graphic b = true) (as_bytes (hex l)).
Proof.
  induction l as [|b l IH]; [constructor|]. cbn. repeat constructor; [apply nibble_graphic..|done].
Qed.

Lemma laws : PlatformLaws platform.
Proof.
  split.
  - intros u v H. simpl in H. apply (inj int_to_string) in H. lia.
  - intros u. simpl. unfold uuid_parse.
    rewrite as_bytes_int_to_string, parse_digits_decimal by lia. simpl. f_equal. lia.
  - intros l. change (length (digest l) = 32%nat). unfold digest. by rewrite bytes_be_length.
  - intros l1 l2. apply hex_inj.
  - intros l. apply hex_length.
  - intros t. unfold i64_ok. simpl. unfold clamp_i64, i64_min, i64_max. lia.
  - intros n m H. simpl. lia.
  - intros u. simpl. rewrite as_bytes_int_to_string. eapply Forall_impl; [apply decimal_digits; lia|].
    apply digit_graphic.
  - intros l. apply hex_graphic.
  - done.
  - done.
Qed.
End Toy.
