(* ===== verification/Crypto.v ===== *)
(** * [src/crypto/mod.rs]: the canonical proof envelope and its digest

    The definitions follow the file function by function; [canonical_bytes_v2]
    and [canonical_bytes_v3] are the buffers the two hash functions build before
    they call [sha256_hex].  The theorems show that the envelope is an
    injective, decodable encoding of the fields it binds, so that equal entry
    hashes mean equal bound fields or an explicit SHA-256 collision, and say
    exactly which fields each version binds. *)

From Stdlib Require Import String Strings.Byte ZArith Lia.
From stdpp Require Import base tactics numbers strings list gmap sorting.
From S2P Require Import Prelude Platform.

Definition ENTRY_HASH_VERSION_V2 : string := "ARE_LEDGER_ENTRY_HASH_V2".
Definition ENTRY_HASH_VERSION_V3 : string := "ARE_LEDGER_ENTRY_HASH_V3".
Definition ENTRY_HASH_VERSION : string := ENTRY_HASH_VERSION_V3.

Section Definitions.
Context {P : Platform}.

Record CanonicalEntryHashInput := {
  ch_entry_id : Uuid;
  ch_entry_type : string;
  ch_agent_id : string;
  ch_content : list byte;
  ch_content_type : string;
  ch_source_id : string;
  ch_correlation_id : option string;
  ch_idempotency_key : option string;
  ch_input_hash : option string;
  ch_writer_signature : option (list byte);
  ch_signer_key_reference : option string;
  ch_attestation_report : option (list byte);
  ch_chain_position : Z;
  ch_written_ts_ms : Z;
  ch_previous_hash : string
}.

Definition sha256_hex (value : list byte) : string := hex_encode (sha256 value).

(** [i64::from_be_bytes] of the first eight bytes of the digest. *)
Definition from_be_bytes (l : list byte) : Z :=
  wrap_i 64 (fold_left (λ acc b, acc * 256 + Z.of_N (Byte.to_N b)) l 0).

Definition advisory_lock_key (entry_type : string) : Z :=
  from_be_bytes (take 8 (sha256 (as_bytes entry_type))).

(** [name ":" len ":" value "\n"], appended to the buffer push by push. *)
Definition append_field (bytes : list byte) (name : string) (value : list byte)
    : list byte :=
  let bytes := bytes ++ as_bytes name in
  let bytes := bytes ++ [":"%byte] in
  let bytes := bytes ++ decimal (Z.of_nat (length value)) in
  let bytes := bytes ++ [":"%byte] in
  let bytes := bytes ++ value in
  bytes ++ ["010"%byte].

(** [unwrap_or_default().as_bytes()] on an [Option<&str>]. *)
Definition str_or_default (o : option string) : list byte := as_bytes (default "" o).
Definition bytes_or_default (o : option (list byte)) : list byte := default [] o.

Definition canonical_bytes_v2 (input : CanonicalEntryHashInput) : list byte :=
  let bytes := as_bytes ENTRY_HASH_VERSION_V2 ++ ["010"%byte] in
  let bytes := append_field bytes "entry_id" (as_bytes (uuid_to_string (ch_entry_id input))) in
  let bytes := append_field bytes "entry_type" (as_bytes (ch_entry_type input)) in
  let bytes := append_field bytes "agent_id" (as_bytes (ch_agent_id input)) in
  let bytes := append_field bytes "content" (ch_content input) in
  let bytes := append_field bytes "content_type" (as_bytes (ch_content_type input)) in
  let bytes := append_field bytes "source_id" (as_bytes (ch_source_id input)) in
  let bytes := append_field bytes "correlation_id" (str_or_default (ch_correlation_id input)) in
  let bytes := append_field bytes "idempotency_key" (str_or_default (ch_idempotency_key input)) in
  let bytes := append_field bytes "input_hash" (str_or_default (ch_input_hash input)) in
  let bytes := append_field bytes "chain_position" (decimal (ch_chain_position input)) in
  let bytes := append_field bytes "written_ts_ms" (decimal (ch_written_ts_ms input)) in
  append_field bytes "previous_hash" (as_bytes (ch_previous_hash input)).

Definition canonical_entry_hash_v2 (input : CanonicalEntryHashInput) : string :=
  sha256_hex (canonical_bytes_v2 input).

Definition canonical_bytes_v3 (input : CanonicalEntryHashInput) : list byte :=
  let bytes := as_bytes ENTRY_HASH_VERSION_V3 ++ ["010"%byte] in
  let bytes := append_field bytes "hash_version" (as_bytes ENTRY_HASH_VERSION_V3) in
  let bytes := append_field bytes "entry_id" (as_bytes (uuid_to_string (ch_entry_id input))) in
  let bytes := append_field bytes "entry_type" (as_bytes (ch_entry_type input)) in
  let bytes := append_field bytes "agent_id" (as_bytes (ch_agent_id input)) in
  let bytes := append_field bytes "content" (ch_content input) in
  let bytes := append_field bytes "content_type" (as_bytes (ch_content_type input)) in
  let bytes := append_field bytes "source_id" (as_bytes (ch_source_id input)) in
  let bytes := append_field bytes "correlation_id" (str_or_default (ch_correlation_id input)) in
  let bytes := append_field bytes "idempotency_key" (str_or_default (ch_idempotency_key input)) in
  let bytes := append_field bytes "input_hash" (str_or_default (ch_input_hash input)) in
  let bytes := append_field bytes "writer_signature" (bytes_or_default (ch_writer_signature input)) in
  let bytes := append_field bytes "signer_key_reference" (str_or_default (ch_signer_key_reference input)) in
  let bytes := append_field bytes "attestation_report" (bytes_or_default (ch_attestation_report input)) in
  let bytes := append_field bytes "chain_position" (decimal (ch_chain_position input)) in
  let bytes := append_field bytes "written_ts_ms" (decimal (ch_written_ts_ms input)) in
  append_field bytes "previous_hash" (as_bytes (ch_previous_hash input)).

Definition canonical_entry_hash_v3 (input : CanonicalEntryHashInput) : string :=
  sha256_hex (canonical_bytes_v3 input).

Definition canonical_entry_hash_for_version (version : string)
    (input : CanonicalEntryHashInput) : option string :=
  if String.eqb version ENTRY_HASH_VERSION_V2 then Some (canonical_entry_hash_v2 input)
  else if String.eqb version ENTRY_HASH_VERSION_V3 then Some (canonical_entry_hash_v3 input)
  else None.

(** The [expect] cannot fail ([canonical_entry_hash_supported] below); the empty
    string stands for the panic. *)
Definition canonical_entry_hash (input : CanonicalEntryHashInput) : string :=
  match canonical_entry_hash_for_version ENTRY_HASH_VERSION input with
  | Some hash => hash
  | None => ""
  end.

(** ** The specification: which fields a version binds, and a decoder *)

(** The field list of an envelope, and its rendering. *)
Definition encode_field (f : string * list byte) : list byte :=
  as_bytes f.1 ++ ":"%byte :: decimal (Z.of_nat (length f.2)) ++ ":"%byte :: f.2 ++ ["010"%byte].

Definition encode_fields (fs : list (string * list byte)) : list byte :=
  fs ≫= encode_field.

Definition fields_common (i : CanonicalEntryHashInput) : list (string * list byte) :=
  [("entry_id", as_bytes (uuid_to_string (ch_entry_id i)));
   ("entry_type", as_bytes (ch_entry_type i));
   ("agent_id", as_bytes (ch_agent_id i));
   ("content", ch_content i);
   ("content_type", as_bytes (ch_content_type i));
   ("source_id", as_bytes (ch_source_id i));
   ("correlation_id", str_or_default (ch_correlation_id i));
   ("idempotency_key", str_or_default (ch_idempotency_key i));
   ("input_hash", str_or_default (ch_input_hash i))].

Definition fields_proof (i : CanonicalEntryHashInput) : list (string * list byte) :=
  [("writer_signature", bytes_or_default (ch_writer_signature i));
   ("signer_key_reference", str_or_default (ch_signer_key_reference i));
   ("attestation_report", bytes_or_default (ch_attestation_report i))].

Definition fields_chain (i : CanonicalEntryHashInput) : list (string * list byte) :=
  [("chain_position", decimal (ch_chain_position i));
   ("written_ts_ms", decimal (ch_written_ts_ms i));
   ("previous_hash", as_bytes (ch_previous_hash i))].

Definition fields_v2 (i : CanonicalEntryHashInput) : list (string * list byte) :=
  fields_common i ++ fields_chain i.

Definition fields_v3 (i : CanonicalEntryHashInput) : list (string * list byte) :=
  ("hash_version", as_bytes ENTRY_HASH_VERSION_V3)
    :: fields_common i ++ fields_proof i ++ fields_chain i.

(** The bound part of an input: an absent optional field counts as an empty one,
    and V2 does not see the proof material. *)
Definition bound_v3 (i : CanonicalEntryHashInput) : CanonicalEntryHashInput := {|
  ch_entry_id := ch_entry_id i;
  ch_entry_type := ch_entry_type i;
  ch_agent_id := ch_agent_id i;
  ch_content := ch_content i;
  ch_content_type := ch_content_type i;
  ch_source_id := ch_source_id i;
  ch_correlation_id := Some (default "" (ch_correlation_id i));
  ch_idempotency_key := Some (default "" (ch_idempotency_key i));
  ch_input_hash := Some (default "" (ch_input_hash i));
  ch_writer_signature := Some (default [] (ch_writer_signature i));
  ch_signer_key_reference := Some (default "" (ch_signer_key_reference i));
  ch_attestation_report := Some (default [] (ch_attestation_report i));
  ch_chain_position := ch_chain_position i;
  ch_written_ts_ms := ch_written_ts_ms i;
  ch_previous_hash := ch_previous_hash i
|}.

Definition bound_v2 (i : CanonicalEntryHashInput) : CanonicalEntryHashInput := {|
  ch_entry_id := ch_entry_id i;
  ch_entry_type := ch_entry_type i;
  ch_agent_id := ch_agent_id i;
  ch_content := ch_content i;
  ch_content_type := ch_content_type i;
  ch_source_id := ch_source_id i;
  ch_correlation_id := Some (default "" (ch_correlation_id i));
  ch_idempotency_key := Some (default "" (ch_idempotency_key i));
  ch_input_hash := Some (default "" (ch_input_hash i));
  ch_writer_signature := None;
  ch_signer_key_reference := None;
  ch_attestation_report := None;
  ch_chain_position := ch_chain_position i;
  ch_written_ts_ms := ch_written_ts_ms i;
  ch_previous_hash := ch_previous_hash i
|}.

Definition bound (version : string) (i : CanonicalEntryHashInput) : CanonicalEntryHashInput :=
  if String.eqb version ENTRY_HASH_VERSION_V2 then bound_v2 i else bound_v3 i.

Definition canonical_bytes (version : string) (i : CanonicalEntryHashInput) : list byte :=
  if String.eqb version ENTRY_HASH_VERSION_V2 then canonical_bytes_v2 i
  else canonical_bytes_v3 i.

(** The decoder of a field list: split at the first colon, read the length,
    split at the second, take that many bytes and the newline. *)
Fixpoint split_colon (l : list byte) : option (list byte * list byte) :=
  match l with
  | [] => None
  | b :: l' =>
      if decide (b = ":"%byte) then Some ([], l')
      else match split_colon l' with
           | Some (x, rest) => Some (b :: x, rest)
           | None => None
           end
  end.

Definition decode_field (l : list byte) : option (string * list byte * list byte) :=
  match split_colon l with
  | Some (name, l1) =>
      match split_colon l1 with
      | Some (len, l2) =>
          match parse_digits len with
          | Some n =>
              match drop (Z.to_nat n) l2 with
              | "010"%byte :: rest => Some (string_of_list_byte name, take (Z.to_nat n) l2, rest)
              | _ => None
              end
          | None => None
          end
      | None => None
      end
  | None => None
  end.

Fixpoint decode_fields (k : nat) (l : list byte) : option (list (string * list byte)) :=
  match k with
  | O => match l with [] => Some [] | _ => None end
  | S k' =>
      match decode_field l with
      | Some (name, value, rest) =>
          match decode_fields k' rest with
          | Some fs => Some ((name, value) :: fs)
          | None => None
          end
      | None => None
      end
  end.

(** An envelope is the version line and then its fields: 12 in V2, 16 in V3. *)
Definition decode_envelope (version : string) (k : nat) (l : list byte)
    : option (list (string * list byte)) :=
  let tag := as_bytes version ++ ["010"%byte] in
  if decide (take (length tag) l = tag) then decode_fields k (drop (length tag) l) else None.
End Definitions.

(** * Lemmas *)

Section EncodingLemmas.
Context {P : Platform}.

Lemma append_field_encode (bytes : list byte) (name : string) (value : list byte) :
  append_field bytes name value = bytes ++ encode_field (name, value).
Proof. unfold append_field, encode_field. simpl. by rewrite <- !(assoc (++)). Qed.

Lemma encode_fields_cons (f : string * list byte) (fs : list (string * list byte)) :
  encode_fields (f :: fs) = encode_field f ++ encode_fields fs.
Proof. done. Qed.

Lemma canonical_bytes_v2_fields (i : CanonicalEntryHashInput) :
  canonical_bytes_v2 i
  = (as_bytes ENTRY_HASH_VERSION_V2 ++ ["010"%byte]) ++ encode_fields (fields_v2 i).
Proof.
  unfold canonical_bytes_v2, fields_v2, fields_common, fields_chain. cbn [app].
  rewrite !append_field_encode, !encode_fields_cons, <- !(assoc (++)).
  unfold encode_fields. cbn [mbind list_bind]. by rewrite !(right_id [] (++)).
Qed.

Lemma canonical_bytes_v3_fields (i : CanonicalEntryHashInput) :
  canonical_bytes_v3 i
  = (as_bytes ENTRY_HASH_VERSION_V3 ++ ["010"%byte]) ++ encode_fields (fields_v3 i).
Proof.
  unfold canonical_bytes_v3, fields_v3, fields_common, fields_proof, fields_chain.
  cbn [app].
  rewrite !append_field_encode, !encode_fields_cons, <- !(assoc (++)).
  unfold encode_fields. cbn [mbind list_bind]. by rewrite !(right_id [] (++)).
Qed.

Lemma split_colon_app (x rest : list byte) :
  ":"%byte ∉ x → split_colon (x ++ ":"%byte :: rest) = Some (x, rest).
Proof.
  induction x as [|b x IH]; intros Hx; simpl; [done|].
  apply not_elem_of_cons in Hx as [Hb Hx]. rewrite decide_False by congruence.
  by rewrite IH.
Qed.

Lemma decimal_no_colon (n : Z) : 0 ≤ n → ":"%byte ∉ decimal n.
Proof.
  intros Hn Hin. pose proof (decimal_digits n Hn) as Hd.
  rewrite Forall_forall in Hd. by destruct (Hd _ Hin).
Qed.

Lemma decode_encode_field (f : string * list byte) (rest : list byte) :
  ":"%byte ∉ as_bytes f.1 →
  decode_field (encode_field f ++ rest) = Some (f, rest).
Proof.
  destruct f as [name value]. simpl. intros Hname. unfold decode_field, encode_field. simpl.
  rewrite <- (assoc (++)), <- app_comm_cons, split_colon_app by done.
  rewrite <- (assoc (++)), <- app_comm_cons, split_colon_app by (apply decimal_no_colon; lia).
  rewrite parse_digits_decimal, Nat2Z.id, <- (assoc (++)), drop_app_length by lia. simpl.
  unfold as_bytes. by rewrite take_app3_length, string_of_list_byte_of_string.
Qed.

Lemma decode_encode_fields (fs : list (string * list byte)) :
  Forall (λ f, ":"%byte ∉ as_bytes f.1) fs →
  decode_fields (length fs) (encode_fields fs) = Some fs.
Proof.
  induction 1 as [|[name value] fs Hf Hfs IH]; [done|].
  rewrite encode_fields_cons. simpl. by rewrite decode_encode_field, IH.
Qed.

Lemma decode_envelope_encode (version : string) (fs : list (string * list byte)) :
  Forall (λ f, ":"%byte ∉ as_bytes f.1) fs →
  decode_envelope version (length fs)
    ((as_bytes version ++ ["010"%byte]) ++ encode_fields fs) = Some fs.
Proof.
  intros Hfs. unfold decode_envelope. cbv zeta.
  rewrite take_app_length, drop_app_length, decide_True by done.
  by apply decode_encode_fields.
Qed.

Lemma field_names_v2 (i : CanonicalEntryHashInput) :
  Forall (λ f, ":"%byte ∉ as_bytes f.1) (fields_v2 i).
Proof.
  repeat constructor; simpl; by apply (bool_decide_eq_true_1 (":"%byte ∉ _)).
Qed.

Lemma field_names_v3 (i : CanonicalEntryHashInput) :
  Forall (λ f, ":"%byte ∉ as_bytes f.1) (fields_v3 i).
Proof.
  repeat constructor; simpl; by apply (bool_decide_eq_true_1 (":"%byte ∉ _)).
Qed.

(** The two versions never produce the same buffer: they differ in the version
    line, at byte 23. *)
Lemma canonical_bytes_v2_v3_ne (i j : CanonicalEntryHashInput) :
  canonical_bytes_v2 i ≠ canonical_bytes_v3 j.
Proof.
  rewrite canonical_bytes_v2_fields, canonical_bytes_v3_fields. intros H.
  apply (f_equal (λ l, l !! 23%nat)) in H. by vm_compute in H.
Qed.

Lemma version_v2_v3 : String.eqb ENTRY_HASH_VERSION_V3 ENTRY_HASH_VERSION_V2 = false.
Proof. done. Qed.

Lemma canonical_entry_hash_supported (i : CanonicalEntryHashInput) :
  canonical_entry_hash_for_version ENTRY_HASH_VERSION i = Some (canonical_entry_hash i).
Proof. done. Qed.

Lemma canonical_entry_hash_v3_eq (i : CanonicalEntryHashInput) :
  canonical_entry_hash i = canonical_entry_hash_v3 i.
Proof. done. Qed.

Lemma canonical_entry_hash_for_version_bytes (v h : string) (i : CanonicalEntryHashInput) :
  canonical_entry_hash_for_version v i = Some h ↔
  (v = ENTRY_HASH_VERSION_V2 ∨ v = ENTRY_HASH_VERSION_V3) ∧
  h = sha256_hex (canonical_bytes v i).
Proof.
  unfold canonical_entry_hash_for_version, canonical_bytes.
  destruct (String.eqb_spec v ENTRY_HASH_VERSION_V2) as [->|H2].
  - unfold canonical_entry_hash_v2. intuition congruence.
  - destruct (String.eqb_spec v ENTRY_HASH_VERSION_V3) as [->|H3].
    + unfold canonical_entry_hash_v3. intuition congruence.
    + intuition congruence.
Qed.

Lemma canonical_entry_hash_for_version_None (v : string) (i : CanonicalEntryHashInput) :
  canonical_entry_hash_for_version v i = None ↔
  v ≠ ENTRY_HASH_VERSION_V2 ∧ v ≠ ENTRY_HASH_VERSION_V3.
Proof.
  unfold canonical_entry_hash_for_version.
  destruct (String.eqb_spec v ENTRY_HASH_VERSION_V2); [intuition congruence|].
  destruct (String.eqb_spec v ENTRY_HASH_VERSION_V3); intuition congruence.
Qed.

Lemma str_or_default_inj (o1 o2 : option string) :
  str_or_default o1 = str_or_default o2 → default "" o1 = default "" o2.
Proof. unfold str_or_default. apply (inj as_bytes). Qed.
End EncodingLemmas.

Section BindingLemmas.
Context {P : Platform} {PL : PlatformLaws P}.

Lemma fields_v3_inj (i j : CanonicalEntryHashInput) :
  fields_v3 i = fields_v3 j → bound_v3 i = bound_v3 j.
Proof.
  unfold fields_v3, fields_common, fields_proof, fields_chain. simpl.
  intros [= ? ? ? ? ? ? ? ? ? ? ? ? ? ? ?]. unfold bound_v3, bytes_or_default in *.
  repeat match goal with H : str_or_default _ = _ |- _ => apply str_or_default_inj in H end.
  repeat match goal with
  | H : as_bytes _ = _ |- _ => apply (inj as_bytes) in H
  | H : uuid_to_string _ = _ |- _ => apply (inj uuid_to_string) in H
  | H : decimal _ = _ |- _ => apply (inj decimal) in H
  end.
  f_equal; congruence.
Qed.

Lemma fields_v2_inj (i j : CanonicalEntryHashInput) :
  fields_v2 i = fields_v2 j → bound_v2 i = bound_v2 j.
Proof.
  unfold fields_v2, fields_common, fields_chain. simpl.
  intros [= ? ? ? ? ? ? ? ? ? ? ? ?]. unfold bound_v2.
  repeat match goal with H : str_or_default _ = _ |- _ => apply str_or_default_inj in H end.
  repeat match goal with
  | H : as_bytes _ = _ |- _ => apply (inj as_bytes) in H
  | H : uuid_to_string _ = _ |- _ => apply (inj uuid_to_string) in H
  | H : decimal _ = _ |- _ => apply (inj decimal) in H
  end.
  f_equal; congruence.
Qed.

Lemma canonical_bytes_v3_bound (i j : CanonicalEntryHashInput) :
  canonical_bytes_v3 i = canonical_bytes_v3 j ↔ bound_v3 i = bound_v3 j.
Proof.
  split.
  - rewrite !canonical_bytes_v3_fields. intros H%(f_equal (decode_envelope ENTRY_HASH_VERSION_V3 16)).
    apply fields_v3_inj.
    pose proof (decode_envelope_encode ENTRY_HASH_VERSION_V3 _ (field_names_v3 i)) as Hi.
    pose proof (decode_envelope_encode ENTRY_HASH_VERSION_V3 _ (field_names_v3 j)) as Hj.
    change (length (fields_v3 i)) with 16%nat in Hi.
    change (length (fields_v3 j)) with 16%nat in Hj. congruence.
  - intros H. destruct i, j. unfold bound_v3 in H. simpl in H.
    injection H as -> -> -> -> -> -> Hc Hk Hh Hw Hs Ha -> -> ->.
    unfold canonical_bytes_v3, str_or_default, bytes_or_default. simpl.
    by rewrite Hc, Hk, Hh, Hw, Hs, Ha.
Qed.

Lemma canonical_bytes_v2_bound (i j : CanonicalEntryHashInput) :
  canonical_bytes_v2 i = canonical_bytes_v2 j ↔ bound_v2 i = bound_v2 j.
Proof.
  split.
  - rewrite !canonical_bytes_v2_fields. intros H%(f_equal (decode_envelope ENTRY_HASH_VERSION_V2 12)).
    apply fields_v2_inj.
    pose proof (decode_envelope_encode ENTRY_HASH_VERSION_V2 _ (field_names_v2 i)) as Hi.
    pose proof (decode_envelope_encode ENTRY_HASH_VERSION_V2 _ (field_names_v2 j)) as Hj.
    change (length (fields_v2 i)) with 12%nat in Hi.
    change (length (fields_v2 j)) with 12%nat in Hj. congruence.
  - intros H. destruct i, j. unfold bound_v2 in H. simpl in H.
    injection H as -> -> -> -> -> -> Hc Hk Hh -> -> ->.
    unfold canonical_bytes_v2, str_or_default. simpl. by rewrite Hc, Hk, Hh.
Qed.

(** The buffer of a supported version determines the version and the fields the
    version binds. *)
Lemma canonical_bytes_inj (v w : string) (i j : CanonicalEntryHashInput) :
  v = ENTRY_HASH_VERSION_V2 ∨ v = ENTRY_HASH_VERSION_V3 →
  w = ENTRY_HASH_VERSION_V2 ∨ w = ENTRY_HASH_VERSION_V3 →
  canonical_bytes v i = canonical_bytes w j → v = w ∧ bound v i = bound w j.
Proof.
  unfold canonical_bytes, bound. intros [->| ->] [->| ->]; simpl; intros H.
  - split; [done|]. by apply canonical_bytes_v2_bound.
  - by apply canonical_bytes_v2_v3_ne in H.
  - symmetry in H. by apply canonical_bytes_v2_v3_ne in H.
  - split; [done|]. by apply canonical_bytes_v3_bound.
Qed.

Lemma sha256_hex_inj (x y : list byte) :
  sha256_hex x = sha256_hex y → x = y ∨ collision x y.
Proof.
  unfold sha256_hex. intros H%(inj hex_encode). unfold collision.
  destruct (decide (x = y)); [by left|by right].
Qed.

Lemma sha256_hex_length (x : list byte) : String.length (sha256_hex x) = 64%nat.
Proof. unfold sha256_hex. rewrite hex_encode_length, sha256_length. done. Qed.

Lemma sha256_hex_nonempty (x : list byte) : is_empty (sha256_hex x) = false.
Proof.
  apply is_empty_false. intros H. pose proof (sha256_hex_length x) as Hl.
  by rewrite H in Hl.
Qed.
End BindingLemmas.

Section LockKeyLemmas.
Definition be_value (l : list byte) : Z :=
  fold_left (λ acc b, acc * 256 + Z.of_N (Byte.to_N b)) l 0.

Lemma byte_value_bounds (b : byte) : 0 ≤ Z.of_N (Byte.to_N b) < 256.
Proof. pose proof (Byte.to_N_bounded b). lia. Qed.

Lemma be_value_snoc (l : list byte) (b : byte) :
  be_value (l ++ [b]) = be_value l * 256 + Z.of_N (Byte.to_N b).
Proof. unfold be_value. by rewrite fold_left_app. Qed.

Lemma be_value_bounds (l : list byte) : 0 ≤ be_value l < 256 ^ Z.of_nat (length l).
Proof.
  induction l as [|b l IH] using rev_ind; [done|].
  rewrite be_value_snoc, length_app, Nat2Z.inj_add, Z.pow_add_r by lia. simpl.
  pose proof (byte_value_bounds b). change (256 ^ 1) with 256. lia.
Qed.

Lemma be_value_inj (l1 l2 : list byte) :
  length l1 = length l2 → be_value l1 = be_value l2 → l1 = l2.
Proof.
  revert l2. induction l1 as [|b1 l1 IH] using rev_ind; intros l2.
  { by destruct l2. }
  destruct l2 as [|b2 l2 _] using rev_ind; rewrite !length_app; simpl; [lia|].
  intros Hlen. rewrite !be_value_snoc. intros Hv.
  pose proof (byte_value_bounds b1). pose proof (byte_value_bounds b2).
  assert (Z.of_N (Byte.to_N b1) = Z.of_N (Byte.to_N b2)) as Hb by lia.
  rewrite (IH l2) by lia. f_equal. f_equal. apply (inj Z.of_N) in Hb.
  pose proof (Byte.of_to_N b1) as H1. pose proof (Byte.of_to_N b2) as H2. congruence.
Qed.

Lemma from_be_bytes_inj (l1 l2 : list byte) :
  length l1 = 8%nat → length l2 = 8%nat → from_be_bytes l1 = from_be_bytes l2 → l1 = l2.
Proof.
  intros H1 H2. change (wrap_i 64 (be_value l1) = wrap_i 64 (be_value l2) → l1 = l2).
  unfold wrap_i. intros H. apply be_value_inj; [lia|].
  pose proof (be_value_bounds l1) as B1. pose proof (be_value_bounds l2) as B2.
  rewrite H1 in B1. rewrite H2 in B2. change (256 ^ Z.of_nat 8) with (2 ^ 64) in *.
  pose proof (Z.div_mod (be_value l1 + 2 ^ (64 - 1)) (2 ^ 64) ltac:(lia)).
  pose proof (Z.div_mod (be_value l2 + 2 ^ (64 - 1)) (2 ^ 64) ltac:(lia)). lia.
Qed.

Lemma wrap_i64_ok (z : Z) : i64_ok (wrap_i 64 z).
Proof.
  unfold i64_ok, wrap_i, i64_min, i64_max.
  pose proof (Z.mod_pos_bound (z + 2 ^ (64 - 1)) (2 ^ 64) ltac:(lia)).
  change (2 ^ (64 - 1)) with (2 ^ 63) in *. lia.
Qed.
End LockKeyLemmas.

(** * Properties *)

Section CryptoProperties.
Context {P : Platform} {PL : PlatformLaws P}.

(** C7: an entry hash commits to its envelope: if two inputs, hashed under any
    versions, have the same hash, then the versions are the same and so is every
    field the version binds (an absent optional field counting as an empty one,
    and V2 leaving the proof material out), or the two envelopes are a SHA-256
    collision.  Conversely inputs that agree on the bound fields have one hash. *)
Theorem entry_hash_binding (v v' : string) (i j : CanonicalEntryHashInput) h :
  canonical_entry_hash_for_version v i = Some h →
  (canonical_entry_hash_for_version v' j = Some h →
   (v = v' ∧ bound v i = bound v' j) ∨ collision (canonical_bytes v i) (canonical_bytes v' j))
  ∧ (v = v' → bound v i = bound v' j → canonical_entry_hash_for_version v' j = Some h).
Proof.
  intros [Hv Hi]%canonical_entry_hash_for_version_bytes. split.
  - intros [Hv' Hj]%canonical_entry_hash_for_version_bytes. rewrite Hi in Hj.
    apply sha256_hex_inj in Hj as [Hj|Hj]; [left|by right].
    by apply canonical_bytes_inj.
  - intros <- Hb. apply canonical_entry_hash_for_version_bytes. split; [done|].
    rewrite Hi. f_equal. unfold canonical_bytes, bound in *.
    destruct (String.eqb v ENTRY_HASH_VERSION_V2);
      [by apply canonical_bytes_v2_bound|by apply canonical_bytes_v3_bound].
Qed.

(** The envelope is a decodable encoding: from the bytes hashed for V3 (and
    for V2) a reader recovers the list of field names and values, whatever bytes
    the values contain, separators and newlines included. *)
Theorem envelope_roundtrip (i : CanonicalEntryHashInput) :
  decode_envelope ENTRY_HASH_VERSION_V3 16 (canonical_bytes_v3 i) = Some (fields_v3 i)
  ∧ decode_envelope ENTRY_HASH_VERSION_V2 12 (canonical_bytes_v2 i) = Some (fields_v2 i).
Proof.
  rewrite canonical_bytes_v3_fields, canonical_bytes_v2_fields. split.
  - apply (decode_envelope_encode _ (fields_v3 i)), field_names_v3.
  - apply (decode_envelope_encode _ (fields_v2 i)), field_names_v2.
Qed.

(** Hash versions fail closed: a hash is computed for the two known versions
    and for no other text, the version used for new entries always has one (the
    [expect] cannot fail), and the two versions never hash the same bytes. *)
Theorem hash_version_dispatch (v : string) (i j : CanonicalEntryHashInput) :
  (canonical_entry_hash_for_version v i = None ↔
     v ≠ ENTRY_HASH_VERSION_V2 ∧ v ≠ ENTRY_HASH_VERSION_V3)
  ∧ canonical_entry_hash_for_version ENTRY_HASH_VERSION i = Some (canonical_entry_hash i)
  ∧ String.length (canonical_entry_hash i) = 64%nat
  ∧ canonical_bytes_v2 i ≠ canonical_bytes_v3 j.
Proof.
  split; [apply canonical_entry_hash_for_version_None|]. split; [done|].
  split; [apply sha256_hex_length|apply canonical_bytes_v2_v3_ne].
Qed.

(** The advisory lock key is a signed 64-bit integer, and two entry types share
    one only when their digests agree on the first eight bytes. *)
Theorem advisory_lock_key_separates (t1 t2 : string) :
  i64_ok (advisory_lock_key t1)
  ∧ (advisory_lock_key t1 = advisory_lock_key t2 →
     take 8 (sha256 (as_bytes t1)) = take 8 (sha256 (as_bytes t2))).
Proof.
  split; [apply wrap_i64_ok|]. apply from_be_bytes_inj; by rewrite length_take, sha256_length.
Qed.
End CryptoProperties.

(** * Witnesses *)

#[local] Existing Instance Toy.platform.
#[local] Existing Instance Toy.laws.

Definition demo_hash_input (sig : option (list byte)) (corr : option string)
    : CanonicalEntryHashInput := {|
  ch_entry_id := 1%N; ch_entry_type := "t"; ch_agent_id := "a"; ch_content := as_bytes "c";
  ch_content_type := "p"; ch_source_id := "s"; ch_correlation_id := corr;
  ch_idempotency_key := None; ch_input_hash := None; ch_writer_signature := sig;
  ch_signer_key_reference := None; ch_attestation_report := None; ch_chain_position := 1;
  ch_written_ts_ms := 5; ch_previous_hash := "g"
|}.

(** An absent correlation identifier and an empty one hash alike. *)
Lemma entry_hash_binding_witness :
  canonical_entry_hash_for_version ENTRY_HASH_VERSION_V3 (demo_hash_input None (Some ""))
  = Some (canonical_entry_hash_v3 (demo_hash_input None None)).
Proof.
  apply (entry_hash_binding ENTRY_HASH_VERSION_V3 ENTRY_HASH_VERSION_V3
           (demo_hash_input None None) (demo_hash_input None (Some "")));
    reflexivity.
Defined.

Lemma envelope_roundtrip_witness :
  decode_envelope ENTRY_HASH_VERSION_V3 16
    (canonical_bytes_v3 (demo_hash_input (Some (as_bytes "1:2")) None))
  = Some (fields_v3 (demo_hash_input (Some (as_bytes "1:2")) None)).
Proof. apply (envelope_roundtrip (demo_hash_input (Some (as_bytes "1:2")) None)). Defined.

Lemma hash_version_dispatch_witness :
  canonical_entry_hash_for_version "V9" (demo_hash_input None None) = None.
Proof.
  apply (hash_version_dispatch "V9" (demo_hash_input None None) (demo_hash_input None None)).
  by split.
Defined.

Lemma advisory_lock_key_separates_witness : i64_ok (advisory_lock_key "t").
Proof. apply (advisory_lock_key_separates "t" "u"). Defined.
