(* ===== verification/Repository.v ===== *)
(** * [src/repository/mod.rs]: records, the [LedgerRepository] trait and the
    in-memory repository

    The records keep the field names of the structs, with a prefix per struct
    ([le_] LedgerEntryRecord, [ob_] OutboxRecord, [ct_] ChainTip, [wr_]
    WriteResult, [ew_] EntryWriteInput, [eq_] EntryQuery, [qr_] QueryResult).

    The trait is the class [LedgerRepository]: an operation takes the
    repository's state and returns its [Result] and the new state, so that a
    client written against the trait is a function generic in the class.  Each
    call is atomic, as each method of the in-memory repository holds the
    [RwLock] guard over its whole body.  [write_entry_with_outbox] also threads
    the number of identifiers drawn so far from [Uuid::new_v4].

    [Inner] is the state of [InMemoryLedgerRepository], one map per [HashMap]. *)

From Stdlib Require Import String Strings.Byte ZArith Lia.
From stdpp Require Import base tactics numbers strings list gmap sorting.
From S2P Require Import Prelude Platform Crypto.

Inductive OutboxStatus : Type := Pending | Delivered | Failed.

#[global] Instance OutboxStatus_eq_decision : EqDecision OutboxStatus.
Proof. solve_decision. Defined.

Inductive RepositoryError : Type :=
| NotFound
| Unavailable
| ChainIntegrityViolation
| IdempotencyConflict.

#[global] Instance RepositoryError_eq_decision : EqDecision RepositoryError.
Proof. solve_decision. Defined.

Record EntryQuery := {
  eq_entry_type_prefix : option string;
  eq_agent_id : option string;
  eq_source_id : option string;
  eq_correlation_id : option string;
  eq_from_ts_ms : option Z;
  eq_to_ts_ms : option Z;
  eq_limit : Z;
  eq_offset : Z
}.

Section Records.
Context {P : Platform}.

Record LedgerEntryRecord := {
  le_entry_id : Uuid;
  le_entry_type : string;
  le_agent_id : string;
  le_content : list byte;
  le_content_type : string;
  le_source_id : string;
  le_correlation_id : option string;
  le_idempotency_key : option string;
  le_input_hash : option string;
  le_writer_signature : option (list byte);
  le_signer_key_reference : option string;
  le_attestation_report : option (list byte);
  le_hash_version : string;
  le_entry_hash : string;
  le_previous_hash : string;
  le_chain_position : Z;
  le_written_ts : DateTime
}.

Record OutboxRecord := {
  ob_outbox_id : Uuid;
  ob_entry_id : Uuid;
  ob_entry_type : string;
  ob_payload : string;
  ob_status : OutboxStatus;
  ob_attempt_count : Z
}.

Record ChainTip := {
  ct_entry_id : Uuid;
  ct_hash : string;
  ct_hash_version : string;
  ct_position : Z;
  ct_written_ts : DateTime
}.

Record WriteResult := {
  wr_entry : LedgerEntryRecord;
  wr_outbox : option OutboxRecord
}.

Record EntryWriteInput := {
  ew_entry_type : string;
  ew_agent_id : string;
  ew_content : list byte;
  ew_content_type : string;
  ew_source_id : string;
  ew_correlation_id : option string;
  ew_idempotency_key : option string;
  ew_input_hash : option string;
  ew_writer_signature : option (list byte);
  ew_signer_key_reference : option string;
  ew_attestation_report : option (list byte);
  ew_previous_hash : string;
  ew_written_ts : DateTime;
  ew_create_outbox : bool
}.

Record QueryResult := {
  qr_entries : list LedgerEntryRecord;
  qr_total_count : Z
}.

(** The envelope input the code builds from a stored entry, wherever it
    recomputes a hash. *)
Definition hash_input_of_entry (entry : LedgerEntryRecord) : CanonicalEntryHashInput := {|
  ch_entry_id := le_entry_id entry;
  ch_entry_type := le_entry_type entry;
  ch_agent_id := le_agent_id entry;
  ch_content := le_content entry;
  ch_content_type := le_content_type entry;
  ch_source_id := le_source_id entry;
  ch_correlation_id := le_correlation_id entry;
  ch_idempotency_key := le_idempotency_key entry;
  ch_input_hash := le_input_hash entry;
  ch_writer_signature := le_writer_signature entry;
  ch_signer_key_reference := le_signer_key_reference entry;
  ch_attestation_report := le_attestation_report entry;
  ch_chain_position := le_chain_position entry;
  ch_written_ts_ms := timestamp_millis (le_written_ts entry);
  ch_previous_hash := le_previous_hash entry
|}.

(** The envelope input of a write in progress. *)
Definition hash_input_of_write (entry_id : Uuid) (position : Z) (input : EntryWriteInput)
    : CanonicalEntryHashInput := {|
  ch_entry_id := entry_id;
  ch_entry_type := ew_entry_type input;
  ch_agent_id := ew_agent_id input;
  ch_content := ew_content input;
  ch_content_type := ew_content_type input;
  ch_source_id := ew_source_id input;
  ch_correlation_id := ew_correlation_id input;
  ch_idempotency_key := ew_idempotency_key input;
  ch_input_hash := ew_input_hash input;
  ch_writer_signature := ew_writer_signature input;
  ch_signer_key_reference := ew_signer_key_reference input;
  ch_attestation_report := ew_attestation_report input;
  ch_chain_position := position;
  ch_written_ts_ms := timestamp_millis (ew_written_ts input);
  ch_previous_hash := ew_previous_hash input
|}.

(** The stored record of a write. *)
Definition entry_of_write (entry_id : Uuid) (position : Z) (hash : string)
    (input : EntryWriteInput) : LedgerEntryRecord := {|
  le_entry_id := entry_id;
  le_entry_type := ew_entry_type input;
  le_agent_id := ew_agent_id input;
  le_content := ew_content input;
  le_content_type := ew_content_type input;
  le_source_id := ew_source_id input;
  le_correlation_id := ew_correlation_id input;
  le_idempotency_key := ew_idempotency_key input;
  le_input_hash := ew_input_hash input;
  le_writer_signature := ew_writer_signature input;
  le_signer_key_reference := ew_signer_key_reference input;
  le_attestation_report := ew_attestation_report input;
  le_hash_version := ENTRY_HASH_VERSION;
  le_entry_hash := hash;
  le_previous_hash := ew_previous_hash input;
  le_chain_position := position;
  le_written_ts := ew_written_ts input
|}.

(** The event announcing a write; [event_id] is the identifier drawn in it. *)
Definition ledger_written_payload (event_id entry_id : Uuid)
    (entry_type agent_id source_id entry_hash hash_version : string)
    (correlation_id : option string) (written_ts_ms : Z) : string :=
  json_to_string (JObject [
    ("event_id", JString (uuid_to_string event_id));
    ("event_type", JString "LEDGER_ENTRY_WRITTEN");
    ("entry_id", JString (uuid_to_string entry_id));
    ("entry_type", JString entry_type);
    ("agent_id", JString agent_id);
    ("source_id", JString source_id);
    ("entry_hash", JString entry_hash);
    ("hash_version", JString hash_version);
    ("correlation_id", match correlation_id with Some c => JString c | None => JNull end);
    ("written_ts", JInt written_ts_ms);
    ("schema_version", JString "1.0.0")]).

(** ** The trait *)

Class LedgerRepository (R : Type) := {
  write_entry_with_outbox :
    EntryWriteInput → nat → R → result WriteResult RepositoryError * nat * R;
  get_entry : Uuid → R → result LedgerEntryRecord RepositoryError * R;
  query_entries : EntryQuery → R → result QueryResult RepositoryError * R;
  get_chain_tip : string → R → result ChainTip RepositoryError * R;
  get_entries_by_type_paged :
    string → Z → Z → R → result (list LedgerEntryRecord) RepositoryError * R;
  find_idempotent :
    string → string → R → result (option LedgerEntryRecord) RepositoryError * R;
  get_entry_by_hash : string → string → R → result LedgerEntryRecord RepositoryError * R;
  pending_outbox : R → result (list OutboxRecord) RepositoryError * R;
  mark_outbox_delivered : Uuid → R → result unit RepositoryError * R;
  increment_outbox_attempt : Uuid → R → result unit RepositoryError * R;
  mark_outbox_failed : Uuid → R → result unit RepositoryError * R;
  get_distinct_entry_types : R → result (list string) RepositoryError * R
}.

(** ** The in-memory repository *)

Record Inner := {
  entries : gmap Uuid LedgerEntryRecord;
  ordered_by_type : gmap string (list Uuid);
  chain_tips : gmap string ChainTip;
  idempotency_index : gmap (string * string) Uuid;
  outbox : gmap Uuid OutboxRecord
}.

(** [InMemoryLedgerRepository::default()] *)
Definition inner_default : Inner := {|
  entries := ∅; ordered_by_type := ∅; chain_tips := ∅;
  idempotency_index := ∅; outbox := ∅
|}.

Definition set_outbox (f : gmap Uuid OutboxRecord → gmap Uuid OutboxRecord) (guard : Inner)
    : Inner := {|
  entries := entries guard; ordered_by_type := ordered_by_type guard;
  chain_tips := chain_tips guard; idempotency_index := idempotency_index guard;
  outbox := f (outbox guard)
|}.

Definition set_entries (f : gmap Uuid LedgerEntryRecord → gmap Uuid LedgerEntryRecord)
    (guard : Inner) : Inner := {|
  entries := f (entries guard); ordered_by_type := ordered_by_type guard;
  chain_tips := chain_tips guard; idempotency_index := idempotency_index guard;
  outbox := outbox guard
|}.

(** The second half of [write_entry_with_outbox]: the checks have passed. *)
Definition in_memory_commit (input : EntryWriteInput) (next_position : Z) (n : nat)
    (guard : Inner) : result WriteResult RepositoryError * nat * Inner :=
  let entry_id := uuid_v4 n in
  let outbox_id := uuid_v4 (n + 1) in
  let entry_hash := canonical_entry_hash (hash_input_of_write entry_id next_position input) in
  let outbox_payload :=
    ledger_written_payload (uuid_v4 (n + 2)) entry_id (ew_entry_type input)
      (ew_agent_id input) (ew_source_id input) entry_hash ENTRY_HASH_VERSION
      (ew_correlation_id input) (timestamp_millis (ew_written_ts input)) in
  let entry := entry_of_write entry_id next_position entry_hash input in
  let outbox_record := {|
    ob_outbox_id := outbox_id; ob_entry_id := entry_id;
    ob_entry_type := ew_entry_type input; ob_payload := outbox_payload;
    ob_status := Pending; ob_attempt_count := 0 |} in
  let tip := {|
    ct_entry_id := entry_id; ct_hash := entry_hash; ct_hash_version := ENTRY_HASH_VERSION;
    ct_position := next_position; ct_written_ts := le_written_ts entry |} in
  let guard' := {|
    entries := <[entry_id := entry]> (entries guard);
    ordered_by_type :=
      <[ew_entry_type input :=
          default [] (ordered_by_type guard !! ew_entry_type input) ++ [entry_id]]>
        (ordered_by_type guard);
    chain_tips := <[ew_entry_type input := tip]> (chain_tips guard);
    idempotency_index :=
      match ew_idempotency_key input with
      | Some key => <[(le_entry_type entry, key) := entry_id]> (idempotency_index guard)
      | None => idempotency_index guard
      end;
    outbox :=
      if ew_create_outbox input then <[outbox_id := outbox_record]> (outbox guard)
      else outbox guard |} in
  (Ok {| wr_entry := entry;
         wr_outbox := if ew_create_outbox input then Some outbox_record else None |},
   (n + 3)%nat, guard').

Definition idempotency_taken (input : EntryWriteInput) (guard : Inner) : bool :=
  match ew_idempotency_key input with
  | Some key =>
      match idempotency_index guard !! (ew_entry_type input, key) with
      | Some _ => true
      | None => false
      end
  | None => false
  end.

Definition in_memory_write_entry_with_outbox (input : EntryWriteInput) (n : nat)
    (guard : Inner) : result WriteResult RepositoryError * nat * Inner :=
  if idempotency_taken input guard then (Err IdempotencyConflict, n, guard)
  else
    let next_position :=
      match chain_tips guard !! ew_entry_type input with
      | Some tip => i64_add (ct_position tip) 1
      | None => 1
      end in
    if (next_position =? 1) && is_empty (ew_previous_hash input) then
      (Err ChainIntegrityViolation, n, guard)
    else if 1 <? next_position then
      match chain_tips guard !! ew_entry_type input with
      | None => (Err ChainIntegrityViolation, n, guard)
      | Some tip =>
          if negb (String.eqb (ct_hash tip) (ew_previous_hash input)) then
            (Err ChainIntegrityViolation, n, guard)
          else in_memory_commit input next_position n guard
      end
    else in_memory_commit input next_position n guard.

Definition in_memory_get_entry (entry_id : Uuid) (guard : Inner)
    : result LedgerEntryRecord RepositoryError * Inner :=
  (ok_or (entries guard !! entry_id) NotFound, guard).

(** [Vec::retain] when the filter is present. *)
Definition retain_opt {F : Type} (filter_value : option F)
    (keep : F → LedgerEntryRecord → bool) (l : list LedgerEntryRecord)
    : list LedgerEntryRecord :=
  match filter_value with
  | Some f => filter (λ entry, keep f entry = true) l
  | None => l
  end.

Definition apply_query_filters (l : list LedgerEntryRecord) (query : EntryQuery)
    : list LedgerEntryRecord :=
  let l := retain_opt (eq_entry_type_prefix query)
             (λ f entry, starts_with f (le_entry_type entry)) l in
  let l := retain_opt (eq_agent_id query)
             (λ f entry, String.eqb (le_agent_id entry) f) l in
  let l := retain_opt (eq_source_id query)
             (λ f entry, String.eqb (le_source_id entry) f) l in
  let l := retain_opt (eq_correlation_id query)
             (λ f entry, bool_decide (le_correlation_id entry = Some f)) l in
  let l := retain_opt (eq_from_ts_ms query)
             (λ from entry, from <=? timestamp_millis (le_written_ts entry)) l in
  retain_opt (eq_to_ts_ms query)
    (λ to entry, timestamp_millis (le_written_ts entry) <=? to) l.

(** The key of [sort_by_key]. *)
Definition query_key (entry : LedgerEntryRecord) : Z * Z :=
  (timestamp_millis (le_written_ts entry), le_chain_position entry).

Definition query_leb (a b : LedgerEntryRecord) : bool := pair_leb (query_key a) (query_key b).

Definition in_memory_query_entries (query : EntryQuery) (guard : Inner)
    : result QueryResult RepositoryError * Inner :=
  let values := hashmap_values (entries guard) in
  let values := apply_query_filters values query in
  let values := stable_sort query_leb values in
  (Ok {| qr_entries :=
           take (Z.to_nat (eq_limit query)) (drop (Z.to_nat (eq_offset query)) values);
         qr_total_count := Z.of_nat (length values) |}, guard).

Definition in_memory_get_chain_tip (entry_type : string) (guard : Inner)
    : result ChainTip RepositoryError * Inner :=
  (ok_or (chain_tips guard !! entry_type) NotFound, guard).

(** The [for id in ids] loop: [out] is the vector so far, and the loop breaks
    once it holds [limit] entries. *)
Fixpoint paged_loop (guard : Inner) (after_position limit : Z) (ids : list Uuid)
    (out : list LedgerEntryRecord) : list LedgerEntryRecord :=
  match ids with
  | [] => out
  | id :: ids' =>
      match entries guard !! id with
      | Some entry =>
          if after_position <? le_chain_position entry then
            let out := out ++ [entry] in
            if wrap_u 64 limit <=? Z.of_nat (length out) then out
            else paged_loop guard after_position limit ids' out
          else paged_loop guard after_position limit ids' out
      | None => paged_loop guard after_position limit ids' out
      end
  end.

Definition in_memory_get_entries_by_type_paged (entry_type : string)
    (after_position limit : Z) (guard : Inner)
    : result (list LedgerEntryRecord) RepositoryError * Inner :=
  match ordered_by_type guard !! entry_type with
  | None => (Ok [], guard)
  | Some ids => (Ok (paged_loop guard after_position limit ids []), guard)
  end.

Definition in_memory_get_entry_by_hash (entry_type entry_hash : string) (guard : Inner)
    : result LedgerEntryRecord RepositoryError * Inner :=
  (ok_or
     (head (filter (λ e, String.eqb (le_entry_type e) entry_type
                         && String.eqb (le_entry_hash e) entry_hash = true)
              (hashmap_values (entries guard)))) NotFound, guard).

Definition in_memory_find_idempotent (entry_type idempotency_key : string) (guard : Inner)
    : result (option LedgerEntryRecord) RepositoryError * Inner :=
  match idempotency_index guard !! (entry_type, idempotency_key) with
  | None => (Ok None, guard)
  | Some entry_id => (Ok (entries guard !! entry_id), guard)
  end.

Definition in_memory_pending_outbox (guard : Inner)
    : result (list OutboxRecord) RepositoryError * Inner :=
  (Ok (filter (λ record, ob_status record = Pending) (hashmap_values (outbox guard))), guard).

Definition with_status (status : OutboxStatus) (record : OutboxRecord) : OutboxRecord := {|
  ob_outbox_id := ob_outbox_id record; ob_entry_id := ob_entry_id record;
  ob_entry_type := ob_entry_type record; ob_payload := ob_payload record;
  ob_status := status; ob_attempt_count := ob_attempt_count record
|}.

Definition with_attempt (record : OutboxRecord) : OutboxRecord := {|
  ob_outbox_id := ob_outbox_id record; ob_entry_id := ob_entry_id record;
  ob_entry_type := ob_entry_type record; ob_payload := ob_payload record;
  ob_status := ob_status record;
  ob_attempt_count := i32_add (ob_attempt_count record) 1
|}.

(** [get_mut(&outbox_id)] and an update of the record in place. *)
Definition update_outbox (f : OutboxRecord → OutboxRecord) (outbox_id : Uuid) (guard : Inner)
    : result unit RepositoryError * Inner :=
  match outbox guard !! outbox_id with
  | None => (Err NotFound, guard)
  | Some record => (Ok tt, set_outbox (<[outbox_id := f record]>) guard)
  end.

Definition in_memory_mark_outbox_delivered : Uuid → Inner → result unit RepositoryError * Inner :=
  update_outbox (with_status Delivered).

Definition in_memory_increment_outbox_attempt
    : Uuid → Inner → result unit RepositoryError * Inner :=
  update_outbox with_attempt.

Definition in_memory_mark_outbox_failed : Uuid → Inner → result unit RepositoryError * Inner :=
  update_outbox (with_status Failed).

Definition in_memory_get_distinct_entry_types (guard : Inner)
    : result (list string) RepositoryError * Inner :=
  (Ok (stable_sort String.leb (hashmap_keys (ordered_by_type guard))), guard).

#[global] Instance InMemoryLedgerRepository : LedgerRepository Inner := {|
  write_entry_with_outbox := in_memory_write_entry_with_outbox;
  get_entry := in_memory_get_entry;
  query_entries := in_memory_query_entries;
  get_chain_tip := in_memory_get_chain_tip;
  get_entries_by_type_paged := in_memory_get_entries_by_type_paged;
  find_idempotent := in_memory_find_idempotent;
  get_entry_by_hash := in_memory_get_entry_by_hash;
  pending_outbox := in_memory_pending_outbox;
  mark_outbox_delivered := in_memory_mark_outbox_delivered;
  increment_outbox_attempt := in_memory_increment_outbox_attempt;
  mark_outbox_failed := in_memory_mark_outbox_failed;
  get_distinct_entry_types := in_memory_get_distinct_entry_types
|}.

(** ** The tampering helpers of the tests *)

Definition with_entry_hash (h : string) (e : LedgerEntryRecord) : LedgerEntryRecord := {|
  le_entry_id := le_entry_id e; le_entry_type := le_entry_type e;
  le_agent_id := le_agent_id e; le_content := le_content e;
  le_content_type := le_content_type e; le_source_id := le_source_id e;
  le_correlation_id := le_correlation_id e; le_idempotency_key := le_idempotency_key e;
  le_input_hash := le_input_hash e; le_writer_signature := le_writer_signature e;
  le_signer_key_reference := le_signer_key_reference e;
  le_attestation_report := le_attestation_report e; le_hash_version := le_hash_version e;
  le_entry_hash := h; le_previous_hash := le_previous_hash e;
  le_chain_position := le_chain_position e; le_written_ts := le_written_ts e
|}.

Definition with_correlation_id (c : option string) (e : LedgerEntryRecord)
    : LedgerEntryRecord := {|
  le_entry_id := le_entry_id e; le_entry_type := le_entry_type e;
  le_agent_id := le_agent_id e; le_content := le_content e;
  le_content_type := le_content_type e; le_source_id := le_source_id e;
  le_correlation_id := c; le_idempotency_key := le_idempotency_key e;
  le_input_hash := le_input_hash e; le_writer_signature := le_writer_signature e;
  le_signer_key_reference := le_signer_key_reference e;
  le_attestation_report := le_attestation_report e; le_hash_version := le_hash_version e;
  le_entry_hash := le_entry_hash e; le_previous_hash := le_previous_hash e;
  le_chain_position := le_chain_position e; le_written_ts := le_written_ts e
|}.

Definition with_writer_signature (s : option (list byte)) (e : LedgerEntryRecord)
    : LedgerEntryRecord := {|
  le_entry_id := le_entry_id e; le_entry_type := le_entry_type e;
  le_agent_id := le_agent_id e; le_content := le_content e;
  le_content_type := le_content_type e; le_source_id := le_source_id e;
  le_correlation_id := le_correlation_id e; le_idempotency_key := le_idempotency_key e;
  le_input_hash := le_input_hash e; le_writer_signature := s;
  le_signer_key_reference := le_signer_key_reference e;
  le_attestation_report := le_attestation_report e; le_hash_version := le_hash_version e;
  le_entry_hash := le_entry_hash e; le_previous_hash := le_previous_hash e;
  le_chain_position := le_chain_position e; le_written_ts := le_written_ts e
|}.

Definition test_corrupt (f : LedgerEntryRecord → LedgerEntryRecord) (entry_id : Uuid)
    (g : Inner) : bool * Inner :=
  match entries g !! entry_id with
  | Some e => (true, set_entries (<[entry_id := f e]>) g)
  | None => (false, g)
  end.

Definition test_corrupt_entry_hash (entry_id : Uuid) (g : Inner) : bool * Inner :=
  test_corrupt (with_entry_hash "tampered-hash") entry_id g.

Definition test_corrupt_correlation_id (entry_id : Uuid) (correlation_id : string) (g : Inner)
    : bool * Inner :=
  test_corrupt (with_correlation_id (Some correlation_id)) entry_id g.

Definition test_corrupt_writer_signature (entry_id : Uuid) (g : Inner) : bool * Inner :=
  test_corrupt (with_writer_signature (Some (as_bytes "tampered-signature"))) entry_id g.
End Records.
