(* ===== verification/Postgres.v ===== *)
(** * [src/repository/postgres.rs]: [PostgresLedgerRepository]

    The two tables of [migrations/*.sql] as relations, and each statement of the
    file as the operation its SQL text denotes: the coercion of values to the
    columns' types, the unique indexes, the order and the limit of a query.  The
    server and its driver are not in the repository; what they contribute beyond
    the text of the statements is the class [PgPlatform] (the precision of a
    [TIMESTAMPTZ], the server's clock, JSONB, the order of a scan).

    A text with U+0000 is refused wherever it goes: as a parameter of a [SELECT]
    ([pg_select], [query_accepted]) and as the value of a column ([varchar]).

    Every answer awaited from the server may be an error: [pg_faults] lists what
    happens to the next ones, and once the list is used up all goes well.  A
    transaction works on its own copy of the tables, which [pg_commit] installs;
    transactions of one chain are serialised by the advisory lock, so a call is
    atomic here.  [chain_tips], which no statement uses, is left out. *)

From Stdlib Require Import String Ascii Strings.Byte ZArith Lia.
From stdpp Require Import base tactics numbers strings list gmap sorting.
From S2P Require Import Prelude Platform Crypto Repository.

Class PgPlatform `{Platform} := {
  timestamp_micros : DateTime → Z;           (* chrono's timestamp_micros *)
  pg_timestamp : DateTime → DateTime;        (* what a TIMESTAMPTZ gives back for a time *)
  (* to_timestamp(ms as f64 / 1000.0), in microseconds; None: out of the range of
     a TIMESTAMPTZ, an error of the server *)
  pg_to_timestamp : Z → option Z;
  pg_now : nat → Z;                          (* NOW(), at its n-th use *)
  pg_collate : string → string → bool;       (* the order of the database's collation *)
  json_from_str : string → option Json;      (* serde_json::from_str *)
  jsonb_text : Json → option string;         (* the text read back from a JSONB; None: refused *)
  pg_scan : ∀ {A : Type}, list A → list A    (* the order in which a query meets its rows *)
}.

(** JSON without U+0000, which JSONB cannot hold. *)
Definition has_nul (l : list byte) : bool := existsb (Byte.eqb "000"%byte) l.

Fixpoint json_plain (j : Json) : bool :=
  match j with
  | JNull | JInt _ => true
  | JString s => negb (has_nul (as_bytes s))
  | JObject fields => forallb (λ f, negb (has_nul (as_bytes f.1)) && json_plain f.2) fields
  end.

Class PgLaws {P : Platform} (G : @PgPlatform P) : Prop := {
  timestamp_micros_millis t : timestamp_millis t = timestamp_micros t / 1000;
  (* the clock is past 2000-01-01, where cutting a time down to microseconds
     keeps its milliseconds *)
  pg_timestamp_now k : timestamp_millis (pg_timestamp (utc_now k)) = timestamp_millis (utc_now k);
  json_from_to_string j : json_plain j = true →
    ∃ v, json_from_str (json_to_string j) = Some v ∧ is_Some (jsonb_text v);
  (* a double holds the seconds of a time before 2038 to a quarter of a
     microsecond *)
  pg_to_timestamp_exact ms : 0 ≤ ms < 2 ^ 31 * 1000 → pg_to_timestamp ms = Some (ms * 1000);
  pg_scan_perm A (l : list A) : pg_scan l ≡ₚ l
}.

(** ** Text columns *)

(** A text the server takes as a parameter: U+0000 is not in its encodings. *)
Definition sql_text (s : string) : bool := negb (has_nul (as_bytes s)).

Definition is_continuation (b : byte) : bool :=
  let n := Z.of_N (Byte.to_N b) in (128 <=? n) && (n <? 192).

(** The first [n] characters of a UTF-8 text, and the rest. *)
Fixpoint utf8_split (n : nat) (l : list byte) : list byte * list byte :=
  match l with
  | [] => ([], [])
  | b :: l' =>
      if is_continuation b then let '(a, r) := utf8_split n l' in (b :: a, r)
      else
        match n with
        | O => ([], l)
        | S n' => let '(a, r) := utf8_split n' l' in (b :: a, r)
        end
  end.

(** Assignment to a [VARCHAR(n)] column: NUL is refused, and so is a longer text
    unless the excess is all spaces, which are then cut off. *)
Definition varchar (n : nat) (s : string) : option string :=
  let '(kept, rest) := utf8_split n (as_bytes s) in
  if has_nul (as_bytes s) then None
  else if forallb (Byte.eqb " "%byte) rest then Some (string_of_list_byte kept)
  else None.

Definition varchar_opt (n : nat) (o : option string) : option (option string) :=
  match o with None => Some None | Some s => Some <$> varchar n s end.

(** [text LIKE pattern], byte by byte: [%] is any text, [_] any character, and a
    backslash takes the next byte literally. *)
Fixpoint like_any (rest : list byte → bool) (t : list byte) : bool :=
  rest t || match t with [] => false | _ :: t' => like_any rest t' end.

Fixpoint drop_continuation (t : list byte) : list byte :=
  match t with
  | b :: t' => if is_continuation b then drop_continuation t' else t
  | [] => []
  end.

Fixpoint like (pattern : list byte) : list byte → bool :=
  match pattern with
  | [] => is_nil
  | "%"%byte :: p => like_any (like p)
  | "_"%byte :: p => λ t,
      match t with
      | b :: t' => negb (is_continuation b) && like p (drop_continuation t')
      | [] => false
      end
  | "\"%byte :: c :: p => λ t,
      match t with b :: t' => Byte.eqb b c && like p t' | [] => false end
  | c :: p => λ t,
      match t with b :: t' => Byte.eqb b c && like p t' | [] => false end
  end.

(** ** The tables *)

Section Tables.
Context {P : Platform} {G : PgPlatform}.

Record OutboxRow := {
  or_outbox_id : Uuid;
  or_entry_id : Uuid;
  or_entry_type : string;
  or_payload : string;
  or_status : string;
  or_created_ts : Z;
  or_last_attempt_ts : option Z;
  or_attempt_count : Z
}.

Record PgTables := {
  tb_entries : list LedgerEntryRecord;
  tb_outbox : list OutboxRow
}.

Inductive DbError : Type :=
| UniqueViolation (constraint : string)
| OtherDbError.

(** The values of an [INSERT INTO are_ledger.ledger_entries], as the columns
    take them. *)
Definition entry_columns (e : LedgerEntryRecord) : option LedgerEntryRecord :=
  entry_type ← varchar 255 (le_entry_type e);
  agent_id ← varchar 255 (le_agent_id e);
  content_type ← varchar 100 (le_content_type e);
  source_id ← varchar 255 (le_source_id e);
  correlation_id ← varchar_opt 255 (le_correlation_id e);
  idempotency_key ← varchar_opt 255 (le_idempotency_key e);
  input_hash ← varchar_opt 128 (le_input_hash e);
  signer_key_reference ← varchar_opt 255 (le_signer_key_reference e);
  hash_version ← varchar 64 (le_hash_version e);
  entry_hash ← varchar 64 (le_entry_hash e);
  previous_hash ← varchar 64 (le_previous_hash e);
  Some {|
    le_entry_id := le_entry_id e; le_entry_type := entry_type; le_agent_id := agent_id;
    le_content := le_content e; le_content_type := content_type; le_source_id := source_id;
    le_correlation_id := correlation_id; le_idempotency_key := idempotency_key;
    le_input_hash := input_hash; le_writer_signature := le_writer_signature e;
    le_signer_key_reference := signer_key_reference;
    le_attestation_report := le_attestation_report e; le_hash_version := hash_version;
    le_entry_hash := entry_hash; le_previous_hash := previous_hash;
    le_chain_position := le_chain_position e; le_written_ts := pg_timestamp (le_written_ts e) |}.

(** [idx_ledger_type_position] and [idx_ledger_idempotency]. *)
Definition same_position (a b : LedgerEntryRecord) : bool :=
  String.eqb (le_entry_type a) (le_entry_type b)
  && (le_chain_position a =? le_chain_position b).

Definition same_key (a b : LedgerEntryRecord) : bool :=
  String.eqb (le_entry_type a) (le_entry_type b)
  && match le_idempotency_key a, le_idempotency_key b with
     | Some k1, Some k2 => String.eqb k1 k2
     | _, _ => false
     end.

(** The constraint a new row violates, in the order the indexes were created. *)
Definition entry_violation (row : LedgerEntryRecord) (rows : list LedgerEntryRecord)
    : option string :=
  if existsb (λ e, bool_decide (le_entry_id e = le_entry_id row)) rows then
    Some "ledger_entries_pkey"
  else if existsb (same_position row) rows then Some "idx_ledger_type_position"
  else if existsb (same_key row) rows then Some "idx_ledger_idempotency"
  else None.

Definition hash_version_check (row : LedgerEntryRecord) : bool :=
  String.eqb (le_hash_version row) ENTRY_HASH_VERSION_V2
  || String.eqb (le_hash_version row) ENTRY_HASH_VERSION_V3.

Definition insert_entry (e : LedgerEntryRecord) (tables : PgTables) : result PgTables DbError :=
  match entry_columns e with
  | None => Err OtherDbError
  | Some row =>
      if negb (hash_version_check row) then Err OtherDbError
      else
        match entry_violation row (tb_entries tables) with
        | Some constraint => Err (UniqueViolation constraint)
        | None => Ok {| tb_entries := tb_entries tables ++ [row]; tb_outbox := tb_outbox tables |}
        end
  end.

(** [INSERT INTO are_ledger.ledger_write_outbox (...) VALUES (..., 'PENDING', 0)] *)
Definition insert_outbox (outbox_id entry_id : Uuid) (entry_type : string) (payload : Json)
    (now : Z) (tables : PgTables) : result PgTables DbError :=
  match varchar 255 entry_type, jsonb_text payload with
  | Some entry_type, Some payload =>
      if existsb (λ r, bool_decide (or_outbox_id r = outbox_id)) (tb_outbox tables) then
        Err (UniqueViolation "ledger_write_outbox_pkey")
      else
        Ok {| tb_entries := tb_entries tables;
              tb_outbox := tb_outbox tables ++ [{|
                or_outbox_id := outbox_id; or_entry_id := entry_id;
                or_entry_type := entry_type; or_payload := payload; or_status := "PENDING";
                or_created_ts := now; or_last_attempt_ts := None; or_attempt_count := 0 |}] |}
  | _, _ => Err OtherDbError
  end.

(** ** The connection *)

(** What becomes of a request to the server: answered; failed without effect; or
    carried out, but the answer was lost. *)
Inductive Fault : Type := Answered | NotDone | AnswerLost.

Record PostgresLedgerRepository := {
  pg_tables : PgTables;
  pg_faults : list Fault;
  pg_clock : nat                  (* uses of NOW() *)
}.

Definition set_tables (tables : PgTables) (db : PostgresLedgerRepository)
    : PostgresLedgerRepository :=
  {| pg_tables := tables; pg_faults := pg_faults db; pg_clock := pg_clock db |}.

Definition tick_now (db : PostgresLedgerRepository) : PostgresLedgerRepository :=
  {| pg_tables := pg_tables db; pg_faults := pg_faults db; pg_clock := S (pg_clock db) |}.

Definition next_fault (db : PostgresLedgerRepository) : Fault * PostgresLedgerRepository :=
  match pg_faults db with
  | [] => (Answered, db)
  | fault :: faults =>
      (fault, {| pg_tables := pg_tables db; pg_faults := faults; pg_clock := pg_clock db |})
  end.

Definition Pg (A : Type) : Type := PostgresLedgerRepository → A * PostgresLedgerRepository.

Definition pg_ret {A : Type} (a : A) : Pg A := λ db, (a, db).
Definition pg_fail {A : Type} (e : RepositoryError) : Pg (result A RepositoryError) :=
  pg_ret (Err e).

(** [m.await?] *)
Definition pg_try {A B E : Type} (m : Pg (result A E)) (k : A → Pg (result B E))
    : Pg (result B E) :=
  λ db, let '(r, db) := m db in
        match r with Ok a => k a db | Err e => (Err e, db) end.
End Tables.

Notation "'sql?' x ':=' m 'in' k" := (pg_try m (fun x => k))
  (at level 10, x pattern, m at level 100, k at level 200) : ledger_scope.

(** ** Statements *)

Section Statements.
Context {P : Platform} {G : PgPlatform}.

(** A request whose answer is read from the tables: [pool.get()], [BEGIN], a
    [SELECT], each with [.map_err(|_| RepositoryError::Unavailable)]. *)
Definition pg_read {A : Type} (query : PgTables → result A RepositoryError)
    : Pg (result A RepositoryError) :=
  λ db, let '(fault, db) := next_fault db in
        match fault with
        | Answered => (query (pg_tables db), db)
        | _ => (Err Unavailable, db)
        end.

(** A [SELECT] with the text parameters [texts]: one that the server does not take
    is an error of the request. *)
Definition pg_select {A : Type} (texts : list string)
    (query : PgTables → result A RepositoryError) : Pg (result A RepositoryError) :=
  pg_read (λ tables, if forallb sql_text texts then query tables else Err Unavailable).

Definition pool_get : Pg (result unit RepositoryError) := pg_read (λ _, Ok tt).

(** [query_opt]: more than one row is an error of the driver. *)
Definition query_opt {A : Type} (rows : list A) : result (option A) RepositoryError :=
  match rows with
  | [] => Ok None
  | [row] => Ok (Some row)
  | _ => Err Unavailable
  end.

(** A statement of a transaction, on the transaction's copy of the tables. *)
Definition tx_execute (statement : result PgTables DbError) : Pg (result PgTables DbError) :=
  λ db, let '(fault, db) := next_fault db in
        match fault with
        | Answered => (statement, db)
        | _ => (Err OtherDbError, db)
        end.

(** [let _ = tx.rollback().await] *)
Definition tx_rollback : Pg unit := λ db, (tt, (next_fault db).2).

Definition tx_commit (tables : PgTables) : Pg (result unit RepositoryError) :=
  λ db, let '(fault, db) := next_fault db in
        match fault with
        | Answered => (Ok tt, set_tables tables db)
        | NotDone => (Err Unavailable, db)
        | AnswerLost => (Err Unavailable, set_tables tables db)
        end.

(** An [UPDATE] outside a transaction; [statement] gives the number of rows. *)
Definition pg_execute (statement : PgTables → result (nat * PgTables) DbError)
    : Pg (result nat RepositoryError) :=
  λ db, let '(fault, db) := next_fault db in
        match fault with
        | NotDone => (Err Unavailable, db)
        | _ =>
            match statement (pg_tables db) with
            | Err _ => (Err Unavailable, db)
            | Ok (n, tables) =>
                (match fault with Answered => Ok n | _ => Err Unavailable end,
                 set_tables tables db)
            end
        end.

(** *** [write_entry_with_outbox] *)

Definition position_desc (a b : LedgerEntryRecord) : bool :=
  le_chain_position b <=? le_chain_position a.
Definition position_asc (a b : LedgerEntryRecord) : bool :=
  le_chain_position a <=? le_chain_position b.

(** [WHERE entry_type = $1] *)
Definition of_type (entry_type : string) (tables : PgTables) : list LedgerEntryRecord :=
  filter (λ e, le_entry_type e = entry_type) (tb_entries tables).

(** [WHERE entry_type = $1 ORDER BY chain_position DESC LIMIT 1] *)
Definition select_tip (entry_type : string) (tables : PgTables) : option LedgerEntryRecord :=
  head (stable_sort position_desc (pg_scan (of_type entry_type tables))).

(** From [pool.get()] to the match on the tip: the position of the new entry.
    The lock of [pg_advisory_xact_lock] has no effect when calls run one by one. *)
Definition pg_next_position (input : EntryWriteInput) : Pg (result Z RepositoryError) :=
  sql? _ := pool_get in
  sql? _ := pg_read (λ _, Ok tt) in
  sql? _ := pg_read (λ _, Ok (advisory_lock_key (ew_entry_type input))) in
  sql? tip_row := pg_select [ew_entry_type input]
    (λ tables, Ok (select_tip (ew_entry_type input) tables)) in
  match tip_row with
  | None =>
      if is_empty (ew_previous_hash input) then
        λ db, pg_fail ChainIntegrityViolation (tx_rollback db).2
      else pg_ret (Ok 1)
  | Some row =>
      if negb (String.eqb (le_entry_hash row) (ew_previous_hash input)) then
        λ db, pg_fail ChainIntegrityViolation (tx_rollback db).2
      else pg_ret (Ok (i64_add (le_chain_position row) 1))
  end.

(** What an error of the first [INSERT] means. *)
Definition insert_error (e : DbError) : RepositoryError :=
  match e with
  | UniqueViolation constraint =>
      if String.eqb constraint "idx_ledger_idempotency" then IdempotencyConflict
      else ChainIntegrityViolation
  | OtherDbError => Unavailable
  end.

(** The rest of the method; the [n]-th and following identifiers are drawn. *)
Definition pg_store (input : EntryWriteInput) (next_position : Z) (n : nat)
    : Pg (result WriteResult RepositoryError) :=
  let entry_id := uuid_v4 n in
  let outbox_id := uuid_v4 (n + 1) in
  let entry_hash := canonical_entry_hash (hash_input_of_write entry_id next_position input) in
  let outbox_payload :=
    ledger_written_payload (uuid_v4 (n + 2)) entry_id (ew_entry_type input)
      (ew_agent_id input) (ew_source_id input) entry_hash ENTRY_HASH_VERSION
      (ew_correlation_id input) (timestamp_millis (ew_written_ts input)) in
  let entry := entry_of_write entry_id next_position entry_hash input in
  match json_from_str outbox_payload with
  | None => pg_fail Unavailable
  | Some payload_json => λ db,
      let '(inserted, db) := tx_execute (insert_entry entry (pg_tables db)) db in
      match inserted with
      | Err e => pg_fail (insert_error e) (tx_rollback db).2
      | Ok tables =>
          let '(with_event, db) :=
            if ew_create_outbox input then
              tx_execute (insert_outbox outbox_id entry_id (ew_entry_type input) payload_json
                            (pg_now (pg_clock db)) tables) (tick_now db)
            else (Ok tables, db) in
          match with_event with
          | Err _ => pg_fail Unavailable (tx_rollback db).2
          | Ok tables =>
              (sql? _ := tx_commit tables in
               pg_ret (Ok {|
                 wr_entry := entry;
                 wr_outbox :=
                   if ew_create_outbox input then
                     Some {| ob_outbox_id := outbox_id; ob_entry_id := entry_id;
                             ob_entry_type := ew_entry_type input; ob_payload := outbox_payload;
                             ob_status := Pending; ob_attempt_count := 0 |}
                   else None |})) db
          end
      end
  end.

Definition pg_write_entry_with_outbox (input : EntryWriteInput) (n : nat)
    (db : PostgresLedgerRepository)
    : result WriteResult RepositoryError * nat * PostgresLedgerRepository :=
  let '(position, db) := pg_next_position input db in
  match position with
  | Err e => (Err e, n, db)
  | Ok next_position =>
      let '(res, db) := pg_store input next_position n db in (res, (n + 3)%nat, db)
  end.

(** *** Queries on [ledger_entries] *)

(** [WHERE entry_id = $1], and the other lookups that expect one row. *)
Definition select_entry (texts : list string) (keep : LedgerEntryRecord → bool)
    : Pg (result (option LedgerEntryRecord) RepositoryError) :=
  sql? _ := pool_get in
  pg_select texts (λ tables, query_opt (pg_scan (filter (λ e, keep e = true) (tb_entries tables)))).

(** [.ok_or(RepositoryError::NotFound)] *)
Definition found {A : Type} (row : option A) : Pg (result A RepositoryError) :=
  pg_ret (ok_or row NotFound).

Definition pg_get_entry (entry_id : Uuid) : Pg (result LedgerEntryRecord RepositoryError) :=
  sql? row := select_entry [] (λ e, bool_decide (le_entry_id e = entry_id)) in found row.

Definition pg_get_chain_tip (entry_type : string) : Pg (result ChainTip RepositoryError) :=
  sql? _ := pool_get in
  sql? row := pg_select [entry_type] (λ tables, Ok (select_tip entry_type tables)) in
  sql? row := found row in
  pg_ret (Ok {| ct_entry_id := le_entry_id row; ct_hash := le_entry_hash row;
                ct_hash_version := le_hash_version row;
                ct_position := le_chain_position row; ct_written_ts := le_written_ts row |}).

(** [LIMIT n]: a negative count is an error of the server. *)
Definition sql_limit {A : Type} (n : Z) (rows : list A) : result (list A) RepositoryError :=
  if n <? 0 then Err Unavailable else Ok (take (Z.to_nat n) rows).

Definition pg_get_entries_by_type_paged (entry_type : string) (after_position limit : Z)
    : Pg (result (list LedgerEntryRecord) RepositoryError) :=
  sql? _ := pool_get in
  pg_select [entry_type] (λ tables,
    sql_limit limit
      (stable_sort position_asc
         (pg_scan (filter (λ e, after_position < le_chain_position e)
                     (of_type entry_type tables))))).

Definition pg_get_entry_by_hash (entry_type entry_hash : string)
    : Pg (result LedgerEntryRecord RepositoryError) :=
  sql? row := select_entry [entry_type; entry_hash]
    (λ e, String.eqb (le_entry_type e) entry_type && String.eqb (le_entry_hash e) entry_hash) in
  found row.

Definition pg_find_idempotent (entry_type idempotency_key : string)
    : Pg (result (option LedgerEntryRecord) RepositoryError) :=
  select_entry [entry_type; idempotency_key]
    (λ e, String.eqb (le_entry_type e) entry_type
          && bool_decide (le_idempotency_key e = Some idempotency_key)).

(** [SELECT DISTINCT entry_type ... ORDER BY entry_type] *)
Definition pg_get_distinct_entry_types : Pg (result (list string) RepositoryError) :=
  sql? _ := pool_get in
  pg_read (λ tables,
    Ok (stable_sort pg_collate (remove_dups (le_entry_type <$> tb_entries tables)))).

(** [$n IS NULL OR ...] *)
Definition null_or {A : Type} (o : option A) (keep : A → bool) : bool :=
  match o with Some a => keep a | None => true end.

(** The [WHERE] clause of [query_entries]. *)
Definition query_where (query : EntryQuery) (e : LedgerEntryRecord) : bool :=
  null_or (eq_entry_type_prefix query)
    (λ p, like (as_bytes p ++ ["%"%byte]) (as_bytes (le_entry_type e)))
  && null_or (eq_agent_id query) (String.eqb (le_agent_id e))
  && null_or (eq_source_id query) (String.eqb (le_source_id e))
  && null_or (eq_correlation_id query) (λ c, bool_decide (le_correlation_id e = Some c))
  && null_or (eq_from_ts_ms query)
       (λ ms, match pg_to_timestamp ms with
              | Some from => from <=? timestamp_micros (le_written_ts e)
              | None => false
              end)
  && null_or (eq_to_ts_ms query)
       (λ ms, match pg_to_timestamp ms with
              | Some to => timestamp_micros (le_written_ts e) <=? to
              | None => false
              end).

(** The text parameters of [query_entries]. *)
Definition query_texts (query : EntryQuery) : list string :=
  omap id [eq_entry_type_prefix query; eq_agent_id query; eq_source_id query;
           eq_correlation_id query].

(** The server takes the parameters; it evaluates [to_timestamp($5)] and
    [to_timestamp($6)] once, when it plans the statement. *)
Definition query_accepted (query : EntryQuery) : bool :=
  forallb sql_text (query_texts query)
  && null_or (eq_from_ts_ms query) (λ ms, bool_decide (is_Some (pg_to_timestamp ms)))
  && null_or (eq_to_ts_ms query) (λ ms, bool_decide (is_Some (pg_to_timestamp ms))).

(** [ORDER BY written_ts, chain_position] *)
Definition query_order (a b : LedgerEntryRecord) : bool :=
  pair_leb (timestamp_micros (le_written_ts a), le_chain_position a)
           (timestamp_micros (le_written_ts b), le_chain_position b).

Definition pg_query_entries (query : EntryQuery) : Pg (result QueryResult RepositoryError) :=
  let limit := wrap_i 64 (eq_limit query) in
  let offset := wrap_i 64 (eq_offset query) in
  let matching tables := filter (λ e, query_where query e = true) (tb_entries tables) in
  sql? _ := pool_get in
  sql? total_count := pg_read (λ tables,
    if query_accepted query then Ok (Z.of_nat (length (matching tables))) else Err Unavailable) in
  sql? rows := pg_read (λ tables,
    if negb (query_accepted query) || (offset <? 0) then Err Unavailable
    else sql_limit limit
           (drop (Z.to_nat offset) (stable_sort query_order (pg_scan (matching tables))))) in
  pg_ret (Ok {| qr_entries := rows; qr_total_count := total_count |}).

(** *** The outbox *)

(** [to_ascii_uppercase] *)
Definition ascii_uppercase (s : string) : string :=
  string_of_list_ascii
    (map (λ a, let n := nat_of_ascii a in
               if (97 <=? n)%nat && (n <=? 122)%nat then ascii_of_nat (n - 32) else a)
       (list_ascii_of_string s)).

Definition map_outbox_row (row : OutboxRow) : OutboxRecord := {|
  ob_outbox_id := or_outbox_id row;
  ob_entry_id := or_entry_id row;
  ob_entry_type := or_entry_type row;
  ob_payload := or_payload row;
  ob_status :=
    (let status := ascii_uppercase (or_status row) in
     if String.eqb status "PENDING" then Pending
     else if String.eqb status "DELIVERED" then Delivered else Failed);
  ob_attempt_count := or_attempt_count row
|}.

Definition created_order (a b : OutboxRow) : bool := or_created_ts a <=? or_created_ts b.

(** [WHERE status = 'PENDING' ORDER BY created_ts] *)
Definition pg_pending_outbox : Pg (result (list OutboxRecord) RepositoryError) :=
  sql? _ := pool_get in
  sql? rows := pg_read (λ tables,
    Ok (stable_sort created_order
          (pg_scan (filter (λ r, or_status r = "PENDING") (tb_outbox tables))))) in
  pg_ret (Ok (map map_outbox_row rows)).

(** [UPDATE are_ledger.ledger_write_outbox SET ... WHERE ...] *)
Definition update_rows (keep : OutboxRow → bool) (set : OutboxRow → OutboxRow)
    (tables : PgTables) : nat * PgTables :=
  (length (filter (λ r, keep r = true) (tb_outbox tables)),
   {| tb_entries := tb_entries tables;
      tb_outbox := map (λ r, if keep r then set r else r) (tb_outbox tables) |}).

Definition row_status (status : string) (r : OutboxRow) : OutboxRow := {|
  or_outbox_id := or_outbox_id r; or_entry_id := or_entry_id r;
  or_entry_type := or_entry_type r; or_payload := or_payload r; or_status := status;
  or_created_ts := or_created_ts r; or_last_attempt_ts := or_last_attempt_ts r;
  or_attempt_count := or_attempt_count r
|}.

Definition row_attempt (now : Z) (r : OutboxRow) : OutboxRow := {|
  or_outbox_id := or_outbox_id r; or_entry_id := or_entry_id r;
  or_entry_type := or_entry_type r; or_payload := or_payload r; or_status := or_status r;
  or_created_ts := or_created_ts r; or_last_attempt_ts := Some now;
  or_attempt_count := or_attempt_count r + 1
|}.

(** [if n == 0 { return Err(NotFound) }] *)
Definition updated (n : nat) : Pg (result unit RepositoryError) :=
  pg_ret (match n with O => Err NotFound | _ => Ok tt end).

Definition pg_mark_outbox_delivered (outbox_id : Uuid) : Pg (result unit RepositoryError) :=
  sql? _ := pool_get in
  sql? n := pg_execute (λ tables,
    Ok (update_rows (λ r, bool_decide (or_outbox_id r = outbox_id)
                          && String.eqb (or_status r) "PENDING")
          (row_status "DELIVERED") tables)) in
  updated n.

(** [attempt_count + 1] past the range of [INT] is an error of the server. *)
Definition pg_increment_outbox_attempt (outbox_id : Uuid) : Pg (result unit RepositoryError) :=
  sql? _ := pool_get in
  sql? n := (λ db, pg_execute (λ tables,
    let keep r := bool_decide (or_outbox_id r = outbox_id) in
    if existsb (λ r, keep r && (or_attempt_count r =? i32_max)) (tb_outbox tables) then
      Err OtherDbError
    else Ok (update_rows keep (row_attempt (pg_now (pg_clock db))) tables)) (tick_now db)) in
  updated n.

Definition pg_mark_outbox_failed (outbox_id : Uuid) : Pg (result unit RepositoryError) :=
  sql? _ := pool_get in
  sql? n := pg_execute (λ tables,
    Ok (update_rows (λ r, bool_decide (or_outbox_id r = outbox_id))
          (row_status "FAILED") tables)) in
  updated n.
End Statements.

#[global] Instance postgres_repository {P : Platform} {G : PgPlatform}
    : LedgerRepository PostgresLedgerRepository := {|
  write_entry_with_outbox := pg_write_entry_with_outbox;
  get_entry := pg_get_entry;
  query_entries := pg_query_entries;
  get_chain_tip := pg_get_chain_tip;
  get_entries_by_type_paged := pg_get_entries_by_type_paged;
  find_idempotent := pg_find_idempotent;
  get_entry_by_hash := pg_get_entry_by_hash;
  pending_outbox := pg_pending_outbox;
  mark_outbox_delivered := pg_mark_outbox_delivered;
  increment_outbox_attempt := pg_increment_outbox_attempt;
  mark_outbox_failed := pg_mark_outbox_failed;
  get_distinct_entry_types := pg_get_distinct_entry_types
|}.

(** ** A concrete server

    Over the toy platform: times are milliseconds and kept as they are, JSON is
    read back as it was printed, and a scan follows the order of insertion. *)

Module ToyPg.
#[local] Existing Instance Toy.platform.

Definition server : PgPlatform := {|
  timestamp_micros ts := timestamp_millis ts * 1000;
  pg_timestamp ts := ts;
  pg_to_timestamp ms := Some (ms * 1000);
  pg_now n := Z.of_nat n;
  pg_collate := String.leb;
  json_from_str s := Some (JString s);
  jsonb_text j := Some (json_to_string j);
  pg_scan A l := l
|}.

Lemma server_laws : PgLaws server.
Proof.
  split.
  - intros t. simpl. by rewrite Z.div_mul.
  - done.
  - intros j _. eexists. split; [done|]. by eexists.
  - done.
  - done.
Qed.
End ToyPg.
