(* ===== verification/Config.v ===== *)
(** * [src/config/mod.rs]: the configuration and its environment parser

    The environment is a function from variable names to values; [None] stands
    for every [Err] of [env::var].  Integer fields hold the value, within the
    width of the field's type. *)

From Stdlib Require Import String Ascii Strings.Byte ZArith Lia.
From stdpp Require Import base tactics numbers strings list gmap sorting.
From S2P Require Import Prelude.

Record AppConfig := {
  grpc_port : Z;
  health_port : Z;
  metrics_port : Z;
  max_content_size_bytes : Z;
  db_connection_string : string;
  outbox_http_endpoint : option string;
  outbox_http_bearer_token : option string;
  outbox_http_timeout_seconds : Z;
  genesis_hash_input : string;
  pool_max_size : Z;
  chain_max_retries : Z;
  chain_halt_recovery_seconds : Z;
  outbox_max_retries : Z;
  verify_interval_seconds : Z;
  verify_max_entries_per_chain : Z;
  api_token : option string;
  shutdown_token : option string
}.

Inductive ConfigError : Type :=
| Missing (name : string)
| InvalidInteger (name : string).

(** ** [char::is_whitespace] on UTF-8: the encodings of the White_Space characters *)

Definition bytes_to_string (l : list Z) : string :=
  fold_right (λ z s, String (Ascii.ascii_of_N (Z.to_N z)) s) "" l.

Definition whitespace : list string :=
  map bytes_to_string
    ([[9]; [10]; [11]; [12]; [13]; [32]; [194; 133]; [194; 160]; [225; 154; 128]]
     ++ map (λ k, [226; 128; 128 + Z.of_nat k]) (seq 0 11)
     ++ [[226; 128; 168]; [226; 128; 169]; [226; 128; 175]; [226; 129; 159]; [227; 128; 128]]).

(** The text after a leading whitespace character, if there is one. *)
Definition strip_whitespace (s : string) : option string :=
  head (omap (λ w, strip_prefix w s) whitespace).

(** [value.trim().is_empty()]: every character is whitespace. *)
Fixpoint blank_go (fuel : nat) (s : string) : bool :=
  match fuel with
  | O => is_empty s
  | S f =>
      if is_empty s then true
      else match strip_whitespace s with
           | Some s' => blank_go f s'
           | None => false
           end
  end.

Definition is_blank (s : string) : bool := blank_go (String.length s) s.

(** [str::trim]: leading and trailing whitespace characters removed. *)
Fixpoint trim_start_go (fuel : nat) (s : string) : string :=
  match fuel with
  | O => s
  | S f => match strip_whitespace s with Some s' => trim_start_go f s' | None => s end
  end.

Definition strip_suffix (p s : string) : option string :=
  let n := (String.length s - String.length p)%nat in
  if String.eqb (substring n (String.length p) s) p then Some (substring 0 n s) else None.

Fixpoint trim_end_go (fuel : nat) (s : string) : string :=
  match fuel with
  | O => s
  | S f =>
      match head (omap (λ w, strip_suffix w s) whitespace) with
      | Some s' => trim_end_go f s'
      | None => s
      end
  end.

Definition trim (s : string) : string :=
  let s' := trim_start_go (String.length s) s in trim_end_go (String.length s') s'.

Section Env.
Context (env : string → option string).

Definition required (name : string) : result string ConfigError :=
  ok_or (env name) (Missing name).

Definition optional (name : string) : option string :=
  match env name with
  | Some value => if negb (is_blank value) then Some value else None
  | None => None
  end.

Definition parse_u16 (name : string) (default_value : Z) : result Z ConfigError :=
  match env name with
  | Some raw => ok_or (parse_unsigned u16_max raw) (InvalidInteger name)
  | None => Ok default_value
  end.

Definition parse_usize (name : string) (default_value : Z) : result Z ConfigError :=
  match env name with
  | Some raw => ok_or (parse_unsigned usize_max raw) (InvalidInteger name)
  | None => Ok default_value
  end.

Definition parse_u64 (name : string) (default_value : Z) : result Z ConfigError :=
  match env name with
  | Some raw => ok_or (parse_unsigned u64_max raw) (InvalidInteger name)
  | None => Ok default_value
  end.

Definition parse_nonzero_u64 (name : string) (default_value : Z) : result Z ConfigError :=
  let? value := parse_u64 name default_value in
  if value =? 0 then Err (InvalidInteger name) else Ok value.

Definition parse_positive_i64 (name : string) (default_value : Z) : result Z ConfigError :=
  let? value :=
    match env name with
    | Some raw => ok_or (parse_signed i64_min i64_max raw) (InvalidInteger name)
    | None => Ok default_value
    end in
  if value <=? 0 then Err (InvalidInteger name) else Ok value.

(** The fields are evaluated in the order of the struct expression, so the first
    failing one decides the error. *)
Definition from_env : result AppConfig ConfigError :=
  let? v_grpc_port := parse_u16 "ARE_LEDGER_GRPC_PORT" 9092 in
  let? v_health_port := parse_u16 "ARE_LEDGER_HEALTH_PORT" 8080 in
  let? v_metrics_port := parse_u16 "ARE_LEDGER_METRICS_PORT" 8083 in
  let? v_max_content := parse_usize "ARE_LEDGER_MAX_CONTENT_SIZE_BYTES" 1048576 in
  let? v_db := required "ARE_LEDGER_DB_CONNECTION_STRING" in
  let v_endpoint := optional "ARE_LEDGER_OUTBOX_HTTP_ENDPOINT" in
  let v_bearer := optional "ARE_LEDGER_OUTBOX_HTTP_BEARER_TOKEN" in
  let? v_timeout := parse_nonzero_u64 "ARE_LEDGER_OUTBOX_HTTP_TIMEOUT_SECONDS" 10 in
  let v_genesis := default "ARE_LEDGER_GENESIS" (env "ARE_LEDGER_GENESIS_HASH_INPUT") in
  let? v_pool := parse_usize "ARE_LEDGER_POOL_MAX_SIZE" 16 in
  let? v_chain_retries := parse_usize "ARE_LEDGER_CHAIN_MAX_RETRIES" 10 in
  let? v_recovery := parse_nonzero_u64 "ARE_LEDGER_CHAIN_HALT_RECOVERY_SECONDS" 60 in
  let? v_outbox_retries := parse_usize "ARE_LEDGER_OUTBOX_MAX_RETRIES" 10 in
  let? v_interval := parse_u64 "ARE_LEDGER_VERIFY_INTERVAL_SECONDS" 300 in
  let? v_max_entries := parse_positive_i64 "ARE_LEDGER_VERIFY_MAX_ENTRIES_PER_CHAIN" 10000 in
  Ok {| grpc_port := v_grpc_port;
        health_port := v_health_port;
        metrics_port := v_metrics_port;
        max_content_size_bytes := v_max_content;
        db_connection_string := v_db;
        outbox_http_endpoint := v_endpoint;
        outbox_http_bearer_token := v_bearer;
        outbox_http_timeout_seconds := v_timeout;
        genesis_hash_input := v_genesis;
        pool_max_size := v_pool;
        chain_max_retries := wrap_u 32 v_chain_retries;
        chain_halt_recovery_seconds := v_recovery;
        outbox_max_retries := wrap_u 32 v_outbox_retries;
        verify_interval_seconds := v_interval;
        verify_max_entries_per_chain := v_max_entries;
        api_token := env "ARE_LEDGER_API_TOKEN";
        shutdown_token := env "ARE_LEDGER_SHUTDOWN_TOKEN" |}.
End Env.

(** The configuration of the service tests. *)
Definition test_config : AppConfig := {|
  grpc_port := 9092;
  health_port := 8080;
  metrics_port := 8083;
  max_content_size_bytes := 1048576;
  db_connection_string := "postgres://local/test";
  outbox_http_endpoint := None;
  outbox_http_bearer_token := None;
  outbox_http_timeout_seconds := 10;
  genesis_hash_input := "ARE_LEDGER_GENESIS";
  pool_max_size := 16;
  chain_max_retries := 10;
  chain_halt_recovery_seconds := 60;
  outbox_max_retries := 10;
  verify_interval_seconds := 0;
  verify_max_entries_per_chain := 10000;
  api_token := None;
  shutdown_token := None
|}.

(** ** The environment that spells a configuration *)

Definition env_of_config (c : AppConfig) (name : string) : option string :=
  if String.eqb name "ARE_LEDGER_GRPC_PORT" then Some (int_to_string (grpc_port c))
  else if String.eqb name "ARE_LEDGER_HEALTH_PORT" then Some (int_to_string (health_port c))
  else if String.eqb name "ARE_LEDGER_METRICS_PORT" then Some (int_to_string (metrics_port c))
  else if String.eqb name "ARE_LEDGER_MAX_CONTENT_SIZE_BYTES" then
    Some (int_to_string (max_content_size_bytes c))
  else if String.eqb name "ARE_LEDGER_DB_CONNECTION_STRING" then Some (db_connection_string c)
  else if String.eqb name "ARE_LEDGER_OUTBOX_HTTP_ENDPOINT" then outbox_http_endpoint c
  else if String.eqb name "ARE_LEDGER_OUTBOX_HTTP_BEARER_TOKEN" then outbox_http_bearer_token c
  else if String.eqb name "ARE_LEDGER_OUTBOX_HTTP_TIMEOUT_SECONDS" then
    Some (int_to_string (outbox_http_timeout_seconds c))
  else if String.eqb name "ARE_LEDGER_GENESIS_HASH_INPUT" then Some (genesis_hash_input c)
  else if String.eqb name "ARE_LEDGER_POOL_MAX_SIZE" then Some (int_to_string (pool_max_size c))
  else if String.eqb name "ARE_LEDGER_CHAIN_MAX_RETRIES" then
    Some (int_to_string (chain_max_retries c))
  else if String.eqb name "ARE_LEDGER_CHAIN_HALT_RECOVERY_SECONDS" then
    Some (int_to_string (chain_halt_recovery_seconds c))
  else if String.eqb name "ARE_LEDGER_OUTBOX_MAX_RETRIES" then
    Some (int_to_string (outbox_max_retries c))
  else if String.eqb name "ARE_LEDGER_VERIFY_INTERVAL_SECONDS" then
    Some (int_to_string (verify_interval_seconds c))
  else if String.eqb name "ARE_LEDGER_VERIFY_MAX_ENTRIES_PER_CHAIN" then
    Some (int_to_string (verify_max_entries_per_chain c))
  else if String.eqb name "ARE_LEDGER_API_TOKEN" then api_token c
  else if String.eqb name "ARE_LEDGER_SHUTDOWN_TOKEN" then shutdown_token c
  else None.

(** The values a configuration can have. *)
Record config_ok (c : AppConfig) : Prop := {
  co_grpc : 0 ≤ grpc_port c ≤ u16_max;
  co_health : 0 ≤ health_port c ≤ u16_max;
  co_metrics : 0 ≤ metrics_port c ≤ u16_max;
  co_content : 0 ≤ max_content_size_bytes c ≤ usize_max;
  co_endpoint : ∀ s, outbox_http_endpoint c = Some s → is_blank s = false;
  co_bearer : ∀ s, outbox_http_bearer_token c = Some s → is_blank s = false;
  co_timeout : 1 ≤ outbox_http_timeout_seconds c ≤ u64_max;
  co_pool : 0 ≤ pool_max_size c ≤ usize_max;
  co_chain_retries : 0 ≤ chain_max_retries c ≤ u32_max;
  co_recovery : 1 ≤ chain_halt_recovery_seconds c ≤ u64_max;
  co_outbox_retries : 0 ≤ outbox_max_retries c ≤ u32_max;
  co_interval : 0 ≤ verify_interval_seconds c ≤ u64_max;
  co_entries : 1 ≤ verify_max_entries_per_chain c ≤ i64_max
}.

(** * Lemmas *)

Section ParserLemmas.
Context (env : string → option string).

Lemma parse_u16_bounds name d v :
  0 ≤ d ≤ u16_max → parse_u16 env name d = Ok v → 0 ≤ v ≤ u16_max.
Proof.
  unfold parse_u16. intros Hd. destruct (env name) as [raw|]; [|by intros [= <-]].
  destruct (parse_unsigned _ raw) eqn:E; simpl; [|done]. intros [= <-].
  by apply parse_unsigned_bounds in E.
Qed.

Lemma parse_usize_bounds name d v :
  0 ≤ d ≤ usize_max → parse_usize env name d = Ok v → 0 ≤ v ≤ usize_max.
Proof.
  unfold parse_usize. intros Hd. destruct (env name) as [raw|]; [|by intros [= <-]].
  destruct (parse_unsigned _ raw) eqn:E; simpl; [|done]. intros [= <-].
  by apply parse_unsigned_bounds in E.
Qed.

Lemma parse_u64_bounds name d v :
  0 ≤ d ≤ u64_max → parse_u64 env name d = Ok v → 0 ≤ v ≤ u64_max.
Proof.
  unfold parse_u64. intros Hd. destruct (env name) as [raw|]; [|by intros [= <-]].
  destruct (parse_unsigned _ raw) eqn:E; simpl; [|done]. intros [= <-].
  by apply parse_unsigned_bounds in E.
Qed.

Lemma parse_nonzero_u64_bounds name d v :
  0 ≤ d ≤ u64_max → parse_nonzero_u64 env name d = Ok v → 1 ≤ v ≤ u64_max.
Proof.
  unfold parse_nonzero_u64. intros Hd. destruct (parse_u64 env name d) eqn:E; simpl; [|done].
  apply parse_u64_bounds in E; [|done]. destruct (Z.eqb_spec t 0); [done|]. intros [= <-]. lia.
Qed.

Lemma parse_positive_i64_bounds name d v :
  d ≤ i64_max → parse_positive_i64 env name d = Ok v → 1 ≤ v ≤ i64_max.
Proof.
  unfold parse_positive_i64. intros Hd. destruct (env name) as [raw|]; simpl.
  - destruct (parse_signed _ _ raw) eqn:E; simpl; [|done].
    apply parse_signed_bounds in E. destruct (Z.leb_spec z 0); [done|]. intros [= <-]. lia.
  - destruct (Z.leb_spec d 0); [done|]. intros [= <-]. lia.
Qed.

Lemma optional_not_blank name s : optional env name = Some s → is_blank s = false.
Proof.
  unfold optional. destruct (env name) as [v|]; [|done].
  destruct (is_blank v) eqn:E; simpl; [done|]. by intros [= <-].
Qed.

Lemma wrap_u32_bounds (z : Z) : 0 ≤ wrap_u 32 z ≤ u32_max.
Proof. unfold wrap_u, u32_max. pose proof (Z.mod_pos_bound z (2 ^ 32)). lia. Qed.
End ParserLemmas.

Lemma optional_some env name o :
  env name = o → (∀ s, o = Some s → is_blank s = false) → optional env name = o.
Proof.
  intros <- Hb. unfold optional. destruct (env name) as [s|]; [|done]. by rewrite (Hb s).
Qed.

(** * Properties *)

(** C39: an accepted configuration is in range: whatever the environment holds,
    [from_env] either reports an error or yields ports that fit 16 bits, sizes
    and counts within their types, non-zero timeouts and recovery time, a
    positive verification window, and no blank endpoint or bearer token. *)
Theorem from_env_in_range (env : string → option string) (c : AppConfig) :
  from_env env = Ok c → config_ok c.
Proof.
  unfold from_env.
  destruct (parse_u16 env "ARE_LEDGER_GRPC_PORT" 9092) as [v1|] eqn:E1; [|done]. cbn [rbind].
  destruct (parse_u16 env "ARE_LEDGER_HEALTH_PORT" 8080) as [v2|] eqn:E2; [|done]. cbn [rbind].
  destruct (parse_u16 env "ARE_LEDGER_METRICS_PORT" 8083) as [v3|] eqn:E3; [|done]. cbn [rbind].
  destruct (parse_usize env "ARE_LEDGER_MAX_CONTENT_SIZE_BYTES" _) as [v4|] eqn:E4; [|done].
  cbn [rbind].
  destruct (required env _) as [v5|] eqn:E5; [|done]. cbn [rbind].
  destruct (parse_nonzero_u64 env "ARE_LEDGER_OUTBOX_HTTP_TIMEOUT_SECONDS" _) as [v6|] eqn:E6;
    [|done]. cbn [rbind].
  destruct (parse_usize env "ARE_LEDGER_POOL_MAX_SIZE" _) as [v7|] eqn:E7; [|done]. cbn [rbind].
  destruct (parse_usize env "ARE_LEDGER_CHAIN_MAX_RETRIES" _) as [v8|] eqn:E8; [|done].
  cbn [rbind].
  destruct (parse_nonzero_u64 env "ARE_LEDGER_CHAIN_HALT_RECOVERY_SECONDS" _) as [v9|] eqn:E9;
    [|done]. cbn [rbind].
  destruct (parse_usize env "ARE_LEDGER_OUTBOX_MAX_RETRIES" _) as [v10|] eqn:E10; [|done].
  cbn [rbind].
  destruct (parse_u64 env "ARE_LEDGER_VERIFY_INTERVAL_SECONDS" _) as [v11|] eqn:E11; [|done].
  cbn [rbind].
  destruct (parse_positive_i64 env _ _) as [v12|] eqn:E12; [|done]. cbn [rbind].
  intros [= <-].
  split; simpl;
    eauto using parse_u16_bounds, parse_usize_bounds, parse_nonzero_u64_bounds, parse_u64_bounds,
      parse_positive_i64_bounds, optional_not_blank, wrap_u32_bounds.
  all: first [eapply parse_u16_bounds; [|done] | eapply parse_usize_bounds; [|done]
    | eapply parse_nonzero_u64_bounds; [|done] | eapply parse_u64_bounds; [|done]
    | eapply parse_positive_i64_bounds; [|done]];
    unfold u16_max, usize_max, u64_max, i64_max; lia.
Qed.

(** Every configuration in range can be spelled: the environment that renders
    its fields in decimal (leaving absent ones unset) parses back to it. *)
Theorem from_env_roundtrip (c : AppConfig) :
  config_ok c → from_env (env_of_config c) = Ok c.
Proof.
  intros []. unfold from_env.
  rewrite (optional_some _ "ARE_LEDGER_OUTBOX_HTTP_ENDPOINT" (outbox_http_endpoint c)) by done.
  rewrite (optional_some _ "ARE_LEDGER_OUTBOX_HTTP_BEARER_TOKEN" (outbox_http_bearer_token c))
    by done.
  unfold parse_positive_i64, parse_nonzero_u64, parse_u64, parse_usize, parse_u16, required.
  cbn [env_of_config String.eqb Ascii.eqb Bool.eqb ok_or].
  unfold u16_max, usize_max, u64_max, i64_max, u32_max in *.
  rewrite !parse_unsigned_to_string by lia.
  rewrite parse_signed_to_string by (unfold i64_min; lia).
  cbn [rbind ok_or].
  rewrite (proj2 (Z.eqb_neq (outbox_http_timeout_seconds c) 0)) by lia. cbn [rbind].
  rewrite (proj2 (Z.eqb_neq (chain_halt_recovery_seconds c) 0)) by lia. cbn [rbind].
  rewrite (proj2 (Z.leb_gt (verify_max_entries_per_chain c) 0)) by lia. cbn [rbind].
  rewrite !wrap_u_small by lia. by destruct c.
Qed.

(** The retry limits are truncated to 32 bits: a limit given as a multiple of
    2^32 within [usize] is accepted and becomes zero attempts. *)
Theorem retry_limit_truncated (env : string → option string) (c : AppConfig) (k : Z) :
  from_env env = Ok c → 0 ≤ k * 2 ^ 32 ≤ usize_max →
  env "ARE_LEDGER_CHAIN_MAX_RETRIES" = Some (int_to_string (k * 2 ^ 32)) →
  chain_max_retries c = 0.
Proof.
  intros Hc Hk Henv. unfold from_env in Hc.
  repeat match type of Hc with
  | rbind (parse_usize env "ARE_LEDGER_CHAIN_MAX_RETRIES" 10) _ = _ => fail 1
  | rbind ?r _ = _ => destruct r; [|done]; cbn [rbind] in Hc
  end.
  unfold parse_usize at 1 in Hc. rewrite Henv, parse_unsigned_to_string in Hc by done.
  cbn [ok_or rbind] in Hc.
  repeat match type of Hc with rbind ?r _ = _ => destruct r; [|done]; cbn [rbind] in Hc end.
  injection Hc as <-. simpl. unfold wrap_u. apply Z_mod_mult.
Qed.

(** * Witnesses *)

Lemma test_config_ok : config_ok test_config.
Proof. split; simpl; unfold u16_max, usize_max, u64_max, i64_max, u32_max; try lia; done. Qed.

Lemma from_env_roundtrip_witness : from_env (env_of_config test_config) = Ok test_config.
Proof. apply (from_env_roundtrip test_config). apply test_config_ok. Defined.

Lemma from_env_in_range_witness : config_ok test_config.
Proof. apply (from_env_in_range (env_of_config test_config)). vm_compute. reflexivity. Defined.

Definition truncating_env (name : string) : option string :=
  if String.eqb name "ARE_LEDGER_CHAIN_MAX_RETRIES" then Some "4294967296"
  else env_of_config test_config name.

Definition truncated_config : AppConfig :=
  match from_env truncating_env with Ok c => c | Err _ => test_config end.

Lemma retry_limit_truncated_witness : chain_max_retries truncated_config = 0.
Proof.
  apply (retry_limit_truncated truncating_env truncated_config 1);
    [vm_compute; reflexivity|unfold usize_max; lia|vm_compute; reflexivity].
Defined.
