(* ===== verification/World.v ===== *)
(** * The world a service call runs in, and the monad of its effects

    [World R] holds what [ImmutableLedgerService] shares between calls (the
    repository, [chain_halted], [chain_locks]), the positions in the streams
    of identifiers and clock readings, the sleeps requested so far and the
    Prometheus metrics of [src/metrics.rs].  An async method is a function from
    a world to its result and the world after it; errors are values. *)

From Stdlib Require Import String Strings.Byte ZArith Lia.
From stdpp Require Import base tactics numbers strings list gmap sorting.
From S2P Require Import Prelude Platform Crypto Repository.

(** [src/metrics.rs]: counters, histograms (the observed values, newest first;
    durations in nanoseconds) and the gauge. *)
Record Metrics := {
  LEDGER_WRITE_TOTAL : gmap string nat;
  LEDGER_CHAIN_VERIFY_FAILURE_TOTAL : nat;
  OUTBOX_PUBLISH_FAILURE_TOTAL : nat;
  WRITE_DURATION : list Z;
  VERIFY_DURATION : list Z;
  CHAIN_INTEGRITY_RETRIES : list Z;
  CHAIN_INTEGRITY_VALID : Z
}.

Definition metrics_zero : Metrics := {|
  LEDGER_WRITE_TOTAL := ∅; LEDGER_CHAIN_VERIFY_FAILURE_TOTAL := 0;
  OUTBOX_PUBLISH_FAILURE_TOTAL := 0; WRITE_DURATION := []; VERIFY_DURATION := [];
  CHAIN_INTEGRITY_RETRIES := []; CHAIN_INTEGRITY_VALID := 0
|}.

Definition inc_write_total (label : string) (m : Metrics) : Metrics := {|
  LEDGER_WRITE_TOTAL :=
    <[label := S (default 0%nat (LEDGER_WRITE_TOTAL m !! label))]> (LEDGER_WRITE_TOTAL m);
  LEDGER_CHAIN_VERIFY_FAILURE_TOTAL := LEDGER_CHAIN_VERIFY_FAILURE_TOTAL m;
  OUTBOX_PUBLISH_FAILURE_TOTAL := OUTBOX_PUBLISH_FAILURE_TOTAL m;
  WRITE_DURATION := WRITE_DURATION m; VERIFY_DURATION := VERIFY_DURATION m;
  CHAIN_INTEGRITY_RETRIES := CHAIN_INTEGRITY_RETRIES m;
  CHAIN_INTEGRITY_VALID := CHAIN_INTEGRITY_VALID m
|}.

Definition inc_verify_failure (m : Metrics) : Metrics := {|
  LEDGER_WRITE_TOTAL := LEDGER_WRITE_TOTAL m;
  LEDGER_CHAIN_VERIFY_FAILURE_TOTAL := S (LEDGER_CHAIN_VERIFY_FAILURE_TOTAL m);
  OUTBOX_PUBLISH_FAILURE_TOTAL := OUTBOX_PUBLISH_FAILURE_TOTAL m;
  WRITE_DURATION := WRITE_DURATION m; VERIFY_DURATION := VERIFY_DURATION m;
  CHAIN_INTEGRITY_RETRIES := CHAIN_INTEGRITY_RETRIES m;
  CHAIN_INTEGRITY_VALID := CHAIN_INTEGRITY_VALID m
|}.

Definition inc_outbox_failure (m : Metrics) : Metrics := {|
  LEDGER_WRITE_TOTAL := LEDGER_WRITE_TOTAL m;
  LEDGER_CHAIN_VERIFY_FAILURE_TOTAL := LEDGER_CHAIN_VERIFY_FAILURE_TOTAL m;
  OUTBOX_PUBLISH_FAILURE_TOTAL := S (OUTBOX_PUBLISH_FAILURE_TOTAL m);
  WRITE_DURATION := WRITE_DURATION m; VERIFY_DURATION := VERIFY_DURATION m;
  CHAIN_INTEGRITY_RETRIES := CHAIN_INTEGRITY_RETRIES m;
  CHAIN_INTEGRITY_VALID := CHAIN_INTEGRITY_VALID m
|}.

Definition observe_write (d : Z) (m : Metrics) : Metrics := {|
  LEDGER_WRITE_TOTAL := LEDGER_WRITE_TOTAL m;
  LEDGER_CHAIN_VERIFY_FAILURE_TOTAL := LEDGER_CHAIN_VERIFY_FAILURE_TOTAL m;
  OUTBOX_PUBLISH_FAILURE_TOTAL := OUTBOX_PUBLISH_FAILURE_TOTAL m;
  WRITE_DURATION := d :: WRITE_DURATION m; VERIFY_DURATION := VERIFY_DURATION m;
  CHAIN_INTEGRITY_RETRIES := CHAIN_INTEGRITY_RETRIES m;
  CHAIN_INTEGRITY_VALID := CHAIN_INTEGRITY_VALID m
|}.

Definition observe_verify (d : Z) (m : Metrics) : Metrics := {|
  LEDGER_WRITE_TOTAL := LEDGER_WRITE_TOTAL m;
  LEDGER_CHAIN_VERIFY_FAILURE_TOTAL := LEDGER_CHAIN_VERIFY_FAILURE_TOTAL m;
  OUTBOX_PUBLISH_FAILURE_TOTAL := OUTBOX_PUBLISH_FAILURE_TOTAL m;
  WRITE_DURATION := WRITE_DURATION m; VERIFY_DURATION := d :: VERIFY_DURATION m;
  CHAIN_INTEGRITY_RETRIES := CHAIN_INTEGRITY_RETRIES m;
  CHAIN_INTEGRITY_VALID := CHAIN_INTEGRITY_VALID m
|}.

Definition observe_retries (n : Z) (m : Metrics) : Metrics := {|
  LEDGER_WRITE_TOTAL := LEDGER_WRITE_TOTAL m;
  LEDGER_CHAIN_VERIFY_FAILURE_TOTAL := LEDGER_CHAIN_VERIFY_FAILURE_TOTAL m;
  OUTBOX_PUBLISH_FAILURE_TOTAL := OUTBOX_PUBLISH_FAILURE_TOTAL m;
  WRITE_DURATION := WRITE_DURATION m; VERIFY_DURATION := VERIFY_DURATION m;
  CHAIN_INTEGRITY_RETRIES := n :: CHAIN_INTEGRITY_RETRIES m;
  CHAIN_INTEGRITY_VALID := CHAIN_INTEGRITY_VALID m
|}.

Definition set_integrity_valid (v : Z) (m : Metrics) : Metrics := {|
  LEDGER_WRITE_TOTAL := LEDGER_WRITE_TOTAL m;
  LEDGER_CHAIN_VERIFY_FAILURE_TOTAL := LEDGER_CHAIN_VERIFY_FAILURE_TOTAL m;
  OUTBOX_PUBLISH_FAILURE_TOTAL := OUTBOX_PUBLISH_FAILURE_TOTAL m;
  WRITE_DURATION := WRITE_DURATION m; VERIFY_DURATION := VERIFY_DURATION m;
  CHAIN_INTEGRITY_RETRIES := CHAIN_INTEGRITY_RETRIES m;
  CHAIN_INTEGRITY_VALID := v
|}.

Record World (R : Type) := mkWorld {
  w_repo : R;
  w_uuids : nat;                  (* identifiers drawn *)
  w_clock : nat;                  (* clock readings made *)
  w_halted : gmap string Z;       (* chain_halted: the Instant, in nanoseconds *)
  w_locks : gset string;          (* chain_locks: the chains that have a lock *)
  w_sleeps : list Z;              (* sleeps requested, milliseconds, newest first *)
  w_metrics : Metrics
}.
Arguments mkWorld {R}.
Arguments w_repo {R}.
Arguments w_uuids {R}.
Arguments w_clock {R}.
Arguments w_halted {R}.
Arguments w_locks {R}.
Arguments w_sleeps {R}.
Arguments w_metrics {R}.

Section Setters.
Context {R : Type}.
Implicit Types (w : World R).

Definition set_repo (r : R) w : World R :=
  mkWorld r (w_uuids w) (w_clock w) (w_halted w) (w_locks w) (w_sleeps w) (w_metrics w).
Definition set_repo_uuids (r : R) (n : nat) w : World R :=
  mkWorld r n (w_clock w) (w_halted w) (w_locks w) (w_sleeps w) (w_metrics w).
Definition tick w : World R :=
  mkWorld (w_repo w) (w_uuids w) (S (w_clock w)) (w_halted w) (w_locks w) (w_sleeps w)
    (w_metrics w).
Definition set_halted (h : gmap string Z) w : World R :=
  mkWorld (w_repo w) (w_uuids w) (w_clock w) h (w_locks w) (w_sleeps w) (w_metrics w).
Definition set_locks (l : gset string) w : World R :=
  mkWorld (w_repo w) (w_uuids w) (w_clock w) (w_halted w) l (w_sleeps w) (w_metrics w).
Definition add_sleep (d : Z) w : World R :=
  mkWorld (w_repo w) (w_uuids w) (w_clock w) (w_halted w) (w_locks w) (d :: w_sleeps w)
    (w_metrics w).
Definition map_metrics (f : Metrics → Metrics) w : World R :=
  mkWorld (w_repo w) (w_uuids w) (w_clock w) (w_halted w) (w_locks w) (w_sleeps w)
    (f (w_metrics w)).

(** A service that has just been built over a repository. *)
Definition world_init (r : R) : World R := mkWorld r 0 0 ∅ ∅ [] metrics_zero.
End Setters.

Definition M (R A : Type) : Type := World R → A * World R.

Section Monad.
Context {R : Type}.

Definition ret {A : Type} (a : A) : M R A := λ w, (a, w).
Definition mbind_M {A B : Type} (m : M R A) (k : A → M R B) : M R B :=
  λ w, let '(a, w') := m w in k a w'.
(** [m.await?] *)
Definition try_M {A B E : Type} (m : M R (result A E)) (k : A → M R (result B E))
    : M R (result B E) :=
  mbind_M m (λ r, match r with Ok a => k a | Err e => ret (Err e) end).

(** Effects. *)
Definition modify (f : World R → World R) : M R unit := λ w, (tt, f w).
Definition metric (f : Metrics → Metrics) : M R unit := modify (map_metrics f).
Definition sleep (ms : Z) : M R unit := modify (add_sleep ms).
Definition call {A : Type} (f : R → A * R) : M R A :=
  λ w, let '(a, r) := f (w_repo w) in (a, set_repo r w).
Definition gets {A : Type} (f : World R → A) : M R A := λ w, (f w, w).
End Monad.

Notation "'let!' x ':=' m 'in' k" := (mbind_M m (fun x => k))
  (at level 10, x pattern, m at level 100, k at level 200) : ledger_scope.
Notation "'let?!' x ':=' m 'in' k" := (try_M m (fun x => k))
  (at level 10, x pattern, m at level 100, k at level 200) : ledger_scope.

Section Clocks.
Context {P : Platform} {R : Type}.

Definition instant : M R Z := λ w, (instant_now (w_clock w), tick w).
Definition utc : M R DateTime := λ w, (utc_now (w_clock w), tick w).

Context `{!LedgerRepository R}.

Definition call_write (input : EntryWriteInput) : M R (result WriteResult RepositoryError) :=
  λ w, let '(res, n, r) := write_entry_with_outbox input (w_uuids w) (w_repo w) in
       (res, set_repo_uuids r n w).
End Clocks.

(** * Lemmas *)

Section WorldLemmas.
Context {R : Type}.

Lemma set_repo_same (w : World R) : set_repo (w_repo w) w = w.
Proof. by destruct w. Qed.

(** A call that only reads leaves the world as it was. *)
Lemma call_read {A} (f : R → A * R) (w : World R) (a : A) :
  f (w_repo w) = (a, w_repo w) → call f w = (a, w).
Proof. intros H. unfold call. by rewrite H, set_repo_same. Qed.

Lemma bind_call_read {A B} (f : R → A * R) (k : A → M R B) (w : World R) (a : A) :
  f (w_repo w) = (a, w_repo w) → mbind_M (call f) k w = k a w.
Proof. intros H. unfold mbind_M. by rewrite (call_read f w a H). Qed.

Lemma bind_ret {A B} (a : A) (k : A → M R B) (w : World R) : mbind_M (ret a) k w = k a w.
Proof. done. Qed.
End WorldLemmas.

(** [run_M] unfolds the monad and reduces the matches it leaves; [step_M] also
    simplifies the world. *)
Ltac run_M :=
  unfold try_M, mbind_M, metric, sleep, modify, gets, instant, utc, ret;
  cbv beta iota.
Ltac step_M := run_M; cbn -[call call_write].
