(* ===== verification/Service.v ===== *)
(** * [src/service/mod.rs]: [ImmutableLedgerService]

    One definition per method, generic in the repository [R] and the publisher
    [Pub] as the Rust type is.  [write_entry_impl] keeps the phases of the
    method: the argument checks, the halt check, the idempotency check, the
    creation and acquisition of the chain's lock, and the retry loop
    ([write_loop], structural in the attempts that remain).  [verify_chain]'s
    [loop] takes fuel and returns [None] when it runs out;
    the theorems of ServiceVerify give a fuel that is always enough.

    Left out: log records.  A call runs alone here, so acquiring the lock of its
    chain always succeeds, and only the lock's creation shows in the state;
    Concurrency cuts the same method at its [await] points and interleaves calls. *)

From Stdlib Require Import String Strings.Byte ZArith Lia.
From stdpp Require Import base tactics numbers strings list gmap sorting.
From S2P Require Import Prelude Platform Crypto Repository Config World.

Inductive ServiceError : Type :=
| SNotFound
| SInvalidArgument (message : string)
| SAlreadyExists (message : string)
| SUnavailable
| SInternal (message : string).

#[global] Instance ServiceError_eq_decision : EqDecision ServiceError.
Proof. solve_decision. Defined.

(** [Display] of [ServiceError]. *)
Definition service_error_display (e : ServiceError) : string :=
  match e with
  | SNotFound => "not found"
  | SInvalidArgument m => "invalid argument: " +:+ m
  | SAlreadyExists m => "already exists: " +:+ m
  | SUnavailable => "unavailable"
  | SInternal m => "internal: " +:+ m
  end.

Record WriteEntryInput := {
  wi_entry_type : string;
  wi_agent_id : string;
  wi_content : list byte;
  wi_content_type : string;
  wi_source_id : string;
  wi_correlation_id : option string;
  wi_idempotency_key : option string;
  wi_input_hash : option string;
  wi_writer_signature : option (list byte);
  wi_signer_key_reference : option string;
  wi_attestation_report : option (list byte)
}.

Record QueryEntriesInput := {
  qi_entry_type : option string;
  qi_agent_id : option string;
  qi_source_id : option string;
  qi_correlation_id : option string;
  qi_from_ts : option Z;
  qi_to_ts : option Z;
  qi_page_size : Z;
  qi_page_token : option string
}.

Definition idempotency_message : string :=
  "idempotency_key already used with different entry content or metadata".
Definition integrity_message : string := "chain integrity violation".

Definition map_repo (err : RepositoryError) : ServiceError :=
  match err with
  | NotFound => SNotFound
  | Unavailable => SUnavailable
  | IdempotencyConflict => SAlreadyExists idempotency_message
  | ChainIntegrityViolation => SInternal integrity_message
  end.

Section Outputs.
Context {P : Platform}.

Record WriteEntryOutput := {
  wo_entry_id : Uuid;
  wo_entry_hash : string;
  wo_chain_position : Z;
  wo_written_ts_ms : Z;
  wo_hash_version : string
}.

Record VerifyEntryOutput := {
  ve_entry_id : Uuid;
  ve_hash_valid : bool;
  ve_chain_link_valid : bool;
  ve_failure_reason : string
}.

Record VerifyChainOutput := {
  vc_chain_valid : bool;
  vc_entries_checked : Z;
  vc_first_invalid_entry_id : option Uuid;
  vc_failure_reason : string
}.

Record ProofReceiptOutput := {
  pr_entry_hash : string;
  pr_entry_type : string;
  pr_chain_position : Z;
  pr_written_ts_ms : Z;
  pr_entry_id : Uuid;
  pr_input_hash : string;
  pr_writer_signature : list byte;
  pr_signer_key_reference : string;
  pr_attestation_report : list byte;
  pr_hash_version : string
}.

Record VerifyProofOutput := {
  vp_valid : bool;
  vp_entry_type : string;
  vp_agent_id : string;
  vp_written_ts_ms : Z;
  vp_chain_position : Z;
  vp_failure_reason : string;
  vp_source_id : string;
  vp_correlation_id : string;
  vp_content_type : string;
  vp_input_hash : string;
  vp_writer_signature : list byte;
  vp_signer_key_reference : string;
  vp_attestation_report : list byte;
  vp_hash_version : string
}.

(** The [WriteEntryOutput] of a stored entry. *)
Definition output_of_entry (e : LedgerEntryRecord) : WriteEntryOutput := {|
  wo_entry_id := le_entry_id e;
  wo_entry_hash := le_entry_hash e;
  wo_chain_position := le_chain_position e;
  wo_written_ts_ms := timestamp_millis (le_written_ts e);
  wo_hash_version := le_hash_version e
|}.

Definition idempotent_request_matches (existing : LedgerEntryRecord) (input : WriteEntryInput)
    : bool :=
  bool_decide (le_agent_id existing = wi_agent_id input)
  && bool_decide (le_content existing = wi_content input)
  && bool_decide (le_content_type existing = wi_content_type input)
  && bool_decide (le_source_id existing = wi_source_id input)
  && bool_decide (le_correlation_id existing = wi_correlation_id input)
  && bool_decide (le_input_hash existing = wi_input_hash input)
  && bool_decide (le_writer_signature existing = wi_writer_signature input)
  && bool_decide (le_signer_key_reference existing = wi_signer_key_reference input)
  && bool_decide (le_attestation_report existing = wi_attestation_report input).

(** The repository request of one attempt. *)
Definition entry_write_input (input : WriteEntryInput) (previous_hash : string)
    (written_ts : DateTime) (create_outbox : bool) : EntryWriteInput := {|
  ew_entry_type := wi_entry_type input;
  ew_agent_id := wi_agent_id input;
  ew_content := wi_content input;
  ew_content_type := wi_content_type input;
  ew_source_id := wi_source_id input;
  ew_correlation_id := wi_correlation_id input;
  ew_idempotency_key := wi_idempotency_key input;
  ew_input_hash := wi_input_hash input;
  ew_writer_signature := wi_writer_signature input;
  ew_signer_key_reference := wi_signer_key_reference input;
  ew_attestation_report := wi_attestation_report input;
  ew_previous_hash := previous_hash;
  ew_written_ts := written_ts;
  ew_create_outbox := create_outbox
|}.

Definition BATCH_SIZE : Z := 50.

Definition entry_recomputed (entry : LedgerEntryRecord) : option string :=
  canonical_entry_hash_for_version (le_hash_version entry) (hash_input_of_entry entry).
End Outputs.

(** ** Publishers *)

Section Publisher.
Context {P : Platform}.

(** [trait EventPublisher]: delivery may change the publisher's environment, and
    a failure carries its message. *)
Class EventPublisher (Pub : Type) := {
  publisher_is_enabled : Pub → bool;
  publish : OutboxRecord → Pub → result unit string * Pub
}.

Inductive NoopEventPublisher : Type := Noop.

#[global] Instance noop_publisher : EventPublisher NoopEventPublisher := {|
  publisher_is_enabled _ := false;
  publish _ p := (Err "event publisher is not configured", p)
|}.
End Publisher.

(** ** The service *)

Record ImmutableLedgerService (Pub : Type) := {
  svc_publisher : Pub;
  svc_config : AppConfig
}.
Arguments svc_publisher {Pub}.
Arguments svc_config {Pub}.

Section Service.
Context {P : Platform} {R Pub : Type} `{!LedgerRepository R} `{!EventPublisher Pub}.
Context (svc : ImmutableLedgerService Pub).

Definition genesis_hash : string :=
  sha256_hex (as_bytes (genesis_hash_input (svc_config svc))).

Definition create_outbox : bool := publisher_is_enabled (svc_publisher svc).

(** *** Writing *)

Definition required_fields_present (input : WriteEntryInput) : bool :=
  negb (is_empty (wi_entry_type input) || is_empty (wi_agent_id input)
        || is_empty (wi_content_type input) || is_empty (wi_source_id input)).

Definition check_arguments (input : WriteEntryInput) : result unit ServiceError :=
  if negb (required_fields_present input) then
    Err (SInvalidArgument "entry_type, agent_id, content_type and source_id are required")
  else if max_content_size_bytes (svc_config svc) <? Z.of_nat (length (wi_content input)) then
    Err (SInvalidArgument
           ("content exceeds max " +:+ int_to_string (max_content_size_bytes (svc_config svc))
            +:+ " bytes"))
  else Ok tt.

(** [Duration::from_secs], in nanoseconds. *)
Definition seconds (s : Z) : Z := s * 1000000000.

(** [Instant::elapsed] saturates at zero. *)
Definition elapsed (since now : Z) : Z := Z.max 0 (now - since).

Definition check_halted (entry_type : string) : M R (result unit ServiceError) :=
  let recovery := seconds (chain_halt_recovery_seconds (svc_config svc)) in
  let! halted := gets w_halted in
  match halted !! entry_type with
  | None => ret (Ok tt)
  | Some halted_at =>
      let! now := instant in
      if elapsed halted_at now <? recovery then ret (Err SUnavailable)
      else
        let! _ := modify (λ w, set_halted (delete entry_type (w_halted w)) w) in
        ret (Ok tt)
  end.

(** The idempotency check before the loop: [Some] when it answers the call. *)
Definition check_idempotent (input : WriteEntryInput)
    : M R (result (option WriteEntryOutput) ServiceError) :=
  match wi_idempotency_key input with
  | None => ret (Ok None)
  | Some key =>
      let! found := call (find_idempotent (wi_entry_type input) key) in
      match map_err map_repo found with
      | Err e => ret (Err e)
      | Ok None => ret (Ok None)
      | Ok (Some existing) =>
          if negb (idempotent_request_matches existing input) then
            ret (Err (SAlreadyExists idempotency_message))
          else ret (Ok (Some (output_of_entry existing)))
      end
  end.

(** The arm for [RepositoryError::IdempotencyConflict]. *)
Definition on_idempotency_conflict (input : WriteEntryInput)
    : M R (result WriteEntryOutput ServiceError) :=
  match wi_idempotency_key input with
  | None => ret (Err (SAlreadyExists idempotency_message))
  | Some key =>
      let! found := call (find_idempotent (wi_entry_type input) key) in
      match map_err map_repo found with
      | Err e => ret (Err e)
      | Ok None => ret (Err SUnavailable)
      | Ok (Some existing) =>
          if idempotent_request_matches existing input then ret (Ok (output_of_entry existing))
          else ret (Err (SAlreadyExists idempotency_message))
      end
  end.

(** [Duration::from_millis(10 * 2u64.pow(attempt))] *)
Definition backoff (attempt : Z) : Z := u64_mul 10 (u64_pow 2 attempt).

(** [for attempt in 0..max_retries], with [remaining] attempts to go. *)
Fixpoint write_loop (input : WriteEntryInput) (max_retries : Z) (remaining : nat)
    (attempt : Z) : M R (result WriteEntryOutput ServiceError) :=
  match remaining with
  | O => ret (Err (SInternal integrity_message))
  | S remaining' =>
      let! tip := call (get_chain_tip (wi_entry_type input)) in
      let previous :=
        match tip with
        | Ok tip => Ok (ct_hash tip)
        | Err NotFound => Ok genesis_hash
        | Err err => Err (map_repo err)
        end in
      match previous with
      | Err e => ret (Err e)
      | Ok previous_hash =>
          let! written_ts := utc in
          let! written :=
            call_write (entry_write_input input previous_hash written_ts create_outbox) in
          match written with
          | Ok result =>
              let! _ := metric (observe_retries attempt) in
              ret (Ok (output_of_entry (wr_entry result)))
          | Err ChainIntegrityViolation =>
              if attempt + 1 <? max_retries then
                let! _ := sleep (backoff attempt) in
                write_loop input max_retries remaining' (attempt + 1)
              else
                let! now := instant in
                let! _ := modify (λ w, set_halted (<[wi_entry_type input := now]> (w_halted w)) w) in
                ret (Err (SInternal integrity_message))
          | Err IdempotencyConflict => on_idempotency_conflict input
          | Err err => ret (Err (map_repo err))
          end
      end
  end.

Definition write_entry_impl (input : WriteEntryInput)
    : M R (result WriteEntryOutput ServiceError) :=
  let?! _ := ret (check_arguments input) in
  let?! _ := check_halted (wi_entry_type input) in
  let?! existing := check_idempotent input in
  match existing with
  | Some output => ret (Ok output)
  | None =>
      let max_retries := chain_max_retries (svc_config svc) in
      let! _ := modify (λ w, set_locks ({[wi_entry_type input]} ∪ w_locks w) w) in
      write_loop input max_retries (Z.to_nat max_retries) 0
  end.

Definition write_label (out : result WriteEntryOutput ServiceError) : string :=
  match out with
  | Ok _ => "ok"
  | Err (SInvalidArgument _) => "invalid"
  | Err _ => "error"
  end.

Definition write_entry (input : WriteEntryInput) : M R (result WriteEntryOutput ServiceError) :=
  let! start := instant in
  let! out := write_entry_impl input in
  let! stop := instant in
  let! _ := metric (observe_write (elapsed start stop)) in
  let! _ := metric (inc_write_total (write_label out)) in
  ret out.

Definition issue_receipt (input : WriteEntryInput)
    : M R (result ProofReceiptOutput ServiceError) :=
  let?! write := write_entry input in
  ret (Ok {|
    pr_entry_hash := wo_entry_hash write;
    pr_entry_type := wi_entry_type input;
    pr_chain_position := wo_chain_position write;
    pr_written_ts_ms := wo_written_ts_ms write;
    pr_entry_id := wo_entry_id write;
    pr_input_hash := default "" (wi_input_hash input);
    pr_writer_signature := default [] (wi_writer_signature input);
    pr_signer_key_reference := default "" (wi_signer_key_reference input);
    pr_attestation_report := default [] (wi_attestation_report input);
    pr_hash_version := wo_hash_version write |}).

(** *** Reading *)

Definition service_get_entry (entry_id : Uuid) : M R (result LedgerEntryRecord ServiceError) :=
  let! res := call (get_entry entry_id) in ret (map_err map_repo res).

Definition page_limit (page_size : Z) : Z :=
  if page_size <=? 0 then 100 else if 1000 <? page_size then 1000 else page_size.

Definition page_offset (page_token : option string) : Z :=
  default 0 (page_token ≫= parse_unsigned usize_max).

Definition next_page_token (offset : Z) (page_len : nat) (total : Z) : option string :=
  let next_offset := usize_add offset (Z.of_nat page_len) in
  if next_offset <? wrap_u 64 total then Some (int_to_string next_offset) else None.

Definition service_query_entries (query : QueryEntriesInput)
    : M R (result (list LedgerEntryRecord * option string * Z) ServiceError) :=
  let size := page_limit (qi_page_size query) in
  let offset := page_offset (qi_page_token query) in
  let! res := call (query_entries {|
    eq_entry_type_prefix := qi_entry_type query;
    eq_agent_id := qi_agent_id query;
    eq_source_id := qi_source_id query;
    eq_correlation_id := qi_correlation_id query;
    eq_from_ts_ms := qi_from_ts query;
    eq_to_ts_ms := qi_to_ts query;
    eq_limit := size;
    eq_offset := offset |}) in
  match map_err map_repo res with
  | Err e => ret (Err e)
  | Ok result =>
      let page_entries := qr_entries result in
      let total := qr_total_count result in
      ret (Ok (page_entries, next_page_token offset (length page_entries) total, total))
  end.

Definition service_get_distinct_entry_types : M R (result (list string) ServiceError) :=
  let! res := call get_distinct_entry_types in ret (map_err map_repo res).

Definition service_get_chain_tip (entry_type : string) : M R (result ChainTip ServiceError) :=
  let! res := call (get_chain_tip entry_type) in ret (map_err map_repo res).

Definition service_get_entry_by_hash (entry_type entry_hash : string)
    : M R (result LedgerEntryRecord ServiceError) :=
  let! res := call (get_entry_by_hash entry_type entry_hash) in ret (map_err map_repo res).

(** *** Verification *)

Definition verify_entry (entry_id : Uuid) : M R (result VerifyEntryOutput ServiceError) :=
  let! res := call (get_entry entry_id) in
  match map_err map_repo res with
  | Err e => ret (Err e)
  | Ok entry =>
      let recomputed := entry_recomputed entry in
      let hash_valid := bool_decide (recomputed = Some (le_entry_hash entry)) in
      match recomputed with
      | None =>
          ret (Ok {| ve_entry_id := entry_id; ve_hash_valid := false;
                     ve_chain_link_valid := false;
                     ve_failure_reason := "unsupported_hash_version" |})
      | Some _ =>
          let?! chain_link_valid :=
            if le_chain_position entry =? 1 then
              ret (Ok (String.eqb (le_previous_hash entry) genesis_hash))
            else
              let! predecessors :=
                call (get_entries_by_type_paged (le_entry_type entry)
                        (i64_sub (le_chain_position entry) 2) 1) in
              match map_err map_repo predecessors with
              | Err e => ret (Err e)
              | Ok predecessors =>
                  match head predecessors with
                  | Some prev => ret (Ok (String.eqb (le_entry_hash prev) (le_previous_hash entry)))
                  | None => ret (Ok false)
                  end
              end in
          let failure_reason :=
            if hash_valid && chain_link_valid then ""
            else if negb hash_valid then "entry_hash_mismatch"
            else "chain_link_mismatch" in
          ret (Ok {| ve_entry_id := entry_id; ve_hash_valid := hash_valid;
                     ve_chain_link_valid := chain_link_valid;
                     ve_failure_reason := failure_reason |})
      end
  end.

(** The position of a range bound of [verify_chain]. *)
Definition bound_position (entry_type : string) (bound_id : option Uuid) (if_absent : Z)
    (message : string) : M R (result Z ServiceError) :=
  match bound_id with
  | None => ret (Ok if_absent)
  | Some id =>
      let! res := call (get_entry id) in
      match map_err map_repo res with
      | Err e => ret (Err e)
      | Ok entry =>
          if negb (String.eqb (le_entry_type entry) entry_type) then
            ret (Err (SInvalidArgument message))
          else ret (Ok (le_chain_position entry))
      end
  end.

Definition chain_ok (entries_checked : Z) : VerifyChainOutput := {|
  vc_chain_valid := true; vc_entries_checked := entries_checked;
  vc_first_invalid_entry_id := None; vc_failure_reason := "" |}.

Definition chain_bad (entries_checked : Z) (id : option Uuid) (reason : string)
    : VerifyChainOutput := {|
  vc_chain_valid := false; vc_entries_checked := entries_checked;
  vc_first_invalid_entry_id := id; vc_failure_reason := reason |}.

(** The [for entry in &batch] loop: either the answer of the method, or the
    state the [loop] goes on with. *)
Record ChainCursor := {
  cu_prev_hash : string;
  cu_after_position : Z;
  cu_entries_checked : Z
}.

Fixpoint verify_batch (end_position : Z) (batch : list LedgerEntryRecord) (c : ChainCursor)
    : VerifyChainOutput + ChainCursor :=
  match batch with
  | [] => inr c
  | entry :: batch' =>
      if end_position <? le_chain_position entry then inl (chain_ok (cu_entries_checked c))
      else if negb (String.eqb (le_previous_hash entry) (cu_prev_hash c)) then
        inl (chain_bad (i64_add (cu_entries_checked c) 1) (Some (le_entry_id entry))
               "chain_link_mismatch")
      else
        let recomputed := entry_recomputed entry in
        if negb (bool_decide (recomputed = Some (le_entry_hash entry))) then
          inl (chain_bad (i64_add (cu_entries_checked c) 1) (Some (le_entry_id entry))
                 (match recomputed with
                  | None => "unsupported_hash_version"
                  | Some _ => "entry_hash_mismatch"
                  end))
        else
          verify_batch end_position batch'
            {| cu_prev_hash := le_entry_hash entry;
               cu_after_position := le_chain_position entry;
               cu_entries_checked := i64_add (cu_entries_checked c) 1 |}
  end.

(** The failure counter moves exactly when the answer is "invalid". *)
Definition finish_batch (out : VerifyChainOutput) : M R (result VerifyChainOutput ServiceError) :=
  let! _ := if vc_chain_valid out then ret tt else metric inc_verify_failure in
  ret (Ok out).

Fixpoint verify_loop (fuel : nat) (entry_type : string) (end_position : Z) (c : ChainCursor)
    : M R (option (result VerifyChainOutput ServiceError)) :=
  match fuel with
  | O => ret None
  | S fuel' =>
      let! res :=
        call (get_entries_by_type_paged entry_type (cu_after_position c) BATCH_SIZE) in
      match map_err map_repo res with
      | Err e => ret (Some (Err e))
      | Ok batch =>
          if is_nil batch then ret (Some (Ok (chain_ok (cu_entries_checked c))))
          else
            match verify_batch end_position batch c with
            | inl out => let! r := finish_batch out in ret (Some r)
            | inr c' =>
                if Z.of_nat (length batch) <? BATCH_SIZE then
                  ret (Some (Ok (chain_ok (cu_entries_checked c'))))
                else verify_loop fuel' entry_type end_position c'
            end
      end
  end.

(** [prev_hash] of the first entry of the range, or the early answer. *)
Definition start_hash (entry_type : string) (start_position : Z)
    : M R (result (VerifyChainOutput + string) ServiceError) :=
  if start_position =? 1 then ret (Ok (inr genesis_hash))
  else
    let! res := call (get_entries_by_type_paged entry_type (i64_sub start_position 2) 1) in
    match map_err map_repo res with
    | Err e => ret (Err e)
    | Ok predecessors =>
        match head predecessors with
        | Some prev => ret (Ok (inr (le_entry_hash prev)))
        | None => ret (Ok (inl (chain_bad 0 None "predecessor_not_found")))
        end
    end.

Definition some_result {A : Type} (r : result A ServiceError)
    : M R (option (result A ServiceError)) := ret (Some r).

Definition verify_chain (fuel : nat) (entry_type : string)
    (start_entry_id end_entry_id : option Uuid)
    : M R (option (result VerifyChainOutput ServiceError)) :=
  let! start_position :=
    bound_position entry_type start_entry_id 1 "start_entry_id does not belong to entry_type" in
  match start_position with
  | Err e => some_result (Err e)
  | Ok start_position =>
      let! end_position :=
        bound_position entry_type end_entry_id i64_max
          "end_entry_id does not belong to entry_type" in
      match end_position with
      | Err e => some_result (Err e)
      | Ok end_position =>
          if end_position <? start_position then
            some_result (Err (SInvalidArgument "start_entry_id must not follow end_entry_id"))
          else
            let! prev_hash := start_hash entry_type start_position in
            match prev_hash with
            | Err e => some_result (Err e)
            | Ok (inl out) => some_result (Ok out)
            | Ok (inr prev_hash) =>
                verify_loop fuel entry_type end_position
                  {| cu_prev_hash := prev_hash;
                     cu_after_position := i64_sub start_position 1;
                     cu_entries_checked := 0 |}
            end
      end
  end.

Definition verify_recent_chain (fuel : nat) (entry_type : string) (max_entries : Z)
    : M R (option (result VerifyChainOutput ServiceError)) :=
  if max_entries <=? 0 then some_result (Err (SInvalidArgument "max_entries must be positive"))
  else
    let! tip := call (get_chain_tip entry_type) in
    match tip with
    | Err NotFound => verify_chain fuel entry_type None None
    | Err error => some_result (Err (map_repo error))
    | Ok tip =>
        let start_position := Z.max (i64_add (i64_sub (ct_position tip) max_entries) 1) 1 in
        let! start_entry_id :=
          if start_position =? 1 then ret (Ok None)
          else
            let! res := call (get_entries_by_type_paged entry_type (i64_sub start_position 1) 1) in
            ret (match map_err map_repo res with
                 | Err e => Err e
                 | Ok l => Ok (le_entry_id <$> head l)
                 end) in
        match start_entry_id with
        | Err e => some_result (Err e)
        | Ok start_entry_id =>
            if (1 <? start_position) && bool_decide (start_entry_id = None) then
              some_result (Ok (chain_bad 0 None "window_start_not_found"))
            else verify_chain fuel entry_type start_entry_id (Some (ct_entry_id tip))
        end
    end.

Definition verify_proof (entry_type entry_hash : string)
    : M R (result VerifyProofOutput ServiceError) :=
  let! start := instant in
  let! res := call (get_entry_by_hash entry_type entry_hash) in
  match map_err map_repo res with
  | Err e => ret (Err e)
  | Ok entry =>
      let computed := entry_recomputed entry in
      let hash_valid := bool_decide (computed = Some (le_entry_hash entry)) in
      let! stop := instant in
      let! _ := metric (observe_verify (elapsed start stop)) in
      ret (Ok {|
        vp_valid := hash_valid;
        vp_entry_type := le_entry_type entry;
        vp_agent_id := le_agent_id entry;
        vp_written_ts_ms := timestamp_millis (le_written_ts entry);
        vp_chain_position := le_chain_position entry;
        vp_failure_reason :=
          match computed with
          | None => "unsupported_hash_version"
          | Some _ => if hash_valid then "" else "entry_hash_mismatch"
          end;
        vp_source_id := le_source_id entry;
        vp_correlation_id := default "" (le_correlation_id entry);
        vp_content_type := le_content_type entry;
        vp_input_hash := default "" (le_input_hash entry);
        vp_writer_signature := default [] (le_writer_signature entry);
        vp_signer_key_reference := default "" (le_signer_key_reference entry);
        vp_attestation_report := default [] (le_attestation_report entry);
        vp_hash_version := le_hash_version entry |})
  end.
End Service.
