(* ===== verification/LedgerSpec.v ===== *)
(** * The abstract ledger, and what a repository promises to the service

    [Ledger] is the specification state: one append-only list of entries per
    entry type.  [spec_*] are the operations of the trait on it.  The class
    [LedgerStoreLaws] is the contract of a repository: [ledger_of] abstracts its
    state, and each operation agrees with its specification.  The contract has
    two tiers.  [store_ok] is the shape the verification methods rely on
    (typed entries at increasing positions, a tip that points at the last one);
    it says nothing about hashes, so tampered contents satisfy it.  [store_wf]
    adds what only holds while all writes go through the ledger: dense positions,
    tips that carry the last hash, one entry per idempotency key.

    A repository may not be askable about every text ([store_reads]): then it
    answers Unavailable, and stores nothing of that type.  A repository may keep times at a coarser precision than the service
    ([store_time]), and need not be able to store every request
    ([store_accepts]): the contract fixes what a write stores for the requests
    it accepts, and that a refused write changes nothing.

    The theorems of ServiceWrite and ServiceVerify are proved against this
    contract; InMemory discharges it for [InMemoryLedgerRepository] and
    PostgresLaws for [PostgresLedgerRepository]. *)

From Stdlib Require Import String Strings.Byte ZArith Lia.
From stdpp Require Import base tactics numbers strings list gmap sorting.
From S2P Require Import Prelude Platform Crypto Repository.

Abbreviation Ledger := (gmap string (list LedgerEntryRecord)).

Section Ledger.
Context {P : Platform}.

Definition chain (L : Ledger) (entry_type : string) : list LedgerEntryRecord :=
  default [] (L !! entry_type).

Definition ledger_entries (L : Ledger) : list LedgerEntryRecord :=
  mjoin ((map_to_list L).*2).

Definition ledger_append (e : LedgerEntryRecord) (L : Ledger) : Ledger :=
  <[le_entry_type e := chain L (le_entry_type e) ++ [e]]> L.

Definition spec_find (L : Ledger) (entry_id : Uuid) : option LedgerEntryRecord :=
  head (filter (λ e, le_entry_id e = entry_id) (ledger_entries L)).

Definition tip_of_entry (e : LedgerEntryRecord) : ChainTip := {|
  ct_entry_id := le_entry_id e;
  ct_hash := le_entry_hash e;
  ct_hash_version := le_hash_version e;
  ct_position := le_chain_position e;
  ct_written_ts := le_written_ts e
|}.

Definition spec_tip (L : Ledger) (entry_type : string) : option ChainTip :=
  tip_of_entry <$> last (chain L entry_type).

Definition spec_paged (L : Ledger) (entry_type : string) (after_position limit : Z)
    : list LedgerEntryRecord :=
  take (Z.to_nat limit)
    (filter (λ e, after_position < le_chain_position e) (chain L entry_type)).

Definition spec_idempotent (L : Ledger) (entry_type key : string)
    : option LedgerEntryRecord :=
  head (filter (λ e, le_idempotency_key e = Some key) (chain L entry_type)).

(** The entry a write stores next in its chain. *)
Definition next_entry (L : Ledger) (input : EntryWriteInput) (id : Uuid)
    : LedgerEntryRecord :=
  let position := Z.of_nat (length (chain L (ew_entry_type input))) + 1 in
  entry_of_write id position (canonical_entry_hash (hash_input_of_write id position input))
    input.

(** The write with another time. *)
Definition retime (ts : DateTime) (input : EntryWriteInput) : EntryWriteInput := {|
  ew_entry_type := ew_entry_type input; ew_agent_id := ew_agent_id input;
  ew_content := ew_content input; ew_content_type := ew_content_type input;
  ew_source_id := ew_source_id input; ew_correlation_id := ew_correlation_id input;
  ew_idempotency_key := ew_idempotency_key input; ew_input_hash := ew_input_hash input;
  ew_writer_signature := ew_writer_signature input;
  ew_signer_key_reference := ew_signer_key_reference input;
  ew_attestation_report := ew_attestation_report input;
  ew_previous_hash := ew_previous_hash input; ew_written_ts := ts;
  ew_create_outbox := ew_create_outbox input
|}.

(** Is the write linked to the last entry of its chain?  Any non-empty
    [previous_hash] starts a chain. *)
Definition linked (L : Ledger) (input : EntryWriteInput) : bool :=
  match last (chain L (ew_entry_type input)) with
  | Some e => String.eqb (le_entry_hash e) (ew_previous_hash input)
  | None => negb (is_empty (ew_previous_hash input))
  end.

(** A write is refused for a key already used in the chain, and for a
    [previous_hash] that is not the hash of the last entry (any non-empty one
    starts a chain). *)
Definition spec_write (L : Ledger) (input : EntryWriteInput) (id : Uuid)
    : result LedgerEntryRecord RepositoryError :=
  let used :=
    match ew_idempotency_key input with
    | Some key => negb (bool_decide (spec_idempotent L (ew_entry_type input) key = None))
    | None => false
    end in
  if used then Err IdempotencyConflict
  else
    if linked L input then Ok (next_entry L input id) else Err ChainIntegrityViolation.

(** ** Invariants of the abstract ledger *)

Definition position_lt (a b : LedgerEntryRecord) : Prop :=
  le_chain_position a < le_chain_position b.

Record ledger_shape (L : Ledger) : Prop := {
  shape_typed : ∀ t e, e ∈ chain L t → le_entry_type e = t;
  shape_bounds : ∀ t e, e ∈ chain L t → 1 ≤ le_chain_position e ≤ i64_max;
  shape_sorted : ∀ t, StronglySorted position_lt (chain L t);
  shape_nonempty : ∀ t l, L !! t = Some l → l ≠ [];
  shape_unique : ∀ t1 t2 e1 e2, e1 ∈ chain L t1 → e2 ∈ chain L t2 →
    le_entry_id e1 = le_entry_id e2 → e1 = e2
}.

Definition ledger_dense (L : Ledger) : Prop :=
  ∀ t i e, chain L t !! i = Some e → le_chain_position e = Z.of_nat i + 1.

Definition keys_unique (L : Ledger) : Prop :=
  ∀ t e1 e2 key, e1 ∈ chain L t → e2 ∈ chain L t →
    le_idempotency_key e1 = Some key → le_idempotency_key e2 = Some key → e1 = e2.
End Ledger.

(** ** The contract of a repository *)

Section Contract.
Context {P : Platform}.

Class LedgerStore (R : Type) := {
  ledger_of : R → Ledger;
  store_ok : R → Prop;
  store_wf : R → Prop;
  (* the identifiers a write would draw from the n-th on are unused *)
  store_fresh : nat → R → Prop;
  (* the writes the repository can store unchanged, whatever their previous hash *)
  store_accepts : EntryWriteInput → Prop;
  (* the texts the repository can be asked about *)
  store_reads : string → bool;
  (* the precision at which the repository keeps a time *)
  store_time : DateTime → DateTime
}.

(** The write as the repository stores it. *)
Definition stored_write (R : Type) `{!LedgerStore R} (input : EntryWriteInput)
    : EntryWriteInput :=
  retime (store_time (ew_written_ts input)) input.

(** The answer to a lookup by texts that are all readable, or not. *)
Definition asked {A} (readable : bool) (answer : result A RepositoryError)
    : result A RepositoryError :=
  if readable then answer else Err Unavailable.

(** What the verification methods need: entries by identifier and chains in
    position order. *)
Class ChainReaderLaws (R : Type) `{!LedgerRepository R, !LedgerStore R} : Prop := {
  store_shape r : store_ok r → ledger_shape (ledger_of r);
  get_entry_law r id : store_ok r →
    get_entry id r = (ok_or (spec_find (ledger_of r) id) NotFound, r);
  get_entries_by_type_paged_law r t after limit : store_ok r → 1 ≤ limit ≤ i64_max →
    get_entries_by_type_paged t after limit r
    = (asked (store_reads (R := R) t) (Ok (spec_paged (ledger_of r) t after limit)), r);
  store_reads_types r t e : store_ok r → e ∈ chain (ledger_of r) t → store_reads (R := R) t = true
}.

Class LedgerStoreLaws (R : Type) `{!LedgerRepository R, !LedgerStore R} : Prop := {
  #[global] store_reader :: ChainReaderLaws R;
  store_wf_ok r : store_wf r → store_ok r;
  store_dense r : store_wf r → ledger_dense (ledger_of r);
  store_keys r : store_wf r → keys_unique (ledger_of r);
  get_chain_tip_law r t : store_wf r →
    get_chain_tip t r
    = (asked (store_reads (R := R) t) (ok_or (spec_tip (ledger_of r) t) NotFound), r);
  get_chain_tip_ok r t : store_ok r →
    match last (chain (ledger_of r) t) with
    | Some e => ∃ tip, get_chain_tip t r = (Ok tip, r) ∧ ct_entry_id tip = le_entry_id e
                       ∧ ct_position tip = le_chain_position e
    | None => get_chain_tip t r = (asked (store_reads (R := R) t) (Err NotFound), r)
    end;
  find_idempotent_law r t key : store_ok r →
    find_idempotent t key r
    = (asked (store_reads (R := R) t && store_reads (R := R) key)
         (Ok (spec_idempotent (ledger_of r) t key)), r);
  get_entry_by_hash_law r t h : store_ok r →
    (∃ e, get_entry_by_hash t h r = (Ok e, r) ∧ e ∈ chain (ledger_of r) t ∧ le_entry_hash e = h)
    ∨ (get_entry_by_hash t h r = (Err NotFound, r)
       ∧ ∀ e, e ∈ chain (ledger_of r) t → le_entry_hash e ≠ h)
    ∨ (∃ x e1 e2, get_entry_by_hash t h r = (Err x, r) ∧ x ≠ NotFound
       ∧ e1 ∈ chain (ledger_of r) t ∧ e2 ∈ chain (ledger_of r) t ∧ e1 ≠ e2
       ∧ le_entry_hash e1 = h ∧ le_entry_hash e2 = h)
    ∨ (get_entry_by_hash t h r = (Err Unavailable, r)
       ∧ store_reads (R := R) t && store_reads (R := R) h = false);
  get_distinct_entry_types_law r : store_ok r → ∃ ts,
    get_distinct_entry_types r = (Ok ts, r)
    ∧ NoDup ts
    ∧ ∀ t, t ∈ ts ↔ chain (ledger_of r) t ≠ [];
  store_fresh_law r n : store_wf r → store_fresh n r → spec_find (ledger_of r) (uuid_v4 n) = None;
  store_reads_digest data : store_reads (R := R) (sha256_hex data) = true;
  store_accepts_reads input : store_accepts (R := R) input →
    store_reads (R := R) (ew_entry_type input) = true
    ∧ ∀ key, ew_idempotency_key input = Some key → store_reads (R := R) key = true;
  store_time_law input : store_accepts (R := R) input →
    timestamp_millis (store_time (ew_written_ts input)) = timestamp_millis (ew_written_ts input);
  write_law r input n :
    store_wf r → store_fresh n r →
    Z.of_nat (length (chain (ledger_of r) (ew_entry_type input))) < i64_max →
    store_accepts (R := R) input →
    (chain (ledger_of r) (ew_entry_type input) = [] →
       ∃ data, ew_previous_hash input = sha256_hex data) →
    match spec_write (ledger_of r) input (uuid_v4 n) with
    | Ok e =>
        ∃ out n' r',
          write_entry_with_outbox input n r = (Ok out, n', r') ∧ wr_entry out = e
          ∧ ledger_of r'
            = ledger_append (next_entry (ledger_of r) (stored_write R input) (uuid_v4 n))
                (ledger_of r)
          ∧ store_wf r' ∧ (n < n')%nat
          ∧ (Inj (=) (=) (uuid_v4 : nat → Uuid) →
             ∀ m, (n' ≤ m)%nat → store_fresh m r → store_fresh m r')
    | Err x => ∃ x' n', write_entry_with_outbox input n r = (Err x', n', r) ∧ (n ≤ n')%nat
                        ∧ (linked (ledger_of r) input = true → x' = x)
    end
}.
End Contract.

(** * Lemmas *)

Section LedgerLemmas.
Context {P : Platform}.
Implicit Types (L : Ledger) (e : LedgerEntryRecord) (t : string).

Lemma chain_append L e t :
  chain (ledger_append e L) t
  = if decide (t = le_entry_type e) then chain L t ++ [e] else chain L t.
Proof.
  unfold ledger_append, chain. case_decide as H.
  - subst. by rewrite lookup_insert_eq.
  - by rewrite lookup_insert_ne.
Qed.

Lemma elem_of_ledger_entries L e :
  e ∈ ledger_entries L ↔ ∃ t, e ∈ chain L t.
Proof.
  unfold ledger_entries, chain. rewrite list_elem_of_join. split.
  - intros (l & Hl & [[t l'] [-> Ht]]%list_elem_of_fmap). exists t.
    apply elem_of_map_to_list in Ht. by rewrite Ht.
  - intros [t Ht]. destruct (L !! t) as [l|] eqn:E; [|by apply elem_of_nil in Ht].
    exists l. split; [done|]. apply list_elem_of_fmap. exists (t, l).
    split; [done|]. by apply elem_of_map_to_list.
Qed.

Lemma head_filter_Some {A} (Q : A → Prop) `{∀ x, Decision (Q x)} (l : list A) (x : A) :
  head (filter Q l) = Some x → Q x ∧ x ∈ l.
Proof. intros H'. apply head_Some_elem_of in H'. by apply list_elem_of_filter in H'. Qed.

Lemma head_filter_None {A} (Q : A → Prop) `{∀ x, Decision (Q x)} (l : list A) :
  head (filter Q l) = None ↔ ∀ x, x ∈ l → ¬ Q x.
Proof.
  rewrite head_None. split.
  - intros Hn x Hx HQ. apply (not_elem_of_nil x). rewrite <- Hn.
    by apply list_elem_of_filter.
  - intros Hno. destruct (filter Q l) as [|x l'] eqn:E; [done|].
    assert (x ∈ filter Q l) as [? ?]%list_elem_of_filter by (rewrite E; left).
    by destruct (Hno x).
Qed.

Lemma spec_find_Some L id e :
  ledger_shape L →
  spec_find L id = Some e ↔ e ∈ chain L (le_entry_type e) ∧ le_entry_id e = id.
Proof.
  intros HL. unfold spec_find. split.
  - intros [Hid [t Ht]%elem_of_ledger_entries]%head_filter_Some.
    split; [|done]. by rewrite (shape_typed L HL t e Ht).
  - intros [Hin Hid].
    destruct (head (filter _ _)) as [e'|] eqn:E.
    + apply head_filter_Some in E as [Hid' [t Ht]%elem_of_ledger_entries].
      f_equal. eapply (shape_unique L HL); [exact Ht|exact Hin|congruence].
    + eapply head_filter_None in E; [by destruct E|]. apply elem_of_ledger_entries. eauto.
Qed.

Lemma spec_find_None L id :
  spec_find L id = None ↔ ∀ t e, e ∈ chain L t → le_entry_id e ≠ id.
Proof.
  unfold spec_find. rewrite head_filter_None. setoid_rewrite elem_of_ledger_entries.
  naive_solver.
Qed.

Lemma spec_find_elem L t e :
  ledger_shape L → e ∈ chain L t → spec_find L (le_entry_id e) = Some e.
Proof.
  intros HL He. apply spec_find_Some; [done|]. split; [|done].
  by rewrite (shape_typed L HL t e He).
Qed.

Lemma spec_idempotent_Some L t key e :
  spec_idempotent L t key = Some e → e ∈ chain L t ∧ le_idempotency_key e = Some key.
Proof. intros [??]%head_filter_Some. done. Qed.

Lemma spec_idempotent_None L t key :
  spec_idempotent L t key = None ↔
  ∀ e, e ∈ chain L t → le_idempotency_key e ≠ Some key.
Proof. apply head_filter_None. Qed.

(** A key keeps its entry when a chain grows. *)
Lemma spec_idempotent_prefix L1 L2 t key e :
  chain L1 t `prefix_of` chain L2 t → spec_idempotent L1 t key = Some e →
  spec_idempotent L2 t key = Some e.
Proof.
  intros [l Hl] He. unfold spec_idempotent in *. rewrite Hl, filter_app.
  by destruct (filter _ (chain L1 t)).
Qed.

Lemma spec_idempotent_elem L t key e :
  keys_unique L → e ∈ chain L t → le_idempotency_key e = Some key →
  spec_idempotent L t key = Some e.
Proof.
  intros HK He Hk. destruct (spec_idempotent L t key) as [e'|] eqn:E.
  - apply spec_idempotent_Some in E as [He' Hk']. f_equal. by eapply HK.
  - rewrite spec_idempotent_None in E. by apply E in He.
Qed.

(** *** Appending keeps the invariants *)

Section Append.
Context (L : Ledger) (input : EntryWriteInput) (id : Uuid).
Context (HL : ledger_shape L) (HD : ledger_dense L) (HK : keys_unique L).
Context (Hfresh : spec_find L id = None).
Let t := ew_entry_type input.
Context (Hlen : Z.of_nat (length (chain L t)) < i64_max).

Lemma next_entry_type : le_entry_type (next_entry L input id) = t.
Proof. done. Qed.

Lemma elem_of_chain_append t' e :
  e ∈ chain (ledger_append (next_entry L input id) L) t' ↔
  e ∈ chain L t' ∨ (t' = t ∧ e = next_entry L input id).
Proof.
  rewrite chain_append, next_entry_type. case_decide; [|naive_solver].
  rewrite elem_of_app, list_elem_of_singleton. naive_solver.
Qed.

Lemma append_shape : ledger_shape (ledger_append (next_entry L input id) L).
Proof.
  split.
  - intros t' e [He|[-> ->]]%elem_of_chain_append; [by apply (shape_typed L HL)|done].
  - intros t' e [He|[-> ->]]%elem_of_chain_append; [by apply (shape_bounds L HL t')|].
    simpl. fold t. lia.
  - intros t'. rewrite chain_append, next_entry_type. case_decide; [|apply (shape_sorted L HL)].
    apply StronglySorted_snoc; [apply (shape_sorted L HL)|]. subst t'.
    apply Forall_lookup. intros i e He. unfold position_lt. rewrite (HD t i e He). simpl.
    apply lookup_lt_Some in He. fold t. lia.
  - intros t' l. unfold ledger_append. rewrite lookup_insert_Some.
    intros [[_ <-]|[_ Hl]]; [|by apply (shape_nonempty L HL t')]. by destruct (chain L _).
  - rewrite spec_find_None in Hfresh.
    intros t1 t2 e1 e2 [H1|[-> ->]]%elem_of_chain_append [H2|[-> ->]]%elem_of_chain_append Hid.
    + by eapply (shape_unique L HL).
    + by apply Hfresh in H1.
    + symmetry in Hid. by apply Hfresh in H2.
    + done.
Qed.

Lemma append_dense : ledger_dense (ledger_append (next_entry L input id) L).
Proof.
  intros t' i e. rewrite chain_append, next_entry_type.
  case_decide as Ht; [|apply HD]. subst t'.
  rewrite lookup_app_Some. intros [Hi|[Hi Hn]]; [by apply (HD t)|].
  apply list_lookup_singleton_Some in Hn as [Hn <-]. simpl. fold t. lia.
Qed.

Lemma append_keys :
  (∀ key, ew_idempotency_key input = Some key → spec_idempotent L t key = None) →
  keys_unique (ledger_append (next_entry L input id) L).
Proof.
  intros Hnew.
  assert (∀ e key, e ∈ chain L t → le_idempotency_key e = Some key →
            ew_idempotency_key input = Some key → False) as Hno.
  { intros e key He Hk Hi. apply Hnew in Hi. rewrite spec_idempotent_None in Hi.
    by apply Hi in He. }
  intros t' e1 e2 key [H1|[-> ->]]%elem_of_chain_append [H2|[Ht ->]]%elem_of_chain_append K1 K2.
  - by eapply HK.
  - subst t'. by destruct (Hno e1 key).
  - by destruct (Hno e2 key).
  - done.
Qed.
End Append.

(** The digest only sees the milliseconds of the time. *)
Lemma next_entry_retime L input id ts :
  timestamp_millis ts = timestamp_millis (ew_written_ts input) →
  le_entry_hash (next_entry L (retime ts input) id) = le_entry_hash (next_entry L input id).
Proof.
  intros H. simpl. f_equal. unfold hash_input_of_write. simpl. by rewrite H.
Qed.

Lemma next_entry_position L input id :
  le_chain_position (next_entry L input id)
  = Z.of_nat (length (chain L (ew_entry_type input))) + 1.
Proof. done. Qed.

Lemma spec_write_Ok L input id e :
  spec_write L input id = Ok e ↔
  e = next_entry L input id
  ∧ (∀ key, ew_idempotency_key input = Some key →
       spec_idempotent L (ew_entry_type input) key = None)
  ∧ match last (chain L (ew_entry_type input)) with
    | Some e' => le_entry_hash e' = ew_previous_hash input
    | None => ew_previous_hash input ≠ ""
    end.
Proof.
  unfold spec_write.
  assert (linked L input = true ↔ match last (chain L (ew_entry_type input)) with
    | Some e' => le_entry_hash e' = ew_previous_hash input
    | None => ew_previous_hash input ≠ "" end) as Hl.
  { unfold linked. case_match; [apply String.eqb_eq|].
    rewrite negb_true_iff. apply is_empty_false. }
  rewrite <- Hl. clear Hl. generalize (linked L input). intros link.
  destruct (ew_idempotency_key input) as [key|].
  - destruct (spec_idempotent L (ew_entry_type input) key) as [e0|] eqn:E.
    + rewrite bool_decide_false by done. simpl. split; [done|].
      intros (_ & Hk & _). by rewrite (Hk key eq_refl) in E.
    + rewrite bool_decide_true by done. simpl. destruct link; naive_solver.
  - destruct link; naive_solver.
Qed.
End LedgerLemmas.
