(* ===== verification/InMemory.v ===== *)
(** * [InMemoryLedgerRepository] keeps the contract of LedgerSpec

    [inner_ledger] abstracts the five maps of [Inner] to one list of entries per
    type.  [inner_ok] is the invariant that relates the maps to each other,
    [inner_wf] adds what holds of a repository only written through the ledger;
    the tampering helpers of the tests keep [inner_ok].  The instance
    [inner_laws] is the refinement: every operation on the maps is its
    specification on the abstract ledger. *)

From Stdlib Require Import String Strings.Byte ZArith Lia.
From stdpp Require Import base tactics numbers strings list gmap sorting.
From S2P Require Import Prelude Platform Crypto Repository LedgerSpec.

Section Abstraction.
Context {P : Platform}.

Definition inner_ledger (g : Inner) : Ledger :=
  fmap (M := gmap string) (λ ids : list Uuid, omap (λ id, entries g !! id) ids)
    (ordered_by_type g).

Definition type_ids (g : Inner) (t : string) : list Uuid := default [] (ordered_by_type g !! t).

Record inner_ok (g : Inner) : Prop := {
  io_ids : ∀ t id, id ∈ type_ids g t ↔ ∃ e, entries g !! id = Some e ∧ le_entry_type e = t;
  io_self : ∀ id e, entries g !! id = Some e → le_entry_id e = id;
  io_nonempty : ∀ t ids, ordered_by_type g !! t = Some ids → ids ≠ [];
  io_bounds : ∀ id e, entries g !! id = Some e → 1 ≤ le_chain_position e ≤ i64_max;
  io_sorted : ∀ t, StronglySorted position_lt (chain (inner_ledger g) t);
  io_tips : ∀ t,
    match last (chain (inner_ledger g) t) with
    | Some e => ∃ tip, chain_tips g !! t = Some tip ∧ ct_entry_id tip = le_entry_id e
                       ∧ ct_position tip = le_chain_position e
    | None => chain_tips g !! t = None
    end;
  io_keys : ∀ t key id, idempotency_index g !! (t, key) = Some id ↔
    ∃ e, entries g !! id = Some e ∧ le_entry_type e = t ∧ le_idempotency_key e = Some key
}.

Record inner_wf (g : Inner) : Prop := {
  iw_ok : inner_ok g;
  iw_dense : ledger_dense (inner_ledger g);
  iw_tips : ∀ t, chain_tips g !! t = spec_tip (inner_ledger g) t
}.

#[global] Instance inner_store : LedgerStore Inner := {|
  ledger_of := inner_ledger; store_ok := inner_ok; store_wf := inner_wf;
  store_fresh n g := spec_find (inner_ledger g) (uuid_v4 n) = None;
  store_accepts _ := True; store_reads _ := true; store_time ts := ts
|}.
End Abstraction.

(** * Lemmas *)

Section InMemoryLemmas.
Context {P : Platform} {PL : PlatformLaws P}.
Implicit Types (g : Inner) (t : string) (e : LedgerEntryRecord).

Lemma chain_inner g t :
  chain (inner_ledger g) t = omap (λ id, entries g !! id) (type_ids g t).
Proof.
  unfold chain, inner_ledger, type_ids. rewrite lookup_fmap.
  by destruct (ordered_by_type g !! t).
Qed.

Lemma elem_of_chain_inner g t e :
  inner_ok g →
  e ∈ chain (inner_ledger g) t ↔ entries g !! le_entry_id e = Some e ∧ le_entry_type e = t.
Proof.
  intros Hg. rewrite chain_inner, list_elem_of_omap. split.
  - intros (id & Hid & He). rewrite (io_self g Hg id e He). split; [done|].
    apply (io_ids g Hg) in Hid as (e' & He' & Ht). congruence.
  - intros [He Ht]. exists (le_entry_id e). split; [|done].
    apply (io_ids g Hg). eauto.
Qed.

Lemma inner_shape g : inner_ok g → ledger_shape (inner_ledger g).
Proof.
  intros Hg. split.
  - intros t e He. by apply elem_of_chain_inner in He as [_ ?].
  - intros t e [He _]%elem_of_chain_inner; [|done]. by apply (io_bounds g Hg) in He.
  - apply (io_sorted g Hg).
  - intros t l Hl Hn. unfold inner_ledger in Hl. rewrite lookup_fmap in Hl.
    destruct (ordered_by_type g !! t) as [[|id ids]|] eqn:E; [|..|done].
    { by apply (io_nonempty g Hg) in E. }
    destruct (proj1 (io_ids g Hg t id)) as (e & He & _).
    { unfold type_ids. rewrite E. left. }
    subst l. simpl in Hl. by rewrite He in Hl.
  - intros t1 t2 e1 e2 [H1 _]%elem_of_chain_inner [H2 _]%elem_of_chain_inner Hid; try done.
    congruence.
Qed.

Lemma inner_keys_unique g : inner_ok g → keys_unique (inner_ledger g).
Proof.
  intros Hg t e1 e2 key [H1 T1]%elem_of_chain_inner [H2 T2]%elem_of_chain_inner K1 K2; try done.
  assert (idempotency_index g !! (t, key) = Some (le_entry_id e1)) as I1
    by (apply (io_keys g Hg); eauto).
  assert (idempotency_index g !! (t, key) = Some (le_entry_id e2)) as I2
    by (apply (io_keys g Hg); eauto).
  congruence.
Qed.

Lemma entries_spec_find g id :
  inner_ok g → entries g !! id = spec_find (inner_ledger g) id.
Proof.
  intros Hg. apply option_eq. intros e.
  rewrite spec_find_Some, elem_of_chain_inner by auto using inner_shape.
  split.
  - intros He. by rewrite (io_self g Hg id e He).
  - by intros [[? _] <-].
Qed.

Lemma index_spec_idempotent g t key :
  inner_ok g →
  idempotency_index g !! (t, key) = le_entry_id <$> spec_idempotent (inner_ledger g) t key.
Proof.
  intros Hg. apply option_eq. intros id. rewrite (io_keys g Hg), fmap_Some. split.
  - intros (e & He & Ht & Hk). exists e. rewrite (io_self g Hg id e He). split; [|done].
    apply spec_idempotent_elem; [by apply inner_keys_unique| |done].
    apply elem_of_chain_inner; [done|]. by rewrite (io_self g Hg id e He).
  - intros (e & [He Hk]%spec_idempotent_Some & ->).
    apply elem_of_chain_inner in He as [He Ht]; [|done]. eauto.
Qed.

(** *** The loop of [get_entries_by_type_paged] *)

Lemma paged_loop_spec g after limit ids out :
  1 ≤ limit ≤ i64_max → Z.of_nat (length out) < limit →
  paged_loop g after limit ids out
  = out ++ take (Z.to_nat limit - length out)
             (filter (λ e, after < le_chain_position e) (omap (λ id, entries g !! id) ids)).
Proof.
  intros Hl. revert out. induction ids as [|id ids IH]; intros out Hout; simpl.
  { by rewrite filter_nil, take_nil, (right_id [] (++)). }
  destruct (entries g !! id) as [e|]; simpl; [|by apply IH].
  rewrite filter_cons. destruct (Z.ltb_spec after (le_chain_position e)) as [Ha|Ha].
  - rewrite decide_True by done.
    replace (Z.to_nat limit - length out)%nat with (S (Z.to_nat limit - length (out ++ [e])))
      by (rewrite length_app; simpl; lia).
    rewrite wrap_u_small by (unfold i64_max in *; lia).
    rewrite length_app. simpl. destruct (Z.leb_spec limit (Z.of_nat (length out + 1))).
    + replace (Z.to_nat limit - (length out + 1))%nat with 0%nat by lia. by rewrite take_0.
    + rewrite IH by (rewrite length_app; simpl; lia).
      rewrite <- (assoc (++)), length_app. done.
  - rewrite decide_False by lia. by apply IH.
Qed.

Lemma in_memory_paged_spec g t after limit :
  1 ≤ limit ≤ i64_max →
  in_memory_get_entries_by_type_paged t after limit g
  = (Ok (spec_paged (inner_ledger g) t after limit), g).
Proof.
  intros Hl. unfold in_memory_get_entries_by_type_paged, spec_paged.
  rewrite chain_inner. unfold type_ids.
  destruct (ordered_by_type g !! t) as [ids|]; simpl.
  - rewrite paged_loop_spec by (simpl; lia). simpl. by rewrite Nat.sub_0_r.
  - by rewrite filter_nil, take_nil.
Qed.

Lemma in_memory_by_hash_spec g t h :
  inner_ok g →
  (∃ e, in_memory_get_entry_by_hash t h g = (Ok e, g)
        ∧ e ∈ chain (inner_ledger g) t ∧ le_entry_hash e = h)
  ∨ (in_memory_get_entry_by_hash t h g = (Err NotFound, g)
     ∧ ∀ e, e ∈ chain (inner_ledger g) t → le_entry_hash e ≠ h).
Proof.
  intros Hg. unfold in_memory_get_entry_by_hash.
  destruct (head _) as [e|] eqn:E; simpl; [left|right].
  - apply head_filter_Some in E as [Hm [id He]%elem_of_hashmap_values].
    apply andb_true_iff in Hm as [Ht%String.eqb_eq Hh%String.eqb_eq].
    exists e. split; [done|]. split; [|done]. apply elem_of_chain_inner; [done|].
    by rewrite (io_self g Hg id e He).
  - split; [done|]. intros e [He Ht]%elem_of_chain_inner Hh; [|done].
    rewrite head_filter_None in E. apply (E e).
    + apply elem_of_hashmap_values. eauto.
    + by rewrite Ht, Hh, !String.eqb_refl.
Qed.

Lemma in_memory_types_spec g :
  inner_ok g → ∃ ts, in_memory_get_distinct_entry_types g = (Ok ts, g)
    ∧ StronglySorted (λ a b, String.leb a b = true) ts ∧ NoDup ts
    ∧ ∀ t, t ∈ ts ↔ chain (inner_ledger g) t ≠ [].
Proof.
  intros Hg. eexists. split; [done|]. split; [|split].
  - apply stable_sort_sorted; [apply String.leb_total|].
    intros x y z H1 H2. by eapply string_leb_trans.
  - rewrite stable_sort_perm. apply hashmap_keys_nodup.
  - intros t. rewrite stable_sort_perm, elem_of_hashmap_keys. unfold chain. split.
    + intros [ids Hids] Hn. destruct (inner_ledger g !! t) as [l|] eqn:E.
      * by apply (shape_nonempty _ (inner_shape g Hg)) in E.
      * unfold inner_ledger in E. by rewrite lookup_fmap, Hids in E.
    + unfold inner_ledger. rewrite lookup_fmap.
      by destruct (ordered_by_type g !! t).
Qed.

(** *** Writing *)

Section Commit.
Context (g : Inner) (Hg : inner_wf g) (input : EntryWriteInput) (n : nat).
Let t := ew_entry_type input.
Let id := uuid_v4 n.
Let e := next_entry (inner_ledger g) input id.
Context (Hfresh : spec_find (inner_ledger g) id = None).
Context (Hlen : Z.of_nat (length (chain (inner_ledger g) t)) < i64_max).

Definition commit : result WriteResult RepositoryError * nat * Inner :=
  in_memory_commit input (Z.of_nat (length (chain (inner_ledger g) t)) + 1) n g.

Let g' := commit.2.

Lemma fresh_entries : entries g !! id = None.
Proof. rewrite entries_spec_find by apply (iw_ok g Hg). done. Qed.

Lemma commit_entries id' : entries g' !! id' = if decide (id' = id) then Some e else entries g !! id'.
Proof.
  simpl. case_decide as H; [subst; by rewrite lookup_insert_eq|].
  by rewrite lookup_insert_ne.
Qed.

Lemma commit_ledger : inner_ledger g' = ledger_append e (inner_ledger g).
Proof.
  assert (∀ ids : list Uuid, id ∉ ids → omap (λ id', entries g' !! id') ids
                            = omap (λ id', entries g !! id') ids) as Hold.
  { intros ids Hids. apply list_omap_ext, Forall_Forall2_diag, Forall_forall. intros id' Hid'.
    rewrite commit_entries, decide_False; [done|]. congruence. }
  assert (∀ t' ids, ordered_by_type g !! t' = Some ids → id ∉ ids) as Hnot.
  { intros t' ids Hids Hin.
    destruct (proj1 (io_ids g (iw_ok g Hg) t' id)) as (e' & He' & _).
    - unfold type_ids. by rewrite Hids.
    - by rewrite fresh_entries in He'. }
  unfold inner_ledger at 1.
  change (ordered_by_type g') with (<[t := type_ids g t ++ [id]]> (ordered_by_type g)).
  rewrite fmap_insert, omap_app. unfold ledger_append. f_equal.
  - rewrite chain_inner. cbn [omap list_omap]. rewrite commit_entries, decide_True by done.
    f_equal. change (le_entry_type e) with t. apply Hold. unfold type_ids.
    destruct (ordered_by_type g !! t) as [ids|] eqn:E; simpl; [exact (Hnot t ids E)|].
    apply not_elem_of_nil.
  - apply map_fmap_ext. intros t' ids Hids. apply Hold. by eapply Hnot.
Qed.

Lemma commit_ids t' id' :
  id' ∈ type_ids g' t' ↔ id' ∈ type_ids g t' ∨ (t' = t ∧ id' = id).
Proof.
  unfold type_ids. simpl. fold t. destruct (decide (t' = t)) as [->|Hne].
  - rewrite lookup_insert_eq. simpl. rewrite elem_of_app, list_elem_of_singleton. naive_solver.
  - rewrite lookup_insert_ne by done. naive_solver.
Qed.

Lemma commit_index key t' id' :
  (∀ key, ew_idempotency_key input = Some key →
     spec_idempotent (inner_ledger g) t key = None) →
  idempotency_index g' !! (t', key) = Some id' ↔
  idempotency_index g !! (t', key) = Some id'
  ∨ (id' = id ∧ t' = t ∧ ew_idempotency_key input = Some key).
Proof.
  intros Hk. simpl. destruct (ew_idempotency_key input) as [k|]; [|naive_solver].
  rewrite lookup_insert_Some. fold t.
  assert (idempotency_index g !! (t, k) = None) as Hnone.
  { rewrite index_spec_idempotent by apply (iw_ok g Hg). by rewrite Hk. }
  split.
  - intros [[[= <- <-] <-]|[_ ?]]; [by right|by left].
  - intros [H'|(-> & -> & [= ->])]; [right|by left].
    split; [|done]. intros [= <- <-]. congruence.
Qed.

Lemma commit_wf :
  (∀ key, ew_idempotency_key input = Some key →
     spec_idempotent (inner_ledger g) t key = None) →
  inner_wf g'.
Proof.
  intros Hk. pose proof (iw_ok g Hg) as Hok. pose proof (inner_shape g Hok) as Hsh.
  pose proof (append_shape _ input id Hsh (iw_dense g Hg) Hfresh Hlen) as Hsh'. fold e in Hsh'.
  assert (∀ t', chain_tips g' !! t' = spec_tip (inner_ledger g') t') as Htips.
  { intros t'. rewrite commit_ledger. unfold spec_tip. rewrite chain_append. simpl. fold t.
    case_decide as H; [subst t'; by rewrite lookup_insert_eq, last_snoc|].
    rewrite lookup_insert_ne by done. apply (iw_tips g Hg). }
  split; [split| |done].
  - intros t' id'. rewrite commit_ids, (io_ids g Hok). setoid_rewrite commit_entries. split.
    + intros [(e' & He' & Ht)|[-> ->]]; [|exists e; by rewrite decide_True].
      exists e'. case_decide; [subst; by rewrite fresh_entries in He'|done].
    + intros (e' & He' & Ht). case_decide; [right; naive_solver|eauto].
  - intros id' e'. rewrite commit_entries. case_decide; [naive_solver|apply (io_self g Hok)].
  - intros t' ids. simpl. rewrite lookup_insert_Some.
    intros [[_ <-]|[_ ?]]; [by destruct (default [] _)|by eapply (io_nonempty g Hok)].
  - intros id' e'. rewrite commit_entries. case_decide; [|apply (io_bounds g Hok)].
    intros [= <-]. simpl. fold t. lia.
  - intros t'. rewrite commit_ledger. apply (shape_sorted _ Hsh').
  - intros t'. rewrite Htips. unfold spec_tip.
    destruct (last _) as [e'|]; simpl; [by exists (tip_of_entry e')|done].
  - intros t' key id'. rewrite commit_index, (io_keys g Hok) by done.
    setoid_rewrite commit_entries. split.
    + intros [(e' & He' & Ht)|(-> & -> & Hkey)]; [|exists e; by rewrite decide_True].
      exists e'. case_decide; [subst; by rewrite fresh_entries in He'|done].
    + intros (e' & He' & Ht & Hkey). case_decide; [right|by eauto].
      simplify_eq. done.
  - rewrite commit_ledger. apply append_dense, (iw_dense g Hg).
Qed.
End Commit.

Lemma idempotency_taken_spec g input :
  inner_ok g →
  idempotency_taken input g
  = match ew_idempotency_key input with
    | Some key =>
        negb (bool_decide (spec_idempotent (inner_ledger g) (ew_entry_type input) key = None))
    | None => false
    end.
Proof.
  intros Hg. unfold idempotency_taken. destruct (ew_idempotency_key input) as [key|]; [|done].
  rewrite index_spec_idempotent by done. by destruct (spec_idempotent _ _ _).
Qed.

Lemma in_memory_write_spec g input n :
  inner_wf g → Z.of_nat (length (chain (inner_ledger g) (ew_entry_type input))) < i64_max →
  in_memory_write_entry_with_outbox input n g
  = match spec_write (inner_ledger g) input (uuid_v4 n) with
    | Ok _ => commit g input n
    | Err x => (Err x, n, g)
    end.
Proof.
  intros Hg Hlen. unfold in_memory_write_entry_with_outbox, spec_write, linked, commit.
  rewrite idempotency_taken_spec by apply (iw_ok g Hg).
  destruct (match ew_idempotency_key input with Some _ => _ | None => _ end); [done|].
  rewrite (iw_tips g Hg). unfold spec_tip.
  destruct (last _) as [e|] eqn:Hlast; simpl.
  - rewrite last_lookup in Hlast. pose proof Hlast as Hp. apply (iw_dense g Hg) in Hp.
    apply lookup_lt_Some in Hlast. rewrite Hp, i64_add_small.
    2: { unfold i64_ok, i64_min, i64_max in *. lia. }
    replace (Z.of_nat _ + 1 + 1) with
      (Z.of_nat (length (chain (inner_ledger g) (ew_entry_type input))) + 1) by lia.
    rewrite (proj2 (Z.eqb_neq _ 1)), (proj2 (Z.ltb_lt 1 _)) by lia. simpl.
    by destruct (String.eqb _ _).
  - rewrite last_None in Hlast. rewrite Hlast. simpl. by destruct (is_empty _).
Qed.

#[global] Instance inner_reader : ChainReaderLaws Inner.
Proof.
  split.
  - apply inner_shape.
  - intros g id Hg. simpl. unfold in_memory_get_entry. by rewrite entries_spec_find.
  - intros g t after limit _. apply in_memory_paged_spec.
  - done.
Qed.

#[global] Instance inner_laws : LedgerStoreLaws Inner.
Proof.
  split.
  - apply inner_reader.
  - apply iw_ok.
  - apply iw_dense.
  - intros g Hg. apply inner_keys_unique, (iw_ok g Hg).
  - intros g t Hg. simpl. unfold in_memory_get_chain_tip. by rewrite (iw_tips g Hg).
  - intros g t Hg. pose proof (io_tips g Hg t) as Ht. simpl. unfold in_memory_get_chain_tip.
    destruct (last _); [destruct Ht as (tip & -> & ?)|rewrite Ht]; simpl; eauto.
  - intros g t key Hg. simpl. unfold in_memory_find_idempotent.
    rewrite index_spec_idempotent by done.
    destruct (spec_idempotent _ t key) as [e|] eqn:E; simpl; [|done].
    apply spec_idempotent_Some in E as [He _].
    apply elem_of_chain_inner in He as [-> _]; done.
  - intros g t h Hg. destruct (in_memory_by_hash_spec g t h Hg) as [?|?]; [by left|by right; left].
  - intros g Hg. destruct (in_memory_types_spec g Hg) as (ts & ? & _ & ?). by exists ts.
  - done.
  - done.
  - done.
  - done.
  - intros g input n Hg Hfresh Hlen _ _. simpl. rewrite in_memory_write_spec by done.
    destruct (spec_write _ _ _) as [e|x] eqn:E; [|by eauto 6].
    apply spec_write_Ok in E as (-> & Hk & _).
    eexists _, _, _. split; [done|]. split; [done|]. split.
    + replace (stored_write Inner input) with input by (by destruct input).
      by apply commit_ledger.
    + split; [by apply commit_wf|]. split; [lia|]. intros Hinj m Hm Hold.
      change (spec_find (inner_ledger (commit g input n).2) (uuid_v4 m) = None).
      rewrite commit_ledger by done. simpl in Hold. rewrite spec_find_None in *.
      intros t e [He|[_ ->]]%elem_of_chain_append; [by apply (Hold t)|].
      simpl. intros Heq%Hinj. lia.
Qed.

Lemma inner_default_wf : inner_wf inner_default.
Proof.
  assert (∀ t, chain (inner_ledger inner_default) t = []) as Hc.
  { intros t. by rewrite chain_inner. }
  split; [split| |].
  - intros t id. unfold type_ids. simpl. rewrite lookup_empty. simpl.
    setoid_rewrite lookup_empty. rewrite elem_of_nil. naive_solver.
  - intros id e. simpl. by rewrite lookup_empty.
  - intros t ids. simpl. by rewrite lookup_empty.
  - intros id e. simpl. by rewrite lookup_empty.
  - intros t. rewrite Hc. constructor.
  - intros t. by rewrite Hc.
  - intros t key id. simpl. setoid_rewrite lookup_empty. naive_solver.
  - intros t i e. by rewrite Hc.
  - intros t. unfold spec_tip. by rewrite Hc.
Qed.

(** *** Tampering with one record *)

Section Corrupt.
Context (f : LedgerEntryRecord → LedgerEntryRecord).
Context (Hid : ∀ e, le_entry_id (f e) = le_entry_id e).
Context (Htype : ∀ e, le_entry_type (f e) = le_entry_type e).
Context (Hpos : ∀ e, le_chain_position (f e) = le_chain_position e).
Context (Hkey : ∀ e, le_idempotency_key (f e) = le_idempotency_key e).
Context (g : Inner) (Hg : inner_ok g) (id : Uuid).

Definition corrupt_entry (e : LedgerEntryRecord) : LedgerEntryRecord :=
  if decide (le_entry_id e = id) then f e else e.

Let g' := (test_corrupt f id g).2.

Lemma corrupt_entries id' : entries g' !! id' = corrupt_entry <$> entries g !! id'.
Proof.
  unfold g', test_corrupt, corrupt_entry. destruct (entries g !! id) as [e|] eqn:E; simpl.
  - destruct (decide (id' = id)) as [->|Hne].
    + rewrite lookup_insert_eq, E. simpl. by rewrite decide_True by by eapply io_self.
    + rewrite lookup_insert_ne by done. destruct (entries g !! id') as [e'|] eqn:E'; [|done].
      simpl. rewrite decide_False; [done|]. by rewrite (io_self g Hg id' e' E').
  - destruct (entries g !! id') as [e'|] eqn:E'; [|done]. simpl.
    rewrite decide_False; [done|]. rewrite (io_self g Hg id' e' E'). congruence.
Qed.

Lemma corrupt_other :
  ordered_by_type g' = ordered_by_type g ∧ chain_tips g' = chain_tips g
  ∧ idempotency_index g' = idempotency_index g.
Proof. unfold g', test_corrupt. by case_match. Qed.

Lemma corrupt_chain t : chain (inner_ledger g') t = map corrupt_entry (chain (inner_ledger g) t).
Proof.
  rewrite !chain_inner. unfold type_ids. rewrite (proj1 corrupt_other).
  induction (default [] _) as [|id' ids IH]; [done|]. cbn [omap list_omap].
  rewrite corrupt_entries. destruct (entries g !! id'); simpl; [|done]. by f_equal.
Qed.

Lemma corrupt_keeps e :
  le_entry_id (corrupt_entry e) = le_entry_id e
  ∧ le_entry_type (corrupt_entry e) = le_entry_type e
  ∧ le_chain_position (corrupt_entry e) = le_chain_position e
  ∧ le_idempotency_key (corrupt_entry e) = le_idempotency_key e.
Proof. unfold corrupt_entry. case_decide; eauto. Qed.

Lemma corrupt_ok : inner_ok g'.
Proof.
  pose proof corrupt_keeps as Hk. destruct corrupt_other as (Ho & Ht & Hi).
  split.
  - intros t id'. assert (type_ids g' t = type_ids g t) as -> by (unfold type_ids; by rewrite Ho).
    setoid_rewrite corrupt_entries. rewrite (io_ids g Hg). setoid_rewrite fmap_Some. split.
    + intros (e & He & Hty). exists (corrupt_entry e). split; [by exists e|].
      by destruct (Hk e) as (_ & -> & _).
    + intros (e' & (e & He & ->) & Hty). exists e. split; [done|].
      by destruct (Hk e) as (_ & <- & _).
  - intros id' e'. rewrite corrupt_entries, fmap_Some. intros (e & He & ->).
    destruct (Hk e) as (-> & _). by apply (io_self g Hg).
  - rewrite Ho. apply (io_nonempty g Hg).
  - intros id' e'. rewrite corrupt_entries, fmap_Some. intros (e & He & ->).
    destruct (Hk e) as (_ & _ & -> & _). by apply (io_bounds g Hg) in He.
  - intros t. rewrite corrupt_chain. apply StronglySorted_map; [|apply (io_sorted g Hg)].
    intros a b. unfold position_lt.
    by destruct (Hk a) as (_ & _ & -> & _), (Hk b) as (_ & _ & -> & _).
  - intros t. rewrite corrupt_chain, last_map, Ht. pose proof (io_tips g Hg t) as Htip.
    destruct (last _) as [e|]; simpl; [|done]. by destruct (Hk e) as (-> & _ & -> & _).
  - intros t key id'. rewrite Hi, (io_keys g Hg). setoid_rewrite corrupt_entries.
    setoid_rewrite fmap_Some. split.
    + intros (e & He & Hty & Hke). exists (corrupt_entry e). split; [by exists e|].
      by destruct (Hk e) as (_ & -> & _ & ->).
    + intros (e' & (e & He & ->) & Hty & Hke). exists e. split; [done|].
      by destruct (Hk e) as (_ & <- & _ & <-).
Qed.
End Corrupt.
End InMemoryLemmas.

(** * Properties *)

Section InMemoryProperties.
Context {P : Platform} {PL : PlatformLaws P}.

(** C6: the in-memory write refines the abstract one: on a well-formed repository
    with a fresh identifier, [write_entry_with_outbox] succeeds exactly when
    [spec_write] does; then it stores the specified entry at the end of its
    chain, keeps the five maps consistent, and puts one pending event for the
    entry into the outbox in the same step exactly when the caller asked for it;
    otherwise it reports the specified error and changes nothing. *)
Theorem in_memory_write_refines (g : Inner) (input : EntryWriteInput) (n : nat) :
  inner_wf g → spec_find (inner_ledger g) (uuid_v4 n) = None →
  Z.of_nat (length (chain (inner_ledger g) (ew_entry_type input))) < i64_max →
  match spec_write (inner_ledger g) input (uuid_v4 n) with
  | Err x => in_memory_write_entry_with_outbox input n g = (Err x, n, g)
  | Ok e => ∃ event g',
      in_memory_write_entry_with_outbox input n g
      = (Ok {| wr_entry := e; wr_outbox := event |}, (n + 3)%nat, g')
      ∧ inner_ledger g' = ledger_append e (inner_ledger g) ∧ inner_wf g'
      ∧ match event with
        | None => ew_create_outbox input = false ∧ outbox g' = outbox g
        | Some record =>
            ew_create_outbox input = true
            ∧ outbox g' = <[uuid_v4 (n + 1) := record]> (outbox g)
            ∧ ob_outbox_id record = uuid_v4 (n + 1) ∧ ob_entry_id record = le_entry_id e
            ∧ ob_status record = Pending ∧ ob_attempt_count record = 0
            ∧ ob_payload record
              = ledger_written_payload (uuid_v4 (n + 2)) (le_entry_id e) (le_entry_type e)
                  (le_agent_id e) (le_source_id e) (le_entry_hash e) (le_hash_version e)
                  (le_correlation_id e) (timestamp_millis (le_written_ts e))
        end
  end.
Proof.
  intros Hg Hfresh Hlen. rewrite in_memory_write_spec by done.
  destruct (spec_write _ _ _) as [e|x] eqn:E; [|done].
  apply spec_write_Ok in E as (-> & Hk & _). eexists _, _. split; [reflexivity|].
  split; [by apply commit_ledger|]. split; [by apply commit_wf|].
  destruct (ew_create_outbox input) eqn:Ho; simpl; by repeat split.
Qed.

(** Tampering with stored fields leaves the maps consistent: the helpers the
    tests use to forge a hash, a correlation identifier or a signature keep the
    invariant the verification methods rely on, and change exactly the named
    record, so what they produce is a tampered ledger and not a broken one. *)
Theorem tampering_keeps_shape (g : Inner) (id : Uuid) (correlation : string) :
  inner_ok g →
  let hash := with_entry_hash "tampered-hash" in
  let corr := with_correlation_id (Some correlation) in
  let sig := with_writer_signature (Some (as_bytes "tampered-signature")) in
  inner_ok (test_corrupt_entry_hash id g).2
  ∧ inner_ok (test_corrupt_correlation_id id correlation g).2
  ∧ inner_ok (test_corrupt_writer_signature id g).2
  ∧ ∀ t, chain (inner_ledger (test_corrupt_entry_hash id g).2) t
           = map (corrupt_entry hash id) (chain (inner_ledger g) t)
         ∧ chain (inner_ledger (test_corrupt_correlation_id id correlation g).2) t
           = map (corrupt_entry corr id) (chain (inner_ledger g) t)
         ∧ chain (inner_ledger (test_corrupt_writer_signature id g).2) t
           = map (corrupt_entry sig id) (chain (inner_ledger g) t).
Proof.
  intros Hg hash corr sig. split; [by apply corrupt_ok|]. split; [by apply corrupt_ok|].
  split; [by apply corrupt_ok|]. intros t.
  split; [by apply corrupt_chain|]. split; by apply corrupt_chain.
Qed.
End InMemoryProperties.

(** * Witnesses *)

#[local] Existing Instance Toy.platform.
#[local] Existing Instance Toy.laws.

Definition demo_write_input : EntryWriteInput := {|
  ew_entry_type := "t"; ew_agent_id := "a"; ew_content := []; ew_content_type := "p";
  ew_source_id := "s"; ew_correlation_id := None; ew_idempotency_key := None;
  ew_input_hash := None; ew_writer_signature := None; ew_signer_key_reference := None;
  ew_attestation_report := None; ew_previous_hash := "g"; ew_written_ts := 5;
  ew_create_outbox := true
|}.

Lemma in_memory_write_refines_witness :
  ∃ event g',
    in_memory_write_entry_with_outbox demo_write_input 0 inner_default
    = (Ok {| wr_entry := next_entry (inner_ledger inner_default) demo_write_input (uuid_v4 0);
             wr_outbox := event |}, 3%nat, g').
Proof.
  destruct (in_memory_write_refines inner_default demo_write_input 0 inner_default_wf
              eq_refl eq_refl) as (event & g' & H & _).
  exists event, g'. exact H.
Defined.

Lemma tampering_keeps_shape_witness :
  inner_ok (test_corrupt_entry_hash (uuid_v4 0) inner_default).2.
Proof.
  apply (tampering_keeps_shape inner_default (uuid_v4 0) ""). apply iw_ok, inner_default_wf.
Defined.
