(* ===== verification/PostgresLaws.v ===== *)
(** * [PostgresLedgerRepository] keeps the contract of LedgerSpec

    [pg_ledger] abstracts the table of entries: the chain of a type is its rows in
    position order.  [tables_ok] is what the unique indexes enforce, [tables_wf]
    adds what holds of a table only written through the ledger.  The instance
    [postgres_laws] is the refinement, while the server answers ([pg_faults] is
    empty); [postgres_write_atomic] is what is left when it does not.  What
    [ORDER BY] leaves open, and the order of a scan, is up to [pg_scan]: no
    theorem depends on it. *)

From Stdlib Require Import String Ascii Strings.Byte ZArith Lia.
From stdpp Require Import base tactics numbers strings list gmap sorting.
From S2P Require Import Prelude Platform Crypto Repository LedgerSpec Postgres.

Section Abstraction.
Context {P : Platform} {G : PgPlatform}.

Definition pg_chain (tables : PgTables) (entry_type : string) : list LedgerEntryRecord :=
  stable_sort position_asc (of_type entry_type tables).

Definition pg_ledger (tables : PgTables) : Ledger :=
  list_to_map ((λ t, (t, pg_chain tables t)) <$> remove_dups (le_entry_type <$> tb_entries tables)).

Record tables_ok (tables : PgTables) : Prop := {
  to_ids : NoDup (le_entry_id <$> tb_entries tables);
  to_positions : ∀ e1 e2, e1 ∈ tb_entries tables → e2 ∈ tb_entries tables →
    same_position e1 e2 = true → e1 = e2;
  to_keys : ∀ e1 e2, e1 ∈ tb_entries tables → e2 ∈ tb_entries tables →
    same_key e1 e2 = true → e1 = e2;
  to_bounds : ∀ e, e ∈ tb_entries tables → 1 ≤ le_chain_position e ≤ i64_max;
  to_types : ∀ e, e ∈ tb_entries tables → sql_text (le_entry_type e) = true
}.

Record tables_wf (tables : PgTables) : Prop := {
  tw_ok : tables_ok tables;
  tw_dense : ledger_dense (pg_ledger tables);
  tw_hashes : ∀ e, e ∈ tb_entries tables → varchar 64 (le_entry_hash e) = Some (le_entry_hash e)
}.

(** The identifiers of the next entry and its event are unused. *)
Definition rows_fresh (n : nat) (tables : PgTables) : Prop :=
  (∀ e, e ∈ tb_entries tables → le_entry_id e ≠ uuid_v4 n)
  ∧ ∀ r, r ∈ tb_outbox tables → or_outbox_id r ≠ uuid_v4 (n + 1).

(** Every text of the request fits its column unchanged. *)
Definition fits (n : nat) (s : string) : bool := bool_decide (varchar n s = Some s).
Definition fits_opt (n : nat) (o : option string) : bool := bool_decide (varchar_opt n o = Some o).

Definition text_fits (input : EntryWriteInput) : bool :=
  fits 255 (ew_entry_type input) && fits 255 (ew_agent_id input)
  && fits 100 (ew_content_type input) && fits 255 (ew_source_id input)
  && fits_opt 255 (ew_correlation_id input) && fits_opt 255 (ew_idempotency_key input)
  && fits_opt 128 (ew_input_hash input) && fits_opt 255 (ew_signer_key_reference input).

#[global] Instance postgres_store : LedgerStore PostgresLedgerRepository := {|
  ledger_of db := pg_ledger (pg_tables db);
  store_ok db := pg_faults db = [] ∧ tables_ok (pg_tables db);
  store_wf db := pg_faults db = [] ∧ tables_wf (pg_tables db);
  store_fresh n db := rows_fresh n (pg_tables db);
  store_accepts input := text_fits input = true
    ∧ timestamp_millis (pg_timestamp (ew_written_ts input)) = timestamp_millis (ew_written_ts input);
  store_reads := sql_text;
  store_time := pg_timestamp
|}.
End Abstraction.

(** * Lemmas *)

(** ** Text *)

Section Text.

Lemma has_nul_false (l : list byte) : has_nul l = false ↔ "000"%byte ∉ l.
Proof.
  unfold has_nul. rewrite <- not_true_iff_false, existsb_exists.
  split.
  - intros H Hin. apply H. exists "000"%byte. split; [by apply list_elem_of_In|done].
  - intros H (x & Hx%list_elem_of_In & He). apply Byte.byte_dec_bl in He. by subst x.
Qed.

Lemma utf8_split_app (n : nat) (l : list byte) :
  (utf8_split n l).1 ++ (utf8_split n l).2 = l.
Proof.
  revert n. induction l as [|b l IH]; intros n; [done|]. simpl.
  destruct (is_continuation b).
  - specialize (IH n). destruct (utf8_split n l). simpl in *. by rewrite IH.
  - destruct n as [|n]; [done|].
    specialize (IH n). destruct (utf8_split n l). simpl in *. by rewrite IH.
Qed.

Lemma utf8_split_short (n : nat) (l : list byte) :
  (length l ≤ n)%nat → utf8_split n l = (l, []).
Proof.
  revert n. induction l as [|b l IH]; intros n Hn; [done|]. simpl in *.
  destruct (is_continuation b); [by rewrite IH by lia|].
  destruct n as [|n]; [lia|]. by rewrite IH by lia.
Qed.

(** A short text without NUL fits. *)
Lemma varchar_short (n : nat) (s : string) :
  (length (as_bytes s) ≤ n)%nat → has_nul (as_bytes s) = false → varchar n s = Some s.
Proof.
  intros Hn H0. unfold varchar. rewrite utf8_split_short, H0 by done. simpl.
  by rewrite string_of_list_byte_of_string.
Qed.

(** What is stored for a text is a prefix of it, cut before trailing spaces. *)
Lemma varchar_prefix (n : nat) (s s' : string) :
  varchar n s = Some s' →
  has_nul (as_bytes s) = false ∧
  ∃ spaces, as_bytes s = as_bytes s' ++ spaces ∧ Forall (λ b, b = " "%byte) spaces.
Proof.
  unfold varchar. pose proof (utf8_split_app n (as_bytes s)) as Happ.
  destruct (utf8_split n (as_bytes s)) as [kept rest]. simpl in Happ.
  destruct (has_nul (as_bytes s)); [done|]. destruct (forallb _ rest) eqn:Hsp; [|done].
  intros [= <-]. split; [done|]. exists rest. rewrite as_bytes_of_bytes. split; [done|].
  apply Forall_forall. intros b Hb%list_elem_of_In.
  rewrite forallb_forall in Hsp. symmetry. by apply Byte.byte_dec_bl, Hsp.
Qed.

Lemma varchar_sql_text (n : nat) (s s' : string) : varchar n s = Some s' → sql_text s = true.
Proof. intros [H _]%varchar_prefix. unfold sql_text. by rewrite H. Qed.

Lemma graphic_no_nul (l : list byte) :
  Forall (λ b, ascii_graphic b = true) l → has_nul l = false.
Proof.
  intros H. apply has_nul_false. intros Hin. rewrite Forall_forall in H.
  by apply H in Hin.
Qed.

Lemma as_bytes_length (s : string) : length (as_bytes s) = String.length s.
Proof. induction s as [|a s IH]; [done|]. cbn. by f_equal. Qed.
End Text.

Section PgText.
Context {P : Platform} {PL : PlatformLaws P}.

Lemma sha256_hex_fits (data : list byte) : varchar 64 (sha256_hex data) = Some (sha256_hex data).
Proof.
  apply varchar_short; [|apply graphic_no_nul, hex_encode_graphic].
  by rewrite as_bytes_length, sha256_hex_length.
Qed.
End PgText.

(** ** Chains of a table *)

Section Chains.
Context {P : Platform} {G : PgPlatform} {GL : PgLaws G}.
Implicit Types (tb : PgTables) (e : LedgerEntryRecord) (t : string).

Lemma position_asc_total e1 e2 : position_asc e1 e2 = true ∨ position_asc e2 e1 = true.
Proof. unfold position_asc. rewrite !Z.leb_le. lia. Qed.

Lemma position_asc_trans e1 e2 e3 :
  position_asc e1 e2 = true → position_asc e2 e3 = true → position_asc e1 e3 = true.
Proof. unfold position_asc. rewrite !Z.leb_le. lia. Qed.

Lemma elem_of_of_type tb t e : e ∈ of_type t tb ↔ e ∈ tb_entries tb ∧ le_entry_type e = t.
Proof. unfold of_type. rewrite list_elem_of_filter. tauto. Qed.

Lemma elem_of_pg_chain tb t e :
  e ∈ pg_chain tb t ↔ e ∈ tb_entries tb ∧ le_entry_type e = t.
Proof. unfold pg_chain. by rewrite stable_sort_perm, elem_of_of_type. Qed.

Lemma pg_chain_nil tb t : pg_chain tb t = [] ↔ t ∉ le_entry_type <$> tb_entries tb.
Proof.
  rewrite list_elem_of_fmap. split.
  - intros H (e & -> & He).
    assert (e ∈ pg_chain tb (le_entry_type e)) as Hin by by apply elem_of_pg_chain.
    rewrite H in Hin. by apply elem_of_nil in Hin.
  - intros H. destruct (pg_chain tb t) as [|e l] eqn:E; [done|].
    destruct H. exists e. assert (e ∈ pg_chain tb t) as Hin by (rewrite E; left).
    apply elem_of_pg_chain in Hin as [? ?]. done.
Qed.

Lemma pg_ledger_lookup tb t :
  pg_ledger tb !! t = match pg_chain tb t with [] => None | l => Some l end.
Proof.
  unfold pg_ledger.
  assert (NoDup (((λ t, (t, pg_chain tb t)) <$> remove_dups (le_entry_type <$> tb_entries tb)).*1))
    as Hnd.
  { rewrite <- list_fmap_compose. unfold compose. simpl. rewrite list_fmap_id.
    apply NoDup_remove_dups. }
  destruct (pg_chain tb t) as [|e l] eqn:E.
  - apply not_elem_of_list_to_map_1. rewrite <- list_fmap_compose. unfold compose. simpl.
    rewrite list_fmap_id, elem_of_remove_dups. by apply pg_chain_nil.
  - apply elem_of_list_to_map_1; [done|]. apply list_elem_of_fmap. exists t.
    split; [by rewrite E|]. apply elem_of_remove_dups.
    destruct (decide (t ∈ le_entry_type <$> tb_entries tb)) as [|Hn]; [done|].
    apply pg_chain_nil in Hn. by rewrite E in Hn.
Qed.

Lemma chain_pg tb t : chain (pg_ledger tb) t = pg_chain tb t.
Proof. unfold chain. rewrite pg_ledger_lookup. by destruct (pg_chain tb t). Qed.

(** Two lists in strictly increasing positions with the same elements are equal. *)
Lemma position_lt_unique (l1 l2 : list LedgerEntryRecord) :
  StronglySorted position_lt l1 → StronglySorted position_lt l2 → l1 ≡ₚ l2 → l1 = l2.
Proof.
  apply StronglySorted_unique. intros a b H1 H2. unfold position_lt in *. lia.
Qed.

Definition position_le (a b : LedgerEntryRecord) : Prop :=
  le_chain_position a ≤ le_chain_position b.

(** A sorted list is strictly sorted when no two of its rows share a position. *)
Lemma positions_strict (l : list LedgerEntryRecord) :
  StronglySorted position_le l → NoDup l →
  (∀ e1 e2, e1 ∈ l → e2 ∈ l → le_chain_position e1 = le_chain_position e2 → e1 = e2) →
  StronglySorted position_lt l.
Proof.
  induction 1 as [|e l Hl IH He]; intros Hnd Hinj; [constructor|].
  apply NoDup_cons in Hnd as [Hni Hnd]. constructor.
  - apply IH; [done|]. intros. apply Hinj; [by right..|done].
  - apply Forall_forall. intros e' He'. rewrite Forall_forall in He.
    specialize (He e' He'). unfold position_le, position_lt in *.
    destruct (decide (le_chain_position e = le_chain_position e')); [|lia].
    assert (e = e') as -> by (apply Hinj; [left|by right|done]). done.
Qed.

Lemma sort_asc_le l : StronglySorted position_le (stable_sort position_asc l).
Proof.
  eapply StronglySorted_impl; [|apply stable_sort_sorted; [apply position_asc_total|apply position_asc_trans]].
  intros e1 e2. apply Z.leb_le.
Qed.

Lemma sort_desc_le l : StronglySorted position_le (reverse (stable_sort position_desc l)).
Proof.
  apply StronglySorted_reverse. eapply StronglySorted_impl; [|apply stable_sort_sorted].
  - intros e1 e2. apply Z.leb_le.
  - intros. apply position_asc_total.
  - intros e1 e2 e3 H1 H2. by apply (position_asc_trans e3 e2 e1).
Qed.

Section Ok.
Context (tb : PgTables) (Htb : tables_ok tb).

Lemma entries_nodup : NoDup (tb_entries tb).
Proof. apply (NoDup_fmap_1 le_entry_id), Htb. Qed.

Lemma of_type_positions t e1 e2 :
  e1 ∈ of_type t tb → e2 ∈ of_type t tb → le_chain_position e1 = le_chain_position e2 → e1 = e2.
Proof.
  rewrite !elem_of_of_type. intros [H1 T1] [H2 T2] Hp. apply (to_positions _ Htb); [done..|].
  unfold same_position. apply andb_true_iff. split; [apply String.eqb_eq; congruence|by apply Z.eqb_eq].
Qed.

Lemma pg_chain_sorted t : StronglySorted position_lt (pg_chain tb t).
Proof.
  apply positions_strict; [apply sort_asc_le|unfold pg_chain; rewrite stable_sort_perm..|].
  - apply NoDup_filter, entries_nodup.
  - intros e1 e2. unfold pg_chain. rewrite !stable_sort_perm. apply of_type_positions.
Qed.

(** The rows of a type that satisfy [Q], in any order, sorted by position. *)
Lemma sort_of_type (Q : LedgerEntryRecord → Prop) `{∀ e, Decision (Q e)} t l :
  l ≡ₚ filter Q (of_type t tb) → stable_sort position_asc l = filter Q (pg_chain tb t).
Proof.
  intros Hl. apply position_lt_unique.
  - apply positions_strict; [apply sort_asc_le|rewrite stable_sort_perm..|].
    + rewrite Hl. apply NoDup_filter, NoDup_filter, entries_nodup.
    + intros e1 e2. rewrite !stable_sort_perm, Hl, !list_elem_of_filter. intros [_ H1] [_ H2].
      by apply (of_type_positions t).
  - apply StronglySorted_filter, pg_chain_sorted.
  - rewrite stable_sort_perm, Hl. apply filter_Permutation. unfold pg_chain.
    by rewrite stable_sort_perm.
Qed.

Lemma pg_shape : ledger_shape (pg_ledger tb).
Proof.
  split.
  - intros t e. rewrite chain_pg. by intros [_ ?]%elem_of_pg_chain.
  - intros t e. rewrite chain_pg. intros [? _]%elem_of_pg_chain. by apply (to_bounds _ Htb).
  - intros t. rewrite chain_pg. apply pg_chain_sorted.
  - intros t l. rewrite pg_ledger_lookup. destruct (pg_chain tb t); [done|]. by intros [= <-].
  - intros t1 t2 e1 e2. rewrite !chain_pg. intros [H1 _]%elem_of_pg_chain [H2 _]%elem_of_pg_chain Hid.
    apply list_elem_of_lookup in H1 as [i Hi], H2 as [j Hj].
    assert (i = j) as ->; [|congruence].
    apply (NoDup_lookup (le_entry_id <$> tb_entries tb) i j (le_entry_id e1)); [apply Htb|..];
      rewrite list_lookup_fmap; [by rewrite Hi|rewrite Hj; simpl; by rewrite Hid].
Qed.

Lemma pg_keys_unique : keys_unique (pg_ledger tb).
Proof.
  intros t e1 e2 key. rewrite !chain_pg.
  intros [H1 T1]%elem_of_pg_chain [H2 T2]%elem_of_pg_chain K1 K2.
  apply (to_keys _ Htb); [done..|]. unfold same_key. rewrite K1, K2, T1, T2.
  by rewrite !String.eqb_refl.
Qed.

Lemma select_tip_last t : select_tip t tb = last (pg_chain tb t).
Proof.
  unfold select_tip. rewrite <- last_reverse. f_equal.
  assert (reverse (stable_sort position_desc (pg_scan (of_type t tb))) ≡ₚ of_type t tb) as Hp.
  { etrans; [apply reverse_Permutation|]. by rewrite stable_sort_perm, pg_scan_perm. }
  apply position_lt_unique; [|apply pg_chain_sorted|].
  - apply positions_strict; [apply sort_desc_le|rewrite Hp..|].
    + apply NoDup_filter, entries_nodup.
    + intros e1 e2. rewrite Hp. apply of_type_positions.
  - rewrite Hp. unfold pg_chain. by rewrite stable_sort_perm.
Qed.

(** *** Lookups *)

Lemma select_unique (keep : LedgerEntryRecord → bool) :
  (∀ e1 e2, e1 ∈ tb_entries tb → e2 ∈ tb_entries tb → keep e1 = true → keep e2 = true → e1 = e2) →
  query_opt (pg_scan (filter (λ e, keep e = true) (tb_entries tb)))
  = Ok (head (filter (λ e, keep e = true) (tb_entries tb))).
Proof.
  intros Huniq.
  assert (NoDup (filter (λ e, keep e = true) (tb_entries tb))) as Hnd
    by apply NoDup_filter, entries_nodup.
  assert (∀ e, e ∈ filter (λ e, keep e = true) (tb_entries tb) →
            e ∈ tb_entries tb ∧ keep e = true) as Hin
    by (intros e; rewrite list_elem_of_filter; tauto).
  pose proof (pg_scan_perm _ (filter (λ e, keep e = true) (tb_entries tb))) as Hp.
  destruct (filter (λ e, keep e = true) (tb_entries tb)) as [|e1 [|e2 l]].
  - by apply Permutation_nil_r in Hp as ->.
  - by apply Permutation_singleton_r in Hp as ->.
  - apply NoDup_cons in Hnd as [Hni _]. destruct Hni.
    destruct (Hin e1) as [H1 K1]; [by left|]. destruct (Hin e2) as [H2 K2]; [by right; left|].
    rewrite (Huniq e1 e2 H1 H2 K1 K2). by left.
Qed.

Lemma head_filter_unique (Q : LedgerEntryRecord → Prop) `{∀ e, Decision (Q e)} e
    (l : list LedgerEntryRecord) :
  (∀ e1 e2, e1 ∈ l → e2 ∈ l → Q e1 → Q e2 → e1 = e2) → e ∈ l → Q e →
  head (filter Q l) = Some e.
Proof.
  intros Huniq He HQ. destruct (head (filter Q l)) as [e'|] eqn:E.
  - apply head_filter_Some in E as [HQ' He']. f_equal. by apply Huniq.
  - by destruct (proj1 (head_filter_None Q l) E e He).
Qed.

Lemma ids_unique e1 e2 :
  e1 ∈ tb_entries tb → e2 ∈ tb_entries tb → le_entry_id e1 = le_entry_id e2 → e1 = e2.
Proof.
  intros H1 H2. apply (shape_unique _ pg_shape (le_entry_type e1) (le_entry_type e2));
    by rewrite chain_pg, elem_of_pg_chain.
Qed.

Lemma select_by_id id :
  head (filter (λ e, bool_decide (le_entry_id e = id) = true) (tb_entries tb))
  = spec_find (pg_ledger tb) id.
Proof.
  destruct (spec_find (pg_ledger tb) id) as [e|] eqn:E.
  - apply spec_find_Some in E as [He Hid]; [|apply pg_shape].
    rewrite chain_pg in He. apply elem_of_pg_chain in He as [He _].
    apply head_filter_unique; [|done|by apply bool_decide_eq_true].
    intros e1 e2 H1 H2 I1%bool_decide_eq_true I2%bool_decide_eq_true.
    apply ids_unique; congruence.
  - rewrite spec_find_None in E. apply head_filter_None. intros e He Hid%bool_decide_eq_true.
    apply (E (le_entry_type e) e); [|done]. by rewrite chain_pg, elem_of_pg_chain.
Qed.

Definition has_key (t key : string) e : bool :=
  String.eqb (le_entry_type e) t && bool_decide (le_idempotency_key e = Some key).

Lemma has_key_spec t key e :
  has_key t key e = true ↔ le_entry_type e = t ∧ le_idempotency_key e = Some key.
Proof. unfold has_key. by rewrite andb_true_iff, String.eqb_eq, bool_decide_eq_true. Qed.

Lemma has_key_unique t key e1 e2 :
  e1 ∈ tb_entries tb → e2 ∈ tb_entries tb → has_key t key e1 = true → has_key t key e2 = true →
  e1 = e2.
Proof.
  intros H1 H2 [T1 K1]%has_key_spec [T2 K2]%has_key_spec.
  apply (pg_keys_unique t _ _ key); rewrite ?chain_pg, ?elem_of_pg_chain; done.
Qed.

Lemma select_by_key t key :
  head (filter (λ e, has_key t key e = true) (tb_entries tb))
  = spec_idempotent (pg_ledger tb) t key.
Proof.
  destruct (spec_idempotent (pg_ledger tb) t key) as [e|] eqn:E.
  - apply spec_idempotent_Some in E as [He Hk]. rewrite chain_pg in He.
    apply elem_of_pg_chain in He as [He Ht].
    apply head_filter_unique; [|done|by apply has_key_spec].
    intros e1 e2. apply has_key_unique.
  - rewrite spec_idempotent_None in E. apply head_filter_None.
    intros e He [Ht Hk]%has_key_spec. apply (E e); [|done].
    by rewrite chain_pg, elem_of_pg_chain.
Qed.
End Ok.

(** ** The server answers *)

Implicit Types (db : PostgresLedgerRepository).

Lemma next_fault_healthy db : pg_faults db = [] → next_fault db = (Answered, db).
Proof. intros H. unfold next_fault. by rewrite H. Qed.

Lemma pg_read_healthy {A} (query : PgTables → result A RepositoryError) db :
  pg_faults db = [] → pg_read query db = (query (pg_tables db), db).
Proof. intros H. unfold pg_read. by rewrite next_fault_healthy. Qed.

Lemma pg_try_read {A B} (query : PgTables → result A RepositoryError)
    (k : A → Pg (result B RepositoryError)) a db :
  pg_faults db = [] → query (pg_tables db) = Ok a → pg_try (pg_read query) k db = k a db.
Proof. intros H Hq. unfold pg_try. by rewrite pg_read_healthy, Hq. Qed.

Lemma pool_get_healthy {B} (k : unit → Pg (result B RepositoryError)) db :
  pg_faults db = [] → pg_try pool_get k db = k tt db.
Proof. intros H. by apply pg_try_read. Qed.

Lemma pg_select_healthy {A} texts (query : PgTables → result A RepositoryError) db :
  pg_faults db = [] → pg_select texts query db = (asked (forallb sql_text texts) (query (pg_tables db)), db).
Proof. intros H. unfold pg_select. by rewrite pg_read_healthy. Qed.

Lemma select_entry_healthy texts keep db :
  pg_faults db = [] → tables_ok (pg_tables db) →
  (∀ e1 e2, e1 ∈ tb_entries (pg_tables db) → e2 ∈ tb_entries (pg_tables db) →
     keep e1 = true → keep e2 = true → e1 = e2) →
  select_entry texts keep db
  = (asked (forallb sql_text texts) (Ok (head (filter (λ e, keep e = true) (tb_entries (pg_tables db))))), db).
Proof.
  intros H Htb Hu. unfold select_entry. rewrite pool_get_healthy, pg_select_healthy by done.
  by rewrite (select_unique _ Htb).
Qed.

#[global] Instance postgres_reader : ChainReaderLaws PostgresLedgerRepository.
Proof.
  split.
  - intros db [_ Htb]. by apply pg_shape.
  - intros db id [H Htb]. simpl. unfold pg_get_entry, pg_try.
    rewrite select_entry_healthy; [|done..|].
    + by rewrite select_by_id.
    + intros e1 e2 H1 H2 I1%bool_decide_eq_true I2%bool_decide_eq_true.
      apply (ids_unique _ Htb); congruence.
  - intros db t after limit [H Htb] Hlim. simpl. unfold pg_get_entries_by_type_paged.
    rewrite pool_get_healthy, pg_select_healthy by done. unfold sql_limit. simpl. rewrite andb_true_r.
    rewrite (proj2 (Z.ltb_ge _ _)) by lia. unfold spec_paged. rewrite chain_pg.
    by rewrite (sort_of_type _ Htb (λ e, after < le_chain_position e) t) by apply pg_scan_perm.
  - intros db t e [_ Htb]. simpl. rewrite chain_pg. intros [He <-]%elem_of_pg_chain.
    by apply (to_types _ Htb).
Qed.

(** ** Inserting a row *)

Lemma of_type_snoc tb row outbox t :
  of_type t {| tb_entries := tb_entries tb ++ [row]; tb_outbox := outbox |}
  = of_type t tb ++ (if decide (le_entry_type row = t) then [row] else []).
Proof. unfold of_type. simpl. rewrite filter_app, filter_cons. by case_decide. Qed.

Lemma entry_violation_None row rows :
  (∀ e, e ∈ rows → le_entry_id e ≠ le_entry_id row) →
  (∀ e, e ∈ rows → same_position row e = false) →
  (∀ e, e ∈ rows → same_key row e = false) → entry_violation row rows = None.
Proof.
  intros Hid Hpos Hkey. unfold entry_violation.
  rewrite !existsb_none; [done|done|done|]. intros e He. apply bool_decide_eq_false. by apply Hid.
Qed.
End Chains.

(** ** Writing *)

Section Write.
Context {P : Platform} {PL : PlatformLaws P} {G : PgPlatform} {GL : PgLaws G}.
Implicit Types (tb : PgTables) (e : LedgerEntryRecord) (input : EntryWriteInput).

Lemma entry_columns_fit id position hash input :
  text_fits input = true → varchar 64 hash = Some hash →
  varchar 64 (ew_previous_hash input) = Some (ew_previous_hash input) →
  entry_columns (entry_of_write id position hash input)
  = Some (entry_of_write id position hash (retime (pg_timestamp (ew_written_ts input)) input)).
Proof.
  unfold text_fits, fits, fits_opt. rewrite !andb_true_iff, !bool_decide_eq_true.
  intros Hfit Hhash Hprev. destruct_and!. unfold entry_columns. simpl.
  repeat match goal with H : _ = Some _ |- _ => rewrite H; clear H; simpl end.
  done.
Qed.

Lemma payload_accepted event_id entry_id hash input :
  text_fits input = true → has_nul (as_bytes hash) = false →
  ∃ v, json_from_str (ledger_written_payload event_id entry_id (ew_entry_type input)
         (ew_agent_id input) (ew_source_id input) hash ENTRY_HASH_VERSION
         (ew_correlation_id input) (timestamp_millis (ew_written_ts input))) = Some v
       ∧ is_Some (jsonb_text v).
Proof.
  unfold text_fits, fits, fits_opt. rewrite !andb_true_iff, !bool_decide_eq_true.
  intros Hfit Hhash. destruct_and!. apply json_from_to_string. simpl.
  assert (∀ n s, varchar n s = Some s → has_nul (as_bytes s) = false) as Hv
    by (by intros n s [? _]%varchar_prefix).
  rewrite !(graphic_no_nul (as_bytes (uuid_to_string _))) by apply uuid_to_string_graphic.
  rewrite Hhash, !(Hv 255%nat) by done.
  destruct (ew_correlation_id input) as [c|]; [|done]. simpl.
  rewrite (Hv 255%nat); [done|]. unfold varchar_opt in *.
  by destruct (varchar 255 c) as [?|] eqn:E; simplify_eq/=.
Qed.

Section Insert.
Context (tb : PgTables) (Htb : tables_wf tb) (input : EntryWriteInput) (n : nat).
Context (Hfresh : rows_fresh n tb).
Let t := ew_entry_type input.
Let L := pg_ledger tb.
Context (Hlen : Z.of_nat (length (chain L t)) < i64_max).
Let row := next_entry L (stored_write PostgresLedgerRepository input) (uuid_v4 n).
Context (Htext : sql_text t = true).
Context (Hkey : ∀ key, ew_idempotency_key input = Some key → spec_idempotent L t key = None).

Lemma row_position_new e : e ∈ tb_entries tb → le_entry_type e = t →
  le_chain_position e < le_chain_position row.
Proof.
  intros He Ht. assert (e ∈ chain L t) as Hin by (unfold L; by rewrite chain_pg, elem_of_pg_chain).
  apply list_elem_of_lookup in Hin as [i Hi]. rewrite (tw_dense _ Htb t i e Hi).
  apply lookup_lt_Some in Hi. simpl. fold L t. lia.
Qed.

Lemma row_position_clash e : e ∈ tb_entries tb → same_position row e = false.
Proof.
  intros He. apply not_true_iff_false. unfold same_position.
  rewrite andb_true_iff, String.eqb_eq, Z.eqb_eq. intros [Ht Hp].
  pose proof (row_position_new e He (eq_sym Ht)). lia.
Qed.

Lemma row_key_clash e : e ∈ tb_entries tb → same_key row e = false.
Proof.
  intros He. apply not_true_iff_false. unfold same_key.
  rewrite andb_true_iff, String.eqb_eq. intros [Ht Hk].
  destruct (le_idempotency_key row) as [k|] eqn:E; [|done].
  destruct (le_idempotency_key e) as [k'|] eqn:E'; [|done]. apply String.eqb_eq in Hk as ->.
  pose proof (Hkey k' E) as Hn. rewrite spec_idempotent_None in Hn.
  apply (Hn e); [|done]. unfold L. by rewrite chain_pg, elem_of_pg_chain.
Qed.

Lemma same_key_sym e1 e2 : same_key e1 e2 = same_key e2 e1.
Proof.
  unfold same_key. rewrite (String.eqb_sym (le_entry_type e1)). f_equal.
  destruct (le_idempotency_key e1), (le_idempotency_key e2); try done. apply String.eqb_sym.
Qed.

Lemma same_position_sym e1 e2 : same_position e1 e2 = same_position e2 e1.
Proof. unfold same_position. by rewrite String.eqb_sym, Z.eqb_sym. Qed.

Context (outbox : list OutboxRow).
Let tb' : PgTables := {| tb_entries := tb_entries tb ++ [row]; tb_outbox := outbox |}.

Lemma insert_ok : tables_ok tb'.
Proof.
  pose proof (tw_ok _ Htb) as Hok. split; simpl.
  - rewrite fmap_app. apply NoDup_app. split; [apply Hok|]. split; [|apply NoDup_singleton].
    intros id (e & -> & He)%list_elem_of_fmap Hin%list_elem_of_singleton.
    by apply (proj1 Hfresh e).
  - intros e1 e2. rewrite !elem_of_app, !list_elem_of_singleton.
    intros [H1| ->] [H2| ->] Hs; [by apply (to_positions _ Hok)|..|done].
    + rewrite same_position_sym, row_position_clash in Hs; done.
    + by rewrite row_position_clash in Hs.
  - intros e1 e2. rewrite !elem_of_app, !list_elem_of_singleton.
    intros [H1| ->] [H2| ->] Hs; [by apply (to_keys _ Hok)|..|done].
    + rewrite same_key_sym, row_key_clash in Hs; done.
    + by rewrite row_key_clash in Hs.
  - intros e. rewrite elem_of_app, list_elem_of_singleton. intros [He| ->]; [by apply Hok|].
    simpl. fold L t. lia.
  - intros e. rewrite elem_of_app, list_elem_of_singleton.
    intros [He| ->]; [by apply (to_types _ Hok)|exact Htext].
Qed.

Lemma insert_chain t' :
  pg_chain tb' t' = if decide (t' = t) then pg_chain tb t' ++ [row] else pg_chain tb t'.
Proof.
  apply position_lt_unique; [apply pg_chain_sorted, insert_ok|..].
  - case_decide as Ht; [subst t'|apply pg_chain_sorted, Htb].
    apply StronglySorted_snoc; [apply pg_chain_sorted, Htb|]. apply Forall_forall.
    intros e [He Ht]%elem_of_pg_chain. by apply row_position_new.
  - unfold pg_chain at 1. unfold tb'. rewrite stable_sort_perm, of_type_snoc.
    change (le_entry_type row) with t. unfold pg_chain.
    repeat case_decide; subst; rewrite ?stable_sort_perm, ?app_nil_r; done.
Qed.

Lemma insert_ledger : pg_ledger tb' = ledger_append row L.
Proof.
  apply map_eq. intros t'. rewrite pg_ledger_lookup, insert_chain. unfold ledger_append.
  change (le_entry_type row) with t.
  case_decide as Ht; [subst t'; rewrite lookup_insert_eq|rewrite lookup_insert_ne by done].
  - unfold L. rewrite chain_pg. by destruct (pg_chain tb t).
  - unfold L. by rewrite pg_ledger_lookup.
Qed.

Lemma spec_find_fresh : spec_find L (uuid_v4 n) = None.
Proof.
  apply spec_find_None. intros t' e. unfold L. rewrite chain_pg. intros [He _]%elem_of_pg_chain.
  by apply (proj1 Hfresh).
Qed.

Lemma insert_wf : varchar 64 (le_entry_hash row) = Some (le_entry_hash row) → tables_wf tb'.
Proof.
  intros Hh. split; [apply insert_ok|..].
  - rewrite insert_ledger. apply append_dense, (tw_dense _ Htb).
  - simpl. intros e. rewrite elem_of_app, list_elem_of_singleton.
    intros [He| ->]; [by apply Htb|done].
Qed.
End Insert.

(** *** The method, while the server answers *)

Implicit Types (db : PostgresLedgerRepository).

Definition next_position (L : Ledger) input : Z :=
  Z.of_nat (length (chain L (ew_entry_type input))) + 1.

Lemma pg_next_position_healthy db input :
  pg_faults db = [] → tables_wf (pg_tables db) →
  let L := pg_ledger (pg_tables db) in
  Z.of_nat (length (chain L (ew_entry_type input))) < i64_max →
  pg_next_position input db
  = (asked (sql_text (ew_entry_type input))
       (if linked L input then Ok (next_position L input) else Err ChainIntegrityViolation), db).
Proof.
  intros H Htb L Hlen. unfold pg_next_position, linked, next_position.
  rewrite pool_get_healthy by done. do 2 erewrite (pg_try_read _ _ _ _ H) by reflexivity.
  unfold pg_try. rewrite pg_select_healthy by done. simpl. rewrite andb_true_r.
  destruct (sql_text _); [|done]. simpl. rewrite select_tip_last by apply Htb. unfold L in *. rewrite <- chain_pg.
  set (l := chain (pg_ledger (pg_tables db)) (ew_entry_type input)) in *.
  destruct (last l) as [e|] eqn:Hl.
  - destruct (String.eqb _ _); simpl; [|unfold pg_fail, pg_ret; by rewrite next_fault_healthy].
    rewrite last_lookup in Hl. pose proof (tw_dense _ Htb _ _ _ Hl) as ->.
    apply lookup_lt_Some in Hl. unfold pg_ret. do 2 f_equal.
    rewrite i64_add_small; [lia|]. unfold i64_ok, i64_min, i64_max in *. lia.
  - apply last_None in Hl as ->. destruct (is_empty _); simpl; [|done].
    unfold pg_fail, pg_ret. by rewrite next_fault_healthy.
Qed.

Lemma tx_execute_healthy statement db :
  pg_faults db = [] → tx_execute statement db = (statement, db).
Proof. intros H. unfold tx_execute. by rewrite next_fault_healthy. Qed.

Lemma tx_rollback_healthy db : pg_faults db = [] → (tx_rollback db).2 = db.
Proof. intros H. unfold tx_rollback. by rewrite next_fault_healthy. Qed.

Lemma pg_store_refused db input n position err :
  pg_faults db = [] →
  let hash := canonical_entry_hash (hash_input_of_write (uuid_v4 n) position input) in
  insert_entry (entry_of_write (uuid_v4 n) position hash input) (pg_tables db) = Err err →
  pg_store input position n db = (Err (insert_error err), db)
  ∨ pg_store input position n db = (Err Unavailable, db).
Proof.
  intros H hash Hins. unfold pg_store. fold hash.
  destruct (json_from_str _); [left|by right].
  rewrite tx_execute_healthy, Hins by done. by rewrite tx_rollback_healthy.
Qed.

(** The outbox after an accepted write. *)
Definition outbox_after (rows : list OutboxRow) input n (text : string) (now : Z)
    : list OutboxRow :=
  if ew_create_outbox input then
    rows ++ [{| or_outbox_id := uuid_v4 (n + 1); or_entry_id := uuid_v4 n;
                or_entry_type := ew_entry_type input; or_payload := text;
                or_status := "PENDING"; or_created_ts := now; or_last_attempt_ts := None;
                or_attempt_count := 0 |}]
  else rows.

(** The texts of a lookup that an acceptable request leads to. *)
Lemma text_fits_reads input :
  text_fits input = true →
  sql_text (ew_entry_type input) = true
  ∧ ∀ key, ew_idempotency_key input = Some key → sql_text key = true.
Proof.
  unfold text_fits, fits, fits_opt. rewrite !andb_true_iff, !bool_decide_eq_true. intros Hfit.
  destruct_and!. split; [by eapply (varchar_sql_text 255)|]. intros key Hk.
  rewrite Hk in *. simpl in *.
  destruct (varchar 255 key) as [s|] eqn:E; [by eapply varchar_sql_text|].
  exfalso. by simplify_eq/=.
Qed.

Section Accepted.
Context (db : PostgresLedgerRepository) (input : EntryWriteInput) (n : nat).
Context (H : pg_faults db = []) (Htb : tables_wf (pg_tables db)).
Context (Hfresh : rows_fresh n (pg_tables db)).
Let L := pg_ledger (pg_tables db).
Context (Hlen : Z.of_nat (length (chain L (ew_entry_type input))) < i64_max).
Context (Hacc : store_accepts (R := PostgresLedgerRepository) input).
Context (Hprev : varchar 64 (ew_previous_hash input) = Some (ew_previous_hash input)).
Let row := next_entry L (stored_write PostgresLedgerRepository input) (uuid_v4 n).
Let hash := canonical_entry_hash (hash_input_of_write (uuid_v4 n) (next_position L input) input).

Lemma row_hash : le_entry_hash row = hash.
Proof. apply (next_entry_retime L input (uuid_v4 n)). apply Hacc. Qed.

Lemma hash_fits : varchar 64 hash = Some hash.
Proof. apply sha256_hex_fits. Qed.

Lemma row_columns :
  entry_columns (entry_of_write (uuid_v4 n) (next_position L input) hash input) = Some row.
Proof.
  rewrite entry_columns_fit; [|apply Hacc|apply hash_fits|done].
  f_equal. rewrite <- row_hash. done.
Qed.

Lemma insert_entry_accepted :
  insert_entry (entry_of_write (uuid_v4 n) (next_position L input) hash input) (pg_tables db)
  = match entry_violation row (tb_entries (pg_tables db)) with
    | Some constraint => Err (UniqueViolation constraint)
    | None => Ok {| tb_entries := tb_entries (pg_tables db) ++ [row];
                    tb_outbox := tb_outbox (pg_tables db) |}
    end.
Proof. unfold insert_entry. by rewrite row_columns. Qed.

Lemma ids_free e : e ∈ tb_entries (pg_tables db) → le_entry_id e ≠ le_entry_id row.
Proof. apply (proj1 Hfresh). Qed.

(** A key in use: every other constraint holds, so the server names its index. *)
Lemma store_key_used key e :
  ew_idempotency_key input = Some key → spec_idempotent L (ew_entry_type input) key = Some e →
  pg_store input (next_position L input) n db = (Err IdempotencyConflict, db).
Proof.
  intros Hk He. unfold pg_store. cbv zeta. fold hash.
  destruct (payload_accepted (uuid_v4 (n + 2)) (uuid_v4 n) hash input) as (v & -> & _);
    [apply Hacc|by apply (varchar_prefix 64 hash hash), hash_fits|].
  rewrite tx_execute_healthy, insert_entry_accepted by done.
  unfold entry_violation.
  rewrite (existsb_none (λ e, bool_decide (le_entry_id e = _))).
  2: { intros e' He'. apply bool_decide_eq_false. by apply ids_free. }
  rewrite (existsb_none (same_position row)).
  2: { intros e'. by apply (row_position_clash _ Htb input n). }
  rewrite (proj2 (existsb_exists _ _)).
  { unfold pg_fail, pg_ret. by rewrite tx_rollback_healthy. }
  apply spec_idempotent_Some in He as [He Hke]. unfold L in He. rewrite chain_pg in He.
  apply elem_of_pg_chain in He as [He Ht].
  exists e. split; [by apply list_elem_of_In|]. unfold same_key. simpl.
  by rewrite Ht, Hk, Hke, !String.eqb_refl.
Qed.

Lemma store_succeeds :
  (∀ key, ew_idempotency_key input = Some key →
     spec_idempotent L (ew_entry_type input) key = None) →
  ∃ event db' text,
    pg_store input (next_position L input) n db
    = (Ok {| wr_entry := next_entry L input (uuid_v4 n); wr_outbox := event |}, db')
    ∧ pg_faults db' = []
    ∧ pg_tables db'
      = {| tb_entries := tb_entries (pg_tables db) ++ [row];
           tb_outbox := outbox_after (tb_outbox (pg_tables db)) input n text
                          (pg_now (pg_clock db)) |}
    ∧ (is_Some event ↔ ew_create_outbox input = true).
Proof.
  intros Hk. unfold pg_store. cbv zeta. fold hash.
  destruct (payload_accepted (uuid_v4 (n + 2)) (uuid_v4 n) hash input) as (v & -> & text & Htext);
    [apply Hacc|by apply (varchar_prefix 64 hash hash), hash_fits|].
  rewrite tx_execute_healthy, insert_entry_accepted by done.
  rewrite entry_violation_None.
  2: apply ids_free.
  2: intros e; by apply (row_position_clash _ Htb input n).
  2: intros e; by apply (row_key_clash _ input n).
  unfold outbox_after. destruct (ew_create_outbox input) eqn:Ho.
  - rewrite tx_execute_healthy by done. unfold insert_outbox.
    assert (varchar 255 (ew_entry_type input) = Some (ew_entry_type input)) as ->.
    { destruct Hacc as [Hfit _]. unfold text_fits, fits in Hfit.
      rewrite !andb_true_iff, !bool_decide_eq_true in Hfit. tauto. }
    rewrite Htext. cbn [tb_outbox].
    rewrite existsb_none.
    2: { intros r Hr. apply bool_decide_eq_false. by apply (proj2 Hfresh). }
    eexists _, _, text. unfold pg_try, tx_commit, pg_ret.
    rewrite next_fault_healthy by done. repeat split; done.
  - eexists _, _, "". unfold pg_try, tx_commit, pg_ret. rewrite next_fault_healthy by done.
    repeat split; try done; by intros [? [=]].
Qed.
End Accepted.

(** The write while the server answers, branch by branch. *)
Lemma pg_write_linked db input n :
  pg_faults db = [] → tables_wf (pg_tables db) →
  let L := pg_ledger (pg_tables db) in
  Z.of_nat (length (chain L (ew_entry_type input))) < i64_max →
  pg_write_entry_with_outbox input n db
  = if negb (sql_text (ew_entry_type input)) then (Err Unavailable, n, db)
    else if linked L input then
      let '(res, db') := pg_store input (next_position L input) n db in (res, (n + 3)%nat, db')
    else (Err ChainIntegrityViolation, n, db).
Proof.
  intros H Htb L Hlen. unfold pg_write_entry_with_outbox.
  rewrite pg_next_position_healthy by done. fold L. destruct (sql_text _); [|done]. simpl.
  by destruct (linked L input).
Qed.

Lemma spec_write_linked_eq (L : Ledger) input id :
  spec_write L input id
  = match ew_idempotency_key input ≫= spec_idempotent L (ew_entry_type input) with
    | Some _ => Err IdempotencyConflict
    | None => if linked L input then Ok (next_entry L input id) else Err ChainIntegrityViolation
    end.
Proof.
  unfold spec_write.
  destruct (ew_idempotency_key input) as [key|]; simpl; [|done].
  by destruct (spec_idempotent L (ew_entry_type input) key).
Qed.

Lemma rows_fresh_later (tb tb' : PgTables) n m row input text now :
  Inj (=) (=) (uuid_v4 : nat → Uuid) → (n + 3 ≤ m)%nat →
  tb_entries tb' = tb_entries tb ++ [row] → le_entry_id row = uuid_v4 n →
  tb_outbox tb' = outbox_after (tb_outbox tb) input n text now →
  rows_fresh m tb → rows_fresh m tb'.
Proof.
  intros Hinj Hm He Hid Ho [F1 F2]. split.
  - intros e. rewrite He, elem_of_app, list_elem_of_singleton.
    intros [?| ->]; [by apply F1|]. rewrite Hid. intros Heq%Hinj. lia.
  - intros r. rewrite Ho. unfold outbox_after. case_match; [|apply F2].
    rewrite elem_of_app, list_elem_of_singleton.
    intros [?| ->]; [by apply F2|]. simpl. intros Heq%Hinj. lia.
Qed.

(** A previous hash that is linked to the tip, or a digest, fits its column. *)
Lemma linked_fits db input :
  tables_wf (pg_tables db) → linked (pg_ledger (pg_tables db)) input = true →
  (chain (pg_ledger (pg_tables db)) (ew_entry_type input) = [] →
     ∃ data, ew_previous_hash input = sha256_hex data) →
  varchar 64 (ew_previous_hash input) = Some (ew_previous_hash input).
Proof.
  intros Htb Hl Hd. unfold linked in Hl. destruct (last _) as [e|] eqn:Hlast.
  - apply String.eqb_eq in Hl as <-. apply (tw_hashes _ Htb).
    rewrite chain_pg in Hlast. apply last_Some_elem_of, elem_of_pg_chain in Hlast. apply Hlast.
  - apply last_None in Hlast. destruct (Hd Hlast) as [data ->]. apply sha256_hex_fits.
Qed.

Lemma pg_by_hash_law db t h :
  pg_faults db = [] → tables_ok (pg_tables db) →
  let l := chain (pg_ledger (pg_tables db)) t in
  (∃ e, pg_get_entry_by_hash t h db = (Ok e, db) ∧ e ∈ l ∧ le_entry_hash e = h)
  ∨ (pg_get_entry_by_hash t h db = (Err NotFound, db) ∧ ∀ e, e ∈ l → le_entry_hash e ≠ h)
  ∨ (∃ x e1 e2, pg_get_entry_by_hash t h db = (Err x, db) ∧ x ≠ NotFound
     ∧ e1 ∈ l ∧ e2 ∈ l ∧ e1 ≠ e2 ∧ le_entry_hash e1 = h ∧ le_entry_hash e2 = h)
  ∨ (pg_get_entry_by_hash t h db = (Err Unavailable, db) ∧ sql_text t && sql_text h = false).
Proof.
  intros H Htb l. destruct (sql_text t && sql_text h) eqn:Ht.
  2: { do 3 right. split; [|done]. unfold pg_get_entry_by_hash, select_entry. unfold pg_try at 1.
       rewrite pool_get_healthy, pg_select_healthy by done. simpl. by rewrite andb_true_r, Ht. }
  set (keep e := String.eqb (le_entry_type e) t && String.eqb (le_entry_hash e) h).
  assert (∀ e, e ∈ pg_scan (filter (λ e, keep e = true) (tb_entries (pg_tables db))) ↔
            e ∈ l ∧ le_entry_hash e = h) as Hin.
  { intros e. rewrite pg_scan_perm, list_elem_of_filter. unfold l, keep.
    rewrite chain_pg, elem_of_pg_chain, andb_true_iff, !String.eqb_eq. tauto. }
  assert (NoDup (pg_scan (filter (λ e, keep e = true) (tb_entries (pg_tables db))))) as Hnd
    by (rewrite pg_scan_perm; apply NoDup_filter, entries_nodup, Htb).
  assert (pg_get_entry_by_hash t h db
    = (match query_opt (pg_scan (filter (λ e, keep e = true) (tb_entries (pg_tables db)))) with
       | Ok row => ok_or row NotFound
       | Err x => Err x
       end, db)) as ->.
  { unfold pg_get_entry_by_hash, select_entry. unfold pg_try at 1.
    rewrite pool_get_healthy, pg_select_healthy by done. fold keep. simpl. rewrite andb_true_r, Ht.
    simpl. by destruct (query_opt _). }
  destruct (pg_scan _) as [|e1 [|e2 rows]]; simpl.
  - right. left. split; [done|]. intros e He Hh. apply (not_elem_of_nil e). by apply Hin.
  - left. exists e1. split; [done|]. apply Hin. by left.
  - right. right. left. exists Unavailable, e1, e2. split; [done|]. split; [done|].
    destruct (proj1 (Hin e1)) as [H1 E1]; [by left|].
    destruct (proj1 (Hin e2)) as [H2 E2]; [by right; left|].
    apply NoDup_cons in Hnd as [Hni _]. repeat split; try done.
    intros ->. destruct Hni. by left.
Qed.

#[global] Instance postgres_laws : LedgerStoreLaws PostgresLedgerRepository.
Proof.
  split.
  - apply postgres_reader.
  - intros db [H [Hok _ _]]. by split.
  - intros db [_ [_ HD _]]. exact HD.
  - intros db [_ Htb]. apply pg_keys_unique, Htb.
  - intros db t [H Htb]. simpl. unfold pg_get_chain_tip. rewrite pool_get_healthy by done.
    unfold pg_try at 1. rewrite pg_select_healthy by done. simpl. rewrite andb_true_r.
    destruct (sql_text t); [|done]. simpl. rewrite select_tip_last by apply Htb.
    unfold spec_tip, found, pg_ret, pg_try. rewrite chain_pg. by destruct (last _).
  - intros db t [H Htb]. simpl. unfold pg_get_chain_tip. rewrite pool_get_healthy by done.
    pose proof (pg_select_healthy [t] (λ tables, Ok (select_tip t tables)) db H) as Hsel.
    simpl in Hsel. rewrite andb_true_r, select_tip_last in Hsel by done.
    unfold found, pg_ret, pg_try. rewrite Hsel, chain_pg.
    destruct (last _) as [e|] eqn:El; [|by destruct (sql_text t)].
    apply last_Some_elem_of, elem_of_pg_chain in El as [He <-].
    rewrite (to_types _ Htb) by done. simpl. eauto.
  - intros db t key [H Htb]. simpl. unfold pg_find_idempotent.
    change (select_entry [t; key] (has_key t key) db
      = (asked (sql_text t && sql_text key) (Ok (spec_idempotent (pg_ledger (pg_tables db)) t key)), db)).
    rewrite (select_entry_healthy _ (has_key t key)); [|done|done|].
    + simpl. by rewrite select_by_key, andb_true_r.
    + intros e1 e2. by apply has_key_unique.
  - intros db t h [H Htb]. apply pg_by_hash_law; done.
  - intros db [H Htb]. simpl. unfold pg_get_distinct_entry_types.
    rewrite pool_get_healthy, pg_read_healthy by done. eexists. split; [done|]. split.
    + rewrite stable_sort_perm. apply NoDup_remove_dups.
    + intros t. rewrite stable_sort_perm, elem_of_remove_dups, chain_pg, pg_chain_nil.
      destruct (decide (t ∈ le_entry_type <$> tb_entries (pg_tables db))); tauto.
  - intros db n [_ Htb] Hfresh. by apply spec_find_fresh.
  - intros data. by apply (varchar_sql_text 64 _ (sha256_hex data)), sha256_hex_fits.
  - intros input [Hfit _]. by apply text_fits_reads.
  - intros input [_ ?]. done.
  - intros db input n [H Htb] Hfresh Hlen Hacc Hd. cbn -[spec_write] in *.
    destruct (text_fits_reads input (proj1 Hacc)) as [Hreads _].
    rewrite pg_write_linked by done. rewrite Hreads, spec_write_linked_eq. cbn [negb].
    destruct (ew_idempotency_key input ≫= spec_idempotent (pg_ledger (pg_tables db)) (ew_entry_type input)) as [e|] eqn:Hk.
    { destruct (linked (pg_ledger (pg_tables db)) input) eqn:Hl; [|by eexists _, _; repeat split].
      apply bind_Some in Hk as (key & Hkey & He).
      rewrite (store_key_used db input n H Htb Hfresh Hacc (linked_fits db input Htb Hl Hd)
                 key e Hkey He).
      eexists _, _. split; [done|]. split; [lia|done]. }
    destruct (linked (pg_ledger (pg_tables db)) input) eqn:Hl; [|by eexists _, _; repeat split].
    assert (∀ key, ew_idempotency_key input = Some key →
              spec_idempotent (pg_ledger (pg_tables db)) (ew_entry_type input) key = None) as Hno
      by (intros key Hkey; by rewrite Hkey in Hk).
    destruct (store_succeeds db input n H Htb Hfresh Hacc (linked_fits db input Htb Hl Hd) Hno)
      as (event & db' & text & -> & H' & Ht' & _).
    eexists _, _, _. split; [done|]. split; [done|]. rewrite Ht'.
    split; [by apply insert_ledger|]. split.
    + split; [done|]. apply insert_wf; try done. by rewrite row_hash; [apply hash_fits|..].
    + split; [lia|]. intros Hinj m Hm.
      cbn [store_fresh postgres_store]. rewrite ?Ht'.
      eapply (rows_fresh_later (pg_tables db) _ n m _ input text _ Hinj Hm); reflexivity.
Qed.
End Write.

(** * Properties *)

Section Properties.
Context {P : Platform} {PL : PlatformLaws P} {G : PgPlatform} {GL : PgLaws G}.
Implicit Types (db : PostgresLedgerRepository) (input : EntryWriteInput).

(** C8: the SQL write refines the abstract one while the server answers, on a chain
    with room for an entry and with fresh identifiers.  A request whose entry type
    has a NUL character, which the server takes in no statement, is Unavailable;
    one that is not linked to the tip is a chain violation; one whose texts the
    columns refuse is Unavailable; and for a request the columns store as it is
    sent ([store_accepts]: every text, and the previous hash, fits its column
    without being cut) a key in use is an idempotency conflict, and otherwise the
    specified entry is appended (its time at the precision of the column), the
    constraints are kept, and one pending event is stored for the entry exactly
    when the caller asked for it.  A refused request changes nothing.
    ([stored_text_verifies_or_cut] says what becomes of a text a column cuts.) *)
Theorem postgres_write_refines db input (n : nat) :
  pg_faults db = [] → tables_wf (pg_tables db) → rows_fresh n (pg_tables db) →
  let L := pg_ledger (pg_tables db) in
  let e := next_entry L input (uuid_v4 n) in
  let row := next_entry L (retime (pg_timestamp (ew_written_ts input)) input) (uuid_v4 n) in
  Z.of_nat (length (chain L (ew_entry_type input))) < i64_max →
  (sql_text (ew_entry_type input) = false →
     pg_write_entry_with_outbox input n db = (Err Unavailable, n, db))
  ∧ (sql_text (ew_entry_type input) = true → linked L input = false →
     pg_write_entry_with_outbox input n db = (Err ChainIntegrityViolation, n, db))
  ∧ (sql_text (ew_entry_type input) = true → linked L input = true → entry_columns e = None →
     pg_write_entry_with_outbox input n db = (Err Unavailable, (n + 3)%nat, db))
  ∧ (linked L input = true → fits 64 (ew_previous_hash input) = true →
     store_accepts (R := PostgresLedgerRepository) input →
     match ew_idempotency_key input ≫= spec_idempotent L (ew_entry_type input) with
     | Some _ =>
         pg_write_entry_with_outbox input n db = (Err IdempotencyConflict, (n + 3)%nat, db)
     | None => ∃ event db' text,
         pg_write_entry_with_outbox input n db
         = (Ok {| wr_entry := e; wr_outbox := event |}, (n + 3)%nat, db')
         ∧ pg_tables db' = {| tb_entries := tb_entries (pg_tables db) ++ [row];
                              tb_outbox := outbox_after (tb_outbox (pg_tables db)) input n text
                                             (pg_now (pg_clock db)) |}
         ∧ pg_ledger (pg_tables db') = ledger_append row L ∧ tables_wf (pg_tables db')
         ∧ (is_Some event ↔ ew_create_outbox input = true)
     end).
Proof.
  intros H Htb Hfresh L e row Hlen. rewrite pg_write_linked by done. subst L e row. cbv zeta.
  split; [by intros ->|]. split; [by intros -> ->|]. split.
  - intros -> -> Hcols.
    destruct (pg_store_refused db input n (next_position (pg_ledger (pg_tables db)) input)
                OtherDbError H) as [-> | ->];
      [|done..].
    unfold insert_entry. change (entry_of_write _ _ _ input)
      with (next_entry (pg_ledger (pg_tables db)) input (uuid_v4 n)). by rewrite Hcols.
  - intros Hl Hfit Hacc. destruct (text_fits_reads input (proj1 Hacc)) as [Hreads _].
    rewrite Hl, Hreads. cbn [negb]. apply bool_decide_eq_true in Hfit.
    destruct (ew_idempotency_key input ≫= spec_idempotent (pg_ledger (pg_tables db)) (ew_entry_type input)) as [e0|] eqn:Hk.
    + apply bind_Some in Hk as (key & Hkey & He).
      by rewrite (store_key_used db input n H Htb Hfresh Hacc Hfit key e0 Hkey He).
    + assert (∀ key, ew_idempotency_key input = Some key →
                spec_idempotent (pg_ledger (pg_tables db)) (ew_entry_type input) key = None) as Hno
        by (intros key Hkey; by rewrite Hkey in Hk).
      destruct (store_succeeds db input n H Htb Hfresh Hacc Hfit Hno)
        as (event & db' & text & -> & H' & Ht' & Hev).
      exists event, db', text. split; [done|]. rewrite Ht'. split; [done|].
      split; [by apply insert_ledger|]. split; [|done].
      apply insert_wf; try done. by rewrite row_hash; [apply hash_fits|..].
Qed.

(** The entry a write makes for a position. *)
Definition entry_at input (n : nat) (position : Z) : LedgerEntryRecord :=
  entry_of_write (uuid_v4 n) position
    (canonical_entry_hash (hash_input_of_write (uuid_v4 n) position input)) input.

(** The tables after a write whose transaction was committed. *)
Definition committed (tb tb' : PgTables) input (e : LedgerEntryRecord) (n : nat) : Prop :=
  ∃ tb1, insert_entry e tb = Ok tb1
    ∧ if ew_create_outbox input then
        ∃ payload now, insert_outbox (uuid_v4 (n + 1)) (le_entry_id e) (ew_entry_type input)
                         payload now tb1 = Ok tb'
      else tb' = tb1.

(** [db'] has the tables of [db], and no fault [db] did not have ahead. *)
Definition untouched db db' : Prop :=
  pg_tables db' = pg_tables db ∧ ∀ f, f ∈ pg_faults db' → f ∈ pg_faults db.

Lemma untouched_trans db1 db2 db3 : untouched db1 db2 → untouched db2 db3 → untouched db1 db3.
Proof. intros [T1 F1] [T2 F2]. split; [congruence|auto]. Qed.

Lemma next_fault_untouched db f db' :
  next_fault db = (f, db') → untouched db db' ∧ (f = Answered ∨ f ∈ pg_faults db).
Proof.
  unfold next_fault. destruct (pg_faults db) as [|f0 faults] eqn:E; intros [= <- <-].
  - split; [by split|by left].
  - split; [|right; left]. split; [done|]. intros f Hf. rewrite E. by right.
Qed.

Definition reads {A} (m : Pg A) : Prop := ∀ db, untouched db (m db).2.

Lemma reads_pg_read {A} (query : PgTables → result A RepositoryError) : reads (pg_read query).
Proof.
  intros db. unfold pg_read. destruct (next_fault db) as [f db'] eqn:E.
  apply next_fault_untouched in E as [? _]. by destruct f.
Qed.

Lemma reads_pg_select {A} texts (query : PgTables → result A RepositoryError) :
  reads (pg_select texts query).
Proof. apply reads_pg_read. Qed.

Lemma reads_ret {A} (a : A) : reads (pg_ret a).
Proof. by intros db. Qed.

Lemma reads_fail_rollback {A} e : reads (λ db, pg_fail (A := A) e (tx_rollback db).2).
Proof.
  intros db. simpl. destruct (next_fault db) as [f db'] eqn:E.
  by apply next_fault_untouched in E as [? _].
Qed.

Lemma reads_try {A B E} (m : Pg (result A E)) (k : A → Pg (result B E)) :
  reads m → (∀ a, reads (k a)) → reads (pg_try m k).
Proof.
  intros Hm Hk db. unfold pg_try. specialize (Hm db). destruct (m db) as [[a|e] db']; [|done].
  eapply untouched_trans; [exact Hm|apply Hk].
Qed.

Create HintDb reads.
#[local] Hint Resolve reads_pg_read reads_pg_select reads_ret reads_fail_rollback reads_try : reads.

Lemma reads_next_position input : reads (pg_next_position input).
Proof.
  unfold pg_next_position, pool_get. do 4 (apply reads_try; [auto with reads|intros]).
  case_match; case_match; auto with reads.
Qed.

Lemma tx_execute_cases statement db r db' :
  tx_execute statement db = (r, db') →
  untouched db db' ∧ (statement = r ∨ r = Err OtherDbError).
Proof.
  unfold tx_execute. destruct (next_fault db) as [f db1] eqn:E.
  apply next_fault_untouched in E as [U _]. destruct f; intros [= <- <-]; auto.
Qed.

(** What a write reports about the tables [tb] it started from. *)
Definition write_outcome db input n (e : LedgerEntryRecord)
    (out : result WriteResult RepositoryError * PostgresLedgerRepository) : Prop :=
  match out.1 with
  | Ok out' => wr_entry out' = e ∧ committed (pg_tables db) (pg_tables out.2) input e n
              ∧ (is_Some (wr_outbox out') ↔ ew_create_outbox input = true)
  | Err Unavailable =>
      pg_tables out.2 = pg_tables db
      ∨ (AnswerLost ∈ pg_faults db ∧ committed (pg_tables db) (pg_tables out.2) input e n)
  | Err _ => pg_tables out.2 = pg_tables db
  end.

Lemma refused_outcome db db' input n e x :
  untouched db db' → write_outcome db input n e (pg_fail x (tx_rollback db').2).
Proof.
  intros U. destruct (untouched_trans _ _ _ U (proj1 (next_fault_untouched db' _ _
    (surjective_pairing (next_fault db'))))) as [Ht _].
  unfold write_outcome, pg_fail, pg_ret, tx_rollback. simpl. rewrite Ht. destruct x; auto.
Qed.

Lemma commit_outcome db db' input n e event tb' :
  untouched db db' →
  committed (pg_tables db) tb' input e n → (is_Some event ↔ ew_create_outbox input = true) →
  write_outcome db input n e
    ((sql? _ := tx_commit tb' in pg_ret (Ok {| wr_entry := e; wr_outbox := event |})) db').
Proof.
  intros [Ht Hf] Hc Hev. unfold write_outcome, pg_try, tx_commit, pg_ret.
  destruct (next_fault db') as [f db''] eqn:E.
  apply next_fault_untouched in E as [[Ht' _] Hl].
  destruct f; simpl; [done|left; congruence|right].
  split; [destruct Hl; auto; done|done].
Qed.

Lemma pg_store_atomic input position n db :
  write_outcome db input n (entry_at input n position) (pg_store input position n db).
Proof.
  unfold pg_store. cbv zeta. fold (entry_at input n position).
  destruct (json_from_str _) as [v|]; [|by left].
  destruct (tx_execute _ db) as [ins db1] eqn:Hins.
  apply tx_execute_cases in Hins as [U1 Hins].
  destruct ins as [tb1|err]; [|by apply refused_outcome].
  destruct Hins as [Hins|]; [|done].
  destruct (ew_create_outbox input) eqn:Ho.
  - destruct (tx_execute _ (tick_now db1)) as [ev db2] eqn:Hev.
    apply tx_execute_cases in Hev as [U2 Hev].
    assert (untouched db db2) as U by (eapply untouched_trans; [exact U1|exact U2]).
    destruct ev as [tb2|err]; [|by apply refused_outcome].
    destruct Hev as [Hev|]; [|done].
    apply commit_outcome; [done| |by split].
    exists tb1. split; [done|]. rewrite Ho. by eexists _, _.
  - apply commit_outcome; [done| |by rewrite Ho; split; [intros [? ?]|]].
    exists tb1. by rewrite Ho.
Qed.

Lemma pg_write_outcome db input (n : nat) :
  let '(res, n', db') := pg_write_entry_with_outbox input n db in
  match res with
  | Ok out => committed (pg_tables db) (pg_tables db') input (wr_entry out) n
              ∧ (∃ position, wr_entry out = entry_at input n position)
              ∧ (is_Some (wr_outbox out) ↔ ew_create_outbox input = true)
  | Err Unavailable =>
      pg_tables db' = pg_tables db
      ∨ (AnswerLost ∈ pg_faults db
         ∧ ∃ position, committed (pg_tables db) (pg_tables db') input (entry_at input n position) n)
  | Err _ => pg_tables db' = pg_tables db
  end.
Proof.
  unfold pg_write_entry_with_outbox. pose proof (reads_next_position input db) as Hread.
  destruct (pg_next_position input db) as [[position|e] db1]; [|destruct e, Hread as [Ht _]; simpl in Ht; auto].
  simpl in Hread. pose proof (pg_store_atomic input position n db1) as Hs.
  destruct (pg_store input position n db1) as [res db2].
  destruct Hread as [Ht Hf]. unfold write_outcome in Hs. simpl in Hs. rewrite Ht in Hs.
  destruct res as [out|e]; [destruct Hs as (He & Hc & Hev); rewrite He; eauto|].
  destruct e; try done.
  destruct Hs as [|[Hl Hc]]; [by left|right; eauto].
Qed.

(** C9: the SQL write is atomic, whatever the server does: after any sequence of
    failures and lost answers, and on any tables, a write that reports success
    has stored its entry and, when asked for, its event; one that reports
    anything else has stored neither, except that "Unavailable" may hide a commit
    whose answer was lost, which stored both.  Entry and event are never apart. *)
Theorem postgres_write_atomic db input (n : nat) :
  let '(res, n', db') := pg_write_entry_with_outbox input n db in
  match res with
  | Ok out => committed (pg_tables db) (pg_tables db') input (wr_entry out) n
              ∧ (∃ position, wr_entry out = entry_at input n position)
              ∧ (is_Some (wr_outbox out) ↔ ew_create_outbox input = true)
  | Err Unavailable =>
      pg_tables db' = pg_tables db
      ∨ (AnswerLost ∈ pg_faults db
         ∧ ∃ position, committed (pg_tables db) (pg_tables db') input (entry_at input n position) n)
  | Err _ => pg_tables db' = pg_tables db
  end.
Proof. apply pg_write_outcome. Qed.

(** *** The outbox *)

(** What the processor asks of the outbox table. *)
Inductive OutboxOp : Type :=
| MarkDelivered (outbox_id : Uuid)
| IncrementAttempt (outbox_id : Uuid)
| MarkFailed (outbox_id : Uuid).

Definition run_outbox_op (op : OutboxOp) : Pg (result unit RepositoryError) :=
  match op with
  | MarkDelivered id => pg_mark_outbox_delivered id
  | IncrementAttempt id => pg_increment_outbox_attempt id
  | MarkFailed id => pg_mark_outbox_failed id
  end.

Fixpoint run_outbox_ops (ops : list OutboxOp) db : PostgresLedgerRepository :=
  match ops with
  | [] => db
  | op :: ops' => run_outbox_ops ops' (run_outbox_op op db).2
  end.

(** The life of a row: the event stays what it was, nothing returns to PENDING,
    FAILED is final, and attempts only accumulate. *)
Record row_step (r r' : OutboxRow) : Prop := {
  rs_event : or_outbox_id r' = or_outbox_id r ∧ or_entry_id r' = or_entry_id r
    ∧ or_entry_type r' = or_entry_type r ∧ or_payload r' = or_payload r
    ∧ or_created_ts r' = or_created_ts r;
  rs_pending : or_status r' = "PENDING" → or_status r = "PENDING";
  rs_failed : or_status r = "FAILED" → or_status r' = "FAILED";
  rs_status : or_status r' = or_status r ∨ or_status r' = "DELIVERED" ∨ or_status r' = "FAILED";
  rs_attempts : or_attempt_count r ≤ or_attempt_count r'
}.

#[global] Instance row_step_preorder : PreOrder row_step.
Proof.
  split.
  - intros r. split; auto. lia.
  - intros r1 r2 r3 [E1 P1 F1 S1 A1] [E2 P2 F2 S2 A2]. split; auto; [|naive_solver congruence|lia].
    destruct E1 as (?&?&?&?&?), E2 as (?&?&?&?&?). repeat split; congruence.
Qed.

Definition outbox_step (tb tb' : PgTables) : Prop :=
  tb_entries tb' = tb_entries tb ∧ Forall2 row_step (tb_outbox tb) (tb_outbox tb').

#[global] Instance outbox_step_preorder : PreOrder outbox_step.
Proof.
  split.
  - intros tb. by split.
  - intros tb1 tb2 tb3 [E1 S1] [E2 S2]. split; [congruence|]. by trans (tb_outbox tb2).
Qed.

Lemma update_rows_step keep set tb :
  (∀ r, keep r = true → row_step r (set r)) → outbox_step tb (update_rows keep set tb).2.
Proof.
  intros Hs. split; [done|]. simpl. induction (tb_outbox tb) as [|r l IH]; constructor; [|done].
  by destruct (keep r) eqn:E; [apply Hs|].
Qed.

Lemma pg_update_step (statement : PgTables → result (nat * PgTables) DbError) db :
  (∀ tb n tb', statement tb = Ok (n, tb') → outbox_step tb tb') →
  outbox_step (pg_tables db) (pg_tables ((sql? n := pg_execute statement in updated n) db).2).
Proof.
  intros Hs. unfold pg_try, pg_execute, updated, pg_ret.
  destruct (next_fault db) as [f db'] eqn:E. apply next_fault_untouched in E as [[Ht _] _].
  rewrite <- Ht. destruct f; simpl; try done;
    (destruct (statement (pg_tables db')) as [[n tables]|] eqn:Hst; [|done];
     apply Hs in Hst; done).
Qed.

Lemma pool_get_step {B} (k : Pg (result B RepositoryError)) db :
  (∀ db', outbox_step (pg_tables db') (pg_tables (k db').2)) →
  outbox_step (pg_tables db) (pg_tables ((sql? _ := pool_get in k) db).2).
Proof.
  intros Hk. unfold pg_try. pose proof (reads_pg_read (λ _, Ok tt) db) as [Ht _].
  unfold pool_get. destruct (pg_read _ db) as [[[]|e] db']; simpl in *; rewrite <- Ht; [apply Hk|done].
Qed.

Lemma outbox_op_step op db : outbox_step (pg_tables db) (pg_tables (run_outbox_op op db).2).
Proof.
  destruct op as [id|id|id]; simpl; apply pool_get_step; intros db'.
  - apply pg_update_step. intros tb n tb' [= _ <-].
    refine (update_rows_step _ _ tb _).
    intros r [_ Hr%String.eqb_eq]%andb_true_iff. split; simpl; rewrite ?Hr; auto; done.
  - apply (pg_update_step _ (tick_now db')). intros tb n tb'. cbv zeta. destruct (existsb _ _); [done|].
    intros [= _ <-]. refine (update_rows_step _ _ tb _).
    intros r _. split; simpl; auto; lia.
  - apply pg_update_step. intros tb n tb' [= _ <-].
    refine (update_rows_step _ _ tb _). intros r _. by split; simpl; auto.
Qed.

(** the outbox table is a state machine, whatever the server does: under any
    sequence of the processor's updates, with any failures and lost answers, no
    row appears or disappears, an event never changes, a row that left PENDING
    never returns to it (no event is published again after it was marked), FAILED
    is final, attempts only accumulate, and the ledger's table is untouched. *)
Theorem postgres_outbox_state_machine (ops : list OutboxOp) db :
  let tb := pg_tables db in
  let tb' := pg_tables (run_outbox_ops ops db) in
  tb_entries tb' = tb_entries tb ∧ Forall2 row_step (tb_outbox tb) (tb_outbox tb').
Proof.
  change (outbox_step (pg_tables db) (pg_tables (run_outbox_ops ops db))).
  revert db. induction ops as [|op ops IH]; intros db; simpl; [done|].
  etrans; [apply outbox_op_step|apply IH].
Qed.
End Properties.

(** * Witnesses *)

#[local] Existing Instance Toy.platform.
#[local] Existing Instance Toy.laws.
#[local] Existing Instance ToyPg.server.
#[local] Existing Instance ToyPg.server_laws.

Definition pg_empty : PostgresLedgerRepository :=
  {| pg_tables := {| tb_entries := []; tb_outbox := [] |}; pg_faults := []; pg_clock := 0 |}.

Lemma pg_empty_wf : tables_wf (pg_tables pg_empty).
Proof.
  split; [split|..].
  - apply NoDup_nil_2.
  - by intros e1 e2 ?%elem_of_nil.
  - by intros e1 e2 ?%elem_of_nil.
  - by intros e ?%elem_of_nil.
  - by intros e ?%elem_of_nil.
  - done.
  - by intros e ?%elem_of_nil.
Qed.

Lemma pg_empty_fresh n : rows_fresh n (pg_tables pg_empty).
Proof. by split; intros ? ?%elem_of_nil. Qed.

Definition pg_demo_input : EntryWriteInput := {|
  ew_entry_type := "t"; ew_agent_id := "a"; ew_content := []; ew_content_type := "p";
  ew_source_id := "s"; ew_correlation_id := None; ew_idempotency_key := Some "k";
  ew_input_hash := None; ew_writer_signature := None; ew_signer_key_reference := None;
  ew_attestation_report := None; ew_previous_hash := "g"; ew_written_ts := 5;
  ew_create_outbox := true
|}.

Lemma postgres_write_refines_witness :
  ∃ event db' text,
    pg_write_entry_with_outbox pg_demo_input 0 pg_empty
    = (Ok {| wr_entry := next_entry (pg_ledger (pg_tables pg_empty)) pg_demo_input (uuid_v4 0);
             wr_outbox := event |}, 3%nat, db')
    ∧ pg_tables db'
      = {| tb_entries := [next_entry (pg_ledger (pg_tables pg_empty))
                            (retime (pg_timestamp 5) pg_demo_input) (uuid_v4 0)];
           tb_outbox := outbox_after [] pg_demo_input 0 text (pg_now 0) |}.
Proof.
  destruct (postgres_write_refines pg_empty pg_demo_input 0 eq_refl pg_empty_wf
              (pg_empty_fresh 0) eq_refl) as (_ & _ & _ & H).
  destruct (H eq_refl eq_refl (conj eq_refl eq_refl)) as (event & db' & text & H1 & H2 & _).
  exists event, db', text. split; [exact H1|exact H2].
Defined.
