(* ===== verification/Chain.v ===== *)
(** * What it means for a chain to verify

    [audit] is the reference for [verify_chain]: one pass over a list of entries
    that stops at the first faulty one.  [links_ok] is the property it decides.
    [same_proof] relates two entries the digest does not tell apart: the same
    version and the same bound fields.  The central lemma is [chain_binding]:
    two chains that verify from one genesis and end in one hash agree entry by
    entry on everything the version binds, unless two of the texts hashed along
    the way collide. *)

From Stdlib Require Import String Strings.Byte ZArith Lia.
From stdpp Require Import base tactics numbers strings list gmap sorting.
From S2P Require Import Prelude Platform Crypto Repository Config World Service LedgerSpec.

Section Chain.
Context {P : Platform}.
Implicit Types (e : LedgerEntryRecord) (l : list LedgerEntryRecord).

(** Why an entry does not follow [prev], if it does not. *)
Definition entry_fault (prev : string) e : option string :=
  if negb (String.eqb (le_previous_hash e) prev) then Some "chain_link_mismatch"
  else match entry_recomputed e with
       | None => Some "unsupported_hash_version"
       | Some h => if String.eqb h (le_entry_hash e) then None else Some "entry_hash_mismatch"
       end.

Fixpoint audit (prev : string) (checked : Z) l : VerifyChainOutput :=
  match l with
  | [] => chain_ok checked
  | e :: l' =>
      match entry_fault prev e with
      | Some reason => chain_bad (checked + 1) (Some (le_entry_id e)) reason
      | None => audit (le_entry_hash e) (checked + 1) l'
      end
  end.

Fixpoint links_ok (prev : string) l : Prop :=
  match l with
  | [] => True
  | e :: l' => entry_fault prev e = None ∧ links_ok (le_entry_hash e) l'
  end.

(** The hash the entry after [l] must link to. *)
Definition last_hash (prev : string) l : string :=
  match last l with Some e => le_entry_hash e | None => prev end.

(** Every chain of the ledger verifies from the genesis hash. *)
Definition ledger_valid (genesis : string) (L : Ledger) : Prop :=
  ∀ t, links_ok genesis (chain L t).

(** The text an entry's hash is the digest of. *)
Definition entry_text e : list byte :=
  canonical_bytes (le_hash_version e) (hash_input_of_entry e).

Definition same_proof e1 e2 : Prop :=
  le_hash_version e1 = le_hash_version e2
  ∧ bound (le_hash_version e1) (hash_input_of_entry e1)
    = bound (le_hash_version e2) (hash_input_of_entry e2).

(** Two texts hashed for one chain or the other, genesis included, collide. *)
Definition chains_collide (genesis : list byte) l1 l2 : Prop :=
  ∃ x y, x ∈ genesis :: map entry_text l1 ∧ y ∈ genesis :: map entry_text l2 ∧ collision x y.

(** [L2] has the entries of [L1], in order, and perhaps more at the end. *)
Definition ledger_extends (L1 L2 : Ledger) : Prop := ∀ t, chain L1 t `prefix_of` chain L2 t.
End Chain.

(** * Lemmas *)

Section ChainLemmas.
Context {P : Platform} {PL : PlatformLaws P}.
Implicit Types (e : LedgerEntryRecord) (l : list LedgerEntryRecord).

Lemma entry_fault_None prev e :
  entry_fault prev e = None ↔
  le_previous_hash e = prev ∧ entry_recomputed e = Some (le_entry_hash e).
Proof.
  unfold entry_fault.
  destruct (String.eqb_spec (le_previous_hash e) prev); simpl; [|intuition congruence].
  destruct (entry_recomputed e) as [h|]; [|intuition congruence].
  destruct (String.eqb_spec h (le_entry_hash e)); intuition congruence.
Qed.

Lemma links_ok_app prev l1 l2 :
  links_ok prev (l1 ++ l2) ↔ links_ok prev l1 ∧ links_ok (last_hash prev l1) l2.
Proof.
  revert prev. induction l1 as [|e l1 IH]; intros prev; simpl; [tauto|].
  rewrite IH. assert (last_hash (le_entry_hash e) l1 = last_hash prev (e :: l1)) as ->.
  { unfold last_hash. rewrite last_cons. by destruct (last l1). }
  tauto.
Qed.

Lemma links_ok_snoc prev l e :
  links_ok prev (l ++ [e]) ↔ links_ok prev l ∧ entry_fault (last_hash prev l) e = None.
Proof. rewrite links_ok_app. simpl. tauto. Qed.

Lemma links_ok_elem prev l e :
  links_ok prev l → e ∈ l → entry_recomputed e = Some (le_entry_hash e).
Proof.
  revert prev. induction l as [|e' l IH]; intros prev Hl He; [by apply elem_of_nil in He|].
  destruct Hl as [Hf Hl]. apply elem_of_cons in He as [->|He]; [|by eapply IH].
  by apply entry_fault_None in Hf as [_ ?].
Qed.

Lemma last_hash_snoc prev l e : last_hash prev (l ++ [e]) = le_entry_hash e.
Proof. unfold last_hash. by rewrite last_snoc. Qed.

(** *** The audit decides [links_ok] and finds the first fault *)

Lemma audit_ok prev n l : links_ok prev l → audit prev n l = chain_ok (n + Z.of_nat (length l)).
Proof.
  revert prev n. induction l as [|e l IH]; intros prev n Hl; simpl; [by rewrite Z.add_0_r|].
  destruct Hl as [-> Hl]. rewrite IH by done. f_equal. lia.
Qed.

Lemma audit_first_fault prev n l1 e l2 reason :
  links_ok prev l1 → entry_fault (last_hash prev l1) e = Some reason →
  audit prev n (l1 ++ e :: l2)
  = chain_bad (n + Z.of_nat (length l1) + 1) (Some (le_entry_id e)) reason.
Proof.
  revert prev n. induction l1 as [|e' l1 IH]; intros prev n Hl Hf; simpl.
  - change (last_hash prev []) with prev in Hf. rewrite Hf. f_equal. lia.
  - destruct Hl as [-> Hl]. rewrite IH; [f_equal; lia|done|].
    rewrite <- Hf. f_equal. unfold last_hash. rewrite last_cons. by destruct (last l1).
Qed.

Lemma links_ok_dec prev l :
  links_ok prev l ∨ ∃ l1 e l2 reason, l = l1 ++ e :: l2 ∧ links_ok prev l1
                      ∧ entry_fault (last_hash prev l1) e = Some reason.
Proof.
  induction l as [|e l IH] using rev_ind; [by left|].
  destruct IH as [Hl|(l1 & e' & l2 & reason & -> & Hl & Hf)].
  - rewrite links_ok_snoc. destruct (entry_fault (last_hash prev l) e) as [reason|] eqn:E.
    + right. by exists l, e, [], reason.
    + by left.
  - right. exists l1, e', (l2 ++ [e]), reason. by rewrite <- (assoc (++)).
Qed.

Lemma audit_valid prev n l : vc_chain_valid (audit prev n l) = true ↔ links_ok prev l.
Proof.
  destruct (links_ok_dec prev l) as [Hl|(l1 & e & l2 & reason & -> & Hl & Hf)].
  - by rewrite audit_ok.
  - rewrite (audit_first_fault _ _ _ _ _ reason) by done. simpl. split; [done|].
    rewrite links_ok_app. simpl. rewrite Hf. by intros (_ & ? & _).
Qed.

(** *** Binding *)

Lemma entry_recomputed_text e h :
  entry_recomputed e = Some h ↔
  (le_hash_version e = ENTRY_HASH_VERSION_V2 ∨ le_hash_version e = ENTRY_HASH_VERSION_V3)
  ∧ h = sha256_hex (entry_text e).
Proof. apply canonical_entry_hash_for_version_bytes. Qed.

Lemma same_text e1 e2 h1 h2 :
  entry_recomputed e1 = Some h1 → entry_recomputed e2 = Some h2 →
  entry_text e1 = entry_text e2 → same_proof e1 e2.
Proof.
  intros [V1 _]%entry_recomputed_text [V2 _]%entry_recomputed_text.
  by apply canonical_bytes_inj.
Qed.

(** Equal recomputed hashes: the same proof, or a collision of the two texts. *)
Lemma recomputed_binding e1 e2 h :
  entry_recomputed e1 = Some h → entry_recomputed e2 = Some h →
  same_proof e1 e2 ∨ collision (entry_text e1) (entry_text e2).
Proof.
  intros H1 H2. pose proof H1 as [_ T1]%entry_recomputed_text.
  pose proof H2 as [_ T2]%entry_recomputed_text. rewrite T1 in T2.
  apply sha256_hex_inj in T2 as [T|T]; [left|by right]. by eapply same_text.
Qed.

Lemma same_proof_previous e1 e2 :
  same_proof e1 e2 → le_previous_hash e1 = le_previous_hash e2.
Proof.
  intros [Hv H%(f_equal ch_previous_hash)]. revert H. unfold bound. rewrite Hv. by case_match.
Qed.

Lemma chains_collide_mono genesis l1 l2 l1' l2' :
  l1 ⊆ l1' → l2 ⊆ l2' → chains_collide genesis l1 l2 → chains_collide genesis l1' l2'.
Proof.
  intros H1 H2 (x & y & Hx & Hy & Hc). exists x, y.
  rewrite !elem_of_cons, !list_elem_of_fmap in *. naive_solver.
Qed.

(** The genesis text is no entry's text, so the genesis hash is no entry's hash. *)
Lemma genesis_not_entry genesis l e l' :
  (∀ e, entry_text e ≠ genesis) → e ∈ l →
  entry_recomputed e = Some (sha256_hex genesis) → chains_collide genesis l l'.
Proof.
  intros Hg He [_ [T|T]%sha256_hex_inj]%entry_recomputed_text; [by destruct (Hg e)|].
  exists (entry_text e), genesis. split; [|split; [left|]].
  - right. apply list_elem_of_fmap. eauto.
  - destruct T as [??]. by split.
Qed.

Lemma chains_collide_sym genesis l1 l2 : chains_collide genesis l1 l2 → chains_collide genesis l2 l1.
Proof.
  intros (x & y & Hx & Hy & Hne & He). exists y, x. by repeat split.
Qed.

Lemma chain_binding genesis l1 l2 :
  (∀ e, entry_text e ≠ genesis) →
  links_ok (sha256_hex genesis) l1 → links_ok (sha256_hex genesis) l2 →
  last_hash (sha256_hex genesis) l1 = last_hash (sha256_hex genesis) l2 →
  Forall2 same_proof l1 l2 ∨ chains_collide genesis l1 l2.
Proof.
  intros Hg. revert l2. induction l1 as [|e1 l1 IH] using rev_ind; intros l2.
  - destruct l2 as [|e2 l2 _] using rev_ind; [by left|].
    intros _ [_ [_ Hf]%entry_fault_None]%links_ok_snoc Hl. right. apply chains_collide_sym.
    rewrite last_hash_snoc in Hl. eapply genesis_not_entry; [done| |by rewrite Hf, <- Hl].
    apply elem_of_app. right. by left.
  - intros [L1 [P1 F1]%entry_fault_None]%links_ok_snoc.
    destruct l2 as [|e2 l2 _] using rev_ind.
    + intros _ Hl. right. rewrite last_hash_snoc in Hl.
      eapply genesis_not_entry; [done| |by rewrite F1, Hl].
      apply elem_of_app. right. by left.
    + intros [L2 [P2 F2]%entry_fault_None]%links_ok_snoc. rewrite !last_hash_snoc. intros Hh.
      rewrite Hh in F1. destruct (recomputed_binding e1 e2 _ F1 F2) as [Hs|Hc].
      * apply same_proof_previous in Hs as Hp. rewrite P1, P2 in Hp.
        destruct (IH l2 L1 L2 Hp) as [Hall|Hc]; [left|right].
        -- apply Forall2_app; [done|]. by constructor.
        -- eapply chains_collide_mono; [| |exact Hc]; set_solver.
      * right. exists (entry_text e1), (entry_text e2).
        split; [|split; [|done]]; right; apply list_elem_of_fmap; eexists;
          (split; [done|]); apply elem_of_app; right; by left.
Qed.

(** *** Extension *)

Lemma ledger_extends_refl (L : Ledger) : ledger_extends L L.
Proof. by intros t. Qed.

Lemma ledger_extends_trans (L1 L2 L3 : Ledger) :
  ledger_extends L1 L2 → ledger_extends L2 L3 → ledger_extends L1 L3.
Proof. intros H1 H2 t. by trans (chain L2 t). Qed.

Lemma ledger_append_extends (L : Ledger) e : ledger_extends L (ledger_append e L).
Proof. intros t. rewrite chain_append. case_decide; [by apply prefix_app_r|done]. Qed.

#[global] Instance ledger_extends_preorder : PreOrder ledger_extends.
Proof.
  split; [exact ledger_extends_refl|]. intros L1 L2 L3. apply ledger_extends_trans.
Qed.
End ChainLemmas.

#[export] Hint Resolve ledger_extends_refl ledger_append_extends : ledger.
