(* ===== verification/Examples.v ===== *)
(** * A concrete ledger the witnesses evaluate

    The in-memory repository on the toy platform of Platform, served without a
    publisher under the configuration of the service tests. *)

From Stdlib Require Import String Strings.Byte ZArith Lia.
From stdpp Require Import base tactics numbers strings list gmap sorting.
From S2P Require Import Prelude Platform Crypto Repository Config World Service LedgerSpec.
From S2P Require Import InMemory.

#[local] Existing Instance Toy.platform.
#[local] Existing Instance Toy.laws.

Definition demo_service : ImmutableLedgerService NoopEventPublisher :=
  {| svc_publisher := Noop; svc_config := test_config |}.

Definition demo_input (agent : string) (key : option string) : WriteEntryInput := {|
  wi_entry_type := "t"; wi_agent_id := agent; wi_content := as_bytes "c";
  wi_content_type := "p"; wi_source_id := "s"; wi_correlation_id := None;
  wi_idempotency_key := key; wi_input_hash := None; wi_writer_signature := None;
  wi_signer_key_reference := None; wi_attestation_report := None
|}.

Definition demo_empty : World Inner := world_init inner_default.

(** One write has been made. *)
Definition demo_request : WriteEntryInput := demo_input "a" (Some "k").

Definition demo_one : World Inner := (write_entry demo_service demo_request demo_empty).2.

Lemma demo_uuid_inj : Inj (=) (=) (uuid_v4 : nat → Uuid).
Proof. intros n m. apply Nat2N.inj. Qed.

Lemma demo_empty_chain (t : string) : chain (ledger_of (w_repo demo_empty)) t = [].
Proof. done. Qed.

Lemma demo_empty_fresh (id : Uuid) : spec_find (ledger_of (w_repo demo_empty)) id = None.
Proof. done. Qed.
