(* ===== verification/ServiceWrite.v ===== *)
(** * What [write_entry] does

    [spec_write_entry] is the specification of a write on the abstract ledger: a
    pure function of the ledger, the halt table, the clock and the next
    identifier, that lists the outcomes in the order the code decides them.
    [write_entry_refines] shows that the method, over any repository that keeps
    the contract of LedgerSpec, computes exactly that; the theorems after it are
    the consequences a user of the ledger relies on.  The last section runs the
    retry loop against repositories that do not keep the contract. *)

From Stdlib Require Import String Strings.Byte ZArith Lia.
From stdpp Require Import base tactics numbers strings list gmap sorting.
From S2P Require Import Prelude Platform Crypto Repository Config World Service LedgerSpec.
From S2P Require Import InMemory Chain Examples.

Section Spec.
Context {P : Platform} {R Pub : Type} `{!LedgerRepository R, !LedgerStore R, !EventPublisher Pub}.
Context (svc : ImmutableLedgerService Pub).

Definition w_ledger (w : World R) : Ledger := ledger_of (w_repo w).

(** Is the chain halted when the [k]-th clock reading is made? *)
Definition still_halted (w : World R) (t : string) (k : nat) : bool :=
  match w_halted w !! t with
  | Some halted_at =>
      elapsed halted_at (instant_now k) <? seconds (chain_halt_recovery_seconds (svc_config svc))
  | None => false
  end.

(** The entry a successful write appends.  The clock reading that stamps it
    follows the one for the duration metric and, when the chain was halted, the
    one that checked the recovery time. *)
Definition written_entry (w : World R) (input : WriteEntryInput) : LedgerEntryRecord :=
  let t := wi_entry_type input in
  let readings := match w_halted w !! t with Some _ => 2%nat | None => 1%nat end in
  next_entry (w_ledger w)
    (entry_write_input input
       (last_hash (genesis_hash svc) (chain (w_ledger w) t))
       (store_time (R := R) (utc_now (readings + w_clock w))) (create_outbox svc))
    (uuid_v4 (w_uuids w)).

(** The repository can store the request, whenever it is stamped and whatever it
    is linked to. *)
Definition request_accepted (input : WriteEntryInput) : Prop :=
  ∀ previous_hash k,
    store_accepts (R := R)
      (entry_write_input input previous_hash (utc_now k) (create_outbox svc)).

(** The repository can be asked for the request's chain and key. *)
Definition askable (input : WriteEntryInput) : Prop :=
  store_reads (R := R) (wi_entry_type input) = true
  ∧ ∀ key, wi_idempotency_key input = Some key → store_reads (R := R) key = true.

Definition stored_for_key (w : World R) (input : WriteEntryInput) : option LedgerEntryRecord :=
  wi_idempotency_key input ≫= spec_idempotent (w_ledger w) (wi_entry_type input).

Definition spec_write_entry (w : World R) (input : WriteEntryInput)
    : result WriteEntryOutput ServiceError * Ledger :=
  let L := w_ledger w in
  match check_arguments svc input with
  | Err e => (Err e, L)
  | Ok _ =>
      if still_halted w (wi_entry_type input) (S (w_clock w)) then (Err SUnavailable, L)
      else
        match stored_for_key w input with
        | Some existing =>
            if idempotent_request_matches existing input then
              (Ok (output_of_entry existing), L)
            else (Err (SAlreadyExists idempotency_message), L)
        | None =>
            if chain_max_retries (svc_config svc) <=? 0 then
              (Err (SInternal integrity_message), L)
            else
              let e := written_entry w input in
              (Ok (output_of_entry e), ledger_append e L)
        end
  end.

(** A sequence of writes. *)
Fixpoint run_writes (inputs : list WriteEntryInput) (w : World R)
    : list (result WriteEntryOutput ServiceError) * World R :=
  match inputs with
  | [] => ([], w)
  | input :: inputs' =>
      let '(out, w') := write_entry svc input w in
      let '(outs, w'') := run_writes inputs' w' in
      (out :: outs, w'')
  end.

(** The state of a ledger that has only been written by this service: the
    repository keeps its contract, every chain verifies, and the part of the
    stream of identifiers that is not drawn yet is unused. *)
Record service_inv (w : World R) : Prop := {
  si_wf : store_wf (w_repo w);
  si_valid : ledger_valid (genesis_hash svc) (w_ledger w);
  si_uuids : ∀ m, (w_uuids w ≤ m)%nat → store_fresh m (w_repo w)
}.

Definition chains_below (bound : Z) (w : World R) : Prop :=
  ∀ t, Z.of_nat (length (chain (w_ledger w) t)) < bound.
End Spec.

(** * Lemmas *)

Section WriteLemmas.
Context {P : Platform} {PL : PlatformLaws P} {R Pub : Type}.
Context `{!LedgerRepository R, !LedgerStore R, !LedgerStoreLaws R, !EventPublisher Pub}.
Context (svc : ImmutableLedgerService Pub).
Implicit Types (w : World R) (input : WriteEntryInput).

Lemma check_arguments_error input e :
  check_arguments svc input = Err e → ∃ message, e = SInvalidArgument message.
Proof. unfold check_arguments. repeat case_match; intros [= <-]; eauto. Qed.

Lemma genesis_nonempty : genesis_hash svc ≠ "".
Proof. apply is_empty_false, sha256_hex_nonempty. Qed.

Lemma spec_tip_hash (L : Ledger) t :
  match ok_or (spec_tip L t) NotFound with
  | Ok tip => Ok (ct_hash tip)
  | Err NotFound => Ok (genesis_hash svc)
  | Err err => Err (map_repo err)
  end = Ok (last_hash (genesis_hash svc) (chain L t)).
Proof. unfold spec_tip, last_hash. by destruct (last _). Qed.

(** A write whose [previous_hash] is the one the service read passes the
    repository's link check. *)
Lemma spec_write_linked (L : Ledger) input ts ob id :
  (∀ key, wi_idempotency_key input = Some key →
     spec_idempotent L (wi_entry_type input) key = None) →
  let write := entry_write_input input
                 (last_hash (genesis_hash svc) (chain L (wi_entry_type input))) ts ob in
  spec_write L write id = Ok (next_entry L write id).
Proof.
  intros Hk write. apply spec_write_Ok. split; [done|]. split; [done|]. simpl.
  unfold last_hash. destruct (last _); [done|]. apply genesis_nonempty.
Qed.

(** A caller cannot tell the stored time from the one the service chose. *)
Lemma output_of_entry_retime (L : Ledger) (write : EntryWriteInput) id ts :
  timestamp_millis ts = timestamp_millis (ew_written_ts write) →
  output_of_entry (next_entry L (retime ts write) id) = output_of_entry (next_entry L write id).
Proof.
  intros H. unfold output_of_entry. rewrite next_entry_retime by done. simpl. by rewrite H.
Qed.

Lemma accepted_askable input :
  request_accepted (R := R) svc input → askable (R := R) input.
Proof. intros Hacc. exact (store_accepts_reads _ (Hacc "" 0%nat)). Qed.

(** The identifiers from the [n]-th on stay unused. *)
Definition stays_fresh (n : nat) (r r' : R) : Prop :=
  Inj (=) (=) (uuid_v4 : nat → Uuid) → ∀ m, (n ≤ m)%nat → store_fresh m r → store_fresh m r'.

(** One pass of the loop suffices over a repository that keeps the contract. *)
Lemma write_loop_ok w input max k attempt :
  let L := ledger_of (w_repo w) in
  let e := next_entry L
             (entry_write_input input
                (last_hash (genesis_hash svc) (chain L (wi_entry_type input)))
                (store_time (R := R) (utc_now (w_clock w))) (create_outbox svc))
             (uuid_v4 (w_uuids w)) in
  request_accepted (R := R) svc input → store_wf (w_repo w) → store_fresh (w_uuids w) (w_repo w) →
  Z.of_nat (length (chain L (wi_entry_type input))) < i64_max →
  (∀ key, wi_idempotency_key input = Some key →
     spec_idempotent L (wi_entry_type input) key = None) →
  ∃ n' r', write_loop svc input max (S k) attempt w
    = (Ok (output_of_entry e), map_metrics (observe_retries attempt)
                                 (set_repo_uuids r' n' (tick w)))
    ∧ ledger_of r' = ledger_append e L ∧ store_wf r' ∧ (w_uuids w < n')%nat
    ∧ stays_fresh n' (w_repo w) r'.
Proof.
  intros L e Hacc Hwf Hfresh Hlen Hk. cbn [write_loop].
  rewrite (bind_call_read _ _ _ _ (get_chain_tip_law _ _ Hwf)).
  rewrite (proj1 (accepted_askable input Hacc)). unfold asked. rewrite spec_tip_hash.
  step_M. unfold call_write. cbn -[spec_write].
  assert (chain L (wi_entry_type input) = [] →
    ∃ data, last_hash (genesis_hash svc) (chain L (wi_entry_type input)) = sha256_hex data) as Hd
    by (intros ->; by eexists).
  pose proof (write_law (w_repo w)
    (entry_write_input input (last_hash (genesis_hash svc) (chain L (wi_entry_type input)))
       (utc_now (w_clock w)) (create_outbox svc)) (w_uuids w) Hwf Hfresh Hlen
    (Hacc _ _) Hd) as Hw.
  fold L in Hw. rewrite spec_write_linked in Hw by done.
  destruct Hw as (out & n' & r' & Hw & Hout & HL & Hwf' & Hn & Hf).
  exists n', r'. fold L. rewrite Hw. cbn. rewrite Hout. repeat split; try done.
  f_equal. f_equal. symmetry.
  exact (output_of_entry_retime L _ _ _
           (store_time_law _ (Hacc (last_hash (genesis_hash svc) (chain L (wi_entry_type input)))
                                (w_clock w)))).
Qed.

Lemma check_halted_spec w t :
  check_halted svc t w
  = match w_halted w !! t with
    | None => (Ok tt, w)
    | Some _ =>
        if still_halted svc w t (w_clock w) then (Err SUnavailable, tick w)
        else (Ok tt, set_halted (delete t (w_halted w)) (tick w))
    end.
Proof.
  unfold check_halted, still_halted. step_M.
  destruct (w_halted w !! t) as [h|]; [|done]. step_M. by case_match.
Qed.

Lemma check_idempotent_spec w input :
  store_ok (w_repo w) → askable (R := R) input →
  check_idempotent input w
  = (match stored_for_key w input with
     | None => Ok None
     | Some existing =>
         if idempotent_request_matches existing input then Ok (Some (output_of_entry existing))
         else Err (SAlreadyExists idempotency_message)
     end, w).
Proof.
  intros Hok [Ht Hk]. unfold check_idempotent, stored_for_key.
  destruct (wi_idempotency_key input) as [key|]; [|done]. simpl.
  rewrite (bind_call_read _ _ _ _ (find_idempotent_law _ _ _ Hok)), Ht, (Hk key eq_refl). simpl.
  unfold w_ledger. destruct (spec_idempotent _ _ _) as [e|]; simpl; [|done].
  by destruct (idempotent_request_matches e input).
Qed.

Lemma stored_for_key_None w input :
  stored_for_key w input = None →
  ∀ key, wi_idempotency_key input = Some key →
    spec_idempotent (w_ledger w) (wi_entry_type input) key = None.
Proof. unfold stored_for_key. intros H key Hk. by rewrite Hk in H. Qed.

(** The halt table after a write: an expired halt has been removed. *)
Definition halted_after w input : gmap string Z :=
  match check_arguments svc input with
  | Err _ => w_halted w
  | Ok _ =>
      if still_halted svc w (wi_entry_type input) (S (w_clock w)) then w_halted w
      else delete (wi_entry_type input) (w_halted w)
  end.

(** What a call of [write_entry_impl] or [write_entry] leaves behind. *)
Record write_post w input (w' : World R) : Prop := {
  wp_ledger : w_ledger w' = (spec_write_entry svc w input).2;
  wp_wf : store_wf (w_repo w');
  wp_uuids : (w_uuids w ≤ w_uuids w')%nat;
  wp_fresh : stays_fresh (w_uuids w') (w_repo w) (w_repo w');
  wp_same : (spec_write_entry svc w input).2 = w_ledger w → w_repo w' = w_repo w;
  wp_halted : w_halted w' = halted_after w input;
  wp_sleeps : w_sleeps w' = w_sleeps w
}.

(** The state of the loop's entry point: the checks have passed. *)
Lemma write_loop_post w w1 input :
  w_repo w1 = w_repo w → w_uuids w1 = w_uuids w →
  w_clock w1 = (match w_halted w !! wi_entry_type input with
                | Some _ => 2%nat | None => 1%nat end + w_clock w)%nat →
  request_accepted (R := R) svc input → store_wf (w_repo w) → store_fresh (w_uuids w) (w_repo w) →
  Z.of_nat (length (chain (w_ledger w) (wi_entry_type input))) < i64_max →
  stored_for_key w input = None → 0 < chain_max_retries (svc_config svc) →
  ∃ w', write_loop svc input (chain_max_retries (svc_config svc))
          (Z.to_nat (chain_max_retries (svc_config svc))) 0 w1
        = (Ok (output_of_entry (written_entry svc w input)), w')
    ∧ w_ledger w' = ledger_append (written_entry svc w input) (w_ledger w)
    ∧ store_wf (w_repo w') ∧ (w_uuids w < w_uuids w')%nat
    ∧ stays_fresh (w_uuids w') (w_repo w) (w_repo w')
    ∧ w_halted w' = w_halted w1 ∧ w_sleeps w' = w_sleeps w1.
Proof.
  intros Hr Hu Hc Hacc Hwf Hfresh Hlen Hk Hm.
  destruct (Z.to_nat (chain_max_retries (svc_config svc))) as [|k] eqn:Hn; [lia|].
  destruct (write_loop_ok w1 input (chain_max_retries (svc_config svc)) k 0)
    as (n' & r' & -> & HL & Hwf' & Hn' & Hf).
  - done.
  - by rewrite Hr.
  - by rewrite Hr, Hu.
  - by rewrite Hr.
  - rewrite Hr. by apply stored_for_key_None.
  - rewrite Hr, Hu, Hc in *. eexists. split; [done|]. repeat split; done.
Qed.

Lemma ledger_append_ne (L : Ledger) e : ledger_append e L ≠ L.
Proof.
  intros H%(f_equal (λ L, length (chain L (le_entry_type e)))).
  rewrite chain_append, decide_True, length_app in H by done. simpl in H. lia.
Qed.

Lemma post_unchanged w w' input :
  store_wf (w_repo w) → (spec_write_entry svc w input).2 = w_ledger w →
  w_repo w' = w_repo w → w_uuids w' = w_uuids w → w_halted w' = halted_after w input →
  w_sleeps w' = w_sleeps w → write_post w input w'.
Proof.
  intros Hwf Hs Hr Hu Hh Hsl. split; try done.
  - rewrite Hs. unfold w_ledger. by rewrite Hr.
  - by rewrite Hr.
  - by rewrite Hu.
  - intros _ m _. by rewrite Hr.
Qed.

(** The world after the halt check has let the call pass. *)
Definition past_halt w (t : string) : World R :=
  match w_halted w !! t with
  | Some _ => set_halted (delete t (w_halted w)) (tick (tick w))
  | None => tick w
  end.

Lemma past_halt_fields w t :
  w_repo (past_halt w t) = w_repo w ∧ w_uuids (past_halt w t) = w_uuids w
  ∧ w_sleeps (past_halt w t) = w_sleeps w ∧ w_halted (past_halt w t) = delete t (w_halted w)
  ∧ w_clock (past_halt w t)
    = (match w_halted w !! t with Some _ => 2 | None => 1 end + w_clock w)%nat.
Proof.
  unfold past_halt. destruct (w_halted w !! t) eqn:E; repeat split. simpl.
  symmetry. by apply delete_id.
Qed.

Lemma check_halted_tick w t :
  check_halted svc t (tick w)
  = if still_halted svc w t (S (w_clock w)) then (Err SUnavailable, tick (tick w))
    else (Ok tt, past_halt w t).
Proof.
  rewrite check_halted_spec. unfold past_halt, still_halted. cbn.
  by destruct (w_halted w !! t).
Qed.

Lemma write_entry_impl_post w input :
  request_accepted (R := R) svc input → store_wf (w_repo w) → store_fresh (w_uuids w) (w_repo w) →
  Z.of_nat (length (chain (w_ledger w) (wi_entry_type input))) < i64_max →
  ∃ w', write_entry_impl svc input (tick w) = ((spec_write_entry svc w input).1, w')
        ∧ write_post w input w'.
Proof.
  intros Hacc Hwf Hfresh Hlen. pose proof (store_wf_ok _ Hwf) as Hok.
  assert (∀ w', (spec_write_entry svc w input).2 = w_ledger w →
      w_repo w' = w_repo w → w_uuids w' = w_uuids w → w_halted w' = halted_after w input →
      w_sleeps w' = w_sleeps w → write_post w input w') as Hsame
    by (intros; by apply post_unchanged).
  unfold write_entry_impl, spec_write_entry, halted_after in *.
  destruct (check_arguments svc input) as [[]|err] eqn:Hargs; run_M.
  2: { eexists. split; [done|]. apply Hsame; done. }
  rewrite check_halted_tick.
  destruct (still_halted svc w (wi_entry_type input) (S (w_clock w))) eqn:Hhalt.
  { eexists. split; [done|]. by apply Hsame. }
  destruct (past_halt_fields w (wi_entry_type input)) as (Hr & Hu & Hsl & Hh & Hc).
  assert (stored_for_key (past_halt w (wi_entry_type input)) input = stored_for_key w input) as Hkey.
  { unfold stored_for_key, w_ledger. by rewrite Hr. }
  rewrite check_idempotent_spec, Hkey by (by rewrite Hr || by apply accepted_askable).
  destruct (stored_for_key w input) as [existing|] eqn:Hst.
  { destruct (idempotent_request_matches existing input);
      (eexists; split; [done|]; by apply Hsame). }
  destruct (Z.leb_spec (chain_max_retries (svc_config svc)) 0) as [Hm|Hm].
  { rewrite Z2Nat.nonpos by done. cbn [write_loop].
    eexists. split; [done|]. by apply Hsame. }
  destruct (write_loop_post w (set_locks ({[wi_entry_type input]}
    ∪ w_locks (past_halt w (wi_entry_type input))) (past_halt w (wi_entry_type input))) input)
    as (w' & -> & HL & Hwf' & Hn & Hf & Hh' & Hs'); try done.
  eexists. split; [done|]. cbn in Hh', Hs'. rewrite Hh in Hh'. rewrite Hsl in Hs'.
  assert (spec_write_entry svc w input
    = (Ok (output_of_entry (written_entry svc w input)),
       ledger_append (written_entry svc w input) (w_ledger w))) as Hspec.
  { unfold spec_write_entry. rewrite Hargs, Hhalt, Hst.
    by rewrite (proj2 (Z.leb_gt _ _) Hm). }
  split; rewrite ?Hspec; try done.
  - lia.
  - simpl. intros H. by apply ledger_append_ne in H.
  - unfold halted_after. by rewrite Hargs, Hhalt.
Qed.

(** The world around [write_entry_impl]: the duration and the outcome counter. *)
Definition write_done (out : result WriteEntryOutput ServiceError) (start : Z)
    (w : World R) : World R :=
  map_metrics (inc_write_total (write_label out))
    (map_metrics (observe_write (elapsed start (instant_now (w_clock w)))) (tick w)).

Lemma write_entry_eq w input :
  write_entry svc input w
  = let '(out, w') := write_entry_impl svc input (tick w) in
    (out, write_done out (instant_now (w_clock w)) w').
Proof. unfold write_entry. run_M. by destruct (write_entry_impl _ _ _). Qed.

Lemma write_post_done w input out start w' :
  write_post w input w' → write_post w input (write_done out start w').
Proof. by intros []. Qed.

Lemma write_entry_post w input :
  request_accepted (R := R) svc input → store_wf (w_repo w) → store_fresh (w_uuids w) (w_repo w) →
  Z.of_nat (length (chain (w_ledger w) (wi_entry_type input))) < i64_max →
  ∃ w', write_entry svc input w = ((spec_write_entry svc w input).1, w')
        ∧ write_post w input w'.
Proof.
  intros Hacc Hwf Hfresh Hlen. rewrite write_entry_eq.
  destruct (write_entry_impl_post w input) as (w' & -> & Hpost); [done..|].
  eexists. split; [done|]. by apply write_post_done.
Qed.

(** A write appends at most one entry, the one it reports. *)
Lemma spec_write_entry_cases w input :
  (spec_write_entry svc w input).2 = w_ledger w
  ∨ (spec_write_entry svc w input
     = (Ok (output_of_entry (written_entry svc w input)),
        ledger_append (written_entry svc w input) (w_ledger w))
     ∧ stored_for_key w input = None).
Proof. unfold spec_write_entry. repeat case_match; auto. Qed.

Lemma written_entry_valid w input :
  ledger_valid (genesis_hash svc) (w_ledger w) →
  ledger_valid (genesis_hash svc) (ledger_append (written_entry svc w input) (w_ledger w)).
Proof.
  intros Hv t. rewrite chain_append. case_decide as Ht; [|done].
  rewrite links_ok_snoc. split; [done|]. rewrite Ht. by apply entry_fault_None.
Qed.

Lemma written_entry_matches w input :
  idempotent_request_matches (written_entry svc w input) input = true.
Proof. unfold idempotent_request_matches. by rewrite !bool_decide_true. Qed.

(** The comparison covers every field of the request that the key does not. *)
Lemma idempotent_request_matches_inj e input1 input2 :
  wi_entry_type input1 = wi_entry_type input2 →
  wi_idempotency_key input1 = wi_idempotency_key input2 →
  idempotent_request_matches e input1 = true → idempotent_request_matches e input2 = true →
  input1 = input2.
Proof.
  unfold idempotent_request_matches. rewrite !andb_true_iff, !bool_decide_eq_true.
  intros. destruct_and?. destruct input1, input2; simpl in *. congruence.
Qed.

Lemma service_fresh w : service_inv svc w → store_fresh (w_uuids w) (w_repo w).
Proof.
  intros Hinv. by apply (si_uuids _ _ Hinv).
Qed.

Lemma service_inv_step w input :
  Inj (=) (=) (uuid_v4 : nat → Uuid) → request_accepted (R := R) svc input →
  service_inv svc w →
  Z.of_nat (length (chain (w_ledger w) (wi_entry_type input))) < i64_max →
  ∃ w', write_entry svc input w = ((spec_write_entry svc w input).1, w')
        ∧ service_inv svc w' ∧ ledger_extends (w_ledger w) (w_ledger w')
        ∧ ∀ t, (length (chain (w_ledger w') t) ≤ S (length (chain (w_ledger w) t)))%nat.
Proof.
  intros Hinj Hacc Hinv Hlen.
  destruct (write_entry_post w input) as (w' & -> & Hpost);
    [done|apply Hinv|by apply service_fresh|done|].
  exists w'. split; [done|].
  assert (∀ m, (w_uuids w' ≤ m)%nat → store_fresh m (w_repo w')) as Hf.
  { intros m Hm. apply (wp_fresh _ _ _ Hpost Hinj m Hm), (si_uuids _ _ Hinv).
    pose proof (wp_uuids _ _ _ Hpost). lia. }
  destruct (spec_write_entry_cases w input) as [Hs|[Hs _]];
    pose proof (wp_ledger _ _ _ Hpost) as HL; rewrite Hs in HL.
  - split; [split|rewrite HL; auto with ledger]; [|rewrite HL|done]; [apply (wp_wf _ _ _ Hpost)|apply Hinv].
  - simpl in HL. split; [split|]; [..|done|].
    + apply (wp_wf _ _ _ Hpost).
    + rewrite HL. apply written_entry_valid, Hinv.
    + rewrite HL. split; [auto with ledger|]. intros t. rewrite chain_append.
      case_decide; [rewrite length_app; simpl; lia|lia].
Qed.

(** After a successful write with a key, the entry it reports is stored for it. *)
Lemma write_stored w w1 input out key :
  request_accepted (R := R) svc input → store_wf (w_repo w) → store_fresh (w_uuids w) (w_repo w) →
  Z.of_nat (length (chain (w_ledger w) (wi_entry_type input))) < i64_max →
  wi_idempotency_key input = Some key → write_entry svc input w = (Ok out, w1) →
  ∃ e, check_arguments svc input = Ok tt ∧ store_wf (w_repo w1)
       ∧ w_halted w1 !! wi_entry_type input = None
       ∧ stored_for_key w1 input = Some e ∧ idempotent_request_matches e input = true
       ∧ output_of_entry e = out.
Proof.
  intros Hacc Hwf Hfresh Hlen Hkey Hw.
  destruct (write_entry_post w input Hacc Hwf Hfresh Hlen) as (w' & Hw' & [HL Hwf1 _ _ Hs Hh _]).
  rewrite Hw in Hw'. injection Hw' as Hout <-.
  unfold halted_after in Hh. unfold spec_write_entry in *. unfold stored_for_key.
  destruct (check_arguments svc input) as [[]|]; [|done].
  destruct (still_halted _ _ _ _); [done|].
  assert (w_halted w1 !! wi_entry_type input = None) as Hnone
    by (rewrite Hh; apply lookup_delete_eq).
  destruct (stored_for_key w input) as [existing|] eqn:Hst.
  - exists existing. destruct (idempotent_request_matches existing input) eqn:E; [|done].
    simpl in HL, Hout. rewrite HL. injection Hout as ->. by repeat split.
  - destruct (_ <=? _); [done|]. simpl in HL, Hout. injection Hout as ->.
    exists (written_entry svc w input). repeat split; try done.
    + rewrite Hkey. simpl. apply spec_idempotent_elem.
      * by apply store_keys.
      * rewrite HL, chain_append, decide_True by done. apply elem_of_app. right. by left.
      * done.
    + apply written_entry_matches.
Qed.

(** A request whose key is stored is answered from the stored entry. *)
Lemma write_entry_stored w input e :
  store_ok (w_repo w) → askable (R := R) input → check_arguments svc input = Ok tt →
  w_halted w !! wi_entry_type input = None → stored_for_key w input = Some e →
  ∃ w', write_entry svc input w
        = (if idempotent_request_matches e input then Ok (output_of_entry e)
           else Err (SAlreadyExists idempotency_message), w')
        ∧ w_repo w' = w_repo w.
Proof.
  intros Hok Hask Hargs Hh Hst. rewrite write_entry_eq. unfold write_entry_impl. rewrite Hargs. run_M.
  rewrite check_halted_tick. unfold still_halted, past_halt. rewrite Hh.
  rewrite check_idempotent_spec by done.
  change (stored_for_key (tick w) input) with (stored_for_key w input). rewrite Hst.
  destruct (idempotent_request_matches e input); eexists; split; done.
Qed.
End WriteLemmas.

(** * Properties *)

Section WriteProperties.
Context {P : Platform} {PL : PlatformLaws P} {R Pub : Type}.
Context `{!LedgerRepository R, !LedgerStore R, !LedgerStoreLaws R, !EventPublisher Pub}.
Context (svc : ImmutableLedgerService Pub).

(** C1: [write_entry] refines [spec_write_entry]: over any repository that keeps
    the contract and accepts the request, when the next identifier is fresh and the chain has room, the
    call returns the specified result, the ledger afterwards is the specified
    one, the contract still holds, no retry slept and, when nothing was
    appended, the repository's state is the very same. *)
Theorem write_entry_refines (w : World R) (input : WriteEntryInput) :
  request_accepted (R := R) svc input → store_wf (w_repo w) → store_fresh (w_uuids w) (w_repo w) →
  Z.of_nat (length (chain (w_ledger w) (wi_entry_type input))) < i64_max →
  let '(out, w') := write_entry svc input w in
  (out, w_ledger w') = spec_write_entry svc w input ∧ store_wf (w_repo w')
  ∧ w_sleeps w' = w_sleeps w ∧ w_halted w' = halted_after svc w input
  ∧ (w_ledger w' = w_ledger w → w_repo w' = w_repo w).
Proof.
  intros Hacc Hwf Hfresh Hlen.
  destruct (write_entry_post svc w input Hacc Hwf Hfresh Hlen) as (w' & -> & [HL Hw _ _ Hs Hh Hsl]).
  repeat split; try done.
  - rewrite HL. by destruct (spec_write_entry svc w input).
  - intros H. apply Hs. congruence.
Qed.

(** C2: a ledger written only through the service is always valid: after any
    sequence of writes the repository can store (answered, refused or replayed)
    starting from a service
    whose ledger is valid, every chain still verifies from the genesis hash, its
    positions are 1, 2, ..., and nothing that was in the ledger has changed or
    moved (the ledger is append-only). *)
Theorem write_sequence_keeps_ledger (inputs : list WriteEntryInput) (w : World R) :
  Inj (=) (=) (uuid_v4 : nat → Uuid) → Forall (request_accepted (R := R) svc) inputs →
  service_inv svc w → chains_below (i64_max - Z.of_nat (length inputs)) w →
  let w' := (run_writes svc inputs w).2 in
  service_inv svc w' ∧ ledger_dense (w_ledger w') ∧ ledger_extends (w_ledger w) (w_ledger w').
Proof.
  intros Hinj Hacc. revert w. induction Hacc as [|input inputs Hi _ IH]; intros w Hinv Hlen; simpl.
  { split; [done|]. split; [apply store_dense, Hinv|auto with ledger]. }
  destruct (service_inv_step svc w input) as (w' & -> & Hinv' & Hext & Hgrow); [done..| |].
  { specialize (Hlen (wi_entry_type input)). simpl in Hlen. lia. }
  destruct (run_writes svc inputs w') as [outs w''] eqn:E. simpl.
  specialize (IH w' Hinv'). rewrite E in IH. destruct IH as (? & ? & ?).
  { intros t. specialize (Hlen t). specialize (Hgrow t). simpl in Hlen. lia. }
  split; [done|]. split; [done|]. by trans (w_ledger w').
Qed.

(** C18: a retried request is answered with the first answer: over a repository
    that keeps its contract and has fresh identifiers, take a request it can store
    as it is sent ([request_accepted]: over PostgreSQL, texts that fit their
    columns without being cut), on a chain with room for an entry.  After a
    successful write of it that carried an idempotency key, the same request
    returns the same output and leaves the repository untouched, whatever the
    clock says.  *)
Theorem idempotent_replay (w w1 : World R) (input : WriteEntryInput) out key :
  request_accepted (R := R) svc input → store_wf (w_repo w) → store_fresh (w_uuids w) (w_repo w) →
  Z.of_nat (length (chain (w_ledger w) (wi_entry_type input))) < i64_max →
  wi_idempotency_key input = Some key → write_entry svc input w = (Ok out, w1) →
  ∃ w2, write_entry svc input w1 = (Ok out, w2) ∧ w_repo w2 = w_repo w1.
Proof.
  intros Hacc Hwf Hfresh Hlen Hkey Hw.
  destruct (write_stored svc w w1 input out key) as (e & Hargs & Hwf1 & Hh & Hst & Hm & Ho); [done..|].
  destruct (write_entry_stored svc w1 input e) as (w2 & -> & Hr);
    [by apply store_wf_ok|by eapply accepted_askable|done..|].
  exists w2. by rewrite Hm, Ho.
Qed.

(** C19: an idempotency key cannot be reused for something else: over a repository
    that keeps its contract and has fresh identifiers, after a successful write
    that carried a key, of a request the repository can store as it is sent
    ([request_accepted]: over PostgreSQL, texts that fit their columns without
    being cut) on a chain with room for it, any request for the same chain with
    the same key and any other field different, whose arguments are valid
    (required fields, content size), is refused with AlreadyExists and leaves the
    repository untouched.  *)
Theorem idempotency_key_reuse_refused (w w1 : World R) (input input' : WriteEntryInput) out key :
  request_accepted (R := R) svc input → store_wf (w_repo w) → store_fresh (w_uuids w) (w_repo w) →
  Z.of_nat (length (chain (w_ledger w) (wi_entry_type input))) < i64_max →
  wi_idempotency_key input = Some key → write_entry svc input w = (Ok out, w1) →
  wi_entry_type input' = wi_entry_type input → wi_idempotency_key input' = Some key →
  check_arguments svc input' = Ok tt → input' ≠ input →
  ∃ w2, write_entry svc input' w1 = (Err (SAlreadyExists idempotency_message), w2)
        ∧ w_repo w2 = w_repo w1.
Proof.
  intros Hacc Hwf Hfresh Hlen Hkey Hw Htype Hkey' Hargs' Hne.
  destruct (write_stored svc w w1 input out key) as (e & Hargs & Hwf1 & Hh & Hst & Hm & Ho); [done..|].
  destruct (write_entry_stored svc w1 input' e) as (w2 & -> & Hr);
    [by apply store_wf_ok| |done|by rewrite Htype| |].
  { destruct (accepted_askable svc input Hacc) as [Ht Hk]. split; [by rewrite Htype|].
    intros k. rewrite Hkey'. intros [= <-]. by apply Hk. }
  { unfold stored_for_key in *. by rewrite Hkey', Htype, <- Hkey. }
  exists w2. split; [|done]. destruct (idempotent_request_matches e input') eqn:E; [|done].
  destruct Hne. eapply idempotent_request_matches_inj; [..|exact E|exact Hm]; congruence.
Qed.

(** A request with missing fields or oversized content is refused before
    anything happens: the error is InvalidArgument, and the only trace is the
    duration metric and one count under the label "invalid". *)
Theorem invalid_request_no_effect (w : World R) (input : WriteEntryInput) :
  (wi_entry_type input = "" ∨ wi_agent_id input = "" ∨ wi_content_type input = ""
   ∨ wi_source_id input = ""
   ∨ max_content_size_bytes (svc_config svc) < Z.of_nat (length (wi_content input)))
  → ∃ message, write_entry svc input w
    = (Err (SInvalidArgument message),
       map_metrics (inc_write_total "invalid")
         (map_metrics (observe_write (elapsed (instant_now (w_clock w))
                                        (instant_now (S (w_clock w))))) (tick (tick w)))).
Proof.
  intros Hbad.
  assert (∃ e, check_arguments svc input = Err e) as [e He].
  { unfold check_arguments, required_fields_present. rewrite negb_involutive.
    destruct (is_empty (wi_entry_type input)) eqn:E1; [by eexists|].
    destruct (is_empty (wi_agent_id input)) eqn:E2; [by eexists|].
    destruct (is_empty (wi_content_type input)) eqn:E3; [by eexists|].
    destruct (is_empty (wi_source_id input)) eqn:E4; [by eexists|].
    rewrite is_empty_false in *. simpl.
    destruct (Z.ltb_spec (max_content_size_bytes (svc_config svc))
                (Z.of_nat (length (wi_content input)))); [by eexists|].
    destruct Hbad as [?|[?|[?|[?|?]]]]; try done. lia. }
  pose proof (check_arguments_error svc input e He) as [message ->]. exists message.
  rewrite write_entry_eq. unfold write_entry_impl. rewrite He. done.
Qed.

(** A halted chain refuses writes until its recovery time has passed: while
    it has not, a well-formed request gets Unavailable without touching the
    repository, the halt table or the locks. *)
Theorem halted_chain_unavailable (w : World R) (input : WriteEntryInput) halted_at :
  check_arguments svc input = Ok tt → w_halted w !! wi_entry_type input = Some halted_at →
  instant_now (S (w_clock w)) - halted_at
    < seconds (chain_halt_recovery_seconds (svc_config svc)) →
  0 < chain_halt_recovery_seconds (svc_config svc) →
  ∃ w', write_entry svc input w = (Err SUnavailable, w')
        ∧ w_repo w' = w_repo w ∧ w_halted w' = w_halted w ∧ w_locks w' = w_locks w
        ∧ w_uuids w' = w_uuids w.
Proof.
  intros Hargs Hh Hel Hrec. rewrite write_entry_eq. unfold write_entry_impl. rewrite Hargs. run_M.
  rewrite check_halted_tick. unfold still_halted. rewrite Hh.
  rewrite (proj2 (Z.ltb_lt _ _)) by (unfold elapsed, seconds in *; lia).
  eexists. split; [done|]. done.
Qed.
End WriteProperties.

(** * Witnesses *)

#[local] Existing Instance Toy.platform.
#[local] Existing Instance Toy.laws.

Lemma demo_accepted input : request_accepted (R := Inner) demo_service input.
Proof. by intros ??. Qed.

Lemma demo_empty_inv : service_inv demo_service demo_empty.
Proof.
  split.
  - apply inner_default_wf.
  - intros t. unfold w_ledger. by rewrite demo_empty_chain.
  - intros m _. apply demo_empty_fresh.
Qed.

(** The answer to the first request. *)
Definition demo_out : WriteEntryOutput :=
  output_of_entry (written_entry demo_service demo_empty demo_request).

Lemma demo_write : write_entry demo_service demo_request demo_empty = (Ok demo_out, demo_one).
Proof.
  unfold demo_one. rewrite (surjective_pairing (write_entry _ _ _)) at 1. f_equal.
Qed.

Lemma demo_one_inv : service_inv demo_service demo_one.
Proof.
  destruct (service_inv_step demo_service demo_empty demo_request demo_uuid_inj
              (demo_accepted demo_request) demo_empty_inv)
    as (w' & Hw & Hinv & _); [by_compute|].
  apply (f_equal snd) in Hw. cbn [snd] in Hw. unfold demo_one. by rewrite Hw.
Qed.

Lemma write_entry_refines_witness :
  let '(out, w') := write_entry demo_service demo_request demo_empty in
  (out, w_ledger w') = spec_write_entry demo_service demo_empty demo_request
  ∧ store_wf (w_repo w')
  ∧ w_sleeps w' = w_sleeps demo_empty ∧ w_halted w' = halted_after demo_service demo_empty demo_request
  ∧ (w_ledger w' = w_ledger demo_empty → w_repo w' = w_repo demo_empty).
Proof.
  refine (write_entry_refines demo_service demo_empty demo_request _ _ _ _);
    [apply demo_accepted|apply inner_default_wf|apply demo_empty_fresh|by_compute].
Defined.

Lemma write_sequence_keeps_ledger_witness :
  let w' := (run_writes demo_service [demo_request; demo_request; demo_input "" None;
               demo_input "b" None] demo_empty).2 in
  service_inv demo_service w' ∧ ledger_dense (w_ledger w')
  ∧ ledger_extends (w_ledger demo_empty) (w_ledger w').
Proof.
  apply (write_sequence_keeps_ledger demo_service
           [demo_request; demo_request; demo_input "" None; demo_input "b" None] demo_empty);
    [apply demo_uuid_inj|by repeat constructor|apply demo_empty_inv|].
  intros t. by_compute.
Defined.

Lemma idempotent_replay_witness :
  ∃ w2, write_entry demo_service demo_request demo_one = (Ok demo_out, w2)
        ∧ w_repo w2 = w_repo demo_one.
Proof.
  apply (idempotent_replay demo_service demo_empty demo_one demo_request demo_out "k");
    [apply demo_accepted|apply inner_default_wf|apply demo_empty_fresh|by_compute|by_compute|apply demo_write].
Defined.

Lemma idempotency_key_reuse_refused_witness :
  ∃ w2, write_entry demo_service (demo_input "b" (Some "k")) demo_one
        = (Err (SAlreadyExists idempotency_message), w2) ∧ w_repo w2 = w_repo demo_one.
Proof.
  apply (idempotency_key_reuse_refused demo_service demo_empty demo_one demo_request
           (demo_input "b" (Some "k")) demo_out "k");
    [apply demo_accepted|apply inner_default_wf|apply demo_empty_fresh|by_compute|by_compute|apply demo_write|by_compute..|].
  discriminate.
Defined.

Lemma invalid_request_no_effect_witness :
  ∃ message, write_entry demo_service (demo_input "" None) demo_empty
    = (Err (SInvalidArgument message),
       map_metrics (inc_write_total "invalid")
         (map_metrics (observe_write (elapsed (instant_now 0) (instant_now 1)))
            (tick (tick demo_empty)))).
Proof.
  apply (invalid_request_no_effect demo_service demo_empty (demo_input "" None)).
  right. left. by_compute.
Defined.

Lemma halted_chain_unavailable_witness :
  let w := set_halted {["t" := 0]} demo_empty in
  ∃ w', write_entry demo_service demo_request w = (Err SUnavailable, w')
        ∧ w_repo w' = w_repo w ∧ w_halted w' = w_halted w ∧ w_locks w' = w_locks w
        ∧ w_uuids w' = w_uuids w.
Proof.
  apply (halted_chain_unavailable demo_service (set_halted {["t" := 0]} demo_empty)
           demo_request 0); by_compute.
Defined.
