(* ===== verification/Concurrency.v ===== *)
(** * Concurrent writes: [write_entry_impl] under its per-chain lock

    Service models a call that runs alone.  Here the method is cut at its
    [await] points into the phases of a thread ([Phase]); [advance] is the code
    between two of them, built from the very pieces [write_entry_impl] is made of,
    and [phases_are_write_entry] shows that a thread left to itself computes
    [write_entry_impl].  [step] interleaves any number of threads over one shared
    [World]: a thread advances, or takes the lock of its chain when it is free;
    the guard is dropped when the method returns, and when the caller goes away
    ([step_cancel]: the server drops the future at an [await] point).  A [COMMIT]
    that was sent by then is carried out all the same, and perhaps only after the
    guard was dropped: [step_cancel_late] leaves the append behind in the phase
    [Committing], and [step_land] carries it out.  (Until then its transaction has
    the advisory lock of the chain, so that what it checked still holds.)  Calls
    arrive at any time ([step_call]), and other processes that share the
    repository append to it as well ([step_other]: the tip they read is the
    current one, since a repository refuses the other appends).  This file holds
    what is true over any repository: mutual exclusion, and that the calls never
    wait for each other for good.  ConcurrentWrites holds what needs the
    repository's contract.

    The lock is the [tokio::sync::Mutex] of [chain_locks]: [c_owner] is who holds
    the guard of a chain.  Its queue is not modelled: any waiter may be next. *)

From Stdlib Require Import String Strings.Byte ZArith Lia.
From stdpp Require Import base tactics numbers strings list gmap sorting relations.
From S2P Require Import Prelude Platform Crypto Repository Config World Service LedgerSpec.
From S2P Require Import InMemory Chain Examples ServiceWrite.

Section Threads.
Context {P : Platform} {R Pub : Type} `{!LedgerRepository R} `{!EventPublisher Pub}.
Context (svc : ImmutableLedgerService Pub).

(** Where a call of [write_entry_impl] is: the [await] it resumes at. *)
Inductive Phase : Type :=
| AtStart
| AtRemove                                        (* an expired halt is to be removed *)
| AtKey                                           (* the idempotency check *)
| AtLock                                          (* chain_lock.lock().await *)
| AtTip (attempt : Z)
| AtWrite (attempt : Z) (previous_hash : string)
| AtConflict                                      (* the lookup after a conflict *)
| AtHalt                                          (* the chain is to be halted *)
| Committing (previous_hash : string) (written_ts : DateTime)
                                                  (* dropped, its COMMIT under way *)
| Finished (res : result WriteEntryOutput ServiceError).

(** From one [await] to the next. *)
Definition advance (input : WriteEntryInput) (phase : Phase) : M R Phase :=
  let t := wi_entry_type input in
  let max_retries := chain_max_retries (svc_config svc) in
  match phase with
  | AtStart =>
      match check_arguments svc input with
      | Err e => ret (Finished (Err e))
      | Ok _ =>
          let! halted := gets w_halted in
          match halted !! t with
          | None => ret AtKey
          | Some halted_at =>
              let! now := instant in
              if elapsed halted_at now <? seconds (chain_halt_recovery_seconds (svc_config svc))
              then ret (Finished (Err SUnavailable))
              else ret AtRemove
          end
      end
  | AtRemove =>
      let! _ := modify (λ w, set_halted (delete t (w_halted w)) w) in ret AtKey
  | AtKey =>
      let! existing := check_idempotent input in
      match existing with
      | Err e => ret (Finished (Err e))
      | Ok (Some output) => ret (Finished (Ok output))
      | Ok None =>
          let! _ := modify (λ w, set_locks ({[t]} ∪ w_locks w) w) in ret AtLock
      end
  | AtLock => ret AtLock
  | AtTip attempt =>
      if attempt <? max_retries then
        let! tip := call (get_chain_tip t) in
        match tip with
        | Ok tip => ret (AtWrite attempt (ct_hash tip))
        | Err NotFound => ret (AtWrite attempt (genesis_hash svc))
        | Err err => ret (Finished (Err (map_repo err)))
        end
      else ret (Finished (Err (SInternal integrity_message)))
  | AtWrite attempt previous_hash =>
      let! written_ts := utc in
      let! written :=
        call_write (entry_write_input input previous_hash written_ts (create_outbox svc)) in
      match written with
      | Ok result =>
          let! _ := metric (observe_retries attempt) in
          ret (Finished (Ok (output_of_entry (wr_entry result))))
      | Err ChainIntegrityViolation =>
          if attempt + 1 <? max_retries then
            let! _ := sleep (backoff attempt) in ret (AtTip (attempt + 1))
          else ret AtHalt
      | Err IdempotencyConflict =>
          match wi_idempotency_key input with
          | None => ret (Finished (Err (SAlreadyExists idempotency_message)))
          | Some _ => ret AtConflict
          end
      | Err err => ret (Finished (Err (map_repo err)))
      end
  | AtConflict => let! res := on_idempotency_conflict input in ret (Finished res)
  | AtHalt =>
      let! now := instant in
      let! _ := modify (λ w, set_halted (<[t := now]> (w_halted w)) w) in
      ret (Finished (Err (SInternal integrity_message)))
  | Committing previous_hash written_ts => ret (Committing previous_hash written_ts)
  | Finished res => ret (Finished res)
  end.

(** The method has returned, or was dropped. *)
Definition is_finished (phase : Phase) : bool :=
  match phase with Finished _ | Committing _ _ => true | _ => false end.

(** Does the thread hold the guard of its chain? *)
Definition holds_lock (phase : Phase) : bool :=
  match phase with
  | AtTip _ | AtWrite _ _ | AtConflict | AtHalt => true
  | _ => false
  end.

(** A thread on its own: the lock is free when it asks for it. *)
Fixpoint run_alone (fuel : nat) (input : WriteEntryInput) (phase : Phase) : M R Phase :=
  match fuel with
  | O => ret phase
  | S fuel' =>
      match phase with
      | AtLock => run_alone fuel' input (AtTip 0)
      | _ => let! phase' := advance input phase in run_alone fuel' input phase'
      end
  end.

(** ** Many threads *)

Record Thread := { th_input : WriteEntryInput; th_phase : Phase }.

Record Config := {
  c_world : World R;
  c_owner : gmap string nat;         (* who holds the guard of a chain *)
  c_threads : gmap nat Thread
}.

Definition th_chain (th : Thread) : string := wi_entry_type (th_input th).

Definition set_phase (phase : Phase) (th : Thread) : Thread :=
  {| th_input := th_input th; th_phase := phase |}.

(** The guard is dropped when the method returns. *)
Definition release (th : Thread) (phase : Phase) (owner : gmap string nat) : gmap string nat :=
  if holds_lock (th_phase th) && is_finished phase then delete (th_chain th) owner else owner.

(** What the threads do of their own accord: every scheduler picks such steps. *)
Inductive own_step : Config → Config → Prop :=
| step_advance c i th phase w :
    c_threads c !! i = Some th →
    th_phase th ≠ AtLock → is_finished (th_phase th) = false →
    advance (th_input th) (th_phase th) (c_world c) = (phase, w) →
    own_step c {| c_world := w;
                  c_owner := release th phase (c_owner c);
                  c_threads := <[i := set_phase phase th]> (c_threads c) |}
| step_lock c i th :
    c_threads c !! i = Some th → th_phase th = AtLock →
    c_owner c !! th_chain th = None →
    own_step c {| c_world := c_world c;
                  c_owner := <[th_chain th := i]> (c_owner c);
                  c_threads := <[i := set_phase (AtTip 0) th]> (c_threads c) |}.

(** The guard a dropped future held, if any, is dropped with it. *)
Definition abandon (th : Thread) (owner : gmap string nat) : gmap string nat :=
  if holds_lock (th_phase th) then delete (th_chain th) owner else owner.

(** The server as a whole: [calls] are the requests that may arrive, [others] the
    ones that may be written without the guard of their chain: by other processes
    that share the repository, and by calls that were dropped during their
    [COMMIT]. *)
Inductive step (calls others : WriteEntryInput → Prop) : Config → Config → Prop :=
| step_own c c' : own_step c c' → step calls others c c'
| step_call c i input :
    calls input → c_threads c !! i = None →
    step calls others c {| c_world := c_world c; c_owner := c_owner c;
                           c_threads := <[i := {| th_input := input; th_phase := AtStart |}]>
                                          (c_threads c) |}
| step_cancel c i th :
    c_threads c !! i = Some th → is_finished (th_phase th) = false →
    step calls others c {| c_world := c_world c; c_owner := abandon th (c_owner c);
                           c_threads := delete i (c_threads c) |}
| step_cancel_late c i th attempt previous_hash written_ts w :
    c_threads c !! i = Some th → th_phase th = AtWrite attempt previous_hash →
    others (th_input th) → utc (c_world c) = (written_ts, w) →
    step calls others c {| c_world := w; c_owner := abandon th (c_owner c);
                           c_threads := <[i := set_phase (Committing previous_hash written_ts) th]>
                                          (c_threads c) |}
| step_land c i th previous_hash written_ts written w :
    c_threads c !! i = Some th → th_phase th = Committing previous_hash written_ts →
    call_write (entry_write_input (th_input th) previous_hash written_ts (create_outbox svc))
      (c_world c) = (written, w) →
    step calls others c {| c_world := w; c_owner := c_owner c;
                           c_threads := delete i (c_threads c) |}
| step_other c input phase w phase' w' :
    others input →
    advance input (AtTip 0) (c_world c) = (phase, w) → advance input phase w = (phase', w') →
    step calls others c {| c_world := set_repo_uuids (w_repo w') (w_uuids w') (tick (c_world c));
                           c_owner := c_owner c; c_threads := c_threads c |}.

(** The thread [i] takes its turn, if it can: [own_step] as a function. *)
Definition take_turn (i : nat) (c : Config) : Config :=
  match c_threads c !! i with
  | None => c
  | Some th =>
      match th_phase th with
      | Finished _ | Committing _ _ => c
      | AtLock =>
          match c_owner c !! th_chain th with
          | Some _ => c
          | None => {| c_world := c_world c;
                       c_owner := <[th_chain th := i]> (c_owner c);
                       c_threads := <[i := set_phase (AtTip 0) th]> (c_threads c) |}
          end
      | _ =>
          let '(phase, w) := advance (th_input th) (th_phase th) (c_world c) in
          {| c_world := w; c_owner := release th phase (c_owner c);
             c_threads := <[i := set_phase phase th]> (c_threads c) |}
      end
  end.

Definition run_turns (turns : list nat) (c : Config) : Config :=
  foldl (λ c i, take_turn i c) c turns.

(** A server that has just been started over a world, and one that has received
    some calls. *)
Definition server_init (w : World R) : Config :=
  {| c_world := w; c_owner := ∅; c_threads := ∅ |}.

Fixpoint receive (i : nat) (inputs : list WriteEntryInput) (c : Config) : Config :=
  match inputs with
  | [] => c
  | input :: inputs' =>
      receive (S i) inputs'
        {| c_world := c_world c; c_owner := c_owner c;
           c_threads := <[i := {| th_input := input; th_phase := AtStart |}]> (c_threads c) |}
  end.

(** The steps a phase has at most before it; [k] is the number of attempts left. *)
Definition phase_work (phase : Phase) : nat :=
  let left attempt := Z.to_nat (chain_max_retries (svc_config svc) - attempt) in
  match phase with
  | Finished _ | Committing _ _ => 0
  | AtHalt | AtConflict => 1
  | AtWrite attempt _ => 2 * left attempt + 2
  | AtTip attempt => 2 * left attempt + 3
  | AtLock => 2 * left 0 + 4
  | AtKey => 2 * left 0 + 5
  | AtRemove => 2 * left 0 + 6
  | AtStart => 2 * left 0 + 7
  end.

Definition thread_work (th : Thread) : nat := phase_work (th_phase th).

Definition work (c : Config) : nat := sum_list (thread_work ∘ snd <$> map_to_list (c_threads c)).

(** Every call has returned, or was dropped. *)
Definition all_finished (c : Config) : Prop :=
  ∀ i th, c_threads c !! i = Some th → is_finished (th_phase th) = true.

(** The guard of a chain is held by the one thread that is between the lock and
    its release. *)
Definition locks_ok (c : Config) : Prop :=
  ∀ t i, c_owner c !! t = Some i ↔
    ∃ th, c_threads c !! i = Some th ∧ th_chain th = t ∧ holds_lock (th_phase th) = true.
End Threads.
Arguments Config {P} R.

(** * Lemmas *)

(** ** A thread on its own is [write_entry_impl] *)

Section Alone.
Context {P : Platform} {R Pub : Type} `{!LedgerRepository R} `{!EventPublisher Pub}.
Context (svc : ImmutableLedgerService Pub).
Implicit Types (w : World R) (input : WriteEntryInput).

Lemma run_alone_finished fuel input res w :
  run_alone svc fuel input (Finished res) w = (Finished res, w).
Proof. induction fuel as [|fuel IH]; [done|]. simpl. unfold mbind_M, ret. apply IH. Qed.

Lemma run_alone_step fuel input phase w :
  phase ≠ AtLock →
  run_alone svc (S fuel) input phase w
  = let '(phase', w') := advance svc input phase w in run_alone svc fuel input phase' w'.
Proof. by destruct phase. Qed.

Definition finishing {A} (r : A * World R) (f : A → Phase) : Phase * World R := (f r.1, r.2).

Lemma run_alone_loop k fuel input attempt w :
  Z.of_nat k = Z.max 0 (chain_max_retries (svc_config svc) - attempt) → (2 * k + 1 < fuel)%nat →
  run_alone svc fuel input (AtTip attempt) w
  = finishing (write_loop svc input (chain_max_retries (svc_config svc)) k attempt w) Finished.
Proof.
  revert fuel attempt w. induction k as [|k IH]; intros fuel attempt w Hk Hfuel;
    (destruct fuel as [|fuel]; [lia|]); rewrite run_alone_step by done; simpl advance.
  - rewrite (proj2 (Z.ltb_ge _ _)) by lia. simpl. by rewrite run_alone_finished.
  - rewrite (proj2 (Z.ltb_lt _ _)) by lia. cbn [write_loop]. unfold mbind_M.
    destruct (call (get_chain_tip (wi_entry_type input)) w) as [tip w1].
    set (previous := match tip with Ok tip => Ok (ct_hash tip) | Err NotFound => _
                     | Err err => Err (map_repo err) end).
    assert (∃ phase, (match tip with
      | Ok tip => ret (AtWrite attempt (ct_hash tip))
      | Err NotFound => ret (AtWrite attempt (genesis_hash svc))
      | Err err => ret (Finished (Err (map_repo err))) end) w1 = (phase, w1)
      ∧ phase = match previous with Ok h => AtWrite attempt h | Err e => Finished (Err e) end)
      as (phase & -> & ->) by (unfold previous; destruct tip as [tip|[]]; by eexists).
    destruct previous as [h|e]; [|by rewrite run_alone_finished].
    destruct fuel as [|fuel]; [lia|]. rewrite run_alone_step by done. simpl advance.
    unfold mbind_M. destruct (utc w1) as [ts w2].
    destruct (call_write _ w2) as [[out|[]] w3]; simpl; try by rewrite run_alone_finished.
    + destruct (_ <? _) eqn:Hm.
      * unfold ret at 1. rewrite IH by lia. done.
      * unfold ret at 1. destruct fuel as [|fuel]; [lia|]. rewrite run_alone_step by done. simpl.
        by rewrite run_alone_finished.
    + unfold on_idempotency_conflict. destruct (wi_idempotency_key input) as [key|] eqn:Hkey.
      * unfold ret at 1. destruct fuel as [|fuel]; [lia|]. rewrite run_alone_step by done. simpl.
        unfold on_idempotency_conflict, mbind_M. rewrite Hkey.
        destruct (call _ w3) as [res w4].
        destruct (map_err map_repo res) as [[e|]|]; [destruct (idempotent_request_matches e input)|..];
          cbv beta iota delta [ret]; by rewrite run_alone_finished.
      * cbv beta iota delta [ret]. by rewrite run_alone_finished.
Qed.

(** The phases are the method: a thread left to itself - nobody else takes a
    turn - returns what [write_entry_impl] returns and leaves the same world, given
    as many turns as the configured attempts need. *)
Theorem phases_are_write_entry fuel input w :
  (2 * Z.to_nat (chain_max_retries (svc_config svc)) + 5 < fuel)%nat →
  run_alone svc fuel input AtStart w = finishing (write_entry_impl svc input w) Finished.
Proof.
  intros Hfuel. destruct fuel as [|fuel]; [lia|]. rewrite run_alone_step by done.
  unfold write_entry_impl, check_halted. simpl advance.
  destruct (check_arguments svc input) as [[]|e]; run_M; [|by rewrite run_alone_finished].
  assert (∀ w1 fuel, (2 * Z.to_nat (chain_max_retries (svc_config svc)) + 3 < fuel)%nat →
    run_alone svc fuel input AtKey w1
    = finishing ((let?! existing := check_idempotent input in
       match existing with
       | Some output => ret (Ok output)
       | None =>
           let! _ := modify (λ w, set_locks ({[wi_entry_type input]} ∪ w_locks w) w) in
           write_loop svc input (chain_max_retries (svc_config svc))
             (Z.to_nat (chain_max_retries (svc_config svc))) 0
       end) w1) Finished) as Hkey.
  { clear fuel Hfuel. intros w1 fuel Hfuel. destruct fuel as [|fuel]; [lia|].
    rewrite run_alone_step by done. simpl advance. run_M.
    destruct (check_idempotent input w1) as [[[output|]|e] w2];
      [by rewrite run_alone_finished| |by rewrite run_alone_finished].
    destruct fuel as [|fuel]; [lia|]. cbn [run_alone]. apply run_alone_loop; lia. }
  destruct (w_halted w !! wi_entry_type input) as [h|].
  - destruct (_ <? _); [by rewrite run_alone_finished|].
    destruct fuel as [|fuel]; [lia|]. rewrite run_alone_step by done. simpl advance. run_M.
    by rewrite Hkey by lia.
  - by rewrite Hkey by lia.
Qed.
End Alone.

(** ** Locks and progress, over any repository *)

Lemma rtc_invariant {A : Type} (Rel : relation A) (Q : A → Prop) x y :
  (∀ x y, Q x → Rel x y → Q y) → rtc Rel x y → Q x → Q y.
Proof. intros Hstep. induction 1; eauto. Qed.

Section Progress.
Context {P : Platform} {R Pub : Type} `{!LedgerRepository R} `{!EventPublisher Pub}.
Context (svc : ImmutableLedgerService Pub).
Implicit Types (w : World R) (c : Config R).

(** [advance] by cases: which phases can follow which. *)
Ltac advance_cases :=
  cbn [advance]; run_M; unfold check_idempotent, on_idempotency_conflict; run_M;
  repeat case_match; intros; simplify_eq; simpl; try done.

(** The guard is held until the method returns, and [advance] never takes one. *)
Lemma advance_lock input phase w phase' w' :
  advance svc input phase w = (phase', w') →
  (holds_lock phase' = true → holds_lock phase = true)
  ∧ (holds_lock phase = true → holds_lock phase' = true ∨ is_finished phase' = true).
Proof. destruct phase; advance_cases; auto. Qed.

Lemma advance_work input phase w phase' w' :
  phase ≠ AtLock → is_finished phase = false →
  advance svc input phase w = (phase', w') → (phase_work svc phase' < phase_work svc phase)%nat.
Proof. intros ? ?. destruct phase; try done; advance_cases; lia. Qed.

Lemma locks_ok_advance c i th phase w :
  locks_ok c → c_threads c !! i = Some th → th_phase th ≠ AtLock →
  is_finished (th_phase th) = false →
  advance svc (th_input th) (th_phase th) (c_world c) = (phase, w) →
  locks_ok {| c_world := w; c_owner := release th phase (c_owner c);
              c_threads := <[i := set_phase phase th]> (c_threads c) |}.
Proof.
  intros Hc Hi Hnl Hnf [Hl1 Hl2]%advance_lock t j. simpl. unfold release.
  destruct (holds_lock (th_phase th)) eqn:Hh; simpl.
  - assert (c_owner c !! th_chain th = Some i) as Ho by (apply Hc; eauto).
    destruct (is_finished phase) eqn:Hf.
    + rewrite lookup_delete_Some, (Hc t j). split.
      * intros (Ht & thj & Hj & <- & Hhj). exists thj. rewrite lookup_insert_ne; [done|].
        intros <-. rewrite Hi in Hj. by injection Hj as <-.
      * intros (thj & [(-> & <-)|[Hij Hj]]%lookup_insert_Some & <- & Hhj).
        { by destruct phase. }
        split; [|eauto]. intros Heq. apply Hij.
        assert (c_owner c !! th_chain thj = Some j) as Hoj by (apply Hc; eauto).
        rewrite <- Heq, Ho in Hoj. by injection Hoj.
    + rewrite (Hc t j). destruct Hl2 as [Hl2|]; [done| |done].
      destruct (decide (i = j)) as [<-|Hij].
      * rewrite lookup_insert_eq. rewrite Hi. split; intros (? & [= <-] & ? & ?); eauto.
      * by rewrite lookup_insert_ne.
  - rewrite (Hc t j). destruct (decide (i = j)) as [<-|Hij].
    + rewrite lookup_insert_eq, Hi. split; intros (? & [= <-] & ? & Hx); [congruence|].
      apply Hl1 in Hx. congruence.
    + by rewrite lookup_insert_ne.
Qed.

Lemma locks_ok_lock c i th :
  locks_ok c → c_threads c !! i = Some th → th_phase th = AtLock →
  c_owner c !! th_chain th = None →
  locks_ok {| c_world := c_world c; c_owner := <[th_chain th := i]> (c_owner c);
              c_threads := <[i := set_phase (AtTip 0) th]> (c_threads c) |}.
Proof.
  intros Hc Hi Hp Ho t j. simpl. destruct (decide (i = j)) as [<-|Hij].
  - rewrite lookup_insert_eq, lookup_insert_Some, (Hc t i), Hi. split.
    + intros [[<- _]|(Ht & ? & [= <-] & ? & Hx)]; [eauto|by rewrite Hp in Hx].
    + intros (? & [= <-] & <- & _). by left.
  - rewrite lookup_insert_Some, (lookup_insert_ne (c_threads c)), (Hc t j) by done.
    split; [naive_solver|]. intros (thj & Hj & <- & Hx). right. split; [|eauto].
    intros Heq. assert (c_owner c !! th_chain thj = Some j) by (apply Hc; eauto).
    congruence.
Qed.

Lemma locks_ok_cancel c i th :
  locks_ok c → c_threads c !! i = Some th →
  locks_ok {| c_world := c_world c; c_owner := abandon th (c_owner c);
              c_threads := delete i (c_threads c) |}.
Proof.
  intros Hc Hi t j. simpl. unfold abandon.
  setoid_rewrite lookup_delete_Some. destruct (holds_lock (th_phase th)) eqn:Hh.
  - assert (c_owner c !! th_chain th = Some i) as Ho by (apply Hc; eauto).
    rewrite lookup_delete_Some, (Hc t j). split.
    + intros (Ht & thj & Hj & <- & Hx). exists thj. split; [|done]. split; [|done].
      intros <-. rewrite Hi in Hj. by injection Hj as <-.
    + intros (thj & [Hij Hj] & <- & Hx). split; [|eauto]. intros Heq.
      assert (c_owner c !! th_chain thj = Some j) by (apply Hc; eauto). congruence.
  - rewrite (Hc t j). split; [|naive_solver]. intros (thj & Hj & ? & Hx). exists thj.
    split; [|done]. split; [|done]. intros <-. congruence.
Qed.

(** A thread that does not hold a guard changes its phase to another such one, or
    leaves. *)
Lemma locks_ok_idle c i th w threads :
  locks_ok c → c_threads c !! i = Some th → holds_lock (th_phase th) = false →
  threads = delete i (c_threads c) →
  locks_ok {| c_world := w; c_owner := c_owner c; c_threads := threads |}.
Proof.
  intros Hc Hi Hh -> t j. simpl. setoid_rewrite lookup_delete_Some. rewrite (Hc t j).
  split; [|naive_solver]. intros (thj & Hj & ? & Hx). exists thj. split; [|done].
  split; [|done]. intros <-. congruence.
Qed.

Lemma locks_ok_late c i th phase w :
  locks_ok c → c_threads c !! i = Some th → holds_lock phase = false →
  locks_ok {| c_world := w; c_owner := abandon th (c_owner c);
              c_threads := <[i := set_phase phase th]> (c_threads c) |}.
Proof.
  intros Hc Hi Hh t j. pose proof (locks_ok_cancel c i th Hc Hi t j) as Hd. simpl in *. rewrite Hd.
  setoid_rewrite lookup_delete_Some. setoid_rewrite lookup_insert_Some. split; [naive_solver|].
  intros (thj & [[<- <-]|[Hij Hj]] & ? & Hx); [simpl in Hx; congruence|eauto].
Qed.

Lemma locks_ok_own c c' : locks_ok c → own_step svc c c' → locks_ok c'.
Proof.
  intros Hc Hs. destruct Hs as [c i th phase w Hi Hnl Hnf Ha|c i th Hi Hp Ho];
    [by eapply locks_ok_advance|by apply locks_ok_lock].
Qed.

Lemma locks_ok_step calls others c c' : locks_ok c → step svc calls others c c' → locks_ok c'.
Proof.
  intros Hc Hs. destruct Hs as [c c' Hs|c i input _ Hi|c i th Hi _|c i th a h ts w Hi Hp _ _
    |c i th h ts res w Hi Hp _|c input phase w phase' w' _ _ _].
  - by eapply locks_ok_own.
  - intros t j. simpl. rewrite (Hc t j). destruct (decide (i = j)) as [<-|Hij].
    + rewrite lookup_insert_eq, Hi. split; [naive_solver|]. by intros (? & [= <-] & _ & ?).
    + by rewrite lookup_insert_ne.
  - by apply locks_ok_cancel.
  - by apply locks_ok_late.
  - by apply (locks_ok_idle c i th); [..|rewrite Hp|].
  - done.
Qed.

Lemma locks_ok_init w : locks_ok (server_init w).
Proof. intros t i. simpl. setoid_rewrite lookup_empty. naive_solver. Qed.

Lemma sum_work_insert (m : gmap nat Thread) i th th' :
  m !! i = Some th → (thread_work svc th' < thread_work svc th)%nat →
  (sum_list (thread_work svc ∘ snd <$> map_to_list (<[i := th']> m))
   < sum_list (thread_work svc ∘ snd <$> map_to_list m))%nat.
Proof.
  intros Hi Hlt. assert (delete i m !! i = None) as Hd by apply lookup_delete_eq.
  rewrite <- (insert_delete_id m i th Hi) at 2. rewrite <- insert_delete_eq.
  rewrite !map_to_list_insert by done. simpl. lia.
Qed.

(** Every step of a thread uses up some of the work. *)
Lemma own_step_work c c' : own_step svc c c' → (work svc c' < work svc c)%nat.
Proof.
  intros Hs. destruct Hs as [c i th phase w Hi Hnl Hnf Ha|c i th Hi Hp Ho];
    eapply sum_work_insert; try done; unfold thread_work; simpl.
  - by eapply advance_work.
  - rewrite Hp. simpl. lia.
Qed.

(** While a call has not returned, some thread can go on. *)
Lemma own_step_exists c i th :
  locks_ok c → c_threads c !! i = Some th → is_finished (th_phase th) = false →
  ∃ c', own_step svc c c'.
Proof.
  intros Hc Hi Hf.
  assert (∀ j thj, c_threads c !! j = Some thj → th_phase thj ≠ AtLock →
            is_finished (th_phase thj) = false → ∃ c', own_step svc c c') as Hgo.
  { intros j thj Hj Hnl Hnf.
    destruct (advance svc (th_input thj) (th_phase thj) (c_world c)) as [phase w] eqn:Ha.
    eexists. by eapply step_advance. }
  destruct (th_phase th) eqn:Hp; try (eapply Hgo; [exact Hi|by rewrite Hp..]).
  destruct (c_owner c !! th_chain th) as [j|] eqn:Ho.
  - apply Hc in Ho as (thj & Hj & _ & Hh).
    apply (Hgo j thj Hj); by destruct (th_phase thj).
  - eexists. by eapply step_lock.
Qed.

Lemma nsteps_work n c c' : nsteps (own_step svc) n c c' → (n + work svc c' ≤ work svc c)%nat.
Proof. induction 1 as [|n c1 c2 c3 Hs%own_step_work _ IH]; lia. Qed.

Lemma locks_ok_reachable calls others w c :
  rtc (step svc calls others) (server_init w) c → locks_ok c.
Proof.
  intros H. eapply rtc_invariant; [|exact H|apply locks_ok_init].
  intros c1 c2 Hc Hs. by eapply locks_ok_step.
Qed.

Lemma take_turn_step i c : take_turn svc i c = c ∨ own_step svc c (take_turn svc i c).
Proof.
  unfold take_turn. destruct (c_threads c !! i) as [th|] eqn:Hi; [|by left].
  assert (th_phase th ≠ AtLock → is_finished (th_phase th) = false →
    own_step svc c
      (let '(phase, w) := advance svc (th_input th) (th_phase th) (c_world c) in
       {| c_world := w; c_owner := release th phase (c_owner c);
          c_threads := <[i := set_phase phase th]> (c_threads c) |})) as Hgo.
  { intros ? ?. destruct (advance _ _ _ _) as [phase w] eqn:Ha. by eapply step_advance. }
  destruct (th_phase th) eqn:Hp; try (right; by apply Hgo); [|by left..].
  destruct (c_owner c !! th_chain th) eqn:Ho; [by left|]. right. by eapply step_lock.
Qed.

Lemma run_turns_steps turns c : rtc (own_step svc) c (run_turns svc turns c).
Proof.
  revert c. induction turns as [|i turns IH]; intros c; [done|]. simpl.
  destruct (take_turn_step i c) as [E|Hs]; [rewrite E; apply IH|by eapply rtc_l].
Qed.

Lemma receive_steps calls others inputs i c :
  Forall calls inputs → (∀ j, (i ≤ j)%nat → c_threads c !! j = None) →
  rtc (step svc calls others) c (receive i inputs c).
Proof.
  intros H. revert i c. induction H as [|input inputs Hi _ IH]; intros i c Hnone; [done|].
  eapply rtc_l; [apply (step_call svc calls others c i input Hi (Hnone i (le_n i)))|].
  apply IH. intros j Hj. simpl. rewrite lookup_insert_ne by lia. apply Hnone. lia.
Qed.

(** What a server does that receives [inputs] and then schedules its threads in
    the order [turns]. *)
Lemma scheduled_steps calls others inputs turns w :
  Forall calls inputs →
  rtc (step svc calls others) (server_init w)
    (run_turns svc turns (receive 0 inputs (server_init w))).
Proof.
  intros H. etrans; [by apply receive_steps|].
  eapply rtc_subrel; [|apply run_turns_steps]. apply step_own.
Qed.

(** C14: the locks of the chains serialise the appends and never block the server
    for good, whatever the repository answers.  In every state the server can
    reach - calls arrive and are abandoned at any [await], other processes write to
    the repository - two calls for the same chain are never both between the
    acquisition of its lock and their return, so no running call of the process
    overtakes the tip another one has read (the COMMIT of an abandoned call may
    still land after its lock was released); the threads can make at most [work]
    further steps of their own; and when none can make a step every call has
    returned or was abandoned: a lock that is taken is always released. *)
Theorem locks_serialise_and_release calls others w c :
  rtc (step svc calls others) (server_init w) c →
  (∀ i j thi thj, c_threads c !! i = Some thi → c_threads c !! j = Some thj →
     holds_lock (th_phase thi) = true → holds_lock (th_phase thj) = true →
     th_chain thi = th_chain thj → i = j)
  ∧ (∀ n c', nsteps (own_step svc) n c c' → (n ≤ work svc c)%nat)
  ∧ (∀ c', rtc (own_step svc) c c' → (∀ c'', ¬ own_step svc c' c'') → all_finished c').
Proof.
  intros Hc%locks_ok_reachable. split; [|split].
  - intros i j thi thj Hi Hj Hhi Hhj Ht.
    assert (c_owner c !! th_chain thi = Some i) as H1 by (apply Hc; eauto).
    assert (c_owner c !! th_chain thi = Some j) as H2 by (apply Hc; eauto).
    congruence.
  - intros n c' H%nsteps_work. lia.
  - intros c' Hr Hstuck i th Hi. destruct (is_finished (th_phase th)) eqn:Hf; [done|].
    assert (locks_ok c') as Hc' by (eapply rtc_invariant; [apply locks_ok_own|done..]).
    destruct (own_step_exists c' i th Hc' Hi Hf) as [c'' H]. by destruct (Hstuck c'').
Qed.
End Progress.
