(* ===== verification/ConcurrentWrites.v ===== *)
(** * Concurrent writes over a repository that keeps its contract

    [config_ok] is what every state of the server of Concurrency satisfies when
    the repository keeps the contract of LedgerSpec: the ledger of the shared
    world is valid, dense and extends the one the server started from, every
    answer given so far is a stored entry of its request, and a thread that is
    about to write knows what [phase_ok] says.  [advance_spec] shows it of the
    code between two [await]s, and the theorems at the end read it off. *)

From Stdlib Require Import String Strings.Byte ZArith Lia.
From stdpp Require Import base tactics numbers strings list gmap sorting relations.
From S2P Require Import Prelude Platform Crypto Repository Config World Service LedgerSpec.
From S2P Require Import InMemory Chain Examples ServiceWrite Concurrency.

(** ** One call of the repository *)

Section Calls.
Context {P : Platform} {PL : PlatformLaws P} {R Pub : Type}.
Context `{!LedgerRepository R, !LedgerStore R, !LedgerStoreLaws R, !EventPublisher Pub}.
Context (svc : ImmutableLedgerService Pub).
Context (Hinj : Inj (=) (=) (uuid_v4 : nat → Uuid)).
Implicit Types (w : World R) (input : WriteEntryInput) (L : Ledger).

(** Only the parts of a world that are not the repository's changed. *)
Definition same_repo w w' : Prop := w_repo w' = w_repo w ∧ (w_uuids w ≤ w_uuids w')%nat.

Lemma same_repo_inv w w' : same_repo w w' → service_inv svc w → service_inv svc w'.
Proof.
  intros [Hr Hu] [Hwf Hv Hf]. unfold w_ledger in *.
  split; unfold w_ledger; rewrite Hr; [done|done|]. intros m Hm. apply Hf. lia.
Qed.

(** What a request's entry is. *)
Definition entry_for input (e : LedgerEntryRecord) : Prop :=
  le_entry_type e = wi_entry_type input
  ∧ le_idempotency_key e = wi_idempotency_key input
  ∧ idempotent_request_matches e input = true.

Lemma call_write_spec w input previous_hash k :
  service_inv svc w → request_accepted (R := R) svc input →
  let t := wi_entry_type input in
  let l := chain (w_ledger w) t in
  Z.of_nat (length l) < i64_max →
  (l = [] → previous_hash = genesis_hash svc) →
  let '(res, w') := call_write (entry_write_input input previous_hash (utc_now k)
                                  (create_outbox svc)) w in
  service_inv svc w' ∧ w_halted w' = w_halted w ∧ w_sleeps w' = w_sleeps w ∧
  (w_uuids w ≤ w_uuids w')%nat ∧
  match res with
  | Ok out => ∃ e, entry_for input e ∧ output_of_entry (wr_entry out) = output_of_entry e
      ∧ w_ledger w' = ledger_append e (w_ledger w)
      ∧ store_fresh (w_uuids w) (w_repo w) ∧ le_entry_id e = uuid_v4 (w_uuids w)
      ∧ (w_uuids w < w_uuids w')%nat
  | Err x => w_repo w' = w_repo w
      ∧ (previous_hash = last_hash (genesis_hash svc) l →
         x = IdempotencyConflict
         ∧ ∃ key e, wi_idempotency_key input = Some key ∧ spec_idempotent (w_ledger w) t key = Some e)
  end.
Proof.
  intros Hinv Hacc t l Hlen Hgen. unfold call_write.
  set (write := entry_write_input input previous_hash (utc_now k) (create_outbox svc)).
  pose proof (si_wf _ _ Hinv) as Hwf. pose proof (si_uuids _ _ Hinv (w_uuids w) (le_n _)) as Hfresh.
  assert (chain (ledger_of (w_repo w)) (ew_entry_type write) = [] →
            ∃ data, ew_previous_hash write = sha256_hex data) as Hd
    by (intros Hnil; apply Hgen in Hnil; simpl; rewrite Hnil; by eexists).
  pose proof (write_law (w_repo w) write (w_uuids w) Hwf Hfresh Hlen (Hacc _ _) Hd) as Hw.
  destruct (spec_write (ledger_of (w_repo w)) write (uuid_v4 (w_uuids w))) as [e|x] eqn:Hs.
  - destruct Hw as (out & n' & r' & -> & Hout & HL & Hwf' & Hn & Hf).
    apply spec_write_Ok in Hs as (-> & _ & Hlink).
    assert (previous_hash = last_hash (genesis_hash svc) l) as Hprev.
    { unfold last_hash, l, w_ledger, t. simpl in Hlink. destruct (last _) eqn:El; [done|].
      apply Hgen. unfold l, w_ledger, t. by apply last_None in El. }
    split; [|split; [done|]; split; [done|]; split; [simpl; lia|]].
    + split; simpl; [done| |].
      * unfold w_ledger. simpl. rewrite HL. intros t'. rewrite chain_append.
        case_decide as Ht; [|apply (si_valid _ _ Hinv)].
        rewrite links_ok_snoc. split; [apply (si_valid _ _ Hinv)|]. apply entry_fault_None.
        split; [|done]. by rewrite Ht.
      * intros m Hm. apply Hf; [done|done|]. apply (si_uuids _ _ Hinv). lia.
    + eexists. split; [|split; [|split; [exact HL|]]].
      * split; [done|]. split; [done|]. unfold idempotent_request_matches.
        by rewrite !bool_decide_true.
      * rewrite Hout. symmetry.
        exact (output_of_entry_retime (w_ledger w) write _ _ (store_time_law _ (Hacc _ _))).
      * simpl. split; [done|]. split; [done|]. lia.
  - destruct Hw as (x' & n' & -> & Hn & Hx).
    assert (same_repo w (set_repo_uuids (w_repo w) n' w)) as Hsame by done.
    split; [by apply (same_repo_inv w)|]. do 2 (split; [done|]). split; [simpl; lia|].
    split; [done|]. intros Hprev.
    assert (linked (ledger_of (w_repo w)) write = true) as Hl.
    { unfold linked. simpl. rewrite Hprev. unfold last_hash, l, w_ledger, t.
      destruct (last _); [apply String.eqb_refl|].
      apply negb_true_iff, is_empty_false, genesis_nonempty. }
    rewrite Hx by done. revert Hs. unfold spec_write. rewrite Hl. simpl.
    destruct (wi_idempotency_key input) as [key|]; [|done].
    destruct (spec_idempotent _ _ key) as [e|] eqn:E; [|done]. simpl.
    intros [= <-]. split; [done|]. by exists key, e.
Qed.
End Calls.

(** ** The invariant *)

Section Invariant.
Context {P : Platform} {PL : PlatformLaws P} {R Pub : Type}.
Context `{!LedgerRepository R, !LedgerStore R, !LedgerStoreLaws R, !EventPublisher Pub}.
Context (svc : ImmutableLedgerService Pub).
Context (Hinj : Inj (=) (=) (uuid_v4 : nat → Uuid)) (others : WriteEntryInput → Prop) (w0 : World R).
Implicit Types (w : World R) (input : WriteEntryInput) (th : Thread).

(** Nobody writes without the guard: no other process, and no call that was dropped
    during its [COMMIT]. *)
Definition alone : Prop := ∀ input, ¬ others input.

(** Why a call may fail when no other process writes. *)
Definition error_explained w input (x : ServiceError) : Prop :=
  check_arguments svc input = Err x
  ∨ (x = SUnavailable ∧ is_Some (w_halted w0 !! wi_entry_type input))
  ∨ (x = SAlreadyExists idempotency_message ∧ ∃ key e,
       wi_idempotency_key input = Some key
       ∧ spec_idempotent (w_ledger w) (wi_entry_type input) key = Some e
       ∧ idempotent_request_matches e input = false)
  ∨ (x = SInternal integrity_message ∧ chain_max_retries (svc_config svc) ≤ 0).

Definition phase_ok w input (phase : Phase) : Prop :=
  let l := chain (w_ledger w) (wi_entry_type input) in
  match phase with
  | AtTip attempt => alone → attempt = 0
  | AtWrite attempt previous_hash =>
      (l = [] → previous_hash = genesis_hash svc)
      ∧ (alone → attempt = 0 ∧ previous_hash = last_hash (genesis_hash svc) l)
  | AtConflict => ∃ key, wi_idempotency_key input = Some key
      ∧ (alone → ∃ e,
           spec_idempotent (w_ledger w) (wi_entry_type input) key = Some e)
  | AtHalt => ¬ alone
  | Committing previous_hash written_ts =>
      (l = [] → previous_hash = genesis_hash svc) ∧ (∃ k, written_ts = utc_now k) ∧ ¬ alone
  | Finished (Ok out) => ∃ e, e ∈ l ∧ entry_for input e ∧ output_of_entry e = out
  | Finished (Err x) => alone → error_explained w input x
  | _ => True
  end.

Lemma phase_ok_stable w w' input phase :
  phase_ok w input phase → ledger_extends (w_ledger w) (w_ledger w') →
  (alone → holds_lock phase = true →
     chain (w_ledger w') (wi_entry_type input) = chain (w_ledger w) (wi_entry_type input)) →
  phase_ok w' input phase.
Proof.
  intros Hok Hext Hlock. pose proof (Hext (wi_entry_type input)) as Hpre.
  assert (∀ key e, spec_idempotent (w_ledger w) (wi_entry_type input) key = Some e →
            spec_idempotent (w_ledger w') (wi_entry_type input) key = Some e) as Hkey
    by (intros key e; by apply spec_idempotent_prefix).
  destruct phase as [| | | |a|a h| | |h ts|[out|x]]; simpl in *; try done.
  - destruct Hok as [Hg Hl]. split.
    + intros Hnil. apply Hg. rewrite Hnil in Hpre. by apply prefix_nil_inv in Hpre.
    + intros Hr. rewrite Hlock by done. by apply Hl.
  - destruct Hok as (key & Hk & He). exists key. split; [done|].
    intros Hr. destruct (He Hr) as [e ?]. eauto.
  - destruct Hok as [Hg Hl]. split; [|done].
    intros Hnil. apply Hg. rewrite Hnil in Hpre. by apply prefix_nil_inv in Hpre.
  - destruct Hok as (e & He & ?). exists e. split; [|done].
    destruct Hpre as [l' ->]. apply elem_of_app. by left.
  - intros Hr. destruct (Hok Hr) as [?|[?|[(? & key & e & ? & ? & ?)|?]]];
      unfold error_explained; [by left|right; by left|right; right; left|by do 3 right].
    split; [done|]. exists key, e. auto.
Qed.

(** What a thread does to the world between two [await]s. *)
Record advanced w input phase phase' w' : Prop := {
  ad_inv : service_inv svc w';
  ad_ok : phase_ok w' input phase';
  ad_ledger : w_ledger w' = w_ledger w ∨ (holds_lock phase = true ∧
    ∃ e, entry_for input e ∧ w_ledger w' = ledger_append e (w_ledger w)
         ∧ spec_find (w_ledger w) (le_entry_id e) = None
         ∧ phase' = Finished (Ok (output_of_entry e)));
  ad_keyless : ∀ out, phase' = Finished (Ok out) → wi_idempotency_key input = None →
    spec_find (w_ledger w) (wo_entry_id out) = None;
  ad_lock : holds_lock phase' = true → holds_lock phase = true;
  ad_quiet : alone →
    w_halted w' ⊆ w_halted w ∧ w_sleeps w' = w_sleeps w
}.

Lemma stored_entry_for w input key e :
  store_ok (w_repo w) → wi_idempotency_key input = Some key →
  spec_idempotent (w_ledger w) (wi_entry_type input) key = Some e →
  idempotent_request_matches e input = true →
  e ∈ chain (w_ledger w) (wi_entry_type input) ∧ entry_for input e.
Proof.
  intros Hok Hk [He Hke]%spec_idempotent_Some Hm. split; [done|].
  split; [|by rewrite Hk]. by apply (shape_typed _ (store_shape _ Hok)).
Qed.

(** A step that leaves the repository alone. *)
Lemma advanced_same w input phase phase' w' :
  service_inv svc w → same_repo w w' → phase_ok w' input phase' →
  (∀ out, phase' = Finished (Ok out) → wi_idempotency_key input ≠ None) →
  (holds_lock phase' = true → holds_lock phase = true) →
  (alone → w_halted w' ⊆ w_halted w ∧ w_sleeps w' = w_sleeps w) →
  advanced w input phase phase' w'.
Proof.
  intros Hinv Hsame Hok Hn Hl Hq.
  split; [by apply (same_repo_inv svc w)|done| | |done|done].
  - left. unfold w_ledger. by rewrite (proj1 Hsame).
  - intros out -> Hk. by destruct (Hn out).
Qed.

(** The halts of [w] were there from the start, when no other process writes. *)
Definition quiet_halts w : Prop := alone → w_halted w ⊆ w_halted w0.

Ltac same_world := apply advanced_same; [done|split; [done|simpl; lia]|..]; try done.

Lemma advance_start w input phase' w' :
  service_inv svc w → quiet_halts w →
  advance svc input AtStart w = (phase', w') → advanced w input AtStart phase' w'.
Proof.
  intros Hinv Hq. simpl. destruct (check_arguments svc input) as [[]|x] eqn:Hargs; run_M.
  - destruct (w_halted w !! wi_entry_type input) as [h|] eqn:Hh.
    + destruct (_ <? _); intros [= <- <-]; same_world.
      simpl. intros Hr. right; left. split; [done|]. exists h.
      by eapply lookup_weaken; [|apply Hq].
    + intros [= <- <-]. same_world.
  - intros [= <- <-]. same_world. intros _. by left.
Qed.

Lemma advance_remove w input phase' w' :
  service_inv svc w →
  advance svc input AtRemove w = (phase', w') → advanced w input AtRemove phase' w'.
Proof.
  intros Hinv. simpl. run_M. intros [= <- <-]. same_world.
  intros _. split; [|done]. apply delete_subseteq.
Qed.

(** The idempotency check and the lookup after a conflict answer from the ledger. *)
Lemma answered_ok w input key e :
  service_inv svc w → wi_idempotency_key input = Some key →
  spec_idempotent (w_ledger w) (wi_entry_type input) key = Some e →
  phase_ok w input (Finished (if idempotent_request_matches e input
                              then Ok (output_of_entry e)
                              else Err (SAlreadyExists idempotency_message))).
Proof.
  intros Hinv Hk He. destruct (idempotent_request_matches e input) eqn:Hm; simpl.
  - exists e. destruct (stored_entry_for w input key e) as [? ?]; try done.
    apply store_wf_ok, (si_wf _ _ Hinv).
  - intros _. do 2 right; left. eauto 8.
Qed.

Lemma advance_key w input phase' w' :
  service_inv svc w → request_accepted (R := R) svc input →
  advance svc input AtKey w = (phase', w') → advanced w input AtKey phase' w'.
Proof.
  intros Hinv Hacc. simpl. run_M.
  rewrite check_idempotent_spec; [|apply store_wf_ok, (si_wf _ _ Hinv)|by eapply accepted_askable].
  unfold stored_for_key. destruct (wi_idempotency_key input) as [key|] eqn:Hk; simpl.
  2: { intros [= <- <-]. same_world. }
  destruct (spec_idempotent _ _ key) as [e|] eqn:He.
  2: { intros [= <- <-]. same_world. }
  pose proof (answered_ok w input key e Hinv Hk He) as Hok.
  destruct (idempotent_request_matches e input); intros [= <- <-]; same_world.
  by rewrite Hk.
Qed.

Lemma advance_conflict w input phase' w' :
  service_inv svc w → request_accepted (R := R) svc input → phase_ok w input AtConflict →
  advance svc input AtConflict w = (phase', w') → advanced w input AtConflict phase' w'.
Proof.
  intros Hinv Hacc (key & Hk & Hnr). simpl. run_M. unfold on_idempotency_conflict. rewrite Hk.
  destruct (accepted_askable svc input Hacc) as [Hrt Hrk].
  rewrite (bind_call_read _ _ _ _
             (find_idempotent_law _ _ _ (store_wf_ok _ (si_wf _ _ Hinv)))), Hrt, (Hrk key Hk). simpl.
  change (ledger_of (w_repo w)) with (w_ledger w).
  destruct (spec_idempotent _ _ key) as [e|] eqn:He.
  - pose proof (answered_ok w input key e Hinv Hk He) as Hok.
    destruct (idempotent_request_matches e input); run_M; intros [= <- <-]; same_world.
    by rewrite Hk.
  - run_M. intros [= <- <-]. same_world. intros Hr. by destruct (Hnr Hr).
Qed.

Lemma advance_tip w input attempt phase' w' :
  service_inv svc w → request_accepted (R := R) svc input → phase_ok w input (AtTip attempt) →
  advance svc input (AtTip attempt) w = (phase', w') → advanced w input (AtTip attempt) phase' w'.
Proof.
  intros Hinv Hacc Hok. cbn [advance]. destruct (Z.ltb_spec attempt (chain_max_retries (svc_config svc))).
  - rewrite (bind_call_read _ _ _ _ (get_chain_tip_law _ _ (si_wf _ _ Hinv))).
    rewrite (proj1 (accepted_askable svc input Hacc)). unfold asked.
    unfold spec_tip. change (ledger_of (w_repo w)) with (w_ledger w).
    destruct (last _) as [e|] eqn:El; simpl; run_M; intros [= <- <-]; same_world; simpl.
    + split; [by intros Hn; rewrite Hn in El|]. intros Hr. split; [by apply Hok|].
      unfold last_hash. by rewrite El.
    + split; [done|]. intros Hr. split; [by apply Hok|]. unfold last_hash. by rewrite El.
  - intros [= <- <-]. same_world. intros Hr. do 3 right. split; [done|].
    rewrite (Hok Hr) in *. done.
Qed.

Lemma advance_halt w input phase' w' :
  service_inv svc w → phase_ok w input AtHalt →
  advance svc input AtHalt w = (phase', w') → advanced w input AtHalt phase' w'.
Proof.
  intros Hinv Hr. simpl in Hr. simpl. run_M. intros [= <- <-].
  same_world; intros Ha; by destruct (Hr Ha).
Qed.

Lemma advance_write w input attempt previous_hash phase' w' :
  service_inv svc w → request_accepted (R := R) svc input →
  Z.of_nat (length (chain (w_ledger w) (wi_entry_type input))) < i64_max →
  phase_ok w input (AtWrite attempt previous_hash) →
  advance svc input (AtWrite attempt previous_hash) w = (phase', w') →
  advanced w input (AtWrite attempt previous_hash) phase' w'.
Proof.
  intros Hinv Hacc Hlen [Hgen Hnr]. simpl. run_M.
  pose proof (call_write_spec svc Hinj (tick w) input previous_hash (w_clock w)) as Hw.
  assert (same_repo w (tick w)) as Ht by done.
  cbv zeta in Hw. specialize (Hw (same_repo_inv svc _ _ Ht Hinv) Hacc Hlen Hgen).
  destruct (call_write _ (tick w)) as [res w1].
  destruct Hw as (Hinv1 & Hh & Hs & Hu & Hw).
  assert (alone → w_halted w1 ⊆ w_halted w ∧ w_sleeps w1 = w_sleeps w) as Hq
    by (by rewrite Hh, Hs).
  destruct res as [out|x].
  - destruct Hw as (e & He & -> & HL & Hf & Hid & _). intros [= <- <-].
    change (w_ledger (tick w)) with (w_ledger w) in HL.
    assert (spec_find (w_ledger w) (le_entry_id e) = None) as Hfind
      by (rewrite Hid; apply store_fresh_law; [apply (si_wf _ _ Hinv)|done]).
    assert (w_ledger (map_metrics (observe_retries attempt) w1) = ledger_append e (w_ledger w))
      as HL' by done.
    split; try done.
    + by apply (same_repo_inv svc w1).
    + simpl. exists e. rewrite HL', chain_append, decide_True by (symmetry; apply He).
      rewrite elem_of_app, list_elem_of_singleton. auto.
    + right. split; [done|]. by exists e.
    + intros ? [= <-] _. done.
  - destruct Hw as [Hr Hx].
    assert (w_ledger w1 = w_ledger w) as HL by (unfold w_ledger; by rewrite Hr).
    assert (∀ phase', phase_ok w1 input phase' →
      (∀ out, phase' ≠ Finished (Ok out)) → advanced w input (AtWrite attempt previous_hash) phase' w1)
      as Hsame by (intros; apply advanced_same; [done|by split|done|naive_solver|done|done]).
    assert (alone → x = IdempotencyConflict ∧ ∃ key e, wi_idempotency_key input = Some key
      ∧ spec_idempotent (w_ledger w) (wi_entry_type input) key = Some e) as Hx'
      by (intros Hrep; apply Hx; by apply Hnr).
    destruct x; try (intros [= <- <-]; apply Hsame; [|done]; intros Hrep;
                     by destruct (Hx' Hrep)).
    + destruct (_ <? _); intros [= <- <-].
      * apply advanced_same; [done|by split|..]; try done; simpl; intros Hrep; by destruct (Hx' Hrep).
      * apply Hsame; [|done]. simpl. intros Hrep. by destruct (Hx' Hrep).
    + destruct (wi_idempotency_key input) as [key|] eqn:Hk.
      * intros [= <- <-]. apply Hsame; [|done]. exists key. split; [done|]. intros Hrep.
        destruct (Hx' Hrep) as (_ & key' & e & Hk' & He). injection Hk' as <-. exists e. by rewrite HL.
      * intros [= <- <-]. apply Hsame; [|done]. intros Hrep.
        destruct (Hx' Hrep) as (_ & key & e & Hk' & _). done.
Qed.

Lemma advance_spec w input phase phase' w' :
  service_inv svc w → request_accepted (R := R) svc input → quiet_halts w →
  Z.of_nat (length (chain (w_ledger w) (wi_entry_type input))) < i64_max →
  phase_ok w input phase → phase ≠ AtLock → is_finished phase = false →
  advance svc input phase w = (phase', w') → advanced w input phase phase' w'.
Proof.
  intros Hinv Hacc Hq Hlen Hok Hnl Hnf.
  destruct phase; try done; eauto using advance_start, advance_remove, advance_key, advance_tip,
    advance_write, advance_conflict, advance_halt.
Qed.
(** ** Every state of the server *)

Context (calls : WriteEntryInput → Prop).
Context (Hcalls : ∀ input, calls input → request_accepted (R := R) svc input).
Context (Hothers : ∀ input, others input → request_accepted (R := R) svc input).

(** A step of the server while no chain is full. *)
Definition bounded_step (c c' : Config R) : Prop :=
  chains_below i64_max (c_world c) ∧ step svc calls others c c'.

Definition thread_ok w th : Prop :=
  request_accepted (R := R) svc (th_input th) ∧ phase_ok w (th_input th) (th_phase th).

Definition keyless_ok (c : Config R) : Prop := ∀ i j thi thj outi outj,
  c_threads c !! i = Some thi → c_threads c !! j = Some thj → i ≠ j →
  th_phase thi = Finished (Ok outi) → th_phase thj = Finished (Ok outj) →
  wi_idempotency_key (th_input thi) = None → wi_idempotency_key (th_input thj) = None →
  wo_entry_id outi ≠ wo_entry_id outj.

Record config_ok (c : Config R) : Prop := {
  ok_inv : service_inv svc (c_world c);
  ok_ext : ledger_extends (w_ledger w0) (w_ledger (c_world c));
  ok_quiet : alone → w_halted (c_world c) ⊆ w_halted w0 ∧ w_sleeps (c_world c) = w_sleeps w0;
  ok_locks : locks_ok c;
  ok_threads : ∀ i th, c_threads c !! i = Some th → thread_ok (c_world c) th;
  ok_keyless : keyless_ok c
}.

Lemma config_ok_init : service_inv svc w0 → config_ok (server_init w0).
Proof.
  intros Hinv. split; simpl; try done. apply locks_ok_init.
Qed.

(** A finished thread's answer is in the ledger. *)
Lemma finished_stored c i th out :
  config_ok c → c_threads c !! i = Some th → th_phase th = Finished (Ok out) →
  spec_find (w_ledger (c_world c)) (wo_entry_id out) ≠ None.
Proof.
  intros Hc Hi Hp. destruct (ok_threads _ Hc i th Hi) as [_ Hok]. rewrite Hp in Hok.
  destruct Hok as (e & He & _ & <-). simpl.
  pose proof (store_shape _ (store_wf_ok _ (si_wf _ _ (ok_inv _ Hc)))) as Hs.
  by rewrite (spec_find_elem (w_ledger (c_world c)) _ e Hs He).
Qed.

Lemma keyless_insert c i th phase w owner :
  config_ok c → c_threads c !! i = Some th →
  (∀ out, phase = Finished (Ok out) → wi_idempotency_key (th_input th) = None →
     spec_find (w_ledger (c_world c)) (wo_entry_id out) = None) →
  keyless_ok {| c_world := w; c_owner := owner;
                c_threads := <[i := set_phase phase th]> (c_threads c) |}.
Proof.
  intros Hc Hi Hnew j k thj thk outj outk. simpl.
  intros [[<- <-]|[Hij Hj]]%lookup_insert_Some [[<- <-]|[Hik Hk]]%lookup_insert_Some Hjk Pj Pk Kj Kk;
    simpl in *.
  - done.
  - intros Heq. destruct (finished_stored c k thk outk Hc Hk Pk). rewrite <- Heq. by apply Hnew.
  - intros Heq. destruct (finished_stored c j thj outj Hc Hj Pj). rewrite Heq. by apply Hnew.
  - by apply (ok_keyless _ Hc j k thj thk outj outk).
Qed.

(** The threads that do not move keep what they know. *)
Lemma threads_stable c i th phase w :
  config_ok c → c_threads c !! i = Some th →
  advanced (c_world c) (th_input th) (th_phase th) phase w →
  ∀ j thj, j ≠ i → c_threads c !! j = Some thj → thread_ok w thj.
Proof.
  intros Hc Hi Hadv j thj Hji Hj. destruct (ok_threads _ Hc j thj Hj) as [Hacc Hok].
  split; [done|]. eapply phase_ok_stable; [exact Hok|..].
  - destruct (ad_ledger _ _ _ _ _ Hadv) as [->|(_ & e & _ & -> & _)]; auto with ledger.
  - intros _ Hh. destruct (ad_ledger _ _ _ _ _ Hadv) as [->|(Hhi & e & (He & _) & -> & _)]; [done|].
    rewrite chain_append, decide_False; [done|]. rewrite He. intros Heq. apply Hji.
    assert (c_owner c !! th_chain thj = Some j) as H1 by (apply (ok_locks _ Hc); eauto).
    assert (c_owner c !! th_chain th = Some i) as H2 by (apply (ok_locks _ Hc); eauto).
    unfold th_chain in *. rewrite Heq in H1. congruence.
Qed.

Lemma advanced_extends w w' input phase phase' :
  advanced w input phase phase' w' → ledger_extends (w_ledger w) (w_ledger w').
Proof.
  intros Hadv. destruct (ad_ledger _ _ _ _ _ Hadv) as [->|(_ & e & _ & -> & _)]; auto with ledger.
Qed.

Lemma own_advanced c i th phase w :
  config_ok c → chains_below i64_max (c_world c) → c_threads c !! i = Some th →
  th_phase th ≠ AtLock → is_finished (th_phase th) = false →
  advance svc (th_input th) (th_phase th) (c_world c) = (phase, w) →
  advanced (c_world c) (th_input th) (th_phase th) phase w.
Proof.
  intros Hc Hb Hi Hnl Hnf Ha. destruct (ok_threads _ Hc i th Hi) as [Hacc Hok].
  apply advance_spec; try done; [apply (ok_inv _ Hc)|intros Hal; by apply (ok_quiet _ Hc)].
Qed.

Lemma config_ok_advance c i th phase w :
  config_ok c → chains_below i64_max (c_world c) → c_threads c !! i = Some th →
  th_phase th ≠ AtLock → is_finished (th_phase th) = false →
  advance svc (th_input th) (th_phase th) (c_world c) = (phase, w) →
  config_ok {| c_world := w; c_owner := release th phase (c_owner c);
               c_threads := <[i := set_phase phase th]> (c_threads c) |}.
Proof.
  intros Hc Hb Hi Hnl Hnf Ha. destruct (ok_threads _ Hc i th Hi) as [Hacc Hok].
  pose proof (own_advanced c i th phase w Hc Hb Hi Hnl Hnf Ha) as Hadv.
  split; simpl.
  - apply Hadv.
  - etrans; [apply (ok_ext _ Hc)|by eapply advanced_extends].
  - intros Hal. destruct (ok_quiet _ Hc Hal) as [H1 H2].
    destruct (ad_quiet _ _ _ _ _ Hadv Hal) as [H3 H4]. split; [by etrans|congruence].
  - by eapply locks_ok_advance; [apply (ok_locks _ Hc)|..].
  - intros j thj [[<- <-]|[Hij Hj]]%lookup_insert_Some; [split; [done|apply Hadv]|].
    by apply (threads_stable c i th phase w Hc Hi Hadv j).
  - by eapply keyless_insert; [..|apply (ad_keyless _ _ _ _ _ Hadv)].
Qed.

Lemma config_ok_lock c i th :
  config_ok c → c_threads c !! i = Some th → th_phase th = AtLock →
  c_owner c !! th_chain th = None →
  config_ok {| c_world := c_world c; c_owner := <[th_chain th := i]> (c_owner c);
               c_threads := <[i := set_phase (AtTip 0) th]> (c_threads c) |}.
Proof.
  intros Hc Hi Hp Ho. split; simpl; try apply Hc.
  - by eapply locks_ok_lock; [apply (ok_locks _ Hc)|..].
  - intros j thj [[<- <-]|[Hij Hj]]%lookup_insert_Some; [|by eapply ok_threads].
    destruct (ok_threads _ Hc i th Hi) as [Hacc _]. by split.
  - by eapply keyless_insert.
Qed.

(** What a process elsewhere does to the repository. *)
Lemma other_spec w input phase w1 phase' w2 :
  service_inv svc w → quiet_halts w → chains_below i64_max w →
  request_accepted (R := R) svc input →
  advance svc input (AtTip 0) w = (phase, w1) → advance svc input phase w1 = (phase', w2) →
  service_inv svc w2 ∧ ledger_extends (w_ledger w) (w_ledger w2).
Proof.
  intros Hinv Hq Hb Hacc H1 H2.
  assert (advanced w input (AtTip 0) phase w1) as A1 by (by apply advance_spec).
  destruct (decide (is_finished phase = true)) as [Hf|Hf%not_true_is_false].
  { destruct phase; try done; simpl in H2; injection H2 as _ <-;
      (split; [apply A1|by eapply advanced_extends]). }
  destruct (ad_ledger _ _ _ _ _ A1) as [HL|(_ & e & _ & _ & _ & ->)]; [|done].
  assert (quiet_halts w1) as Hq1
    by (intros Hal; etrans; [by apply (ad_quiet _ _ _ _ _ A1)|by apply Hq]).
  assert (phase ≠ AtLock) as Hnl.
  { intros ->. revert H1. cbn [advance]. run_M. repeat case_match; congruence. }
  assert (advanced w1 input phase phase' w2) as A2.
  { apply advance_spec; try done; [apply A1|rewrite HL; apply Hb|apply A1]. }
  split; [apply A2|]. rewrite <- HL. by eapply advanced_extends.
Qed.

(** The append of a call that was dropped during its [COMMIT]. *)
Lemma config_ok_late c i th a h ts w :
  config_ok c → c_threads c !! i = Some th → th_phase th = AtWrite a h →
  others (th_input th) → utc (c_world c) = (ts, w) →
  config_ok {| c_world := w; c_owner := abandon th (c_owner c);
               c_threads := <[i := set_phase (Committing h ts) th]> (c_threads c) |}.
Proof.
  intros Hc Hi Hp Hin Hts. assert (¬ alone) as Hna by (intros Hal; by destruct (Hal (th_input th))).
  destruct (ok_threads _ Hc i th Hi) as [Hacc Hok]. rewrite Hp in Hok. destruct Hok as [Hg _].
  unfold utc in Hts. injection Hts as <- <-. split; simpl; try done.
  - by apply (same_repo_inv svc (c_world c)); [|apply Hc].
  - apply (ok_ext _ Hc).
  - by apply locks_ok_late; [apply (ok_locks _ Hc)|..].
  - intros j thj [[<- <-]|[Hij Hj]]%lookup_insert_Some.
    + split; [done|]. simpl. eauto.
    + destruct (ok_threads _ Hc j thj Hj) as [? Hok]. split; [done|]. by eapply phase_ok_stable.
  - by eapply keyless_insert.
Qed.

Lemma config_ok_land c i th h ts res w :
  config_ok c → chains_below i64_max (c_world c) → c_threads c !! i = Some th →
  th_phase th = Committing h ts →
  call_write (entry_write_input (th_input th) h ts (create_outbox svc)) (c_world c) = (res, w) →
  config_ok {| c_world := w; c_owner := c_owner c; c_threads := delete i (c_threads c) |}.
Proof.
  intros Hc Hb Hi Hp Hw.
  destruct (ok_threads _ Hc i th Hi) as [Hacc Hok]. rewrite Hp in Hok.
  destruct Hok as (Hg & [k ->] & Hna).
  pose proof (call_write_spec svc Hinj (c_world c) (th_input th) h k (ok_inv _ Hc) Hacc (Hb _) Hg) as Hs.
  cbv zeta in Hs. rewrite Hw in Hs. destruct Hs as (Hinv & _ & _ & _ & Hs).
  assert (ledger_extends (w_ledger (c_world c)) (w_ledger w)) as Hext.
  { destruct res as [out|x]; [destruct Hs as (e & _ & _ & -> & _); auto with ledger|].
    destruct Hs as [Hr _]. unfold w_ledger. by rewrite Hr. }
  split; simpl; try done.
  - etrans; [apply (ok_ext _ Hc)|done].
  - by apply (locks_ok_idle c i th); [apply (ok_locks _ Hc)| |rewrite Hp|].
  - intros j thj [_ Hj]%lookup_delete_Some. destruct (ok_threads _ Hc j thj Hj) as [? Hok].
    split; [done|]. by eapply phase_ok_stable.
  - intros j k' thj thk outj outk. simpl. intros [_ Hj]%lookup_delete_Some [_ Hk]%lookup_delete_Some.
    by apply (ok_keyless _ Hc j k' thj thk outj outk).
Qed.

Lemma config_ok_step c c' : config_ok c → bounded_step c c' → config_ok c'.
Proof.
  intros Hc [Hb Hs]. destruct Hs as [c c' Hs|c i input Hin Hi|c i th Hi Hf
    |c i th a h ts w Hi Hp Hin Hts|c i th h ts res w Hi Hp Hw|c input p w p' w' Hin H1 H2].
  - destruct Hs; [by eapply config_ok_advance|by apply config_ok_lock].
  - split; simpl; try apply Hc.
    + by eapply (locks_ok_step svc calls others); [apply (ok_locks _ Hc)|apply step_call].
    + intros j thj [[<- <-]|[Hij Hj]]%lookup_insert_Some; [|by eapply ok_threads].
      split; [by apply Hcalls|done].
    + intros j k thj thk outj outk. simpl.
      intros [[<- <-]|[Hij Hj]]%lookup_insert_Some [[<- <-]|[Hik Hk]]%lookup_insert_Some; simpl; try done.
      by apply (ok_keyless _ Hc j k thj thk outj outk).
  - split; simpl; try apply Hc.
    + by apply locks_ok_cancel; [apply (ok_locks _ Hc)|].
    + intros j thj [_ Hj]%lookup_delete_Some. by eapply ok_threads.
    + intros j k thj thk outj outk. simpl. intros [_ Hj]%lookup_delete_Some [_ Hk]%lookup_delete_Some.
      by apply (ok_keyless _ Hc j k thj thk outj outk).
  - by eapply config_ok_late.
  - by eapply config_ok_land.
  - set (w1 := set_repo_uuids (w_repo w') (w_uuids w') (tick (c_world c))).
    destruct (other_spec (c_world c) input p w p' w') as [Hinv Hext]; try done.
    { apply Hc. } { intros Hal. by apply (ok_quiet _ Hc). } { by apply Hothers. }
    assert (¬ alone) as Hna by (intros Hal; by destruct (Hal input)).
    split; simpl.
    + by apply (same_repo_inv svc w').
    + etrans; [apply (ok_ext _ Hc)|exact Hext].
    + done.
    + apply (ok_locks _ Hc).
    + intros j thj Hj. destruct (ok_threads _ Hc j thj Hj) as [? Hok]. split; [done|].
      by eapply phase_ok_stable.
    + apply (ok_keyless _ Hc).
Qed.

Lemma config_ok_reachable c :
  service_inv svc w0 → rtc bounded_step (server_init w0) c → config_ok c.
Proof.
  intros Hinv H. eapply rtc_invariant; [apply config_ok_step|exact H|by apply config_ok_init].
Qed.

(** A turn makes a chain at most one entry longer. *)
Lemma own_step_growth c c' bound :
  config_ok c → bound < i64_max → chains_below bound (c_world c) → own_step svc c c' →
  bounded_step c c' ∧ chains_below (bound + 1) (c_world c').
Proof.
  intros Hc Hlt Hb Hs.
  assert (chains_below i64_max (c_world c)) as Hb' by (intros t; specialize (Hb t); lia).
  split; [by split; [|apply step_own]|]. intros t. specialize (Hb t).
  destruct Hs as [c i th phase w Hi Hnl Hnf Ha|c i th Hi Hp Ho]; simpl; [|lia].
  pose proof (own_advanced c i th phase w Hc Hb' Hi Hnl Hnf Ha) as Hadv.
  destruct (ad_ledger _ _ _ _ _ Hadv) as [->|(_ & e & _ & -> & _)]; [lia|].
  rewrite chain_append. case_decide; [rewrite length_app; simpl|]; lia.
Qed.

Lemma run_turns_bounded turns c :
  config_ok c → chains_below (i64_max - Z.of_nat (length turns)) (c_world c) →
  rtc bounded_step c (run_turns svc turns c).
Proof.
  revert c. induction turns as [|i turns IH]; intros c Hc Hb; [done|]. cbn [length] in Hb.
  assert (i64_max - Z.of_nat (S (length turns)) < i64_max) as Hlt by lia.
  change (run_turns svc (i :: turns) c) with (run_turns svc turns (take_turn svc i c)).
  destruct (take_turn_step svc i c) as [E|Hs].
  - rewrite E. apply IH; [done|]. intros t. specialize (Hb t). lia.
  - destruct (own_step_growth c _ _ Hc Hlt Hb Hs) as [Hbs Hb'].
    eapply rtc_l; [exact Hbs|]. apply IH; [by eapply config_ok_step|].
    intros t. specialize (Hb' t). lia.
Qed.

Lemma receive_bounded inputs i c :
  Forall calls inputs → chains_below i64_max (c_world c) →
  (∀ j, (i ≤ j)%nat → c_threads c !! j = None) →
  rtc bounded_step c (receive i inputs c) ∧ c_world (receive i inputs c) = c_world c.
Proof.
  intros H. revert i c. induction H as [|input inputs Hi _ IH]; intros i c Hb Hnone; [done|].
  destruct (IH (S i) {| c_world := c_world c; c_owner := c_owner c;
    c_threads := <[i := {| th_input := input; th_phase := AtStart |}]> (c_threads c) |})
    as [Hr Hw]; [done| |].
  { intros j Hj. simpl. rewrite lookup_insert_ne by lia. apply Hnone. lia. }
  split; [|done]. eapply rtc_l; [|exact Hr].
  split; [done|apply (step_call svc calls others c i input Hi (Hnone i (le_n i)))].
Qed.

(** The runs the witnesses evaluate: the calls [inputs] arrive, then the threads
    take their [turns]. *)
Lemma scheduled_bounded inputs turns :
  service_inv svc w0 → Forall calls inputs →
  chains_below (i64_max - Z.of_nat (length turns)) w0 →
  rtc bounded_step (server_init w0) (run_turns svc turns (receive 0 inputs (server_init w0))).
Proof.
  intros Hinv Hin Hb. destruct (receive_bounded inputs 0 (server_init w0)) as [Hr Hw]; [done| |done|].
  { intros t. specialize (Hb t). simpl. lia. }
  etrans; [exact Hr|]. apply run_turns_bounded; [by apply config_ok_reachable|by rewrite Hw].
Qed.
End Invariant.

(** * Theorems *)

Section ConcurrentTheorems.
Context {P : Platform} {PL : PlatformLaws P} {R Pub : Type}.
Context `{!LedgerRepository R, !LedgerStore R, !LedgerStoreLaws R, !EventPublisher Pub}.
Context (svc : ImmutableLedgerService Pub) (calls others : WriteEntryInput → Prop).
Implicit Types (w : World R) (c : Config R).

(** C10: concurrent writes keep the ledger.  Start the server over a well-formed
    world; let calls arrive, interleave at every [await], be abandoned - even
    during a COMMIT that lands later - and let other processes write to the same
    repository.  All the requests, of the calls and of the others, are ones the
    repository can store as they are sent ([request_accepted]: over PostgreSQL,
    texts that fit their columns without being cut), and no chain is full.  In
    every state reached every chain still verifies, positions are dense, nothing
    that was stored has moved or changed, and every successful answer given so far
    describes an entry that is stored in the chain of its request with the
    request's data. *)
Theorem concurrent_writes_safe w c :
  Inj (=) (=) (uuid_v4 : nat → Uuid) →
  (∀ input, calls input → request_accepted (R := R) svc input) →
  (∀ input, others input → request_accepted (R := R) svc input) →
  service_inv svc w → rtc (bounded_step svc others calls) (server_init w) c →
  service_inv svc (c_world c) ∧ ledger_dense (w_ledger (c_world c))
  ∧ ledger_extends (w_ledger w) (w_ledger (c_world c))
  ∧ ∀ i th out, c_threads c !! i = Some th → th_phase th = Finished (Ok out) →
      ∃ e, e ∈ chain (w_ledger (c_world c)) (th_chain th) ∧ entry_for (th_input th) e
           ∧ output_of_entry e = out.
Proof.
  intros Hinj Hcalls Hothers Hinv H.
  assert (config_ok svc others w c) as Hc by (by apply (config_ok_reachable svc Hinj others w calls)).
  pose proof (ok_inv _ _ _ _ Hc) as Hinv'.
  split; [done|]. split; [apply store_dense, Hinv'|]. split; [apply (ok_ext _ _ _ _ Hc)|].
  intros i th out Hi Hp. destruct (ok_threads _ _ _ _ Hc i th Hi) as [_ Hok].
  by rewrite Hp in Hok.
Qed.

(** C12: the lock of a chain makes retries unnecessary.  Start the server over a
    well-formed world and let no chain be full.  When nobody writes to the
    repository without the lock - no other process, and no call abandoned while its
    COMMIT is under way - and the repository answers and can store every request as
    it is sent ([request_accepted]: over PostgreSQL, texts that fit their columns
    without being cut), no interleaving of the server's calls makes an append lose
    a race: the server never sleeps before a retry, never halts a chain, and a call
    fails only because its arguments are refused, because its chain was already
    halted when the server started, because its idempotency key belongs to an entry
    with other data, or because no attempt is configured. *)
Theorem concurrent_failures_explained w c i th x :
  Inj (=) (=) (uuid_v4 : nat → Uuid) →
  (∀ input, calls input → request_accepted (R := R) svc input) →
  (∀ input, ¬ others input) →
  service_inv svc w → rtc (bounded_step svc others calls) (server_init w) c →
  w_sleeps (c_world c) = w_sleeps w ∧ w_halted (c_world c) ⊆ w_halted w
  ∧ (c_threads c !! i = Some th → th_phase th = Finished (Err x) →
     error_explained svc w (c_world c) (th_input th) x).
Proof.
  intros Hinj Hcalls Hnone Hinv H.
  assert (config_ok svc others w c) as Hc
    by (apply (config_ok_reachable svc Hinj others w calls); try done; intros input Hi; by destruct (Hnone input)).
  destruct (ok_quiet _ _ _ _ Hc Hnone) as [Hh Hs]. do 2 (split; [done|]). intros Hi Hp.
  destruct (ok_threads _ _ _ _ Hc i th Hi) as [_ Hok]. rewrite Hp in Hok. by apply Hok.
Qed.

(** C13: idempotency under concurrency.  Start the server over a well-formed world
    and let no chain be full; let every request, of the calls and of the other
    writers, be one the repository can store as it is sent ([request_accepted]:
    over PostgreSQL, texts that fit their columns without being cut).  Of two
    calls for one chain that succeeded, however they overlapped: with the same
    idempotency key they are the same request and get the same answer, so the
    retries a client sends before the first answer is back append one entry;
    without a key each gets an entry of its own.  *)
Theorem concurrent_answers w c i j thi thj outi outj :
  Inj (=) (=) (uuid_v4 : nat → Uuid) →
  (∀ input, calls input → request_accepted (R := R) svc input) →
  (∀ input, others input → request_accepted (R := R) svc input) →
  service_inv svc w → rtc (bounded_step svc others calls) (server_init w) c →
  c_threads c !! i = Some thi → c_threads c !! j = Some thj →
  th_phase thi = Finished (Ok outi) → th_phase thj = Finished (Ok outj) →
  th_chain thi = th_chain thj →
  match wi_idempotency_key (th_input thi), wi_idempotency_key (th_input thj) with
  | Some key, Some key' => key = key' → th_input thi = th_input thj ∧ outi = outj
  | None, None => i ≠ j → wo_entry_id outi ≠ wo_entry_id outj
  | _, _ => wo_entry_id outi ≠ wo_entry_id outj
  end.
Proof.
  intros Hinj Hcalls Hothers Hinv H Hi Hj Pi Pj Ht.
  assert (config_ok svc others w c) as Hc by (by apply (config_ok_reachable svc Hinj others w calls)).
  destruct (ok_threads _ _ _ _ Hc i thi Hi) as [_ Oi], (ok_threads _ _ _ _ Hc j thj Hj) as [_ Oj].
  rewrite Pi in Oi. rewrite Pj in Oj.
  destruct Oi as (ei & Ei & (Ti & Ki & Mi) & <-), Oj as (ej & Ej & (Tj & Kj & Mj) & <-).
  pose proof (si_wf _ _ (ok_inv _ _ _ _ Hc)) as Hwf.
  fold (th_chain thi) in Ei. fold (th_chain thj) in Ej. rewrite <- Ht in Ej.
  assert (le_entry_id ei = le_entry_id ej → le_idempotency_key ei = le_idempotency_key ej) as Hid.
  { intros Heq. f_equal.
    by apply (shape_unique _ (store_shape _ (store_wf_ok _ Hwf)) _ _ _ _ Ei Ej). }
  destruct (wi_idempotency_key (th_input thi)) as [key|] eqn:Qi,
    (wi_idempotency_key (th_input thj)) as [key'|] eqn:Qj.
  - intros <-. assert (ei = ej) as <- by (by eapply (store_keys _ Hwf)). split; [|done].
    eapply idempotent_request_matches_inj; try done. congruence.
  - intros Heq%Hid. congruence.
  - intros Heq%Hid. congruence.
  - intros Hij. by eapply (ok_keyless _ _ _ _ Hc i j).
Qed.
End ConcurrentTheorems.

(** * Witnesses: four calls race for one chain *)

#[local] Existing Instance Toy.platform.
#[local] Existing Instance Toy.laws.

(** Two retries of one request, one of the key with other data, and a keyless
    request, one turn each in rotation until all have returned. *)
Definition race_inputs : list WriteEntryInput :=
  [demo_request; demo_request; demo_input "b" (Some "k"); demo_input "b" None].

Definition race_turns (rounds : nat) : list nat := mjoin (replicate rounds [0; 1; 2; 3]%nat).

Definition race (rounds : nat) : Config Inner :=
  run_turns demo_service (race_turns rounds) (receive 0 race_inputs (server_init demo_empty)).

Definition race_phase (c : Config Inner) (i : nat) : nat :=
  match th_phase <$> c_threads c !! i with
  | None => 0
  | Some (Finished (Ok _)) => 1
  | Some (Finished (Err _)) => 2
  | Some AtLock => 3
  | Some phase => if holds_lock phase then 4 else 5
  end.

Definition any_call (input : WriteEntryInput) : Prop := True.
Definition no_call (input : WriteEntryInput) : Prop := False.

Lemma race_reached rounds :
  (length (race_turns rounds) < 100)%nat →
  rtc (bounded_step demo_service no_call any_call) (server_init demo_empty) (race rounds).
Proof.
  intros H. apply (scheduled_bounded demo_service demo_uuid_inj no_call demo_empty any_call); try done.
  - apply demo_empty_inv.
  - by repeat constructor.
  - intros t. unfold w_ledger. rewrite demo_empty_chain. unfold i64_max. simpl. lia.
Qed.

(** Half way the first call holds the lock and the others wait. *)
Lemma race_half : map (race_phase (race 3)) [0; 1; 2; 3]%nat = [4; 3; 3; 3]%nat.
Proof. by_compute. Qed.

Lemma race_over : map (race_phase (race 14)) [0; 1; 2; 3]%nat = [1; 1; 2; 1]%nat.
Proof. by_compute. Qed.

Lemma race_thread rounds i n :
  race_phase (race rounds) i = S n →
  ∃ th, c_threads (race rounds) !! i = Some th
    ∧ match th_phase th with
      | Finished (Ok _) => n = 0%nat
      | Finished (Err _) => n = 1%nat
      | _ => (2 ≤ n)%nat
      end.
Proof.
  unfold race_phase. destruct (c_threads _ !! i) as [th|]; [|done]. simpl. intros H. exists th.
  split; [done|]. destruct (th_phase th) as [| | | | | | | | |[]]; simpl in H; lia.
Qed.

Lemma race_holds c i :
  race_phase c i = 4%nat → ∃ th, c_threads c !! i = Some th ∧ holds_lock (th_phase th) = true.
Proof.
  unfold race_phase. destruct (c_threads c !! i) as [th|]; [|done]. simpl. intros H. exists th.
  split; [done|]. by destruct (th_phase th) as [| | | | | | | | |[]].
Qed.

Lemma phases_are_write_entry_witness :
  run_alone demo_service 100 demo_request AtStart demo_one
  = finishing (write_entry_impl demo_service demo_request demo_one) Finished.
Proof. apply phases_are_write_entry. vm_compute. lia. Defined.

Lemma race_steps rounds :
  rtc (step demo_service any_call no_call) (server_init demo_empty) (race rounds).
Proof. apply scheduled_steps. by repeat constructor. Qed.

(** The first call holds the lock, the others wait for it. *)
Lemma locks_serialise_and_release_witness :
  ∃ th, c_threads (race 3) !! 0%nat = Some th ∧ holds_lock (th_phase th) = true
    ∧ (∀ j thj, c_threads (race 3) !! j = Some thj → holds_lock (th_phase thj) = true →
         th_chain th = th_chain thj → 0%nat = j)
    ∧ (∀ n c', nsteps (own_step demo_service) n (race 3) c' →
         (n ≤ work demo_service (race 3))%nat).
Proof.
  assert (race_phase (race 3) 0 = 4%nat) as H by by_compute.
  destruct (race_holds (race 3) 0 H) as (th & Hi & Hh). exists th. split; [exact Hi|].
  split; [exact Hh|].
  destruct (locks_serialise_and_release demo_service any_call no_call demo_empty (race 3)
              (race_steps 3)) as (Hex & Hwork & _).
  split; [|exact Hwork]. intros j thj Hj Hhj Ht. exact (Hex 0%nat j th thj Hi Hj Hh Hhj Ht).
Defined.

Lemma concurrent_writes_safe_witness :
  let c := race 14 in
  service_inv demo_service (c_world c) ∧ ledger_dense (w_ledger (c_world c))
  ∧ ledger_extends (w_ledger demo_empty) (w_ledger (c_world c))
  ∧ ∀ i th out, c_threads c !! i = Some th → th_phase th = Finished (Ok out) →
      ∃ e, e ∈ chain (w_ledger (c_world c)) (th_chain th) ∧ entry_for (th_input th) e
           ∧ output_of_entry e = out.
Proof.
  apply (concurrent_writes_safe demo_service any_call no_call demo_empty (race 14));
    [apply demo_uuid_inj|intros ? _; apply demo_accepted|intros ? []|apply demo_empty_inv
    |apply race_reached; vm_compute; lia].
Defined.

Lemma concurrent_failures_explained_witness :
  ∃ th x, c_threads (race 14) !! 2%nat = Some th ∧ th_phase th = Finished (Err x)
    ∧ error_explained demo_service demo_empty (c_world (race 14)) (th_input th) x.
Proof.
  assert (race_phase (race 14) 2 = 2%nat) as H by by_compute.
  destruct (race_thread 14 2 1 H) as (th & Hi & Hp).
  destruct (th_phase th) as [| | | | | | | | |[out|x]] eqn:Hph; try lia.
  exists th, x. split; [exact Hi|]. split; [exact Hph|].
  refine (proj2 (proj2 (concurrent_failures_explained demo_service any_call no_call demo_empty
            (race 14) 2 th x demo_uuid_inj _ _ demo_empty_inv (race_reached 14 _))) Hi Hph).
  - intros ? _. apply demo_accepted.
  - by intros ? [].
  - vm_compute. lia.
Defined.

(** The two retries of one request. *)
Lemma concurrent_answers_witness :
  ∃ thi thj outi, c_threads (race 14) !! 0%nat = Some thi ∧ c_threads (race 14) !! 1%nat = Some thj
    ∧ th_phase thi = Finished (Ok outi) ∧ th_phase thj = Finished (Ok outi).
Proof.
  assert (race_phase (race 14) 0 = 1%nat) as H0 by by_compute.
  assert (race_phase (race 14) 1 = 1%nat) as H1 by by_compute.
  assert (th_input <$> c_threads (race 14) !! 0%nat = Some demo_request) as I0 by by_compute.
  assert (th_input <$> c_threads (race 14) !! 1%nat = Some demo_request) as I1 by by_compute.
  destruct (race_thread 14 0 0 H0) as (thi & Hi & Pi), (race_thread 14 1 0 H1) as (thj & Hj & Pj).
  destruct (th_phase thi) as [| | | | | | | | |[outi|]] eqn:Hpi; try lia.
  destruct (th_phase thj) as [| | | | | | | | |[outj|]] eqn:Hpj; try lia.
  rewrite Hi in I0. rewrite Hj in I1. injection I0 as I0. injection I1 as I1.
  assert (outi = outj) as <-.
  2: { exists thi, thj, outi. split; [exact Hi|]. split; [exact Hj|]. split; [exact Hpi|exact Hpj]. }
  pose proof (concurrent_answers demo_service any_call no_call demo_empty (race 14) 0 1 thi thj
                outi outj) as H.
  rewrite I0, I1 in H.
  refine (proj2 (H demo_uuid_inj _ _ demo_empty_inv (race_reached 14 _) Hi Hj Hpi Hpj _ eq_refl)).
  - intros ? _. apply demo_accepted.
  - intros ? [].
  - vm_compute. lia.
  - unfold th_chain. by rewrite I0, I1.
Defined.
