(* ===== verification/TestRepos.v ===== *)
(** * Repositories that misbehave: the doubles of the service tests

    [StaticRepo] serves fixed chains, [FailingRepo] answers every call with one
    error, [AlwaysChainViolationRepo] refuses every append.  They are further
    instances of the trait, and the theorems show what the service makes of such
    repositories: how it surfaces errors, and how the retry loop backs off and
    halts the chain. *)

From Stdlib Require Import String Strings.Byte ZArith Lia.
From stdpp Require Import base tactics numbers strings list gmap sorting.
From S2P Require Import Prelude Platform Crypto Repository Config World Service LedgerSpec.
From S2P Require Import InMemory Chain Examples ServiceWrite.

Section Repositories.
Context {P : Platform}.

Record StaticRepo := {
  st_entries : gmap Uuid LedgerEntryRecord;
  st_entries_by_type : gmap string (list LedgerEntryRecord)
}.

#[global] Instance static_repository : LedgerRepository StaticRepo := {|
  write_entry_with_outbox _ n r := (Err Unavailable, n, r);
  get_entry id r := (ok_or (st_entries r !! id) NotFound, r);
  query_entries _ r := (Ok {| qr_entries := []; qr_total_count := 0 |}, r);
  get_chain_tip _ r := (Err NotFound, r);
  get_entries_by_type_paged t after limit r :=
    (Ok (take (Z.to_nat (wrap_u 64 limit))
           (filter (λ e, after < le_chain_position e) (default [] (st_entries_by_type r !! t)))), r);
  find_idempotent _ _ r := (Ok None, r);
  get_entry_by_hash t h r :=
    (ok_or (head (filter (λ e, String.eqb (le_entry_type e) t
                               && String.eqb (le_entry_hash e) h = true)
                    (hashmap_values (st_entries r)))) NotFound, r);
  pending_outbox r := (Ok [], r);
  mark_outbox_delivered _ r := (Ok tt, r);
  increment_outbox_attempt _ r := (Ok tt, r);
  mark_outbox_failed _ r := (Ok tt, r);
  get_distinct_entry_types r :=
    (Ok (stable_sort String.leb (hashmap_keys (st_entries_by_type r))), r)
|}.

Record FailingRepo := { fr_error : RepositoryError }.

#[global] Instance failing_repository : LedgerRepository FailingRepo := {|
  write_entry_with_outbox _ n r := (Err (fr_error r), n, r);
  get_entry _ r := (Err (fr_error r), r);
  query_entries _ r := (Err (fr_error r), r);
  get_chain_tip _ r := (Err (fr_error r), r);
  get_entries_by_type_paged _ _ _ r := (Err (fr_error r), r);
  find_idempotent _ _ r := (Err (fr_error r), r);
  get_entry_by_hash _ _ r := (Err (fr_error r), r);
  pending_outbox r := (Ok [], r);
  mark_outbox_delivered _ r := (Err (fr_error r), r);
  increment_outbox_attempt _ r := (Err (fr_error r), r);
  mark_outbox_failed _ r := (Err (fr_error r), r);
  get_distinct_entry_types r := (Err (fr_error r), r)
|}.

(** The state counts the tips made up so far: each has a new identifier. *)
Record AlwaysChainViolationRepo := { av_tips : nat }.

#[global] Instance always_violating_repository : LedgerRepository AlwaysChainViolationRepo := {|
  write_entry_with_outbox _ n r := (Err ChainIntegrityViolation, n, r);
  get_entry _ r := (Err NotFound, r);
  query_entries _ r := (Ok {| qr_entries := []; qr_total_count := 0 |}, r);
  get_chain_tip _ r :=
    (Ok {| ct_entry_id := uuid_v4 (av_tips r); ct_hash := "tip";
           ct_hash_version := ENTRY_HASH_VERSION; ct_position := 1;
           ct_written_ts := utc_now (av_tips r) |}, {| av_tips := S (av_tips r) |});
  get_entries_by_type_paged _ _ _ r := (Ok [], r);
  find_idempotent _ _ r := (Ok None, r);
  get_entry_by_hash _ _ r := (Err NotFound, r);
  pending_outbox r := (Ok [], r);
  mark_outbox_delivered _ r := (Ok tt, r);
  increment_outbox_attempt _ r := (Ok tt, r);
  mark_outbox_failed _ r := (Ok tt, r);
  get_distinct_entry_types r := (Ok [], r)
|}.

(** The static repository as a chain reader: the two maps hold the same entries. *)
Record static_ok (r : StaticRepo) : Prop := {
  so_shape : ledger_shape (st_entries_by_type r);
  so_agree : ∀ id e, st_entries r !! id = Some e ↔
    e ∈ chain (st_entries_by_type r) (le_entry_type e) ∧ le_entry_id e = id
}.

#[global] Instance static_store : LedgerStore StaticRepo := {|
  ledger_of := st_entries_by_type; store_ok := static_ok; store_wf _ := False; store_fresh _ _ := False;
  store_accepts _ := False; store_reads _ := true; store_time ts := ts
|}.

(** A repository together with the appends that were asked of it, in order. *)
Record Recording (R : Type) := { rc_repo : R; rc_appends : list EntryWriteInput }.
#[global] Arguments rc_repo {R} _.
#[global] Arguments rc_appends {R} _.

Definition on_repo {R A} (f : R → A * R) (r : Recording R) : A * Recording R :=
  let '(a, r') := f (rc_repo r) in (a, {| rc_repo := r'; rc_appends := rc_appends r |}).

#[global] Instance recording_repository {R} `{!LedgerRepository R} : LedgerRepository (Recording R) := {|
  write_entry_with_outbox input n r :=
    let '(res, n', r') := write_entry_with_outbox input n (rc_repo r) in
    (res, n', {| rc_repo := r'; rc_appends := rc_appends r ++ [input] |});
  get_entry id := on_repo (get_entry id);
  query_entries query := on_repo (query_entries query);
  get_chain_tip t := on_repo (get_chain_tip t);
  get_entries_by_type_paged t after limit := on_repo (get_entries_by_type_paged t after limit);
  find_idempotent t key := on_repo (find_idempotent t key);
  get_entry_by_hash t h := on_repo (get_entry_by_hash t h);
  pending_outbox := on_repo pending_outbox;
  mark_outbox_delivered id := on_repo (mark_outbox_delivered id);
  increment_outbox_attempt id := on_repo (increment_outbox_attempt id);
  mark_outbox_failed id := on_repo (mark_outbox_failed id);
  get_distinct_entry_types := on_repo get_distinct_entry_types
|}.

(** A repository that reads well but refuses every append. *)
Record always_violates (R : Type) `{!LedgerRepository R} : Prop := {
  av_tip : ∀ t (r : R), ∃ tip r', get_chain_tip t r = (Ok tip, r');
  av_key : ∀ t key (r : R), ∃ r', find_idempotent t key r = (Ok None, r');
  av_write : ∀ input n (r : R), ∃ n' r',
    write_entry_with_outbox input n r = (Err ChainIntegrityViolation, n', r')
}.

(** The sleeps of [n] failed attempts from attempt [a], newest first. *)
Fixpoint backoffs (a : Z) (n : nat) (acc : list Z) : list Z :=
  match n with
  | O => acc
  | S n' => backoffs (a + 1) n' (10 * 2 ^ a :: acc)
  end.
End Repositories.

(** * Lemmas *)

Section TestRepoLemmas.
Context {P : Platform} {PL : PlatformLaws P}.

#[global] Instance static_reader : ChainReaderLaws StaticRepo.
Proof.
  split.
  - apply so_shape.
  - intros r id Hr. simpl. do 2 f_equal. apply option_eq. intros e.
    rewrite (so_agree r Hr), spec_find_Some by apply (so_shape r Hr). done.
  - intros r t after limit _ Hl. simpl. unfold spec_paged, chain.
    rewrite wrap_u_small by (unfold i64_max in Hl; lia). done.
  - done.
Qed.

Lemma backoff_exact (a : Z) : 0 ≤ a ≤ 60 → backoff a = 10 * 2 ^ a.
Proof.
  intros Ha. unfold backoff, u64_mul, u64_pow.
  assert (2 ^ a ≤ 2 ^ 60) by (apply Z.pow_le_mono_r; lia).
  assert (0 < 2 ^ a) by (apply Z.pow_pos_nonneg; lia).
  rewrite (wrap_u_small 64 (2 ^ a)) by lia. apply wrap_u_small. lia.
Qed.

Context {R Pub : Type} `{!LedgerRepository R, !EventPublisher Pub}.
Context (svc : ImmutableLedgerService Pub) (HR : always_violates R).
Implicit Types (w : World (Recording R)) (input : WriteEntryInput).

(** Between [w] and [w'] the repository was asked for [n] appends of the request. *)
Definition attempts_made input (n : nat) w w' : Prop :=
  ∃ appends, rc_appends (w_repo w') = rc_appends (w_repo w) ++ appends ∧ length appends = n
    ∧ Forall (λ write, ∃ h k, write = entry_write_input input h (utc_now k) (create_outbox svc)) appends.

Lemma attempts_cons input n w w1 w' h k :
  rc_appends (w_repo w1)
    = rc_appends (w_repo w) ++ [entry_write_input input h (utc_now k) (create_outbox svc)] →
  attempts_made input n w1 w' → attempts_made input (S n) w w'.
Proof.
  intros H1 (appends & Ha & <- & Hall). rewrite H1, <- (assoc (++)) in Ha.
  eexists. split; [exact Ha|]. split; [done|]. constructor; [by eexists _, _|done].
Qed.

Lemma write_loop_violates input k a max w :
  0 ≤ a → a + Z.of_nat (S k) = max → max ≤ 61 →
  ∃ w' now, write_loop svc input max (S k) a w = (Err (SInternal integrity_message), w')
    ∧ attempts_made input (S k) w w'
    ∧ w_sleeps w' = backoffs a k (w_sleeps w)
    ∧ (w_clock w ≤ now < w_clock w')%nat
    ∧ w_halted w' = <[wi_entry_type input := instant_now now]> (w_halted w).
Proof.
  revert a w. induction k as [|k IH]; intros a w Ha Hmax Hle.
  2: remember (S k) as k1 eqn:Hk1.
  all: cbn [write_loop]; run_M; unfold call;
    cbn [get_chain_tip recording_repository on_repo]; unfold on_repo;
    destruct (av_tip _ HR (wi_entry_type input) (rc_repo (w_repo w))) as (tip & r1 & ->);
    cbv beta iota; unfold call_write; cbn [w_repo w_uuids set_repo tick];
    cbn [write_entry_with_outbox recording_repository rc_repo rc_appends];
    match goal with |- context [write_entry_with_outbox ?i ?n ?r] =>
      destruct (av_write _ HR i n r) as (n' & r' & ->) end; cbv beta iota.
  - rewrite (proj2 (Z.ltb_ge _ _)) by lia. cbn.
    eexists _, (S (w_clock w)). split; [reflexivity|]. simpl. split; [|split; [done|]; split; [lia|done]].
    eexists [_]. split; [reflexivity|]. split; [done|]. repeat constructor. by eexists _, _.
  - rewrite (proj2 (Z.ltb_lt _ _)) by lia.
    rewrite backoff_exact by lia.
    subst k1.
    match goal with |- context [write_loop svc input max (S k) (a + 1) ?w2] =>
      destruct (IH (a + 1) w2) as (w' & now & -> & Hatt & Hs & Hn & Hh); [lia..|] end.
    exists w', now. split; [done|]. split; [by eapply attempts_cons; [|exact Hatt]|].
    cbn in Hs, Hn, Hh. rewrite Hs, Hh.
    split; [done|]. split; [lia|done].
Qed.
End TestRepoLemmas.

(** * Properties *)

Section TestRepoProperties.
Context {P : Platform} {PL : PlatformLaws P} {Pub : Type} `{!EventPublisher Pub}.
Context (svc : ImmutableLedgerService Pub).

(** C30: bounded retries, then a halt: over a repository that has a tip for every
    chain, no entry for any idempotency key, and refuses every append with a chain
    integrity violation, a well-formed write on a chain that is not halted asks for
    exactly [chain_max_retries] appends (1 to 61 of them), each of the request,
    sleeps 10, 20, 40, ... milliseconds, once less often, then halts the chain at
    that moment and answers Internal.  [Recording] is the repository with the list
    of the appends it was asked for. *)
Theorem retries_back_off_and_halt {R} `{!LedgerRepository R} (w : World (Recording R))
    (input : WriteEntryInput) :
  always_violates R → check_arguments svc input = Ok tt →
  w_halted w !! wi_entry_type input = None →
  1 ≤ chain_max_retries (svc_config svc) ≤ 61 →
  ∃ w' now, write_entry svc input w = (Err (SInternal integrity_message), w')
    ∧ attempts_made svc input (Z.to_nat (chain_max_retries (svc_config svc))) w w'
    ∧ w_sleeps w'
      = backoffs 0 (Z.to_nat (chain_max_retries (svc_config svc)) - 1) (w_sleeps w)
    ∧ (w_clock w ≤ now < w_clock w')%nat
    ∧ w_halted w' = <[wi_entry_type input := instant_now now]> (w_halted w).
Proof.
  intros HR Hargs Hh Hm. unfold write_entry, write_entry_impl. rewrite Hargs.
  unfold check_halted. run_M. cbn [w_halted tick]. rewrite Hh. cbv beta iota.
  assert (∃ w1, check_idempotent input (tick w) = (Ok None, w1) ∧ w_sleeps w1 = w_sleeps w
          ∧ w_clock w1 = S (w_clock w) ∧ w_halted w1 = w_halted w
          ∧ rc_appends (w_repo w1) = rc_appends (w_repo w)) as (w1 & -> & Hs1 & Hc1 & Hh1 & Ha1).
  { unfold check_idempotent. destruct (wi_idempotency_key input) as [key|]; [|by eexists].
    run_M. unfold call. cbn [w_repo tick find_idempotent recording_repository]. unfold on_repo.
    destruct (av_key _ HR (wi_entry_type input) key (rc_repo (w_repo w))) as [r' ->]. by eexists. }
  cbv beta iota.
  destruct (Z.to_nat (chain_max_retries (svc_config svc))) as [|k] eqn:Hk; [lia|].
  destruct (write_loop_violates svc HR input k 0 (chain_max_retries (svc_config svc))
    (set_locks ({[wi_entry_type input]} ∪ w_locks w1) w1))
    as (w' & now & -> & (appends & Happ & Hlen & Hall) & Hs & Hn & Hh'); [lia..|].
  cbv beta iota. eexists _, now. split; [reflexivity|]. cbn in *.
  split; [exists appends; by rewrite <- Ha1|].
  rewrite Hs, Hh', Hs1, Hh1. replace (k - 0)%nat with k by lia. split; [done|].
  split; [lia|done].
Qed.

(** Repository errors surface: over a repository that fails every call with
    one error, every read, verification and well-formed write (with or without a
    key, at least one attempt) answers with that error's service form, and
    nothing is retried, halted or published. *)
Theorem repository_errors_surface (w : World FailingRepo) (input : WriteEntryInput)
    (id : Uuid) (t h : string) (query : QueryEntriesInput) (fuel : nat) (max_entries : Z) :
  let e := map_repo (fr_error (w_repo w)) in
  check_arguments svc input = Ok tt → w_halted w !! wi_entry_type input = None →
  0 < chain_max_retries (svc_config svc) → (0 < fuel)%nat → 0 < max_entries →
  service_get_entry id w = (Err e, w)
  ∧ service_query_entries query w = (Err e, w)
  ∧ service_get_chain_tip t w = (Err e, w)
  ∧ service_get_entry_by_hash t h w = (Err e, w)
  ∧ service_get_distinct_entry_types w = (Err e, w)
  ∧ verify_entry svc id w = (Err e, w)
  ∧ (verify_proof t h w).1 = Err e
  ∧ verify_chain svc fuel t None None w = (Some (Err e), w)
  ∧ verify_recent_chain svc fuel t max_entries w = (Some (Err e), w)
  ∧ (let '(out, w') := write_entry svc input w in
     out = Err e ∧ w_sleeps w' = w_sleeps w ∧ w_halted w' = w_halted w ∧ w_repo w' = w_repo w).
Proof.
  intros e Hargs Hh Hm Hfuel Hmax.
  assert (∀ A (f : FailingRepo → result A RepositoryError * FailingRepo),
    f (w_repo w) = (Err (fr_error (w_repo w)), w_repo w) →
    ∀ B (k : result A RepositoryError → M FailingRepo B),
      mbind_M (call f) k w = k (Err (fr_error (w_repo w))) w) as Hcall.
  { intros A f Hf B k. by apply bind_call_read. }
  assert (verify_chain svc fuel t None None w = (Some (Err e), w)) as Hchain.
  { destruct fuel as [|fuel]; [lia|]. unfold verify_chain, bound_position, start_hash. run_M.
    change (i64_max <? 1) with false. change (1 =? 1) with true. cbv beta iota.
    cbn [verify_loop]. by rewrite Hcall. }
  assert (verify_recent_chain svc fuel t max_entries w = (Some (Err e), w)) as Hrecent.
  { unfold verify_recent_chain. rewrite (proj2 (Z.leb_gt _ _)) by lia. rewrite Hcall by done.
    unfold e in *. by destruct (fr_error (w_repo w)). }
  repeat split; try done; try (by apply Hcall); try (by unfold verify_entry; apply Hcall).
  destruct (write_entry svc input w) as [out w'] eqn:Hw. revert Hw.
  unfold write_entry, write_entry_impl. rewrite Hargs. unfold check_halted. run_M.
  cbn [w_halted tick]. rewrite Hh. cbv beta iota. unfold check_idempotent.
  destruct (wi_idempotency_key input) as [key|].
  - run_M. unfold call. cbn. by intros [= <- <-].
  - destruct (Z.to_nat (chain_max_retries (svc_config svc))) as [|k] eqn:Hk; [lia|].
    run_M. cbn [write_loop]. run_M. unfold call. cbn. unfold e.
    destruct (fr_error (w_repo w)) eqn:He; cbn; rewrite ?He; by intros [= <- <-].
Qed.
End TestRepoProperties.

(** * Witnesses *)

#[local] Existing Instance Toy.platform.
#[local] Existing Instance Toy.laws.

Lemma always_violating_violates : always_violates AlwaysChainViolationRepo.
Proof. split; intros; by repeat eexists. Qed.

Definition demo_violating : World (Recording AlwaysChainViolationRepo) :=
  world_init {| rc_repo := {| av_tips := 0 |}; rc_appends := [] |}.

Lemma retries_back_off_and_halt_witness :
  ∃ w' now, write_entry demo_service demo_request demo_violating
            = (Err (SInternal integrity_message), w')
    ∧ attempts_made demo_service demo_request 10 demo_violating w'
    ∧ w_sleeps w' = backoffs 0 9 []
    ∧ (0 ≤ now < w_clock w')%nat
    ∧ w_halted w' = <["t" := instant_now now]> ∅.
Proof.
  apply (retries_back_off_and_halt demo_service demo_violating demo_request);
    [apply always_violating_violates|reflexivity|reflexivity|by split].
Defined.

Lemma repository_errors_surface_witness :
  service_get_entry (uuid_v4 0) (world_init {| fr_error := Unavailable |})
  = (Err SUnavailable, world_init {| fr_error := Unavailable |}).
Proof.
  apply (repository_errors_surface demo_service (world_init {| fr_error := Unavailable |})
           demo_request (uuid_v4 0) "t" "h" {| qi_entry_type := None; qi_agent_id := None;
             qi_source_id := None; qi_correlation_id := None; qi_from_ts := None;
             qi_to_ts := None; qi_page_size := 0; qi_page_token := None |} 1 1);
    (reflexivity || lia).
Defined.
