(* ===== verification/ServiceVerify.v ===== *)
(** * What [verify_chain], [verify_recent_chain], [verify_entry] and [verify_proof] do

    [spec_verify_chain] is the specification: resolve the bounds, take the hash
    the first entry must link to, and [audit] the window in one pass.
    [verify_chain_audit] shows that the batched walk of the code computes it and
    how much fuel its loop needs; the other theorems say what an answer means
    for the ledger: completeness on honest ledgers, and detection of tampering
    up to an explicit SHA-256 collision. *)

From Stdlib Require Import String Strings.Byte ZArith Lia.
From stdpp Require Import base tactics numbers strings list gmap sorting.
From S2P Require Import Prelude Platform Crypto Repository Config World Service LedgerSpec.
From S2P Require Import InMemory Chain Examples ServiceWrite.

Section Spec.
Context {P : Platform} {R Pub : Type}.
Context (svc : ImmutableLedgerService Pub).

(** The entries of a chain at positions [lo] to [hi]. *)
Definition window (L : Ledger) (t : string) (lo hi : Z) : list LedgerEntryRecord :=
  filter (λ e, le_chain_position e ≤ hi) (filter (λ e, lo - 1 < le_chain_position e) (chain L t)).

Definition spec_bound (L : Ledger) (t : string) (id : option Uuid) (if_absent : Z)
    (message : string) : result Z ServiceError :=
  match id with
  | None => Ok if_absent
  | Some id =>
      match spec_find L id with
      | None => Err SNotFound
      | Some e =>
          if String.eqb (le_entry_type e) t then Ok (le_chain_position e)
          else Err (SInvalidArgument message)
      end
  end.

(** The hash the entry at position [lo] must link to: that of the first entry at
    position [lo - 1] or later. *)
Definition spec_start_hash (L : Ledger) (t : string) (lo : Z) : option string :=
  if lo =? 1 then Some (genesis_hash svc)
  else le_entry_hash <$> head (filter (λ e, lo - 2 < le_chain_position e) (chain L t)).

(** [readable]: the repository can be asked for the chain of [t]. *)
Definition spec_verify_chain (readable : bool) (L : Ledger) (t : string)
    (start_id end_id : option Uuid)
    : result VerifyChainOutput ServiceError :=
  let? lo := spec_bound L t start_id 1 "start_entry_id does not belong to entry_type" in
  let? hi := spec_bound L t end_id i64_max "end_entry_id does not belong to entry_type" in
  if hi <? lo then Err (SInvalidArgument "start_entry_id must not follow end_entry_id")
  else if negb readable then Err SUnavailable
  else
    match spec_start_hash L t lo with
    | None => Ok (chain_bad 0 None "predecessor_not_found")
    | Some prev => Ok (audit prev 0 (window L t lo hi))
    end.

(** The failure counter moves when an entry is reported. *)
Definition count_failure (out : result VerifyChainOutput ServiceError) (w : World R) : World R :=
  match out with
  | Ok o => if bool_decide (vc_first_invalid_entry_id o = None) then w
            else map_metrics inc_verify_failure w
  | Err _ => w
  end.
End Spec.

(** * Lemmas *)

Section BatchLemmas.
Context {P : Platform}.
Implicit Types (e : LedgerEntryRecord) (l batch tail : list LedgerEntryRecord).

Definition upto (hi : Z) l : list LedgerEntryRecord := filter (λ e, le_chain_position e ≤ hi) l.

Lemma upto_nil hi e l :
  StronglySorted position_lt (e :: l) → hi < le_chain_position e → upto hi (e :: l) = [].
Proof.
  intros [_ Hall]%StronglySorted_inv Hhi. apply filter_none. constructor; [lia|].
  eapply Forall_impl; [exact Hall|]. unfold position_lt. intros. lia.
Qed.

(** The entries after the last one of a batch are the rest of the chain. *)
Lemma filter_after_last batch e tail :
  StronglySorted position_lt (batch ++ tail) → last batch = Some e →
  filter (λ e', le_chain_position e < le_chain_position e') (batch ++ tail) = tail.
Proof.
  intros Hs [batch' ->]%last_Some. rewrite filter_app, filter_none, filter_all; [done|..].
  - apply Forall_forall. intros e' He'.
    eapply (StronglySorted_app_1_elem_of position_lt); [exact Hs| |done].
    apply elem_of_app. right. by left.
  - apply StronglySorted_app_1_l in Hs. apply Forall_forall.
    intros e' [He'|He']%elem_of_app.
    + assert (position_lt e' e); [|unfold position_lt in *; lia].
      eapply (StronglySorted_app_1_elem_of position_lt); [exact Hs|done|by left].
    + apply list_elem_of_singleton in He' as ->. lia.
Qed.

Lemma filter_after_weaken a b l :
  a ≤ b →
  filter (λ e, b < le_chain_position e) (filter (λ e, a < le_chain_position e) l)
  = filter (λ e, b < le_chain_position e) l.
Proof.
  intros Hab. rewrite list_filter_filter. apply list_filter_iff. intros. lia.
Qed.

Lemma verify_batch_step hi e batch c :
  verify_batch hi (e :: batch) c
  = if hi <? le_chain_position e then inl (chain_ok (cu_entries_checked c))
    else match entry_fault (cu_prev_hash c) e with
         | Some reason =>
             inl (chain_bad (i64_add (cu_entries_checked c) 1) (Some (le_entry_id e)) reason)
         | None =>
             verify_batch hi batch
               {| cu_prev_hash := le_entry_hash e; cu_after_position := le_chain_position e;
                  cu_entries_checked := i64_add (cu_entries_checked c) 1 |}
         end.
Proof.
  cbn [verify_batch]. unfold entry_fault. destruct (_ <? _); [done|].
  destruct (String.eqb _ _); [|done]. simpl.
  destruct (entry_recomputed e) as [h|]; [|by rewrite bool_decide_false].
  destruct (String.eqb_spec h (le_entry_hash e)) as [->|Hne].
  - by rewrite bool_decide_true.
  - by rewrite bool_decide_false by congruence.
Qed.

(** A batch followed by any [tail]: either the walk ends in it, with the answer
    of the audit, or it goes on with the audit of the tail. *)
Lemma verify_batch_audit hi batch c tail :
  StronglySorted position_lt (batch ++ tail) →
  0 ≤ cu_entries_checked c → cu_entries_checked c + Z.of_nat (length batch) ≤ i64_max →
  let whole := audit (cu_prev_hash c) (cu_entries_checked c) (upto hi (batch ++ tail)) in
  match verify_batch hi batch c with
  | inl out => whole = out
  | inr c' =>
      whole = audit (cu_prev_hash c') (cu_entries_checked c') (upto hi tail)
      ∧ cu_entries_checked c' = cu_entries_checked c + Z.of_nat (length batch)
      ∧ match last batch with
        | Some e => cu_after_position c' = le_chain_position e
        | None => cu_after_position c' = cu_after_position c
        end
  end.
Proof.
  revert c. induction batch as [|e batch IH]; intros c Hs Hc Hlen whole.
  { simpl in *. split; [done|]. split; [lia|done]. }
  rewrite verify_batch_step. unfold whole. cbn [app].
  destruct (Z.ltb_spec hi (le_chain_position e)) as [Hhi|Hhi]; [by rewrite upto_nil|].
  unfold upto. rewrite filter_cons_True by done. cbn [audit].
  assert (i64_add (cu_entries_checked c) 1 = cu_entries_checked c + 1) as ->.
  { apply i64_add_small. simpl in Hlen. unfold i64_ok, i64_min, i64_max in *. lia. }
  destruct (entry_fault (cu_prev_hash c) e) as [reason|]; [done|].
  apply StronglySorted_inv in Hs as [Hs _].
  specialize (IH {| cu_prev_hash := le_entry_hash e; cu_after_position := le_chain_position e;
                    cu_entries_checked := cu_entries_checked c + 1 |} Hs).
  cbn in IH. destruct (verify_batch hi batch _) as [out|c'].
  - apply IH; simpl in *; lia.
  - destruct IH as (HA & HB & HC); [simpl in *; lia..|].
    split; [done|]. split; [simpl in *; lia|]. rewrite last_cons. by destruct (last batch).
Qed.
End BatchLemmas.

Section LoopLemmas.
Context {P : Platform} {PL : PlatformLaws P} {R Pub : Type}.
Context `{!LedgerRepository R, !LedgerStore R, !ChainReaderLaws R}.
Context (svc : ImmutableLedgerService Pub).
Implicit Types (w : World R) (L : Ledger).

Lemma positions_count (lo : Z) (l : list LedgerEntryRecord) :
  StronglySorted position_lt l →
  Forall (λ e, lo < le_chain_position e ≤ i64_max) l →
  lo + Z.of_nat (length l) ≤ Z.max lo i64_max.
Proof.
  intros Hs. revert lo. induction Hs as [|e l Hs IH He]; intros lo Hb; simpl; [lia|].
  apply Forall_cons in Hb as [Hb Hl]. specialize (IH (le_chain_position e)).
  enough (le_chain_position e + Z.of_nat (length l) ≤ Z.max (le_chain_position e) i64_max) by lia.
  apply IH. apply Forall_forall. intros e' He'. rewrite Forall_forall in He, Hl.
  specialize (He e' He'). specialize (Hl e' He'). unfold position_lt in He. simpl in *. lia.
Qed.

Lemma length_paged L t after :
  (length (spec_paged L t after BATCH_SIZE) ≤ 50)%nat.
Proof. unfold spec_paged. rewrite length_take. unfold BATCH_SIZE. lia. Qed.

Lemma chain_length_bound L t : ledger_shape L → Z.of_nat (length (chain L t)) ≤ i64_max.
Proof.
  intros HL. pose proof (positions_count 0 (chain L t) (shape_sorted L HL t)) as H.
  unfold i64_max in *. enough (0 + Z.of_nat (length (chain L t)) ≤ Z.max 0 (2 ^ 63 - 1)) by lia.
  apply H. apply Forall_forall. intros e He. apply (shape_bounds L HL) in He.
  unfold i64_max in He. lia.
Qed.

Lemma verify_batch_counts hi batch c out :
  verify_batch hi batch c = inl out →
  (vc_chain_valid out = true ↔ vc_first_invalid_entry_id out = None).
Proof.
  revert c. induction batch as [|e batch IH]; intros c; [done|].
  rewrite verify_batch_step. repeat case_match; [..|by apply IH]; intros [= <-]; by split.
Qed.

Lemma finish_batch_eq hi batch c out w :
  verify_batch hi batch c = inl out →
  finish_batch out w = (Ok out, count_failure (Ok out) w).
Proof.
  intros H%verify_batch_counts. unfold finish_batch, count_failure. run_M.
  destruct (vc_chain_valid out).
  - by rewrite bool_decide_true by by apply H.
  - rewrite bool_decide_false; [done|]. intros Hn. by apply H in Hn.
Qed.

(** The batched walk from a cursor is the audit of the entries after it. *)
Lemma verify_loop_audit fuel w t hi c :
  let rest := filter (λ e, cu_after_position c < le_chain_position e)
                (chain (ledger_of (w_repo w)) t) in
  store_ok (w_repo w) → store_reads (R := R) t = true → (length rest < fuel)%nat →
  0 ≤ cu_entries_checked c → cu_entries_checked c + Z.of_nat (length rest) ≤ i64_max →
  let out := Ok (audit (cu_prev_hash c) (cu_entries_checked c) (upto hi rest)) in
  verify_loop fuel t hi c w = (Some out, count_failure out w).
Proof.
  revert c. induction fuel as [|fuel IH]; intros c rest Hok Hread Hfuel Hc Hmax out; [lia|].
  pose proof (store_shape _ Hok) as HL.
  assert (StronglySorted position_lt rest) as Hs
    by (apply StronglySorted_filter, (shape_sorted _ HL)).
  cbn [verify_loop].
  rewrite (bind_call_read _ _ _ _ (get_entries_by_type_paged_law _ t (cu_after_position c)
    BATCH_SIZE Hok ltac:(unfold BATCH_SIZE, i64_max; lia))), Hread.
  cbn [asked map_err]. unfold spec_paged. fold rest.
  change (Z.to_nat BATCH_SIZE) with 50%nat.
  destruct (is_nil (take 50 rest)) eqn:Hnil.
  { apply is_nil_true in Hnil. unfold out. by destruct rest. }
  pose proof (verify_batch_audit hi (take 50 rest) c (drop 50 rest)) as HA.
  rewrite take_drop in HA. specialize (HA Hs Hc).
  pose proof (length_take_le rest 50).
  destruct (verify_batch hi (take 50 rest) c) as [o|c'] eqn:Hb.
  { cbv zeta in HA. unfold out. rewrite HA by (rewrite length_take; lia). run_M.
    by rewrite (finish_batch_eq _ _ _ _ _ Hb). }
  destruct HA as (HA & Hcnt & Hafter); [rewrite length_take; lia|].
  destruct (last (take 50 rest)) as [e|] eqn:Hlast.
  2: { apply last_None in Hlast. by rewrite Hlast in Hnil. }
  assert (filter (λ e', cu_after_position c' < le_chain_position e')
            (chain (ledger_of (w_repo w)) t) = drop 50 rest) as Htail.
  { rewrite <- (filter_after_weaken (cu_after_position c)).
    - fold rest. rewrite <- (take_drop 50 rest) at 1. rewrite Hafter.
      apply filter_after_last; [by rewrite take_drop|done].
    - rewrite Hafter. apply last_Some_elem_of in Hlast.
      apply subseteq_take, list_elem_of_filter in Hlast. lia. }
  unfold out. rewrite HA. rewrite length_take.
  destruct (Z.ltb_spec (Z.of_nat (50 `min` length rest)) BATCH_SIZE) as [Hlt|Hlt].
  - unfold BATCH_SIZE in Hlt. rewrite drop_ge by lia. done.
  - rewrite <- Htail. apply IH; rewrite ?Htail, ?length_drop, ?Hcnt, ?length_take;
      unfold BATCH_SIZE in *; try done; lia.
Qed.

Lemma bound_position_spec w t id if_absent message :
  store_ok (w_repo w) →
  bound_position t id if_absent message w
  = (spec_bound (w_ledger w) t id if_absent message, w).
Proof.
  intros Hok. unfold bound_position, spec_bound, w_ledger. destruct id as [id|]; [|done].
  rewrite (bind_call_read _ _ _ _ (get_entry_law _ id Hok)).
  destruct (spec_find _ id) as [e|]; simpl; [|done]. by destruct (String.eqb _ _).
Qed.

Lemma start_hash_spec w t lo :
  store_ok (w_repo w) → store_reads (R := R) t = true → 1 ≤ lo ≤ i64_max →
  start_hash svc t lo w
  = (Ok match spec_start_hash svc (w_ledger w) t lo with
        | Some prev => inr prev
        | None => inl (chain_bad 0 None "predecessor_not_found")
        end, w).
Proof.
  intros Hok Hread Hlo. unfold start_hash, spec_start_hash, w_ledger. destruct (lo =? 1); [done|].
  rewrite (bind_call_read _ _ _ _ (get_entries_by_type_paged_law _ t (i64_sub lo 2) 1 Hok
    ltac:(unfold i64_max; lia))), Hread.
  unfold spec_paged. rewrite i64_sub_small by (unfold i64_ok, i64_min; lia). cbn [asked map_err].
  rewrite take_1_head. by destruct (head _).
Qed.

(** A chain the repository cannot be asked for is empty: the bounds are the
    default ones, and the first page is refused. *)
Lemma unreadable_walk fuel w t lo hi :
  store_ok (w_repo w) → store_reads (R := R) t = false → (0 < fuel)%nat →
  match start_hash svc t lo w with
  | (Err e, w') => e = SUnavailable ∧ w' = w
  | (Ok start, w') => lo = 1 ∧ w' = w ∧ ∃ prev, start = inr prev
      ∧ ∀ after checked, verify_loop fuel t hi
          {| cu_prev_hash := prev; cu_after_position := after; cu_entries_checked := checked |} w
        = (Some (Err SUnavailable), w)
  end.
Proof.
  intros Hok Hread Hfuel. unfold start_hash. destruct (Z.eqb_spec lo 1) as [->|Hne].
  - split; [done|]. split; [done|]. eexists. split; [done|]. intros after checked.
    destruct fuel as [|fuel]; [lia|]. cbn [verify_loop].
    by rewrite (bind_call_read _ _ _ _ (get_entries_by_type_paged_law _ t after
      BATCH_SIZE Hok ltac:(unfold BATCH_SIZE, i64_max; lia))), Hread.
  - by rewrite (bind_call_read _ _ _ _ (get_entries_by_type_paged_law _ t (i64_sub lo 2) 1 Hok
      ltac:(unfold i64_max; lia))), Hread.
Qed.

Lemma spec_bound_range L t id if_absent message pos :
  ledger_shape L → 1 ≤ if_absent ≤ i64_max → spec_bound L t id if_absent message = Ok pos →
  1 ≤ pos ≤ i64_max.
Proof.
  intros HL Habs. unfold spec_bound. destruct id as [id|]; [|by intros [= <-]].
  destruct (spec_find L id) as [e|] eqn:E; [|done]. case_match; [|done]. intros [= <-].
  apply spec_find_Some in E as [He _]; [|done]. by apply (shape_bounds L HL) in He.
Qed.

Lemma verify_chain_spec fuel w t start_id end_id :
  store_ok (w_repo w) → (length (chain (w_ledger w) t) < fuel)%nat →
  let out := spec_verify_chain svc (store_reads (R := R) t) (w_ledger w) t start_id end_id in
  verify_chain svc fuel t start_id end_id w = (Some out, count_failure out w).
Proof.
  intros Hok Hfuel out. pose proof (store_shape _ Hok) as HL.
  unfold verify_chain, out, spec_verify_chain, some_result. run_M.
  rewrite bound_position_spec by done.
  destruct (spec_bound _ t start_id _ _) as [lo|err] eqn:Hlo; [|done]. cbn [rbind].
  rewrite bound_position_spec by done.
  destruct (spec_bound _ t end_id _ _) as [hi|err] eqn:Hhi; [|done]. cbn [rbind].
  destruct (hi <? lo); [done|]. destruct (store_reads t) eqn:Hread; simpl negb; cbv iota.
  2: { pose proof (unreadable_walk fuel w t lo hi Hok Hread ltac:(lia)) as Hwalk.
       destruct (start_hash svc t lo w) as [[start|e] w']; [|by destruct Hwalk as [-> ->]].
       destruct Hwalk as (_ & -> & prev & -> & Hwalk). apply Hwalk. }
  apply spec_bound_range in Hlo; [|done|unfold i64_max; lia].
  rewrite start_hash_spec by done.
  destruct (spec_start_hash svc _ t lo) as [prev|]; [|done].
  assert (i64_sub lo 1 = lo - 1) as Hsub.
  { apply i64_sub_small. unfold i64_ok, i64_min. lia. }
  pose proof (length_filter (λ e, lo - 1 < le_chain_position e) (chain (w_ledger w) t)) as Hle.
  pose proof (chain_length_bound (w_ledger w) t HL).
  rewrite verify_loop_audit; cbn [cu_after_position cu_entries_checked cu_prev_hash];
    rewrite ?Hsub; fold (w_ledger w); try done; lia.
Qed.
End LoopLemmas.

(** *** Dense chains: a window is a slice *)

Section DenseLemmas.
Context {P : Platform} {PL : PlatformLaws P} {Pub : Type}.
Context (svc : ImmutableLedgerService Pub).
Context (L : Ledger) (t : string) (HD : ledger_dense L).
Implicit Types (e : LedgerEntryRecord).

Lemma dense_after (k : Z) :
  0 ≤ k → filter (λ e, k < le_chain_position e) (chain L t) = drop (Z.to_nat k) (chain L t).
Proof.
  intros Hk. rewrite <- (take_drop (Z.to_nat k) (chain L t)) at 1.
  rewrite filter_app, filter_none, filter_all; [done|..]; apply Forall_lookup; intros i e.
  - rewrite lookup_drop. intros He%HD. lia.
  - intros [He%HD Hi]%lookup_take_Some. lia.
Qed.

Lemma dense_window (lo hi : Z) :
  1 ≤ lo → window L t lo hi
  = take (Z.to_nat (hi - lo + 1)) (drop (Z.to_nat (lo - 1)) (chain L t)).
Proof.
  intros Hlo. unfold window. rewrite dense_after by lia.
  rewrite <- (take_drop (Z.to_nat (hi - lo + 1)) (drop (Z.to_nat (lo - 1)) (chain L t))) at 1.
  rewrite filter_app, (filter_none _ (drop _ _)), filter_all, (right_id [] (++)); [done|..];
    apply Forall_lookup; intros i e.
  - intros [He Hi]%lookup_take_Some. rewrite lookup_drop in He. apply HD in He. lia.
  - rewrite !lookup_drop. intros He%HD. lia.
Qed.

Lemma dense_start_hash (lo : Z) :
  1 ≤ lo ≤ Z.of_nat (length (chain L t)) + 1 →
  spec_start_hash svc L t lo
  = Some (last_hash (genesis_hash svc) (take (Z.to_nat (lo - 1)) (chain L t))).
Proof.
  intros Hlo. unfold spec_start_hash. destruct (Z.eqb_spec lo 1) as [->|Hlo1].
  { done. }
  rewrite dense_after, head_lookup, lookup_drop, Nat.add_0_r by lia.
  destruct (lookup_lt_is_Some_2 (chain L t) (Z.to_nat (lo - 2))) as [e He]; [lia|].
  rewrite He. simpl. f_equal. replace (Z.to_nat (lo - 1)) with (S (Z.to_nat (lo - 2))) by lia.
  rewrite (take_S_r _ _ e) by done. by rewrite last_hash_snoc.
Qed.

(** Every slice of a valid chain audits as valid. *)
Lemma slice_audit (lo hi : Z) :
  links_ok (genesis_hash svc) (chain L t) → 1 ≤ lo → lo ≤ hi →
  hi ≤ Z.of_nat (length (chain L t)) →
  audit (last_hash (genesis_hash svc) (take (Z.to_nat (lo - 1)) (chain L t))) 0
    (window L t lo hi) = chain_ok (hi - lo + 1).
Proof.
  intros Hv Hlo Hhi Hlen. rewrite dense_window by done.
  rewrite audit_ok.
  - f_equal. rewrite length_take, length_drop. lia.
  - rewrite <- (take_drop (Z.to_nat (lo - 1)) (chain L t)), links_ok_app in Hv.
    destruct Hv as [_ Hv].
    rewrite <- (take_drop (Z.to_nat (hi - lo + 1)) (drop _ _)), links_ok_app in Hv.
    by destruct Hv.
Qed.

Lemma window_whole (hi : Z) :
  Z.of_nat (length (chain L t)) ≤ hi → window L t 1 hi = chain L t.
Proof. intros Hhi. rewrite dense_window by lia. rewrite drop_0, take_ge by lia. done. Qed.
End DenseLemmas.

(** The whole chain, when positions start at 1. *)
Lemma window_all {P : Platform} (L : Ledger) (t : string) :
  ledger_shape L → window L t 1 i64_max = chain L t.
Proof.
  intros HL. unfold window. rewrite !filter_all; [done|..];
    apply Forall_forall; intros e He.
  - apply (shape_bounds L HL) in He. lia.
  - apply list_elem_of_filter in He as [_ He]. apply (shape_bounds L HL) in He. lia.
Qed.

Lemma spec_verify_whole {P : Platform} {Pub} (svc : ImmutableLedgerService Pub) (L : Ledger) t :
  ledger_shape L →
  spec_verify_chain svc true L t None None = Ok (audit (genesis_hash svc) 0 (chain L t)).
Proof. intros HL. unfold spec_verify_chain. simpl. by rewrite window_all. Qed.

Lemma verify_chain_whole {P : Platform} {PL : PlatformLaws P} {R Pub}
    `{!LedgerRepository R, !LedgerStore R, !ChainReaderLaws R}
    (svc : ImmutableLedgerService Pub) fuel (w : World R) t :
  store_ok (w_repo w) → store_reads (R := R) t = true →
  (length (chain (w_ledger w) t) < fuel)%nat →
  let out := Ok (audit (genesis_hash svc) 0 (chain (w_ledger w) t)) in
  verify_chain svc fuel t None None w = (Some out, count_failure out w).
Proof.
  intros Hok Hread Hfuel. rewrite verify_chain_spec, Hread by done. cbv zeta.
  by rewrite spec_verify_whole by by apply store_shape.
Qed.

Lemma verify_chain_unreadable {P : Platform} {PL : PlatformLaws P} {R Pub}
    `{!LedgerRepository R, !LedgerStore R, !ChainReaderLaws R}
    (svc : ImmutableLedgerService Pub) fuel (w : World R) t :
  store_ok (w_repo w) → store_reads (R := R) t = false →
  (length (chain (w_ledger w) t) < fuel)%nat →
  verify_chain svc fuel t None None w = (Some (Err SUnavailable), w).
Proof. intros Hok Hread Hfuel. by rewrite verify_chain_spec, Hread by done. Qed.

Lemma chain_reads {P : Platform} {R} `{!LedgerRepository R, !LedgerStore R, !ChainReaderLaws R}
    (w : World R) t e :
  store_ok (w_repo w) → e ∈ chain (w_ledger w) t → store_reads (R := R) t = true.
Proof. apply store_reads_types. Qed.

Lemma chain_ne_reads {P : Platform} {R} `{!LedgerRepository R, !LedgerStore R, !ChainReaderLaws R}
    (w : World R) t :
  store_ok (w_repo w) → chain (w_ledger w) t ≠ [] → store_reads (R := R) t = true.
Proof.
  intros Hok Hne. destruct (chain (w_ledger w) t) as [|e l] eqn:He; [done|].
  apply (chain_reads w t e Hok). rewrite He. by left.
Qed.

(** *** [verify_entry] and [verify_proof] *)

Section EntryLemmas.
Context {P : Platform} {PL : PlatformLaws P} {R Pub : Type}.
Context `{!LedgerRepository R, !LedgerStore R, !ChainReaderLaws R}.
Context (svc : ImmutableLedgerService Pub).
Implicit Types (w : World R) (L : Ledger).

(** The hash the predecessor of [e] has, as [verify_entry] looks it up. *)
Definition spec_entry_link L (e : LedgerEntryRecord) : bool :=
  if le_chain_position e =? 1 then String.eqb (le_previous_hash e) (genesis_hash svc)
  else match head (filter (λ e', le_chain_position e - 2 < le_chain_position e')
                     (chain L (le_entry_type e))) with
       | Some prev => String.eqb (le_entry_hash prev) (le_previous_hash e)
       | None => false
       end.

Definition spec_verify_entry L (e : LedgerEntryRecord) : VerifyEntryOutput :=
  match entry_recomputed e with
  | None => {| ve_entry_id := le_entry_id e; ve_hash_valid := false;
               ve_chain_link_valid := false; ve_failure_reason := "unsupported_hash_version" |}
  | Some h =>
      {| ve_entry_id := le_entry_id e;
         ve_hash_valid := String.eqb h (le_entry_hash e);
         ve_chain_link_valid := spec_entry_link L e;
         ve_failure_reason :=
           if negb (String.eqb h (le_entry_hash e)) then "entry_hash_mismatch"
           else if spec_entry_link L e then "" else "chain_link_mismatch" |}
  end.

Lemma bool_decide_Some_eqb (h1 h2 : string) :
  bool_decide (Some h1 = Some h2) = String.eqb h1 h2.
Proof.
  destruct (String.eqb_spec h1 h2) as [->|Hne]; [by apply bool_decide_true|].
  apply bool_decide_false. congruence.
Qed.

Lemma verify_entry_found w e :
  store_ok (w_repo w) → e ∈ chain (w_ledger w) (le_entry_type e) →
  verify_entry svc (le_entry_id e) w = (Ok (spec_verify_entry (w_ledger w) e), w).
Proof.
  intros Hok He. pose proof (store_shape _ Hok) as HL. unfold verify_entry, spec_verify_entry.
  rewrite (bind_call_read _ _ _ _ (get_entry_law _ _ Hok)).
  fold (w_ledger w) in HL |- *. rewrite (spec_find_elem _ _ _ HL He). cbn [ok_or map_err].
  destruct (entry_recomputed e) as [h|]; [|done]. rewrite bool_decide_Some_eqb.
  unfold spec_entry_link. destruct (Z.eqb_spec (le_chain_position e) 1) as [Hp|Hp].
  - run_M. by destruct (String.eqb h _), (String.eqb (le_previous_hash e) _).
  - pose proof (shape_bounds _ HL _ _ He) as Hb.
    assert (i64_sub (le_chain_position e) 2 = le_chain_position e - 2) as Hsub.
    { apply i64_sub_small. unfold i64_ok, i64_min in *. lia. }
    unfold try_M at 1. unfold mbind_M at 1. unfold mbind_M at 1.
    rewrite (call_read _ _ _ (get_entries_by_type_paged_law _ _ _ 1 Hok
      ltac:(unfold i64_max; lia))), Hsub, (chain_reads _ _ _ Hok He).
    unfold spec_paged. cbn [asked map_err]. rewrite take_1_head. fold (w_ledger w).
    destruct (head _) as [prev|]; run_M; destruct (String.eqb h _); [|done..|].
    + by destruct (String.eqb _ _).
    + done.
Qed.

(** In a dense chain the predecessor is the entry just before. *)
Lemma spec_entry_link_dense L e i :
  ledger_dense L → chain L (le_entry_type e) !! i = Some e →
  spec_entry_link L e
  = String.eqb (last_hash (genesis_hash svc) (take i (chain L (le_entry_type e))))
      (le_previous_hash e).
Proof.
  intros HD Hi. unfold spec_entry_link. pose proof (HD _ _ _ Hi) as Hp.
  destruct (Z.eqb_spec (le_chain_position e) 1) as [H1|H1].
  - replace i with 0%nat by lia. apply String.eqb_sym.
  - destruct i as [|i]; [lia|]. rewrite Hp, dense_after, head_lookup, lookup_drop by (done || lia).
    replace (Z.to_nat (Z.of_nat (S i) + 1 - 2) + 0)%nat with i by lia.
    apply lookup_lt_Some in Hi.
    destruct (lookup_lt_is_Some_2 (chain L (le_entry_type e)) i) as [e' He']; [lia|].
    rewrite He', (take_S_r _ _ e'), last_hash_snoc by done. done.
Qed.
End EntryLemmas.

(** *** The window of [verify_recent_chain] *)

Section RecentLemmas.
Context {P : Platform} {PL : PlatformLaws P} {R Pub : Type}.
Context `{!LedgerRepository R, !LedgerStore R, !LedgerStoreLaws R}.
Context (svc : ImmutableLedgerService Pub).
Implicit Types (w : World R) (t : string) (a b : LedgerEntryRecord).

Lemma spec_bound_elem (L : Ledger) t e if_absent message :
  ledger_shape L → e ∈ chain L t →
  spec_bound L t (Some (le_entry_id e)) if_absent message = Ok (le_chain_position e).
Proof.
  intros HL He. unfold spec_bound. rewrite (spec_find_elem L t e HL He).
  by rewrite (shape_typed L HL t e He), String.eqb_refl.
Qed.

Lemma dense_position_bound (L : Ledger) t e :
  ledger_dense L → e ∈ chain L t → 1 ≤ le_chain_position e ≤ Z.of_nat (length (chain L t)).
Proof.
  intros HD [i Hi]%list_elem_of_lookup_1. pose proof (HD _ _ _ Hi).
  apply lookup_lt_Some in Hi. lia.
Qed.

(** [verify_chain] between resolved bounds of a dense chain. *)
Lemma verify_slice fuel w t lo_id hi_id lo hi :
  store_ok (w_repo w) → ledger_dense (w_ledger w) → (length (chain (w_ledger w) t) < fuel)%nat →
  spec_bound (w_ledger w) t lo_id 1 "start_entry_id does not belong to entry_type" = Ok lo →
  spec_bound (w_ledger w) t hi_id i64_max "end_entry_id does not belong to entry_type" = Ok hi →
  1 ≤ lo → lo ≤ hi → hi ≤ Z.of_nat (length (chain (w_ledger w) t)) →
  let out := Ok (audit (last_hash (genesis_hash svc)
                          (take (Z.to_nat (lo - 1)) (chain (w_ledger w) t))) 0
                   (window (w_ledger w) t lo hi)) in
  verify_chain svc fuel t lo_id hi_id w = (Some out, count_failure out w).
Proof.
  intros Hok HD Hfuel Hlo Hhi H1 H2 H3.
  assert (chain (w_ledger w) t ≠ []) as Hne by (intros Hn; rewrite Hn in H3; simpl in H3; lia).
  rewrite verify_chain_spec, (chain_ne_reads w t Hok Hne) by done.
  unfold spec_verify_chain. rewrite Hlo, Hhi. cbn [rbind]. rewrite (proj2 (Z.ltb_ge _ _)) by lia.
  by rewrite dense_start_hash by (done || lia).
Qed.

(** The first position of a window of [max] entries that ends at [n]. *)
Definition window_start (n max_entries : Z) : Z := Z.max (n - max_entries + 1) 1.

(** Such a window is the rest of the chain. *)
Lemma window_drop (L : Ledger) t max_entries :
  ledger_dense L →
  let n := Z.of_nat (length (chain L t)) in
  let lo := window_start n max_entries in
  window L t lo n = drop (Z.to_nat (lo - 1)) (chain L t).
Proof.
  intros HD n lo. rewrite dense_window by (done || (unfold lo, window_start; lia)).
  apply take_ge. rewrite length_drop. unfold lo, window_start, n. lia.
Qed.

Lemma verify_recent_window fuel w t max_entries :
  store_ok (w_repo w) → ledger_dense (w_ledger w) → store_reads (R := R) t = true →
  (length (chain (w_ledger w) t) < fuel)%nat → 1 ≤ max_entries ≤ i64_max →
  let n := Z.of_nat (length (chain (w_ledger w) t)) in
  let lo := window_start n max_entries in
  let out := Ok (audit (last_hash (genesis_hash svc)
                          (take (Z.to_nat (lo - 1)) (chain (w_ledger w) t))) 0
                   (window (w_ledger w) t lo n)) in
  verify_recent_chain svc fuel t max_entries w = (Some out, count_failure out w).
Proof.
  intros Hok HD Hread Hfuel Hmax n lo. pose proof (store_shape _ Hok) as HL.
  fold (w_ledger w) in HL.
  pose proof (chain_length_bound _ t HL) as Hb. fold n in Hb.
  unfold verify_recent_chain. rewrite (proj2 (Z.leb_gt _ _)) by lia.
  pose proof (get_chain_tip_ok _ t Hok) as Htip. fold (w_ledger w) in Htip.
  destruct (last (chain (w_ledger w) t)) as [e|] eqn:Hlast.
  2: { rewrite (bind_call_read _ _ _ _ Htip), Hread. cbn [asked]. apply last_None in Hlast.
       rewrite verify_chain_whole by done. unfold lo, window_start, n. rewrite dense_window by (done || lia).
       rewrite Hlast, drop_nil, !take_nil. done. }
  destruct Htip as (tip & Htip & Hid & Hpos). rewrite (bind_call_read _ _ _ _ Htip).
  rewrite last_lookup in Hlast. pose proof (HD _ _ _ Hlast) as Hp.
  apply lookup_lt_Some in Hlast as Hlt. apply list_elem_of_lookup_2 in Hlast as He.
  assert (le_chain_position e = n) as Hn by lia. rewrite Hid, Hpos, Hn.
  rewrite (i64_sub_small n), (i64_add_small (n - max_entries))
    by (unfold i64_ok, i64_min, i64_max in *; lia).
  change (Z.max (n - max_entries + 1) 1) with lo.
  assert (1 ≤ lo ≤ n) as Hlo by (unfold lo, window_start; lia).
  destruct (Z.eqb_spec lo 1) as [H1|H1].
  - rewrite H1. run_M. change (1 <? 1) with false. cbn [andb].
    rewrite (verify_slice _ _ _ _ _ 1 n);
      [done|done..|rewrite spec_bound_elem by done; by rewrite Hn|lia|lia|lia].
  - rewrite (i64_sub_small lo 1) by (unfold i64_ok, i64_min, i64_max in *; lia).
    unfold mbind_M at 1. unfold mbind_M at 1.
    rewrite (call_read _ _ _ (get_entries_by_type_paged_law _ _ _ 1 Hok
      ltac:(unfold i64_max; lia))), Hread. unfold spec_paged. cbn [asked map_err]. unfold ret at 1.
    rewrite take_1_head. fold (w_ledger w).
    rewrite dense_after, head_lookup, lookup_drop, Nat.add_0_r by (done || lia).
    destruct (lookup_lt_is_Some_2 (chain (w_ledger w) t) (Z.to_nat (lo - 1))) as [a Ha]; [lia|].
    rewrite Ha. cbn. rewrite andb_false_r.
    pose proof (HD _ _ _ Ha) as Hpa. apply list_elem_of_lookup_2 in Ha.
    rewrite (verify_slice _ _ _ _ _ lo n);
      [done..|rewrite spec_bound_elem by done; f_equal; lia
       |rewrite spec_bound_elem by done; by rewrite Hn|lia|lia|lia].
Qed.

Lemma verify_recent_unreadable fuel w t max_entries :
  store_ok (w_repo w) → store_reads (R := R) t = false → 1 ≤ max_entries →
  verify_recent_chain svc fuel t max_entries w = (Some (Err SUnavailable), w).
Proof.
  intros Hok Hread Hmax. unfold verify_recent_chain. rewrite (proj2 (Z.leb_gt _ _)) by lia.
  pose proof (get_chain_tip_ok _ t Hok) as Htip.
  destruct (last (chain (ledger_of (w_repo w)) t)) as [e|] eqn:Hlast.
  - apply last_Some_elem_of, (store_reads_types _ _ _ Hok) in Hlast. congruence.
  - by rewrite (bind_call_read _ _ _ _ Htip), Hread.
Qed.
End RecentLemmas.

(** *** Honest ledgers *)

Section HonestLemmas.
Context {P : Platform} {PL : PlatformLaws P} {R Pub : Type}.
Context `{!LedgerRepository R, !LedgerStore R, !LedgerStoreLaws R}.
Context (svc : ImmutableLedgerService Pub).
Implicit Types (w : World R) (t : string) (a b : LedgerEntryRecord).

Lemma honest_slice fuel w t lo_id hi_id lo hi :
  service_inv svc w → (length (chain (w_ledger w) t) < fuel)%nat →
  spec_bound (w_ledger w) t lo_id 1 "start_entry_id does not belong to entry_type" = Ok lo →
  spec_bound (w_ledger w) t hi_id i64_max "end_entry_id does not belong to entry_type" = Ok hi →
  1 ≤ lo → lo ≤ hi → hi ≤ Z.of_nat (length (chain (w_ledger w) t)) →
  verify_chain svc fuel t lo_id hi_id w = (Some (Ok (chain_ok (hi - lo + 1))), w).
Proof.
  intros Hinv Hfuel Hlo Hhi H1 H2 H3. pose proof (si_wf _ _ Hinv) as Hwf.
  rewrite (verify_slice svc _ _ _ _ _ lo hi)
    by (done || by apply store_wf_ok || by apply store_dense). cbv zeta.
  by rewrite slice_audit by (done || by apply store_dense || apply Hinv).
Qed.

Lemma honest_range fuel w t a b :
  service_inv svc w → (length (chain (w_ledger w) t) < fuel)%nat →
  a ∈ chain (w_ledger w) t → b ∈ chain (w_ledger w) t →
  le_chain_position a ≤ le_chain_position b →
  verify_chain svc fuel t (Some (le_entry_id a)) (Some (le_entry_id b)) w
  = (Some (Ok (chain_ok (le_chain_position b - le_chain_position a + 1))), w).
Proof.
  intros Hinv Hfuel Ha Hb Hab. pose proof (si_wf _ _ Hinv) as Hwf.
  pose proof (store_shape _ (store_wf_ok _ Hwf)) as HL. pose proof (store_dense _ Hwf) as HD.
  pose proof (dense_position_bound _ _ _ HD Ha). pose proof (dense_position_bound _ _ _ HD Hb).
  apply honest_slice; try done; try (by apply spec_bound_elem); unfold w_ledger; lia.
Qed.

Lemma honest_prefix fuel w t b :
  service_inv svc w → (length (chain (w_ledger w) t) < fuel)%nat →
  b ∈ chain (w_ledger w) t →
  verify_chain svc fuel t None (Some (le_entry_id b)) w
  = (Some (Ok (chain_ok (le_chain_position b))), w).
Proof.
  intros Hinv Hfuel Hb. pose proof (si_wf _ _ Hinv) as Hwf.
  pose proof (store_shape _ (store_wf_ok _ Hwf)) as HL. pose proof (store_dense _ Hwf) as HD.
  pose proof (dense_position_bound _ _ _ HD Hb).
  rewrite (honest_slice _ _ _ _ _ 1 (le_chain_position b)); try done.
  - do 4 f_equal. lia.
  - by apply spec_bound_elem.
  - lia.
  - unfold w_ledger. lia.
Qed.
End HonestLemmas.

(** * Properties *)

Section ReaderProperties.
Context {P : Platform} {PL : PlatformLaws P} {R Pub : Type}.
Context `{!LedgerRepository R, !LedgerStore R, !ChainReaderLaws R}.
Context (svc : ImmutableLedgerService Pub).

(** C5: [verify_chain] terminates and equals its one-pass reference: on any
    repository that serves chains in position order (whatever their contents)
    a fuel of one more than the number of entries is enough, the answer is that
    of [spec_verify_chain] (bounds resolved, errors included, among them Unavailable
    for an entry type the repository cannot be asked for, then [audit] of the
    window in one pass, as if there were no batches), the repository is not
    changed, and the failure counter moves exactly when an entry is reported. *)
Theorem verify_chain_audit (fuel : nat) (w : World R) (t : string)
    (start_id end_id : option Uuid) :
  store_ok (w_repo w) → (length (chain (w_ledger w) t) < fuel)%nat →
  let out := spec_verify_chain svc (store_reads (R := R) t) (w_ledger w) t start_id end_id in
  verify_chain svc fuel t start_id end_id w = (Some out, count_failure out w).
Proof. apply verify_chain_spec. Qed.

(** C4: tampering is evident: take a ledger written only by the service, and any
    later state of the repository in which the last hash of a chain is still the
    one that was there.  If [verify_chain] accepts the chain, then it holds the
    same entries in the same order, equal in every field their hash version
    binds (writer, content, metadata, position, time, links and, for V3, proof
    material), or two of the texts hashed along the two chains are a SHA-256
    collision.  The premise on the genesis text holds of the default one. *)
Theorem verify_chain_tamper_evident (fuel : nat) (honest : Ledger) (w : World R) (t : string)
    (out : VerifyChainOutput) :
  let genesis := as_bytes (genesis_hash_input (svc_config svc)) in
  (∀ e, entry_text e ≠ genesis) → ledger_valid (genesis_hash svc) honest →
  store_ok (w_repo w) → (length (chain (w_ledger w) t) < fuel)%nat →
  last_hash (genesis_hash svc) (chain honest t)
    = last_hash (genesis_hash svc) (chain (w_ledger w) t) →
  (verify_chain svc fuel t None None w).1 = Some (Ok out) → vc_chain_valid out = true →
  Forall2 same_proof (chain honest t) (chain (w_ledger w) t)
  ∨ chains_collide genesis (chain honest t) (chain (w_ledger w) t).
Proof.
  intros genesis Hg Hv Hok Hfuel Hlast Hout Hvalid.
  destruct (store_reads (R := R) t) eqn:Hread; [|by rewrite verify_chain_unreadable in Hout].
  rewrite verify_chain_whole in Hout by done.
  injection Hout as <-. apply audit_valid in Hvalid. by apply chain_binding.
Qed.

(** C17: a modified record is pinpointed: if one entry of an honest chain has been
    replaced by another with the same recorded hash, and nothing else in the
    chain, then [verify_chain] answers invalid with the identifier of that entry
    and its place as the count, unless the change touched no bound field or the
    two hashed texts collide. *)
Theorem modified_entry_pinpointed (fuel : nat) (honest : Ledger) (w : World R) (t : string)
    (before after : list LedgerEntryRecord) (e e' : LedgerEntryRecord) :
  ledger_valid (genesis_hash svc) honest → store_ok (w_repo w) →
  (length (chain (w_ledger w) t) < fuel)%nat →
  chain honest t = before ++ e :: after → chain (w_ledger w) t = before ++ e' :: after →
  le_entry_hash e' = le_entry_hash e →
  same_proof e e' ∨ collision (entry_text e) (entry_text e')
  ∨ ∃ reason, (verify_chain svc fuel t None None w).1
      = Some (Ok (chain_bad (Z.of_nat (length before) + 1) (Some (le_entry_id e')) reason)).
Proof.
  intros Hv Hok Hfuel Hc Hc' Hh. specialize (Hv t). rewrite Hc in Hv.
  apply links_ok_app in Hv as [Hb [[_ He]%entry_fault_None _]].
  destruct (entry_fault (last_hash (genesis_hash svc) before) e') as [reason|] eqn:Hf.
  - right. right. exists reason. rewrite verify_chain_whole, Hc'; try done; [|].
    2: { apply (chain_reads w t e' Hok). rewrite Hc'. set_solver. }
    by rewrite (audit_first_fault _ _ _ _ _ reason).
  - apply entry_fault_None in Hf as [_ He']. rewrite Hh in He'.
    destruct (recomputed_binding e e' _ He He') as [?|?]; [by left|right; by left].
Qed.

(** C35: what [verify_chain] cannot see: it accepts every truncation of an honest
    chain, from dropping the newest entry to dropping all of them; only the
    comparison with a tip kept elsewhere would show it.  (An entry type the
    repository cannot be asked for, over PostgreSQL one with a NUL character, has
    no entries to drop; verifying it answers Unavailable.) *)
Theorem truncated_chain_accepted (fuel : nat) (honest : Ledger) (w : World R) (t : string) :
  ledger_valid (genesis_hash svc) honest → store_ok (w_repo w) →
  (length (chain (w_ledger w) t) < fuel)%nat →
  chain (w_ledger w) t `prefix_of` chain honest t →
  verify_chain svc fuel t None None w
  = (Some (if store_reads (R := R) t
           then Ok (chain_ok (Z.of_nat (length (chain (w_ledger w) t)))) else Err SUnavailable), w).
Proof.
  intros Hv Hok Hfuel [tail Hc].
  destruct (store_reads t) eqn:Hread; [|by apply verify_chain_unreadable].
  rewrite verify_chain_whole by done.
  specialize (Hv t). rewrite Hc, links_ok_app in Hv. destruct Hv as [Hv _].
  by rewrite audit_ok.
Qed.

(** C21: [verify_entry] decides whether one entry belongs where it is: in a dense
    chain, for an entry of a supported hash version, its two flags are exactly
    "the recorded hash is the recomputed one" and "the previous hash is that of
    the entry before (genesis for the first)"; both hold exactly when the entry
    has no fault there, and only then is the failure reason empty.  An entry
    whose hash version is not supported gets neither flag, even if its link is
    right, and the reason "unsupported_hash_version". *)
Theorem verify_entry_decides (w : World R) (e : LedgerEntryRecord) (i : nat) :
  store_ok (w_repo w) → ledger_dense (w_ledger w) →
  chain (w_ledger w) (le_entry_type e) !! i = Some e →
  let prev := last_hash (genesis_hash svc) (take i (chain (w_ledger w) (le_entry_type e))) in
  ∃ out, verify_entry svc (le_entry_id e) w = (Ok out, w)
    ∧ ve_entry_id out = le_entry_id e
    ∧ match entry_recomputed e with
      | Some h =>
          (ve_hash_valid out = true ↔ h = le_entry_hash e)
          ∧ (ve_chain_link_valid out = true ↔ le_previous_hash e = prev)
          ∧ (ve_failure_reason out = "" ↔ entry_fault prev e = None)
      | None =>
          ve_hash_valid out = false ∧ ve_chain_link_valid out = false
          ∧ ve_failure_reason out = "unsupported_hash_version"
      end.
Proof.
  intros Hok HD Hi prev. exists (spec_verify_entry svc (w_ledger w) e).
  split; [apply verify_entry_found; [done|by eapply list_elem_of_lookup_2]|].
  unfold spec_verify_entry. destruct (entry_recomputed e) as [h|] eqn:Hh; [|done].
  split; [done|]. rewrite entry_fault_None, Hh. simpl. rewrite (spec_entry_link_dense svc _ _ i) by done. fold prev.
  rewrite !String.eqb_eq.
  destruct (String.eqb_spec h (le_entry_hash e)), (String.eqb_spec prev (le_previous_hash e));
    simpl; naive_solver.
Qed.
End ReaderProperties.

Section ProofLemmas.
Context {P : Platform} {PL : PlatformLaws P} {R Pub : Type}.
Context `{!LedgerRepository R, !LedgerStore R, !LedgerStoreLaws R, !EventPublisher Pub}.
Context (svc : ImmutableLedgerService Pub).
Implicit Types (w : World R).

(** The answer of [verify_proof] for a stored entry. *)
Definition proof_of_entry (e : LedgerEntryRecord) : VerifyProofOutput := {|
  vp_valid := bool_decide (entry_recomputed e = Some (le_entry_hash e));
  vp_entry_type := le_entry_type e;
  vp_agent_id := le_agent_id e;
  vp_written_ts_ms := timestamp_millis (le_written_ts e);
  vp_chain_position := le_chain_position e;
  vp_failure_reason :=
    match entry_recomputed e with
    | None => "unsupported_hash_version"
    | Some _ => if bool_decide (entry_recomputed e = Some (le_entry_hash e)) then ""
                else "entry_hash_mismatch"
    end;
  vp_source_id := le_source_id e;
  vp_correlation_id := default "" (le_correlation_id e);
  vp_content_type := le_content_type e;
  vp_input_hash := default "" (le_input_hash e);
  vp_writer_signature := default [] (le_writer_signature e);
  vp_signer_key_reference := default "" (le_signer_key_reference e);
  vp_attestation_report := default [] (le_attestation_report e);
  vp_hash_version := le_hash_version e
|}.

Lemma verify_proof_spec w t h :
  store_ok (w_repo w) →
  (∃ e, e ∈ chain (w_ledger w) t ∧ le_entry_hash e = h ∧
     ∃ w', verify_proof t h w = (Ok (proof_of_entry e), w') ∧ w_repo w' = w_repo w)
  ∨ (verify_proof t h w = (Err SNotFound, tick w)
     ∧ ∀ e, e ∈ chain (w_ledger w) t → le_entry_hash e ≠ h)
  ∨ (∃ x e1 e2, verify_proof t h w = (Err (map_repo x), tick w) ∧ x ≠ NotFound
     ∧ e1 ∈ chain (w_ledger w) t ∧ e2 ∈ chain (w_ledger w) t ∧ e1 ≠ e2
     ∧ le_entry_hash e1 = h ∧ le_entry_hash e2 = h)
  ∨ (verify_proof t h w = (Err SUnavailable, tick w)
     ∧ store_reads (R := R) t && store_reads (R := R) h = false).
Proof.
  intros Hok. unfold verify_proof.
  destruct (get_entry_by_hash_law (w_repo w) t h Hok)
    as [(e & Hr & He & Hh)|[[Hr Hno]|[(x & e1 & e2 & Hr & Hx)|[Hr Hread]]]].
  - left. exists e. split; [done|]. split; [done|].
    unfold instant at 1. unfold mbind_M at 1.
    rewrite (bind_call_read (get_entry_by_hash t h) _ (tick w) _ Hr). cbn [map_err]. run_M.
    eexists. split; [reflexivity|done].
  - right. left. split; [|done]. unfold instant at 1. unfold mbind_M at 1.
    by rewrite (bind_call_read (get_entry_by_hash t h) _ (tick w) _ Hr).
  - right. right. left. exists x, e1, e2. split; [|done].
    unfold instant at 1. unfold mbind_M at 1.
    by rewrite (bind_call_read (get_entry_by_hash t h) _ (tick w) _ Hr).
  - do 3 right. split; [|done]. unfold instant at 1. unfold mbind_M at 1.
    by rewrite (bind_call_read (get_entry_by_hash t h) _ (tick w) _ Hr).
Qed.

(** The hash of an honest entry can be asked for. *)
Lemma honest_hash_reads w t e :
  service_inv svc w → e ∈ chain (w_ledger w) t → store_reads (R := R) (le_entry_hash e) = true.
Proof.
  intros Hinv He. pose proof (links_ok_elem _ _ _ (si_valid _ _ Hinv t) He) as Hr.
  apply entry_recomputed_text in Hr as [_ ->]. apply store_reads_digest.
Qed.

Lemma issue_receipt_inv input w w1 receipt :
  issue_receipt svc input w = (Ok receipt, w1) →
  ∃ out, write_entry svc input w = (Ok out, w1) ∧ pr_entry_type receipt = wi_entry_type input
    ∧ pr_entry_hash receipt = wo_entry_hash out
    ∧ pr_chain_position receipt = wo_chain_position out
    ∧ pr_written_ts_ms receipt = wo_written_ts_ms out.
Proof.
  unfold issue_receipt. run_M. destruct (write_entry svc input w) as [[out|] w'] eqn:E; [|done].
  intros [= <- <-]. by exists out.
Qed.

(** The entry an accepted write reports is in the chain, with the request's fields. *)
Lemma write_reported w w1 input out :
  Inj (=) (=) (uuid_v4 : nat → Uuid) → request_accepted (R := R) svc input →
  service_inv svc w →
  Z.of_nat (length (chain (w_ledger w) (wi_entry_type input))) < i64_max →
  write_entry svc input w = (Ok out, w1) →
  ∃ e, service_inv svc w1 ∧ e ∈ chain (w_ledger w1) (wi_entry_type input)
       ∧ output_of_entry e = out ∧ idempotent_request_matches e input = true.
Proof.
  intros Hinj Hacc Hinv Hlen Hw.
  destruct (service_inv_step svc w input Hinj Hacc Hinv Hlen) as (w' & Hw' & Hinv' & Hext & _).
  rewrite Hw in Hw'. injection Hw' as Hout <-.
  destruct (write_entry_post svc w input) as (w'' & Hw'' & Hpost);
    [done|apply Hinv|by apply (service_fresh svc)|done|].
  rewrite Hw in Hw''. injection Hw'' as _ <-. pose proof (wp_ledger _ _ _ _ Hpost) as HL.
  unfold spec_write_entry in *. destruct (check_arguments svc input) as [[]|]; [|done].
  destruct (still_halted _ _ _ _); [done|].
  destruct (stored_for_key w input) as [e|] eqn:Hst.
  - destruct (idempotent_request_matches e input) eqn:Hm; [|done].
    exists e. injection Hout as ->. repeat split; try done; [apply Hinv'..|].
    simpl in HL. rewrite HL. unfold stored_for_key in Hst.
    destruct (wi_idempotency_key input) as [key|]; [|done]. simpl in Hst.
    by apply spec_idempotent_Some in Hst as [? _].
  - destruct (_ <=? 0); [done|]. injection Hout as ->. simpl in HL.
    exists (written_entry svc w input). split; [done|]. split; [|split; [done|]].
    + rewrite HL, chain_append, decide_True by done. apply elem_of_app. right. by left.
    + apply written_entry_matches.
Qed.

Lemma same_proof_fields e1 e2 :
  same_proof e1 e2 →
  le_chain_position e1 = le_chain_position e2
  ∧ timestamp_millis (le_written_ts e1) = timestamp_millis (le_written_ts e2)
  ∧ le_agent_id e1 = le_agent_id e2 ∧ le_source_id e1 = le_source_id e2
  ∧ le_content_type e1 = le_content_type e2.
Proof.
  intros [Hv H]. revert H. unfold bound. rewrite Hv. case_match; by intros [=].
Qed.

(** In a chain that verifies, a hash names one entry, or two texts collide. *)
Lemma valid_chain_hashes w t e1 e2 :
  store_wf (w_repo w) → links_ok (genesis_hash svc) (chain (w_ledger w) t) →
  e1 ∈ chain (w_ledger w) t → e2 ∈ chain (w_ledger w) t →
  le_entry_hash e1 = le_entry_hash e2 →
  e1 = e2 ∨ collision (entry_text e1) (entry_text e2).
Proof.
  intros Hwf Hv H1 H2 Hh. pose proof (store_dense _ Hwf) as HD.
  pose proof (links_ok_elem _ _ _ Hv H1) as R1. pose proof (links_ok_elem _ _ _ Hv H2) as R2.
  rewrite Hh in R1. destruct (recomputed_binding e1 e2 _ R1 R2) as [Hs|Hc]; [left|by right].
  apply same_proof_fields in Hs as [Hp _].
  apply list_elem_of_lookup in H1 as [i Hi], H2 as [j Hj].
  pose proof (HD t i e1 Hi). pose proof (HD t j e2 Hj).
  assert (i = j) as -> by lia. rewrite Hi in Hj. by injection Hj.
Qed.

Lemma idempotent_request_fields e input :
  idempotent_request_matches e input = true →
  le_agent_id e = wi_agent_id input ∧ le_source_id e = wi_source_id input
  ∧ le_content_type e = wi_content_type input.
Proof.
  unfold idempotent_request_matches. rewrite !andb_true_iff, !bool_decide_eq_true. tauto.
Qed.
End ProofLemmas.

Section LedgerProperties.
Context {P : Platform} {PL : PlatformLaws P} {R Pub : Type}.
Context `{!LedgerRepository R, !LedgerStore R, !LedgerStoreLaws R, !EventPublisher Pub}.
Context (svc : ImmutableLedgerService Pub).

(** C15: an honest ledger always verifies: in a ledger written only by the
    service, [verify_chain] between any two entries of a chain answers valid and
    counts exactly the entries from one to the other. *)
Theorem honest_range_verifies (fuel : nat) (w : World R) (t : string)
    (a b : LedgerEntryRecord) :
  service_inv svc w → (length (chain (w_ledger w) t) < fuel)%nat →
  a ∈ chain (w_ledger w) t → b ∈ chain (w_ledger w) t →
  le_chain_position a ≤ le_chain_position b →
  verify_chain svc fuel t (Some (le_entry_id a)) (Some (le_entry_id b)) w
  = (Some (Ok (chain_ok (le_chain_position b - le_chain_position a + 1))), w).
Proof.
  intros Hinv Hfuel Ha Hb Hab. by apply honest_range.
Qed.

(** The window check of the background verifier: on an honest ledger
    [verify_recent_chain] answers valid and has checked the newest
    [max_entries] entries, or the whole chain when it is shorter. *)
Theorem honest_recent_verifies (fuel : nat) (w : World R) (t : string) (max_entries : Z) :
  service_inv svc w → store_reads (R := R) t = true →
  (length (chain (w_ledger w) t) < fuel)%nat → 1 ≤ max_entries ≤ i64_max →
  verify_recent_chain svc fuel t max_entries w
  = (Some (Ok (chain_ok (Z.min max_entries (Z.of_nat (length (chain (w_ledger w) t)))))), w).
Proof.
  intros Hinv Hread Hfuel Hmax. pose proof (si_wf _ _ Hinv) as Hwf.
  rewrite (verify_recent_window svc) by (done || by apply store_wf_ok || by apply store_dense).
  cbv zeta. set (n := Z.of_nat (length (chain (w_ledger w) t))).
  destruct (decide (chain (w_ledger w) t = [])) as [Hnil|Hne].
  - rewrite dense_window by first [by apply store_dense|unfold window_start; lia].
    unfold n. rewrite Hnil. rewrite drop_nil, !take_nil, Z.min_r by (simpl; lia). done.
  - assert (1 ≤ n) by (unfold n; destruct (chain (w_ledger w) t); [done|simpl; lia]).
    rewrite slice_audit; [|by apply store_dense|apply Hinv|unfold window_start, n in *; lia..].
    simpl. do 4 f_equal. unfold window_start. lia.
Qed.

(** C20: [verify_recent_chain] decides its window: on any dense chain, tampered or
    not, it answers valid exactly when the newest [max_entries] entries (or the
    whole chain) are correctly hashed and linked, the first of them to the entry
    before the window.  (For an entry type the repository cannot be asked for,
    over PostgreSQL one with a NUL character, it answers Unavailable.) *)
Theorem recent_window_decides (fuel : nat) (w : World R) (t : string) (max_entries : Z) :
  store_ok (w_repo w) → ledger_dense (w_ledger w) → (length (chain (w_ledger w) t) < fuel)%nat →
  1 ≤ max_entries ≤ i64_max →
  let n := Z.of_nat (length (chain (w_ledger w) t)) in
  let lo := window_start n max_entries in
  let answer := (verify_recent_chain svc fuel t max_entries w).1 in
  if store_reads (R := R) t then
    ∃ out, answer = Some (Ok out)
      ∧ (vc_chain_valid out = true ↔
         links_ok (last_hash (genesis_hash svc)
                     (take (Z.to_nat (lo - 1)) (chain (w_ledger w) t)))
           (drop (Z.to_nat (lo - 1)) (chain (w_ledger w) t)))
  else answer = Some (Err SUnavailable).
Proof.
  intros Hok HD Hfuel Hmax n lo answer. unfold answer.
  destruct (store_reads t) eqn:Hread; [|by rewrite verify_recent_unreadable by (done || lia)].
  eexists. rewrite verify_recent_window by done.
  split; [reflexivity|]. rewrite audit_valid. fold n lo.
  unfold lo, n. by rewrite (window_drop (w_ledger w) t max_entries HD).
Qed.

(** [verify_proof] answers for a stored entry or says NotFound: NotFound only
    when no entry of the type has the hash; an answer describes such an entry,
    and is valid exactly when the hash is the one recomputed from the stored
    fields; Unavailable can mean that the repository cannot be asked for the texts;
    any other error means that two entries of the chain carry the hash. *)
Theorem verify_proof_decides (w : World R) (t h : string) :
  store_ok (w_repo w) →
  ∃ res w', verify_proof t h w = (res, w') ∧ w_repo w' = w_repo w ∧
  match res with
  | Ok out => ∃ e, e ∈ chain (w_ledger w) t ∧ le_entry_hash e = h ∧ out = proof_of_entry e
                   ∧ (vp_valid out = true ↔ entry_recomputed e = Some h)
  | Err SNotFound => ∀ e, e ∈ chain (w_ledger w) t → le_entry_hash e ≠ h
  | Err x =>
      (x = SUnavailable ∧ store_reads (R := R) t && store_reads (R := R) h = false)
      ∨ ∃ e1 e2, e1 ∈ chain (w_ledger w) t ∧ e2 ∈ chain (w_ledger w) t ∧ e1 ≠ e2
                 ∧ le_entry_hash e1 = h ∧ le_entry_hash e2 = h
  end.
Proof.
  intros Hok. destruct (verify_proof_spec w t h Hok)
    as [(e & He & Hh & w' & -> & Hr)|[(-> & Hno)|[(x & e1 & e2 & -> & Hx & H12)|[-> Hread]]]].
  - exists (Ok (proof_of_entry e)), w'. do 2 (split; [done|]). exists e. do 3 (split; [done|]).
    simpl. by rewrite bool_decide_eq_true, Hh.
  - by exists (Err SNotFound), (tick w).
  - exists (Err (map_repo x)), (tick w). do 2 (split; [done|]).
    destruct x; [done|by right; exists e1, e2..].
  - exists (Err SUnavailable), (tick w). do 2 (split; [done|]). by left.
Qed.

(** C22: a receipt proves the write: for a request the repository can store as it
    is sent ([request_accepted]: over PostgreSQL, texts that fit their columns
    without being cut), the entry type and hash on a receipt issued by the service
    over an honest ledger pass [verify_proof], and the proof names the position, time,
    writer, source and content type of the receipt's entry; or else the texts of
    two entries of the chain are a SHA-256 collision. *)
Theorem receipt_verifies (w w1 : World R) (input : WriteEntryInput) (receipt : ProofReceiptOutput) :
  Inj (=) (=) (uuid_v4 : nat → Uuid) → request_accepted (R := R) svc input → service_inv svc w →
  Z.of_nat (length (chain (w_ledger w) (wi_entry_type input))) < i64_max →
  issue_receipt svc input w = (Ok receipt, w1) →
  (∃ proof w2, verify_proof (pr_entry_type receipt) (pr_entry_hash receipt) w1 = (Ok proof, w2)
     ∧ vp_valid proof = true ∧ vp_chain_position proof = pr_chain_position receipt
     ∧ vp_written_ts_ms proof = pr_written_ts_ms receipt
     ∧ vp_agent_id proof = wi_agent_id input ∧ vp_source_id proof = wi_source_id input
     ∧ vp_content_type proof = wi_content_type input)
  ∨ ∃ e e', e ∈ chain (w_ledger w1) (wi_entry_type input)
      ∧ e' ∈ chain (w_ledger w1) (wi_entry_type input)
      ∧ collision (entry_text e) (entry_text e').
Proof.
  intros Hinj Hacc Hinv Hlen Hr.
  destruct (issue_receipt_inv svc input w w1 receipt Hr) as (out & Hw & Ht & Hh & Hp & Hts).
  destruct (write_reported svc w w1 input out) as (e & Hinv1 & He & Ho & Hm); [done..|].
  rewrite Ht, Hh, <- Ho. cbn [output_of_entry wo_entry_hash].
  pose proof (si_wf _ _ Hinv1) as Hwf1. pose proof (store_wf_ok _ Hwf1) as Hok1.
  pose proof (si_valid _ _ Hinv1 (wi_entry_type input)) as Hv.
  destruct (verify_proof_spec w1 (wi_entry_type input) (le_entry_hash e) Hok1)
    as [(e' & He' & Hh' & w2 & -> & _)|[(_ & Hno)
       |[(_ & e1 & e2 & _ & _ & H1 & H2 & Hne & Hh1 & Hh2)|[_ Hread]]]];
    [|by destruct (Hno e)| |].
  3: { by rewrite (chain_reads w1 _ e Hok1 He), (honest_hash_reads svc w1 _ e Hinv1 He) in Hread. }
  2: { right. exists e1, e2. split; [done|]. split; [done|].
       destruct (valid_chain_hashes svc w1 (wi_entry_type input) e1 e2); try done. congruence. }
  pose proof (links_ok_elem _ _ _ Hv He) as Re. pose proof (links_ok_elem _ _ _ Hv He') as Re'.
  rewrite Hh' in Re'.
  destruct (recomputed_binding e' e _ Re' Re) as [Hs|Hc].
  - left. exists (proof_of_entry e'), w2. split; [done|].
    split; [apply bool_decide_true; by rewrite Re', Hh'|].
    apply same_proof_fields in Hs as (P1 & P2 & P3 & P4 & P5).
    apply idempotent_request_fields in Hm as (A1 & A2 & A3). simpl.
    rewrite Hp, Hts, <- Ho. simpl. repeat split; congruence.
  - right. by exists e', e.
Qed.
End LedgerProperties.

(** * Witnesses *)

#[local] Existing Instance Toy.platform.
#[local] Existing Instance Toy.laws.

Lemma demo_one_ok : store_ok (w_repo demo_one).
Proof. apply (store_wf_ok (R:=Inner)), (si_wf _ _ demo_one_inv). Qed.

(** The entry of the one write, and the ledger after its hash was forged. *)
Definition demo_entry : LedgerEntryRecord := written_entry demo_service demo_empty demo_request.

Definition demo_forged : World Inner :=
  set_repo (test_corrupt_entry_hash (uuid_v4 0) (w_repo demo_one)).2 demo_one.

Definition demo_altered : World Inner :=
  set_repo (test_corrupt_correlation_id (uuid_v4 0) "x" (w_repo demo_one)).2 demo_one.

Definition demo_altered_entry : LedgerEntryRecord := with_correlation_id (Some "x") demo_entry.

Lemma demo_altered_ok : store_ok (w_repo demo_altered).
Proof. apply corrupt_ok; [done..|apply demo_one_ok]. Qed.

Lemma demo_forged_ok : store_ok (w_repo demo_forged).
Proof. apply corrupt_ok; [done..|apply demo_one_ok]. Qed.

Lemma demo_chain : chain (w_ledger demo_one) "t" = [demo_entry].
Proof. by_compute. Qed.

Lemma demo_other_chain (t : string) : t ≠ "t" → chain (w_ledger demo_one) t = [].
Proof.
  intros Hne. unfold demo_one. destruct (write_entry_post demo_service demo_empty demo_request)
    as (w' & -> & Hpost); [apply demo_accepted|apply inner_default_wf|by_compute|by_compute|].
  cbn [snd]. rewrite (wp_ledger _ _ _ _ Hpost).
  destruct (spec_write_entry_cases demo_service demo_empty demo_request) as [->|[-> _]]; [done|].
  cbn [snd]. by rewrite chain_append, decide_False.
Qed.

(** No envelope is the genesis text: they differ at byte 11. *)
Lemma demo_genesis_text (e : LedgerEntryRecord) :
  entry_text e ≠ as_bytes (genesis_hash_input (svc_config demo_service)).
Proof.
  unfold entry_text, canonical_bytes.
  rewrite canonical_bytes_v2_fields, canonical_bytes_v3_fields.
  destruct (String.eqb _ _); intros H%(f_equal (λ l, l !! 11%nat)); by vm_compute in H.
Qed.

Lemma verify_chain_audit_witness :
  verify_chain demo_service 3 "t" None None demo_forged
  = (Some (spec_verify_chain demo_service (store_reads (R := Inner) "t") (w_ledger demo_forged) "t" None None),
     count_failure (spec_verify_chain demo_service (store_reads (R := Inner) "t") (w_ledger demo_forged) "t" None None)
       demo_forged).
Proof.
  apply (verify_chain_audit demo_service 3 demo_forged "t" None None);
    [apply demo_forged_ok|].
  apply Nat.ltb_lt. by_compute.
Defined.

Lemma verify_chain_tamper_evident_witness :
  Forall2 same_proof (chain (w_ledger demo_one) "t") (chain (w_ledger demo_one) "t")
  ∨ chains_collide (as_bytes (genesis_hash_input (svc_config demo_service)))
      (chain (w_ledger demo_one) "t") (chain (w_ledger demo_one) "t").
Proof.
  apply (verify_chain_tamper_evident demo_service 3 (w_ledger demo_one) demo_one "t" (chain_ok 1));
    [apply demo_genesis_text|apply demo_one_inv|apply demo_one_ok
    |apply Nat.ltb_lt; by_compute|reflexivity|by_compute|reflexivity].
Defined.

Lemma modified_entry_pinpointed_witness :
  same_proof demo_entry demo_altered_entry
  ∨ collision (entry_text demo_entry) (entry_text demo_altered_entry)
  ∨ ∃ reason, (verify_chain demo_service 3 "t" None None demo_altered).1
      = Some (Ok (chain_bad 1 (Some (le_entry_id demo_altered_entry)) reason)).
Proof.
  apply (modified_entry_pinpointed demo_service 3 (w_ledger demo_one) demo_altered "t" [] []
           demo_entry demo_altered_entry);
    [apply demo_one_inv|apply demo_altered_ok|apply Nat.ltb_lt; by_compute
    |apply demo_chain|by_compute|reflexivity].
Defined.

Lemma truncated_chain_accepted_witness :
  verify_chain demo_service 3 "t" None None demo_empty
  = (Some (if store_reads (R := Inner) "t"
           then Ok (chain_ok (Z.of_nat (length (chain (w_ledger demo_empty) "t"))))
           else Err SUnavailable), demo_empty).
Proof.
  apply (truncated_chain_accepted demo_service 3 (w_ledger demo_one) demo_empty "t");
    [apply demo_one_inv|apply (store_wf_ok (R:=Inner)), inner_default_wf
    |apply Nat.ltb_lt; by_compute|by apply prefix_nil].
Defined.

Lemma verify_entry_decides_witness :
  ∃ out, verify_entry demo_service (le_entry_id demo_entry) demo_one = (Ok out, demo_one)
    ∧ ve_entry_id out = le_entry_id demo_entry
    ∧ (ve_hash_valid out = true ↔ le_entry_hash demo_entry = le_entry_hash demo_entry)
    ∧ (ve_chain_link_valid out = true ↔
       le_previous_hash demo_entry = last_hash (genesis_hash demo_service) [])
    ∧ (ve_failure_reason out = "" ↔
       entry_fault (last_hash (genesis_hash demo_service) []) demo_entry = None).
Proof.
  assert (entry_recomputed demo_entry = Some (le_entry_hash demo_entry)) as Hh by by_compute.
  pose proof (verify_entry_decides demo_service demo_one demo_entry 0) as H.
  rewrite Hh in H. apply H;
    [apply demo_one_ok|apply (store_dense (R:=Inner)), (si_wf _ _ demo_one_inv)
    |change (chain (w_ledger demo_one) "t" !! 0%nat = Some demo_entry); by rewrite demo_chain].
Defined.

Lemma demo_entry_in : demo_entry ∈ chain (w_ledger demo_one) "t".
Proof. rewrite demo_chain. by left. Qed.

Lemma honest_range_verifies_witness :
  verify_chain demo_service 3 "t" (Some (le_entry_id demo_entry)) (Some (le_entry_id demo_entry))
    demo_one
  = (Some (Ok (chain_ok (le_chain_position demo_entry - le_chain_position demo_entry + 1))),
     demo_one).
Proof.
  apply (honest_range_verifies demo_service 3 demo_one "t" demo_entry demo_entry);
    [apply demo_one_inv|apply Nat.ltb_lt; by_compute|apply demo_entry_in|apply demo_entry_in|lia].
Defined.

Lemma honest_recent_verifies_witness :
  verify_recent_chain demo_service 3 "t" 10 demo_one
  = (Some (Ok (chain_ok (Z.min 10 (Z.of_nat (length (chain (w_ledger demo_one) "t")))))), demo_one).
Proof.
  apply (honest_recent_verifies demo_service 3 demo_one "t" 10);
    [apply demo_one_inv|reflexivity|apply Nat.ltb_lt; by_compute|unfold i64_max; lia].
Defined.

Lemma recent_window_decides_witness :
  let n := Z.of_nat (length (chain (w_ledger demo_one) "t")) in
  let lo := window_start n 10 in
  let answer := (verify_recent_chain demo_service 3 "t" 10 demo_one).1 in
  if store_reads (R := Inner) "t" then
    ∃ out, answer = Some (Ok out)
      ∧ (vc_chain_valid out = true ↔
         links_ok (last_hash (genesis_hash demo_service)
                     (take (Z.to_nat (lo - 1)) (chain (w_ledger demo_one) "t")))
           (drop (Z.to_nat (lo - 1)) (chain (w_ledger demo_one) "t")))
  else answer = Some (Err SUnavailable).
Proof.
  apply (recent_window_decides demo_service 3 demo_one "t" 10);
    [apply demo_one_ok|apply (store_dense (R:=Inner)), (si_wf _ _ demo_one_inv)
    |apply Nat.ltb_lt; by_compute|unfold i64_max; lia].
Defined.

Lemma verify_proof_decides_witness :
  ∃ res w', verify_proof "t" "h" demo_one = (res, w') ∧ w_repo w' = w_repo demo_one.
Proof.
  destruct (verify_proof_decides demo_one "t" "h" demo_one_ok) as (res & w' & H1 & H2 & _).
  exists res, w'. split; [exact H1|exact H2].
Defined.

Definition demo_receipt : ProofReceiptOutput := {|
  pr_entry_hash := wo_entry_hash demo_out; pr_entry_type := "t";
  pr_chain_position := wo_chain_position demo_out; pr_written_ts_ms := wo_written_ts_ms demo_out;
  pr_entry_id := wo_entry_id demo_out; pr_input_hash := ""; pr_writer_signature := [];
  pr_signer_key_reference := ""; pr_attestation_report := [];
  pr_hash_version := wo_hash_version demo_out
|}.

Lemma demo_issue : issue_receipt demo_service demo_request demo_empty = (Ok demo_receipt, demo_one).
Proof. unfold issue_receipt. run_M. by rewrite demo_write. Qed.

Lemma receipt_verifies_witness :
  (∃ proof w2, verify_proof "t" (pr_entry_hash demo_receipt) demo_one = (Ok proof, w2)
     ∧ vp_valid proof = true)
  ∨ ∃ e e', e ∈ chain (w_ledger demo_one) "t" ∧ e' ∈ chain (w_ledger demo_one) "t"
      ∧ collision (entry_text e) (entry_text e').
Proof.
  destruct (receipt_verifies demo_service demo_empty demo_one demo_request demo_receipt
              demo_uuid_inj (demo_accepted _) demo_empty_inv eq_refl demo_issue)
    as [(proof & w2 & H1 & H2 & _)|H]; [left|right; exact H].
  exists proof, w2. split; [exact H1|exact H2].
Defined.
