(* ===== verification/Query.v ===== *)
(** * [query_entries]: filters, order and paging

    [query_results] is the specification of a query on the in-memory repository:
    the entries that match every given filter, in the stable order of
    [(written time, position)].  [collect_pages] is a client that follows the
    page tokens of the service's [query_entries] to the end. *)

From Stdlib Require Import String Strings.Byte ZArith Lia.
From stdpp Require Import base tactics numbers strings list gmap sorting.
From S2P Require Import Prelude Platform Crypto Repository Config World Service LedgerSpec.
From S2P Require Import InMemory Chain Examples ServiceWrite.

Section Spec.
Context {P : Platform}.

Definition opt_matches {F : Type} (o : option F) (keep : F → bool) : bool :=
  match o with Some f => keep f | None => true end.

Definition query_matches (q : EntryQuery) (e : LedgerEntryRecord) : bool :=
  opt_matches (eq_entry_type_prefix q) (λ f, starts_with f (le_entry_type e))
  && opt_matches (eq_agent_id q) (λ f, String.eqb (le_agent_id e) f)
  && opt_matches (eq_source_id q) (λ f, String.eqb (le_source_id e) f)
  && opt_matches (eq_correlation_id q) (λ f, bool_decide (le_correlation_id e = Some f))
  && opt_matches (eq_from_ts_ms q) (λ from, from <=? timestamp_millis (le_written_ts e))
  && opt_matches (eq_to_ts_ms q) (λ to, timestamp_millis (le_written_ts e) <=? to).

(** The query the service sends for a request. *)
Definition repository_query (query : QueryEntriesInput) : EntryQuery := {|
  eq_entry_type_prefix := qi_entry_type query;
  eq_agent_id := qi_agent_id query;
  eq_source_id := qi_source_id query;
  eq_correlation_id := qi_correlation_id query;
  eq_from_ts_ms := qi_from_ts query;
  eq_to_ts_ms := qi_to_ts query;
  eq_limit := page_limit (qi_page_size query);
  eq_offset := page_offset (qi_page_token query)
|}.

Definition query_results (g : Inner) (q : EntryQuery) : list LedgerEntryRecord :=
  stable_sort query_leb (filter (λ e, query_matches q e = true) (hashmap_values (entries g))).

Definition with_token (token : option string) (query : QueryEntriesInput) : QueryEntriesInput := {|
  qi_entry_type := qi_entry_type query; qi_agent_id := qi_agent_id query;
  qi_source_id := qi_source_id query; qi_correlation_id := qi_correlation_id query;
  qi_from_ts := qi_from_ts query; qi_to_ts := qi_to_ts query;
  qi_page_size := qi_page_size query; qi_page_token := token
|}.

(** Follows the tokens; [None] when the fuel does not reach the last page. *)
Fixpoint collect_pages {R} `{!LedgerRepository R} (fuel : nat) (query : QueryEntriesInput)
    : M R (option (result (list LedgerEntryRecord) ServiceError)) :=
  match fuel with
  | O => ret None
  | S fuel' =>
      let! page := service_query_entries query in
      match page with
      | Err e => ret (Some (Err e))
      | Ok (page_entries, None, _) => ret (Some (Ok page_entries))
      | Ok (page_entries, Some token, _) =>
          let! rest := collect_pages fuel' (with_token (Some token) query) in
          ret (match rest with
               | Some (Ok later) => Some (Ok (page_entries ++ later))
               | other => other
               end)
      end
  end.
End Spec.

(** * Lemmas *)

Section QueryLemmas.
Context {P : Platform} {PL : PlatformLaws P}.
Implicit Types (g : Inner) (q : EntryQuery) (e : LedgerEntryRecord) (l : list LedgerEntryRecord).

Lemma retain_opt_filter {F} (o : option F) (keep : F → LedgerEntryRecord → bool) l :
  retain_opt o keep l = filter (λ e, opt_matches o (λ f, keep f e) = true) l.
Proof.
  destruct o as [f|]; simpl; [done|]. symmetry. apply filter_all.
  apply Forall_forall. done.
Qed.

Lemma filter_filter_andb (b1 b2 : LedgerEntryRecord → bool) l :
  filter (λ e, b2 e = true) (filter (λ e, b1 e = true) l) = filter (λ e, b1 e && b2 e = true) l.
Proof.
  rewrite list_filter_filter. apply list_filter_iff. intros e. rewrite andb_true_iff. tauto.
Qed.

Lemma apply_query_filters_spec l q :
  apply_query_filters l q = filter (λ e, query_matches q e = true) l.
Proof.
  unfold apply_query_filters. rewrite !retain_opt_filter, !filter_filter_andb.
  apply list_filter_iff. intros e. unfold query_matches. by rewrite <- !andb_assoc.
Qed.

Lemma query_leb_total e1 e2 : query_leb e1 e2 = true ∨ query_leb e2 e1 = true.
Proof. apply pair_leb_total. Qed.

Lemma query_leb_trans e1 e2 e3 :
  query_leb e1 e2 = true → query_leb e2 e3 = true → query_leb e1 e3 = true.
Proof. apply pair_leb_trans. Qed.

Lemma in_memory_query_spec g q :
  in_memory_query_entries q g
  = (Ok {| qr_entries := take (Z.to_nat (eq_limit q))
                           (drop (Z.to_nat (eq_offset q)) (query_results g q));
           qr_total_count := Z.of_nat (length (query_results g q)) |}, g).
Proof. unfold in_memory_query_entries. by rewrite apply_query_filters_spec. Qed.

Lemma page_limit_bounds n : 1 ≤ page_limit n ≤ 1000.
Proof.
  unfold page_limit. destruct (Z.leb_spec n 0); [lia|]. destruct (Z.ltb_spec 1000 n); lia.
Qed.

Lemma query_results_token g query token1 token2 :
  query_results g (repository_query (with_token token1 query))
  = query_results g (repository_query (with_token token2 query)).
Proof. done. Qed.

(** One page from a given offset. *)
Lemma query_page (w : World Inner) query offset :
  page_offset (qi_page_token query) = offset →
  let all := query_results (w_repo w) (repository_query query) in
  let page := take (Z.to_nat (page_limit (qi_page_size query))) (drop (Z.to_nat offset) all) in
  service_query_entries query w
  = (Ok (page, next_page_token offset (length page) (Z.of_nat (length all)),
         Z.of_nat (length all)), w).
Proof.
  intros Hoff all page. unfold service_query_entries. rewrite Hoff.
  pose proof (in_memory_query_spec (w_repo w) (repository_query query)) as Hq.
  unfold repository_query in Hq at 1. rewrite Hoff in Hq.
  rewrite (bind_call_read _ _ w _ Hq). simpl. by rewrite Hoff.
Qed.

Lemma collect_from fuel (w : World Inner) query offset :
  let all := query_results (w_repo w) (repository_query query) in
  page_offset (qi_page_token query) = offset → 0 ≤ offset ≤ Z.of_nat (length all) →
  Z.of_nat (length all) ≤ usize_max → (length all - Z.to_nat offset < fuel)%nat →
  collect_pages fuel query w = (Some (Ok (drop (Z.to_nat offset) all)), w).
Proof.
  revert query offset. induction fuel as [|fuel IH]; intros query offset all Hoff Ho Hmax Hf; [lia|].
  cbn [collect_pages]. unfold mbind_M at 1. rewrite (query_page w query offset) by done.
  fold all. set (page := take _ (drop _ all)).
  pose proof (page_limit_bounds (qi_page_size query)) as Hlim.
  assert (length page = Z.to_nat (page_limit (qi_page_size query))
          `min` (length all - Z.to_nat offset))%nat as Hlen.
  { unfold page. by rewrite length_take, length_drop. }
  unfold next_page_token. unfold usize_max in *.
  rewrite usize_add_small by (unfold usize_max; lia). rewrite wrap_u_small by lia.
  destruct (Z.ltb_spec (offset + Z.of_nat (length page)) (Z.of_nat (length all))) as [Hlt|Hge].
  - set (next := offset + Z.of_nat (length page)) in *.
    unfold mbind_M. rewrite (IH (with_token (Some (int_to_string next)) query) next).
    + unfold ret. do 3 f_equal.
      change (query_results _ _) with all. unfold page.
      rewrite <- (take_drop (Z.to_nat (page_limit (qi_page_size query)))
                    (drop (Z.to_nat offset) all)) at 2.
      f_equal. rewrite drop_drop. f_equal. lia.
    + simpl. unfold page_offset. simpl.
      by rewrite parse_unsigned_to_string by (unfold usize_max; lia).
    + change (query_results _ _) with all. lia.
    + change (query_results _ _) with all. lia.
    + change (query_results _ _) with all. lia.
  - unfold ret. do 3 f_equal. unfold page. apply take_ge. rewrite length_drop. lia.
Qed.
End QueryLemmas.

(** * Properties *)

Section QueryProperties.
Context {P : Platform} {PL : PlatformLaws P}.

(** A query returns what was asked for: its pages are slices of one list that
    holds exactly the stored entries matching every filter, each once, ordered
    by written time and then position; the total is the length of that list, and
    a page has at most 1000 entries. *)
Theorem query_entries_correct (w : World Inner) (query : QueryEntriesInput) :
  inner_ok (w_repo w) →
  let all := query_results (w_repo w) (repository_query query) in
  (∃ token, service_query_entries query w
    = (Ok (take (Z.to_nat (page_limit (qi_page_size query)))
             (drop (Z.to_nat (page_offset (qi_page_token query))) all),
           token, Z.of_nat (length all)), w))
  ∧ (∀ e, e ∈ all ↔ (∃ t, e ∈ chain (inner_ledger (w_repo w)) t)
                    ∧ query_matches (repository_query query) e = true)
  ∧ NoDup (le_entry_id <$> all)
  ∧ StronglySorted (λ a b, query_leb a b = true) all
  ∧ page_limit (qi_page_size query) ≤ 1000.
Proof.
  intros Hok all. split; [eexists; by apply query_page|]. split; [|split; [|split]].
  - intros e. unfold all, query_results.
    rewrite stable_sort_perm, list_elem_of_filter, elem_of_hashmap_values. split.
    + intros [Hm [id Hid]]. split; [|done]. exists (le_entry_type e).
      apply elem_of_chain_inner; [done|]. by rewrite (io_self _ Hok _ _ Hid).
    + intros [[t Ht] Hm]. split; [done|]. apply elem_of_chain_inner in Ht as [He _]; [|done].
      by exists (le_entry_id e).
  - unfold all, query_results. rewrite stable_sort_perm.
    eapply sublist_NoDup; [|apply fmap_sublist, sublist_filter].
    rewrite hashmap_values_perm, <- list_fmap_compose.
    assert ((le_entry_id ∘ snd) <$> map_to_list (entries (w_repo w))
            = (map_to_list (entries (w_repo w))).*1) as ->.
    { apply list_fmap_ext. intros i [id e] Hi%list_elem_of_lookup_2. simpl.
      apply elem_of_map_to_list in Hi. by apply (io_self _ Hok). }
    apply NoDup_fst_map_to_list.
  - apply stable_sort_sorted; [apply query_leb_total|apply query_leb_trans].
  - apply page_limit_bounds.
Qed.

(** Paging is complete: a client that starts without a token and follows
    [next_page_token] gets every matching entry exactly once and in order, and
    stops; a fuel of one more than the number of results is enough. *)
Theorem pages_enumerate_results (fuel : nat) (w : World Inner) (query : QueryEntriesInput) :
  let all := query_results (w_repo w) (repository_query query) in
  qi_page_token query = None → Z.of_nat (length all) ≤ usize_max → (length all < fuel)%nat →
  collect_pages fuel query w = (Some (Ok all), w).
Proof.
  intros all Htok Hmax Hfuel. rewrite (collect_from fuel w query 0).
  - by rewrite drop_0.
  - by rewrite Htok.
  - fold all. lia.
  - done.
  - fold all. lia.
Qed.
End QueryProperties.

(** * Witnesses *)

#[local] Existing Instance Toy.platform.
#[local] Existing Instance Toy.laws.

Definition demo_query : QueryEntriesInput := {|
  qi_entry_type := Some "t"; qi_agent_id := None; qi_source_id := None;
  qi_correlation_id := None; qi_from_ts := None; qi_to_ts := None; qi_page_size := 1;
  qi_page_token := None
|}.

(** Two entries, so that a page of one leaves a second page. *)
Definition demo_two : World Inner :=
  (write_entry demo_service (demo_input "b" None) demo_one).2.

Lemma query_entries_correct_witness :
  StronglySorted (λ a b, query_leb a b = true)
    (query_results (w_repo demo_one) (repository_query demo_query)).
Proof.
  apply (query_entries_correct demo_one demo_query).
  apply iw_ok, (si_wf _ _ demo_one_inv).
Defined.

Lemma pages_enumerate_results_witness :
  collect_pages 3 demo_query demo_two
  = (Some (Ok (query_results (w_repo demo_two) (repository_query demo_query))), demo_two).
Proof.
  apply (pages_enumerate_results 3 demo_two demo_query);
    [reflexivity|apply Z.leb_le; by_compute|apply Nat.ltb_lt; by_compute].
Defined.
