(* ===== verification/PostgresService.v ===== *)
(** * The service over PostgreSQL

    What the service makes of [PostgresLedgerRepository] beyond the contract of
    LedgerSpec, which PostgresLaws discharges: recovery from a commit whose
    answer was lost, what the columns' lengths do to an entry, and how its
    [query_entries] compares with the in-memory one. *)

From Stdlib Require Import String Ascii Strings.Byte ZArith Lia.
From stdpp Require Import base tactics numbers strings list gmap sorting.
From S2P Require Import Prelude Platform Crypto Repository Postgres Config World Service LedgerSpec.
From S2P Require Import InMemory PostgresLaws Chain Examples ServiceWrite ServiceVerify Query.

(** * Lemmas *)

(** ** Commits whose answer was lost *)

Section Lost.
Context {P : Platform} {PL : PlatformLaws P} {G : PgPlatform} {GL : PgLaws G}.
Implicit Types (db : PostgresLedgerRepository) (input : EntryWriteInput).

(** The server answers again. *)
Definition healed db : PostgresLedgerRepository :=
  {| pg_tables := pg_tables db; pg_faults := []; pg_clock := pg_clock db |}.

(** What succeeds without changing the tables succeeds when the server answers. *)
Definition agrees {A} (m : Pg (result A RepositoryError)) : Prop :=
  ∀ db a db', m db = (Ok a, db') → m (healed db) = (Ok a, healed db) ∧ healed db' = healed db.

Lemma next_fault_healed db f db' : next_fault db = (f, db') → healed db' = healed db.
Proof. unfold next_fault. by destruct (pg_faults db); intros [= _ <-]. Qed.

Lemma agrees_read {A} (query : PgTables → result A RepositoryError) : agrees (pg_read query).
Proof.
  intros db a db'. unfold pg_read. destruct (next_fault db) as [f db1] eqn:E.
  apply next_fault_healed in E. destruct f; intros [= Hq <-]. split; [|done].
  apply (f_equal pg_tables) in E. simpl in *. by rewrite <- E, Hq.
Qed.

Lemma agrees_try {A B} (m : Pg (result A RepositoryError)) (k : A → Pg (result B RepositoryError)) :
  agrees m → (∀ a, agrees (k a)) → agrees (pg_try m k).
Proof.
  intros Hm Hk db b db'. unfold pg_try. destruct (m db) as [[a|e] db1] eqn:E; [|done].
  apply Hm in E as [-> E]. intros Hb%Hk. by rewrite E in Hb.
Qed.

Lemma agrees_ret {A} (r : result A RepositoryError) : agrees (pg_ret r).
Proof. intros db a db'. by intros [= -> <-]. Qed.

Lemma agrees_fail {A} e (f : PostgresLedgerRepository → PostgresLedgerRepository) :
  agrees (λ db, pg_fail (A := A) e (f db)).
Proof. by intros db a db' [=]. Qed.

Lemma agrees_next_position input : agrees (pg_next_position input).
Proof.
  unfold pg_next_position, pool_get. do 4 (apply agrees_try; [apply agrees_read|intros]).
  case_match; case_match; auto using agrees_fail, agrees_ret.
Qed.

Lemma next_position_Ok db input position db' :
  pg_next_position input db = (Ok position, db') → tables_wf (pg_tables db) →
  Z.of_nat (length (chain (pg_ledger (pg_tables db)) (ew_entry_type input))) < i64_max →
  linked (pg_ledger (pg_tables db)) input = true
  ∧ position = next_position (pg_ledger (pg_tables db)) input
  ∧ pg_tables db' = pg_tables db.
Proof.
  intros [Hp Hd]%agrees_next_position Htb Hlen.
  rewrite (pg_next_position_healthy (healed db) input eq_refl Htb Hlen) in Hp. simpl in Hp.
  unfold asked in Hp. destruct (sql_text _), (linked _ _); try done. injection Hp as <-.
  split; [done|]. split; [done|]. by apply (f_equal pg_tables) in Hd.
Qed.

(** What a commit of an accepted request leaves in the tables. *)
Lemma committed_tables db tb' input n :
  tables_wf (pg_tables db) → rows_fresh n (pg_tables db) →
  store_accepts (R := PostgresLedgerRepository) input →
  varchar 64 (ew_previous_hash input) = Some (ew_previous_hash input) →
  let L := pg_ledger (pg_tables db) in
  let row := next_entry L (stored_write PostgresLedgerRepository input) (uuid_v4 n) in
  Z.of_nat (length (chain L (ew_entry_type input))) < i64_max →
  committed (pg_tables db) tb' input (entry_at input n (next_position L input)) n →
  pg_ledger tb' = ledger_append row L ∧ tables_wf tb'
  ∧ ∀ key, ew_idempotency_key input = Some key →
      spec_idempotent L (ew_entry_type input) key = None.
Proof.
  intros Htb Hfresh Hacc Hprev L row Hlen (tb1 & Hins & Hout).
  unfold entry_at in Hins. subst L.
  rewrite (insert_entry_accepted db input n Hacc Hprev) in Hins.
  destruct (entry_violation _ _) as [c|] eqn:Hv; [done|]. injection Hins as <-.
  assert (∀ key, ew_idempotency_key input = Some key →
    spec_idempotent (pg_ledger (pg_tables db)) (ew_entry_type input) key = None) as Hk.
  { intros key Hkey. apply spec_idempotent_None. intros e. rewrite chain_pg.
    intros [He Ht]%elem_of_pg_chain Hke. revert Hv. unfold entry_violation.
    destruct (existsb _ _); [intros [=]|]. destruct (existsb _ _); [intros [=]|].
    rewrite (proj2 (existsb_exists _ _)); [intros [=]|]. exists e.
    split; [by apply list_elem_of_In|]. unfold same_key. simpl.
    by rewrite Ht, Hkey, Hke, !String.eqb_refl. }
  assert (∃ outbox, tb' = {| tb_entries := tb_entries (pg_tables db) ++ [row]; tb_outbox := outbox |})
    as [outbox ->].
  { destruct (ew_create_outbox input); [|by eexists; subst tb'].
    destruct Hout as (payload & now & Ho). revert Ho. unfold insert_outbox.
    repeat case_match; try done. intros [= <-]. by eexists. }
  pose proof (proj1 (text_fits_reads input (proj1 Hacc))) as Hreads.
  split; [by apply insert_ledger|]. split; [|done].
  apply insert_wf; try done. unfold row.
  rewrite (row_hash db input n Hacc). apply hash_fits.
Qed.

Lemma lost_commit_tables db db' input n n' :
  tables_wf (pg_tables db) → rows_fresh n (pg_tables db) →
  store_accepts (R := PostgresLedgerRepository) input →
  varchar 64 (ew_previous_hash input) = Some (ew_previous_hash input) →
  let L := pg_ledger (pg_tables db) in
  Z.of_nat (length (chain L (ew_entry_type input))) < i64_max →
  pg_write_entry_with_outbox input n db = (Err Unavailable, n', db') →
  pg_tables db' ≠ pg_tables db →
  pg_ledger (pg_tables db')
    = ledger_append (next_entry L (stored_write PostgresLedgerRepository input) (uuid_v4 n)) L
  ∧ tables_wf (pg_tables db').
Proof.
  intros Htb Hfresh Hacc Hprev L Hlen. unfold pg_write_entry_with_outbox.
  destruct (pg_next_position input db) as [[position|x] db1] eqn:Hp.
  2: { intros [= -> _ <-] Hne. destruct Hne.
       pose proof (reads_next_position input db) as [Ht _]. by rewrite Hp in Ht. }
  apply next_position_Ok in Hp as (_ & -> & Ht); [|done..].
  pose proof (pg_store_atomic input (next_position L input) n db1) as Hs. fold L.
  destruct (pg_store _ _ _ _) as [res db2]. intros [= -> _ <-] Hne.
  destruct Hs as [Hs|[_ Hc]]; [simpl in Hs; congruence|]. rewrite Ht in Hc.
  by destruct (committed_tables db (pg_tables db2) input n) as (HL & Hwf & _).
Qed.

(** ** Rows and the entries they store *)

Lemma committed_row (tb tb' : PgTables) input e n :
  committed tb tb' input e n → ∃ row, row ∈ tb_entries tb' ∧ entry_columns e = Some row.
Proof.
  intros (tb1 & Hins & Hout). revert Hins. unfold insert_entry.
  destruct (entry_columns e) as [row|]; [|done]. destruct (negb _); [done|].
  destruct (entry_violation _ _); [done|]. intros [= <-].
  exists row. split; [|done].
  destruct (ew_create_outbox input).
  - destruct Hout as (payload & now & Ho). revert Ho. unfold insert_outbox.
    repeat case_match; try done. intros [= <-]. apply elem_of_app. right. by left.
  - rewrite Hout. apply elem_of_app. right. by left.
Qed.

Lemma entry_columns_same e row :
  entry_columns e = Some row →
  le_entry_id row = le_entry_id e ∧ le_chain_position row = le_chain_position e
  ∧ le_content row = le_content e ∧ varchar 64 (le_entry_hash e) = Some (le_entry_hash row).
Proof.
  unfold entry_columns. intros H.
  repeat (apply bind_Some in H as (? & ? & H)). injection H as <-. done.
Qed.

End Lost.

(** ** Patterns *)

(** A text without [%], [_] and backslash. *)
Definition plain_byte (b : byte) : bool :=
  negb (Byte.eqb b "%"%byte || Byte.eqb b "_"%byte || Byte.eqb b "\"%byte).
Definition plain_pattern (p : string) : bool := forallb plain_byte (as_bytes p).

Lemma like_percent (t : list byte) : like ["%"%byte] t = true.
Proof. induction t as [|b t IH]; [done|]. simpl in *. done. Qed.

Lemma like_literal (c : byte) (p t : list byte) :
  plain_byte c = true →
  like (c :: p) t = match t with b :: t' => Byte.eqb b c && like p t' | [] => false end.
Proof. by destruct c. Qed.

Lemma like_prefix (p t : list byte) :
  forallb plain_byte p = true →
  like (p ++ ["%"%byte]) t = true ↔ ∃ r, t = p ++ r.
Proof.
  revert t. induction p as [|c p IH]; intros t; simpl forallb.
  - intros _. rewrite app_nil_l, like_percent. naive_solver.
  - intros [Hc Hp]%andb_true_iff. rewrite <- app_comm_cons, like_literal by done.
    destruct t as [|b t]; [naive_solver|]. rewrite andb_true_iff, IH by done. split.
    + intros [->%Byte.byte_dec_bl [r ->]]. by exists r.
    + intros [r [= -> ->]]. split; [by apply Byte.byte_dec_lb|eauto].
Qed.

Lemma as_bytes_app (s1 s2 : string) : as_bytes (s1 +:+ s2)%string = as_bytes s1 ++ as_bytes s2.
Proof.
  induction s1 as [|a s1 IH]; [done|].
  change (byte_of_ascii a :: as_bytes (s1 +:+ s2)%string
          = byte_of_ascii a :: (as_bytes s1 ++ as_bytes s2)). by rewrite IH.
Qed.

Lemma like_starts_with (p t : string) :
  plain_pattern p = true →
  like (as_bytes p ++ ["%"%byte]) (as_bytes t) = starts_with p t.
Proof.
  intros Hp. apply eq_true_iff_eq. rewrite like_prefix, starts_with_spec by done. split.
  - intros [r Hr]. exists (string_of_list_byte r). apply (inj as_bytes).
    by rewrite as_bytes_app, as_bytes_of_bytes.
  - intros [r ->]. exists (as_bytes r). apply as_bytes_app.
Qed.

Section Where.
Context {P : Platform} {PL : PlatformLaws P} {G : PgPlatform} {GL : PgLaws G}.

(** A bound in milliseconds that a double holds exactly. *)
Definition exact_bound (o : option Z) : Prop :=
  match o with Some ms => 0 ≤ ms < 2 ^ 31 * 1000 | None => True end.

(** Does the entry lie past the upper bound within its millisecond? *)
Definition cut_off (query : EntryQuery) (e : LedgerEntryRecord) : bool :=
  match eq_to_ts_ms query with
  | Some ms => ms * 1000 <? timestamp_micros (le_written_ts e)
  | None => false
  end.

Lemma query_where_matches (query : EntryQuery) (e : LedgerEntryRecord) :
  match eq_entry_type_prefix query with Some p => plain_pattern p = true | None => True end →
  exact_bound (eq_from_ts_ms query) → exact_bound (eq_to_ts_ms query) →
  query_where query e = query_matches query e && negb (cut_off query e).
Proof.
  intros Hp Hfrom Hto. unfold query_where, query_matches, cut_off, null_or, opt_matches.
  rewrite timestamp_micros_millis. rewrite <- !andb_assoc.
  f_equal; [destruct (eq_entry_type_prefix query); [by rewrite like_starts_with|done]|].
  do 3 (f_equal).
  f_equal.
  - destruct (eq_from_ts_ms query) as [ms|]; [|done]. rewrite pg_to_timestamp_exact by done.
    apply eq_true_iff_eq. rewrite !Z.leb_le.
    pose proof (Z.div_mod (timestamp_micros (le_written_ts e)) 1000).
    pose proof (Z.mod_pos_bound (timestamp_micros (le_written_ts e)) 1000). lia.
  - destruct (eq_to_ts_ms query) as [ms|]; [|done]. rewrite pg_to_timestamp_exact by done.
    apply eq_true_iff_eq. rewrite andb_true_iff, negb_true_iff, !Z.leb_le, Z.ltb_ge.
    pose proof (Z.div_mod (timestamp_micros (le_written_ts e)) 1000).
    pose proof (Z.mod_pos_bound (timestamp_micros (le_written_ts e)) 1000). lia.
Qed.

(** Bounds a double holds exactly are no reason to refuse a query. *)
Lemma query_accepted_texts (query : EntryQuery) :
  exact_bound (eq_from_ts_ms query) → exact_bound (eq_to_ts_ms query) →
  query_accepted query = forallb sql_text (query_texts query).
Proof.
  assert (∀ o, exact_bound o →
    null_or o (λ ms, bool_decide (is_Some (pg_to_timestamp ms))) = true) as Hb.
  { intros [ms|]; [|done]. intros Hms. apply bool_decide_true.
    by rewrite pg_to_timestamp_exact by done. }
  intros Hf Ht. unfold query_accepted. by rewrite !Hb, !andb_true_r.
Qed.

Lemma query_order_total e1 e2 : query_order e1 e2 = true ∨ query_order e2 e1 = true.
Proof. apply pair_leb_total. Qed.

Lemma query_order_trans e1 e2 e3 :
  query_order e1 e2 = true → query_order e2 e3 = true → query_order e1 e3 = true.
Proof. apply pair_leb_trans. Qed.
End Where.

(** * Properties *)

Section Properties.
Context {P : Platform} {PL : PlatformLaws P} {G : PgPlatform} {GL : PgLaws G}.
Context {Pub : Type} `{!EventPublisher Pub} (svc : ImmutableLedgerService Pub).

(** C16: a lost commit is recovered by repeating the request: over well-formed
    tables, with fresh identifiers, take a keyed request whose texts fit their
    columns without being cut ([store_accepts], and the 64 characters of the
    previous hash), on a chain with room for an entry, whose write answered
    "Unavailable" although its transaction was committed.  The same request, when
    its arguments are valid, its chain is not halted and the server answers again,
    is answered with the entry that was stored, and stores nothing more.  (A text
    the column cut would not match the request.) *)
Theorem lost_commit_recovered (w : World PostgresLedgerRepository) (input : WriteEntryInput)
    (previous_hash : string) (ts : DateTime) (create : bool) (n n' : nat)
    (db db' : PostgresLedgerRepository) (key : string) :
  let write := entry_write_input input previous_hash ts create in
  tables_wf (pg_tables db) → rows_fresh n (pg_tables db) →
  store_accepts (R := PostgresLedgerRepository) write → fits 64 previous_hash = true →
  Z.of_nat (length (chain (pg_ledger (pg_tables db)) (wi_entry_type input))) < i64_max →
  wi_idempotency_key input = Some key →
  pg_write_entry_with_outbox write n db = (Err Unavailable, n', db') →
  pg_tables db' ≠ pg_tables db →
  check_arguments svc input = Ok tt → w_halted w !! wi_entry_type input = None →
  w_repo w = healed db' →
  ∃ e w', write_entry svc input w = (Ok (output_of_entry e), w') ∧ w_repo w' = healed db'
    ∧ pg_ledger (pg_tables db') = ledger_append e (pg_ledger (pg_tables db))
    ∧ le_entry_id e = uuid_v4 n.
Proof.
  intros write Htb Hfresh Hacc Hfit Hlen Hkey Hw Hne Hargs Hh Hr.
  apply bool_decide_eq_true in Hfit.
  destruct (lost_commit_tables db db' write n n') as [HL Hwf]; [done..|].
  set (e := next_entry _ _ _) in HL.
  destruct (write_entry_stored svc w input e) as (w' & Hres & Hr').
  - rewrite Hr. split; [done|apply Hwf].
  - exact (store_accepts_reads _ Hacc).
  - done.
  - done.
  - unfold stored_for_key. rewrite Hkey. simpl. unfold w_ledger. rewrite Hr.
    apply spec_idempotent_elem; [by apply pg_keys_unique, Hwf| |done].
    simpl. rewrite HL, chain_append, decide_True by done.
    apply elem_of_app. right. by left.
  - exists e, w'. rewrite Hres. split; [|by rewrite Hr', Hr].
    assert (idempotent_request_matches e input = true) as ->; [|done].
    unfold idempotent_request_matches. by rewrite !bool_decide_true.
Qed.

(** C25: an accepted write is stored as it was hashed, or does not verify: after a
    write that reported success, whatever the server did, the stored row carries
    the reported identifier, position and hash; and if a column cut trailing
    spaces off the agent, source or content type, the row fails verification (or
    its text collides with the reported entry's). *)
Theorem stored_text_verifies_or_cut (input : EntryWriteInput) (n n' : nat)
    (db db' : PostgresLedgerRepository) (out : WriteResult) :
  pg_write_entry_with_outbox input n db = (Ok out, n', db') →
  ∃ row, row ∈ tb_entries (pg_tables db') ∧ entry_columns (wr_entry out) = Some row
    ∧ le_entry_id row = le_entry_id (wr_entry out)
    ∧ le_chain_position row = le_chain_position (wr_entry out)
    ∧ le_entry_hash row = le_entry_hash (wr_entry out)
    ∧ ((le_agent_id row, le_source_id row, le_content_type row)
       ≠ (ew_agent_id input, ew_source_id input, ew_content_type input) →
       entry_recomputed row ≠ Some (le_entry_hash row)
       ∨ collision (entry_text row) (entry_text (wr_entry out))).
Proof.
  intros Hw. pose proof (pg_write_outcome db input n) as Ha. rewrite Hw in Ha.
  destruct Ha as (Hc & [position He] & _).
  apply committed_row in Hc as (row & Hrow & Hcols). exists row.
  pose proof Hcols as Hsame. apply entry_columns_same in Hsame as (S1 & S2 & S3 & S4).
  assert (le_entry_hash row = le_entry_hash (wr_entry out)) as Hh.
  { rewrite He in S4 |- *.
    pose proof (sha256_hex_fits (canonical_bytes_v3
      (hash_input_of_write (uuid_v4 n) position input))) as Hfit.
    change (varchar 64 (le_entry_hash (entry_at input n position))
            = Some (le_entry_hash (entry_at input n position))) in Hfit. congruence. }
  do 2 (split; [done|]). split; [done|]. split; [done|]. split; [done|]. intros Hcut.
  destruct (decide (entry_recomputed row = Some (le_entry_hash row))) as [Hr|]; [right|by left].
  assert (entry_recomputed (wr_entry out) = Some (le_entry_hash row)) as Hr'.
  { rewrite Hh, He. done. }
  destruct (recomputed_binding row (wr_entry out) _ Hr Hr') as [Hs|]; [|done].
  apply same_proof_fields in Hs as (_ & _ & A & S & C). destruct Hcut.
  rewrite A, S, C, He. done.
Qed.

(** The answer to a query, while the server answers. *)
Lemma pg_query_healthy (query : EntryQuery) (db : PostgresLedgerRepository) :
  pg_faults db = [] → query_accepted query = true →
  0 ≤ eq_limit query ≤ i64_max → 0 ≤ eq_offset query ≤ i64_max →
  let rows := stable_sort query_order
    (pg_scan (filter (λ e, query_where query e = true) (tb_entries (pg_tables db)))) in
  pg_query_entries query db
  = (Ok {| qr_entries := take (Z.to_nat (eq_limit query)) (drop (Z.to_nat (eq_offset query)) rows);
           qr_total_count := Z.of_nat (length rows) |}, db).
Proof.
  intros H Hacc Hl Ho rows. unfold i64_max in *. unfold pg_query_entries. rewrite Hacc.
  rewrite pool_get_healthy by done.
  erewrite pg_try_read by done. unfold pg_try at 1. rewrite pg_read_healthy by done.
  rewrite !wrap_i_small by lia. rewrite (proj2 (Z.ltb_ge (eq_offset query) 0)) by lia.
  unfold sql_limit. rewrite (proj2 (Z.ltb_ge (eq_limit query) 0)) by lia.
  unfold pg_ret. do 3 f_equal. unfold rows. by rewrite stable_sort_perm, pg_scan_perm.
Qed.

(** A query the server does not take. *)
Lemma pg_query_refused (query : EntryQuery) (db : PostgresLedgerRepository) :
  pg_faults db = [] → query_accepted query = false →
  pg_query_entries query db = (Err Unavailable, db).
Proof.
  intros H Hacc. unfold pg_query_entries. rewrite Hacc, pool_get_healthy by done.
  unfold pg_try at 1. by rewrite pg_read_healthy.
Qed.

(** C24: the SQL query answers like the in-memory one: while the server answers, a
    query (limit and offset within an [i64], time bounds from 1970 to 2038, where
    a double holds their milliseconds exactly) whose texts have no NUL character
    returns the requested slice of the matching rows in [(time, position)] order
    and their exact number; the rows that match are those the in-memory repository
    selects, for prefixes without a [%], an underscore or a backslash, except
    entries written within the last millisecond of the upper bound, which only the
    in-memory repository includes.  A query with a NUL character in one of its
    texts, which the in-memory repository answers, is refused as Unavailable.  *)
Theorem postgres_query_correct (db : PostgresLedgerRepository) (query : EntryQuery) :
  pg_faults db = [] → 0 ≤ eq_limit query ≤ i64_max → 0 ≤ eq_offset query ≤ i64_max →
  match eq_entry_type_prefix query with Some p => plain_pattern p = true | None => True end →
  exact_bound (eq_from_ts_ms query) → exact_bound (eq_to_ts_ms query) →
  if forallb sql_text (query_texts query) then
    ∃ rows, rows ≡ₚ filter (λ e, query_matches query e && negb (cut_off query e) = true)
                      (tb_entries (pg_tables db))
      ∧ StronglySorted (λ a b, query_order a b = true) rows
      ∧ pg_query_entries query db
        = (Ok {| qr_entries :=
                   take (Z.to_nat (eq_limit query)) (drop (Z.to_nat (eq_offset query)) rows);
                 qr_total_count := Z.of_nat (length rows) |}, db)
  else pg_query_entries query db = (Err Unavailable, db).
Proof.
  intros H Hl Ho Hp Hf Ht. rewrite <- query_accepted_texts by done.
  destruct (query_accepted query) eqn:Hacc; [|by apply pg_query_refused].
  exists (stable_sort query_order
           (pg_scan (filter (λ e, query_where query e = true) (tb_entries (pg_tables db))))).
  split; [|split].
  - rewrite stable_sort_perm, pg_scan_perm. apply reflexive_eq, list_filter_iff.
    intros e. by rewrite query_where_matches.
  - apply stable_sort_sorted; [apply query_order_total|apply query_order_trans].
  - by apply pg_query_healthy.
Qed.
End Properties.

(** [LIKE] reads [%] and [_] in a prefix as wildcards; the in-memory filter does
    not. *)
Lemma prefix_wildcards :
  like (as_bytes "a_" ++ ["%"%byte]) (as_bytes "abc") = true ∧ starts_with "a_" "abc" = false
  ∧ like (as_bytes "%c" ++ ["%"%byte]) (as_bytes "abc") = true ∧ starts_with "%c" "abc" = false.
Proof. by repeat split. Qed.

(** * Witnesses *)

#[local] Existing Instance Toy.platform.
#[local] Existing Instance Toy.laws.
#[local] Existing Instance ToyPg.server.
#[local] Existing Instance ToyPg.server_laws.

(** The empty database of PostgresLaws, and one that will lose the answer to the
    commit: the pool, [BEGIN], the lock, the tip and the insert are answered. *)
Definition pg_losing : PostgresLedgerRepository :=
  {| pg_tables := pg_tables pg_empty;
     pg_faults := [Answered; Answered; Answered; Answered; Answered; AnswerLost];
     pg_clock := 0 |}.

Definition lost_write : EntryWriteInput :=
  entry_write_input demo_request "g" (5 : DateTime) false.

Definition pg_lost : PostgresLedgerRepository :=
  (pg_write_entry_with_outbox lost_write 0 pg_losing).2.

Lemma pg_lost_write :
  pg_write_entry_with_outbox lost_write 0 pg_losing = (Err Unavailable, 3%nat, pg_lost).
Proof.
  assert (match (pg_write_entry_with_outbox lost_write 0 pg_losing).1.1 with
          | Err Unavailable => true | _ => false end = true) as H1 by by_compute.
  assert ((pg_write_entry_with_outbox lost_write 0 pg_losing).1.2 = 3%nat) as H2 by by_compute.
  unfold pg_lost. destruct (pg_write_entry_with_outbox lost_write 0 pg_losing) as [[res n'] db'].
  cbn [fst snd] in *. subst n'. by destruct res as [|[]].
Qed.

Lemma pg_lost_stored : pg_tables pg_lost ≠ pg_tables pg_losing.
Proof.
  intros H.
  assert (length (tb_entries (pg_tables pg_lost)) = 1%nat) as E by by_compute.
  rewrite H in E. discriminate E.
Qed.

Lemma lost_commit_recovered_witness :
  ∃ e w', write_entry demo_service demo_request (world_init (healed pg_lost))
          = (Ok (output_of_entry e), w')
    ∧ w_repo w' = healed pg_lost
    ∧ pg_ledger (pg_tables pg_lost) = ledger_append e (pg_ledger (pg_tables pg_losing))
    ∧ le_entry_id e = uuid_v4 0.
Proof.
  refine (lost_commit_recovered demo_service (world_init (healed pg_lost)) demo_request "g" 5 false
            0 3 pg_losing pg_lost "k" pg_empty_wf (pg_empty_fresh 0) _ _ _ _ pg_lost_write
            pg_lost_stored _ _ _); try reflexivity.
  split; reflexivity.
Defined.

(** A content type padded with spaces past the width of its column. *)
Definition padded_write : EntryWriteInput := {|
  ew_entry_type := "t"; ew_agent_id := "a"; ew_content := [];
  ew_content_type := string_of_list_byte ("p"%byte :: repeat " "%byte 100);
  ew_source_id := "s"; ew_correlation_id := None; ew_idempotency_key := None;
  ew_input_hash := None; ew_writer_signature := None; ew_signer_key_reference := None;
  ew_attestation_report := None; ew_previous_hash := "g"; ew_written_ts := 5;
  ew_create_outbox := false
|}.

(** The write is accepted, and the stored entry does not verify. *)
Lemma padded_text_breaks_chain :
  let '(res, _, db') := pg_write_entry_with_outbox padded_write 0 pg_empty in
  is_ok res = true
  ∧ map (λ row, (String.length (le_content_type row),
                 bool_decide (entry_recomputed row = Some (le_entry_hash row))))
      (tb_entries (pg_tables db')) = [(100%nat, false)].
Proof.
  assert (is_ok (pg_write_entry_with_outbox padded_write 0 pg_empty).1.1 = true) as H1 by by_compute.
  assert (map (λ row, (String.length (le_content_type row),
                 bool_decide (entry_recomputed row = Some (le_entry_hash row))))
      (tb_entries (pg_tables (pg_write_entry_with_outbox padded_write 0 pg_empty).2))
    = [(100%nat, false)]) as H2 by by_compute.
  by destruct (pg_write_entry_with_outbox padded_write 0 pg_empty) as [[res n'] db'].
Qed.

Lemma stored_text_verifies_or_cut_witness :
  ∃ out n' db' row, pg_write_entry_with_outbox padded_write 0 pg_empty = (Ok out, n', db')
    ∧ row ∈ tb_entries (pg_tables db') ∧ entry_columns (wr_entry out) = Some row.
Proof.
  assert (is_ok (pg_write_entry_with_outbox padded_write 0 pg_empty).1.1 = true) as H by by_compute.
  destruct (pg_write_entry_with_outbox padded_write 0 pg_empty) as [[[out|e] n'] db'] eqn:E.
  - destruct (stored_text_verifies_or_cut padded_write 0 n' pg_empty db' out E)
      as (row & H1 & H2 & _).
    exists out, n', db', row. split; [reflexivity|]. split; [exact H1|exact H2].
  - discriminate H.
Defined.

Lemma postgres_query_correct_witness :
  let query := {| eq_entry_type_prefix := Some "t"; eq_agent_id := None; eq_source_id := None;
                  eq_correlation_id := None; eq_from_ts_ms := Some 0; eq_to_ts_ms := Some 10;
                  eq_limit := 10; eq_offset := 0 |} in
  ∃ rows, rows ≡ₚ filter (λ e, query_matches query e && negb (cut_off query e) = true)
                    (tb_entries (pg_tables (healed pg_lost)))
    ∧ StronglySorted (λ a b, query_order a b = true) rows
    ∧ pg_query_entries query (healed pg_lost)
      = (Ok {| qr_entries := take 10 (drop 0 rows);
               qr_total_count := Z.of_nat (length rows) |}, healed pg_lost).
Proof.
  intros query.
  refine (postgres_query_correct (healed pg_lost) query _ _ _ _ _ _); simpl;
    unfold i64_max; try reflexivity; lia.
Defined.
