(* ===== verification/PostgresSchema.v ===== *)
(** * The tables of [src/repository/postgres.rs] keep their types

    [schema_ok] is what the column types, checks and unique indexes of
    [migrations/*.sql] promise of the two tables, together with what the code
    adds: an event belongs to an entry that is stored.  [postgres_schema_kept]
    shows it of every sequence of the file's writes and updates, whatever becomes
    of the requests to the server. *)

From Stdlib Require Import String Strings.Byte ZArith Lia.
From stdpp Require Import base tactics numbers strings list gmap sorting.
From S2P Require Import Prelude Platform Crypto Repository Postgres Config World Service.
From S2P Require Import LedgerSpec PostgresLaws PostgresService.

Section Schema.
Context {P : Platform} {G : PgPlatform}.
Implicit Types (tb : PgTables) (e : LedgerEntryRecord) (r : OutboxRow).

(** The texts of a row are values of their columns' types. *)
Definition entry_typed e : bool :=
  fits 255 (le_entry_type e) && fits 255 (le_agent_id e)
  && fits 100 (le_content_type e) && fits 255 (le_source_id e)
  && fits_opt 255 (le_correlation_id e) && fits_opt 255 (le_idempotency_key e)
  && fits_opt 128 (le_input_hash e) && fits_opt 255 (le_signer_key_reference e)
  && fits 64 (le_hash_version e) && fits 64 (le_entry_hash e) && fits 64 (le_previous_hash e)
  && hash_version_check e.

Definition event_typed r : bool :=
  fits 255 (or_entry_type r)
  && existsb (String.eqb (or_status r)) ["PENDING"; "DELIVERED"; "FAILED"]
  && (0 <=? or_attempt_count r) && (or_attempt_count r <=? i32_max).

(** The values of the unique indexes. *)
Definition position_key e : string * Z := (le_entry_type e, le_chain_position e).
Definition idempotency_key e : option (string * string) :=
  (λ key, (le_entry_type e, key)) <$> le_idempotency_key e.

Record schema_ok tb : Prop := {
  sc_entries : ∀ e, e ∈ tb_entries tb → entry_typed e = true;
  sc_entry_ids : NoDup (le_entry_id <$> tb_entries tb);
  sc_positions : NoDup (position_key <$> tb_entries tb);
  sc_keys : NoDup (omap idempotency_key (tb_entries tb));
  sc_outbox : ∀ r, r ∈ tb_outbox tb → event_typed r = true;
  sc_outbox_ids : NoDup (or_outbox_id <$> tb_outbox tb);
  sc_events : ∀ r, r ∈ tb_outbox tb → ∃ e, e ∈ tb_entries tb
    ∧ le_entry_id e = or_entry_id r ∧ le_entry_type e = or_entry_type r
}.

(** What the repository is asked to do to its tables. *)
Inductive PgOp : Type :=
| PgWrite (input : EntryWriteInput)
| PgOutbox (op : OutboxOp).

Fixpoint run_pg_ops (ops : list PgOp) (n : nat) (db : PostgresLedgerRepository)
    : PostgresLedgerRepository :=
  match ops with
  | [] => db
  | PgWrite input :: ops' =>
      let '(_, n', db') := pg_write_entry_with_outbox input n db in run_pg_ops ops' n' db'
  | PgOutbox op :: ops' => run_pg_ops ops' n (run_outbox_op op db).2
  end.
End Schema.

(** * Lemmas *)

(** ** A stored text fits its column *)

Lemma utf8_split_kept (n : nat) (l : list byte) :
  utf8_split n (utf8_split n l).1 = ((utf8_split n l).1, []).
Proof.
  revert n. induction l as [|b l IH]; intros n; [done|]. simpl.
  destruct (is_continuation b) eqn:Hb.
  - specialize (IH n). destruct (utf8_split n l) as [a r]. simpl in *. by rewrite Hb, IH.
  - destruct n as [|n]; [done|]. specialize (IH n). destruct (utf8_split n l) as [a r].
    simpl in *. by rewrite Hb, IH.
Qed.

Lemma varchar_stored (n : nat) (s s' : string) : varchar n s = Some s' → varchar n s' = Some s'.
Proof.
  intros H. destruct (varchar_prefix n s s' H) as (H0 & spaces & Hs & _). revert H. unfold varchar.
  pose proof (utf8_split_kept n (as_bytes s)) as Hk.
  destruct (utf8_split n (as_bytes s)) as [kept rest]. simpl in Hk. rewrite H0.
  destruct (forallb _ rest); [|done]. intros [= <-].
  assert (as_bytes (string_of_list_byte kept) = kept) as E by apply as_bytes_of_bytes.
  rewrite E, Hk. simpl. rewrite E in Hs.
  assert (has_nul kept = false) as ->; [|done].
  apply has_nul_false. apply has_nul_false in H0. rewrite Hs in H0. intros Hin. apply H0.
  apply elem_of_app. by left.
Qed.

Lemma fits_stored (n : nat) (s s' : string) : varchar n s = Some s' → fits n s' = true.
Proof. intros H%varchar_stored. by apply bool_decide_eq_true. Qed.

Lemma fits_opt_stored (n : nat) (o o' : option string) :
  varchar_opt n o = Some o' → fits_opt n o' = true.
Proof.
  intros H. apply bool_decide_eq_true. destruct o as [s|]; simpl in *; [|by injection H as <-].
  apply fmap_Some in H as (s' & Hs & ->). simpl. by rewrite (varchar_stored n s s' Hs).
Qed.

Section SchemaLemmas.
Context {P : Platform} {G : PgPlatform}.
Implicit Types (tb : PgTables) (e row : LedgerEntryRecord) (r : OutboxRow).

Lemma entry_columns_typed e row :
  entry_columns e = Some row → hash_version_check row = true → entry_typed row = true.
Proof.
  unfold entry_columns. intros H Hv.
  repeat (apply bind_Some in H as (? & ? & H)). injection H as <-.
  unfold entry_typed. rewrite Hv. simpl.
  repeat match goal with
  | H : varchar _ _ = Some _ |- _ => rewrite (fits_stored _ _ _ H); clear H
  | H : varchar_opt _ _ = Some _ |- _ => rewrite (fits_opt_stored _ _ _ H); clear H
  end.
  done.
Qed.

(** No violation: the values of the new row are not in the indexes. *)
Lemma entry_violation_new row rows :
  entry_violation row rows = None →
  (le_entry_id row ∉ le_entry_id <$> rows)
  ∧ (position_key row ∉ position_key <$> rows)
  ∧ (∀ k, idempotency_key row = Some k → k ∉ omap idempotency_key rows).
Proof.
  unfold entry_violation. destruct (existsb _ rows) eqn:H1; [done|].
  destruct (existsb (same_position row) rows) eqn:H2; [done|].
  destruct (existsb (same_key row) rows) eqn:H3; [done|]. intros _.
  assert (∀ (f : LedgerEntryRecord → bool) e, existsb f rows = false → e ∈ rows → f e = false)
    as Hno.
  { intros f e Hf He. apply not_true_iff_false. intros Ht. apply not_true_iff_false in Hf.
    apply Hf, existsb_exists. exists e. by rewrite <- list_elem_of_In. }
  split; [|split].
  - intros (e & Heq & He)%list_elem_of_fmap. specialize (Hno _ e H1 He). simpl in Hno.
    by apply bool_decide_eq_false in Hno.
  - intros (e & Heq & He)%list_elem_of_fmap. injection Heq as Ht Hp. specialize (Hno _ e H2 He).
    unfold same_position in Hno. rewrite Ht, Hp, String.eqb_refl, Z.eqb_refl in Hno. done.
  - intros k Hk (e & He & Hke)%list_elem_of_omap. specialize (Hno _ e H3 He).
    unfold idempotency_key, same_key in *.
    destruct (le_idempotency_key row) as [kr|]; [|done].
    destruct (le_idempotency_key e) as [ke|]; [|done]. simpl in *.
    injection Hk as <-. injection Hke as Ht Hkk. by rewrite Ht, Hkk, !String.eqb_refl in Hno.
Qed.

Lemma nodup_snoc {A} (l : list A) (x : A) : NoDup l → x ∉ l → NoDup (l ++ [x]).
Proof.
  intros Hl Hx. apply NoDup_app. split; [done|]. split; [|apply NoDup_singleton].
  by intros y Hy ->%list_elem_of_singleton.
Qed.

Lemma insert_entry_schema e tb tb' :
  schema_ok tb → insert_entry e tb = Ok tb' →
  schema_ok tb' ∧ tb_outbox tb' = tb_outbox tb
  ∧ ∃ row, entry_columns e = Some row ∧ row ∈ tb_entries tb'.
Proof.
  intros Hsc. unfold insert_entry. destruct (entry_columns e) as [row|] eqn:Hc; [|done].
  destruct (hash_version_check row) eqn:Hv; [|done]. simpl.
  destruct (entry_violation row (tb_entries tb)) eqn:Hnew; [done|]. intros [= <-].
  apply entry_violation_new in Hnew as (Hid & Hpos & Hkey).
  split; [|split; [done|exists row; split; [done|apply elem_of_app; right; by left]]].
  split; simpl; try apply Hsc.
  - intros e'. rewrite elem_of_app, list_elem_of_singleton. intros [He| ->]; [by apply Hsc|].
    by apply (entry_columns_typed e).
  - rewrite fmap_app. apply nodup_snoc; [apply Hsc|done].
  - rewrite fmap_app. apply nodup_snoc; [apply Hsc|done].
  - rewrite omap_app. simpl. destruct (idempotency_key row) as [k|].
    + apply nodup_snoc; [apply Hsc|by apply Hkey].
    + rewrite app_nil_r. apply Hsc.
  - intros r Hr. destruct (sc_events _ Hsc r Hr) as (e' & He' & ?). exists e'.
    split; [apply elem_of_app; by left|done].
Qed.

Lemma insert_outbox_schema outbox_id entry_id entry_type payload now tb tb' row :
  schema_ok tb → row ∈ tb_entries tb → le_entry_id row = entry_id →
  varchar 255 entry_type = Some (le_entry_type row) →
  insert_outbox outbox_id entry_id entry_type payload now tb = Ok tb' → schema_ok tb'.
Proof.
  intros Hsc Hrow Hid Ht. unfold insert_outbox. rewrite Ht.
  destruct (jsonb_text payload) as [text|]; [|done].
  destruct (existsb _ _) eqn:Hnew; [done|]. intros [= <-].
  split; simpl; try apply Hsc.
  - intros r. rewrite elem_of_app, list_elem_of_singleton. intros [Hr| ->]; [by apply Hsc|].
    unfold event_typed. simpl. by rewrite (fits_stored _ _ _ Ht).
  - rewrite fmap_app. apply nodup_snoc; [apply Hsc|]. simpl.
    intros (r & Heq & Hr)%list_elem_of_fmap. apply not_true_iff_false in Hnew. apply Hnew.
    apply existsb_exists. exists r. rewrite <- list_elem_of_In. split; [done|].
    by apply bool_decide_eq_true.
  - intros r. rewrite elem_of_app, list_elem_of_singleton. intros [Hr| ->]; [by apply Hsc|].
    by exists row.
Qed.

Lemma entry_columns_type e row :
  entry_columns e = Some row → varchar 255 (le_entry_type e) = Some (le_entry_type row).
Proof.
  unfold entry_columns. intros H.
  repeat (apply bind_Some in H as (? & ? & H)). by injection H as <-.
Qed.

Lemma committed_schema tb tb' input e n :
  schema_ok tb → le_entry_type e = ew_entry_type input →
  committed tb tb' input e n → schema_ok tb'.
Proof.
  intros Hsc Ht (tb1 & Hins & Hout).
  destruct (insert_entry_schema e tb tb1 Hsc Hins) as (Hsc1 & _ & row & Hc & Hrow).
  destruct (ew_create_outbox input); [|by subst].
  destruct Hout as (payload & now & Ho).
  refine (insert_outbox_schema _ _ _ _ _ tb1 tb' row Hsc1 Hrow _ _ Ho).
  - by apply entry_columns_same in Hc as [? _].
  - rewrite <- Ht. by apply entry_columns_type.
Qed.

Lemma write_schema input n db :
  schema_ok (pg_tables db) → schema_ok (pg_tables (pg_write_entry_with_outbox input n db).2).
Proof.
  intros Hsc. pose proof (pg_write_outcome db input n) as Hw.
  destruct (pg_write_entry_with_outbox input n db) as [[res n'] db']. simpl.
  destruct res as [out|x].
  - destruct Hw as (Hc & (position & He) & _). refine (committed_schema _ _ input _ n Hsc _ Hc).
    by rewrite He.
  - destruct x; try by rewrite Hw.
    destruct Hw as [->|(_ & position & Hc)]; [done|].
    by refine (committed_schema _ _ input _ n Hsc _ Hc).
Qed.

(** *** The outbox *)

Lemma update_rows_schema keep set tb :
  (∀ r, r ∈ tb_outbox tb → keep r = true → event_typed r = true → event_typed (set r) = true
        ∧ or_outbox_id (set r) = or_outbox_id r
        ∧ or_entry_id (set r) = or_entry_id r ∧ or_entry_type (set r) = or_entry_type r) →
  schema_ok tb → schema_ok (update_rows keep set tb).2.
Proof.
  intros Hset Hsc. unfold update_rows. set (f r := if keep r then set r else r).
  assert (∀ r, r ∈ tb_outbox tb → event_typed (f r) = true ∧ or_outbox_id (f r) = or_outbox_id r
    ∧ or_entry_id (f r) = or_entry_id r ∧ or_entry_type (f r) = or_entry_type r) as Hf.
  { intros r Hr. pose proof (sc_outbox _ Hsc r Hr) as Ht. unfold f.
    destruct (keep r) eqn:Hk; [by apply Hset|done]. }
  split; simpl; try apply Hsc.
  - intros r' (r & -> & Hr)%list_elem_of_fmap. by apply Hf.
  - rewrite <- list_fmap_compose. erewrite list_fmap_ext; [apply (sc_outbox_ids _ Hsc)|].
    intros i r Hr. simpl. by apply Hf, (list_elem_of_lookup_2 _ i).
  - intros r' (r & -> & Hr)%list_elem_of_fmap. destruct (Hf r Hr) as (_ & _ & -> & ->).
    by apply Hsc.
Qed.

Lemma pg_update_schema (statement : PgTables → result (nat * PgTables) DbError) db :
  (∀ tb n tb', schema_ok tb → statement tb = Ok (n, tb') → schema_ok tb') →
  schema_ok (pg_tables db) →
  schema_ok (pg_tables ((sql? _ := pool_get in
    sql? n := pg_execute statement in updated n) db).2).
Proof.
  intros Hs Hsc. unfold pg_try, pool_get, pg_execute, updated, pg_ret, pg_read.
  destruct (next_fault db) as [f db1] eqn:E1. apply next_fault_untouched in E1 as [[H1 _] _].
  rewrite <- H1 in Hsc. destruct f; try done.
  destruct (next_fault db1) as [f db2] eqn:E2. apply next_fault_untouched in E2 as [[H2 _] _].
  rewrite <- H2 in Hsc. destruct f; simpl; try done;
    (destruct (statement (pg_tables db2)) as [[n tables]|] eqn:Hst; [|done]; by apply Hs in Hst).
Qed.
Lemma row_status_typed status r :
  existsb (String.eqb status) ["PENDING"; "DELIVERED"; "FAILED"] = true →
  event_typed r = true → event_typed (row_status status r) = true.
Proof.
  unfold event_typed. intros Hs. rewrite !andb_true_iff. simpl in *. naive_solver.
Qed.

Lemma row_attempt_typed now r :
  or_attempt_count r ≠ i32_max → event_typed r = true → event_typed (row_attempt now r) = true.
Proof.
  unfold event_typed. intros Hn. rewrite !andb_true_iff, !Z.leb_le. simpl. intros. destruct_and!.
  split_and!; try done; lia.
Qed.

Lemma outbox_op_schema op db :
  schema_ok (pg_tables db) → schema_ok (pg_tables (run_outbox_op op db).2).
Proof.
  destruct op as [id|id|id]; simpl.
  - apply pg_update_schema. intros tb n tb' Hsc [= _ <-].
    refine (update_rows_schema _ _ tb _ Hsc). intros r _ _ Hr.
    split; [by apply row_status_typed|done].
  - intros Hsc. unfold pg_increment_outbox_attempt, pg_try, pool_get, pg_read.
    destruct (next_fault db) as [f db1] eqn:E1. apply next_fault_untouched in E1 as [[H1 _] _].
    rewrite <- H1 in Hsc. destruct f; try done.
    unfold pg_execute, updated, pg_ret.
    destruct (next_fault (tick_now db1)) as [f db2] eqn:E2.
    apply next_fault_untouched in E2 as [[H2 _] _]. simpl in H2.
    rewrite <- H2 in Hsc. destruct f; simpl; try done;
      (destruct (existsb _ _) eqn:Hmax; simpl; [done|];
       refine (update_rows_schema _ _ _ _ Hsc); intros r Hin Hk Hr;
       split; [apply row_attempt_typed; [|done]|done]; intros Heq;
       apply not_true_iff_false in Hmax; apply Hmax, existsb_exists; exists r;
       rewrite <- list_elem_of_In, Hk, Heq; done).
  - apply pg_update_schema. intros tb n tb' Hsc [= _ <-].
    refine (update_rows_schema _ _ tb _ Hsc). intros r _ _ Hr.
    split; [by apply row_status_typed|done].
Qed.

Lemma pg_ops_schema (ops : list PgOp) (n : nat) (db : PostgresLedgerRepository) :
  schema_ok (pg_tables db) → schema_ok (pg_tables (run_pg_ops ops n db)).
Proof.
  revert n db. induction ops as [|[input|op] ops IH]; intros n db Hsc; simpl; [done|..].
  - pose proof (write_schema input n db Hsc) as Hw.
    destruct (pg_write_entry_with_outbox input n db) as [[res n'] db']. by apply IH.
  - by apply IH, outbox_op_schema.
Qed.
(** C26: the tables keep their types: under any sequence of writes, with any
    requests, and of outbox updates, with any failures and lost answers of the
    server, every stored text is a value of its column's type, no two entries
    share an identifier, a position of a chain or an idempotency key, every event
    has one of the three statuses and a non-negative 32-bit attempt count, and
    every event belongs to an entry that is stored in the same chain. *)
Theorem postgres_schema_kept (ops : list PgOp) (n : nat) (db : PostgresLedgerRepository) :
  schema_ok (pg_tables db) → schema_ok (pg_tables (run_pg_ops ops n db)).
Proof. apply pg_ops_schema. Qed.
End SchemaLemmas.

(** * Witness: a write that is stored, one whose commit is lost, and updates *)

#[local] Existing Instance Toy.platform.
#[local] Existing Instance ToyPg.server.

Definition pg_unreliable : PostgresLedgerRepository :=
  {| pg_tables := {| tb_entries := []; tb_outbox := [] |};
     pg_faults := [Answered; Answered; Answered; Answered; Answered; AnswerLost; NotDone];
     pg_clock := 0 |}.

Lemma empty_schema : schema_ok {| tb_entries := []; tb_outbox := [] |}.
Proof. split; simpl; try (intros ? H; by apply not_elem_of_nil in H); apply NoDup_nil_2. Qed.

Lemma postgres_schema_kept_witness :
  schema_ok (pg_tables (run_pg_ops
    [PgWrite pg_demo_input; PgOutbox (IncrementAttempt (uuid_v4 1)); PgWrite pg_demo_input;
     PgOutbox (MarkDelivered (uuid_v4 1))] 0 pg_unreliable)).
Proof. apply postgres_schema_kept. exact empty_schema. Defined.
