(* ===== verification/Outbox.v ===== *)
(** * The outbox: [HttpEventPublisher], [publish_one] and the outbox processor

    The processor is a background task of [src/service/mod.rs]; one round of its
    loop is [outbox_pass], and it shares the repository with the service.  The
    publisher's environment (the network) changes with each delivery, so it is
    threaded next to the world.  The HTTP client of [reqwest] is not in the
    repository: it is the parameter [HttpClient].  Log records are left out. *)

From Stdlib Require Import String Strings.Byte ZArith Lia.
From stdpp Require Import base tactics numbers strings list gmap sorting.
From S2P Require Import Prelude Platform Crypto Repository Config World Service LedgerSpec.
From S2P Require Import InMemory Chain Examples ServiceWrite.

(** ** Publishing over HTTP *)

(** [reqwest]: URLs, the client and what it does to the network [net]. *)
Class HttpClient := {
  Url : Type;
  url_parse : string → result Url string;
  net : Type;
  client_build : Z → result unit string;           (* Client::builder().timeout(..).build() *)
  (* send: the response's status, or the error's text *)
  http_post : Url → list (string * string) → string → net → result Z string * net;
  status_error : Url → Z → string                  (* the text of error_for_status's error *)
}.

Section HttpPublisher.
Context {P : Platform} {H : HttpClient}.

Record HttpEventPublisher := {
  hp_endpoint : option Url;
  hp_bearer_token : option string;
  hp_net : net
}.

Definition http_publisher_new (endpoint bearer_token : option string) (timeout : Z) (n : net)
    : result HttpEventPublisher string :=
  let? endpoint :=
    match endpoint with
    | None => Ok None
    | Some value =>
        let? url := map_err (λ err, "invalid outbox HTTP endpoint: " +:+ err)
                      (url_parse (trim value)) in
        Ok (Some url)
    end in
  let? _ := map_err (λ err, "failed to create outbox HTTP client: " +:+ err)
              (client_build timeout) in
  Ok {| hp_endpoint := endpoint; hp_bearer_token := bearer_token; hp_net := n |}.

Definition publish_headers (record : OutboxRecord) (bearer : option string)
    : list (string * string) :=
  [("Content-Type", "application/json");
   ("Idempotency-Key", uuid_to_string (ob_outbox_id record));
   ("X-Ledger-Entry-ID", uuid_to_string (ob_entry_id record))]
  ++ match bearer with Some token => [("Authorization", "Bearer " +:+ token)] | None => [] end.

(** [error_for_status] refuses the statuses 400 to 599. *)
Definition http_publish (record : OutboxRecord) (p : HttpEventPublisher)
    : result unit string * HttpEventPublisher :=
  match hp_endpoint p with
  | None => (Err "event publisher is not configured", p)
  | Some url =>
      let '(res, n) :=
        http_post url (publish_headers record (hp_bearer_token p)) (ob_payload record) (hp_net p) in
      let p' := {| hp_endpoint := hp_endpoint p; hp_bearer_token := hp_bearer_token p;
                   hp_net := n |} in
      (match res with
       | Err err => Err ("outbox HTTP request failed: " +:+ err)
       | Ok status =>
           if (400 <=? status) && (status <? 600) then
             Err ("outbox HTTP endpoint rejected event: " +:+ status_error url status)
           else Ok tt
       end, p')
  end.

#[global] Instance http_publisher : EventPublisher HttpEventPublisher := {|
  publisher_is_enabled p := bool_decide (is_Some (hp_endpoint p));
  publish := http_publish
|}.
End HttpPublisher.

(** ** The processor *)

Section Processor.
Context {P : Platform} {R Pub : Type} `{!LedgerRepository R, !EventPublisher Pub}.

(** [500 * 2u64.pow(next_attempt.min(10) as u32)] *)
Definition outbox_backoff (next_attempt : Z) : Z :=
  u64_mul 500 (u64_pow 2 (wrap_u 32 (Z.min next_attempt 10))).

Definition publish_one (record : OutboxRecord) (max_retries : Z) (pub : Pub)
    : M R (result unit ServiceError * Pub) :=
  let '(published, pub') := publish record pub in
  match published with
  | Ok _ =>
      let! marked := call (mark_outbox_delivered (ob_outbox_id record)) in
      ret (map_err map_repo marked, pub')
  | Err err =>
      let! _ := call (increment_outbox_attempt (ob_outbox_id record)) in
      let next_attempt := i32_add (ob_attempt_count record) 1 in
      let! _ :=
        if wrap_i 32 max_retries <=? next_attempt then
          let! _ := call (mark_outbox_failed (ob_outbox_id record)) in ret tt
        else sleep (outbox_backoff next_attempt) in
      ret (Err (SInternal err), pub')
  end.

(** The failure counter of the loop's body. *)
Definition count_outbox_failure (answer : result unit ServiceError) : M R unit :=
  match answer with Ok _ => ret tt | Err _ => metric inc_outbox_failure end.

(** The [for record in pending] loop. *)
Fixpoint publish_all (records : list OutboxRecord) (max_retries : Z) (pub : Pub) : M R Pub :=
  match records with
  | [] => ret pub
  | record :: records' =>
      let! answer := publish_one record max_retries pub in
      let! _ := count_outbox_failure answer.1 in
      publish_all records' max_retries answer.2
  end.

(** One round of the processor's [loop]. *)
Definition outbox_pass (max_retries : Z) (pub : Pub) : M R Pub :=
  let! pending := call pending_outbox in
  match pending with
  | Err _ => let! _ := sleep 500 in ret pub
  | Ok records =>
      let! pub' := publish_all records max_retries pub in
      let! _ := sleep 500 in
      ret pub'
  end.

Fixpoint outbox_passes (n : nat) (max_retries : Z) (pub : Pub) : M R Pub :=
  match n with
  | O => ret pub
  | S n' => let! pub' := outbox_pass max_retries pub in outbox_passes n' max_retries pub'
  end.
End Processor.

(** ** What a delivery attempt makes of a record *)

Section RecordSpec.
Context {P : Platform}.

(** A failed delivery: one more attempt, and [Failed] once they are used up. *)
Definition failed_once (max_retries : Z) (record : OutboxRecord) : OutboxRecord :=
  if wrap_i 32 max_retries <=? i32_add (ob_attempt_count record) 1 then
    with_status Failed (with_attempt record)
  else with_attempt record.

(** What one pass may make of a record, with the publisher's answer. *)
Definition pass_step {Pub} `{!EventPublisher Pub} (max_retries : Z)
    (record record' : OutboxRecord) : Prop :=
  match ob_status record with
  | Pending => ∃ pub : Pub,
      record' = match (publish record pub).1 with
                | Ok _ => with_status Delivered record
                | Err _ => failed_once max_retries record
                end
  | _ => record' = record
  end.

Definition outbox_ok (g : Inner) : Prop :=
  ∀ id record, outbox g !! id = Some record → ob_outbox_id record = id.
End RecordSpec.

(** * Lemmas *)

Section OutboxLemmas.
Context {P : Platform} {PL : PlatformLaws P} {Pub : Type} `{!EventPublisher Pub}.
Implicit Types (w : World Inner) (record : OutboxRecord) (pub : Pub).

(** The delivery attempt changes the one record, and nothing else of the repository. *)
Lemma publish_one_spec record max w pub :
  outbox (w_repo w) !! ob_outbox_id record = Some record →
  let '(answer, w') := publish_one record max pub w in
  answer.2 = (publish record pub).2
  ∧ w_repo w' = set_outbox
      (<[ob_outbox_id record := match (publish record pub).1 with
                                | Ok _ => with_status Delivered record
                                | Err _ => failed_once max record
                                end]>) (w_repo w)
  ∧ answer.1 = match (publish record pub).1 with
               | Ok _ => Ok tt | Err err => Err (SInternal err) end.
Proof.
  intros Hrec. unfold publish_one, failed_once.
  destruct (publish record pub) as [[[]|err] pub']; run_M; unfold call.
  - simpl. unfold in_memory_mark_outbox_delivered, update_outbox. by rewrite Hrec.
  - simpl. unfold in_memory_increment_outbox_attempt, update_outbox. rewrite Hrec.
    destruct (_ <=? _); run_M; unfold call; [|done]. simpl.
    unfold in_memory_mark_outbox_failed, update_outbox. simpl.
    rewrite lookup_insert_eq. unfold set_outbox. simpl. by rewrite insert_insert_eq.
Qed.

Lemma count_outbox_failure_repo (answer : result unit ServiceError) w :
  w_repo (count_outbox_failure answer w).2 = w_repo w.
Proof. by destruct answer. Qed.

Definition same_ledger (g g' : Inner) : Prop :=
  entries g' = entries g ∧ ordered_by_type g' = ordered_by_type g
  ∧ chain_tips g' = chain_tips g ∧ idempotency_index g' = idempotency_index g.

Lemma publish_all_spec records max w pub :
  NoDup (ob_outbox_id <$> records) →
  (∀ record, record ∈ records →
     outbox (w_repo w) !! ob_outbox_id record = Some record ∧ ob_status record = Pending) →
  let w' := (publish_all records max pub w).2 in
  same_ledger (w_repo w) (w_repo w')
  ∧ (∀ id, id ∉ ob_outbox_id <$> records → outbox (w_repo w') !! id = outbox (w_repo w) !! id)
  ∧ (∀ record, record ∈ records → ∃ record',
       outbox (w_repo w') !! ob_outbox_id record = Some record' ∧ pass_step (Pub:=Pub) max record record').
Proof.
  revert w pub. induction records as [|record records IH]; intros w pub Hnd Hin w'.
  { split; [by repeat split|]. split; [done|]. by intros record ?%elem_of_nil. }
  unfold w'. clear w'. cbn [publish_all]. run_M.
  destruct (Hin record) as [Hrec Hst]; [by left|].
  pose proof (publish_one_spec record max w pub Hrec) as Hone.
  destruct (publish_one record max pub w) as [[answer pub'] w1].
  destruct Hone as (Hp & Hr & Ha). simpl in Hp, Ha. cbn [fst snd].
  set (rec' := match (publish record pub).1 with Ok _ => _ | Err _ => _ end) in Hr.
  pose proof (count_outbox_failure_repo answer w1) as Hr2.
  destruct (count_outbox_failure answer w1) as [[] w2]. cbn [snd] in Hr2.
  cbn [fmap list_fmap] in Hnd. apply NoDup_cons in Hnd as [Hnot Hnd].
  destruct (IH w2 pub' Hnd) as (Hl & Hother & Hdone).
  { intros record0 H0. rewrite Hr2, Hr. simpl.
    destruct (Hin record0) as [H1 H2]; [by right|]. split; [|done].
    rewrite lookup_insert_ne; [done|]. intros Heq. apply Hnot. rewrite Heq.
    by apply list_elem_of_fmap_2. }
  rewrite Hr2, Hr in *. split; [|split].
  - by destruct Hl as (? & ? & ? & ?).
  - intros id [Hne Hid]%not_elem_of_cons. rewrite Hother by done. simpl.
    by rewrite lookup_insert_ne.
  - intros record0 [->|H0]%elem_of_cons; [|by apply Hdone].
    exists rec'. rewrite Hother by done. simpl. rewrite lookup_insert_eq. split; [done|].
    unfold pass_step. rewrite Hst. by exists pub.
Qed.

Lemma pending_records (g : Inner) :
  outbox_ok g →
  let records := filter (λ record, ob_status record = Pending) (hashmap_values (outbox g)) in
  NoDup (ob_outbox_id <$> records)
  ∧ ∀ record, record ∈ records ↔
      outbox g !! ob_outbox_id record = Some record ∧ ob_status record = Pending.
Proof.
  intros Hg records. split.
  - assert (NoDup (ob_outbox_id <$> hashmap_values (outbox g))) as Hnd.
    { rewrite hashmap_values_perm, <- list_fmap_compose.
      assert ((ob_outbox_id ∘ snd) <$> map_to_list (outbox g) = (map_to_list (outbox g)).*1) as ->.
      { apply list_fmap_ext. intros i [id record] Hi%list_elem_of_lookup_2. simpl.
        apply elem_of_map_to_list in Hi. by apply Hg. }
      apply NoDup_fst_map_to_list. }
    eapply sublist_NoDup; [exact Hnd|]. apply fmap_sublist, sublist_filter.
  - intros record. unfold records. rewrite list_elem_of_filter, elem_of_hashmap_values. split.
    + intros [Hs [id Hid]]. rewrite (Hg _ _ Hid). done.
    + intros [Hid Hs]. eauto.
Qed.

Lemma outbox_pass_spec max w pub :
  outbox_ok (w_repo w) →
  let w' := (outbox_pass max pub w).2 in
  same_ledger (w_repo w) (w_repo w') ∧ outbox_ok (w_repo w')
  ∧ (∀ id record, outbox (w_repo w) !! id = Some record →
       ∃ record', outbox (w_repo w') !! id = Some record' ∧ pass_step (Pub:=Pub) max record record')
  ∧ (∀ id, outbox (w_repo w) !! id = None → outbox (w_repo w') !! id = None).
Proof.
  intros Hok w'. unfold w', outbox_pass. clear w'.
  destruct (pending_records (w_repo w) Hok) as [Hnd Hin].
  set (records := filter _ _) in *.
  assert (pending_outbox (w_repo w) = (Ok records, w_repo w)) as Hpend by reflexivity.
  rewrite (bind_call_read _ _ _ _ Hpend). run_M.
  destruct (publish_all_spec records max w pub Hnd) as (Hl & Hother & Hdone).
  { intros record. apply Hin. }
  destruct (publish_all records max pub w) as [pub' w1]. simpl in *.
  assert (∀ id record, outbox (w_repo w) !! id = Some record →
            id ∈ ob_outbox_id <$> records → record ∈ records) as Hback.
  { intros id record Hid (r & -> & Hr)%list_elem_of_fmap.
    apply Hin in Hr as Hr'. destruct Hr' as [Hr' _]. congruence. }
  assert (∀ id record, outbox (w_repo w) !! id = Some record →
       ∃ record', outbox (w_repo w1) !! id = Some record' ∧ pass_step (Pub:=Pub) max record record') as Hstep.
  { intros id record Hid. destruct (decide (id ∈ ob_outbox_id <$> records)) as [Hm|Hm].
    - destruct (Hdone record) as (r' & Hr' & Hp); [by eapply Hback|].
      rewrite (Hok _ _ Hid) in Hr'. eauto.
    - exists record. rewrite Hother by done. split; [done|]. unfold pass_step.
      destruct (ob_status record) eqn:Hs; [|done..]. destruct Hm.
      apply list_elem_of_fmap. exists record. split; [by rewrite (Hok _ _ Hid)|].
      apply Hin. by rewrite (Hok _ _ Hid). }
  assert (∀ id, outbox (w_repo w) !! id = None → outbox (w_repo w1) !! id = None) as Hnone.
  { intros id Hid. rewrite Hother; [done|]. intros (r & -> & Hr)%list_elem_of_fmap.
    apply Hin in Hr as [Hr _]. congruence. }
  split; [done|]. split; [|done]. intros id record' Hid.
  destruct (outbox (w_repo w) !! id) as [record|] eqn:E.
  - destruct (Hstep id record E) as (r' & Hr' & Hp). simplify_eq.
    rewrite <- (Hok _ _ E). unfold pass_step, failed_once in Hp.
    destruct (ob_status record); [|by subst..].
    destruct Hp as [p ->]. by repeat case_match.
  - rewrite Hnone in Hid; done.
Qed.

Lemma same_ledger_trans g1 g2 g3 : same_ledger g1 g2 → same_ledger g2 g3 → same_ledger g1 g3.
Proof. intros (?&?&?&?) (?&?&?&?). repeat split; congruence. Qed.

(** While a record is pending after [k] passes, at least [k] attempts were made. *)
Definition attempts_inv (max k : Z) (g : Inner) : Prop :=
  ∀ id record, outbox g !! id = Some record → ob_status record = Pending →
    k ≤ ob_attempt_count record < i32_max ∧ (0 < k → ob_attempt_count record < max).

Lemma attempts_step max k w pub :
  1 ≤ max ≤ i32_max → 0 ≤ k → outbox_ok (w_repo w) → attempts_inv max k (w_repo w) →
  attempts_inv max (k + 1) (w_repo (outbox_pass max pub w).2).
Proof.
  intros Hmax Hk Hok Hinv id record' Hid' Hst'.
  destruct (outbox_pass_spec max w pub Hok) as (_ & _ & Hstep & Hnone).
  destruct (outbox (w_repo w) !! id) as [record|] eqn:Hid.
  2: { rewrite Hnone in Hid' by done. done. }
  destruct (Hstep id record Hid) as (r' & Hr' & Hp). simplify_eq. unfold pass_step in Hp.
  destruct (ob_status record) eqn:Hst; [|subst; congruence..].
  destruct Hp as [p ->]. destruct (publish record p).1; [done|].
  destruct (Hinv id record Hid Hst) as [Ha Hb].
  unfold failed_once in *. unfold i32_max in *. rewrite wrap_i_small in * by lia.
  rewrite i32_add_small in * by lia.
  destruct (Z.leb_spec max (ob_attempt_count record + 1)); [done|].
  simpl. rewrite i32_add_small by lia. lia.
Qed.

Lemma outbox_passes_inv n max k w pub :
  1 ≤ max ≤ i32_max → 0 ≤ k → outbox_ok (w_repo w) → attempts_inv max k (w_repo w) →
  let w' := (outbox_passes n max pub w).2 in
  attempts_inv max (k + Z.of_nat n) (w_repo w') ∧ same_ledger (w_repo w) (w_repo w')
  ∧ outbox_ok (w_repo w')
  ∧ ∀ id record, outbox (w_repo w) !! id = Some record →
      ∃ record', outbox (w_repo w') !! id = Some record' ∧
        (ob_status record ≠ Pending → record' = record).
Proof.
  intros Hmax. revert k w pub. induction n as [|n IH]; intros k w pub Hk Hok Hinv.
  { cbn [outbox_passes]. rewrite Z.add_0_r. split; [done|]. split; [by repeat split|].
    split; [done|]. intros id record Hid. by exists record. }
  cbn [outbox_passes]. run_M.
  pose proof (attempts_step max k w pub Hmax Hk Hok Hinv) as Hinv'.
  destruct (outbox_pass_spec max w pub Hok) as (Hl & Hok' & Hstep & _).
  destruct (outbox_pass max pub w) as [pub' w1]. simpl in Hinv', Hl, Hok', Hstep.
  destruct (IH (k + 1) w1 pub') as (Ha & Hl' & Hok'' & Hrec); [lia|done..|].
  replace (k + Z.of_nat (S n)) with (k + 1 + Z.of_nat n) by lia.
  split; [done|]. split; [by eapply same_ledger_trans|]. split; [done|].
  intros id record Hid. destruct (Hstep id record Hid) as (r1 & H1 & Hp).
  destruct (Hrec id r1 H1) as (r2 & H2 & Hkeep). exists r2. split; [done|].
  intros Hst. assert (r1 = record) as ->; [|by apply Hkeep].
  unfold pass_step in Hp. by destruct (ob_status record).
Qed.
End OutboxLemmas.

(** * Properties *)

Section OutboxProperties.
Context {P : Platform} {PL : PlatformLaws P}.

(** events are delivered at least once: one round of the processor leaves
    every record that is not pending as it was, and turns each pending one into
    a delivered one only when the publisher accepted it, or else counts the
    attempt and fails the record for good once the attempts are used up; no
    record is lost or created, and the ledger itself is not touched. *)
Theorem outbox_pass_step {Pub} `{!EventPublisher Pub} (max_retries : Z) (w : World Inner)
    (pub : Pub) :
  outbox_ok (w_repo w) →
  let w' := (outbox_pass max_retries pub w).2 in
  inner_ledger (w_repo w') = inner_ledger (w_repo w)
  ∧ (∀ id record, outbox (w_repo w) !! id = Some record →
       ∃ record', outbox (w_repo w') !! id = Some record'
                  ∧ pass_step (Pub:=Pub) max_retries record record')
  ∧ (∀ id, outbox (w_repo w) !! id = None → outbox (w_repo w') !! id = None).
Proof.
  intros Hok w'. destruct (outbox_pass_spec max_retries w pub Hok) as (Hl & _ & Hs & Hn).
  split; [|done]. destruct Hl as (He & Ho & _). unfold inner_ledger.
  unfold w'. by rewrite He, Ho.
Qed.

(** C29: the outbox drains, over the in-memory repository: with a limit of [max]
    attempts, [1 <= max <= 2^31 - 1], after [max] rounds no record that was there
    is still pending, whatever the publisher does; records that were delivered or
    failed stay as they were. *)
Theorem outbox_drains {Pub} `{!EventPublisher Pub} (max_retries : Z) (w : World Inner)
    (pub : Pub) :
  1 ≤ max_retries ≤ i32_max → outbox_ok (w_repo w) →
  (∀ id record, outbox (w_repo w) !! id = Some record → ob_status record = Pending →
     0 ≤ ob_attempt_count record < i32_max) →
  let w' := (outbox_passes (Z.to_nat max_retries) max_retries pub w).2 in
  ∀ id record, outbox (w_repo w) !! id = Some record →
    ∃ record', outbox (w_repo w') !! id = Some record' ∧ ob_status record' ≠ Pending
      ∧ (ob_status record ≠ Pending → record' = record).
Proof.
  intros Hmax Hok Hatt w' id record Hid.
  destruct (outbox_passes_inv (Z.to_nat max_retries) max_retries 0 w pub)
    as (Ha & _ & _ & Hrec); [done|lia|done| |].
  { intros id0 r0 H0 Hs0. specialize (Hatt id0 r0 H0 Hs0). lia. }
  destruct (Hrec id record Hid) as (record' & Hid' & Hkeep).
  exists record'. split; [done|]. split; [|done]. intros Hst.
  destruct (Ha id record' Hid' Hst). lia.
Qed.
End OutboxProperties.

(** A limit of [2^31] attempts is negative as an [i32]: one refusal is enough. *)
Lemma huge_limit_gives_up {P : Platform} (record : OutboxRecord) :
  0 ≤ ob_attempt_count record < i32_max → ob_status (failed_once (2 ^ 31) record) = Failed.
Proof.
  intros Ha. unfold failed_once, i32_add. unfold i32_max in Ha.
  rewrite (wrap_i_small 32 (ob_attempt_count record + 1)) by lia.
  rewrite (proj2 (Z.leb_le _ _)); [done|].
  change (wrap_i 32 (2 ^ 31)) with (- 2 ^ 31). lia.
Qed.

(** A delivery counts only when the endpoint takes it: [publish] succeeds
    exactly when an endpoint is configured, the request (the record's payload,
    with its outbox identifier as the idempotency key and the bearer token if
    any) was answered, and the status is not a client or server error; without an
    endpoint the publisher is disabled and nothing is sent. *)
Theorem http_delivery {P : Platform} {H : HttpClient} (record : OutboxRecord)
    (p : HttpEventPublisher) :
  ((http_publish record p).1 = Ok tt ↔
   ∃ url status n, hp_endpoint p = Some url
     ∧ http_post url (publish_headers record (hp_bearer_token p)) (ob_payload record) (hp_net p)
       = (Ok status, n)
     ∧ (status < 400 ∨ 600 ≤ status))
  ∧ (hp_endpoint p = None →
     publisher_is_enabled p = false ∧ (http_publish record p).2 = p
     ∧ ∃ message, (http_publish record p).1 = Err message).
Proof.
  unfold http_publish. split.
  - destruct (hp_endpoint p) as [url|]; [|naive_solver].
    destruct (http_post _ _ _ _) as [[status|err] n] eqn:Hpost; simpl.
    + destruct (Z.leb_spec 400 status), (Z.ltb_spec status 600); simpl.
      1: { split; [done|]. intros (u & s & m & [= <-] & Hs & Hr).
           rewrite Hpost in Hs. injection Hs as -> ->. lia. }
      all: split; [|done]; intros _; exists url, status, n; (split; [done|]); split; [done|lia].
    + split; [done|]. intros (u & s & m & [= <-] & Hs & Hr). congruence.
  - intros Hn. simpl. rewrite Hn. split; [|by eauto].
    apply bool_decide_false. apply is_Some_None.
Qed.

(** * Witnesses *)

#[local] Existing Instance Toy.platform.
#[local] Existing Instance Toy.laws.

(** A repository with one pending event, from a write that asked for it. *)
Definition demo_outbox : World Inner :=
  world_init (in_memory_write_entry_with_outbox demo_write_input 0 inner_default).2.

Lemma demo_outbox_record (id : Uuid) (record : OutboxRecord) :
  outbox (w_repo demo_outbox) !! id = Some record →
  ob_outbox_id record = id ∧ ob_attempt_count record = 0.
Proof.
  assert (outbox (w_repo demo_outbox)
          = match (in_memory_write_entry_with_outbox demo_write_input 0 inner_default).1.1 with
            | Ok {| wr_outbox := Some r |} => {[uuid_v4 1 := r]}
            | _ => ∅
            end) as -> by by_compute.
  set (res := (in_memory_write_entry_with_outbox _ _ _).1.1). 
  intros Hid. destruct res as [[e [r|]]|] eqn:E; [|by rewrite lookup_empty in Hid..].
  apply lookup_singleton_Some in Hid as [<- <-].
  change res with (in_memory_write_entry_with_outbox demo_write_input 0 inner_default).1.1 in E.
  unfold in_memory_write_entry_with_outbox, in_memory_commit in E. simpl in E.
  by injection E as _ <-.
Qed.

Lemma outbox_pass_step_witness :
  inner_ledger (w_repo (outbox_pass 10 Noop demo_outbox).2) = inner_ledger (w_repo demo_outbox).
Proof.
  apply (outbox_pass_step 10 demo_outbox Noop).
  intros id record Hid. apply (demo_outbox_record id record Hid).
Defined.

Lemma demo_outbox_some : outbox (w_repo demo_outbox) !! uuid_v4 1 ≠ None.
Proof.
  assert (bool_decide (outbox (w_repo demo_outbox) !! uuid_v4 1 = None) = false) as H
    by by_compute.
  by apply bool_decide_eq_false in H.
Qed.

Lemma outbox_drains_witness :
  outbox (w_repo demo_outbox) !! uuid_v4 1 ≠ None ∧
  ∀ id record, outbox (w_repo demo_outbox) !! id = Some record →
    ∃ record', outbox (w_repo (outbox_passes 3 3 Noop demo_outbox).2) !! id = Some record'
      ∧ ob_status record' ≠ Pending ∧ (ob_status record ≠ Pending → record' = record).
Proof.
  split; [exact demo_outbox_some|].
  apply (outbox_drains 3 demo_outbox Noop).
  - unfold i32_max. lia.
  - intros id record Hid. apply (demo_outbox_record id record Hid).
  - intros id record Hid _. destruct (demo_outbox_record id record Hid) as [_ ->].
    unfold i32_max. lia.
Defined.
