(* ===== verification/Verifier.v ===== *)
(** * [src/verifier.rs] and the readiness endpoint of [src/main.rs]

    [verifier_round] is one turn of the background verifier's loop: it checks the
    newest window of every chain, publishes the status that [/readyz] reads and
    sets the integrity gauge.  The shared status is threaded next to the world.
    The fuel is that of [verify_chain], and one more than the longest chain is
    enough.  Log records are left out. *)

From Stdlib Require Import String Strings.Byte ZArith Lia.
From stdpp Require Import base tactics numbers strings list gmap sorting.
From S2P Require Import Prelude Platform Crypto Repository Config World Service LedgerSpec.
From S2P Require Import InMemory Chain Examples ServiceWrite TestRepos ServiceVerify.

Record ChainResult := {
  cr_entry_type : string;
  cr_valid : bool;
  cr_entries_checked : Z;
  cr_failure_reason : string
}.

Section Verifier.
Context {P : Platform} {R Pub : Type} `{!LedgerRepository R, !EventPublisher Pub}.
Context (svc : ImmutableLedgerService Pub).

Record VerificationStatus := {
  vs_all_valid : bool;
  vs_chains_checked : Z;
  vs_last_run : DateTime;
  vs_duration_ms : Z;
  vs_chain_results : list ChainResult
}.

Definition chain_result (entry_type : string) (out : result VerifyChainOutput ServiceError)
    : ChainResult :=
  match out with
  | Ok output => {|
      cr_entry_type := entry_type; cr_valid := vc_chain_valid output;
      cr_entries_checked := vc_entries_checked output;
      cr_failure_reason := vc_failure_reason output |}
  | Err e => {|
      cr_entry_type := entry_type; cr_valid := false; cr_entries_checked := 0;
      cr_failure_reason := service_error_display e |}
  end.

(** The [for entry_type in entry_types] loop. *)
Fixpoint verify_types (fuel : nat) (entry_types : list string) (max_entries : Z)
    : M R (option (list ChainResult)) :=
  match entry_types with
  | [] => ret (Some [])
  | t :: entry_types' =>
      let! out := verify_recent_chain svc fuel t max_entries in
      match out with
      | None => ret None
      | Some out =>
          let! rest := verify_types fuel entry_types' max_entries in
          ret (cons (chain_result t out) <$> rest)
      end
  end.

Definition run_verification (fuel : nat) (max_entries : Z) : M R (option (list ChainResult)) :=
  let! entry_types := service_get_distinct_entry_types in
  match entry_types with
  | Err _ => ret (Some [])
  | Ok entry_types => verify_types fuel entry_types max_entries
  end.

(** [elapsed().as_millis() as u64] *)
Definition elapsed_ms (since now : Z) : Z := wrap_u 64 (elapsed since now / 1000000).

(** One turn of the [loop]: the new status, or [None] when the fuel ran out. *)
Definition verifier_round (fuel : nat) (interval_seconds max_entries : Z)
    : M R (option VerificationStatus) :=
  let! start := instant in
  let! chain_results := run_verification fuel max_entries in
  match chain_results with
  | None => ret None
  | Some chain_results =>
      let all_valid := forallb cr_valid chain_results in
      let! last_run := utc in
      let! now := instant in
      let verification := {|
        vs_all_valid := all_valid;
        vs_chains_checked := Z.of_nat (length chain_results);
        vs_last_run := last_run;
        vs_duration_ms := elapsed_ms start now;
        vs_chain_results := chain_results |} in
      let! _ := metric (set_integrity_valid (if all_valid then 1 else 0)) in
      let! _ := sleep (interval_seconds * 1000) in
      ret (Some verification)
  end.

(** The handler of [/readyz]: can a pooled connection be had, and the last status. *)
Definition readyz (pool_available : bool) (status : option VerificationStatus) : Z * string :=
  if negb pool_available then (503, "database unavailable")
  else
    match status with
    | Some v => if negb (vs_all_valid v) then (503, "chain verification failed") else (200, "ready")
    | None => (200, "ready")
    end.
End Verifier.

(** * Lemmas *)

Section VerifierLemmas.
Context {P : Platform} {PL : PlatformLaws P} {R Pub : Type}.
Context `{!LedgerRepository R, !LedgerStore R, !LedgerStoreLaws R, !EventPublisher Pub}.
Context (svc : ImmutableLedgerService Pub).
Implicit Types (w : World R) (t : string).

(** What the window check of a chain answers. *)
Definition window_answer w t (max_entries : Z) : VerifyChainOutput :=
  let n := Z.of_nat (length (chain (w_ledger w) t)) in
  let lo := window_start n max_entries in
  audit (last_hash (genesis_hash svc) (take (Z.to_nat (lo - 1)) (chain (w_ledger w) t))) 0
    (window (w_ledger w) t lo n).

Lemma window_answer_valid w t max_entries :
  ledger_dense (w_ledger w) →
  let n := Z.of_nat (length (chain (w_ledger w) t)) in
  let before := Z.to_nat (window_start n max_entries - 1) in
  vc_chain_valid (window_answer w t max_entries) = true ↔
  links_ok (last_hash (genesis_hash svc) (take before (chain (w_ledger w) t)))
    (drop before (chain (w_ledger w) t)).
Proof.
  intros HD n before. unfold window_answer. cbv zeta.
  by rewrite audit_valid, (window_drop (w_ledger w) t max_entries HD).
Qed.

Lemma count_failure_repo (out : result VerifyChainOutput ServiceError) w :
  w_repo (count_failure out w) = w_repo w.
Proof. unfold count_failure. by repeat case_match. Qed.

Lemma verify_types_spec fuel ts max_entries w :
  store_ok (w_repo w) → ledger_dense (w_ledger w) → Forall (λ t, store_reads (R := R) t = true) ts →
  (∀ t, (length (chain (w_ledger w) t) < fuel)%nat) → 1 ≤ max_entries ≤ i64_max →
  ∃ w', verify_types svc fuel ts max_entries w
    = (Some (map (λ t, chain_result t (Ok (window_answer w t max_entries))) ts), w')
    ∧ w_repo w' = w_repo w.
Proof.
  revert w. induction ts as [|t ts IH]; intros w Hok HD Hread Hfuel Hmax; [by eexists|].
  apply Forall_cons in Hread as [Ht Hread]. cbn [verify_types]. run_M. rewrite verify_recent_window by done. cbv beta iota zeta.
  set (out := Ok (audit _ _ _)).
  destruct (IH (count_failure out w)) as (w' & -> & Hr);
    unfold w_ledger; rewrite ?count_failure_repo; try done.
  exists w'. cbv beta iota. split; [|by rewrite Hr, count_failure_repo].
  unfold window_answer, w_ledger. by rewrite count_failure_repo.
Qed.

Lemma verifier_round_spec fuel interval max_entries w :
  store_ok (w_repo w) → ledger_dense (w_ledger w) →
  (∀ t, (length (chain (w_ledger w) t) < fuel)%nat) → 1 ≤ max_entries ≤ i64_max →
  ∃ ts status w', verifier_round svc fuel interval max_entries w = (Some status, w')
    ∧ w_repo w' = w_repo w
    ∧ (∀ t, t ∈ ts ↔ chain (w_ledger w) t ≠ []) ∧ NoDup ts
    ∧ vs_chain_results status
      = map (λ t, chain_result t (Ok (window_answer w t max_entries))) ts
    ∧ vs_all_valid status = forallb cr_valid (vs_chain_results status)
    ∧ vs_chains_checked status = Z.of_nat (length ts)
    ∧ CHAIN_INTEGRITY_VALID (w_metrics w') = (if vs_all_valid status then 1 else 0).
Proof.
  intros Hok HD Hfuel Hmax. destruct (get_distinct_entry_types_law _ Hok) as (ts & Hts & Hnd & Hin).
  unfold verifier_round, run_verification, service_get_distinct_entry_types. run_M. unfold call.
  cbn [w_repo tick]. rewrite Hts. cbn [map_err]. cbv beta iota.
  destruct (verify_types_spec fuel ts max_entries (set_repo (w_repo w) (tick w)))
    as (w' & -> & Hr); [done|done| |done|done|].
  { apply Forall_forall. intros t Ht%Hin. by apply (chain_ne_reads w t Hok). }
  cbv beta iota. eexists ts, _, _. split; [reflexivity|]. simpl. split; [done|]. split; [done|].
  split; [done|]. split; [done|]. split; [done|].
  split; [by rewrite length_map|done].
Qed.
End VerifierLemmas.

(** * Properties *)

Section VerifierProperties.
Context {P : Platform} {PL : PlatformLaws P} {R Pub : Type}.
Context `{!LedgerRepository R, !LedgerStore R, !LedgerStoreLaws R, !EventPublisher Pub}.
Context (svc : ImmutableLedgerService Pub).

(** C32: the background verifier is exact: a round over a readable repository with
    dense chains always produces a status, with exactly one result for each chain
    that has entries; it is all-valid exactly when the newest window of every chain
    is correctly hashed and linked, the gauge is 1 or 0 accordingly, and
    [/readyz] answers 200 with a pooled connection exactly then. *)
Theorem verifier_round_exact (fuel : nat) (w : World R) (interval max_entries : Z) :
  store_ok (w_repo w) → ledger_dense (w_ledger w) →
  (∀ t, (length (chain (w_ledger w) t) < fuel)%nat) → 1 ≤ max_entries ≤ i64_max →
  ∃ status w', verifier_round svc fuel interval max_entries w = (Some status, w')
    ∧ NoDup (cr_entry_type <$> vs_chain_results status)
    ∧ (∀ t, chain (w_ledger w) t ≠ [] ↔ t ∈ cr_entry_type <$> vs_chain_results status)
    ∧ (vs_all_valid status = true ↔
       ∀ t, let n := Z.of_nat (length (chain (w_ledger w) t)) in
            let before := Z.to_nat (window_start n max_entries - 1) in
            links_ok (last_hash (genesis_hash svc) (take before (chain (w_ledger w) t)))
              (drop before (chain (w_ledger w) t)))
    ∧ CHAIN_INTEGRITY_VALID (w_metrics w') = (if vs_all_valid status then 1 else 0)
    ∧ ((readyz true (Some status)).1 = 200 ↔ vs_all_valid status = true).
Proof.
  intros Hok HD Hfuel Hmax.
  destruct (verifier_round_spec svc fuel interval max_entries w Hok HD Hfuel Hmax)
    as (ts & status & w' & Hrun & _ & Hin & Hnd & Hres & Hall & _ & Hg).
  assert (cr_entry_type <$> vs_chain_results status = ts) as Hts.
  { rewrite Hres, <- list_fmap_compose. unfold compose. simpl. by rewrite list_fmap_id. }
  exists status, w'. split; [done|]. rewrite Hts. split; [done|].
  split; [|split; [|split; [done|]]].
  - intros t. by rewrite Hin.
  - rewrite Hall, Hres, forallb_forall. split.
    + intros Hv t n before. destruct (decide (chain (w_ledger w) t = [])) as [Hnil|Hne].
      { by rewrite Hnil, drop_nil. }
      apply (window_answer_valid svc w t max_entries HD).
      apply (Hv (chain_result t (Ok (window_answer svc w t max_entries)))).
      apply in_map_iff. exists t. split; [done|]. by apply list_elem_of_In, Hin.
    + intros Hv r (t & <- & _)%in_map_iff. specialize (Hv t).
      by apply (window_answer_valid svc w t max_entries HD) in Hv.
  - unfold readyz. simpl. by destruct (vs_all_valid status).
Qed.
End VerifierProperties.

(** The verifier fails open: when the list of entry types cannot be read, the
    round reports "all valid" over no chains, sets the gauge to 1 and leaves
    [/readyz] at 200, although nothing was verified. *)
Theorem verifier_fails_open {P : Platform} {Pub} `{!EventPublisher Pub}
    (svc : ImmutableLedgerService Pub) (fuel : nat) (w : World FailingRepo)
    (interval max_entries : Z) :
  ∃ status w', verifier_round svc fuel interval max_entries w = (Some status, w')
    ∧ vs_all_valid status = true ∧ vs_chains_checked status = 0
    ∧ CHAIN_INTEGRITY_VALID (w_metrics w') = 1
    ∧ readyz true (Some status) = (200, "ready").
Proof.
  unfold verifier_round, run_verification, service_get_distinct_entry_types. run_M.
  unfold call. cbn. eexists _, _. split; [reflexivity|]. done.
Qed.

(** * Witnesses *)

#[local] Existing Instance Toy.platform.
#[local] Existing Instance Toy.laws.

Lemma verifier_round_exact_witness :
  ∃ status w', verifier_round demo_service 3 300 10000 demo_one = (Some status, w')
    ∧ CHAIN_INTEGRITY_VALID (w_metrics w') = (if vs_all_valid status then 1 else 0).
Proof.
  destruct (verifier_round_exact demo_service 3 demo_one 300 10000) as (status & w' & H1 & _ & _ & _ & H2 & _).
  - apply demo_one_ok.
  - apply (store_dense (R:=Inner)), (si_wf _ _ demo_one_inv).
  - intros t. destruct (decide (t = "t")) as [->|Hne].
    + rewrite demo_chain. simpl. lia.
    + rewrite demo_other_chain by done. simpl. lia.
  - unfold i64_max. lia.
  - exists status, w'. split; [exact H1|exact H2].
Defined.
