(* ===== verification/OnlineVerify.v ===== *)
(** * Verification while the ledger grows

    The background verifier of [src/verifier.rs] and the [VerifyChain] call read a
    chain page by page, and nothing stops writes between two pages.  [Growing]
    wraps a repository so that every call finds it in the next of a sequence of
    states: what the methods of [src/service/mod.rs] compute over it is what they
    compute next to any writers.  When every state is an honest ledger that
    extends the one before, no method raises an alarm. *)

From Stdlib Require Import String Strings.Byte ZArith Lia.
From stdpp Require Import base tactics numbers strings list gmap sorting.
From S2P Require Import Prelude Platform Crypto Repository Config World Service LedgerSpec.
From S2P Require Import InMemory Chain Examples ServiceWrite TestRepos ServiceVerify Verifier.

Section Growing.
Context {P : Platform} {R : Type} `{!LedgerRepository R}.

(** The state of the repository at the last call, and at the next ones. *)
Record Growing := { gr_now : R; gr_later : list R }.

Definition gr_turn (g : Growing) : Growing :=
  match gr_later g with
  | [] => g
  | r :: later => {| gr_now := r; gr_later := later |}
  end.

Definition gr_call {A : Type} (f : R → A * R) (g : Growing) : A * Growing :=
  let g' := gr_turn g in
  let '(a, r) := f (gr_now g') in (a, {| gr_now := r; gr_later := gr_later g' |}).

#[global] Instance growing_repository : LedgerRepository Growing := {|
  write_entry_with_outbox input n g :=
    let g' := gr_turn g in
    let '(res, n', r) := write_entry_with_outbox input n (gr_now g') in
    (res, n', {| gr_now := r; gr_later := gr_later g' |});
  get_entry id := gr_call (get_entry id);
  query_entries query := gr_call (query_entries query);
  get_chain_tip t := gr_call (get_chain_tip t);
  get_entries_by_type_paged t after limit := gr_call (get_entries_by_type_paged t after limit);
  find_idempotent t key := gr_call (find_idempotent t key);
  get_entry_by_hash t h := gr_call (get_entry_by_hash t h);
  pending_outbox := gr_call pending_outbox;
  mark_outbox_delivered id := gr_call (mark_outbox_delivered id);
  increment_outbox_attempt id := gr_call (increment_outbox_attempt id);
  mark_outbox_failed id := gr_call (mark_outbox_failed id);
  get_distinct_entry_types := gr_call get_distinct_entry_types
|}.
End Growing.
Arguments Growing R : clear implicits.

Section Honest.
Context {P : Platform} {R Pub : Type} `{!LedgerStore R}.
Context (svc : ImmutableLedgerService Pub).

Definition snapshots (g : Growing R) : list R := gr_now g :: gr_later g.

Definition gr_first (g : Growing R) : Ledger := ledger_of (gr_now g).
Definition gr_last (g : Growing R) : Ledger := ledger_of (foldl (λ _ r, r) (gr_now g) (gr_later g)).

(** Every state keeps the contract and verifies, and extends the ones before. *)
Record honest_growth (g : Growing R) : Prop := {
  hg_states : Forall (λ r, store_ok r ∧ ledger_dense (ledger_of r)
                           ∧ ledger_valid (genesis_hash svc) (ledger_of r)) (snapshots g);
  hg_grows : StronglySorted (λ r r', ledger_extends (ledger_of r) (ledger_of r')) (snapshots g)
}.
End Honest.

(** * Lemmas *)

Section GrowingLemmas.
Context {P : Platform} {PL : PlatformLaws P} {R Pub : Type}.
Context `{!LedgerRepository R, !LedgerStore R, !LedgerStoreLaws R}.
Context (svc : ImmutableLedgerService Pub).
Implicit Types (g : Growing R) (w : World (Growing R)) (t : string).

Lemma hg_now g : honest_growth svc g →
  store_ok (gr_now g) ∧ ledger_dense (gr_first g) ∧ ledger_valid (genesis_hash svc) (gr_first g).
Proof. intros [Hs _]. by apply Forall_inv in Hs. Qed.

Lemma gr_turn_honest g : honest_growth svc g →
  honest_growth svc (gr_turn g) ∧ ledger_extends (gr_first g) (gr_first (gr_turn g))
  ∧ gr_last (gr_turn g) = gr_last g.
Proof.
  intros Hg. unfold gr_turn. destruct g as [r [|r' later]]; simpl;
    [split; [done|split; [auto with ledger|done]]|].
  destruct Hg as [Hs Hgr]. unfold snapshots in *. simpl in *.
  apply Forall_inv_tail in Hs. apply StronglySorted_inv in Hgr as [Hgr Hall].
  split; [by split|]. split; [exact (Forall_inv Hall)|done].
Qed.

Lemma gr_first_last g : honest_growth svc g → ledger_extends (gr_first g) (gr_last g).
Proof.
  destruct g as [r later]. revert r. induction later as [|r' later IH]; intros r Hg;
    [auto with ledger|].
  destruct (gr_turn_honest _ Hg) as (Hg' & Hext & Hl). rewrite <- Hl. etrans; [exact Hext|].
  by apply IH.
Qed.

Lemma gr_last_bound g t : honest_growth svc g →
  Z.of_nat (length (chain (gr_last g) t)) ≤ i64_max.
Proof.
  destruct g as [r later]. revert r. induction later as [|r' later IH]; intros r Hg.
  - apply chain_length_bound, store_shape. by apply hg_now in Hg as [? _].
  - destruct (gr_turn_honest _ Hg) as (Hg' & _ & Hl). rewrite <- Hl. by apply IH.
Qed.

(** The world after one more call. *)
Definition later w : World (Growing R) := set_repo (gr_turn (w_repo w)) w.

(** [w'] is [w] some calls later. *)
Record passed w w' : Prop := {
  pa_honest : honest_growth svc (w_repo w');
  pa_extends : ledger_extends (gr_first (w_repo w)) (gr_first (w_repo w'));
  pa_last : gr_last (w_repo w') = gr_last (w_repo w);
  pa_metrics : w_metrics w' = w_metrics w
}.

Lemma passed_refl w : honest_growth svc (w_repo w) → passed w w.
Proof. intros. split; auto with ledger. Qed.

Lemma passed_later w w' : passed w w' → passed w (later w').
Proof.
  intros [Hh He Hl Hm]. destruct (gr_turn_honest _ Hh) as (Hh' & He' & Hl').
  split; simpl; [done|by etrans|congruence|done].
Qed.

Lemma passed_trans w1 w2 w3 : passed w1 w2 → passed w2 w3 → passed w1 w3.
Proof.
  intros [_ He Hl Hm] [Hh He' Hl' Hm']. split; [done|by etrans|congruence|congruence].
Qed.

(** A read answers from the next state. *)
Lemma bind_gr_read {A B} (f' : Growing R → A * Growing R) (f : R → A * R)
    (k : A → M (Growing R) B) w (a : A) :
  f' = gr_call f → f (gr_now (gr_turn (w_repo w))) = (a, gr_now (gr_turn (w_repo w))) →
  mbind_M (call f') k w = k a (later w).
Proof.
  intros -> Hf. unfold mbind_M, call, gr_call, later. rewrite Hf. by destruct (gr_turn (w_repo w)).
Qed.

(** The reads of the verification methods. *)
Lemma gr_page {B} (k : _ → M (Growing R) B) w t after limit :
  honest_growth svc (w_repo w) → 1 ≤ limit ≤ i64_max →
  mbind_M (call (get_entries_by_type_paged t after limit)) k w
  = k (asked (store_reads (R := R) t)
         (Ok (spec_paged (gr_first (gr_turn (w_repo w))) t after limit))) (later w).
Proof.
  intros Hg Hl. apply (bind_gr_read _ (get_entries_by_type_paged t after limit)); [done|].
  apply get_entries_by_type_paged_law; [|done]. by apply hg_now, gr_turn_honest.
Qed.

Lemma gr_entry {B} (k : _ → M (Growing R) B) w id :
  honest_growth svc (w_repo w) →
  mbind_M (call (get_entry id)) k w
  = k (ok_or (spec_find (gr_first (gr_turn (w_repo w))) id) NotFound) (later w).
Proof.
  intros Hg. apply (bind_gr_read _ (get_entry id)); [done|].
  apply get_entry_law. by apply hg_now, gr_turn_honest.
Qed.

(** *** The batched walk *)

Lemma verify_batch_goes_on hi batch c c' :
  verify_batch hi batch c = inr c' →
  cu_prev_hash c' = last_hash (cu_prev_hash c) batch
  ∧ ∀ e, e ∈ batch → le_chain_position e ≤ hi.
Proof.
  revert c. induction batch as [|e batch IH]; intros c.
  { intros [= <-]. split; [done|]. by intros e ?%elem_of_nil. }
  rewrite verify_batch_step. destruct (Z.ltb_spec hi (le_chain_position e)); [done|].
  destruct (entry_fault _ e); [done|]. intros Hb. apply IH in Hb as [Hb Hall]. split.
  - rewrite Hb. unfold last_hash. simpl. rewrite last_cons. by destruct (last batch).
  - intros e' [->|He']%elem_of_cons; [done|by apply Hall].
Qed.

Lemma last_hash_app prev (l1 l2 : list LedgerEntryRecord) :
  last_hash prev (l1 ++ l2) = last_hash (last_hash prev l1) l2.
Proof. unfold last_hash. rewrite last_app. by destruct (last l2). Qed.

Lemma upto_dense (L : Ledger) t (a : nat) (hi : Z) :
  ledger_dense L → Z.of_nat a ≤ hi →
  upto hi (drop a (chain L t)) = take (Z.to_nat (hi - Z.of_nat a)) (drop a (chain L t)).
Proof.
  intros HD Ha. unfold upto.
  rewrite <- (take_drop (Z.to_nat (hi - Z.of_nat a)) (drop a (chain L t))) at 1.
  rewrite filter_app, filter_all, filter_none, app_nil_r; [done|..];
    apply Forall_lookup; intros i e.
  - rewrite !lookup_drop. intros He%HD. lia.
  - intros [He Hi]%lookup_take_Some. rewrite lookup_drop in He. apply HD in He. lia.
Qed.

(** From a cursor at position [a], the walk stops at [hi] or at the end of the
    chain as it is by then. *)
Lemma verify_loop_growing fuel w t hi (a : nat) (k : Z) :
  honest_growth svc (w_repo w) → store_reads (R := R) t = true →
  (a ≤ length (chain (gr_first (w_repo w)) t))%nat → Z.of_nat a ≤ hi → 0 ≤ k ≤ Z.of_nat a →
  (length (chain (gr_last (w_repo w)) t) - a < fuel)%nat →
  ∃ w' n, verify_loop fuel t hi
      {| cu_prev_hash := last_hash (genesis_hash svc) (take a (chain (gr_first (w_repo w)) t));
         cu_after_position := Z.of_nat a; cu_entries_checked := k |} w
    = (Some (Ok (chain_ok (k + Z.min hi (Z.of_nat n) - Z.of_nat a))), w')
    ∧ passed w w'
    ∧ (length (chain (gr_first (w_repo w)) t) ≤ n ≤ length (chain (gr_last (w_repo w)) t))%nat.
Proof.
  revert w a k. induction fuel as [|fuel IH]; intros w a k Hg Hread Ha Hhi Hk Hfuel; [lia|].
  destruct (gr_turn_honest _ Hg) as (Hg' & Hext & Hlast).
  destruct (hg_now _ Hg') as (Hok & HD & Hv).
  pose proof (passed_later w w (passed_refl w Hg)) as Hp.
  pose proof (Hext t) as Hpre. pose proof (gr_first_last _ Hg' t) as Hpre'. rewrite Hlast in Hpre'.
  apply prefix_length in Hpre as Hlen. apply prefix_length in Hpre' as Hlen'.
  set (C := chain (gr_first (gr_turn (w_repo w))) t) in *.
  assert (take a (chain (gr_first (w_repo w)) t) = take a C) as ->.
  { destruct Hpre as [l ->]. by rewrite take_app_le. }
  pose proof (chain_length_bound _ t (store_shape _ Hok)) as Hmax. fold (gr_first (gr_turn (w_repo w))) in Hmax.
  fold C in Hmax.
  cbn [verify_loop]. set (c := {| cu_prev_hash := _ |}).
  rewrite (gr_page _ w), Hread by (done || (unfold BATCH_SIZE, i64_max; lia)).
  cbn [asked map_err]. unfold spec_paged. fold (gr_first (gr_turn (w_repo w))).
  change (cu_after_position c) with (Z.of_nat a). rewrite dense_after, Nat2Z.id by (done || lia).
  fold C. change (Z.to_nat BATCH_SIZE) with 50%nat.
  set (rest := drop a C).
  assert (length rest = length C - a)%nat as Hrest by (unfold rest; by rewrite length_drop).
  destruct (is_nil (take 50 rest)) eqn:Hnil.
  { apply is_nil_true in Hnil. apply (f_equal length) in Hnil. rewrite length_take, Hrest in Hnil.
    cbn [length] in Hnil. exists (later w), a. split; [|split; [done|lia]].
    cbn [cu_entries_checked c]. run_M. do 4 f_equal. lia. }
  assert (StronglySorted position_lt (take 50 rest ++ drop 50 rest)) as Hs.
  { rewrite take_drop. unfold rest. rewrite <- (Nat2Z.id a). unfold C.
    rewrite <- dense_after by (done || lia). apply StronglySorted_filter, (shape_sorted _ (store_shape _ Hok)). }
  assert (links_ok (cu_prev_hash c) rest) as Hlinks.
  { specialize (Hv t). fold C in Hv. rewrite <- (take_drop a C), links_ok_app in Hv. apply Hv. }
  assert (upto hi rest = take (Z.to_nat (hi - Z.of_nat a)) rest) as Hupto
    by exact (upto_dense _ t a hi HD Hhi).
  pose proof (verify_batch_audit hi (take 50 rest) c (drop 50 rest) Hs) as HA.
  rewrite take_drop, Hupto, audit_ok in HA.
  2: { rewrite <- (take_drop (Z.to_nat (hi - Z.of_nat a)) rest), links_ok_app in Hlinks.
       apply Hlinks. }
  rewrite length_take, Hrest in HA. cbn [cu_entries_checked c] in HA.
  specialize (HA ltac:(lia)). rewrite length_take, Hrest in HA. specialize (HA ltac:(lia)).
  destruct (verify_batch hi (take 50 rest) c) as [out|c'] eqn:Hb.
  - cbv zeta in HA. exists (later w), (length C). subst out.
    split; [|split; [done|lia]]. run_M. do 4 f_equal. lia.
  - destruct HA as (_ & Hcnt & Hafter). apply verify_batch_goes_on in Hb as [Hprev Hall].
    destruct (last (take 50 rest)) as [e|] eqn:Hl.
    2: { apply last_None in Hl. by rewrite Hl in Hnil. }
    pose proof (Hall e (last_Some_elem_of _ _ Hl)) as Hehi.
    rewrite last_lookup, length_take, Hrest in Hl. apply lookup_take_Some in Hl as [Hl _].
    unfold rest in Hl. rewrite lookup_drop in Hl. apply lookup_lt_Some in Hl as Hlt.
    apply HD in Hl. rewrite length_take, Hrest.
    destruct (Z.ltb_spec (Z.of_nat (50 `min` (length C - a))) BATCH_SIZE) as [Hlast50|H50];
      unfold BATCH_SIZE in *.
    + exists (later w), (length C). split; [|split; [done|lia]]. run_M. do 4 f_equal. lia.
    + destruct (IH (later w) (a + 50)%nat (k + 50)) as (w' & n & Hw & Hp' & Hn);
        [done|done|simpl; fold C; lia|lia|lia|simpl; rewrite Hlast; lia|].
      exists w', n. simpl in Hn. fold C in Hn. rewrite Hlast in Hn. split; [|split; [|lia]].
      * replace (k + Z.min hi (Z.of_nat n) - Z.of_nat a)
          with (k + 50 + Z.min hi (Z.of_nat n) - Z.of_nat (a + 50)) by lia.
        rewrite <- Hw. f_equal. destruct c' as [prev after checked].
        cbn [cu_prev_hash cu_after_position cu_entries_checked] in *.
        change (chain (gr_first (w_repo (later w))) t) with C. rewrite Hprev, Hafter, Hcnt, Hl. f_equal; [|lia|lia].
        change (cu_prev_hash c) with (last_hash (genesis_hash svc) (take a C)).
        unfold rest. rewrite <- last_hash_app. by rewrite take_take_drop.
      * by eapply passed_trans.
Qed.

Lemma passed_length w w' t : passed w w' →
  (length (chain (gr_first (w_repo w)) t) ≤ length (chain (gr_first (w_repo w')) t)
   ≤ length (chain (gr_last (w_repo w)) t))%nat.
Proof.
  intros [Hh He Hl _]. pose proof (prefix_length _ _ (He t)).
  pose proof (prefix_length _ _ (gr_first_last _ Hh t)) as Hlen.
  rewrite Hl in Hlen. lia.
Qed.

(** The whole chain. *)
Lemma verify_chain_growing fuel w t :
  honest_growth svc (w_repo w) → store_reads (R := R) t = true → (length (chain (gr_last (w_repo w)) t) < fuel)%nat →
  ∃ w' n, verify_chain svc fuel t None None w = (Some (Ok (chain_ok (Z.of_nat n))), w')
    ∧ passed w w'
    ∧ (length (chain (gr_first (w_repo w)) t) ≤ n ≤ length (chain (gr_last (w_repo w)) t))%nat.
Proof.
  intros Hg Hread Hfuel.
  pose proof (passed_length w (later w) t (passed_later _ _ (passed_refl _ Hg))).
  pose proof (gr_last_bound _ t Hg) as Hmax.
  destruct (verify_loop_growing fuel w t i64_max 0 0 Hg Hread) as (w' & n & Hw & Hp & Hn);
    [lia|unfold i64_max; lia|lia|lia|].
  exists w', n. split; [|done]. unfold verify_chain. run_M. cbn [bound_position]. unfold ret.
  change (i64_max <? 1) with false. cbv iota. unfold start_hash. simpl.
  replace (Z.of_nat n) with (0 + Z.min i64_max (Z.of_nat n) - Z.of_nat 0) by lia. exact Hw.
Qed.

(** A chain the repository cannot be asked for. *)
Lemma verify_chain_growing_unreadable fuel w t :
  honest_growth svc (w_repo w) → store_reads (R := R) t = false → (0 < fuel)%nat →
  verify_chain svc fuel t None None w = (Some (Err SUnavailable), later w).
Proof.
  intros Hg Hread Hfuel. unfold verify_chain. run_M. cbn [bound_position]. unfold ret.
  change (i64_max <? 1) with false. cbv iota. unfold start_hash. simpl.
  destruct fuel as [|fuel]; [lia|]. cbn [verify_loop].
  by rewrite (gr_page _ w), Hread by (done || (unfold BATCH_SIZE, i64_max; lia)).
Qed.

Lemma gr_types_read g t : honest_growth svc g → chain (gr_first g) t ≠ [] →
  store_reads (R := R) t = true.
Proof.
  intros Hg Hne. destruct (chain (gr_first g) t) as [|e l] eqn:He; [done|].
  destruct (hg_now _ Hg) as (Hok & _). apply (store_reads_types _ t e Hok).
  unfold gr_first in He. rewrite He. by left.
Qed.

(** *** A range whose bounds are stored *)

Definition bound_is w t (id : option Uuid) (if_absent pos : Z) : Prop :=
  match id with
  | None => pos = if_absent
  | Some id => ∃ e, e ∈ chain (gr_first (w_repo w)) t ∧ le_entry_id e = id
                    ∧ pos = le_chain_position e
  end.

Lemma bound_is_later w w' t id if_absent pos :
  passed w w' → bound_is w t id if_absent pos → bound_is w' t id if_absent pos.
Proof.
  intros Hp. destruct id as [id|]; [|done]. intros (e & He & Hid). exists e. split; [|done].
  destruct (pa_extends _ _ Hp t) as [l ->]. apply elem_of_app. by left.
Qed.

Lemma bound_position_growing w t id if_absent pos message :
  honest_growth svc (w_repo w) → bound_is w t id if_absent pos →
  ∃ w', bound_position t id if_absent message w = (Ok pos, w') ∧ passed w w'.
Proof.
  intros Hg Hb. pose proof (passed_later w w (passed_refl w Hg)) as Hp.
  destruct id as [id|]; [|rewrite Hb; by exists w; split; [|apply passed_refl]].
  apply (bound_is_later _ _ _ _ _ _ Hp) in Hb as (e & He & <- & ->). simpl in He.
  destruct (hg_now _ (pa_honest _ _ Hp)) as (Hok & _). simpl in Hok.
  pose proof (store_shape _ Hok) as HL.
  exists (later w). split; [|done]. unfold bound_position. rewrite gr_entry by done.
  rewrite (spec_find_elem (gr_first (gr_turn (w_repo w))) t e HL He). simpl.
  by rewrite (shape_typed _ HL t e He), String.eqb_refl.
Qed.

Lemma start_hash_growing w t lo :
  honest_growth svc (w_repo w) → 1 ≤ lo ≤ Z.of_nat (length (chain (gr_first (w_repo w)) t)) →
  ∃ w', start_hash svc t lo w
      = (Ok (inr (last_hash (genesis_hash svc)
                    (take (Z.to_nat (lo - 1)) (chain (gr_first (w_repo w')) t)))), w')
    ∧ passed w w'.
Proof.
  intros Hg Hlo.
  assert (store_reads (R := R) t = true) as Hread.
  { apply (gr_types_read (w_repo w)); [done|]. intros Hn. rewrite Hn in Hlo. simpl in Hlo. lia. }
  unfold start_hash. destruct (Z.eqb_spec lo 1) as [->|H1].
  { exists w. split; [done|by apply passed_refl]. }
  pose proof (passed_later w w (passed_refl w Hg)) as Hp. exists (later w). split; [|done].
  pose proof (passed_length _ _ t Hp) as Hlen. simpl in Hlen.
  pose proof (gr_last_bound _ t Hg) as Hmax.
  destruct (hg_now _ (pa_honest _ _ Hp)) as (Hok & HD & _). simpl in Hok, HD.
  rewrite (gr_page _ w), Hread by (done || (unfold i64_max; lia)). cbn [asked map_err].
  rewrite i64_sub_small by (unfold i64_ok, i64_min; lia).
  pose proof (dense_start_hash svc _ t HD lo ltac:(lia)) as Hs. unfold spec_start_hash in Hs.
  rewrite (proj2 (Z.eqb_neq lo 1) H1) in Hs. unfold spec_paged. rewrite take_1_head.
  destruct (head _) as [e|]; [|done]. simpl in Hs. injection Hs as Hs. by rewrite Hs.
Qed.

Lemma verify_range_growing fuel w t lo_id hi_id lo hi :
  honest_growth svc (w_repo w) → (length (chain (gr_last (w_repo w)) t) < fuel)%nat →
  bound_is w t lo_id 1 lo → bound_is w t hi_id i64_max hi →
  1 ≤ lo → lo ≤ hi → hi ≤ Z.of_nat (length (chain (gr_first (w_repo w)) t)) →
  ∃ w', verify_chain svc fuel t lo_id hi_id w = (Some (Ok (chain_ok (hi - lo + 1))), w')
    ∧ passed w w'.
Proof.
  intros Hg Hfuel Blo Bhi H1 H2 H3. unfold verify_chain. run_M.
  destruct (bound_position_growing w t lo_id 1 lo
    "start_entry_id does not belong to entry_type" Hg Blo) as (w1 & -> & P1).
  destruct (bound_position_growing w1 t hi_id i64_max hi
    "end_entry_id does not belong to entry_type" (pa_honest _ _ P1)
    (bound_is_later _ _ _ _ _ _ P1 Bhi)) as (w2 & -> & P2).
  rewrite (proj2 (Z.ltb_ge hi lo)) by lia.
  pose proof (passed_trans _ _ _ P1 P2) as P2'. pose proof (passed_length _ _ t P2') as L2.
  destruct (start_hash_growing w2 t lo (pa_honest _ _ P2)) as (w3 & -> & P3); [lia|].
  pose proof (passed_trans _ _ _ P2' P3) as P3'. pose proof (passed_length _ _ t P3') as L3.
  pose proof (gr_last_bound _ t Hg) as Hmax.
  assert (store_reads (R := R) t = true) as Hread.
  { apply (gr_types_read (w_repo w)); [done|]. intros Hn. rewrite Hn in H3. simpl in H3. lia. }
  destruct (verify_loop_growing fuel w3 t hi (Z.to_nat (lo - 1)) 0 (pa_honest _ _ P3) Hread)
    as (w' & n & Hw & Hp & Hn); [lia|lia|lia|rewrite (pa_last _ _ P3'); lia|].
  exists w'. split; [|by eapply passed_trans].
  rewrite i64_sub_small by (unfold i64_ok, i64_min, i64_max in *; lia).
  replace (hi - lo + 1) with (0 + Z.min hi (Z.of_nat n) - Z.of_nat (Z.to_nat (lo - 1))) by lia.
  rewrite <- Hw. do 2 f_equal. lia.
Qed.

Lemma elem_bound_is w t e (i : nat) if_absent :
  honest_growth svc (w_repo w) → chain (gr_first (w_repo w)) t !! i = Some e →
  bound_is w t (Some (le_entry_id e)) if_absent (Z.of_nat i + 1).
Proof.
  intros Hg Hi. destruct (hg_now _ Hg) as (_ & HD & _). exists e.
  split; [by eapply list_elem_of_lookup_2|]. split; [done|]. by rewrite (HD t i e Hi).
Qed.

(** The first entry of the window, unless the window is the whole chain. *)
Definition window_head t (start_position : Z)
    : M (Growing R) (result (option Uuid) ServiceError) :=
  if start_position =? 1 then ret (Ok None)
  else
    let! res := call (get_entries_by_type_paged t (i64_sub start_position 1) 1) in
    ret (match map_err map_repo res with
         | Err e => Err e
         | Ok l => Ok (le_entry_id <$> head l)
         end).

Lemma window_head_growing w t lo :
  honest_growth svc (w_repo w) → 1 ≤ lo ≤ Z.of_nat (length (chain (gr_first (w_repo w)) t)) →
  ∃ w' id, window_head t lo w = (Ok id, w') ∧ passed w w' ∧ bound_is w' t id 1 lo
    ∧ (1 <? lo) && bool_decide (id = None) = false.
Proof.
  intros Hg Hlo.
  assert (store_reads (R := R) t = true) as Hread.
  { apply (gr_types_read (w_repo w)); [done|]. intros Hn. rewrite Hn in Hlo. simpl in Hlo. lia. }
  unfold window_head. destruct (Z.eqb_spec lo 1) as [->|H1].
  { exists w, None. split; [done|]. split; [by apply passed_refl|done]. }
  pose proof (passed_later w w (passed_refl w Hg)) as Hp.
  pose proof (passed_length _ _ t Hp) as Hlen. pose proof (gr_last_bound _ t Hg) as Hmax.
  destruct (hg_now _ (pa_honest _ _ Hp)) as (_ & HD & _). simpl in HD, Hlen.
  rewrite (gr_page _ w), Hread by (done || (unfold i64_max; lia)). cbn [asked map_err].
  rewrite i64_sub_small by (unfold i64_ok, i64_min; lia).
  unfold spec_paged. rewrite take_1_head, dense_after, head_lookup, lookup_drop, Nat.add_0_r
    by (done || lia).
  destruct (lookup_lt_is_Some_2 (chain (gr_first (gr_turn (w_repo w))) t) (Z.to_nat (lo - 1)))
    as [e He]; [lia|].
  rewrite He. exists (later w), (Some (le_entry_id e)). split; [done|]. split; [done|].
  split; [|by rewrite bool_decide_false, andb_false_r].
  pose proof (elem_bound_is (later w) t e _ 1 (pa_honest _ _ Hp) He) as Hb.
  by replace (Z.of_nat (Z.to_nat (lo - 1)) + 1) with lo in Hb by lia.
Qed.

(** The window of a chain that had entries when its tip was read; the whole chain,
    whatever it has become, when it had none. *)
Lemma verify_recent_growing fuel w t max_entries :
  honest_growth svc (w_repo w) → store_reads (R := R) t = true → (length (chain (gr_last (w_repo w)) t) < fuel)%nat →
  1 ≤ max_entries ≤ i64_max →
  ∃ w' m, verify_recent_chain svc fuel t max_entries w = (Some (Ok (chain_ok m)), w')
    ∧ passed w w'
    ∧ (chain (gr_first (w_repo w)) t ≠ [] → ∃ n, m = Z.min max_entries (Z.of_nat n)
       ∧ (length (chain (gr_first (w_repo w)) t) ≤ n
          ≤ length (chain (gr_last (w_repo w)) t))%nat).
Proof.
  intros Hg Hread Hfuel Hmax. pose proof (passed_later w w (passed_refl w Hg)) as P1.
  pose proof (passed_length _ _ t P1) as L1. pose proof (gr_last_bound _ t Hg) as Hb.
  destruct (hg_now _ (pa_honest _ _ P1)) as (Hok & HD & _). simpl in Hok.
  unfold verify_recent_chain. rewrite (proj2 (Z.leb_gt _ _)) by lia.
  pose proof (get_chain_tip_ok _ t Hok) as Htip. fold (gr_first (gr_turn (w_repo w))) in Htip.
  change (gr_turn (w_repo w)) with (w_repo (later w)) in Htip.
  destruct (last (chain (gr_first (w_repo (later w))) t)) as [e|] eqn:Hlast.
  2: { rewrite (bind_gr_read _ _ _ _ _ eq_refl Htip), Hread. cbn [asked]. apply last_None in Hlast.
       destruct (verify_chain_growing fuel (later w) t (pa_honest _ _ P1) Hread) as (w' & n & -> & P' & _);
         [by rewrite (pa_last _ _ P1)|].
       exists w', (Z.of_nat n). split; [done|]. split; [by eapply passed_trans|].
       intros Hne. destruct (pa_extends _ _ P1 t) as [l Hl]. rewrite Hl in Hlast.
       by apply app_nil in Hlast as [? _]. }
  destruct Htip as (tip & Htip & Hid & Hpos). rewrite (bind_gr_read _ _ _ _ _ eq_refl Htip).
  rewrite last_lookup in Hlast. pose proof (HD _ _ _ Hlast) as Hp. apply lookup_lt_Some in Hlast as Hlt.
  pose proof (elem_bound_is (later w) t e _ i64_max (pa_honest _ _ P1) Hlast) as Bhi.
  set (n := length (chain (gr_first (w_repo (later w))) t)) in *.
  assert (le_chain_position e = Z.of_nat n) as Hn by lia. rewrite <- Hp, Hn in Bhi.
  rewrite Hpos, Hid, Hn, i64_sub_small, i64_add_small
    by (unfold i64_ok, i64_min, i64_max in *; lia).
  change (Z.max (Z.of_nat n - max_entries + 1) 1) with (window_start (Z.of_nat n) max_entries).
  set (lo := window_start (Z.of_nat n) max_entries).
  assert (1 ≤ lo ≤ Z.of_nat n) as Hlo by (unfold lo, window_start; lia).
  destruct (window_head_growing (later w) t lo (pa_honest _ _ P1)) as (w2 & id & Hw2 & P2 & Blo & Hid2);
    [fold n; lia|].
  unfold window_head in Hw2. unfold mbind_M at 1. rewrite Hw2, Hid2.
  pose proof (passed_trans _ _ _ P1 P2) as P2'. pose proof (passed_length _ _ t P2) as L2. fold n in L2.
  destruct (verify_range_growing fuel w2 t id (Some (le_entry_id e)) lo (Z.of_nat n)
              (pa_honest _ _ P2)) as (w' & -> & P');
    [by rewrite (pa_last _ _ P2')|done|by apply (bound_is_later _ _ _ _ _ _ P2)|lia..|].
  exists w', (Z.of_nat n - lo + 1). split; [done|]. split; [by eapply passed_trans|].
  intros _. exists n. split; [unfold lo, window_start; lia|lia].
Qed.

Lemma verify_recent_growing_unreadable fuel w t max_entries :
  honest_growth svc (w_repo w) → store_reads (R := R) t = false → 1 ≤ max_entries →
  verify_recent_chain svc fuel t max_entries w = (Some (Err SUnavailable), later w).
Proof.
  intros Hg Hread Hmax. pose proof (passed_later w w (passed_refl w Hg)) as P1.
  destruct (hg_now _ (pa_honest _ _ P1)) as (Hok & _). simpl in Hok.
  unfold verify_recent_chain. rewrite (proj2 (Z.leb_gt _ _)) by lia.
  pose proof (get_chain_tip_ok _ t Hok) as Htip.
  destruct (last (chain (ledger_of (gr_now (gr_turn (w_repo w)))) t)) as [e|] eqn:Hlast.
  - apply last_Some_elem_of, (store_reads_types _ _ _ Hok) in Hlast. congruence.
  - by rewrite (bind_gr_read _ _ _ _ _ eq_refl Htip), Hread.
Qed.

(** *** A round of the background verifier *)

Lemma verify_types_growing fuel ts max_entries w :
  honest_growth svc (w_repo w) → Forall (λ t, store_reads (R := R) t = true) ts →
  (∀ t, (length (chain (gr_last (w_repo w)) t) < fuel)%nat) → 1 ≤ max_entries ≤ i64_max →
  ∃ w' rs, verify_types svc fuel ts max_entries w = (Some rs, w') ∧ passed w w'
    ∧ cr_entry_type <$> rs = ts ∧ forallb cr_valid rs = true.
Proof.
  revert w. induction ts as [|t ts IH]; intros w Hg Hread Hfuel Hmax.
  { exists w, []. split; [done|]. split; [by apply passed_refl|done]. }
  apply Forall_cons in Hread as [Ht Hread]. cbn [verify_types]. unfold mbind_M.
  destruct (verify_recent_growing fuel w t max_entries Hg Ht (Hfuel t) Hmax) as (w1 & m & -> & P1 & _).
  destruct (IH w1 (pa_honest _ _ P1)) as (w' & rs & -> & P' & Hts & Hall);
    [done|by rewrite (pa_last _ _ P1)|done|].
  eexists w', _. split; [done|]. split; [by eapply passed_trans|]. by rewrite fmap_cons, Hts.
Qed.

Lemma passed_same w w1 w2 :
  passed w w1 → w_repo w2 = w_repo w1 → w_metrics w2 = w_metrics w1 → passed w w2.
Proof. intros [Hh He Hl Hm] Hr Hm'. split; rewrite ?Hr; [done|done|done|congruence]. Qed.

Lemma run_verification_growing fuel max_entries w :
  honest_growth svc (w_repo w) →
  (∀ t, (length (chain (gr_last (w_repo w)) t) < fuel)%nat) → 1 ≤ max_entries ≤ i64_max →
  ∃ w' rs, run_verification svc fuel max_entries w = (Some rs, w') ∧ passed w w'
    ∧ forallb cr_valid rs = true
    ∧ ∀ t, chain (gr_first (w_repo w)) t ≠ [] → t ∈ cr_entry_type <$> rs.
Proof.
  intros Hg Hfuel Hmax. pose proof (passed_later w w (passed_refl w Hg)) as P1.
  destruct (hg_now _ (pa_honest _ _ P1)) as (Hok & _). simpl in Hok.
  destruct (get_distinct_entry_types_law _ Hok) as (ts & Hts & _ & Hin).
  unfold run_verification, service_get_distinct_entry_types.
  unfold mbind_M at 1. rewrite (bind_gr_read _ _ _ _ _ eq_refl Hts). cbn [map_err]. unfold ret at 1.
  destruct (verify_types_growing fuel ts max_entries (later w) (pa_honest _ _ P1))
    as (w' & rs & -> & P' & Htypes & Hall); [|by rewrite (pa_last _ _ P1)|done|].
  { apply Forall_forall. intros t Ht%Hin. by apply (gr_types_read (gr_turn (w_repo w)) t (pa_honest _ _ P1)). }
  exists w', rs. split; [done|]. split; [by eapply passed_trans|]. split; [done|].
  intros t Hne. rewrite Htypes. apply Hin. intros Hnil.
  destruct (pa_extends _ _ P1 t) as [l Hl]. simpl in Hl.
  change (ledger_of (gr_now (gr_turn (w_repo w)))) with (gr_first (gr_turn (w_repo w))) in Hnil.
  rewrite Hnil in Hl. symmetry in Hl. by apply app_nil in Hl as [? _].
Qed.

(** Verification next to writers raises no false alarm.  Let a repository that
    can be asked for [t] grow between any two reads, by any honest appends of this process or another:
    a whole-chain check still answers "valid", for a length the chain had while it
    ran, and a round of the background verifier finds every chain valid - among
    them every chain that had entries when it began - sets the gauge to 1, leaves
    the failure counter alone, and [/readyz] answers 200. *)
Theorem verification_next_to_writers fuel interval max_entries t w :
  honest_growth svc (w_repo w) → store_reads (R := R) t = true →
  (∀ t, (length (chain (gr_last (w_repo w)) t) < fuel)%nat) → 1 ≤ max_entries ≤ i64_max →
  (∃ w' n, verify_chain svc fuel t None None w = (Some (Ok (chain_ok (Z.of_nat n))), w')
     ∧ (length (chain (gr_first (w_repo w)) t) ≤ n ≤ length (chain (gr_last (w_repo w)) t))%nat)
  ∧ ∃ w' v, verifier_round svc fuel interval max_entries w = (Some v, w')
     ∧ vs_all_valid v = true
     ∧ (∀ t', chain (gr_first (w_repo w)) t' ≠ [] → t' ∈ cr_entry_type <$> vs_chain_results v)
     ∧ CHAIN_INTEGRITY_VALID (w_metrics w') = 1
     ∧ LEDGER_CHAIN_VERIFY_FAILURE_TOTAL (w_metrics w')
       = LEDGER_CHAIN_VERIFY_FAILURE_TOTAL (w_metrics w)
     ∧ readyz true (Some v) = (200, "ready").
Proof.
  intros Hg Hread Hfuel Hmax. split.
  - destruct (verify_chain_growing fuel w t Hg Hread (Hfuel t)) as (w' & n & ? & _ & ?). eauto.
  - destruct (run_verification_growing fuel max_entries (tick w) Hg Hfuel Hmax)
      as (w1 & rs & Hrun & P1 & Hall & Hin).
    unfold verifier_round. run_M. rewrite Hrun, Hall.
    eexists _, _. split; [done|]. split; [done|]. split; [done|]. split; [done|].
    split; [simpl; by rewrite (pa_metrics _ _ P1)|done].
Qed.
End GrowingLemmas.

(** * Witness: the first entry of a chain is written during the checks *)

#[local] Existing Instance Toy.platform.
#[local] Existing Instance Toy.laws.

Definition demo_growing : Growing Inner :=
  {| gr_now := w_repo demo_empty; gr_later := [w_repo demo_one] |}.

Lemma demo_one_growth (t : string) : (length (chain (w_ledger demo_one) t) ≤ 1)%nat.
Proof.
  destruct (service_inv_step demo_service demo_empty demo_request demo_uuid_inj
              (demo_accepted demo_request) demo_empty_inv)
    as (w' & Hw & _ & _ & Hgrow); [by_compute|].
  apply (f_equal snd) in Hw. cbn [snd] in Hw. unfold demo_one. rewrite Hw.
  specialize (Hgrow t). unfold w_ledger in *. rewrite demo_empty_chain in Hgrow. cbn [length] in Hgrow. lia.
Qed.

Lemma demo_growing_honest : honest_growth demo_service demo_growing.
Proof.
  split.
  - repeat apply Forall_cons_2; [..|constructor].
    + split; [apply store_wf_ok, (si_wf _ _ demo_empty_inv)|].
      split; [apply store_dense, (si_wf _ _ demo_empty_inv)|apply (si_valid _ _ demo_empty_inv)].
    + split; [apply store_wf_ok, (si_wf _ _ demo_one_inv)|].
      split; [apply store_dense, (si_wf _ _ demo_one_inv)|apply (si_valid _ _ demo_one_inv)].
  - repeat constructor. intros t. rewrite demo_empty_chain. apply prefix_nil.
Qed.

Lemma verification_next_to_writers_witness :
  ∃ w' v, verifier_round demo_service 2 300 10 (world_init demo_growing) = (Some v, w')
    ∧ vs_all_valid v = true ∧ CHAIN_INTEGRITY_VALID (w_metrics w') = 1
    ∧ readyz true (Some v) = (200, "ready").
Proof.
  destruct (verification_next_to_writers demo_service 2 300 10 "t" (world_init demo_growing)
              demo_growing_honest eq_refl) as [_ (w' & v & H1 & H2 & _ & H3 & _ & H4)].
  - intros t. exact (le_n_S _ _ (demo_one_growth t)).
  - unfold i64_max. lia.
  - exists w', v. split; [exact H1|]. split; [exact H2|]. split; [exact H3|exact H4].
Defined.
