(* ===== verification/FaultyVerify.v ===== *)
(** * Verification while the database fails

    OnlineVerify shows that the verification methods of [src/service/mod.rs] and
    the background verifier raise no alarm while a repository that always answers
    grows.  Here every request to the server may fail as well.  [sim] relates a
    computation over a repository that fails to the same computation over the
    [heal]ed one: it ends with the same answer in the same world, or it ends early
    with "unavailable".  The methods of Service are related piece by piece, for any
    two repositories that satisfy [FaultyReads]; [PostgresLedgerRepository] does. *)

From Stdlib Require Import String Strings.Byte ZArith Lia.
From stdpp Require Import base tactics numbers strings list gmap sorting.
From S2P Require Import Prelude Platform Crypto Repository Postgres Config World Service LedgerSpec.
From S2P Require Import InMemory PostgresLaws Chain Examples ServiceWrite TestRepos ServiceVerify.
From S2P Require Import PostgresService Verifier OnlineVerify.

(** ** Reads that may fail *)

Class Heal (R1 R2 : Type) := heal : R1 → R2.

(** A read answers as the healed repository does, or not at all; neither changes
    what is stored. *)
Definition faulty {R1 R2 A : Type} `{!Heal R1 R2} (f1 : R1 → result A RepositoryError * R1)
    (f2 : R2 → result A RepositoryError * R2) : Prop :=
  ∀ r, heal (f1 r).2 = heal r ∧ (f2 (heal r)).2 = heal r
       ∧ ((f1 r).1 = (f2 (heal r)).1 ∨ (f1 r).1 = Err Unavailable).

Class FaultyReads {P : Platform} (R1 R2 : Type)
    `{!LedgerRepository R1, !LedgerRepository R2, !Heal R1 R2} : Prop := {
  faulty_get_entry id : faulty (get_entry (R := R1) id) (get_entry (R := R2) id);
  faulty_get_chain_tip t : faulty (get_chain_tip (R := R1) t) (get_chain_tip (R := R2) t);
  faulty_paged t after limit :
    faulty (get_entries_by_type_paged (R := R1) t after limit)
           (get_entries_by_type_paged (R := R2) t after limit);
  faulty_types : faulty (get_distinct_entry_types (R := R1)) (get_distinct_entry_types (R := R2))
}.

(** * Lemmas *)

(** ** Simulation *)

Section Simulation.
Context {P : Platform} {R1 R2 : Type} `{!LedgerRepository R1, !LedgerRepository R2}.
Context `{!Heal R1 R2, !FaultyReads R1 R2}.

Definition heal_growing (g : Growing R1) : Growing R2 :=
  {| gr_now := heal (gr_now g); gr_later := map heal (gr_later g) |}.

Definition heal_world (w : World (Growing R1)) : World (Growing R2) :=
  mkWorld (heal_growing (w_repo w)) (w_uuids w) (w_clock w) (w_halted w) (w_locks w)
    (w_sleeps w) (w_metrics w).

(** Some calls later, nothing else having changed. *)
Definition turned (w : World (Growing R2)) : World (Growing R2) :=
  set_repo (gr_turn (w_repo w)) w.

Definition moved (w w' : World (Growing R2)) : Prop := ∃ n, w' = Nat.iter n turned w.

#[local] Instance moved_preorder : PreOrder moved.
Proof.
  split; [by exists 0%nat|]. intros w1 w2 w3 [n ->] [m ->]. exists (m + n)%nat.
  by rewrite Nat.iter_add.
Qed.

(** The same answer in the same world, or [bad] in the world some calls later. *)
Definition sim {A : Type} (bad : A) (m1 : M (Growing R1) A) (m2 : M (Growing R2) A) : Prop :=
  ∀ w, let '(a1, w1) := m1 w in
       let '(a2, w2) := m2 (heal_world w) in
       a1 = a2 ∧ heal_world w1 = w2 ∨ a1 = bad ∧ moved (heal_world w) (heal_world w1).

(** The same, of a computation that only reads. *)
Definition read_sim {A : Type} (bad : A) (m1 : M (Growing R1) A) (m2 : M (Growing R2) A) : Prop :=
  sim bad m1 m2 ∧ ∀ w, moved (heal_world w) (heal_world (m1 w).2).

Lemma sim_ret {A} (bad a : A) : sim bad (ret a) (ret a).
Proof. intros w. by left. Qed.

Lemma read_sim_ret {A} (bad a : A) : read_sim bad (ret a) (ret a).
Proof. split; [apply sim_ret|]. by intros w. Qed.

(** A failed read ends the method. *)
Lemma sim_bind {A B} (bad : A) (bad' : B) m1 m2 (k1 : A → M (Growing R1) B) k2 :
  read_sim bad m1 m2 → (∀ w, k1 bad w = (bad', w)) → (∀ a, sim bad' (k1 a) (k2 a)) →
  sim bad' (mbind_M m1 k1) (mbind_M m2 k2).
Proof.
  intros [Hm Hr] Hbad Hk w. unfold mbind_M. specialize (Hm w). specialize (Hr w).
  destruct (m1 w) as [a1 w1]. destruct (m2 (heal_world w)) as [a2 w2]. simpl in Hr.
  destruct Hm as [[-> <-]|[-> _]].
  - specialize (Hk a2 w1). destruct (k1 a2 w1) as [b1 w1'].
    destruct (k2 a2 (heal_world w1)) as [b2 w2']. destruct Hk as [[-> <-]|[-> Hmv]]; [by left|].
    right. split; [done|]. by etrans.
  - rewrite Hbad. destruct (k2 a2 w2) as [b2 w2']. by right.
Qed.

Lemma read_sim_bind {A B} (bad : A) (bad' : B) m1 m2 (k1 : A → M (Growing R1) B) k2 :
  read_sim bad m1 m2 → (∀ w, k1 bad w = (bad', w)) → (∀ a, read_sim bad' (k1 a) (k2 a)) →
  read_sim bad' (mbind_M m1 k1) (mbind_M m2 k2).
Proof.
  intros Hm Hbad Hk. split; [apply (sim_bind bad); [done..|]; intros a; apply Hk|].
  intros w. destruct Hm as [_ Hr]. specialize (Hr w). unfold mbind_M.
  destruct (m1 w) as [a1 w1]. simpl in Hr. etrans; [exact Hr|apply Hk].
Qed.

Lemma heal_turn g : heal_growing (gr_turn g) = gr_turn (heal_growing g).
Proof. by destruct g as [r [|r' later]]. Qed.

Lemma read_sim_call {A} (f1 : R1 → result A RepositoryError * R1) f2 :
  faulty f1 f2 → read_sim (Err Unavailable) (call (gr_call f1)) (call (gr_call f2)).
Proof.
  intros Hf. assert (∀ w, heal_world (call (gr_call f1) w).2 = turned (heal_world w)) as Hw.
  { intros w. unfold call, gr_call. destruct (Hf (gr_now (gr_turn (w_repo w)))) as (H1 & _).
    destruct (f1 (gr_now (gr_turn (w_repo w)))) as [a1 r1]. simpl in *.
    unfold heal_world, turned, set_repo. simpl. rewrite <- heal_turn. unfold heal_growing. simpl.
    by rewrite H1. }
  split; [|intros w; rewrite Hw; by exists 1%nat].
  intros w. specialize (Hw w). revert Hw. unfold call, gr_call. cbv zeta.
  change (w_repo (heal_world w)) with (heal_growing (w_repo w)). rewrite <- heal_turn.
  change (gr_now (heal_growing (gr_turn (w_repo w)))) with (heal (gr_now (gr_turn (w_repo w)))).
  destruct (Hf (gr_now (gr_turn (w_repo w)))) as (_ & H2 & Ha).
  destruct (f1 (gr_now (gr_turn (w_repo w)))) as [a1 r1].
  destruct (f2 (heal (gr_now (gr_turn (w_repo w))))) as [a2 r2]. simpl in *. subst r2. intros Hw.
  destruct Ha as [->| ->]; [left; split; [done|]|right; split; [done|]]; rewrite Hw.
  - unfold turned, set_repo. simpl. by rewrite <- heal_turn.
  - by exists 1%nat.
Qed.

(** *** The methods of the service *)

Context {Pub : Type} (svc : ImmutableLedgerService Pub).

Ltac fault_ends := intros; reflexivity.

Lemma page_sim t after limit :
  read_sim (Err Unavailable)
    (call (get_entries_by_type_paged (R := Growing R1) t after limit))
    (call (get_entries_by_type_paged (R := Growing R2) t after limit)).
Proof. apply read_sim_call, faulty_paged. Qed.

Lemma bound_position_sim t id if_absent text :
  read_sim (Err SUnavailable) (bound_position t id if_absent text)
    (bound_position t id if_absent text).
Proof.
  unfold bound_position. destruct id as [id|]; [|apply read_sim_ret].
  apply (read_sim_bind (Err Unavailable)); [apply read_sim_call, faulty_get_entry|fault_ends|].
  intros [e|err]; simpl; [destruct (negb _)|]; apply read_sim_ret.
Qed.

Lemma start_hash_sim t lo : read_sim (Err SUnavailable) (start_hash svc t lo) (start_hash svc t lo).
Proof.
  unfold start_hash. destruct (_ =? _); [apply read_sim_ret|].
  apply (read_sim_bind (Err Unavailable)); [apply page_sim|fault_ends|].
  intros [l|err]; simpl; [destruct (head l)|]; apply read_sim_ret.
Qed.

Lemma verify_loop_sim fuel t hi c :
  sim (Some (Err SUnavailable)) (verify_loop fuel t hi c) (verify_loop fuel t hi c).
Proof.
  revert c. induction fuel as [|fuel IH]; intros c; [apply sim_ret|]. cbn [verify_loop].
  apply (sim_bind (Err Unavailable)); [apply page_sim|fault_ends|].
  intros [batch|err]; simpl; [|apply sim_ret]. destruct (is_nil batch); [apply sim_ret|].
  destruct (verify_batch hi batch c) as [out|c'].
  - intros w. unfold finish_batch. run_M. destruct (vc_chain_valid out); by left.
  - destruct (_ <? _); [apply sim_ret|apply IH].
Qed.

Lemma verify_chain_sim fuel t lo_id hi_id :
  sim (Some (Err SUnavailable)) (verify_chain svc fuel t lo_id hi_id)
    (verify_chain svc fuel t lo_id hi_id).
Proof.
  unfold verify_chain.
  apply (sim_bind (Err SUnavailable)); [apply bound_position_sim|fault_ends|].
  intros [lo|err]; [|apply sim_ret].
  apply (sim_bind (Err SUnavailable)); [apply bound_position_sim|fault_ends|].
  intros [hi|err]; [|apply sim_ret]. destruct (hi <? lo); [apply sim_ret|].
  apply (sim_bind (Err SUnavailable)); [apply start_hash_sim|fault_ends|].
  intros [[out|prev]|err]; [apply sim_ret|apply verify_loop_sim|apply sim_ret].
Qed.

Lemma verify_recent_sim fuel t max_entries :
  sim (Some (Err SUnavailable)) (verify_recent_chain svc fuel t max_entries)
    (verify_recent_chain svc fuel t max_entries).
Proof.
  unfold verify_recent_chain. destruct (_ <=? 0); [apply sim_ret|].
  apply (sim_bind (Err Unavailable)); [apply read_sim_call, faulty_get_chain_tip|fault_ends|].
  intros [tip|err]; [|destruct err; try apply sim_ret; apply verify_chain_sim].
  apply (sim_bind (Err SUnavailable)); [|fault_ends|].
  - destruct (_ =? 1); [apply read_sim_ret|].
    apply (read_sim_bind (Err Unavailable)); [apply page_sim|fault_ends|].
    intros a. apply read_sim_ret.
  - intros [id|err]; [|apply sim_ret]. destruct (_ && _); [apply sim_ret|apply verify_chain_sim].
Qed.

Lemma distinct_types_sim :
  read_sim (Err SUnavailable) (service_get_distinct_entry_types (R := Growing R1))
    (service_get_distinct_entry_types (R := Growing R2)).
Proof.
  unfold service_get_distinct_entry_types.
  apply (read_sim_bind (Err Unavailable)); [apply read_sim_call, faulty_types|fault_ends|].
  intros a. apply read_sim_ret.
Qed.
End Simulation.

(** ** Over a ledger that is honest *)

Section Honest.
Context {P : Platform} {PL : PlatformLaws P} {R1 R2 Pub : Type}.
Context `{!LedgerRepository R1, !LedgerRepository R2, !Heal R1 R2, !FaultyReads R1 R2}.
Context `{!LedgerStore R2, !LedgerStoreLaws R2} (svc : ImmutableLedgerService Pub).
Implicit Types (w : World (Growing R1)).

Lemma moved_passed (w w' : World (Growing R2)) :
  honest_growth svc (w_repo w) → moved w w' → passed svc w w'.
Proof.
  intros Hg [n ->]. induction n as [|n IH]; [by apply passed_refl|]. by apply passed_later.
Qed.

Definition healed_honest w : Prop := honest_growth svc (heal_growing (w_repo w)).
Definition first_chain w t : list LedgerEntryRecord := chain (gr_first (heal_growing (w_repo w))) t.
Definition last_chain w t : list LedgerEntryRecord := chain (gr_last (heal_growing (w_repo w))) t.
Definition healed_passed w w' : Prop := passed svc (heal_world w) (heal_world w').

Lemma healed_trans w1 w2 w3 : healed_passed w1 w2 → healed_passed w2 w3 → healed_passed w1 w3.
Proof. apply passed_trans. Qed.

Lemma healed_fuel w w' (fuel : nat) :
  healed_passed w w' → (∀ t, length (last_chain w t) < fuel)%nat →
  ∀ t, (length (last_chain w' t) < fuel)%nat.
Proof.
  intros Hp Hf t. specialize (Hf t). unfold last_chain in *. pose proof (pa_last _ _ _ Hp) as Hl.
  simpl in Hl. by rewrite Hl.
Qed.

Lemma verify_chain_faulty fuel t w :
  healed_honest w → (length (last_chain w t) < fuel)%nat →
  ∃ w' o, verify_chain svc fuel t None None w = (Some o, w') ∧ healed_passed w w'
    ∧ (o = Err SUnavailable
       ∨ ∃ n, o = Ok (chain_ok (Z.of_nat n))
              ∧ (length (first_chain w t) ≤ n ≤ length (last_chain w t))%nat).
Proof.
  intros Hg Hfuel. pose proof (verify_chain_sim svc fuel t None None w) as Hs.
  destruct (store_reads (R := R2) t) eqn:Hread.
  2: { rewrite (verify_chain_growing_unreadable svc fuel (heal_world w) t Hg Hread) in Hs by lia.
       destruct (verify_chain svc fuel t None None w) as [o w']. exists w', (Err SUnavailable).
       split; [by destruct Hs as [[-> _]|[-> _]]|]. split; [|by left].
       destruct Hs as [[_ Hw]|[_ Hmv]]; [|by apply moved_passed].
       unfold healed_passed. rewrite Hw. by apply passed_later, passed_refl. }
  destruct (verify_chain_growing svc fuel (heal_world w) t Hg Hread Hfuel) as (w2 & n & Hw2 & Hp & Hn).
  rewrite Hw2 in Hs. destruct (verify_chain svc fuel t None None w) as [o w'].
  destruct Hs as [[-> <-]|[-> Hmv]].
  - exists w', (Ok (chain_ok (Z.of_nat n))). split; [done|]. split; [exact Hp|]. right. by exists n.
  - exists w', (Err SUnavailable). split; [done|]. split; [by apply moved_passed|by left].
Qed.

(** What a round may say of a chain: it is valid, or it could not be read. *)
Definition sound_result (c : ChainResult) : Prop :=
  cr_valid c = true ∧ cr_failure_reason c = ""
  ∨ cr_valid c = false ∧ cr_entries_checked c = 0
    ∧ cr_failure_reason c = service_error_display SUnavailable.

Lemma verify_recent_faulty fuel t max_entries w :
  healed_honest w → (length (last_chain w t) < fuel)%nat → 1 ≤ max_entries ≤ i64_max →
  ∃ w' o, verify_recent_chain svc fuel t max_entries w = (Some o, w') ∧ healed_passed w w'
    ∧ sound_result (chain_result t o).
Proof.
  intros Hg Hfuel Hmax. pose proof (verify_recent_sim svc fuel t max_entries w) as Hs.
  destruct (store_reads (R := R2) t) eqn:Hread.
  2: { rewrite (verify_recent_growing_unreadable svc fuel (heal_world w) t max_entries Hg Hread) in Hs
         by lia.
       destruct (verify_recent_chain svc fuel t max_entries w) as [o w']. exists w', (Err SUnavailable).
       split; [by destruct Hs as [[-> _]|[-> _]]|]. split; [|by right].
       destruct Hs as [[_ Hw]|[_ Hmv]]; [|by apply moved_passed].
       unfold healed_passed. rewrite Hw. by apply passed_later, passed_refl. }
  destruct (verify_recent_growing svc fuel (heal_world w) t max_entries Hg Hread Hfuel Hmax)
    as (w2 & m & Hw2 & Hp & _).
  rewrite Hw2 in Hs. destruct (verify_recent_chain svc fuel t max_entries w) as [o w'].
  destruct Hs as [[-> <-]|[-> Hmv]].
  - exists w', (Ok (chain_ok m)). split; [done|]. split; [exact Hp|by left].
  - exists w', (Err SUnavailable). split; [done|]. split; [by apply moved_passed|by right].
Qed.

Lemma verify_types_faulty fuel ts max_entries w :
  healed_honest w → (∀ t, length (last_chain w t) < fuel)%nat → 1 ≤ max_entries ≤ i64_max →
  ∃ w' rs, verify_types svc fuel ts max_entries w = (Some rs, w') ∧ healed_passed w w'
    ∧ cr_entry_type <$> rs = ts ∧ Forall sound_result rs.
Proof.
  revert w. induction ts as [|t ts IH]; intros w Hg Hfuel Hmax.
  { exists w, []. split; [done|]. split; [by apply passed_refl|done]. }
  cbn [verify_types]. unfold mbind_M.
  destruct (verify_recent_faulty fuel t max_entries w Hg (Hfuel t) Hmax) as (w1 & o & -> & P1 & Hso).
  destruct (IH w1 (pa_honest _ _ _ P1) (healed_fuel _ _ _ P1 Hfuel) Hmax)
    as (w' & rs & -> & P' & Hts & Hall).
  eexists w', _. split; [done|]. split; [by eapply healed_trans|].
  split; [rewrite fmap_cons, Hts; by destruct o|by constructor].
Qed.

Lemma run_verification_faulty fuel max_entries w :
  healed_honest w → (∀ t, length (last_chain w t) < fuel)%nat → 1 ≤ max_entries ≤ i64_max →
  ∃ w' rs, run_verification svc fuel max_entries w = (Some rs, w') ∧ healed_passed w w'
    ∧ Forall sound_result rs.
Proof.
  intros Hg Hfuel Hmax. unfold run_verification. unfold mbind_M at 1.
  pose proof (proj2 (distinct_types_sim (R1 := R1) (R2 := R2)) w) as Hmv.
  destruct (service_get_distinct_entry_types w) as [[ts|err] w1]; simpl in Hmv.
  - apply moved_passed in Hmv as P1; [|done].
    destruct (verify_types_faulty fuel ts max_entries w1 (pa_honest _ _ _ P1)
                (healed_fuel _ _ _ P1 Hfuel) Hmax) as (w' & rs & -> & P' & _ & Hall).
    exists w', rs. split; [done|]. split; [by eapply healed_trans|done].
  - exists w1, []. split; [done|]. split; [by apply moved_passed|done].
Qed.
End Honest.

(** ** PostgreSQL *)

Section Postgres.
Context {P : Platform} {G : PgPlatform}.

#[global] Instance postgres_heal : Heal PostgresLedgerRepository PostgresLedgerRepository := healed.

Definition faulty_pg {A} (m : Pg (result A RepositoryError)) : Prop := faulty m m.

Lemma faulty_pg_read {A} (query : PgTables → result A RepositoryError) : faulty_pg (pg_read query).
Proof.
  intros db. unfold pg_read. destruct (next_fault db) as [f db'] eqn:E.
  apply next_fault_healed in E as Hh.
  change (next_fault (heal db)) with (Answered, healed db). unfold heal, postgres_heal.
  assert (pg_tables db' = pg_tables db) as Ht by exact (f_equal pg_tables Hh).
  destruct f; simpl; rewrite ?Ht; auto.
Qed.

Lemma faulty_pg_ret {A} (a : result A RepositoryError) : faulty_pg (pg_ret a).
Proof. intros db. by split; [|split; [|left]]. Qed.

Lemma faulty_pg_try {A B} (m : Pg (result A RepositoryError))
    (k : A → Pg (result B RepositoryError)) :
  faulty_pg m → (∀ a, faulty_pg (k a)) → faulty_pg (pg_try m k).
Proof.
  intros Hm Hk db. destruct (Hm db) as (H1 & H2 & Ha). unfold pg_try.
  destruct (m db) as [r1 db1]. destruct (m (heal db)) as [r2 db2]. simpl in *. subst db2.
  assert (∀ a, (k a (heal db)).2 = heal db) as Hkh.
  { intros a. destruct (Hk a (heal db)) as (_ & H & _). exact H. }
  destruct r2 as [a2|e2].
  - specialize (Hkh a2). destruct Ha as [->| ->]; [|by auto].
    destruct (Hk a2 db1) as (K1 & _ & K3). rewrite H1 in *. auto.
  - destruct Ha as [->| ->]; auto.
Qed.

Create HintDb faulty.
#[local] Hint Extern 1 (faulty_pg (pg_select _ _)) => apply faulty_pg_read : faulty.
#[local] Hint Resolve faulty_pg_read faulty_pg_ret faulty_pg_try : faulty.

#[global] Instance postgres_faulty_reads :
  FaultyReads PostgresLedgerRepository PostgresLedgerRepository.
Proof.
  split.
  - intros id. change (faulty_pg (pg_get_entry id)). unfold pg_get_entry, select_entry, found, pool_get.
    eauto 10 with faulty.
  - intros t. change (faulty_pg (pg_get_chain_tip t)). unfold pg_get_chain_tip, pool_get, found.
    eauto 10 with faulty.
  - intros t after limit. change (faulty_pg (pg_get_entries_by_type_paged t after limit)).
    unfold pg_get_entries_by_type_paged, pool_get. eauto 10 with faulty.
  - change (faulty_pg pg_get_distinct_entry_types).
    unfold pg_get_distinct_entry_types, pool_get. eauto 10 with faulty.
Qed.
End Postgres.

(** * Properties *)

Section Properties.
Context {P : Platform} {PL : PlatformLaws P} {G : PgPlatform} {GL : PgLaws G} {Pub : Type}.
Context (svc : ImmutableLedgerService Pub).
Implicit Types (w : World (Growing PostgresLedgerRepository)).

(** No request to the server is going to fail. *)
Definition no_faults w : Prop := Forall (λ db, pg_faults db = []) (snapshots (w_repo w)).

Lemma no_faults_healed w : no_faults w → heal_world w = w.
Proof.
  intros Hf. assert (∀ db, pg_faults db = [] → healed db = db) as Hsame.
  { intros db H. unfold healed. rewrite <- H. by destruct db. }
  unfold no_faults, snapshots in Hf. apply Forall_cons in Hf as [Hnow Hlater].
  destruct w as [[now later] ? ? ? ? ? ?]. unfold heal_world, heal_growing. simpl in *.
  unfold heal, postgres_heal. rewrite (Hsame now Hnow). do 2 f_equal.
  induction Hlater as [|db dbs Hdb _ IH]; [done|]. simpl. by rewrite Hsame, IH.
Qed.

(** C31: neither writers nor a failing database make verification report tampering.
    While honest entries are appended between any two reads, and any request to
    the server fails or loses its answer, [verify_chain] answers "valid", for a
    length the chain had meanwhile, or "unavailable"; a round of the background
    verifier calls a chain invalid only with the reason "unavailable" and leaves
    the failure counter alone, though such a chain turns the gauge to 0 and
    [/readyz] to 503; and when no request fails, the round finds every chain that
    had entries when it began, all of them valid. *)
Theorem failures_are_not_tampering fuel interval max_entries t w :
  healed_honest svc w →
  (∀ t, length (last_chain w t) < fuel)%nat → 1 ≤ max_entries ≤ i64_max →
  (∃ w' o, verify_chain svc fuel t None None w = (Some o, w')
     ∧ (o = Err SUnavailable
        ∨ ∃ n, o = Ok (chain_ok (Z.of_nat n))
               ∧ (length (first_chain w t) ≤ n ≤ length (last_chain w t))%nat))
  ∧ ∃ w' v, verifier_round svc fuel interval max_entries w = (Some v, w')
     ∧ Forall sound_result (vs_chain_results v)
     ∧ vs_all_valid v = forallb cr_valid (vs_chain_results v)
     ∧ LEDGER_CHAIN_VERIFY_FAILURE_TOTAL (w_metrics w')
       = LEDGER_CHAIN_VERIFY_FAILURE_TOTAL (w_metrics w)
     ∧ CHAIN_INTEGRITY_VALID (w_metrics w') = Z.b2z (vs_all_valid v)
     ∧ readyz true (Some v)
       = (if vs_all_valid v then (200, "ready") else (503, "chain verification failed"))
     ∧ (no_faults w → vs_all_valid v = true
        ∧ ∀ t', first_chain w t' ≠ [] → t' ∈ cr_entry_type <$> vs_chain_results v).
Proof.
  intros Hg Hfuel Hmax. split.
  - destruct (verify_chain_faulty svc fuel t w Hg (Hfuel t)) as (w' & o & ? & _ & ?). eauto.
  - destruct (run_verification_faulty svc fuel max_entries (tick w) Hg Hfuel Hmax)
      as (w1 & rs & Hrun & P1 & Hall).
    unfold verifier_round. run_M. rewrite Hrun. eexists _, _. split; [done|].
    split; [done|]. split; [done|]. simpl. pose proof (pa_metrics _ _ _ P1) as Hm. simpl in Hm.
    split; [by rewrite Hm|]. split; [by destruct (forallb _ _)|].
    split; [by destruct (forallb _ _)|]. intros Hf%no_faults_healed.
    assert (heal_world (tick w) = tick w) as Ht by exact (f_equal tick Hf).
    unfold healed_honest in Hg. change (heal_growing (w_repo w)) with (w_repo (heal_world (tick w))) in Hg.
    rewrite Ht in Hg. assert (∀ t, (length (chain (gr_last (w_repo (tick w))) t) < fuel)%nat) as Hfuel'.
    { intros t'. specialize (Hfuel t'). unfold last_chain in Hfuel.
      change (heal_growing (w_repo w)) with (w_repo (heal_world (tick w))) in Hfuel. by rewrite Ht in Hfuel. }
    destruct (run_verification_growing svc fuel max_entries (tick w) Hg Hfuel' Hmax)
      as (w2 & rs2 & Hrun2 & _ & Hv & Hin).
    rewrite Hrun in Hrun2. injection Hrun2 as <- <-. split; [done|].
    intros t' Hne. apply Hin. unfold first_chain in Hne.
    change (heal_growing (w_repo w)) with (w_repo (heal_world (tick w))) in Hne. by rewrite Ht in Hne.
Qed.
End Properties.

(** * Witness: an entry is written during the checks, and requests fail *)

#[local] Existing Instance Toy.platform.
#[local] Existing Instance Toy.laws.
#[local] Existing Instance ToyPg.server.
#[local] Existing Instance ToyPg.server_laws.

Definition pg_world : World PostgresLedgerRepository := world_init pg_empty.
Definition pg_one : World PostgresLedgerRepository := (write_entry demo_service demo_request pg_world).2.

Lemma pg_world_inv : service_inv demo_service pg_world.
Proof.
  split.
  - split; [reflexivity|exact pg_empty_wf].
  - intros t. exact I.
  - intros m _. exact (pg_empty_fresh m).
Qed.

Lemma pg_demo_accepted : request_accepted (R := PostgresLedgerRepository) demo_service demo_request.
Proof. intros h k. split; [by_compute|reflexivity]. Qed.

Definition unreliable (faults : list Fault) (w : World PostgresLedgerRepository)
    : PostgresLedgerRepository :=
  {| pg_tables := pg_tables (w_repo w); pg_faults := faults; pg_clock := 0 |}.

Definition pg_unreliable_growth : Growing PostgresLedgerRepository :=
  {| gr_now := unreliable [] pg_world;
     gr_later := [unreliable [Answered; AnswerLost] pg_world; unreliable [] pg_one;
                  unreliable [NotDone] pg_one] |}.

Lemma pg_one_step :
  service_inv demo_service pg_one ∧ ledger_extends (w_ledger pg_world) (w_ledger pg_one)
  ∧ ∀ t, (length (chain (w_ledger pg_one) t) ≤ 1)%nat.
Proof.
  destruct (service_inv_step demo_service pg_world demo_request demo_uuid_inj pg_demo_accepted
              pg_world_inv) as (w' & Hw & Hinv & Hext & Hlen); [by_compute|].
  apply (f_equal snd) in Hw. cbn [snd] in Hw. unfold pg_one. rewrite Hw.
  split; [exact Hinv|]. split; [exact Hext|exact Hlen].
Qed.

Lemma inv_honest (faults : list Fault) (w : World PostgresLedgerRepository) :
  service_inv demo_service w →
  let r := heal (unreliable faults w) in
  store_ok r ∧ ledger_dense (ledger_of r) ∧ ledger_valid (genesis_hash demo_service) (ledger_of r).
Proof.
  intros [Hwf Hv _]. pose proof (store_dense _ Hwf) as HD. pose proof (store_wf_ok _ Hwf) as [_ Hok].
  split; [split; [reflexivity|exact Hok]|]. split; [exact HD|exact Hv].
Qed.

Lemma pg_unreliable_honest : healed_honest demo_service (world_init pg_unreliable_growth).
Proof.
  destruct pg_one_step as (Hone & Hext & _).
  split.
  - repeat apply Forall_cons_2; [apply inv_honest, pg_world_inv|apply inv_honest, pg_world_inv
      |apply inv_honest, Hone|apply inv_honest, Hone|constructor].
  - assert (∀ L : Ledger, ledger_extends L L) as Hrefl by (intros L t; exists []; by rewrite app_nil_r).
    repeat apply SSorted_cons; [constructor|repeat apply Forall_cons_2; try constructor..];
      first [exact Hext|apply Hrefl].
Qed.

Lemma failures_are_not_tampering_witness :
  ∃ w' v, verifier_round demo_service 2 300 10 (world_init pg_unreliable_growth) = (Some v, w')
    ∧ Forall sound_result (vs_chain_results v)
    ∧ LEDGER_CHAIN_VERIFY_FAILURE_TOTAL (w_metrics w') = 0%nat.
Proof.
  destruct (failures_are_not_tampering demo_service 2 300 10 "t" (world_init pg_unreliable_growth)
              pg_unreliable_honest) as [_ (w' & v & H1 & H2 & _ & H3 & _)].
  - intros t. destruct pg_one_step as (_ & _ & Hlen). exact (le_n_S _ _ (Hlen t)).
  - unfold i64_max. lia.
  - exists w', v. split; [exact H1|]. split; [exact H2|exact H3].
Defined.
