(* ===== verification/OnlineQuery.v ===== *)
(** * Paging while the ledger grows

    A client of [query_entries] ([src/service/mod.rs]) asks for page after page,
    and entries are written in between.  [PagedQueries] is what the service's
    paging needs of a repository - rows, a filter, an order, and an answer that is
    a slice of the sorted matches - and both repositories of the crate provide it.
    [collect_pages] (Query) runs over [Growing] (OnlineVerify), in which every
    call finds the repository in a later state. *)

From Stdlib Require Import String Strings.Byte ZArith Lia.
From stdpp Require Import base tactics numbers strings list gmap sorting.
From S2P Require Import Prelude Platform Crypto Repository Postgres Config World Service LedgerSpec.
From S2P Require Import InMemory PostgresLaws Chain Examples ServiceWrite TestRepos ServiceVerify.
From S2P Require Import Query PostgresService Verifier OnlineVerify.

(** ** What paging needs of a repository *)

Definition set_page {P : Platform} (limit offset : Z) (q : EntryQuery) : EntryQuery := {|
  eq_entry_type_prefix := eq_entry_type_prefix q; eq_agent_id := eq_agent_id q;
  eq_source_id := eq_source_id q; eq_correlation_id := eq_correlation_id q;
  eq_from_ts_ms := eq_from_ts_ms q; eq_to_ts_ms := eq_to_ts_ms q;
  eq_limit := limit; eq_offset := offset
|}.

Class PagedQueries {P : Platform} (R : Type) := {
  rows : R → list LedgerEntryRecord;
  selects : EntryQuery → LedgerEntryRecord → bool;
  in_order : LedgerEntryRecord → LedgerEntryRecord → bool;
  results : EntryQuery → R → list LedgerEntryRecord;
  (* the repository takes the query and answers it *)
  readable : EntryQuery → R → Prop
}.

Class PagedQueriesLaws {P : Platform} (R : Type) `{!LedgerRepository R, !PagedQueries R} : Prop := {
  in_order_total a b : in_order a b = true ∨ in_order b a = true;
  results_rows q r : results q r ≡ₚ filter (λ e, selects q e = true) (rows r);
  results_sorted q r : StronglySorted (λ a b, in_order a b = true) (results q r);
  results_page limit offset q r : results (set_page limit offset q) r = results q r;
  readable_page limit offset q r : readable q r → readable (set_page limit offset q) r;
  query_entries_law q r :
    readable q r → 0 ≤ eq_limit q ≤ i64_max → 0 ≤ eq_offset q ≤ i64_max →
    query_entries q r
    = (Ok {| qr_entries := take (Z.to_nat (eq_limit q)) (drop (Z.to_nat (eq_offset q)) (results q r));
             qr_total_count := Z.of_nat (length (results q r)) |}, r)
}.

#[global] Instance inner_paged {P : Platform} : PagedQueries Inner := {|
  rows g := hashmap_values (entries g);
  selects := query_matches;
  in_order := query_leb;
  results q g := query_results g q;
  readable _ _ := True
|}.

#[global] Instance postgres_paged {P : Platform} {G : PgPlatform} :
  PagedQueries PostgresLedgerRepository := {|
  rows db := tb_entries (pg_tables db);
  selects := query_where;
  in_order := query_order;
  results q db :=
    stable_sort query_order
      (pg_scan (filter (λ e, query_where q e = true) (tb_entries (pg_tables db))));
  readable q db := pg_faults db = [] ∧ query_accepted q = true
|}.

Section Growth.
Context {P : Platform} {R : Type} `{!PagedQueries R}.

(** From [r] to [r'] rows are added, and those that match come after those that
    were there. *)
Definition appended_after (q : EntryQuery) (r r' : R) : Prop :=
  ∃ new, rows r' ≡ₚ rows r ++ new
    ∧ ∀ a b, a ∈ rows r → b ∈ new → selects q a = true → selects q b = true →
        in_order b a = false.

(** No two matching rows share their place in the order. *)
Definition apart (q : EntryQuery) (r : R) : Prop :=
  ∀ a b, a ∈ rows r → b ∈ rows r → selects q a = true → selects q b = true →
    in_order a b = true → in_order b a = true → a = b.
End Growth.

(** * Lemmas *)

Section PagedLemmas.
Context {P : Platform} {PL : PlatformLaws P}.

#[global] Instance inner_paged_laws : PagedQueriesLaws Inner.
Proof.
  split; simpl.
  - apply query_leb_total.
  - intros q r. apply stable_sort_perm.
  - intros q r. apply stable_sort_sorted; [apply query_leb_total|apply query_leb_trans].
  - done.
  - done.
  - intros q r _ _ _. apply in_memory_query_spec.
Qed.

#[global] Instance postgres_paged_laws {G : PgPlatform} {GL : PgLaws G} :
  PagedQueriesLaws PostgresLedgerRepository.
Proof.
  split; simpl.
  - apply query_order_total.
  - intros q r. by rewrite stable_sort_perm, pg_scan_perm.
  - intros q r. apply stable_sort_sorted; [apply query_order_total|apply query_order_trans].
  - done.
  - done.
  - intros q r [Hr Hacc] Hl Ho. by apply pg_query_healthy.
Qed.

Context {R : Type} `{!LedgerRepository R, !PagedQueries R, !PagedQueriesLaws R}.
Implicit Types (w : World (Growing R)) (q : EntryQuery).

Lemma elem_of_results q (r : R) e : e ∈ results q r ↔ e ∈ rows r ∧ selects q e = true.
Proof. rewrite results_rows, list_elem_of_filter. tauto. Qed.

Lemma appended_prefix q (r r' : R) :
  appended_after q r r' → apart q r' → results q r `prefix_of` results q r'.
Proof.
  intros (new & Hrows & Hnew) Hapart.
  apply (sorted_prefix in_order in_order_total _ _ (filter (λ e, selects q e = true) new));
    [apply results_sorted..| | |].
  - by rewrite !results_rows, Hrows, filter_app.
  - intros a b [Ha Sa]%elem_of_results [Hb Sb]%elem_of_results. by apply Hapart.
  - intros a b [Ha Sa]%elem_of_results [Sb Hb]%list_elem_of_filter. by apply Hnew.
Qed.

(** One page, read from the next state. *)
Lemma growing_page query offset w :
  page_offset (qi_page_token query) = offset → 0 ≤ offset ≤ i64_max →
  readable (repository_query query) (gr_now (gr_turn (w_repo w))) →
  let all := results (repository_query query) (gr_now (gr_turn (w_repo w))) in
  let page := take (Z.to_nat (page_limit (qi_page_size query))) (drop (Z.to_nat offset) all) in
  service_query_entries query w
  = (Ok (page, next_page_token offset (length page) (Z.of_nat (length all)),
         Z.of_nat (length all)), later w).
Proof.
  intros <- Ho Hr all page. pose proof (page_limit_bounds (qi_page_size query)) as Hlim.
  pose proof (query_entries_law (repository_query query) _ Hr) as Hq.
  unfold service_query_entries. fold (repository_query query).
  assert (0 ≤ page_limit (qi_page_size query) ≤ i64_max) as Hl by (unfold i64_max; lia).
  by rewrite (bind_gr_read _ _ _ w _ eq_refl (Hq Hl Ho)).
Qed.

(** The states that are still to come. *)
Lemma turn_snapshots (g : Growing R) r : r ∈ snapshots (gr_turn g) → r ∈ snapshots g.
Proof. destruct g as [r0 [|r' later]]; [done|]. by right. Qed.

Lemma turn_forall (Q : R → Prop) (g : Growing R) :
  Forall Q (snapshots g) → Forall Q (snapshots (gr_turn g)).
Proof. rewrite !Forall_forall. intros H r Hr. by apply H, turn_snapshots. Qed.

Lemma turn_prefix (found : R → list LedgerEntryRecord) (g : Growing R) :
  StronglySorted (λ r r', found r `prefix_of` found r') (snapshots g) →
  StronglySorted (λ r r', found r `prefix_of` found r') (snapshots (gr_turn g))
  ∧ found (gr_now g) `prefix_of` found (gr_now (gr_turn g)).
Proof.
  destruct g as [r [|r' later]]; [done|]. intros Hs.
  apply StronglySorted_inv in Hs as [Hs Hr]. split; [done|]. by apply Forall_cons in Hr as [? _].
Qed.

Lemma turn_first (found : R → list LedgerEntryRecord) (g : Growing R) r :
  StronglySorted (λ r r', found r `prefix_of` found r') (snapshots g) →
  r ∈ snapshots g → found (gr_now g) `prefix_of` found r.
Proof.
  intros [_ Hs]%StronglySorted_inv [->|Hr]%elem_of_cons; [done|].
  rewrite Forall_forall in Hs. by apply Hs.
Qed.

(** A full page of the front, and what follows it in a longer list. *)
Lemma page_then_rest {A} (all more : list A) (offset next : Z) (limit : nat) :
  0 ≤ offset → next = offset + Z.of_nat limit → next ≤ Z.of_nat (length all) →
  take limit (drop (Z.to_nat offset) all) ++ drop (Z.to_nat next) (all ++ more)
  = drop (Z.to_nat offset) (all ++ more).
Proof.
  intros Ho -> Hn. rewrite <- (take_drop limit (drop (Z.to_nat offset) (all ++ more))). f_equal.
  - rewrite drop_app_le, take_app_le by (rewrite ?length_drop; lia). done.
  - rewrite drop_drop. f_equal. lia.
Qed.

Lemma snapshots_prefix q (g : Growing R) :
  StronglySorted (appended_after q) (snapshots g) → Forall (apart q) (snapshots g) →
  StronglySorted (λ r r', results q r `prefix_of` results q r') (snapshots g).
Proof.
  generalize (snapshots g). induction 1 as [|r rs Hs IH Hr]; intros Ha; constructor.
  - apply IH. by apply Forall_cons in Ha as [_ ?].
  - apply Forall_cons in Ha as [_ Ha]. rewrite Forall_forall in Hr, Ha |- *.
    intros r' Hin. apply appended_prefix; auto.
Qed.

Lemma collect_growing (found : R → list LedgerEntryRecord) fuel query w offset :
  (∀ r, results (repository_query query) r = found r) →
  page_offset (qi_page_token query) = offset →
  Forall (readable (repository_query query)) (snapshots (w_repo w)) →
  StronglySorted (λ r r', found r `prefix_of` found r') (snapshots (w_repo w)) →
  Forall (λ r, Z.of_nat (length (found r)) ≤ i64_max
               ∧ (length (found r) - Z.to_nat offset < fuel)%nat) (snapshots (w_repo w)) →
  0 ≤ offset ≤ Z.of_nat (length (found (gr_now (w_repo w)))) →
  ∃ r w', r ∈ snapshots (w_repo w)
    ∧ collect_pages fuel query w = (Some (Ok (drop (Z.to_nat offset) (found r))), w').
Proof.
  revert query offset w. induction fuel as [|fuel IH];
    intros query offset w Hfound Hoff Hread Hpre Hlen Ho.
  { apply Forall_cons in Hlen as [[_ H] _]. lia. }
  destruct (turn_prefix _ _ Hpre) as [Hpre' Hnow]. apply prefix_length in Hnow as Hnow_len.
  pose proof (turn_forall _ _ Hread) as Hread'. pose proof (turn_forall _ _ Hlen) as Hlen'.
  pose proof Hread' as [Hr _]%Forall_cons. pose proof Hlen' as [[Hmax Hfuel] _]%Forall_cons.
  cbn [collect_pages]. unfold mbind_M at 1.
  rewrite (growing_page query offset w), Hfound by (done || lia).
  set (r := gr_now (gr_turn (w_repo w))) in *. set (all := found r) in *.
  set (page := take _ (drop _ all)).
  pose proof (page_limit_bounds (qi_page_size query)) as Hlim.
  assert (length page = Z.to_nat (page_limit (qi_page_size query))
          `min` (length all - Z.to_nat offset))%nat as Hpage
    by (unfold page; by rewrite length_take, length_drop).
  unfold next_page_token. unfold i64_max in *.
  rewrite usize_add_small by (unfold usize_max; lia). rewrite wrap_u_small by lia.
  destruct (Z.ltb_spec (offset + Z.of_nat (length page)) (Z.of_nat (length all))) as [Hlt|Hge].
  - set (next := offset + Z.of_nat (length page)) in *.
    destruct (IH (with_token (Some (int_to_string next)) query) next (later w))
      as (r' & w' & Hin & Hc); [| | |exact Hpre'| |split; [lia|apply Z.lt_le_incl, Hlt]|].
    + intros r'. rewrite <- Hfound.
      apply (results_page (page_limit (qi_page_size query)) _ (repository_query query)).
    + unfold page_offset. simpl. by rewrite parse_unsigned_to_string by (unfold usize_max; lia).
    + eapply Forall_impl; [exact Hread'|]. intros r'.
      apply (readable_page (page_limit (qi_page_size query)) _ (repository_query query)).
    + eapply Forall_impl; [exact Hlen'|]. simpl. intros r' [H1 H2]. split; [done|]. lia.
    + exists r', w'. split; [by apply turn_snapshots|]. unfold mbind_M. rewrite Hc.
      unfold ret. do 3 f_equal. destruct (turn_first _ _ _ Hpre' Hin) as [more ->]. fold r all.
      assert (next = offset + Z.of_nat (Z.to_nat (page_limit (qi_page_size query)))) as Hnext by lia.
      apply page_then_rest; [lia|exact Hnext|unfold all in *; lia].
  - exists r, (later w). split; [apply turn_snapshots; by left|].
    unfold ret. do 3 f_equal. fold all. apply take_ge. rewrite length_drop. lia.
Qed.
End PagedLemmas.

(** * Properties *)

Section Properties.
Context {P : Platform} {PL : PlatformLaws P}.
Context {R : Type} `{!LedgerRepository R, !PagedQueries R, !PagedQueriesLaws R}.
Implicit Types (w : World (Growing R)).

(** C23: paging next to writers is one query.  A client that starts without a token
    and follows [next_page_token], while entries are written between its pages,
    stops, and what it has collected is the answer to a single unlimited query at
    some moment in between: every row that matched then, each once, in order, the
    rows that matched at the start first.  This needs that the repository takes and
    answers the query in every state, of the rows written meanwhile that they come
    after the others in the order of the query, and that no two matching rows
    share a time and a position. *)
Theorem pages_next_to_writers (fuel : nat) (query : QueryEntriesInput) w :
  let q := repository_query query in
  let states := snapshots (w_repo w) in
  qi_page_token query = None →
  Forall (readable q) states → StronglySorted (appended_after q) states → Forall (apart q) states →
  Forall (λ r, Z.of_nat (length (results q r)) ≤ i64_max ∧ (length (results q r) < fuel)%nat) states →
  ∃ r w' collected, r ∈ states ∧ collect_pages fuel query w = (Some (Ok collected), w')
    ∧ collected ≡ₚ filter (λ e, selects q e = true) (rows r)
    ∧ StronglySorted (λ a b, in_order a b = true) collected
    ∧ results q (gr_now (w_repo w)) `prefix_of` collected.
Proof.
  intros q states Htok Hread Happ Hapart Hlen.
  pose proof (snapshots_prefix q (w_repo w) Happ Hapart) as Hpre.
  destruct (collect_growing (results q) fuel query w 0) as (r & w' & Hin & Hc).
  - done.
  - by rewrite Htok.
  - done.
  - done.
  - eapply Forall_impl; [exact Hlen|]. simpl. intros r [H1 H2]. split; [done|lia].
  - lia.
  - exists r, w', (results q r). split; [done|]. split; [exact Hc|].
    split; [apply results_rows|]. split; [apply results_sorted|by eapply turn_first].
Qed.
End Properties.

(** * Witness: an entry is written between two pages; and one that comes too early *)

#[local] Existing Instance Toy.platform.
#[local] Existing Instance Toy.laws.
#[local] Existing Instance ToyPg.server.
#[local] Existing Instance ToyPg.server_laws.

Definition demo_row (n : nat) (t agent : string) (position ts : Z) : LedgerEntryRecord := {|
  le_entry_id := uuid_v4 n; le_entry_type := t; le_agent_id := agent; le_content := [];
  le_content_type := "p"; le_source_id := "s"; le_correlation_id := None;
  le_idempotency_key := None; le_input_hash := None; le_writer_signature := None;
  le_signer_key_reference := None; le_attestation_report := None;
  le_hash_version := ENTRY_HASH_VERSION; le_entry_hash := agent; le_previous_hash := "g";
  le_chain_position := position; le_written_ts := ts
|}.

Definition demo_rows (l : list LedgerEntryRecord) : PostgresLedgerRepository :=
  {| pg_tables := {| tb_entries := l; tb_outbox := [] |}; pg_faults := []; pg_clock := 0 |}.

(** All entries, two to a page. *)
Definition demo_all : QueryEntriesInput := {|
  qi_entry_type := None; qi_agent_id := None; qi_source_id := None; qi_correlation_id := None;
  qi_from_ts := None; qi_to_ts := None; qi_page_size := 2; qi_page_token := None
|}.

Definition three_rows : list LedgerEntryRecord :=
  [demo_row 0 "t" "a" 1 1000; demo_row 1 "t" "b" 2 3000; demo_row 2 "t" "c" 3 5000].

(** The first page finds three rows; a fourth is there when the second is read. *)
Definition demo_growth (late : LedgerEntryRecord) : Growing PostgresLedgerRepository :=
  {| gr_now := demo_rows three_rows;
     gr_later := [demo_rows three_rows; demo_rows (three_rows ++ [late])] |}.

Definition collected_agents (late : LedgerEntryRecord) : list string :=
  match (collect_pages 5 demo_all (world_init (demo_growth late))).1 with
  | Some (Ok l) => map le_agent_id l
  | _ => []
  end.

(** An entry of another chain takes its time before it waits for its lock, so it may
    be stored after entries with later times.  A row before the page that was read
    last shifts the others: the client gets "b" twice and never sees "d". *)
Lemma early_row_repeats_another :
  collected_agents (demo_row 3 "u" "d" 1 7000) = ["a"; "b"; "c"; "d"]
  ∧ collected_agents (demo_row 3 "u" "d" 1 2000) = ["a"; "b"; "b"; "c"].
Proof. split; by_compute. Qed.

Lemma pages_next_to_writers_witness :
  ∃ w' collected, collect_pages 5 demo_all (world_init (demo_growth (demo_row 3 "u" "d" 1 7000)))
                  = (Some (Ok collected), w')
    ∧ results (repository_query demo_all) (demo_rows three_rows) `prefix_of` collected.
Proof.
  destruct (pages_next_to_writers 5 demo_all (world_init (demo_growth (demo_row 3 "u" "d" 1 7000))))
    as (r & w' & collected & _ & H1 & _ & _ & H2).
  - reflexivity.
  - repeat constructor.
  - assert (∀ r : PostgresLedgerRepository, appended_after (repository_query demo_all) r r) as Hsame.
    { intros r. exists []. split; [rewrite app_nil_r; reflexivity|].
      intros a b _ H. apply not_elem_of_nil in H as []. }
    assert (appended_after (repository_query demo_all) (demo_rows three_rows)
              (demo_rows (three_rows ++ [demo_row 3 "u" "d" 1 7000]))) as Hnew.
    { exists [demo_row 3 "u" "d" 1 7000]. split; [reflexivity|].
      intros a b Ha Hb _ _. apply list_elem_of_singleton in Hb as ->.
      repeat (apply elem_of_cons in Ha as [->|Ha]; [reflexivity|]). apply not_elem_of_nil in Ha as []. }
    repeat constructor; first [apply Hsame|apply Hnew].
  - repeat apply Forall_cons_2; [..|constructor]; intros a b Ha Hb _ _ H1 H2;
      repeat (apply elem_of_cons in Ha as [->|Ha]; [repeat (apply elem_of_cons in Hb as [->|Hb];
        [first [reflexivity|discriminate H1|discriminate H2]|]); apply not_elem_of_nil in Hb as []|]);
      apply not_elem_of_nil in Ha as [].
  - repeat apply Forall_cons_2; [..|constructor]; (split; [apply Z.leb_le|apply Nat.ltb_lt]; by_compute).
  - exists w', collected. split; [exact H1|exact H2].
Defined.
