(* ===== verification/PostgresOutbox.v ===== *)
(** * Delivery from the outbox of [src/repository/postgres.rs]

    Outbox models a round of the processor of [src/service/mod.rs] that runs alone.
    Here the same loop is cut at its [await] points ([outbox_advance]), and any
    number of processors - of this process, of another one, of one that was killed
    and started again - share the tables with the writers ([server_step]), while
    the database fails as it likes.  The log of the deliveries made so far is kept
    next to them.  [delivery_ok] is the invariant, [outbox_at_least_once] what the
    README promises of it, and [healthy_round_delivers] what one round does when
    nothing fails. *)

From Stdlib Require Import String Strings.Byte ZArith Lia.
From stdpp Require Import base tactics numbers strings list gmap sorting relations.
From S2P Require Import Prelude Platform Crypto Repository Postgres Config World Service.
From S2P Require Import LedgerSpec PostgresLaws PostgresService PostgresSchema Outbox.

Section Processors.
Context {P : Platform} {R Pub : Type} `{!LedgerRepository R, !EventPublisher Pub}.

(** Where a processor is: between two rounds, in the [for] loop with the records
    that remain, or inside [publish_one] before one of its updates. *)
Inductive OutboxPhase : Type :=
| Polling
| Publishing (records : list OutboxRecord)
| Marking (record : OutboxRecord) (rest : list OutboxRecord)
| Counting (record : OutboxRecord) (err : string) (rest : list OutboxRecord)
| GivingUp (record : OutboxRecord) (err : string) (rest : list OutboxRecord).

(** The end of the loop's body. *)
Definition settle (answer : result unit ServiceError) (rest : list OutboxRecord) (pub : Pub)
    : M R (OutboxPhase * Pub) :=
  let! _ := count_outbox_failure answer in ret (Publishing rest, pub).

(** The code from one [await] to the next. *)
Definition outbox_advance (max_retries : Z) (phase : OutboxPhase) (pub : Pub)
    : M R (OutboxPhase * Pub) :=
  match phase with
  | Polling =>
      let! pending := call pending_outbox in
      match pending with
      | Err _ => let! _ := sleep 500 in ret (Polling, pub)
      | Ok records => ret (Publishing records, pub)
      end
  | Publishing [] => let! _ := sleep 500 in ret (Polling, pub)
  | Publishing (record :: rest) =>
      let '(published, pub') := publish record pub in
      ret (match published with
           | Ok _ => Marking record rest
           | Err err => Counting record err rest
           end, pub')
  | Marking record rest =>
      let! marked := call (mark_outbox_delivered (ob_outbox_id record)) in
      settle (map_err map_repo marked) rest pub
  | Counting record err rest =>
      let! _ := call (increment_outbox_attempt (ob_outbox_id record)) in
      let next_attempt := i32_add (ob_attempt_count record) 1 in
      if wrap_i 32 max_retries <=? next_attempt then ret (GivingUp record err rest, pub)
      else
        let! _ := sleep (outbox_backoff next_attempt) in
        settle (Err (SInternal err)) rest pub
  | GivingUp record err rest =>
      let! _ := call (mark_outbox_failed (ob_outbox_id record)) in
      settle (Err (SInternal err)) rest pub
  end.

Fixpoint outbox_turns (n : nat) (max_retries : Z) (phase : OutboxPhase) (pub : Pub)
    : M R (OutboxPhase * Pub) :=
  match n with
  | O => ret (phase, pub)
  | S n' =>
      let! next := outbox_advance max_retries phase pub in
      outbox_turns n' max_retries next.1 next.2
  end.

(** ** Processors and writers over one repository *)

Record OutboxProcessor := { pr_phase : OutboxPhase; pr_pub : Pub }.

Record OutboxServer := {
  os_world : World R;
  os_processors : list OutboxProcessor;
  os_log : list (OutboxRecord * bool)     (* every delivery tried, and was it accepted *)
}.

(** The delivery a step of the processor makes. *)
Definition deliveries (p : OutboxProcessor) : list (OutboxRecord * bool) :=
  match pr_phase p with
  | Publishing (record :: _) => [(record, is_ok (publish record (pr_pub p)).1)]
  | _ => []
  end.

Definition with_processor (i : nat) (p : OutboxProcessor) (c : OutboxServer) : OutboxServer :=
  {| os_world := os_world c; os_processors := <[i := p]> (os_processors c); os_log := os_log c |}.

Inductive server_step (max_retries : Z) : OutboxServer → OutboxServer → Prop :=
| os_advance c i p phase pub w :
    os_processors c !! i = Some p →
    outbox_advance max_retries (pr_phase p) (pr_pub p) (os_world c) = ((phase, pub), w) →
    server_step max_retries c
      {| os_world := w;
         os_processors := <[i := {| pr_phase := phase; pr_pub := pub |}]> (os_processors c);
         os_log := os_log c ++ deliveries p |}
| os_start c pub :                        (* another process *)
    server_step max_retries c
      {| os_world := os_world c;
         os_processors := os_processors c ++ [{| pr_phase := Polling; pr_pub := pub |}];
         os_log := os_log c |}
| os_restart c i p :                      (* killed at an [await], and started again *)
    os_processors c !! i = Some p →
    server_step max_retries c
      (with_processor i {| pr_phase := Polling; pr_pub := pr_pub p |} c)
| os_network c i p pub :                  (* the endpoint changes *)
    os_processors c !! i = Some p →
    server_step max_retries c
      (with_processor i {| pr_phase := pr_phase p; pr_pub := pub |} c)
| os_write c input :                      (* a writer *)
    server_step max_retries c
      {| os_world := (call_write input (os_world c)).2; os_processors := os_processors c;
         os_log := os_log c |}.
End Processors.
Arguments server_step {P R Pub _ _} max_retries.
Arguments OutboxServer {P} R Pub.
Arguments OutboxProcessor {P} Pub.

(** ** What the log explains *)

Section Explained.
Context {P : Platform}.

Definition same_event (r : OutboxRow) (record : OutboxRecord) : Prop :=
  or_outbox_id r = ob_outbox_id record ∧ or_entry_id r = ob_entry_id record
  ∧ or_entry_type r = ob_entry_type record ∧ or_payload r = ob_payload record.

(** How often the event was refused. *)
Definition refusals (id : Uuid) (log : list (OutboxRecord * bool)) : Z :=
  Z.of_nat (length (filter (λ d, ob_outbox_id d.1 = id ∧ d.2 = false) log)).

Record outbox_explained (max_retries : Z) (log : list (OutboxRecord * bool)) (tb : PgTables)
    : Prop := {
  oe_schema : schema_ok tb;
  oe_delivered : ∀ r, r ∈ tb_outbox tb → or_status r = "DELIVERED" →
    ∃ record, (record, true) ∈ log ∧ same_event r record;
  oe_failed : ∀ r, r ∈ tb_outbox tb → or_status r = "FAILED" →
    max_retries ≤ refusals (or_outbox_id r) log;
  oe_attempts : ∀ r, r ∈ tb_outbox tb → or_attempt_count r ≤ refusals (or_outbox_id r) log;
  oe_log : ∀ d, d ∈ log → ∃ r, r ∈ tb_outbox tb ∧ same_event r d.1
}.
End Explained.

(** * Lemmas *)

(** ** A processor left alone runs the rounds of Outbox *)

Section Alone.
Context {P : Platform} {R Pub : Type} `{!LedgerRepository R, !EventPublisher Pub}.
Implicit Types (w : World R) (pub : Pub) (record : OutboxRecord).

Lemma outbox_turns_app n m max phase pub w :
  outbox_turns (n + m) max phase pub w
  = let '(next, w') := outbox_turns n max phase pub w in outbox_turns m max next.1 next.2 w'.
Proof.
  revert phase pub w. induction n as [|n IH]; intros phase pub w; [done|].
  simpl. unfold mbind_M. by destruct (outbox_advance max phase pub w) as [[phase' pub'] w'].
Qed.

Ltac run_turns Hp :=
  cbn [outbox_turns]; run_M; unfold outbox_advance; rewrite Hp; cbn [fst snd];
  unfold settle, call; run_M; cbn [fst snd].

(** The turns of one [publish_one]. *)
Lemma publish_one_turns max record rest pub w :
  ∃ n, (n ≤ 3)%nat ∧ outbox_turns n max (Publishing (record :: rest)) pub w
  = let '(answer, w1) := publish_one record max pub w in
    let '(_, w2) := count_outbox_failure answer.1 w1 in ((Publishing rest, answer.2), w2).
Proof.
  unfold publish_one. destruct (publish record pub) as [[[]|err] pub'] eqn:Hp.
  - exists 2%nat. split; [lia|]. run_turns Hp. destruct (mark_outbox_delivered _ _) as [res r].
    by destruct (count_outbox_failure _ _) as [[] w2].
  - destruct (wrap_i 32 max <=? i32_add (ob_attempt_count record) 1) eqn:Hlim.
    + exists 3%nat. split; [lia|]. run_turns Hp. destruct (increment_outbox_attempt _ _) as [res r].
      rewrite Hlim. simpl. by destruct (mark_outbox_failed _ _) as [res' r'].
    + exists 2%nat. split; [lia|]. run_turns Hp. destruct (increment_outbox_attempt _ _) as [res r].
      by rewrite Hlim.
Qed.

Lemma publish_all_turns max records pub w :
  ∃ n, (n ≤ 3 * length records)%nat ∧ outbox_turns n max (Publishing records) pub w
  = let '(pub', w') := publish_all records max pub w in ((Publishing [], pub'), w').
Proof.
  revert pub w. induction records as [|record records IH]; intros pub w; [by exists 0%nat|].
  destruct (publish_one_turns max record records pub w) as (n & Hn & H1).
  cbn [publish_all]. unfold mbind_M. destruct (publish_one record max pub w) as [[answer pub'] w1].
  simpl in *. destruct (count_outbox_failure answer w1) as [[] w2].
  destruct (IH pub' w2) as (m & Hm & H2). exists (n + m)%nat. split; [lia|].
  rewrite outbox_turns_app, H1. simpl. exact H2.
Qed.
End Alone.

(** ** What an update of the outbox does, whatever the server does *)

Section Updates.
Context {P : Platform} {G : PgPlatform}.
Implicit Types (tb : PgTables) (r : OutboxRow) (op : OutboxOp) (db : PostgresLedgerRepository).

Definition op_id op : Uuid :=
  match op with MarkDelivered id | IncrementAttempt id | MarkFailed id => id end.

(** What becomes of a row that the update applies to. *)
Definition op_row op (now : Z) r : OutboxRow :=
  match op with
  | MarkDelivered _ => if String.eqb (or_status r) "PENDING" then row_status "DELIVERED" r else r
  | IncrementAttempt _ => row_attempt now r
  | MarkFailed _ => row_status "FAILED" r
  end.

Definition op_rows op (now : Z) (rows : list OutboxRow) : list OutboxRow :=
  map (λ r, if bool_decide (or_outbox_id r = op_id op) then op_row op now r else r) rows.

(** The table is as it was, or the update was carried out. *)
Definition op_effect op tb tb' : Prop :=
  tb_outbox tb' = tb_outbox tb ∨ ∃ now, tb_outbox tb' = op_rows op now (tb_outbox tb).

Lemma update_effect op now (statement : PgTables → result (nat * PgTables) DbError) db :
  (∀ tb n tb', statement tb = Ok (n, tb') → tb_outbox tb' = op_rows op now (tb_outbox tb)) →
  op_effect op (pg_tables db) (pg_tables ((sql? n := pg_execute statement in updated n) db).2).
Proof.
  intros Hs. unfold pg_try, pg_execute, updated, pg_ret.
  destruct (next_fault db) as [f db'] eqn:E. apply next_fault_untouched in E as [[Ht _] _].
  rewrite <- Ht. destruct f; simpl; [|by left|];
    (destruct (statement (pg_tables db')) as [[n tables]|] eqn:Hst; [|by left];
     right; exists now; by apply Hs in Hst).
Qed.

Lemma pool_get_effect {B} op (k : Pg (result B RepositoryError)) db :
  (∀ db', op_effect op (pg_tables db') (pg_tables (k db').2)) →
  op_effect op (pg_tables db) (pg_tables ((sql? _ := pool_get in k) db).2).
Proof.
  intros Hk. unfold pg_try. pose proof (reads_pg_read (λ _, Ok tt) db) as [Ht _].
  unfold pool_get. destruct (pg_read _ db) as [[[]|e] db1]; simpl in *; rewrite <- Ht;
    [apply Hk|by left].
Qed.

Lemma op_rows_ext op now (keep : OutboxRow → bool) (set : OutboxRow → OutboxRow) rows :
  (∀ r : OutboxRow, (if keep r then set r else r)
        = (if bool_decide (or_outbox_id r = op_id op) then op_row op now r else r)) →
  map (λ r, if keep r then set r else r) rows = op_rows op now rows.
Proof. intros H. by apply map_ext. Qed.

Lemma outbox_op_effect op db : op_effect op (pg_tables db) (pg_tables (run_outbox_op op db).2).
Proof.
  destruct op as [id|id|id]; apply pool_get_effect; intros db'.
  - apply (update_effect _ 0). intros tb n tb' [= _ <-]. apply op_rows_ext.
    intros r. simpl. by destruct (bool_decide _), (String.eqb _ _).
  - apply (update_effect (IncrementAttempt id) (pg_now (pg_clock db')) _ (tick_now db')).
    intros tb n tb'. cbv zeta. destruct (existsb _ _); [done|]. intros [= _ <-].
    by apply op_rows_ext.
  - apply (update_effect _ 0). intros tb n tb' [= _ <-]. by apply op_rows_ext.
Qed.

(** Row by row: the same row, or the update's. *)
Lemma outbox_op_row op db r' :
  r' ∈ tb_outbox (pg_tables (run_outbox_op op db).2) →
  ∃ r, r ∈ tb_outbox (pg_tables db)
    ∧ (r' = r ∨ or_outbox_id r = op_id op ∧ ∃ now, r' = op_row op now r).
Proof.
  destruct (outbox_op_effect op db) as [->|[now ->]]; [eauto|].
  intros (r & -> & Hr)%list_elem_of_fmap. exists r. split; [done|].
  destruct (bool_decide _) eqn:Hid; [|by left]. apply bool_decide_eq_true in Hid. eauto.
Qed.
End Updates.

(** ** The invariant *)

Section Invariant.
Context {P : Platform} {Pub : Type}.
Implicit Types (tb : PgTables) (r : OutboxRow) (record : OutboxRecord) (p : OutboxProcessor Pub)
  (log : list (OutboxRecord * bool)) (id : Uuid).

(** A record a processor holds: its event is stored, and its count was true once. *)
Definition known tb log record : Prop :=
  (∃ r, r ∈ tb_outbox tb ∧ same_event r record)
  ∧ 0 ≤ ob_attempt_count record ≤ refusals (ob_outbox_id record) log
  ∧ ob_attempt_count record ≤ i32_max.

Definition phase_known (max : Z) tb log (phase : OutboxPhase) : Prop :=
  match phase with
  | Polling => True
  | Publishing records => Forall (known tb log) records
  | Marking record rest => (record, true) ∈ log ∧ Forall (known tb log) rest
  | Counting record _ rest =>
      ob_attempt_count record + 1 ≤ refusals (ob_outbox_id record) log
      ∧ 0 ≤ ob_attempt_count record ≤ i32_max ∧ Forall (known tb log) rest
  | GivingUp record _ rest =>
      max ≤ refusals (ob_outbox_id record) log ∧ Forall (known tb log) rest
  end.

(** A refusal that the processor has not counted yet. *)
Definition owes id p : bool :=
  match pr_phase p with
  | Counting record _ _ => bool_decide (ob_outbox_id record = id)
  | _ => false
  end.

Definition owed id (procs : list (OutboxProcessor Pub)) : Z :=
  Z.of_nat (length (filter (λ p, owes id p = true) procs)).

Record delivery_ok (max : Z) log (procs : list (OutboxProcessor Pub)) tb : Prop := {
  dk_explained : outbox_explained max log tb;
  dk_owed : ∀ id, owed id procs ≤ refusals id log;
  dk_counts : ∀ r, r ∈ tb_outbox tb →
    or_attempt_count r + owed (or_outbox_id r) procs ≤ refusals (or_outbox_id r) log;
  dk_phases : Forall (λ p, phase_known max tb log (pr_phase p)) procs
}.

(** *** The log grows, events stay *)

Definition events_kept tb tb' : Prop :=
  ∀ r record, r ∈ tb_outbox tb → same_event r record →
    ∃ r', r' ∈ tb_outbox tb' ∧ same_event r' record.

Lemma refusals_app id log ds : refusals id (log ++ ds) = refusals id log + refusals id ds.
Proof. unfold refusals. rewrite filter_app, length_app. lia. Qed.

Lemma refusals_grow id log ds : refusals id log ≤ refusals id (log ++ ds).
Proof. rewrite refusals_app. unfold refusals. lia. Qed.

Lemma known_grow tb tb' log ds record :
  events_kept tb tb' → known tb log record → known tb' (log ++ ds) record.
Proof.
  intros Hk [(r & Hr & Hs) [[H0 H1] H2]]. split; [by eapply Hk|]. split; [|done].
  pose proof (refusals_grow (ob_outbox_id record) log ds). lia.
Qed.

Lemma phase_known_grow max tb tb' log ds phase :
  events_kept tb tb' → phase_known max tb log phase → phase_known max tb' (log ++ ds) phase.
Proof.
  intros Hk. assert (∀ records, Forall (known tb log) records → Forall (known tb' (log ++ ds)) records).
  { intros records Hall. eapply Forall_impl; [exact Hall|]. intros record. by apply known_grow. }
  destruct phase as [|records|record rest|record err rest|record err rest]; simpl; [done|auto|..].
  - intros [? ?]. split; [apply elem_of_app; by left|auto].
  - pose proof (refusals_grow (ob_outbox_id record) log ds). intros (? & ? & ?).
    split; [lia|auto].
  - pose proof (refusals_grow (ob_outbox_id record) log ds). intros [? ?]. split; [lia|auto].
Qed.

Lemma owed_insert id procs i p p' :
  procs !! i = Some p →
  owed id (<[i := p']> procs) = owed id procs - Z.b2z (owes id p) + Z.b2z (owes id p').
Proof.
  intros Hi. apply lookup_lt_Some in Hi as Hlt. unfold owed.
  rewrite insert_take_drop by done.
  pose proof (f_equal (λ l, length (filter (λ p, owes id p = true) l)) (take_drop_middle procs i p Hi))
    as Hm. simpl in Hm. rewrite <- Hm, !filter_app, !length_app, !filter_cons.
  destruct (owes id p), (owes id p'); simpl; lia.
Qed.

Lemma owed_snoc id procs pub :
  owed id (procs ++ [{| pr_phase := Polling; pr_pub := pub |}]) = owed id procs.
Proof. unfold owed. rewrite filter_app, length_app. simpl. lia. Qed.

Lemma dk_attempts_pos max log procs tb r :
  delivery_ok max log procs tb → r ∈ tb_outbox tb → 0 ≤ or_attempt_count r ≤ i32_max.
Proof.
  intros [[Hsc _ _ _ _] _ _ _] Hr. pose proof (sc_outbox _ Hsc r Hr) as Ht.
  unfold event_typed in Ht. rewrite !andb_true_iff, !Z.leb_le in Ht. lia.
Qed.

(** A step that leaves the tables and the log alone. *)
Lemma dk_same max log procs tb i p p' :
  delivery_ok max log procs tb → procs !! i = Some p →
  (∀ id, owes id p' = false) → phase_known max tb log (pr_phase p') →
  delivery_ok max log (<[i := p']> procs) tb.
Proof.
  intros [He Ho Hc Hp] Hi Howe Hph. split; [done|..].
  - intros id. rewrite (owed_insert _ _ _ _ _ Hi), Howe. specialize (Ho id).
    destruct (owes _ p); simpl; lia.
  - intros r Hr. rewrite (owed_insert _ _ _ _ _ Hi), Howe. specialize (Hc r Hr).
    destruct (owes _ p); simpl; lia.
  - by apply Forall_insert.
Qed.
End Invariant.

(** ** Every step keeps the invariant *)

Section Preserved.
Context {P : Platform} {PL : PlatformLaws P} {G : PgPlatform} {GL : PgLaws G} {Pub : Type}.
Context `{!EventPublisher Pub}.
Implicit Types (tb : PgTables) (r : OutboxRow) (record : OutboxRecord) (p : OutboxProcessor Pub)
  (log : list (OutboxRecord * bool)) (id : Uuid) (db : PostgresLedgerRepository).

Lemma events_kept_refl tb : events_kept tb tb.
Proof. intros r record Hr Hs. eauto. Qed.

Lemma events_kept_op op db : events_kept (pg_tables db) (pg_tables (run_outbox_op op db).2).
Proof.
  destruct (outbox_op_step op db) as [_ Hs]. intros r record Hr (S1 & S2 & S3 & S4).
  apply list_elem_of_lookup_1 in Hr as [k Hk].
  destruct (Forall2_lookup_l _ _ _ _ _ Hs Hk) as (r' & Hk' & Hrow).
  destruct (rs_event _ _ Hrow) as (E1 & E2 & E3 & E4 & _). exists r'.
  split; [by apply (list_elem_of_lookup_2 _ k)|]. unfold same_event. by rewrite E1, E2, E3, E4.
Qed.

Lemma refusals_one id record (b : bool) :
  refusals id [(record, b)] = Z.b2z (negb b && bool_decide (ob_outbox_id record = id)).
Proof.
  unfold refusals. rewrite filter_cons. simpl.
  destruct b; simpl; case_decide as H; destruct_and?; [done|done| |].
  - by rewrite bool_decide_true.
  - rewrite bool_decide_false; [done|]. naive_solver.
Qed.

(** A delivery is tried. *)
Lemma dk_publish max log procs tb i p p' record rest (b : bool) err :
  delivery_ok max log procs tb → procs !! i = Some p →
  pr_phase p = Publishing (record :: rest) →
  pr_phase p' = (if b then Marking record rest else Counting record err rest) →
  delivery_ok max (log ++ [(record, b)]) (<[i := p']> procs) tb.
Proof.
  intros [[Hsc Hd Hf Ha Hl] Ho Hc Hp] Hi Hph Hph'.
  pose proof (Forall_lookup_1 _ _ _ _ Hp Hi) as Hk. cbv beta in Hk. rewrite Hph in Hk.
  simpl in Hk.
  apply Forall_cons in Hk as [[Hev Hcount] Hrest].
  assert (Forall (known tb (log ++ [(record, b)])) rest) as Hrest'.
  { eapply Forall_impl; [exact Hrest|]. intros x. apply known_grow, events_kept_refl. }
  assert (∀ id, refusals id (log ++ [(record, b)])
                = refusals id log - Z.b2z (owes id p) + Z.b2z (owes id p')) as Href.
  { intros id. rewrite refusals_app, refusals_one. unfold owes. rewrite Hph, Hph'.
    destruct b; simpl; lia. }
  split; [split; [done|..]|..].
  - intros r Hr Hst. destruct (Hd r Hr Hst) as (x & Hx & Hs). exists x.
    split; [apply elem_of_app; by left|done].
  - intros r Hr Hst. specialize (Hf r Hr Hst).
    pose proof (refusals_grow (or_outbox_id r) log [(record, b)]). lia.
  - intros r Hr. specialize (Ha r Hr).
    pose proof (refusals_grow (or_outbox_id r) log [(record, b)]). lia.
  - intros d [Hdl| ->%list_elem_of_singleton]%elem_of_app; [by apply Hl|done].
  - intros id. specialize (Ho id). rewrite (owed_insert _ _ _ _ _ Hi), Href. lia.
  - intros r Hr. specialize (Hc r Hr). rewrite (owed_insert _ _ _ _ _ Hi), Href. lia.
  - apply Forall_insert.
    + eapply Forall_impl; [exact Hp|]. intros q. apply phase_known_grow, events_kept_refl.
    + rewrite Hph'. destruct b; simpl.
      * split; [apply elem_of_app; right; by left|done].
      * rewrite refusals_app, refusals_one. simpl. rewrite bool_decide_true by done. simpl.
        split; [lia|split; [lia|done]].
Qed.

(** The update a processor is about to ask for. *)
Definition phase_op (phase : OutboxPhase) : option OutboxOp :=
  match phase with
  | Polling | Publishing _ => None
  | Marking record _ => Some (MarkDelivered (ob_outbox_id record))
  | Counting record _ _ => Some (IncrementAttempt (ob_outbox_id record))
  | GivingUp record _ _ => Some (MarkFailed (ob_outbox_id record))
  end.

Lemma op_row_event op now r record : same_event (op_row op now r) record ↔ same_event r record.
Proof. destruct op; simpl; [destruct (String.eqb _ _)|..]; done. Qed.

(** What the update may write, the log explains. *)
Lemma op_row_explained max log procs tb p op now r :
  delivery_ok max log procs tb → p ∈ procs → phase_op (pr_phase p) = Some op →
  r ∈ tb_outbox tb → or_outbox_id r = op_id op →
  (or_status (op_row op now r) = "DELIVERED" →
     ∃ record, (record, true) ∈ log ∧ same_event r record)
  ∧ (or_status (op_row op now r) = "FAILED" → max ≤ refusals (or_outbox_id r) log)
  ∧ or_attempt_count (op_row op now r) ≤ or_attempt_count r + Z.b2z (owes (or_outbox_id r) p).
Proof.
  intros [[Hsc Hd Hf Ha Hl] Ho Hc Hp] Hin Hop Hr Hid.
  pose proof (proj1 (Forall_forall _ _) Hp p Hin) as Hk. simpl in Hk.
  destruct (pr_phase p) as [|records|record rest|record err rest|record err rest] eqn:Hph;
    try done; injection Hop as <-; simpl in *; unfold owes; rewrite Hph; simpl.
  - destruct Hk as [Hlog _]. destruct (String.eqb _ _) eqn:Hpend; simpl;
      [|split; [by apply Hd|split; [by apply Hf|lia]]].
    split; [|split; [done|lia]]. intros _. exists record. split; [done|].
    destruct (Hl _ Hlog) as (r0 & Hr0 & Hs). simpl in Hs.
    by rewrite (nodup_fmap_unique or_outbox_id _ r r0 (sc_outbox_ids _ Hsc) Hr Hr0)
      by (rewrite Hid; symmetry; apply Hs).
  - split; [by apply Hd|]. split; [by apply Hf|]. rewrite bool_decide_true by done. simpl. lia.
  - destruct Hk as [Hlog _]. split; [done|]. split; [by rewrite Hid|lia].
Qed.

Lemma dk_op max log procs db i p p' op :
  delivery_ok max log procs (pg_tables db) → procs !! i = Some p →
  phase_op (pr_phase p) = Some op →
  (∀ id, owes id p' = false) → phase_known max (pg_tables db) log (pr_phase p') →
  delivery_ok max log (<[i := p']> procs) (pg_tables (run_outbox_op op db).2).
Proof.
  intros Hok Hi Hop Howe Hph'.
  pose proof (events_kept_op op db) as Hev.
  pose proof (list_elem_of_lookup_2 _ _ _ Hi) as Hin.
  pose proof Hok as [[Hsc Hd Hf Ha Hl] Ho Hc Hp].
  pose proof (op_row_explained max log procs (pg_tables db) p op) as Hrow.
  assert (∀ r', r' ∈ tb_outbox (pg_tables (run_outbox_op op db).2) →
    (or_status r' = "DELIVERED" → ∃ record, (record, true) ∈ log ∧ same_event r' record)
    ∧ (or_status r' = "FAILED" → max ≤ refusals (or_outbox_id r') log)
    ∧ or_attempt_count r' + owed (or_outbox_id r') (<[i := p']> procs)
      ≤ refusals (or_outbox_id r') log) as Hrows.
  { intros r' (r & Hr & Hcase)%outbox_op_row. rewrite (owed_insert _ _ _ _ _ Hi), Howe.
    destruct Hcase as [->|(Hid & now & ->)].
    - split; [by apply Hd|]. split; [by apply Hf|]. specialize (Hc r Hr).
      destruct (owes _ p); simpl; lia.
    - destruct (Hrow now r Hok Hin Hop Hr Hid) as (H1 & H2 & H3). specialize (Hc r Hr).
      assert (or_outbox_id (op_row op now r) = or_outbox_id r) as ->
        by (destruct op; simpl; [by destruct (String.eqb _ _)|done..]).
      split; [|split; [done|simpl; lia]]. intros Hst. destruct (H1 Hst) as (x & Hx & Hs).
      exists x. split; [done|]. by apply op_row_event. }
  split; [split|..].
  - by apply outbox_op_schema.
  - intros r' Hr'. by apply Hrows.
  - intros r' Hr'. by apply Hrows.
  - intros r' Hr'. destruct (Hrows r' Hr') as (_ & _ & H). revert H. unfold owed. lia.
  - intros d Hdl. destruct (Hl d Hdl) as (r & Hr & Hs). by apply (Hev r).
  - intros id. rewrite (owed_insert _ _ _ _ _ Hi), Howe. specialize (Ho id).
    destruct (owes _ p); simpl; lia.
  - intros r' Hr'. by apply Hrows.
  - rewrite <- (app_nil_r log). apply Forall_insert; [|by eapply phase_known_grow].
    eapply Forall_impl; [exact Hp|]. intros q. by eapply phase_known_grow.
Qed.

(** *** Polling *)

Definition pending_rows tb : list OutboxRow :=
  stable_sort created_order (pg_scan (filter (λ r, or_status r = "PENDING") (tb_outbox tb))).

Lemma elem_of_pending_rows tb r :
  r ∈ pending_rows tb ↔ r ∈ tb_outbox tb ∧ or_status r = "PENDING".
Proof.
  unfold pending_rows. rewrite stable_sort_perm, pg_scan_perm, list_elem_of_filter. naive_solver.
Qed.

Lemma pg_pending_cases db :
  let '(res, db') := pg_pending_outbox db in
  pg_tables db' = pg_tables db
  ∧ match res with
    | Ok records => records = map map_outbox_row (pending_rows (pg_tables db))
    | Err _ => True
    end.
Proof.
  unfold pg_pending_outbox, pool_get, pg_try, pg_read, pg_ret.
  destruct (next_fault db) as [f1 db1] eqn:E1. apply next_fault_untouched in E1 as [[H1 _] _].
  destruct f1; [|done|done].
  destruct (next_fault db1) as [f2 db2] eqn:E2. apply next_fault_untouched in E2 as [[H2 _] _].
  destruct f2; simpl; rewrite H2, H1; done.
Qed.

Lemma pending_known max log (procs : list (OutboxProcessor Pub)) tb :
  delivery_ok max log procs tb →
  Forall (known tb log) (map map_outbox_row (pending_rows tb)).
Proof.
  intros Hok. apply Forall_fmap, Forall_forall. intros r [Hr _]%elem_of_pending_rows. simpl.
  pose proof (dk_attempts_pos _ _ _ _ _ Hok Hr). pose proof (oe_attempts _ _ _ (dk_explained _ _ _ _ Hok) r Hr).
  split; [by exists r|]. simpl. lia.
Qed.

(** *** A write *)

Lemma committed_rows tb tb' input e n :
  committed tb tb' input e n →
  tb_outbox tb' = tb_outbox tb
  ∨ ∃ r, tb_outbox tb' = tb_outbox tb ++ [r] ∧ or_status r = "PENDING" ∧ or_attempt_count r = 0.
Proof.
  intros (tb1 & Hins & Hout). unfold insert_entry in Hins.
  destruct (entry_columns e) as [row|]; [|done]. destruct (negb _); [done|].
  destruct (entry_violation _ _); [done|]. injection Hins as <-.
  destruct (ew_create_outbox input); [|subst; by left].
  destruct Hout as (payload & now & Hout). unfold insert_outbox in Hout. simpl in Hout.
  destruct (varchar 255 (ew_entry_type input)); [|done]. destruct (jsonb_text payload); [|done].
  destruct (existsb _ _); [done|]. injection Hout as <-. right. by eexists.
Qed.

Lemma write_rows input n db :
  let tb' := pg_tables (pg_write_entry_with_outbox input n db).2 in
  tb_outbox tb' = tb_outbox (pg_tables db)
  ∨ ∃ r, tb_outbox tb' = tb_outbox (pg_tables db) ++ [r] ∧ or_status r = "PENDING"
         ∧ or_attempt_count r = 0.
Proof.
  pose proof (pg_write_outcome db input n) as Hw.
  destruct (pg_write_entry_with_outbox input n db) as [[res n'] db']. simpl.
  destruct res as [out|x]; [destruct Hw as [Hw _]; by eapply committed_rows|].
  destruct x; try (rewrite Hw; by left).
  destruct Hw as [->|(_ & position & Hc)]; [by left|by eapply committed_rows].
Qed.

Lemma dk_write max log (procs : list (OutboxProcessor Pub)) input n db :
  delivery_ok max log procs (pg_tables db) →
  delivery_ok max log procs (pg_tables (pg_write_entry_with_outbox input n db).2).
Proof.
  intros [[Hsc Hd Hf Ha Hl] Ho Hc Hp]. pose proof (write_schema input n db Hsc) as Hsc'.
  destruct (write_rows input n db) as [Hr|(r & Hr & Hst & Hz)].
  - split; [split|..]; rewrite ?Hr; try done.
    eapply Forall_impl; [exact Hp|]. intros p Hph. rewrite <- (app_nil_r log).
    eapply phase_known_grow; [|exact Hph]. intros r0 record Hr0 Hs. rewrite Hr. eauto.
  - assert (∀ x, x ∈ tb_outbox (pg_tables db) ++ [r] →
      x ∈ tb_outbox (pg_tables db) ∨ or_status x = "PENDING" ∧ or_attempt_count x = 0) as Hin.
    { intros x [Hx| ->%list_elem_of_singleton]%elem_of_app; auto. }
    assert (∀ id, 0 ≤ owed id procs) as Hpos by (intros id; unfold owed; lia).
    split; [split|..]; rewrite ?Hr; try done.
    + intros x [Hx|[Hx _]]%Hin; [by apply Hd|]. rewrite Hx. done.
    + intros x [Hx|[Hx _]]%Hin; [by apply Hf|]. rewrite Hx. done.
    + intros x [Hx|[_ Hx]]%Hin; [by apply Ha|].
      specialize (Ho (or_outbox_id x)). specialize (Hpos (or_outbox_id x)). lia.
    + intros d Hdl. destruct (Hl d Hdl) as (r0 & Hr0 & Hs). exists r0.
      split; [apply elem_of_app; by left|done].
    + intros x [Hx|[_ Hx]]%Hin; [by apply Hc|]. rewrite Hx. apply Ho.
    + eapply Forall_impl; [exact Hp|]. intros p Hph. rewrite <- (app_nil_r log).
      eapply phase_known_grow; [|exact Hph]. intros r0 record Hr0 Hs. rewrite Hr.
      exists r0. split; [apply elem_of_app; by left|done].
Qed.
End Preserved.

(** ** The steps of the processors over PostgreSQL *)

Section Steps.
Context {P : Platform} {PL : PlatformLaws P} {G : PgPlatform} {GL : PgLaws G} {Pub : Type}.
Context `{!EventPublisher Pub}.
Context (max : Z) (Hmax : 1 ≤ max ≤ i32_max).
Implicit Types (p : OutboxProcessor Pub) (w : World PostgresLedgerRepository)
  (c : OutboxServer PostgresLedgerRepository Pub).

Definition os_tables c : PgTables := pg_tables (w_repo (os_world c)).

Definition server_ok c : Prop := delivery_ok max (os_log c) (os_processors c) (os_tables c).

(** The phase after an update. *)
Definition after_op (phase : OutboxPhase) : OutboxPhase :=
  match phase with
  | Counting record err rest =>
      if wrap_i 32 max <=? i32_add (ob_attempt_count record) 1 then GivingUp record err rest
      else Publishing rest
  | Marking _ rest | GivingUp _ _ rest => Publishing rest
  | _ => phase
  end.

Lemma advance_op phase op pub w :
  phase_op phase = Some op →
  ∃ w', outbox_advance max phase pub w = ((after_op phase, pub), w')
        ∧ w_repo w' = (run_outbox_op op (w_repo w)).2.
Proof.
  destruct phase as [|records|record rest|record err rest|record err rest]; try done;
    intros [= <-]; unfold outbox_advance, settle, after_op; run_M; unfold call; simpl.
  - destruct (pg_mark_outbox_delivered _ _) as [[[]|x] db]; simpl; by eexists.
  - destruct (pg_increment_outbox_attempt _ _) as [res db]. simpl.
    destruct (wrap_i 32 max <=? _); by eexists.
  - destruct (pg_mark_outbox_failed _ _) as [res db]. by eexists.
Qed.

Lemma after_op_known tb log phase op :
  phase_known max tb log phase → phase_op phase = Some op →
  phase_known max tb log (after_op phase).
Proof.
  destruct phase as [|records|record rest|record err rest|record err rest]; simpl; try done;
    [naive_solver| |naive_solver].
  intros (Hc & Ha & Hrest) _. rewrite wrap_i_small by (unfold i32_max in *; lia).
  destruct (Z.leb_spec max (i32_add (ob_attempt_count record) 1)) as [Hle|]; [|done].
  split; [|done]. destruct (decide (ob_attempt_count record = i32_max)) as [Heq|Hne].
  - rewrite Heq in Hle. assert (i32_add i32_max 1 < 0) by (vm_compute; reflexivity). lia.
  - rewrite i32_add_small in Hle by (unfold i32_max in *; lia). lia.
Qed.

Lemma advance_ok log procs i p phase pub w w' :
  delivery_ok max log procs (pg_tables (w_repo w)) → procs !! i = Some p →
  outbox_advance max (pr_phase p) (pr_pub p) w = ((phase, pub), w') →
  delivery_ok max (log ++ deliveries p) (<[i := {| pr_phase := phase; pr_pub := pub |}]> procs)
    (pg_tables (w_repo w')).
Proof.
  intros Hok Hi Hadv. pose proof (Forall_lookup_1 _ _ _ _ (dk_phases _ _ _ _ Hok) Hi) as Hk.
  cbv beta in Hk. destruct (phase_op (pr_phase p)) as [op|] eqn:Hop.
  { destruct (advance_op _ _ (pr_pub p) w Hop) as (w1 & Heq & Hr). rewrite Heq in Hadv.
    injection Hadv as <- <- <-. rewrite Hr.
    assert (deliveries p = []) as ->
      by (unfold deliveries; destruct (pr_phase p); [done..]).
    rewrite app_nil_r. eapply dk_op; [done..| |by eapply after_op_known].
    intros id. unfold owes. simpl. destruct (pr_phase p); simpl in *; try done.
    by destruct (_ <=? _). }
  unfold deliveries. destruct (pr_phase p) as [|[|record rest]| | |] eqn:Hph; try done.
  - rewrite app_nil_r. unfold outbox_advance in Hadv. revert Hadv. run_M. unfold call. simpl.
    pose proof (pg_pending_cases (w_repo w)) as Hp.
    destruct (pg_pending_outbox (w_repo w)) as [[records|x] db]; destruct Hp as [Ht Hrec];
      intros [= <- <- <-]; simpl; rewrite Ht; (eapply dk_same; [done|done|done|]); [|done].
    simpl. rewrite Hrec. by eapply pending_known.
  - rewrite app_nil_r. unfold outbox_advance in Hadv. revert Hadv. run_M. intros [= <- <- <-].
    by eapply dk_same.
  - unfold outbox_advance in Hadv. destruct (publish record (pr_pub p)) as [[[]|err] pub'] eqn:Hp;
      injection Hadv as <- <- <-; simpl.
    + exact (dk_publish _ _ _ _ i p {| pr_phase := Marking record rest; pr_pub := pub' |}
               record rest true "" Hok Hi Hph eq_refl).
    + exact (dk_publish _ _ _ _ i p {| pr_phase := Counting record err rest; pr_pub := pub' |}
               record rest false err Hok Hi Hph eq_refl).
Qed.

Lemma server_step_ok c c' : server_step max c c' → server_ok c → server_ok c'.
Proof.
  intros Hs. unfold server_ok, os_tables.
  destruct Hs as [c i p phase pub w Hi Hadv|c pub|c i p Hi|c i p pub Hi|c input]; simpl; intros Hok.
  - by eapply advance_ok.
  - destruct Hok as [He Ho Hc Hp]. split; [done|..].
    + intros id. rewrite owed_snoc. apply Ho.
    + intros r Hr. rewrite owed_snoc. by apply Hc.
    + apply Forall_app. split; [done|]. by repeat constructor.
  - by eapply dk_same.
  - destruct Hok as [He Ho Hc Hp].
    assert (∀ id, owed id (<[i := {| pr_phase := pr_phase p; pr_pub := pub |}]> (os_processors c))
                  = owed id (os_processors c)) as Hsame.
    { intros id. rewrite (owed_insert _ _ _ _ _ Hi).
      assert (owes id {| pr_phase := pr_phase p; pr_pub := pub |} = owes id p) as -> by done. lia. }
    split; [done|..].
    + intros id. by rewrite Hsame.
    + intros r Hr. rewrite Hsame. by apply Hc.
    + apply Forall_insert; [done|]. exact (Forall_lookup_1 _ _ _ _ Hp Hi).
  - unfold call_write. simpl.
    pose proof (dk_write max (os_log c) (os_processors c) input (w_uuids (os_world c)) _ Hok) as Hw.
    by destruct (pg_write_entry_with_outbox _ _ _) as [[res n] db].
Qed.

(** *** The tables only grow, and a row only moves on *)

Definition tables_grow tb tb' : Prop :=
  tb_entries tb `prefix_of` tb_entries tb'
  ∧ ∀ r, r ∈ tb_outbox tb → ∃ r', r' ∈ tb_outbox tb' ∧ row_step r r'.

#[local] Instance tables_grow_preorder : PreOrder tables_grow.
Proof.
  split.
  - intros tb. split; [done|]. intros r Hr. by exists r.
  - intros t1 t2 t3 [P1 S1] [P2 S2]. split; [by trans (tb_entries t2)|].
    intros r Hr. destruct (S1 r Hr) as (r2 & H2 & R2). destruct (S2 r2 H2) as (r3 & H3 & R3).
    exists r3. split; [done|by trans r2].
Qed.

Lemma op_grows op db : tables_grow (pg_tables db) (pg_tables (run_outbox_op op db).2).
Proof.
  destruct (outbox_op_step op db) as [He Hs]. split; [by rewrite He|]. intros r Hr.
  apply list_elem_of_lookup_1 in Hr as [k Hk].
  destruct (Forall2_lookup_l _ _ _ _ _ Hs Hk) as (r' & Hk' & Hrow).
  exists r'. split; [by apply (list_elem_of_lookup_2 _ k)|done].
Qed.

Lemma committed_entries tb tb' input e n :
  committed tb tb' input e n → tb_entries tb `prefix_of` tb_entries tb'.
Proof.
  intros (tb1 & Hins & Hout). unfold insert_entry in Hins.
  destruct (entry_columns e) as [row|]; [|done]. destruct (negb _); [done|].
  destruct (entry_violation _ _); [done|]. injection Hins as <-.
  destruct (ew_create_outbox input); [|subst; by apply prefix_app_r].
  destruct Hout as (payload & now & Hout). unfold insert_outbox in Hout. simpl in Hout.
  destruct (varchar 255 (ew_entry_type input)); [|done]. destruct (jsonb_text payload); [|done].
  destruct (existsb _ _); [done|]. injection Hout as <-. simpl. by apply prefix_app_r.
Qed.

Lemma write_grows input n db :
  tables_grow (pg_tables db) (pg_tables (pg_write_entry_with_outbox input n db).2).
Proof.
  split.
  - pose proof (pg_write_outcome db input n) as Hw.
    destruct (pg_write_entry_with_outbox input n db) as [[res n'] db']. simpl.
    destruct res as [out|x]; [destruct Hw as [Hw _]; by eapply committed_entries|].
    destruct x; try by rewrite Hw.
    destruct Hw as [->|(_ & position & Hc)]; [done|by eapply committed_entries].
  - intros r Hr. exists r. split; [|done].
    destruct (write_rows input n db) as [->|(x & -> & _)]; [done|apply elem_of_app; by left].
Qed.

Lemma server_step_grows c c' :
  server_step max c c' →
  tables_grow (os_tables c) (os_tables c') ∧ os_log c `prefix_of` os_log c'.
Proof.
  intros Hs. unfold os_tables.
  destruct Hs as [c i p phase pub w Hi Hadv|c pub|c i p Hi|c i p pub Hi|c input]; simpl;
    try (by split).
  - split; [|by apply prefix_app_r]. destruct (phase_op (pr_phase p)) as [op|] eqn:Hop.
    { destruct (advance_op _ _ (pr_pub p) (os_world c) Hop) as (w1 & Heq & Hr).
      rewrite Heq in Hadv. injection Hadv as <- <- <-. rewrite Hr. apply op_grows. }
    destruct (pr_phase p) as [|[|record rest]| | |]; try done; revert Hadv; unfold outbox_advance.
    + run_M. unfold call. simpl. pose proof (pg_pending_cases (w_repo (os_world c))) as Hp.
      destruct (pg_pending_outbox _) as [[records|x] db]; destruct Hp as [Ht _];
        intros [= <- <- <-]; simpl; by rewrite Ht.
    + by intros [= <- <- <-].
    + destruct (publish record (pr_pub p)) as [[[]|err] pub']; by intros [= <- <- <-].
  - split; [|done]. unfold call_write. simpl.
    pose proof (write_grows input (w_uuids (os_world c)) (w_repo (os_world c))) as Hw.
    by destruct (pg_write_entry_with_outbox _ _ _) as [[res n] db].
Qed.
End Steps.

(** ** A round in which nothing fails *)

Section Healthy.
Context {P : Platform} {PL : PlatformLaws P} {G : PgPlatform} {GL : PgLaws G} {Pub : Type}.
Context `{!EventPublisher Pub} (Haccepts : ∀ record (pub : Pub), (publish record pub).1 = Ok tt).
Implicit Types (db : PostgresLedgerRepository) (r : OutboxRow) (record : OutboxRecord)
  (w : World PostgresLedgerRepository).

Definition delivered_row r : OutboxRow :=
  if String.eqb (or_status r) "PENDING" then row_status "DELIVERED" r else r.

Definition delivered_rows (ids : list Uuid) (rows : list OutboxRow) : list OutboxRow :=
  map (λ r, if bool_decide (or_outbox_id r ∈ ids) then delivered_row r else r) rows.

Definition has_pending (id : Uuid) (rows : list OutboxRow) : Prop :=
  ∃ r, r ∈ rows ∧ or_outbox_id r = id ∧ or_status r = "PENDING".

Lemma mark_delivered_healthy id db :
  pg_faults db = [] → has_pending id (tb_outbox (pg_tables db)) →
  pg_mark_outbox_delivered id db
  = (Ok tt, set_tables {| tb_entries := tb_entries (pg_tables db);
                          tb_outbox := delivered_rows [id] (tb_outbox (pg_tables db)) |} db).
Proof.
  intros Hf (r & Hr & Hid & Hst). unfold pg_mark_outbox_delivered.
  rewrite pool_get_healthy by done. unfold pg_try, pg_execute. rewrite next_fault_healthy by done.
  unfold update_rows, updated, pg_ret. destruct (length _) as [|n] eqn:Hl.
  { apply nil_length_inv in Hl. destruct (not_elem_of_nil r). rewrite <- Hl.
    apply list_elem_of_filter. split; [|done]. by rewrite Hst, bool_decide_true by done. }
  f_equal. f_equal. f_equal. apply map_ext. intros x. unfold delivered_row.
  assert (bool_decide (or_outbox_id x ∈ [id]) = bool_decide (or_outbox_id x = id)) as ->
    by (apply bool_decide_ext, list_elem_of_singleton).
  by destruct (bool_decide _), (String.eqb _ _).
Qed.

Lemma delivered_rows_cons (id : Uuid) (ids : list Uuid) rows :
  id ∉ ids → delivered_rows ids (delivered_rows [id] rows) = delivered_rows (id :: ids) rows.
Proof.
  intros Hid. unfold delivered_rows. rewrite map_map. apply map_ext. intros r.
  assert (∀ b : bool, or_outbox_id (if b then delivered_row r else r) = or_outbox_id r) as Hsame.
  { intros b. unfold delivered_row. destruct b; [by destruct (String.eqb _ _)|done]. }
  rewrite Hsame. destruct (decide (or_outbox_id r = id)) as [->|Hne].
  - rewrite !(bool_decide_true (id ∈ _ :: _)) by left. by rewrite bool_decide_false.
  - rewrite (bool_decide_false (_ ∈ [id])) by (by rewrite list_elem_of_singleton).
    assert (bool_decide (or_outbox_id r ∈ id :: ids) = bool_decide (or_outbox_id r ∈ ids)) as ->;
      [|done]. apply bool_decide_ext. rewrite elem_of_cons. naive_solver.
Qed.

Lemma has_pending_others id id' rows :
  id ≠ id' → has_pending id rows → has_pending id (delivered_rows [id'] rows).
Proof.
  intros Hne (r & Hr & Hid & Hst). exists r. split; [|done]. apply list_elem_of_fmap.
  exists r. split; [|done]. rewrite bool_decide_false; [done|].
  rewrite list_elem_of_singleton. congruence.
Qed.

(** What the publisher is after a sequence of deliveries. *)
Definition published (pub : Pub) (records : list OutboxRecord) : Pub :=
  foldl (λ p record, (publish record p).2) pub records.

Lemma publish_all_healthy max records pub w :
  pg_faults (w_repo w) = [] → NoDup (ob_outbox_id <$> records) →
  (∀ record, record ∈ records → has_pending (ob_outbox_id record) (tb_outbox (pg_tables (w_repo w)))) →
  publish_all records max pub w
  = (published pub records,
     set_repo (set_tables {| tb_entries := tb_entries (pg_tables (w_repo w));
       tb_outbox := delivered_rows (ob_outbox_id <$> records) (tb_outbox (pg_tables (w_repo w))) |}
       (w_repo w)) w).
Proof.
  revert pub w. induction records as [|record records IH]; intros pub w Hf Hnd Hp.
  { simpl. unfold ret, delivered_rows. f_equal. destruct w as [[[es rows] fs k] ? ? ? ? ? ?]. simpl.
    rewrite map_id. done. }
  apply NoDup_cons in Hnd as [Hnot Hnd]. cbn [publish_all]. unfold mbind_M, publish_one.
  pose proof (Haccepts record pub) as Ha. destruct (publish record pub) as [res pub'] eqn:Hpub.
  simpl in Ha. subst res. run_M. unfold call. simpl.
  rewrite mark_delivered_healthy by (try apply Hp; try left; done). simpl.
  rewrite IH; [|done|done|].
  - simpl. rewrite Hpub. simpl. f_equal. unfold set_repo. simpl.
    unfold set_tables. simpl. by rewrite delivered_rows_cons.
  - intros x Hx. simpl. apply has_pending_others; [|apply Hp; by right].
    intros Heq. apply Hnot. rewrite <- Heq. by apply list_elem_of_fmap_2.
Qed.

Lemma outbox_pass_healthy max pub w :
  pg_faults (w_repo w) = [] → schema_ok (pg_tables (w_repo w)) →
  let tb := pg_tables (w_repo w) in
  ∃ w', outbox_pass max pub w = (published pub (map map_outbox_row (pending_rows tb)), w')
    ∧ pg_tables (w_repo w')
      = {| tb_entries := tb_entries tb; tb_outbox := map delivered_row (tb_outbox tb) |}
    ∧ w_metrics w' = w_metrics w.
Proof.
  intros Hf Hsc tb.
  assert (pending_outbox (w_repo w) = (Ok (map map_outbox_row (pending_rows tb)), w_repo w)) as Hpend.
  { simpl. unfold pg_pending_outbox. rewrite pool_get_healthy by done.
    by rewrite (pg_try_read _ _ (pending_rows tb)). }
  assert (ob_outbox_id <$> map map_outbox_row (pending_rows tb) = or_outbox_id <$> pending_rows tb)
    as Hids by by rewrite <- list_fmap_compose.
  unfold outbox_pass. rewrite (bind_call_read _ _ _ _ Hpend). cbv iota. unfold mbind_M.
  rewrite publish_all_healthy; [|done|..].
  - eexists. split; [reflexivity|]. split; [|done]. simpl. f_equal. unfold delivered_rows.
    apply map_ext_in. intros r Hr%list_elem_of_In. rewrite Hids. case_bool_decide as Hin; [done|].
    unfold delivered_row. destruct (String.eqb_spec (or_status r) "PENDING"); [|done].
    destruct Hin. apply list_elem_of_fmap_2, elem_of_pending_rows. done.
  - rewrite Hids. unfold pending_rows. rewrite stable_sort_perm, pg_scan_perm.
    eapply sublist_NoDup; [exact (sc_outbox_ids _ Hsc)|]. apply fmap_sublist, sublist_filter.
  - intros record (r & -> & Hr)%list_elem_of_fmap. apply elem_of_pending_rows in Hr as [Hr Hst].
    by exists r.
Qed.
End Healthy.

(** ** Runs as computations *)

Lemma call_write_repo `{Platform} {R} `{!LedgerRepository R} input (w : World R) :
  w_repo (call_write input w).2 = (write_entry_with_outbox input (w_uuids w) (w_repo w)).2.
Proof. unfold call_write. by destruct (write_entry_with_outbox _ _ _) as [[res n] r]. Qed.

Section Turns.
Context {P : Platform} {R Pub : Type} `{!LedgerRepository R, !EventPublisher Pub}.

Definition processor_turn (max : Z) (c : OutboxServer R Pub) (i : nat) : OutboxServer R Pub :=
  match os_processors c !! i with
  | Some p =>
      let '(next, w) := outbox_advance max (pr_phase p) (pr_pub p) (os_world c) in
      {| os_world := w;
         os_processors := <[i := {| pr_phase := next.1; pr_pub := next.2 |}]> (os_processors c);
         os_log := os_log c ++ deliveries p |}
  | None => c
  end.

Lemma processor_turns_steps (max : Z) (c : OutboxServer R Pub) (turns : list nat) :
  rtc (server_step max) c (foldl (processor_turn max) c turns).
Proof.
  revert c. induction turns as [|i turns IH]; intros c; [done|]. simpl.
  destruct (os_processors c !! i) as [p|] eqn:Hi;
    [|by unfold processor_turn at 2; rewrite Hi].
  refine (rtc_l _ _ _ _ _ (IH _)). unfold processor_turn. rewrite Hi.
  destruct (outbox_advance _ _ _ _) as [[phase pub] w] eqn:Ha.
  by apply (os_advance max c i p phase pub w).
Qed.
End Turns.

(** * Properties *)

Section Properties.
Context {P : Platform} {PL : PlatformLaws P} {G : PgPlatform} {GL : PgLaws G} {Pub : Type}.
Context `{!EventPublisher Pub}.

(** The turns of a processor that is left alone are the rounds of Outbox, over any
    repository. *)
Theorem phases_are_outbox_pass {R} `{!LedgerRepository R} max_retries (pub : Pub) (w : World R) :
  ∃ n, outbox_turns (S n) max_retries Polling pub w
  = let '(pub', w') := outbox_pass max_retries pub w in ((Polling, pub'), w').
Proof.
  unfold outbox_pass. cbn [outbox_turns outbox_advance]. unfold mbind_M.
  destruct (call pending_outbox w) as [[records|x] w1]; [|by exists 0%nat].
  destruct (publish_all_turns max_retries records pub w1) as (n & _ & Hn). simpl.
  destruct (publish_all records max_retries pub w1) as [pub' w2].
  exists (n + 1)%nat. by rewrite outbox_turns_app, Hn.
Qed.

(** C27: delivery is at least once, and never given up too soon.  With a limit
    [max_retries] of 1 to 2^31 - 1 attempts (the code compares it as an [i32]; a
    larger one becomes negative there), any number of processors share the tables
    with writers, are killed and started again, and the database fails as it likes;
    then an event is marked DELIVERED only when a delivery of that very event was
    accepted, FAILED only after [max_retries] refused deliveries, never counts more
    attempts than were refused, and every delivery is of a stored event.  Meanwhile
    no entry and no event is lost or changed, and nothing returns to PENDING.  The
    log of deliveries starts as one that explains the tables ([outbox_explained];
    the empty log does so for events that are pending and were never tried). *)
Theorem outbox_at_least_once (max_retries : Z) log (w : World PostgresLedgerRepository)
    (c' : OutboxServer PostgresLedgerRepository Pub) :
  1 ≤ max_retries ≤ i32_max →
  outbox_explained max_retries log (pg_tables (w_repo w)) →
  rtc (server_step max_retries) {| os_world := w; os_processors := []; os_log := log |} c' →
  outbox_explained max_retries (os_log c') (os_tables c')
  ∧ tables_grow (pg_tables (w_repo w)) (os_tables c') ∧ log `prefix_of` os_log c'.
Proof.
  intros Hmax He Hrun. set (c := {| os_world := w; os_processors := []; os_log := log |}) in Hrun.
  assert (server_ok max_retries c) as Hok.
  { split; [done|..].
    - intros id. unfold owed, refusals. simpl. lia.
    - intros r Hr. unfold owed. simpl. rewrite Z.add_0_r. by apply He.
    - constructor. }
  change (outbox_explained max_retries (os_log c') (os_tables c')
    ∧ tables_grow (os_tables c) (os_tables c') ∧ os_log c `prefix_of` os_log c').
  clearbody c. clear He. induction Hrun as [c|c1 c2 c3 Hs _ IH].
  - split; [apply Hok|]. split; [|done]. split; [done|]. intros r Hr. by exists r.
  - destruct (server_step_grows _ _ _ Hs) as [[P1 S1] Hl].
    destruct (IH (server_step_ok _ Hmax _ _ Hs Hok)) as (He & [P2 S2] & Hl').
    split; [done|]. split; [|by trans (os_log c2)]. split; [by trans (tb_entries (os_tables c2))|].
    intros r Hr. destruct (S1 r Hr) as (r2 & H2 & R2). destruct (S2 r2 H2) as (r3 & H3 & R3).
    exists r3. split; [done|by trans r2].
Qed.

(** When nothing fails, one round delivers everything, once, in order: over a
    database that answers and a publisher that accepts, it publishes exactly the
    pending events, each once and by their time of creation, marks exactly these
    DELIVERED, and leaves the entries, the other events and the failure counter
    as they were. *)
Theorem healthy_round_delivers (max_retries : Z) (pub : Pub) (w : World PostgresLedgerRepository) :
  (∀ record (p : Pub), (publish record p).1 = Ok tt) →
  pg_faults (w_repo w) = [] → schema_ok (pg_tables (w_repo w)) →
  let tb := pg_tables (w_repo w) in
  ∃ rows w', rows ≡ₚ filter (λ r, or_status r = "PENDING") (tb_outbox tb)
    ∧ StronglySorted (λ a b, created_order a b = true) rows
    ∧ outbox_pass max_retries pub w = (published pub (map map_outbox_row rows), w')
    ∧ pg_tables (w_repo w')
      = {| tb_entries := tb_entries tb; tb_outbox := map delivered_row (tb_outbox tb) |}
    ∧ w_metrics w' = w_metrics w.
Proof.
  intros Hacc Hf Hsc tb. destruct (outbox_pass_healthy Hacc max_retries pub w Hf Hsc) as (w' & Hw & Ht & Hm).
  exists (pending_rows tb), w'.
  split; [unfold pending_rows; by rewrite stable_sort_perm, pg_scan_perm|].
  split; [|done]. apply stable_sort_sorted; unfold created_order.
  - intros a b. destruct (Z.leb_spec (or_created_ts a) (or_created_ts b)); [by left|].
    right. apply Z.leb_le. lia.
  - intros a b d. rewrite !Z.leb_le. lia.
Qed.
End Properties.

(** * Witnesses *)

#[local] Existing Instance Toy.platform.
#[local] Existing Instance Toy.laws.
#[local] Existing Instance ToyPg.server.
#[local] Existing Instance ToyPg.server_laws.

(** An endpoint that collects what it is sent, and takes it or not. *)
Record Endpoint := { ep_accepts : bool; ep_seen : list Uuid }.

#[local] Instance endpoint_publisher : EventPublisher Endpoint := {|
  publisher_is_enabled _ := true;
  publish record e :=
    (if ep_accepts e then Ok tt else Err "refused",
     {| ep_accepts := ep_accepts e; ep_seen := ep_seen e ++ [ob_outbox_id record] |})
|}.

(** One that always takes it. *)
Definition Collector : Type := list Uuid.
#[local] Instance collector_publisher : EventPublisher Collector := {|
  publisher_is_enabled _ := true;
  publish record seen := (Ok tt, seen ++ [ob_outbox_id record])
|}.

(** A database with one event that is pending, and two processors, the second of
    which finds the endpoint refusing. *)
Definition demo_event : World PostgresLedgerRepository :=
  (call_write pg_demo_input (world_init pg_empty)).2.

Definition demo_processors (w : World PostgresLedgerRepository)
    : OutboxServer PostgresLedgerRepository Endpoint :=
  {| os_world := w;
     os_processors := [{| pr_phase := Polling; pr_pub := {| ep_accepts := true; ep_seen := [] |} |};
                       {| pr_phase := Polling; pr_pub := {| ep_accepts := false; ep_seen := [] |} |}];
     os_log := [] |}.

(** Both read the event; one delivers it and marks it DELIVERED, then the other
    is refused and, the one attempt allowed being used up, marks it FAILED. *)
Definition demo_race : OutboxServer PostgresLedgerRepository Endpoint :=
  foldl (processor_turn 1) (demo_processors demo_event) [0; 1; 0; 0; 1; 1; 1]%nat.

Lemma demo_event_explained : outbox_explained 1 [] (pg_tables (w_repo demo_event)).
Proof.
  assert (schema_ok (pg_tables (w_repo demo_event))) as Hsc.
  { unfold demo_event. rewrite call_write_repo. exact (write_schema pg_demo_input 0 pg_empty empty_schema). }
  assert (forallb (λ r, String.eqb (or_status r) "PENDING" && (or_attempt_count r =? 0))
            (tb_outbox (pg_tables (w_repo demo_event))) = true) as Hall by by_compute.
  assert (∀ r, r ∈ tb_outbox (pg_tables (w_repo demo_event)) →
            or_status r = "PENDING" ∧ or_attempt_count r = 0) as Hrow.
  { intros r Hr%list_elem_of_In. rewrite forallb_forall in Hall. specialize (Hall r Hr).
    apply andb_true_iff in Hall as [?%String.eqb_eq ?%Z.eqb_eq]. split; assumption. }
  split; [exact Hsc|..].
  - intros r Hr. destruct (Hrow r Hr) as [-> _]. discriminate.
  - intros r Hr. destruct (Hrow r Hr) as [-> _]. discriminate.
  - intros r Hr. destruct (Hrow r Hr) as [_ ->]. unfold refusals. simpl. lia.
  - intros d Hd. destruct (not_elem_of_nil d Hd).
Qed.

Lemma demo_race_run :
  rtc (server_step 1) {| os_world := demo_event; os_processors := []; os_log := [] |} demo_race.
Proof.
  eapply rtc_l; [apply (os_start 1 _ {| ep_accepts := true; ep_seen := [] |})|].
  eapply rtc_l; [apply (os_start 1 _ {| ep_accepts := false; ep_seen := [] |})|].
  exact (processor_turns_steps 1 (demo_processors demo_event) _).
Qed.

(** A delivered event may end FAILED when two processors share the outbox:
    [mark_outbox_failed] does not look at the row's status. *)
Theorem delivered_event_marked_failed :
  rtc (server_step 1) {| os_world := demo_event; os_processors := []; os_log := [] |} demo_race
  ∧ (or_status <$> tb_outbox (os_tables demo_race)) = ["FAILED"]
  ∧ snd <$> os_log demo_race = [true; false].
Proof. split; [exact demo_race_run|]. split; by_compute. Qed.

Lemma outbox_at_least_once_witness :
  snd <$> os_log demo_race = [true; false]
  ∧ outbox_explained 1 (os_log demo_race) (os_tables demo_race).
Proof.
  split; [by_compute|].
  apply (outbox_at_least_once 1 [] demo_event demo_race);
    [unfold i32_max; lia|exact demo_event_explained|exact demo_race_run].
Defined.

Lemma healthy_round_delivers_witness :
  (or_status <$> tb_outbox (pg_tables (w_repo demo_event))) = ["PENDING"]
  ∧ ∃ rows w', outbox_pass 1 ([] : Collector) demo_event = (published [] (map map_outbox_row rows), w')
    ∧ pg_tables (w_repo w')
      = {| tb_entries := tb_entries (pg_tables (w_repo demo_event));
           tb_outbox := map delivered_row (tb_outbox (pg_tables (w_repo demo_event))) |}.
Proof.
  split; [by_compute|].
  destruct (healthy_round_delivers 1 ([] : Collector) demo_event) as (rows & w' & _ & _ & H1 & H2 & _).
  - intros record p. reflexivity.
  - by_compute.
  - exact (oe_schema _ _ _ demo_event_explained).
  - exists rows, w'. split; [exact H1|exact H2].
Defined.
