(* ===== verification/Announce.v ===== *)
(** * From an acknowledged write to its event

    The whole path of an event: [write_entry] of [src/service/mod.rs] with a
    publisher that is enabled, the tables of [src/repository/postgres.rs], and the
    outbox processors.  A client that was told its entry is written is owed an
    event, whatever failed in between: [announced] is the invariant, and
    [acknowledged_writes_are_announced] follows it to the delivery.  [triple] is
    a program logic for what the methods of the service make of the tables. *)

From Stdlib Require Import String Strings.Byte ZArith Lia.
From stdpp Require Import base tactics numbers strings list gmap sorting relations.
From S2P Require Import Prelude Platform Crypto Repository Postgres Config World Service.
From S2P Require Import LedgerSpec PostgresLaws PostgresService PostgresSchema Outbox.
From S2P Require Import PostgresOutbox.

Section Announced.
Context {P : Platform}.

(** The event of an entry. *)
Definition event_of (id : Uuid) (tb : PgTables) (r : OutboxRow) : Prop :=
  r ∈ tb_outbox tb ∧ or_entry_id r = id.

(** Every entry has its event. *)
Definition announced (tb : PgTables) : Prop :=
  ∀ e, e ∈ tb_entries tb → ∃ r, event_of (le_entry_id e) tb r.

Definition stored_id (id : Uuid) (tb : PgTables) : Prop :=
  ∃ e, e ∈ tb_entries tb ∧ le_entry_id e = id.

(** The tables are as they should be, and hold the entries that were promised. *)
Definition kept (ids : list Uuid) (tb : PgTables) : Prop :=
  schema_ok tb ∧ announced tb ∧ ∀ id, id ∈ ids → stored_id id tb.
End Announced.

(** * Lemmas *)

(** ** Triples over the tables *)

Section Triples.
Context {P : Platform} {G : PgPlatform}.
Implicit Types (w : World PostgresLedgerRepository).

Definition world_tables w : PgTables := pg_tables (w_repo w).

Definition triple {A} (Pre : PgTables → Prop) (m : M PostgresLedgerRepository A)
    (Post : A → PgTables → Prop) : Prop :=
  ∀ w, Pre (world_tables w) → Post (m w).1 (world_tables (m w).2).

Lemma triple_ret {A} (Pre : PgTables → Prop) (a : A) (Post : A → PgTables → Prop) :
  (∀ tb, Pre tb → Post a tb) → triple Pre (ret a) Post.
Proof. intros H w. apply H. Qed.

Lemma triple_bind {A B} Pre (m : M _ A) (k : A → M _ B) Mid Post :
  triple Pre m Mid → (∀ a, triple (Mid a) (k a) Post) → triple Pre (mbind_M m k) Post.
Proof.
  intros Hm Hk w Hw. unfold mbind_M. specialize (Hm w Hw). destruct (m w) as [a w'].
  by apply Hk.
Qed.

Lemma triple_weaken {A} (Pre Pre' : PgTables → Prop) (m : M _ A) (Post Post' : A → PgTables → Prop) :
  triple Pre m Post → (∀ tb, Pre' tb → Pre tb) → (∀ a tb, Post a tb → Post' a tb) →
  triple Pre' m Post'.
Proof. intros Hm Hpre Hpost w Hw. apply Hpost, Hm, Hpre, Hw. Qed.

Lemma triple_fact {A} Pre (fact : Prop) (m : M _ A) Post :
  (fact → triple Pre m Post) → triple (λ tb, Pre tb ∧ fact) m Post.
Proof. intros Hm w [Hw Hf]. by apply Hm. Qed.

Lemma triple_utc Pre : triple Pre utc (λ ts tb, Pre tb ∧ ∃ k, ts = utc_now k).
Proof. intros w Hw. split; [done|]. by exists (w_clock w). Qed.

(** A computation that leaves the repository alone. *)
Definition local {A} (m : M PostgresLedgerRepository A) : Prop := ∀ w, w_repo (m w).2 = w_repo w.

Lemma triple_local {A} Pre (m : M _ A) : local m → triple Pre m (λ _, Pre).
Proof. intros Hm w Hw. unfold world_tables. by rewrite Hm. Qed.

(** A read: the tables stay, and the answer is about them. *)
Lemma triple_read {A} Pre (f : Pg A) (about : A → PgTables → Prop) :
  reads f → (∀ db, about (f db).1 (pg_tables db)) →
  triple Pre (call f) (λ a tb, Pre tb ∧ about a tb).
Proof.
  intros Hr Ha w Hw. unfold call, world_tables. specialize (Hr (w_repo w)). specialize (Ha (w_repo w)).
  destruct (f (w_repo w)) as [a db]. destruct Hr as [Ht _]. simpl in *. by rewrite Ht.
Qed.
End Triples.

(** ** The statements *)

Section Statements.
Context {P : Platform} {PL : PlatformLaws P} {G : PgPlatform} {GL : PgLaws G}.
Implicit Types (tb : PgTables) (db : PostgresLedgerRepository).

(** An entry that an idempotency check answers with is stored, under its key. *)
Lemma find_idempotent_row t key db :
  match (pg_find_idempotent t key db).1 with
  | Ok (Some e) => e ∈ tb_entries (pg_tables db) ∧ le_entry_type e = t
                   ∧ le_idempotency_key e = Some key
  | _ => True
  end.
Proof.
  unfold pg_find_idempotent, select_entry, pg_select, pool_get, pg_try, pg_read.
  destruct (next_fault db) as [f db1] eqn:E1. apply next_fault_untouched in E1 as [[H1 _] _].
  destruct f; try done.
  destruct (next_fault db1) as [f db2] eqn:E2. apply next_fault_untouched in E2 as [[H2 _] _].
  destruct f; try done. cbn [fst]. destruct (forallb _ _); [|done]. cbn [fst]. rewrite H2, H1. unfold query_opt.
  destruct (pg_scan _) as [|e [|]] eqn:Hs; try done.
  assert (e ∈ pg_scan (filter (λ e, (String.eqb (le_entry_type e) t
            && bool_decide (le_idempotency_key e = Some key)) = true) (tb_entries (pg_tables db)))) as He
    by (rewrite Hs; by left).
  rewrite pg_scan_perm in He. apply list_elem_of_filter in He as [Hk He]. split; [done|].
  by apply andb_true_iff in Hk as [Hk%String.eqb_eq Hkey%bool_decide_eq_true].
Qed.

Lemma find_idempotent_stored t key db :
  match (pg_find_idempotent t key db).1 with
  | Ok (Some e) => e ∈ tb_entries (pg_tables db) ∧ le_entry_type e = t
  | _ => True
  end.
Proof. pose proof (find_idempotent_row t key db). repeat case_match; tauto. Qed.

Lemma reads_find_idempotent t key : reads (pg_find_idempotent t key).
Proof. unfold pg_find_idempotent, select_entry, pool_get. apply reads_try; intros; apply reads_pg_read. Qed.

Lemma reads_chain_tip t : reads (pg_get_chain_tip t).
Proof.
  unfold pg_get_chain_tip, pool_get, found.
  repeat (apply reads_try; [|intros ?]); apply reads_pg_read || apply reads_ret.
Qed.

(** A committed write with its event. *)
Lemma committed_announced tb tb' input e n :
  announced tb → ew_create_outbox input = true → committed tb tb' input e n →
  announced tb' ∧ stored_id (le_entry_id e) tb'.
Proof.
  intros Ha Hc (tb1 & Hins & Hout). rewrite Hc in Hout. destruct Hout as (payload & now & Hout).
  unfold insert_entry in Hins. destruct (entry_columns e) as [row|] eqn:Hrow; [|done].
  apply entry_columns_same in Hrow as [Hid _].
  destruct (negb _); [done|]. destruct (entry_violation _ _); [done|]. injection Hins as <-.
  unfold insert_outbox in Hout. simpl in Hout.
  destruct (varchar 255 (ew_entry_type input)); [|done]. destruct (jsonb_text payload); [|done].
  destruct (existsb _ _); [done|]. injection Hout as <-. split.
  - intros e'. simpl. rewrite elem_of_app, list_elem_of_singleton. intros [He| ->].
    + destruct (Ha e' He) as (r & Hr & Hi). exists r. split; [|done]. simpl.
      apply elem_of_app. by left.
    + eexists. split; [simpl; apply elem_of_app; right; by left|by simpl].
  - exists row. split; [simpl; apply elem_of_app; right; by left|done].
Qed.

Lemma pg_write_announced input n db :
  announced (pg_tables db) → ew_create_outbox input = true →
  let '(res, _, db') := pg_write_entry_with_outbox input n db in
  announced (pg_tables db')
  ∧ match res with Ok out => stored_id (le_entry_id (wr_entry out)) (pg_tables db') | Err _ => True end.
Proof.
  intros Ha Hc. pose proof (pg_write_outcome db input n) as Hw.
  destruct (pg_write_entry_with_outbox input n db) as [[res n'] db'].
  destruct res as [out|x].
  - destruct Hw as (Hcm & _ & _). by eapply committed_announced.
  - split; [|done]. destruct x; try by rewrite Hw.
    destruct Hw as [->|(_ & position & Hcm)]; [done|].
    by eapply committed_announced in Hcm as [? _].
Qed.

Lemma stored_grows id tb tb' :
  tb_entries tb `prefix_of` tb_entries tb' → stored_id id tb → stored_id id tb'.
Proof. intros [l Hl] (e & He & Hid). exists e. rewrite Hl. split; [apply elem_of_app; by left|done]. Qed.

(** A turn of a processor changes rows of the outbox, each into one of the same event. *)
Lemma grown_announced tb tb' :
  tables_grow tb tb' → tb_entries tb' = tb_entries tb → announced tb → announced tb'.
Proof.
  intros [_ Hr] He Ha e. rewrite He. intros Hin. destruct (Ha e Hin) as (r & Hr1 & Hi).
  destruct (Hr r Hr1) as (r' & Hr2 & Hs). exists r'. split; [done|].
  destruct (rs_event _ _ Hs) as (_ & -> & _). done.
Qed.
End Statements.

(** ** Writing through the service *)

Section Writing.
Context {P : Platform} {PL : PlatformLaws P} {G : PgPlatform} {GL : PgLaws G} {Pub : Type}.
Context `{!EventPublisher Pub} (svc : ImmutableLedgerService Pub) (input : WriteEntryInput).

(** What [write_entry] keeps true of the tables, and what a success says of them:
    both are shown of the two places a success comes from. *)
Context (Inv : PgTables → Prop) (Said : WriteEntryOutput → PgTables → Prop).

Definition says (res : result WriteEntryOutput ServiceError) (tb : PgTables) : Prop :=
  Inv tb ∧ match res with Ok out => Said out tb | Err _ => True end.

Hypothesis replay_says : ∀ tb e,
  Inv tb → e ∈ tb_entries tb → le_entry_type e = wi_entry_type input →
  idempotent_request_matches e input = true → Said (output_of_entry e) tb.

Hypothesis write_says : ∀ h k,
  triple Inv (call_write (entry_write_input input h (utc_now k) (create_outbox svc)))
    (λ res tb, Inv tb
       ∧ match res with Ok out => Said (output_of_entry (wr_entry out)) tb | Err _ => True end).

Lemma triple_err e : triple Inv (ret (Err e)) says.
Proof. by apply triple_ret. Qed.

Lemma triple_find t key :
  triple Inv (call (find_idempotent (R := PostgresLedgerRepository) t key))
    (λ found tb, Inv tb
       ∧ match found with Ok (Some e) => e ∈ tb_entries tb ∧ le_entry_type e = t | _ => True end).
Proof.
  apply triple_read; [apply reads_find_idempotent|intros db; apply find_idempotent_stored].
Qed.

Lemma triple_conflict : triple Inv (on_idempotency_conflict input) says.
Proof.
  unfold on_idempotency_conflict. destruct (wi_idempotency_key input) as [key|]; [|apply triple_err].
  eapply triple_bind; [apply triple_find|]. intros [[e|]|x]; simpl.
  - destruct (idempotent_request_matches e input) eqn:Hm; apply triple_ret; intros tb (Htb & He & Ht);
      (split; [done|]); [|done]. by apply replay_says.
  - apply triple_ret. by intros tb [Htb _].
  - apply triple_ret. by intros tb [Htb _].
Qed.

Lemma triple_write_loop max remaining attempt :
  triple Inv (write_loop svc input max remaining attempt) says.
Proof.
  revert attempt. induction remaining as [|remaining IH]; intros attempt; [apply triple_err|].
  cbn [write_loop]. eapply triple_bind.
  { apply (triple_read _ _ (λ _ _, True)); [apply reads_chain_tip|done]. }
  intros tip. eapply (triple_weaken Inv); [|by intros tb [? _]|by intros].
  destruct (match tip with Ok _ => _ | Err _ => _ end) as [h|e]; [|apply triple_err].
  eapply triple_bind; [apply triple_utc|]. intros ts. apply triple_fact. intros [k ->].
  eapply triple_bind; [apply write_says|]. intros [out|x]; simpl.
  - eapply triple_bind; [by apply triple_local|]. intros ?. apply triple_ret. intros tb [Htb Hs].
    by split.
  - eapply (triple_weaken Inv); [|by intros tb [? _]|by intros].
    destruct x; first [apply triple_err|apply triple_conflict|idtac].
    destruct (_ <? _).
    + eapply triple_bind; [by apply triple_local|]. intros ?. apply IH.
    + eapply triple_bind; [by apply triple_local|]. intros now.
      eapply triple_bind; [by apply triple_local|]. intros ?. apply triple_err.
Qed.

Lemma triple_check_idempotent :
  triple Inv (check_idempotent input)
    (λ res tb, Inv tb ∧ match res with Ok (Some out) => Said out tb | _ => True end).
Proof.
  unfold check_idempotent. destruct (wi_idempotency_key input) as [key|]; [|by apply triple_ret].
  eapply triple_bind; [apply triple_find|]. intros [[e|]|x]; simpl.
  - destruct (idempotent_request_matches e input) eqn:Hm; apply triple_ret; intros tb (Htb & He & Ht);
      (split; [done|]); [|done]. by apply replay_says.
  - apply triple_ret. by intros tb [? _].
  - apply triple_ret. by intros tb [? _].
Qed.

Lemma triple_write_entry : triple Inv (write_entry svc input) says.
Proof.
  unfold write_entry. eapply triple_bind; [by apply triple_local|]. intros start.
  eapply (triple_bind _ _ _ says).
  2: { intros out. do 3 (eapply triple_bind; [by apply triple_local|intros ?]). by apply triple_ret. }
  unfold write_entry_impl, try_M.
  eapply triple_bind; [by apply triple_local|]. intros [[]|e]; [|apply triple_err].
  eapply triple_bind.
  { apply triple_local. intros w. unfold check_halted. run_M.
    destruct (w_halted w !! _); [|done]. by destruct (_ <? _). }
  intros [[]|e]; [|apply triple_err].
  eapply triple_bind; [apply triple_check_idempotent|]. intros [[out|]|e].
  - by apply triple_ret.
  - eapply (triple_weaken Inv); [|by intros tb [? _]|by intros].
    eapply triple_bind; [by apply triple_local|]. intros ?. apply triple_write_loop.
  - apply triple_ret. by intros tb [? _].
Qed.
End Writing.

Section KeptWriting.
Context {P : Platform} {PL : PlatformLaws P} {G : PgPlatform} {GL : PgLaws G} {Pub : Type}.
Context `{!EventPublisher Pub} (svc : ImmutableLedgerService Pub).
Context (Henabled : publisher_is_enabled (svc_publisher svc) = true).

(** A success names a stored entry. *)
Lemma write_entry_kept ids input :
  triple (kept ids) (write_entry svc input)
    (says (kept ids) (λ out, stored_id (wo_entry_id out))).
Proof.
  apply triple_write_entry; [intros tb e _ He _ _; by exists e|]. intros h k.
  intros w (Hsc & Ha & Hids). unfold call_write, world_tables in *. simpl.
  set (i := entry_write_input input h (utc_now k) (create_outbox svc)).
  pose proof (pg_write_announced i (w_uuids w) (w_repo w) Ha Henabled) as Hw.
  pose proof (write_schema i (w_uuids w) (w_repo w) Hsc) as Hs.
  pose proof (write_grows i (w_uuids w) (w_repo w)) as [Hg _].
  destruct (pg_write_entry_with_outbox i (w_uuids w) (w_repo w)) as [[res n] db]. simpl in *.
  destruct Hw as [Hw1 Hw2]. split; [|done]. split; [done|]. split; [done|].
  intros id Hid. by eapply stored_grows, Hids.
Qed.
End KeptWriting.

(** ** Clients and processors together *)

Section Activities.
Context {P : Platform} {PL : PlatformLaws P} {G : PgPlatform} {GL : PgLaws G} {Pub : Type}.
Context `{!EventPublisher Pub} (svc : ImmutableLedgerService Pub) (max_retries : Z).
Implicit Types (c : OutboxServer PostgresLedgerRepository Pub).

Inductive Activity : Type :=
| AWrite (input : WriteEntryInput)      (* a client's call *)
| ATurn (i : nat).                      (* a turn of the [i]-th processor *)

Definition Answers : Type := list (result WriteEntryOutput ServiceError).

Definition activity_step (s : OutboxServer PostgresLedgerRepository Pub * Answers) (a : Activity)
    : OutboxServer PostgresLedgerRepository Pub * Answers :=
  let '(c, answers) := s in
  match a with
  | AWrite input =>
      let '(res, w) := write_entry svc input (os_world c) in
      ({| os_world := w; os_processors := os_processors c; os_log := os_log c |},
       answers ++ [res])
  | ATurn i => (processor_turn max_retries c i, answers)
  end.

Definition run_activities c (acts : list Activity) :=
  foldl activity_step (c, []) acts.

(** The entries the clients were promised. *)
Definition promised (answers : Answers) : list Uuid :=
  omap (λ res, match res with Ok out => Some (wo_entry_id out) | Err _ => None end) answers.

Lemma advance_tables phase (pub : Pub) (w : World PostgresLedgerRepository) :
  let w' := (outbox_advance max_retries phase pub w).2 in
  world_tables w' = world_tables w
  ∨ ∃ op, world_tables w' = pg_tables (run_outbox_op op (w_repo w)).2.
Proof.
  cbv zeta. destruct (phase_op phase) as [op|] eqn:Hop.
  { destruct (advance_op max_retries _ _ pub w Hop) as (w1 & Heq & Hr). rewrite Heq. right.
    exists op. unfold world_tables. simpl. by rewrite Hr. }
  left. unfold world_tables. destruct phase as [|[|record rest]| | |]; try done; unfold outbox_advance.
  - run_M. unfold call. simpl. pose proof (pg_pending_cases (w_repo w)) as Hp.
    by destruct (pg_pending_outbox _) as [[records|x] db]; destruct Hp as [Ht _].
  - by destruct (publish record pub) as [[[]|err] pub'].
Qed.

Lemma turn_kept ids c i : kept ids (os_tables c) → kept ids (os_tables (processor_turn max_retries c i)).
Proof.
  intros (Hs & Ha & Hi). unfold processor_turn. destruct (os_processors c !! i) as [p|]; [|done].
  pose proof (advance_tables (pr_phase p) (pr_pub p) (os_world c)) as Ht.
  destruct (outbox_advance _ _ _ _) as [next w]. unfold os_tables, world_tables in *. simpl in *.
  destruct Ht as [->|[op ->]]; [done|]. destruct (outbox_op_step op (w_repo (os_world c))) as [He _].
  split; [by apply outbox_op_schema|]. split; [eapply grown_announced; [apply op_grows|done|done]|].
  intros id Hid. apply (stored_grows id (pg_tables (w_repo (os_world c)))); [by rewrite He|auto].
Qed.

Lemma activities_kept acts c answers :
  publisher_is_enabled (svc_publisher svc) = true → kept (promised answers) (os_tables c) →
  let '(c', answers') := foldl activity_step (c, answers) acts in
  kept (promised answers') (os_tables c').
Proof.
  intros Hen. revert c answers. induction acts as [|[input|i] acts IH]; intros c answers Hk; simpl.
  - done.
  - pose proof (write_entry_kept svc Hen (promised answers) input (os_world c) Hk) as Hw.
    destruct (write_entry svc input (os_world c)) as [res w]. apply IH. clear IH.
    unfold os_tables, world_tables in *. simpl in *. destruct Hw as ((Hs & Ha & Hi) & Hout).
    split; [done|]. split; [done|]. intros id. unfold promised. rewrite omap_app, elem_of_app.
    intros [Hid|Hid]; [by apply Hi|]. destruct res as [out|e]; simpl in Hid; [|by apply elem_of_nil in Hid].
    apply list_elem_of_singleton in Hid as ->. done.
  - by apply IH, turn_kept.
Qed.
End Activities.

(** * Properties *)

Section Properties.
Context {P : Platform} {PL : PlatformLaws P} {G : PgPlatform} {GL : PgLaws G} {Pub : Type}.
Context `{!EventPublisher Pub} (svc : ImmutableLedgerService Pub) (max_retries : Z).
Implicit Types (c : OutboxServer PostgresLedgerRepository Pub).

(** C28: whoever was told that an entry is written will see its event.  Start with
    a publisher enabled and a database that keeps its schema and in which every
    stored entry has its event (an empty one, for instance; an entry written while
    the publisher was disabled has none, and a replay of its request makes none).
    Let clients write and any number of processors take turns, in any order, while
    requests to the database fail or lose their answers: at the end every stored
    entry has its event, and every success that was answered names a stored entry.
    Once the database answers and the publisher accepts, one more round leaves the
    event of each of them DELIVERED - unless it had been given up as FAILED before
    - and hands the pending ones to the publisher. *)
Theorem acknowledged_writes_are_announced c acts :
  publisher_is_enabled (svc_publisher svc) = true →
  schema_ok (os_tables c) → announced (os_tables c) →
  let '(c', answers) := run_activities svc max_retries c acts in
  announced (os_tables c')
  ∧ ∀ out, Ok out ∈ answers →
      stored_id (wo_entry_id out) (os_tables c')
      ∧ ∀ (pub : Pub) w, (∀ record (p : Pub), (publish record p).1 = Ok tt) →
          pg_faults (w_repo w) = [] → pg_tables (w_repo w) = os_tables c' →
          ∃ r r' rows w', event_of (wo_entry_id out) (os_tables c') r
            ∧ outbox_pass max_retries pub w = (published pub (map map_outbox_row rows), w')
            ∧ event_of (wo_entry_id out) (pg_tables (w_repo w')) r'
            ∧ (or_status r = "PENDING" → r ∈ rows)
            ∧ (or_status r' = "DELIVERED" ∨ or_status r = "FAILED").
Proof.
  intros Hen Hsc Ha. pose proof (activities_kept svc max_retries acts c [] Hen) as Hk.
  unfold run_activities. destruct (foldl _ _ _) as [c' answers].
  destruct Hk as (Hsc' & Ha' & Hst); [split; [done|split; [done|by intros ? ?%elem_of_nil]]|].
  split; [done|]. intros out Hout.
  assert (stored_id (wo_entry_id out) (os_tables c')) as Hid.
  { apply Hst, list_elem_of_omap. by exists (Ok out). }
  split; [done|]. intros pub w Hacc Hf Ht. destruct Hid as (e & He & Hid).
  destruct (Ha' e He) as (r & Hr & Hre). rewrite Hid in Hre.
  rewrite <- Ht in Hsc'. destruct (outbox_pass_healthy Hacc max_retries pub w Hf Hsc') as (w' & Hw & Ht' & _).
  exists r, (delivered_row r), (pending_rows (pg_tables (w_repo w))), w'.
  split; [by split|]. split; [done|]. rewrite Ht in Ht'. split.
  { split; [rewrite Ht'; simpl; by apply list_elem_of_fmap_2|].
    unfold delivered_row. destruct (String.eqb _ _); exact Hre. }
  split; [intros Hp; apply elem_of_pending_rows; by rewrite Ht|].
  rewrite <- Ht in Hr. pose proof (sc_outbox _ Hsc' r Hr) as Hty. unfold event_typed in Hty.
  rewrite !andb_true_iff in Hty. destruct Hty as [[[_ Hs] _] _]. simpl in Hs.
  rewrite !orb_true_iff, !String.eqb_eq in Hs. unfold delivered_row.
  destruct Hs as [Hs|[Hs|[Hs|Hs]]]; [left|left|by right|done]; rewrite Hs; done.
Qed.
End Properties.

(** * Witness: a commit whose answer is lost, a retry, and a refusing endpoint *)

#[local] Existing Instance Toy.platform.
#[local] Existing Instance Toy.laws.
#[local] Existing Instance ToyPg.server.
#[local] Existing Instance ToyPg.server_laws.
#[local] Existing Instance collector_publisher.

Definition demo_announcing : ImmutableLedgerService Collector :=
  {| svc_publisher := []; svc_config := test_config |}.

(** The pool, the look-up, the tip's two requests, then those of the write. *)
Definition demo_clients : OutboxServer PostgresLedgerRepository Collector :=
  {| os_world := world_init {| pg_tables := {| tb_entries := []; tb_outbox := [] |};
       pg_faults := repeat Answered 10 ++ [AnswerLost]; pg_clock := 0 |};
     os_processors := [{| pr_phase := Polling; pr_pub := [] |}]; os_log := [] |}.

Definition demo_client : WriteEntryInput := {|
  wi_entry_type := "t"; wi_agent_id := "a"; wi_content := as_bytes "c";
  wi_content_type := "p"; wi_source_id := "s"; wi_correlation_id := None;
  wi_idempotency_key := Some "k"; wi_input_hash := None; wi_writer_signature := None;
  wi_signer_key_reference := None; wi_attestation_report := None
|}.

Definition demo_session :=
  run_activities demo_announcing 3 demo_clients
    [AWrite demo_client; AWrite demo_client; ATurn 0].

Lemma demo_session_answers : map is_ok demo_session.2 = [false; true].
Proof. by_compute. Qed.

(** One entry: the first call's commit took place. *)
Lemma demo_session_entries :
  length (tb_entries (os_tables demo_session.1)) = 1%nat
  ∧ map or_status (tb_outbox (os_tables demo_session.1)) = ["PENDING"].
Proof. split; by_compute. Qed.

Lemma acknowledged_writes_are_announced_witness :
  map is_ok demo_session.2 = [false; true]
  ∧ announced (os_tables demo_session.1)
  ∧ ∀ out, Ok out ∈ demo_session.2 → stored_id (wo_entry_id out) (os_tables demo_session.1).
Proof.
  split; [exact demo_session_answers|].
  pose proof (acknowledged_writes_are_announced demo_announcing 3 demo_clients
                [AWrite demo_client; AWrite demo_client; ATurn 0] eq_refl empty_schema
                (λ e He, False_ind _ (not_elem_of_nil e He))) as H.
  unfold demo_session. destruct (run_activities _ _ _ _) as [c' answers].
  destruct H as [Ha Hs]. split; [exact Ha|]. intros out Hout. exact (proj1 (Hs out Hout)).
Defined.
