(* ===== verification/FaultyWrites.v ===== *)
(** * Concurrent writes while the database fails

    Concurrency interleaves the calls of [write_entry_impl] of [src/service/mod.rs]
    over any repository, and ConcurrentWrites shows what they keep while the
    repository answers.  Here the repository is the one of
    [src/repository/postgres.rs], the database fails and loses answers at any
    request, and the outbox is updated in between ([open_step]).  [write_faulty] is
    one write, [moved_spec] the code between two [await]s, and
    [writes_survive_failures] the invariant of every state that can be reached.  A
    COMMIT that is carried out after its error was returned is a write without the
    lock, like one that lands after its call was dropped: [others] covers both. *)

From Stdlib Require Import String Strings.Byte ZArith Lia.
From stdpp Require Import base tactics numbers strings list gmap sorting relations.
From S2P Require Import Prelude Platform Crypto Repository Postgres Config World Service LedgerSpec.
From S2P Require Import InMemory PostgresLaws Chain Examples ServiceWrite Concurrency.
From S2P Require Import ConcurrentWrites TestRepos ServiceVerify PostgresService PostgresSchema.
From S2P Require Import Verifier OnlineVerify FaultyVerify Outbox PostgresOutbox Announce.

(** * Lemmas *)

(** ** One write *)

Section OneWrite.
Context {P : Platform} {PL : PlatformLaws P} {G : PgPlatform} {GL : PgLaws G}.
Implicit Types (tb : PgTables) (db : PostgresLedgerRepository) (input : EntryWriteInput).

Lemma committed_fresh tb tb' input e n m :
  Inj (=) (=) (uuid_v4 : nat → Uuid) → le_entry_id e = uuid_v4 n → (n + 3 ≤ m)%nat →
  committed tb tb' input e n → rows_fresh m tb → rows_fresh m tb'.
Proof.
  intros Hinj Hid Hm (tb1 & Hins & Hout) [F1 F2].
  assert (rows_fresh m tb1) as [F1' F2'].
  { revert Hins. unfold insert_entry. destruct (entry_columns e) as [row|] eqn:Hc; [|done].
    apply entry_columns_same in Hc as [Hc _].
    destruct (negb _); [done|]. destruct (entry_violation _ _); [done|]. intros [= <-].
    split; [|exact F2]. intros e'. simpl. rewrite elem_of_app, list_elem_of_singleton.
    intros [He| ->]; [by apply F1|]. rewrite Hc, Hid. intros Heq%Hinj. lia. }
  destruct (ew_create_outbox input); [|by subst tb'].
  destruct Hout as (payload & now & Ho). revert Ho. unfold insert_outbox.
  repeat case_match; try done. intros [= <-]. split; [exact F1'|].
  intros r. simpl. rewrite elem_of_app, list_elem_of_singleton.
  intros [Hr| ->]; [by apply F2'|]. simpl. intros Heq%Hinj. lia.
Qed.

(** What a committed write did to the ledger. *)
Record appended (input : EntryWriteInput) (n : nat) tb tb' : Prop := {
  ap_linked : linked (pg_ledger tb) input = true;
  ap_ledger : pg_ledger tb'
    = ledger_append (next_entry (pg_ledger tb) (stored_write PostgresLedgerRepository input) (uuid_v4 n))
        (pg_ledger tb);
  ap_wf : tables_wf tb';
  ap_fresh : ∀ m, (n + 3 ≤ m)%nat → rows_fresh m tb → rows_fresh m tb'
}.

(** A write changed nothing, or committed its entry - and only then it may have
    reported a success. *)
Lemma write_faulty input n db :
  Inj (=) (=) (uuid_v4 : nat → Uuid) → tables_wf (pg_tables db) → rows_fresh n (pg_tables db) →
  let L := pg_ledger (pg_tables db) in
  Z.of_nat (length (chain L (ew_entry_type input))) < i64_max →
  store_accepts (R := PostgresLedgerRepository) input →
  (chain L (ew_entry_type input) = [] → ∃ data, ew_previous_hash input = sha256_hex data) →
  let '(res, n', db') := pg_write_entry_with_outbox input n db in
  (is_ok res = false ∧ (n ≤ n')%nat ∧ pg_tables db' = pg_tables db)
  ∨ (n' = (n + 3)%nat ∧ appended input n (pg_tables db) (pg_tables db')
     ∧ ∀ out, res = Ok out → wr_entry out = next_entry L input (uuid_v4 n)).
Proof.
  intros Hinj Htb Hfresh L Hlen Hacc Hd. unfold pg_write_entry_with_outbox.
  pose proof (reads_next_position input db) as [Hread _].
  destruct (pg_next_position input db) as [[position|x] db1] eqn:Hp; [|left; split; [done|]; split; [lia|exact Hread]].
  apply next_position_Ok in Hp as (Hl & -> & Ht); [|done..].
  pose proof (linked_fits db input Htb Hl Hd) as Hprev.
  pose proof (pg_store_atomic input (next_position L input) n db1) as Hs. fold L.
  destruct (pg_store _ _ _ _) as [res db2]. unfold write_outcome in Hs. simpl in Hs. rewrite Ht in Hs.
  assert (∀ e, e = entry_at input n (next_position L input) →
            committed (pg_tables db) (pg_tables db2) input e n →
            appended input n (pg_tables db) (pg_tables db2)) as Hap.
  { intros e -> Hc. destruct (committed_tables db (pg_tables db2) input n) as (HL & Hwf & _); try done.
    split; try done. intros m Hm. by apply (committed_fresh _ _ _ _ n m Hinj (eq_refl : le_entry_id (entry_at input n _) = _) Hm Hc). }
  destruct res as [out|x].
  - destruct Hs as (He & Hc & _). right. split; [done|]. split; [exact (Hap _ eq_refl Hc)|].
    intros ? [= <-]. exact He.
  - destruct x; try (left; split; [done|]; split; [lia|done]).
    destruct Hs as [Hs|[_ Hc]]; [left; split; [done|]; split; [lia|done]|].
    right. split; [done|]. split; [exact (Hap _ eq_refl Hc)|done].
Qed.
End OneWrite.

(** ** The code between two [await]s *)

Section Moves.
Context {P : Platform} {PL : PlatformLaws P} {G : PgPlatform} {GL : PgLaws G} {Pub : Type}.
Context `{!EventPublisher Pub} (svc : ImmutableLedgerService Pub).
Context (Hinj : Inj (=) (=) (uuid_v4 : nat → Uuid)).
Implicit Types (w : World PostgresLedgerRepository) (input : WriteEntryInput).

(** The world as it is once the database answers again. *)
Definition answering w : World PostgresLedgerRepository := set_repo (healed (w_repo w)) w.

(** What a phase relies on: an append that is not linked to an entry starts its
    chain, and what was answered is stored. *)
Definition relies w input (phase : Phase) : Prop :=
  let l := chain (w_ledger w) (wi_entry_type input) in
  match phase with
  | AtWrite _ previous_hash => l = [] → previous_hash = genesis_hash svc
  | Committing previous_hash written_ts =>
      (l = [] → previous_hash = genesis_hash svc) ∧ ∃ k, written_ts = utc_now k
  | Finished (Ok out) => ∃ e, e ∈ l ∧ entry_for input e ∧ output_of_entry e = out
  | _ => True
  end.

Record moved w input (phase' : Phase) w' : Prop := {
  mv_inv : service_inv svc (answering w');
  mv_ledger : w_ledger w' = w_ledger w ∨ ∃ e, w_ledger w' = ledger_append e (w_ledger w);
  mv_relies : relies w' input phase'
}.

Lemma moved_extends w input phase' w' :
  moved w input phase' w' → ledger_extends (w_ledger w) (w_ledger w').
Proof. intros [_ [->|[e ->]] _]; auto with ledger. Qed.

Lemma relies_stable w w' input phase :
  relies w input phase → ledger_extends (w_ledger w) (w_ledger w') → relies w' input phase.
Proof.
  intros Hr Hext. pose proof (Hext (wi_entry_type input)) as Hpre.
  destruct phase as [| | | | |a h| | |h ts|[out|x]]; simpl in *; try done.
  - intros Hnil. apply Hr. rewrite Hnil in Hpre. by apply prefix_nil_inv in Hpre.
  - destruct Hr as [Hg Hk]. split; [|done].
    intros Hnil. apply Hg. rewrite Hnil in Hpre. by apply prefix_nil_inv in Hpre.
  - destruct Hr as (e & He & ?). exists e. split; [|done].
    destruct Hpre as [l' ->]. apply elem_of_app. by left.
Qed.

(** The tables are the same, and so is the invariant. *)
Lemma kept_inv w w' :
  service_inv svc (answering w) → world_tables w' = world_tables w → (w_uuids w ≤ w_uuids w')%nat →
  service_inv svc (answering w').
Proof.
  intros [[_ Hwf] Hv Hf] Ht Hu. unfold world_tables in Ht. unfold w_ledger in *. simpl in *.
  split; unfold w_ledger; simpl; rewrite Ht; [done|done|]. intros m Hm. apply Hf. lia.
Qed.

Lemma moved_same w input phase' w' :
  service_inv svc (answering w) → world_tables w' = world_tables w → (w_uuids w ≤ w_uuids w')%nat →
  relies w' input phase' → moved w input phase' w'.
Proof.
  intros Hinv Ht Hu Hr. split; [by eapply kept_inv| |done].
  left. unfold w_ledger, world_tables in *. simpl. by rewrite Ht.
Qed.

Lemma call_reads {A} (f : Pg A) w a w' :
  reads f → call f w = (a, w') →
  (f (w_repo w)).1 = a ∧ world_tables w' = world_tables w ∧ w_uuids w' = w_uuids w.
Proof.
  intros Hf. unfold call, world_tables. specialize (Hf (w_repo w)).
  destruct (f (w_repo w)) as [a' db]. intros [= <- <-]. destruct Hf as [Ht _]. by simpl in *.
Qed.

(** An entry found under the key of a request answers it if it matches. *)
Lemma found_relies w w' input key e :
  wi_idempotency_key input = Some key → world_tables w' = world_tables w →
  e ∈ tb_entries (world_tables w) → le_entry_type e = wi_entry_type input →
  le_idempotency_key e = Some key → idempotent_request_matches e input = true →
  relies w' input (Finished (Ok (output_of_entry e))).
Proof.
  intros Hk Ht He Hte Hke Hm. simpl. exists e. split.
  - unfold w_ledger, world_tables in *. simpl. rewrite Ht, chain_pg. by apply elem_of_pg_chain.
  - split; [|done]. split; [done|]. split; [congruence|done].
Qed.

Lemma find_relies w input res w' :
  on_idempotency_conflict input w = (res, w') →
  world_tables w' = world_tables w ∧ w_uuids w' = w_uuids w ∧ relies w' input (Finished res).
Proof.
  unfold on_idempotency_conflict. destruct (wi_idempotency_key input) as [key|] eqn:Hk.
  2: { by intros [= <- <-]. }
  unfold mbind_M. destruct (call _ w) as [found w1] eqn:Hc.
  apply call_reads in Hc as (Hf & Ht & Hu); [|apply reads_find_idempotent].
  pose proof (find_idempotent_row (wi_entry_type input) key (w_repo w)) as Hrow.
  change (find_idempotent (R := PostgresLedgerRepository) (wi_entry_type input) key (w_repo w))
    with (pg_find_idempotent (wi_entry_type input) key (w_repo w)) in Hf. rewrite Hf in Hrow.
  destruct found as [[e|]|x]; simpl; [|by intros [= <- <-]..].
  destruct Hrow as (He & Hte & Hke).
  destruct (idempotent_request_matches e input) eqn:Hm; intros [= <- <-]; [|done].
  split; [done|]. split; [done|]. by eapply found_relies.
Qed.

Lemma moved_key w input phase' w' :
  service_inv svc (answering w) → advance svc input AtKey w = (phase', w') → moved w input phase' w'.
Proof.
  intros Hinv. simpl. unfold check_idempotent.
  destruct (wi_idempotency_key input) as [key|] eqn:Hk; run_M.
  2: { intros [= <- <-]. by apply moved_same. }
  destruct (call _ w) as [found w1] eqn:Hc.
  apply call_reads in Hc as (Hf & Ht & Hu); [|apply reads_find_idempotent].
  pose proof (find_idempotent_row (wi_entry_type input) key (w_repo w)) as Hrow.
  change (find_idempotent (R := PostgresLedgerRepository) (wi_entry_type input) key (w_repo w))
    with (pg_find_idempotent (wi_entry_type input) key (w_repo w)) in Hf. rewrite Hf in Hrow.
  destruct found as [[e|]|x]; simpl.
  - destruct Hrow as (He & Hte & Hke). destruct (idempotent_request_matches e input) eqn:Hm; simpl;
      intros [= <- <-]; (apply moved_same; [done|done|lia|]); [|done]. by eapply found_relies.
  - intros [= <- <-]. apply moved_same; [done|done|simpl; lia|done].
  - intros [= <- <-]. apply moved_same; [done|done|lia|done].
Qed.

Lemma moved_tip w input attempt phase' w' :
  service_inv svc (answering w) → advance svc input (AtTip attempt) w = (phase', w') →
  moved w input phase' w'.
Proof.
  intros Hinv. simpl. destruct (_ <? _); [|intros [= <- <-]; by apply moved_same].
  unfold mbind_M. destruct (call _ w) as [tip w1] eqn:Hc.
  apply call_reads in Hc as (Hf & Ht & Hu); [|apply reads_chain_tip].
  pose proof (faulty_get_chain_tip (R1 := PostgresLedgerRepository) (R2 := PostgresLedgerRepository)
                (wi_entry_type input) (w_repo w)) as (_ & _ & Ha).
  change (heal (w_repo w)) with (w_repo (answering w)) in Ha.
  rewrite (get_chain_tip_law (w_repo (answering w))) in Ha by apply (si_wf _ _ Hinv).
  cbn [fst] in Ha. cbn in Hf. cbn [get_chain_tip postgres_repository] in Ha. rewrite Hf in Ha.
  change (ledger_of (w_repo (answering w))) with (w_ledger w) in Ha.
  assert (w_ledger w1 = w_ledger w) as HL by (unfold w_ledger, world_tables in *; simpl; by rewrite Ht).
  destruct tip as [tip|x].
  - intros [= <- <-]. apply moved_same; [done|done|lia|]. unfold relies. rewrite HL. intros Hnil.
    destruct Ha as [Ha|Ha]; [|done]. unfold spec_tip, asked in Ha. rewrite Hnil in Ha.
    by destruct (store_reads _).
  - destruct x; intros [= <- <-]; (apply moved_same; [done|done|lia|done]).
Qed.
(** The entry a write of the service appends. *)
Definition stored_entry w input previous_hash k : LedgerEntryRecord :=
  next_entry (w_ledger w)
    (stored_write PostgresLedgerRepository
       (entry_write_input input previous_hash (utc_now k) (create_outbox svc)))
    (uuid_v4 (w_uuids w)).

Lemma moved_appended w input previous_hash k phase' w' :
  service_inv svc (answering w) →
  (chain (w_ledger w) (wi_entry_type input) = [] → previous_hash = genesis_hash svc) →
  appended (entry_write_input input previous_hash (utc_now k) (create_outbox svc)) (w_uuids w)
    (world_tables w) (world_tables w') →
  (w_uuids w + 3 ≤ w_uuids w')%nat →
  (w_ledger w' = ledger_append (stored_entry w input previous_hash k) (w_ledger w) →
     relies w' input phase') →
  moved w input phase' w'.
Proof.
  intros Hinv Hgen [Hl HL Hwf Hf] Hu Hr.
  change (w_ledger w' = ledger_append (stored_entry w input previous_hash k) (w_ledger w)) in HL.
  split; [|right; eauto|by apply Hr]. split; [by split| |].
  - change (w_ledger (answering w')) with (w_ledger w'). rewrite HL. intros t. rewrite chain_append.
    case_decide as Ht; [|apply (si_valid _ _ Hinv)]. subst t.
    rewrite links_ok_snoc. split; [apply (si_valid _ _ Hinv)|]. apply entry_fault_None.
    split; [|done]. change (linked (w_ledger w)
      (entry_write_input input previous_hash (utc_now k) (create_outbox svc)) = true) in Hl.
    unfold linked in Hl. unfold last_hash. simpl in *.
    destruct (last _) eqn:El; [by apply String.eqb_eq in Hl|]. apply Hgen. by apply last_None.
  - intros m Hm. simpl in Hm. apply Hf; [lia|]. apply (si_uuids _ _ Hinv). simpl. lia.
Qed.

Lemma moved_write w input attempt previous_hash phase' w' :
  service_inv svc (answering w) → request_accepted (R := PostgresLedgerRepository) svc input →
  Z.of_nat (length (chain (w_ledger w) (wi_entry_type input))) < i64_max →
  relies w input (AtWrite attempt previous_hash) →
  advance svc input (AtWrite attempt previous_hash) w = (phase', w') → moved w input phase' w'.
Proof.
  intros Hinv Hacc Hlen Hgen. simpl. run_M. unfold call_write. simpl.
  set (write := entry_write_input input previous_hash (utc_now (w_clock w)) (create_outbox svc)).
  pose proof (write_faulty write (w_uuids w) (w_repo w) Hinj) as Hw.
  destruct (pg_write_entry_with_outbox write (w_uuids w) (w_repo w)) as [[res n'] db'].
  destruct Hw as [(Hres & Hn & Ht)|(-> & Hap & Hout)].
  - apply (si_wf _ _ Hinv).
  - apply (si_uuids _ _ Hinv). simpl. lia.
  - exact Hlen.
  - apply Hacc.
  - intros Hnil. simpl. rewrite (Hgen Hnil). by eexists.
  - destruct res as [out|x]; [done|].
    destruct x; repeat case_match; intros [= <- <-]; by apply moved_same.
  - intros Hend. apply (moved_appended w input previous_hash (w_clock w)); try done.
    + destruct res as [out|[]]; repeat case_match; by injection Hend as _ <-.
    + assert (w_uuids w' = (w_uuids w + 3)%nat) as ->; [|done].
      destruct res as [out|[]]; repeat case_match; by injection Hend as _ <-.
    + intros HL. destruct res as [out|x].
      2: { destruct x; repeat case_match; by injection Hend as <- _. }
      injection Hend as <- _. unfold relies. exists (stored_entry w input previous_hash (w_clock w)).
      rewrite HL, chain_append, decide_True by done. split; [apply elem_of_app; right; by left|].
      split.
      * split; [done|]. split; [done|]. unfold idempotent_request_matches. by rewrite !bool_decide_true.
      * rewrite (Hout _ eq_refl).
        exact (output_of_entry_retime (w_ledger w) write _ _ (store_time_law _ (Hacc _ _))).
Qed.

(** The append of a call that was dropped during its [COMMIT]. *)
Lemma moved_land w input previous_hash k res w' :
  service_inv svc (answering w) → request_accepted (R := PostgresLedgerRepository) svc input →
  Z.of_nat (length (chain (w_ledger w) (wi_entry_type input))) < i64_max →
  (chain (w_ledger w) (wi_entry_type input) = [] → previous_hash = genesis_hash svc) →
  call_write (entry_write_input input previous_hash (utc_now k) (create_outbox svc)) w = (res, w') →
  moved w input AtStart w'.
Proof.
  intros Hinv Hacc Hlen Hgen. unfold call_write. simpl.
  set (write := entry_write_input input previous_hash (utc_now k) (create_outbox svc)).
  pose proof (write_faulty write (w_uuids w) (w_repo w) Hinj) as Hw.
  destruct (pg_write_entry_with_outbox write (w_uuids w) (w_repo w)) as [[res' n'] db'].
  destruct Hw as [(Hres & Hn & Ht)|(-> & Hap & _)].
  - apply (si_wf _ _ Hinv).
  - apply (si_uuids _ _ Hinv). simpl. lia.
  - exact Hlen.
  - apply Hacc.
  - intros Hnil. simpl. rewrite (Hgen Hnil). by eexists.
  - intros [= _ <-]. by apply moved_same.
  - intros [= _ <-]. by apply (moved_appended w input previous_hash k).
Qed.

Lemma moved_spec w input phase phase' w' :
  service_inv svc (answering w) → request_accepted (R := PostgresLedgerRepository) svc input →
  Z.of_nat (length (chain (w_ledger w) (wi_entry_type input))) < i64_max →
  relies w input phase → phase ≠ AtLock → is_finished phase = false →
  advance svc input phase w = (phase', w') → moved w input phase' w'.
Proof.
  intros Hinv Hacc Hlen Hr Hnl Hnf.
  destruct phase as [| | | |attempt|attempt h| | |h ts|res]; try done; eauto using moved_key, moved_tip, moved_write.
  - simpl. destruct (check_arguments svc input) as [[]|x]; run_M; [|intros [= <- <-]; by apply moved_same].
    destruct (w_halted w !! _); [destruct (_ <? _)|]; intros [= <- <-]; by apply moved_same.
  - simpl. run_M. intros [= <- <-]. by apply moved_same.
  - simpl. run_M. destruct (on_idempotency_conflict input w) as [res w1] eqn:Hc.
    apply find_relies in Hc as (Ht & Hu & Hres). intros [= <- <-].
    apply moved_same; [done|done|lia|done].
  - simpl. run_M. intros [= <- <-]. by apply moved_same.
Qed.
End Moves.

(** ** Every state of the server *)

Section Open.
Context {P : Platform} {PL : PlatformLaws P} {G : PgPlatform} {GL : PgLaws G} {Pub : Type}.
Context `{!EventPublisher Pub} (svc : ImmutableLedgerService Pub).
Context (calls others : WriteEntryInput → Prop).
Implicit Types (w : World PostgresLedgerRepository) (c : Config PostgresLedgerRepository).

Definition set_world w c : Config PostgresLedgerRepository :=
  {| c_world := w; c_owner := c_owner c; c_threads := c_threads c |}.

Definition set_faults (faults : list Fault) w : World PostgresLedgerRepository :=
  set_repo {| pg_tables := world_tables w; pg_faults := faults; pg_clock := pg_clock (w_repo w) |} w.

(** A step of the server or of another process, an update of the outbox by some
    processor, or a change of what the database will fail at. *)
Inductive open_step : Config PostgresLedgerRepository → Config PostgresLedgerRepository → Prop :=
| open_server c c' :
    chains_below i64_max (c_world c) → step svc calls others c c' → open_step c c'
| open_outbox c op :
    open_step c (set_world (set_repo (run_outbox_op op (w_repo (c_world c))).2 (c_world c)) c)
| open_faults c faults : open_step c (set_world (set_faults faults (c_world c)) c).

Context (Hinj : Inj (=) (=) (uuid_v4 : nat → Uuid)).
Context (Hcalls : ∀ input, calls input → request_accepted (R := PostgresLedgerRepository) svc input).
Context (Hothers : ∀ input, others input → request_accepted (R := PostgresLedgerRepository) svc input).
Context (w0 : World PostgresLedgerRepository).

Record open_ok c : Prop := {
  oo_inv : service_inv svc (answering (c_world c));
  oo_ext : ledger_extends (w_ledger w0) (w_ledger (c_world c));
  oo_threads : ∀ i th, c_threads c !! i = Some th →
    request_accepted (R := PostgresLedgerRepository) svc (th_input th)
    ∧ relies svc (c_world c) (th_input th) (th_phase th)
}.

(** The threads that do not move. *)
Lemma oo_world c w i th :
  open_ok c → ledger_extends (w_ledger (c_world c)) (w_ledger w) → c_threads c !! i = Some th →
  request_accepted (R := PostgresLedgerRepository) svc (th_input th)
  ∧ relies svc w (th_input th) (th_phase th).
Proof.
  intros Hc Hext Hi. destruct (oo_threads _ Hc i th Hi) as [? Hr]. split; [done|].
  by eapply relies_stable.
Qed.

Lemma open_ok_world c w :
  open_ok c → service_inv svc (answering w) → ledger_extends (w_ledger (c_world c)) (w_ledger w) →
  open_ok (set_world w c).
Proof.
  intros Hc Hinv Hext. split; [done| |].
  - etrans; [apply (oo_ext _ Hc)|done].
  - intros i th. by apply (oo_world c w i th).
Qed.

Lemma own_moved c i th phase w :
  open_ok c → chains_below i64_max (c_world c) → c_threads c !! i = Some th →
  th_phase th ≠ AtLock → is_finished (th_phase th) = false →
  advance svc (th_input th) (th_phase th) (c_world c) = (phase, w) →
  moved svc (c_world c) (th_input th) phase w.
Proof.
  intros Hc Hb Hi Hnl Hnf Ha. destruct (oo_threads _ Hc i th Hi) as [Hacc Hr].
  apply (moved_spec svc Hinj _ _ (th_phase th)); try done; apply Hc.
Qed.

Lemma open_ok_own c c' : open_ok c → chains_below i64_max (c_world c) → own_step svc c c' → open_ok c'.
Proof.
  intros Hc Hb Hs. destruct Hs as [c1 i th phase w Hi Hnl Hnf Ha|c1 i th Hi Hp Ho].
  - pose proof (own_moved c1 i th phase w Hc Hb Hi Hnl Hnf Ha) as Hm.
    pose proof (moved_extends _ _ _ _ _ Hm) as Hext. split; simpl.
    + apply (mv_inv _ _ _ _ _ Hm).
    + etrans; [apply (oo_ext _ Hc)|done].
    + intros j thj [[<- <-]|[_ Hj]]%lookup_insert_Some; [|by eapply oo_world].
      split; [apply (oo_threads _ Hc i th Hi)|apply (mv_relies _ _ _ _ _ Hm)].
  - split; simpl; try apply Hc.
    intros j thj [[<- <-]|[_ Hj]]%lookup_insert_Some; [|by eapply oo_threads].
    split; [apply (oo_threads _ Hc i th Hi)|done].
Qed.

Lemma other_moved w input phase w1 phase' w2 :
  service_inv svc (answering w) → chains_below i64_max w →
  request_accepted (R := PostgresLedgerRepository) svc input →
  advance svc input (AtTip 0) w = (phase, w1) → advance svc input phase w1 = (phase', w2) →
  service_inv svc (answering w2) ∧ ledger_extends (w_ledger w) (w_ledger w2).
Proof.
  intros Hinv Hb Hacc H1 H2.
  pose proof (moved_tip svc w input 0 phase w1 Hinv H1) as M1.
  pose proof (moved_extends _ _ _ _ _ M1) as E1.
  assert (world_tables w1 = world_tables w) as Ht.
  { revert H1. simpl. destruct (_ <? _); [|by intros [= _ <-]]. unfold mbind_M.
    destruct (call _ w) as [tip w'] eqn:Hc. apply call_reads in Hc as (_ & Ht & _); [|apply reads_chain_tip].
    destruct tip as [tip|[]]; intros [= _ <-]; exact Ht. }
  destruct (decide (is_finished phase = true)) as [Hf|Hf%not_true_is_false].
  { destruct phase; try done; simpl in H2; injection H2 as _ <-; (split; [apply M1|done]). }
  assert (phase ≠ AtLock) as Hnl.
  { intros ->. revert H1. cbn [advance]. run_M. repeat case_match; congruence. }
  assert (moved svc w1 input phase' w2) as M2.
  { apply (moved_spec svc Hinj _ _ phase); try done; [apply M1| |apply M1]. specialize (Hb (wi_entry_type input)).
    unfold w_ledger, world_tables in *. simpl in *. by rewrite Ht. }
  split; [apply M2|]. etrans; [exact E1|by eapply moved_extends].
Qed.
(** The tables an update of the outbox leaves. *)
Lemma outbox_inv op w :
  service_inv svc (answering w) →
  let w' := set_repo (run_outbox_op op (w_repo w)).2 w in
  service_inv svc (answering w') ∧ w_ledger w' = w_ledger w.
Proof.
  intros [[_ [Hok HD Hh]] Hv Hf] w'. pose proof (outbox_op_step op (w_repo w)) as [He Hs].
  unfold w_ledger in *. simpl in *. destruct (run_outbox_op op (w_repo w)) as [res db]. simpl in *.
  assert (pg_ledger (pg_tables db) = pg_ledger (pg_tables (w_repo w))) as HL.
  { unfold pg_ledger, pg_chain, of_type. by rewrite He. }
  split; [|exact HL]. split.
  - split; [done|]. simpl. split; [|by rewrite HL|by rewrite He].
    destruct Hok as [? ? ? ? ?]. by split; rewrite He.
  - unfold w_ledger. simpl. by rewrite HL.
  - intros m Hm. destruct (Hf m Hm) as [F1 F2]. split; simpl; [by rewrite He|].
    intros r' [i Hi]%list_elem_of_lookup. destruct (Forall2_lookup_r _ _ _ _ _ Hs Hi) as (r & Hr & Hst).
    rewrite (proj1 (rs_event _ _ Hst)). by eapply F2, list_elem_of_lookup_2.
Qed.

Lemma open_ok_step c c' : open_ok c → open_step c c' → open_ok c'.
Proof.
  intros Hc Hstep. destruct Hstep as [c1 c2 Hb Hs|c1 op|c1 faults].
  - destruct Hs as [c1 c2 Hs|c1 i input Hin Hi|c1 i th Hi Hf
      |c1 i th a h ts w Hi Hp Hin Hts|c1 i th h ts res w Hi Hp Hw|c1 input p w p' w' Hin H1 H2].
    + by eapply open_ok_own.
    + split; simpl; try apply Hc. intros j thj [[<- <-]|[_ Hj]]%lookup_insert_Some; [|by eapply oo_threads].
      split; [by apply Hcalls|done].
    + split; simpl; try apply Hc. intros j thj [_ Hj]%lookup_delete_Some. by eapply oo_threads.
    + injection Hts as <- <-. destruct (oo_threads _ Hc i th Hi) as [Hacc Hr]. rewrite Hp in Hr.
      split; simpl; [by eapply kept_inv; [apply Hc|..]|apply (oo_ext _ Hc)|].
      intros j thj [[<- <-]|[_ Hj]]%lookup_insert_Some; [|by eapply (oo_world c1)].
      split; [done|]. simpl. eauto.
    + destruct (oo_threads _ Hc i th Hi) as [Hacc Hr]. rewrite Hp in Hr. destruct Hr as [Hg [k ->]].
      pose proof (moved_land svc Hinj _ _ _ _ _ _ (oo_inv _ Hc) Hacc (Hb _) Hg Hw) as Hm.
      pose proof (moved_extends _ _ _ _ _ Hm) as Hext. split; simpl; [apply Hm| |].
      { etrans; [apply (oo_ext _ Hc)|done]. }
      intros j thj [_ Hj]%lookup_delete_Some. by eapply (oo_world c1).
    + destruct (other_moved (c_world c1) input p w p' w') as [Hinv Hext]; try done.
      { apply Hc. } { by apply Hothers. }
      apply (open_ok_world c1); [done|by apply (kept_inv svc w')|exact Hext].
  - destruct (outbox_inv op (c_world c1) (oo_inv _ Hc)) as [Hinv HL].
    apply open_ok_world; [done|done|by rewrite HL].
  - apply open_ok_world; [done| |done]. by eapply kept_inv; [apply Hc|..].
Qed.

Lemma open_ok_reachable c :
  service_inv svc (answering w0) → rtc open_step (server_init w0) c → open_ok c.
Proof.
  intros Hinv H. eapply rtc_invariant; [apply open_ok_step|exact H|]. by split.
Qed.

(** A turn makes a chain at most one entry longer. *)
Lemma open_turns turns c :
  open_ok c → chains_below (i64_max - Z.of_nat (length turns)) (c_world c) →
  rtc open_step c (run_turns svc turns c).
Proof.
  revert c. induction turns as [|i turns IH]; intros c Hc Hb; [done|]. cbn [length] in Hb.
  assert (chains_below i64_max (c_world c)) as Hb' by (intros t; specialize (Hb t); lia).
  change (run_turns svc (i :: turns) c) with (run_turns svc turns (take_turn svc i c)).
  destruct (take_turn_step svc i c) as [E|Hs].
  - rewrite E. apply IH; [done|]. intros t. specialize (Hb t). lia.
  - eapply rtc_l; [by apply open_server, step_own|]. apply IH; [by eapply open_ok_own|].
    intros t. specialize (Hb t). revert Hb.
    destruct Hs as [c i' th phase w Hi Hnl Hnf Ha|c i' th Hi Hp Ho]; cbn [c_world]; [|lia].
    destruct (mv_ledger _ _ _ _ _ (own_moved c i' th phase w Hc Hb' Hi Hnl Hnf Ha)) as [->|[e ->]]; [lia|].
    rewrite chain_append. case_decide; [rewrite length_app; simpl|]; lia.
Qed.
End Open.

(** * Properties *)

Section Properties.
Context {P : Platform} {PL : PlatformLaws P} {G : PgPlatform} {GL : PgLaws G} {Pub : Type}.
Context `{!EventPublisher Pub} (svc : ImmutableLedgerService Pub).
Context (calls others : WriteEntryInput → Prop).
Implicit Types (w : World PostgresLedgerRepository) (c : Config PostgresLedgerRepository).

(** C11: a failing database costs answers, never the ledger.  Calls arrive, interleave
    at every [await] and are abandoned - even during a COMMIT that lands later -
    other processes write to the same tables, processors update the outbox, and
    every request to the database may fail or be carried out with its answer lost.
    All the requests written, of the calls and of the others, have texts that fit
    their columns without being cut ([request_accepted]).  In every state reached
    the constraints hold, positions are dense, nothing that was stored has moved or
    changed, and verify_chain - asked, once the database answers, for any entry
    type without a NUL character - finds the chain valid and counts all of its
    entries.  Every success that was answered names a stored entry with the
    request's data, and two successes of one chain and one idempotency key have the
    same answer: the retries of a request whose commit was lost append it once. *)
Theorem writes_survive_failures w c :
  Inj (=) (=) (uuid_v4 : nat → Uuid) →
  (∀ input, calls input → request_accepted (R := PostgresLedgerRepository) svc input) →
  (∀ input, others input → request_accepted (R := PostgresLedgerRepository) svc input) →
  service_inv svc (answering w) → rtc (open_step svc calls others) (server_init w) c →
  let L := w_ledger (c_world c) in
  service_inv svc (answering (c_world c)) ∧ ledger_dense L ∧ ledger_extends (w_ledger w) L
  ∧ (∀ fuel t, sql_text t = true → (length (chain L t) < fuel)%nat →
       (verify_chain svc fuel t None None (answering (c_world c))).1
       = Some (Ok (chain_ok (Z.of_nat (length (chain L t))))))
  ∧ (∀ i th out, c_threads c !! i = Some th → th_phase th = Finished (Ok out) →
       ∃ e, e ∈ chain L (th_chain th) ∧ entry_for (th_input th) e ∧ output_of_entry e = out)
  ∧ (∀ i j thi thj outi outj key, c_threads c !! i = Some thi → c_threads c !! j = Some thj →
       th_phase thi = Finished (Ok outi) → th_phase thj = Finished (Ok outj) →
       th_chain thi = th_chain thj → wi_idempotency_key (th_input thi) = Some key →
       wi_idempotency_key (th_input thj) = Some key → outi = outj).
Proof.
  intros Hinj Hcalls Hothers Hinv H L.
  assert (open_ok svc w c) as Hc by (by apply (open_ok_reachable svc calls others)).
  pose proof (oo_inv _ _ _ Hc) as Hinv'. pose proof (si_wf _ _ Hinv') as Hwf.
  assert (∀ i th out, c_threads c !! i = Some th → th_phase th = Finished (Ok out) →
    ∃ e, e ∈ chain L (th_chain th) ∧ entry_for (th_input th) e ∧ output_of_entry e = out) as Hans.
  { intros i th out Hi Hp. destruct (oo_threads _ _ _ Hc i th Hi) as [_ Hr]. by rewrite Hp in Hr. }
  split; [done|]. split; [apply (store_dense _ Hwf)|]. split; [apply (oo_ext _ _ _ Hc)|].
  split; [|split; [done|]].
  - intros fuel t Ht Hfuel. rewrite verify_chain_whole; [|by apply store_wf_ok|exact Ht|done]. simpl.
    by rewrite audit_ok by apply (si_valid _ _ Hinv').
  - intros i j thi thj outi outj key Hi Hj Pi Pj Ht Ki Kj.
    destruct (Hans i thi outi Hi Pi) as (ei & Ei & (_ & Ii & _) & <-).
    destruct (Hans j thj outj Hj Pj) as (ej & Ej & (_ & Ij & _) & <-). rewrite <- Ht in Ej.
    f_equal. eapply (store_keys _ Hwf); [exact Ei|exact Ej|by rewrite Ii|by rewrite Ij].
Qed.
End Properties.

(** * Witness: two retries of one request, the commit of the first is lost *)

#[local] Existing Instance Toy.platform.
#[local] Existing Instance Toy.laws.
#[local] Existing Instance ToyPg.server.
#[local] Existing Instance ToyPg.server_laws.
#[local] Existing Instance collector_publisher.

Definition faulty_world (faults : list Fault) : World PostgresLedgerRepository :=
  set_faults faults (world_init pg_empty).

Definition faulty_race (faults : list Fault) (rounds : nat) : Config PostgresLedgerRepository :=
  run_turns demo_announcing (mjoin (replicate rounds [0; 1]%nat))
    (receive 0 [demo_client; demo_client] (server_init (faulty_world faults))).

Definition answered (c : Config PostgresLedgerRepository) (i : nat) : option bool :=
  match th_phase <$> c_threads c !! i with
  | Some (Finished res) => Some (is_ok res)
  | _ => None
  end.

(** The thirteenth request is the commit of the first call. *)
Definition lost_race : Config PostgresLedgerRepository :=
  faulty_race (repeat Answered 12 ++ [AnswerLost]) 12.

(** The second call is answered with the entry of the first, which has failed. *)
Lemma lost_race_answers :
  map (answered lost_race) [0; 1]%nat = [Some false; Some true]
  ∧ map le_entry_id (tb_entries (world_tables (c_world lost_race))) = [uuid_v4 0].
Proof. split; by_compute. Qed.

Definition retries (input : WriteEntryInput) : Prop := input = demo_client.

Lemma retries_accepted input :
  retries input → request_accepted (R := PostgresLedgerRepository) demo_announcing input.
Proof. intros -> h k. split; [by_compute|apply pg_timestamp_now]. Qed.

Lemma faulty_world_inv faults : service_inv demo_announcing (answering (faulty_world faults)).
Proof.
  split; [by split; [|apply pg_empty_wf]|done|]. intros m _. apply pg_empty_fresh.
Qed.

Lemma retries_received w :
  chains_below i64_max w →
  rtc (open_step demo_announcing retries no_call) (server_init w)
    (receive 0 [demo_client; demo_client] (server_init w)).
Proof.
  intros Hb.
  eapply rtc_l; [apply open_server, (step_call _ _ _ _ 0 demo_client); done|].
  eapply rtc_l; [apply open_server, (step_call _ _ _ _ 1 demo_client); done|]. done.
Qed.

Lemma lost_race_reached :
  rtc (open_step demo_announcing retries no_call)
    (server_init (faulty_world (repeat Answered 12 ++ [AnswerLost]))) lost_race.
Proof.
  set (w := faulty_world _).
  assert (chains_below i64_max w) as Hb by (intros t; by_compute).
  etrans; [by apply retries_received|].
  apply (open_turns demo_announcing retries no_call demo_uuid_inj w).
  - apply (open_ok_reachable demo_announcing retries no_call demo_uuid_inj retries_accepted);
      [by intros ? []|apply faulty_world_inv|by apply retries_received].
  - intros t. by_compute.
Qed.

Lemma writes_survive_failures_witness :
  let L := w_ledger (c_world lost_race) in
  ledger_dense L
  ∧ ∀ t, sql_text t = true →
         (verify_chain demo_announcing (S (length (chain L t))) t None None
            (answering (c_world lost_race))).1
         = Some (Ok (chain_ok (Z.of_nat (length (chain L t))))).
Proof.
  destruct (writes_survive_failures demo_announcing retries no_call
              (faulty_world (repeat Answered 12 ++ [AnswerLost])) lost_race demo_uuid_inj
              retries_accepted (λ input H, False_ind _ H) (faulty_world_inv _) lost_race_reached)
    as (_ & HD & _ & Hv & _).
  split; [exact HD|]. intros t Ht. exact (Hv (S (length _)) t Ht (le_n _)).
Defined.
