(* ===== verification/Grpc.v ===== *)
(** * [src/grpc/mod.rs]: the gRPC surface

    The messages are those of [proto/immutable_ledger.proto], a record per
    message with its fields' names behind a prefix; one definition per handler of
    [ImmutableLedgerGrpc].  A handler takes the decoded message; transport,
    metadata and the generated [tonic] code are left out. *)

From Stdlib Require Import String Strings.Byte ZArith Lia.
From stdpp Require Import base tactics numbers strings list gmap sorting.
From S2P Require Import Prelude Platform Crypto Repository Config World Service LedgerSpec.
From S2P Require Import InMemory Chain Examples ServiceWrite TestRepos ServiceVerify.

(** ** Messages *)

Record WriteEntryRequest := {
  wq_entry_type : string; wq_agent_id : string; wq_content : list byte;
  wq_content_type : string; wq_source_id : string; wq_correlation_id : string;
  wq_idempotency_key : string; wq_input_hash : string; wq_writer_signature : list byte;
  wq_signer_key_reference : string; wq_attestation_report : list byte
}.

Record WriteEntryResponse := {
  wp_entry_id : string; wp_entry_hash : string; wp_chain_position : string;
  wp_written_ts : Z; wp_hash_version : string
}.

Record QueryEntriesRequest := {
  qq_entry_type : string; qq_agent_id : string; qq_source_id : string;
  qq_correlation_id : string; qq_from_ts : Z; qq_to_ts : Z; qq_page_size : Z;
  qq_page_token : string
}.

Record LedgerEntry := {
  pe_entry_id : string; pe_entry_type : string; pe_agent_id : string;
  pe_content : list byte; pe_content_type : string; pe_source_id : string;
  pe_correlation_id : string; pe_entry_hash : string; pe_previous_hash : string;
  pe_chain_position : Z; pe_written_ts : Z; pe_idempotency_key : string;
  pe_input_hash : string; pe_writer_signature : list byte;
  pe_signer_key_reference : string; pe_attestation_report : list byte;
  pe_hash_version : string
}.

Record QueryEntriesResponse := {
  qs_entries : list LedgerEntry; qs_next_page_token : string; qs_total_count : Z
}.

Record VerifyEntryResponse := {
  vr_entry_id : string; vr_hash_valid : bool; vr_chain_link_valid : bool;
  vr_failure_reason : string
}.

Record VerifyChainRequest := {
  cq_entry_type : string; cq_start_entry_id : string; cq_end_entry_id : string
}.

Record VerifyChainResponse := {
  cs_chain_valid : bool; cs_entries_checked : Z; cs_first_invalid_entry_id : string;
  cs_failure_reason : string
}.

Record GetChainTipResponse := {
  tp_entry_id : string; tp_entry_hash : string; tp_chain_position : Z; tp_written_ts : Z;
  tp_hash_version : string
}.

Record ProofReceipt := {
  rc_entry_hash : string; rc_entry_type : string; rc_chain_position : Z; rc_written_ts : Z;
  rc_entry_id : string; rc_input_hash : string; rc_writer_signature : list byte;
  rc_signer_key_reference : string; rc_attestation_report : list byte; rc_hash_version : string
}.

(** [VerifyProofRequest] and [GetEntryByHashRequest] have the same fields. *)
Record HashRequest := { hq_entry_hash : string; hq_entry_type : string }.

Record VerifyProofResponse := {
  pv_valid : bool; pv_entry_type : string; pv_agent_id : string; pv_written_ts : Z;
  pv_chain_position : Z; pv_failure_reason : string; pv_source_id : string;
  pv_correlation_id : string; pv_content_type : string; pv_input_hash : string;
  pv_writer_signature : list byte; pv_signer_key_reference : string;
  pv_attestation_report : list byte; pv_hash_version : string
}.

(** ** Status: [tonic::Status] *)

Inductive Code : Type :=
| CInvalidArgument | CNotFound | CAlreadyExists | CUnavailable | CInternal | CUnauthenticated.

#[global] Instance Code_eq_decision : EqDecision Code.
Proof. solve_decision. Defined.

Record Status := mkStatus { status_code : Code; status_message : string }.

Definition map_status (err : ServiceError) : Status :=
  match err with
  | SNotFound => mkStatus CNotFound "not found"
  | SInvalidArgument message => mkStatus CInvalidArgument message
  | SAlreadyExists message => mkStatus CAlreadyExists message
  | SUnavailable => mkStatus CUnavailable "unavailable"
  | SInternal message => mkStatus CInternal message
  end.

Definition empty_to_none (value : string) : option string :=
  if is_empty value then None else Some value.

Definition empty_bytes_to_none (value : list byte) : option (list byte) :=
  if is_nil value then None else Some value.

Definition zero_to_none (ts : Z) : option Z := if ts =? 0 then None else Some ts.

(** [.await.map_err(map_err)?] and the response built from the output. *)
Definition respond {R A B : Type} (m : M R (result A ServiceError)) (f : A → B)
    : M R (result B Status) :=
  let! out := m in
  match out with Ok a => ret (Ok (f a)) | Err e => ret (Err (map_status e)) end.

Definition write_input_of_request (input : WriteEntryRequest) : WriteEntryInput := {|
  wi_entry_type := wq_entry_type input;
  wi_agent_id := wq_agent_id input;
  wi_content := wq_content input;
  wi_content_type := wq_content_type input;
  wi_source_id := wq_source_id input;
  wi_correlation_id := empty_to_none (wq_correlation_id input);
  wi_idempotency_key := empty_to_none (wq_idempotency_key input);
  wi_input_hash := empty_to_none (wq_input_hash input);
  wi_writer_signature := empty_bytes_to_none (wq_writer_signature input);
  wi_signer_key_reference := empty_to_none (wq_signer_key_reference input);
  wi_attestation_report := empty_bytes_to_none (wq_attestation_report input)
|}.

Section Handlers.
Context {P : Platform}.

Definition parse_uuid (raw : string) : result Uuid Status :=
  ok_or (uuid_from_str raw) (mkStatus CInvalidArgument "must be valid UUID").

Definition pb_entry (entry : LedgerEntryRecord) : LedgerEntry := {|
  pe_entry_id := uuid_to_string (le_entry_id entry);
  pe_entry_type := le_entry_type entry;
  pe_agent_id := le_agent_id entry;
  pe_content := le_content entry;
  pe_content_type := le_content_type entry;
  pe_source_id := le_source_id entry;
  pe_correlation_id := default "" (le_correlation_id entry);
  pe_entry_hash := le_entry_hash entry;
  pe_previous_hash := le_previous_hash entry;
  pe_chain_position := le_chain_position entry;
  pe_written_ts := timestamp_millis (le_written_ts entry);
  pe_idempotency_key := default "" (le_idempotency_key entry);
  pe_input_hash := default "" (le_input_hash entry);
  pe_writer_signature := default [] (le_writer_signature entry);
  pe_signer_key_reference := default "" (le_signer_key_reference entry);
  pe_attestation_report := default [] (le_attestation_report entry);
  pe_hash_version := le_hash_version entry
|}.

Context {R Pub : Type} `{!LedgerRepository R, !EventPublisher Pub}.
Context (svc : ImmutableLedgerService Pub).

Definition grpc_write_entry (input : WriteEntryRequest) : M R (result WriteEntryResponse Status) :=
  respond (write_entry svc (write_input_of_request input)) (λ output, {|
    wp_entry_id := uuid_to_string (wo_entry_id output);
    wp_entry_hash := wo_entry_hash output;
    wp_chain_position := int_to_string (wo_chain_position output);
    wp_written_ts := wo_written_ts_ms output;
    wp_hash_version := wo_hash_version output |}).

Definition grpc_get_entry (entry_id : string) : M R (result LedgerEntry Status) :=
  match parse_uuid entry_id with
  | Err status => ret (Err status)
  | Ok id => respond (service_get_entry id) pb_entry
  end.

Definition query_input_of_request (input : QueryEntriesRequest) : QueryEntriesInput := {|
  qi_entry_type := empty_to_none (qq_entry_type input);
  qi_agent_id := empty_to_none (qq_agent_id input);
  qi_source_id := empty_to_none (qq_source_id input);
  qi_correlation_id := empty_to_none (qq_correlation_id input);
  qi_from_ts := zero_to_none (qq_from_ts input);
  qi_to_ts := zero_to_none (qq_to_ts input);
  qi_page_size := qq_page_size input;
  qi_page_token := empty_to_none (qq_page_token input)
|}.

Definition grpc_query_entries (input : QueryEntriesRequest)
    : M R (result QueryEntriesResponse Status) :=
  respond (service_query_entries (query_input_of_request input))
    (λ '(page, next_token, total_count), {|
       qs_entries := map pb_entry page;
       qs_next_page_token := default "" next_token;
       qs_total_count := total_count |}).

Definition grpc_verify_entry (entry_id : string) : M R (result VerifyEntryResponse Status) :=
  match parse_uuid entry_id with
  | Err status => ret (Err status)
  | Ok id =>
      respond (verify_entry svc id) (λ output, {|
        vr_entry_id := uuid_to_string (ve_entry_id output);
        vr_hash_valid := ve_hash_valid output;
        vr_chain_link_valid := ve_chain_link_valid output;
        vr_failure_reason := ve_failure_reason output |})
  end.

Definition parse_bound (raw : string) : result (option Uuid) Status :=
  if is_empty raw then Ok None else let? id := parse_uuid raw in Ok (Some id).

Definition chain_response (output : VerifyChainOutput) : VerifyChainResponse := {|
  cs_chain_valid := vc_chain_valid output;
  cs_entries_checked := vc_entries_checked output;
  cs_first_invalid_entry_id := default "" (uuid_to_string <$> vc_first_invalid_entry_id output);
  cs_failure_reason := vc_failure_reason output
|}.

(** [None] when the fuel of [verify_chain] runs out. *)
Definition grpc_verify_chain (fuel : nat) (input : VerifyChainRequest)
    : M R (option (result VerifyChainResponse Status)) :=
  if is_empty (cq_entry_type input) then
    ret (Some (Err (mkStatus CInvalidArgument "entry_type is required")))
  else
    match parse_bound (cq_start_entry_id input) with
    | Err status => ret (Some (Err status))
    | Ok start_id =>
        match parse_bound (cq_end_entry_id input) with
        | Err status => ret (Some (Err status))
        | Ok end_id =>
            let! out := verify_chain svc fuel (cq_entry_type input) start_id end_id in
            ret (match out with
                 | None => None
                 | Some (Err e) => Some (Err (map_status e))
                 | Some (Ok output) => Some (Ok (chain_response output))
                 end)
        end
    end.

Definition grpc_get_chain_tip (entry_type : string) : M R (result GetChainTipResponse Status) :=
  if is_empty entry_type then ret (Err (mkStatus CInvalidArgument "entry_type is required"))
  else
    respond (service_get_chain_tip entry_type) (λ tip, {|
      tp_entry_id := uuid_to_string (ct_entry_id tip);
      tp_entry_hash := ct_hash tip;
      tp_chain_position := ct_position tip;
      tp_written_ts := timestamp_millis (ct_written_ts tip);
      tp_hash_version := ct_hash_version tip |}).

Definition grpc_issue_receipt (input : WriteEntryRequest) : M R (result ProofReceipt Status) :=
  respond (issue_receipt svc (write_input_of_request input)) (λ receipt, {|
    rc_entry_hash := pr_entry_hash receipt;
    rc_entry_type := pr_entry_type receipt;
    rc_chain_position := pr_chain_position receipt;
    rc_written_ts := pr_written_ts_ms receipt;
    rc_entry_id := uuid_to_string (pr_entry_id receipt);
    rc_input_hash := pr_input_hash receipt;
    rc_writer_signature := pr_writer_signature receipt;
    rc_signer_key_reference := pr_signer_key_reference receipt;
    rc_attestation_report := pr_attestation_report receipt;
    rc_hash_version := pr_hash_version receipt |}).

Definition hash_request_ok (input : HashRequest) : bool :=
  negb (is_empty (hq_entry_hash input) || is_empty (hq_entry_type input)).

Definition hash_request_error : Status :=
  mkStatus CInvalidArgument "entry_hash and entry_type are required".

Definition grpc_get_entry_by_hash (input : HashRequest) : M R (result LedgerEntry Status) :=
  if negb (hash_request_ok input) then ret (Err hash_request_error)
  else respond (service_get_entry_by_hash (hq_entry_type input) (hq_entry_hash input)) pb_entry.

Definition grpc_verify_proof (input : HashRequest) : M R (result VerifyProofResponse Status) :=
  if negb (hash_request_ok input) then ret (Err hash_request_error)
  else
    respond (verify_proof (hq_entry_type input) (hq_entry_hash input)) (λ output, {|
      pv_valid := vp_valid output;
      pv_entry_type := vp_entry_type output;
      pv_agent_id := vp_agent_id output;
      pv_written_ts := vp_written_ts_ms output;
      pv_chain_position := vp_chain_position output;
      pv_failure_reason := vp_failure_reason output;
      pv_source_id := vp_source_id output;
      pv_correlation_id := vp_correlation_id output;
      pv_content_type := vp_content_type output;
      pv_input_hash := vp_input_hash output;
      pv_writer_signature := vp_writer_signature output;
      pv_signer_key_reference := vp_signer_key_reference output;
      pv_attestation_report := vp_attestation_report output;
      pv_hash_version := vp_hash_version output |}).

(** What an auditor with only the wire form of an entry can hash. *)
Definition hash_input_of_pb (e : LedgerEntry) : option CanonicalEntryHashInput :=
  match uuid_from_str (pe_entry_id e) with
  | None => None
  | Some id => Some {|
      ch_entry_id := id;
      ch_entry_type := pe_entry_type e;
      ch_agent_id := pe_agent_id e;
      ch_content := pe_content e;
      ch_content_type := pe_content_type e;
      ch_source_id := pe_source_id e;
      ch_correlation_id := empty_to_none (pe_correlation_id e);
      ch_idempotency_key := empty_to_none (pe_idempotency_key e);
      ch_input_hash := empty_to_none (pe_input_hash e);
      ch_writer_signature := empty_bytes_to_none (pe_writer_signature e);
      ch_signer_key_reference := empty_to_none (pe_signer_key_reference e);
      ch_attestation_report := empty_bytes_to_none (pe_attestation_report e);
      ch_chain_position := pe_chain_position e;
      ch_written_ts_ms := pe_written_ts e;
      ch_previous_hash := pe_previous_hash e |}
  end.
End Handlers.

(** * Lemmas *)

Lemma default_empty_to_none (s : string) : default "" (empty_to_none s) = s.
Proof. unfold empty_to_none. destruct (is_empty s) eqn:E; [|done]. by apply is_empty_true in E. Qed.

Lemma default_empty_bytes_to_none (l : list byte) : default [] (empty_bytes_to_none l) = l.
Proof. by destruct l. Qed.

#[export] Hint Rewrite default_empty_to_none default_empty_bytes_to_none : ledger_rw.

(** * Properties *)

Section GrpcProperties.
Context {P : Platform} {PL : PlatformLaws P} {R Pub : Type}.
Context `{!LedgerRepository R, !LedgerStore R, !LedgerStoreLaws R, !EventPublisher Pub}.
Context (svc : ImmutableLedgerService Pub).

(** C33: entries can be audited over the wire: although gRPC does not tell an absent
    optional field from an empty one, the hash an auditor computes from the wire
    form of an entry is the hash the service recomputes from the stored one, for
    every hash version. *)
Theorem wire_entry_auditable (e : LedgerEntryRecord) :
  ∃ i, hash_input_of_pb (pb_entry e) = Some i
    ∧ canonical_entry_hash_for_version (pe_hash_version (pb_entry e)) i = entry_recomputed e.
Proof.
  unfold hash_input_of_pb. simpl. rewrite uuid_from_to_string. eexists. split; [reflexivity|].
  unfold entry_recomputed, canonical_entry_hash_for_version, canonical_entry_hash_v2,
    canonical_entry_hash_v3.
  set (i := Build_CanonicalEntryHashInput _ _ _ _ _ _ _ _ _ _ _ _ _ _ _).
  assert (bound_v3 i = bound_v3 (hash_input_of_entry e)) as H3.
  { unfold bound_v3, i. simpl. by rewrite !default_empty_to_none, !default_empty_bytes_to_none. }
  assert (bound_v2 i = bound_v2 (hash_input_of_entry e)) as H2.
  { unfold bound_v2, i. simpl. by rewrite !default_empty_to_none. }
  apply canonical_bytes_v3_bound in H3. apply canonical_bytes_v2_bound in H2.
  by rewrite H2, H3.
Qed.

End GrpcProperties.

(** Malformed requests stop at the surface: an identifier that is not a UUID, a
    missing entry type or a missing hash is answered with InvalidArgument and
    the call leaves the whole world (repository, clock, metrics, halts) as it
    was. *)
Theorem grpc_argument_errors {P : Platform} {R Pub} `{!LedgerRepository R}
    (svc : ImmutableLedgerService Pub) (fuel : nat) (w : World R) (raw other : string) :
  uuid_from_str raw = None → raw ≠ "" → other ≠ "" →
  let bad := λ A, (@Err A Status (mkStatus CInvalidArgument "must be valid UUID"), w) in
  grpc_get_entry raw w = bad _
  ∧ grpc_verify_entry svc raw w = bad _
  ∧ (∀ end_id, grpc_verify_chain svc fuel {| cq_entry_type := other; cq_start_entry_id := raw;
                                             cq_end_entry_id := end_id |} w
       = (Some (Err (mkStatus CInvalidArgument "must be valid UUID")), w))
  ∧ (∀ start_id end_id, grpc_verify_chain svc fuel
       {| cq_entry_type := ""; cq_start_entry_id := start_id; cq_end_entry_id := end_id |} w
       = (Some (Err (mkStatus CInvalidArgument "entry_type is required")), w))
  ∧ grpc_get_chain_tip "" w = (Err (mkStatus CInvalidArgument "entry_type is required"), w)
  ∧ (∀ q, hq_entry_hash q = "" ∨ hq_entry_type q = "" →
       grpc_get_entry_by_hash q w = (Err hash_request_error, w)
       ∧ grpc_verify_proof q w = (Err hash_request_error, w)).
Proof.
  intros Hraw Hne Hother bad. unfold grpc_get_entry, grpc_verify_entry, grpc_verify_chain, parse_bound,
    parse_uuid. simpl. rewrite Hraw. simpl.
  rewrite (proj2 (is_empty_false raw) Hne), (proj2 (is_empty_false other) Hother).
  do 5 (split; [done|]). intros [h t]. simpl. intros Hq.
  unfold grpc_get_entry_by_hash, grpc_verify_proof, hash_request_ok. simpl.
  destruct Hq as [->| ->]; rewrite ?orb_true_r; by split.
Qed.

(** * Witnesses *)

#[local] Existing Instance Toy.platform.
#[local] Existing Instance Toy.laws.

Definition demo_grpc_request : WriteEntryRequest := {|
  wq_entry_type := "t"; wq_agent_id := "a"; wq_content := as_bytes "c"; wq_content_type := "p";
  wq_source_id := "s"; wq_correlation_id := ""; wq_idempotency_key := "k"; wq_input_hash := "";
  wq_writer_signature := []; wq_signer_key_reference := ""; wq_attestation_report := []
|}.

Lemma wire_entry_auditable_witness :
  ∃ i, hash_input_of_pb (pb_entry demo_entry) = Some i
    ∧ canonical_entry_hash_for_version (pe_hash_version (pb_entry demo_entry)) i
      = entry_recomputed demo_entry.
Proof. apply (wire_entry_auditable demo_entry). Defined.

Definition demo_response : WriteEntryResponse := {|
  wp_entry_id := uuid_to_string (wo_entry_id demo_out);
  wp_entry_hash := wo_entry_hash demo_out;
  wp_chain_position := int_to_string (wo_chain_position demo_out);
  wp_written_ts := wo_written_ts_ms demo_out;
  wp_hash_version := wo_hash_version demo_out
|}.

Lemma demo_grpc_write :
  grpc_write_entry demo_service demo_grpc_request demo_empty = (Ok demo_response, demo_one).
Proof.
  unfold grpc_write_entry, respond. run_M.
  change (write_input_of_request demo_grpc_request) with demo_request. by rewrite demo_write.
Qed.


Lemma grpc_argument_errors_witness :
  grpc_get_entry "not-a-uuid" demo_empty
  = (Err (mkStatus CInvalidArgument "must be valid UUID"), demo_empty).
Proof.
  apply (grpc_argument_errors demo_service 1 demo_empty "not-a-uuid" "t");
    [reflexivity|discriminate|discriminate].
Defined.
