(* ===== verification/Durable.v ===== *)
(** * What was acknowledged stays

    The promise of the service, end to end: the gRPC handlers of [src/grpc/mod.rs],
    the service, and the tables of [src/repository/postgres.rs].  After an entry was
    acknowledged, anybody may write through the repository and update the outbox,
    in any order ([run_pg_ops]) - whatever calls, processors and processes the
    statements belong to - while requests to the server fail or lose their answers;
    reading the entry gives one and the same answer whenever it gives one. *)

From Stdlib Require Import String Strings.Byte ZArith Lia.
From stdpp Require Import base tactics numbers strings list gmap sorting.
From S2P Require Import Prelude Platform Crypto Repository Postgres Config World Service LedgerSpec.
From S2P Require Import PostgresLaws PostgresService PostgresSchema Verifier OnlineVerify FaultyVerify.
From S2P Require Import Outbox PostgresOutbox Announce Grpc.

(** [row] is the entry that was requested and answered: its texts are those that
    were sent, at most without trailing spaces that its columns cannot hold. *)
Record stored_as {P : Platform} (input : WriteEntryInput) (out : WriteEntryOutput)
    (row : LedgerEntryRecord) : Prop := {
  sa_id : le_entry_id row = wo_entry_id out;
  sa_hash : le_entry_hash row = wo_entry_hash out;
  sa_position : le_chain_position row = wo_chain_position out;
  sa_version : le_hash_version row = wo_hash_version out;
  sa_time : timestamp_millis (le_written_ts row) = wo_written_ts_ms out;
  sa_content : le_content row = wi_content input;
  sa_signature : le_writer_signature row = wi_writer_signature input;
  sa_attestation : le_attestation_report row = wi_attestation_report input;
  sa_type : varchar 255 (wi_entry_type input) = Some (le_entry_type row);
  sa_agent : varchar 255 (wi_agent_id input) = Some (le_agent_id row);
  sa_content_type : varchar 100 (wi_content_type input) = Some (le_content_type row);
  sa_source : varchar 255 (wi_source_id input) = Some (le_source_id row);
  sa_correlation : varchar_opt 255 (wi_correlation_id input) = Some (le_correlation_id row);
  sa_input_hash : varchar_opt 128 (wi_input_hash input) = Some (le_input_hash row);
  sa_signer : varchar_opt 255 (wi_signer_key_reference input) = Some (le_signer_key_reference row)
}.

Section Durable.
Context {P : Platform} {PL : PlatformLaws P} {G : PgPlatform} {GL : PgLaws G}.
Implicit Types (tb : PgTables) (db : PostgresLedgerRepository) (row : LedgerEntryRecord).

Definition kept_row (input : WriteEntryInput) (out : WriteEntryOutput) tb : Prop :=
  ∃ row, row ∈ tb_entries tb ∧ stored_as input out row.

(** * Lemmas *)

(** ** A success has stored its entry *)

Lemma replayed_row input tb e :
  schema_ok tb → e ∈ tb_entries tb → le_entry_type e = wi_entry_type input →
  idempotent_request_matches e input = true → kept_row input (output_of_entry e) tb.
Proof.
  intros Hs He Ht Hm. exists e. split; [done|]. pose proof (sc_entries _ Hs e He) as Hty.
  unfold idempotent_request_matches in Hm. rewrite !andb_true_iff, !bool_decide_eq_true in Hm.
  unfold entry_typed, fits, fits_opt in Hty. rewrite !andb_true_iff in Hty. destruct_and!.
  repeat match goal with H : bool_decide _ = true |- _ => apply bool_decide_eq_true in H end.
  split; try done; congruence.
Qed.

Lemma written_row input h k create n position row :
  entry_columns (entry_at (entry_write_input input h (utc_now k) create) n position) = Some row →
  stored_as input (output_of_entry (entry_at (entry_write_input input h (utc_now k) create) n position)) row.
Proof.
  unfold entry_columns. intros H.
  repeat (let E := fresh "E" in apply bind_Some in H as (? & E & H)). injection H as <-.
  split; try done; simpl.
  - refine (_ (sha256_hex_fits (canonical_bytes_v3 (hash_input_of_write (uuid_v4 n) position
      (entry_write_input input h (utc_now k) create))))).
    change (varchar 64 (canonical_entry_hash (hash_input_of_write (uuid_v4 n) position
      (entry_write_input input h (utc_now k) create))) = Some x8) in E8.
    rewrite canonical_entry_hash_v3_eq in *. unfold canonical_entry_hash_v3 in *. congruence.
  - assert (varchar 64 ENTRY_HASH_VERSION = Some ENTRY_HASH_VERSION) as Hv by reflexivity.
    change (varchar 64 ENTRY_HASH_VERSION = Some x7) in E7. congruence.
  - apply pg_timestamp_now.
Qed.

Lemma write_stores_row input h k create n db :
  let '(res, _, db') := pg_write_entry_with_outbox (entry_write_input input h (utc_now k) create) n db in
  match res with Ok out => kept_row input (output_of_entry (wr_entry out)) (pg_tables db') | Err _ => True end.
Proof.
  pose proof (pg_write_outcome db (entry_write_input input h (utc_now k) create) n) as Hw.
  destruct (pg_write_entry_with_outbox _ n db) as [[[out|x] n'] db']; [|done].
  destruct Hw as (Hc & [position He] & _). apply committed_row in Hc as (row & Hrow & Hcols).
  exists row. split; [done|]. rewrite He in Hcols |- *. by apply written_row.
Qed.

Lemma write_entry_durable {Pub : Type} `{!EventPublisher Pub} (svc : ImmutableLedgerService Pub) input :
  triple schema_ok (write_entry svc input) (says schema_ok (kept_row input)).
Proof.
  apply triple_write_entry.
  - intros tb e. apply replayed_row.
  - intros h k w Hs. unfold call_write, world_tables in *. simpl.
    pose proof (write_stores_row input h k (create_outbox svc) (w_uuids w) (w_repo w)) as Hr.
    pose proof (write_schema (entry_write_input input h (utc_now k) (create_outbox svc))
                  (w_uuids w) (w_repo w) Hs) as Hs'.
    by destruct (pg_write_entry_with_outbox _ _ _) as [[res n] db].
Qed.

(** ** Nothing takes it away *)

Lemma pg_ops_keep_rows (ops : list PgOp) (n : nat) db :
  tb_entries (pg_tables db) `prefix_of` tb_entries (pg_tables (run_pg_ops ops n db)).
Proof.
  revert n db. induction ops as [|[input|op] ops IH]; intros n db; simpl; [done|..].
  - pose proof (write_grows input n db) as [Hg _].
    destruct (pg_write_entry_with_outbox input n db) as [[res n'] db']. by etrans.
  - etrans; [|apply IH]. apply op_grows.
Qed.

(** ** Reading it *)

Lemma scan_by_id row tb :
  schema_ok tb → row ∈ tb_entries tb →
  pg_scan (filter (λ e, bool_decide (le_entry_id e = le_entry_id row) = true) (tb_entries tb)) = [row].
Proof.
  intros Hs Hrow. apply Permutation_singleton_r. rewrite pg_scan_perm.
  apply NoDup_Permutation; [|apply NoDup_singleton|].
  - apply NoDup_filter, (NoDup_fmap_1 le_entry_id), sc_entry_ids, Hs.
  - intros e. rewrite list_elem_of_filter, bool_decide_eq_true, list_elem_of_singleton. split.
    + intros [Hid He]. by apply (nodup_fmap_unique le_entry_id (tb_entries tb)); [apply sc_entry_ids| | |].
    + by intros ->.
Qed.

Lemma healthy_get_entry row db :
  schema_ok (pg_tables db) → row ∈ tb_entries (pg_tables db) →
  (pg_get_entry (le_entry_id row) (healed db)).1 = Ok row.
Proof.
  intros Hs Hrow. pose proof (scan_by_id row _ Hs Hrow) as Hscan.
  unfold pg_get_entry, select_entry, found, pool_get, pg_try, pg_read. simpl. by rewrite Hscan.
Qed.

Lemma row_type_text row tb : schema_ok tb → row ∈ tb_entries tb → sql_text (le_entry_type row) = true.
Proof.
  intros Hs Hrow%(sc_entries _ Hs). unfold entry_typed in Hrow. rewrite !andb_true_iff in Hrow.
  assert (fits 255 (le_entry_type row) = true) as Hfit by tauto. apply bool_decide_eq_true in Hfit.
  by apply varchar_sql_text in Hfit.
Qed.

(** The newest entry of a chain is not behind [row]. *)
Lemma healthy_chain_tip row db :
  schema_ok (pg_tables db) → row ∈ tb_entries (pg_tables db) →
  ∃ tip, (pg_get_chain_tip (le_entry_type row) (healed db)).1 = Ok tip
    ∧ le_chain_position row ≤ ct_position tip.
Proof.
  intros Hs Hrow. unfold pg_get_chain_tip, found, pool_get, pg_try, pg_select, pg_read. simpl.
  rewrite (row_type_text row _ Hs Hrow). simpl. unfold select_tip. set (l := pg_scan (of_type (le_entry_type row) (pg_tables db))).
  assert (row ∈ stable_sort position_desc l) as Hin.
  { unfold l. rewrite stable_sort_perm, pg_scan_perm. by apply elem_of_of_type. }
  pose proof (stable_sort_sorted position_desc (λ a b, position_asc_total b a)
                (λ a b c H1 H2, position_asc_trans c b a H2 H1) l) as Hsort.
  destruct Hsort as [|top l' _ Htop]; [by apply elem_of_nil in Hin|].
  eexists. split; [done|]. simpl. apply elem_of_cons in Hin as [->|Hin]; [done|].
  rewrite Forall_forall in Htop. apply Z.leb_le, (Htop _ Hin).
Qed.

(** Two answers for one read: the row, or that the server cannot be asked. *)
Lemma faulty_answer {A} (read : Pg (result A RepositoryError)) db a :
  faulty_pg read → (read (healed db)).1 = Ok a →
  ((read db).1 = Ok a ∨ (read db).1 = Err Unavailable) ∧ (pg_faults db = [] → (read db).1 = Ok a).
Proof.
  intros Hf Ha. destruct (Hf db) as (_ & _ & Hr). change (heal db) with (healed db) in Hr.
  rewrite Ha in Hr. split; [done|]. intros H0. rewrite <- Ha. f_equal. f_equal.
  unfold healed. rewrite <- H0. by destruct db.
Qed.

Lemma get_entry_answer row db :
  schema_ok (pg_tables db) → row ∈ tb_entries (pg_tables db) →
  let answer := (pg_get_entry (le_entry_id row) db).1 in
  (answer = Ok row ∨ answer = Err Unavailable) ∧ (pg_faults db = [] → answer = Ok row).
Proof.
  intros Hs Hrow. apply faulty_answer; [|by apply healthy_get_entry].
  exact (faulty_get_entry (R1 := PostgresLedgerRepository) (R2 := PostgresLedgerRepository) _).
Qed.

Lemma chain_tip_answer row db :
  schema_ok (pg_tables db) → row ∈ tb_entries (pg_tables db) →
  match (pg_get_chain_tip (le_entry_type row) db).1 with
  | Ok tip => le_chain_position row ≤ ct_position tip
  | Err e => e = Unavailable
  end.
Proof.
  intros Hs (tip & Htip & Hle)%healthy_chain_tip; [|done]. apply faulty_answer in Htip as [[-> | ->] _]; [done..|].
  exact (faulty_get_chain_tip (R1 := PostgresLedgerRepository) (R2 := PostgresLedgerRepository) _).
Qed.

(** * Properties *)

Context {Pub : Type} `{!EventPublisher Pub} (svc : ImmutableLedgerService Pub).
Implicit Types (w : World PostgresLedgerRepository).

Lemma grpc_write_schema request w :
  schema_ok (world_tables w) → schema_ok (world_tables (grpc_write_entry svc request w).2).
Proof.
  intros Hs. pose proof (write_entry_durable svc (write_input_of_request request) w Hs) as [H _].
  unfold grpc_write_entry, respond. run_M. by destruct (write_entry _ _ _) as [[out|e] w'].
Qed.

(** C3: what was acknowledged is there for good and never changes.  When
    WriteEntry has answered Ok - whatever the server did meanwhile, and be the
    entry new or the replay of an idempotency key - there is one entry that every
    later GetEntry with the identifier of the response answers with, unless the
    server fails, and then the status is Unavailable: no sequence of writes and
    outbox updates, of any call or process, with any failures, makes the entry
    disappear or differ.  The entry is the one requested (its texts at most without
    trailing spaces that its columns cannot hold) with the hash, position, time and
    version of the response, and the tip of its chain is never behind it. *)
Theorem acknowledged_writes_are_durable w w1 request response :
  schema_ok (world_tables w) → grpc_write_entry svc request w = (Ok response, w1) →
  ∃ row out, stored_as (write_input_of_request request) out row
    ∧ response = {| wp_entry_id := uuid_to_string (wo_entry_id out); wp_entry_hash := wo_entry_hash out;
                    wp_chain_position := int_to_string (wo_chain_position out);
                    wp_written_ts := wo_written_ts_ms out; wp_hash_version := wo_hash_version out |}
    ∧ ∀ db ops n w2,
        pg_tables db = world_tables w1 → world_tables w2 = pg_tables (run_pg_ops ops n db) →
        let answer := (grpc_get_entry (wp_entry_id response) w2).1 in
        (answer = Ok (pb_entry row) ∨ answer = Err (mkStatus CUnavailable "unavailable"))
        ∧ (pg_faults (w_repo w2) = [] → answer = Ok (pb_entry row))
        ∧ match (service_get_chain_tip (pe_entry_type (pb_entry row)) w2).1 with
          | Ok tip => pe_chain_position (pb_entry row) ≤ ct_position tip
          | Err e => e = SUnavailable
          end.
Proof.
  intros Hs. unfold grpc_write_entry, respond. run_M.
  pose proof (write_entry_durable svc (write_input_of_request request) w Hs) as Hw.
  destruct (write_entry svc (write_input_of_request request) w) as [[out|err] w'] eqn:Hr; [|done].
  intros [= <- <-]. destruct Hw as [Hs' (row & Hrow & Has)]. exists row, out.
  split; [done|]. split; [done|]. intros db ops n w2 Hdb H2. simpl in Hs', Hrow.
  assert (schema_ok (pg_tables (w_repo w2))) as Hs2.
  { change (schema_ok (world_tables w2)). rewrite H2. apply pg_ops_schema. by rewrite Hdb. }
  assert (row ∈ tb_entries (pg_tables (w_repo w2))) as Hrow2.
  { change (row ∈ tb_entries (world_tables w2)). rewrite H2.
    destruct (pg_ops_keep_rows ops n db) as [more ->]. rewrite Hdb. apply elem_of_app. by left. }
  pose proof (get_entry_answer row _ Hs2 Hrow2) as Hget. pose proof (chain_tip_answer row _ Hs2 Hrow2) as Htip.
  simpl. unfold grpc_get_entry, parse_uuid. rewrite uuid_from_to_string, <- (sa_id _ _ _ Has). simpl.
  unfold respond, service_get_entry, service_get_chain_tip. run_M. unfold call. simpl.
  destruct (pg_get_entry (le_entry_id row) (w_repo w2)) as [ans db2].
  destruct (pg_get_chain_tip (le_entry_type row) (w_repo w2)) as [tip db3]. simpl in *.
  destruct Hget as [Hans Hok]. split; [destruct Hans as [->| ->]; auto|].
  split; [intros H0; by rewrite (Hok H0)|]. destruct tip as [tip|e]; simpl; [done|by subst].
Qed.
End Durable.

(** * Witness: a call whose commit was lost, its retry, and unreliable reads *)

#[local] Existing Instance Toy.platform.
#[local] Existing Instance Toy.laws.
#[local] Existing Instance ToyPg.server.
#[local] Existing Instance ToyPg.server_laws.
#[local] Existing Instance collector_publisher.

Definition first_call :=
  grpc_write_entry demo_announcing demo_grpc_request (os_world demo_clients).
Definition second_call := grpc_write_entry demo_announcing demo_grpc_request first_call.2.

Lemma calls_answer : is_ok first_call.1 = false ∧ is_ok second_call.1 = true.
Proof. split; by_compute. Qed.

Lemma first_call_schema : schema_ok (world_tables first_call.2).
Proof. exact (grpc_write_schema demo_announcing demo_grpc_request (os_world demo_clients) empty_schema). Qed.

Definition read_with (faults : list Fault) (w : World PostgresLedgerRepository) :=
  set_repo {| pg_tables := world_tables w; pg_faults := faults; pg_clock := 0 |} w.

Lemma acknowledged_writes_are_durable_witness :
  ∃ response row, second_call.1 = Ok response
    ∧ ∀ faults, let answer := (grpc_get_entry (wp_entry_id response) (read_with faults second_call.2)).1 in
        answer = Ok (pb_entry row) ∨ answer = Err (mkStatus CUnavailable "unavailable").
Proof.
  destruct calls_answer as [_ Hok]. destruct second_call as [[response|e] w1] eqn:Hcall; [|discriminate Hok].
  unfold second_call in Hcall.
  destruct (acknowledged_writes_are_durable demo_announcing first_call.2 w1 demo_grpc_request response
              first_call_schema Hcall) as (row & out & _ & _ & H).
  exists response, row. split; [reflexivity|]. intros faults.
  destruct (H (w_repo w1) [] 0%nat (read_with faults w1) eq_refl eq_refl) as [Hans _]. exact Hans.
Defined.
