(* ===== verification/Access.v ===== *)
(** * Who may connect: [src/main.rs], [src/tls.rs], [src/db_permissions/mod.rs]

    The bearer checks of the gRPC interceptor and of [/shutdownz], the choice of
    TLS for the database connection, and the check at start-up that the
    database role cannot change entries.  What a library decides is an argument:
    [to_str] is [HeaderValue::to_str], and the certificates, connections and query
    results come from outside.  The connections
    made with that choice are in Tls, the servers of [main] in Startup, Shutdown
    and Health. *)

From Stdlib Require Import String Ascii Strings.Byte ZArith Lia.
From stdpp Require Import base tactics numbers strings list gmap sorting.
From S2P Require Import Prelude Platform Crypto Repository Config World Service Grpc.

(** ** Bearer tokens *)

Definition byte_value (b : byte) : Z := Z.of_N (Byte.to_N b).

(** [diff |= x ^ y] over the zipped bytes. *)
Definition constant_time_eq (a b : list byte) : bool :=
  if negb (length a =? length b)%nat then false
  else
    fold_left (λ diff p, Z.lor diff (Z.lxor (byte_value p.1) (byte_value p.2))) (zip a b) 0 =? 0.

Section Bearer.
Context (to_str : list byte → option string).

(** The value of the [authorization] header, if there is one. *)
Definition bearer_matches (header : option (list byte)) (token : string) : bool :=
  let expected := "Bearer " +:+ token in
  match header ≫= to_str with
  | Some actual => constant_time_eq (as_bytes actual) (as_bytes expected)
  | None => false
  end.

Definition authorize_grpc_request (header : option (list byte)) (token : string)
    : result unit Status :=
  if bearer_matches header token then Ok tt
  else Err (mkStatus CUnauthenticated "missing or invalid bearer token").

Definition authorized_http (header : option (list byte)) (token : string) : bool :=
  bearer_matches header token.

(** The gRPC server: the interceptor is installed when an API token is set. *)
Definition grpc_admits (api_token : option string) (header : option (list byte))
    : result unit Status :=
  match api_token with
  | Some token => authorize_grpc_request header token
  | None => Ok tt
  end.

(** The handler of [/shutdownz]: the status and whether the shutdown is signalled. *)
Definition shutdownz (shutdown_token : option string) (header : option (list byte)) : Z * bool :=
  match shutdown_token with
  | None => (404, false)
  | Some token => if authorized_http header token then (202, true) else (401, false)
  end.
End Bearer.

(** ** TLS for the database connection *)

Definition flush_token (token : string) : list string := if is_empty token then [] else [token].

(** [str::split_whitespace]: [cur] is the token being read. *)
Fixpoint split_whitespace_go (fuel : nat) (s cur : string) : list string :=
  match fuel with
  | O => flush_token cur
  | S f =>
      match s with
      | EmptyString => flush_token cur
      | String a s' =>
          match strip_whitespace s with
          | Some rest => flush_token cur ++ split_whitespace_go f rest ""
          | None => split_whitespace_go f s' (cur +:+ String a "")
          end
      end
  end.

Definition split_whitespace (s : string) : list string :=
  split_whitespace_go (S (String.length s)) s "".

(** The text after the first [c]: [find] and the slice that follows it. *)
Fixpoint after_char (c : Ascii.ascii) (s : string) : option string :=
  match s with
  | EmptyString => None
  | String a s' => if Ascii.eqb a c then Some s' else after_char c s'
  end.

(** [split(c)] *)
Fixpoint split_on (c : Ascii.ascii) (s cur : string) : list string :=
  match s with
  | EmptyString => [cur]
  | String a s' =>
      if Ascii.eqb a c then cur :: split_on c s' "" else split_on c s' (cur +:+ String a "")
  end.

Definition first_ssl_mode (params : list string) : option string :=
  head (omap (strip_prefix "sslmode=") params).

Definition parse_ssl_mode (connection_string : string) : option string :=
  match first_ssl_mode (split_whitespace connection_string) with
  | Some value => Some value
  | None =>
      match after_char "?" connection_string with
      | Some query => first_ssl_mode (split_on "&" query "")
      | None => None
      end
  end.

Inductive PgTlsConnector : Type := Plain | Rustls.

Definition make_pg_tls (usable_root_certs : Z) (connection_string : string)
    : result PgTlsConnector string :=
  let with_tls :=
    if 0 <? usable_root_certs then Ok Rustls
    else Err "no usable system root certificates found" in
  match parse_ssl_mode connection_string with
  | None => Ok Plain
  | Some mode => if String.eqb mode "disable" then Ok Plain else with_tls
  end.

(** ** Database privileges *)

Inductive DbPermissionError : Type :=
| Connect (message : string)
| QueryFailed (message : string)
| MissingReadWritePrivileges
| LedgerEntriesMutable.

Definition evaluate_permissions (can_insert can_select can_update can_delete : bool)
    : result unit DbPermissionError :=
  if negb can_insert || negb can_select then Err MissingReadWritePrivileges
  else if can_update || can_delete then Err LedgerEntriesMutable
  else Ok tt.

Record Privileges := {
  can_insert : bool; can_select : bool; can_update : bool; can_delete : bool
}.

(** [connect] and [query] are what the database driver answers. *)
Definition verify_ledger_entries_immutable (usable_root_certs : Z) (connection_string : string)
    (connect : PgTlsConnector → result unit string) (query : result Privileges string)
    : result unit DbPermissionError :=
  let? tls := map_err Connect (make_pg_tls usable_root_certs connection_string) in
  let? _ := map_err Connect (connect tls) in
  let? row := map_err QueryFailed query in
  evaluate_permissions (can_insert row) (can_select row) (can_update row) (can_delete row).

(** * Lemmas *)

Lemma byte_value_inj (x y : byte) : byte_value x = byte_value y → x = y.
Proof.
  unfold byte_value. intros H%(inj Z.of_N).
  pose proof (Byte.of_to_N x) as Hx. pose proof (Byte.of_to_N y) as Hy. congruence.
Qed.

Lemma fold_diff_zero (l : list (byte * byte)) (d : Z) :
  fold_left (λ diff p, Z.lor diff (Z.lxor (byte_value p.1) (byte_value p.2))) l d = 0
  ↔ d = 0 ∧ Forall (λ p, p.1 = p.2) l.
Proof.
  revert d. induction l as [|[x y] l IH]; intros d; simpl.
  { split; [by intros ->|by intros [-> _]]. }
  rewrite IH, Z.lor_eq_0_iff, Z.lxor_eq_0_iff, Forall_cons. simpl.
  split; [intros [[-> Hxy] Hl]; by apply byte_value_inj in Hxy|by intros (-> & -> & Hl)].
Qed.

Lemma constant_time_eq_spec (a b : list byte) : constant_time_eq a b = true ↔ a = b.
Proof.
  unfold constant_time_eq. destruct (Nat.eqb_spec (length a) (length b)) as [Hlen|Hlen]; simpl.
  - rewrite Z.eqb_eq, fold_diff_zero. revert b Hlen.
    induction a as [|x a IH]; intros [|y b] Hlen; simpl in *; try done.
    rewrite Forall_cons. simpl. specialize (IH b ltac:(lia)). naive_solver.
  - split; [done|congruence].
Qed.

Lemma bearer_matches_spec (to_str : list byte → option string) header token :
  bearer_matches to_str header token = true ↔
  ∃ raw, header = Some raw ∧ to_str raw = Some ("Bearer " +:+ token).
Proof.
  unfold bearer_matches. destruct header as [raw|]; simpl; [|naive_solver].
  destruct (to_str raw) as [actual|] eqn:E; [|naive_solver].
  rewrite constant_time_eq_spec. split.
  - intros H%(inj as_bytes). exists raw. by rewrite E, H.
  - intros (raw' & [= <-] & H). by simplify_eq.
Qed.

Lemma string_app_assoc (s1 s2 s3 : string) : (s1 +:+ s2) +:+ s3 = s1 +:+ (s2 +:+ s3).
Proof. induction s1 as [|a s1 IH]; [done|]. unfold String.append in *. simpl. by f_equal. Qed.

Lemma string_app_nil (s : string) : s +:+ "" = s.
Proof. induction s as [|a s IH]; [done|]. unfold String.append in *. simpl. by f_equal. Qed.

(** A character that does not occur in a text. *)
Fixpoint not_in (c : Ascii.ascii) (s : string) : Prop :=
  match s with
  | EmptyString => True
  | String a s' => Ascii.eqb a c = false ∧ not_in c s'
  end.

Lemma after_char_app c base rest :
  not_in c base → after_char c (base +:+ String c rest) = Some rest.
Proof.
  induction base as [|a base IH]; intros Hc.
  - change ("" +:+ String c rest) with (String c rest). simpl. by rewrite Ascii.eqb_refl.
  - destruct Hc as [Ha Hc]. change (String a base +:+ String c rest)
      with (String a (base +:+ String c rest)). simpl. rewrite Ha. by apply IH.
Qed.

Lemma split_on_not_in c s cur : not_in c s → split_on c s cur = [cur +:+ s].
Proof.
  revert cur. induction s as [|a s IH]; intros cur Hc; simpl; [by rewrite string_app_nil|].
  destruct Hc as [-> Hc]. rewrite IH by done. by rewrite string_app_assoc.
Qed.

Lemma split_on_app c s cur rest :
  not_in c s → split_on c (s +:+ String c rest) cur = (cur +:+ s) :: split_on c rest "".
Proof.
  revert cur. induction s as [|a s IH]; intros cur Hc.
  - change ("" +:+ String c rest) with (String c rest). simpl.
    by rewrite Ascii.eqb_refl, string_app_nil.
  - destruct Hc as [Ha Hc]. change (String a s +:+ String c rest)
      with (String a (s +:+ String c rest)). simpl. rewrite Ha, IH by done.
    by rewrite string_app_assoc.
Qed.

(** A query text: the parameters between [&]s. *)
Fixpoint join_params (params : list string) : string :=
  match params with
  | [] => ""
  | [p] => p
  | p :: params' => p +:+ String "&" (join_params params')
  end.

Lemma split_join params :
  params ≠ [] → Forall (not_in "&") params → split_on "&" (join_params params) "" = params.
Proof.
  induction params as [|p params IH]; intros Hne Hall; [done|].
  apply Forall_cons in Hall as [Hp Hall]. destruct params as [|p' params].
  - simpl. by rewrite split_on_not_in.
  - change (join_params (p :: p' :: params))
      with (p +:+ String "&" (join_params (p' :: params))).
    rewrite split_on_app by done. by rewrite IH.
Qed.

Lemma first_ssl_mode_one (s : string) : first_ssl_mode [s] = strip_prefix "sslmode=" s.
Proof. unfold first_ssl_mode. cbn [omap list_omap]. by destruct (strip_prefix "sslmode=" s). Qed.

(** * Properties *)

(** C36: access needs the exact token: with a token configured, a gRPC request is
    admitted, and a shutdown signalled, exactly when the authorization header is
    readable and equals "Bearer " followed by the token; without a shutdown
    token no request can stop the server, and without an API token every gRPC
    request is admitted. *)
Theorem bearer_access (to_str : list byte → option string) (header : option (list byte))
    (token : string) :
  (grpc_admits to_str (Some token) header = Ok tt ↔
     ∃ raw, header = Some raw ∧ to_str raw = Some ("Bearer " +:+ token))
  ∧ (shutdownz to_str (Some token) header = (202, true) ↔
     ∃ raw, header = Some raw ∧ to_str raw = Some ("Bearer " +:+ token))
  ∧ ((shutdownz to_str (Some token) header).2 = true ∨
     shutdownz to_str (Some token) header = (401, false))
  ∧ shutdownz to_str None header = (404, false)
  ∧ grpc_admits to_str None header = Ok tt.
Proof.
  rewrite <- bearer_matches_spec. unfold grpc_admits, authorize_grpc_request, shutdownz,
    authorized_http. destruct (bearer_matches to_str header token); naive_solver.
Qed.

(** The TLS mode of a connection URL is its first [sslmode] parameter: for a
    URL without whitespace whose base has no question mark, the mode is that of
    the first parameter of the form sslmode=..., and the connection is plain
    exactly when there is none or it says disable; a URL that asks for anything
    else is never served in plain text, even when no root certificate loads. *)
Theorem url_ssl_mode (base : string) (params : list string) (certs : Z) :
  let url := base +:+ String "?" (join_params params) in
  split_whitespace url = [url] → strip_prefix "sslmode=" url = None →
  not_in "?" base → params ≠ [] → Forall (not_in "&") params →
  parse_ssl_mode url = first_ssl_mode params
  ∧ (make_pg_tls certs url = Ok Plain ↔
     first_ssl_mode params = None ∨ first_ssl_mode params = Some "disable").
Proof.
  intros url Hws Hpre Hbase Hne Hall.
  assert (parse_ssl_mode url = first_ssl_mode params) as Hp.
  { unfold parse_ssl_mode. rewrite Hws, first_ssl_mode_one, Hpre. unfold url. rewrite after_char_app by done. by rewrite split_join. }
  split; [done|]. unfold make_pg_tls. rewrite Hp.
  destruct (first_ssl_mode params) as [mode|]; [|naive_solver].
  destruct (String.eqb_spec mode "disable") as [->|Hd]; [naive_solver|].
  destruct (0 <? certs); naive_solver.
Qed.

(** the service refuses a role that could rewrite history: start-up passes only
    when the connection and the query succeed and the role can INSERT and SELECT
    but neither UPDATE nor DELETE the entries; a role that lacks a privilege is
    reported as such before one that has too many. *)
Theorem startup_requires_append_only_role (certs : Z) (s : string)
    (connect : PgTlsConnector → result unit string) (query : result Privileges string) :
  (verify_ledger_entries_immutable certs s connect query = Ok tt ↔
     ∃ tls, make_pg_tls certs s = Ok tls ∧ connect tls = Ok tt
       ∧ query = Ok {| can_insert := true; can_select := true;
                       can_update := false; can_delete := false |})
  ∧ ∀ i se u d,
      (evaluate_permissions i se u d = Err MissingReadWritePrivileges ↔ i && se = false)
      ∧ (evaluate_permissions i se u d = Err LedgerEntriesMutable ↔
         i && se = true ∧ u || d = true).
Proof.
  split.
  - unfold verify_ledger_entries_immutable.
    destruct (make_pg_tls certs s) as [tls|]; simpl; [|by split; [|intros (? & ? & _)]].
    destruct (connect tls) as [[]|] eqn:Hc; simpl.
    2: { split; [done|]. intros (tls' & [= <-] & H & _). congruence. }
    destruct query as [[[] [] [] []]|]; simpl;
      (split; [intros [=]; by eauto|by intros (? & ? & ? & [=])]).
  - intros [] [] [] []; simpl; naive_solver.
Qed.

(** * Witnesses *)

Lemma url_ssl_mode_witness :
  parse_ssl_mode "postgres://host/db?connect_timeout=5&sslmode=prefer" = Some "prefer".
Proof.
  apply (url_ssl_mode "postgres://host/db" ["connect_timeout=5"; "sslmode=prefer"] 0);
    [reflexivity|reflexivity|by repeat split|done|by repeat constructor].
Defined.
