(* ===== verification/Tls.v ===== *)
(** * [src/tls.rs]: the connector, its future and its stream

    [PgTlsConnector] chooses between no TLS and rustls once, and everything that
    follows - the connector of one host, the future of the handshake, the stream -
    carries the choice along and forwards each call to the side that was chosen.
    [tokio_postgres], [rustls] and the sockets are not in the repository: they are
    the class [TlsLibraries].  A future is polled: it answers [None] while it is
    pending.  [TlsLaws] is the documented behaviour of [tokio_postgres::NoTls],
    which simply returns an error. *)

From Stdlib Require Import String Strings.Byte ZArith Lia.
From stdpp Require Import base tactics numbers strings list gmap sorting.
From S2P Require Import Prelude Platform Crypto Repository Config World Service Access.

(** ** Streams and futures *)

(** [tokio::io::ReadBuf]: its capacity and what has been filled. *)
Record ReadBuf := { rb_capacity : Z; rb_filled : list byte }.

(** [AsyncRead], [AsyncWrite] and [TlsStream]. *)
Class AsyncStream (Binding S : Type) := {
  poll_read : ReadBuf → S → option (result unit string) * ReadBuf * S;
  poll_write : list byte → S → option (result Z string) * S;
  poll_flush : S → option (result unit string) * S;
  poll_shutdown : S → option (result unit string) * S;
  channel_binding : S → Binding
}.

(** [Future]: [None] while it is pending. *)
Class Future (A F : Type) := poll : F → option A * F.

Class TlsLibraries := {
  Socket : Type;
  ChannelBinding : Type;
  NoTlsStream : Type;
  NoTlsFuture : Type;
  RustlsSt : Type;
  RustlsTc : Type;
  RustlsFuture : Type;
  MakeRustlsConnect : Type;
  #[global] no_tls_stream :: AsyncStream ChannelBinding NoTlsStream;
  #[global] no_tls_future :: Future (result NoTlsStream string) NoTlsFuture;
  no_tls_connect : Socket → NoTlsFuture;
  #[global] rustls_stream :: AsyncStream ChannelBinding RustlsSt;
  #[global] rustls_future :: Future (result RustlsSt string) RustlsFuture;
  make_rustls_connect : string → MakeRustlsConnect → result RustlsTc string * MakeRustlsConnect;
  rustls_connect : RustlsTc → Socket → RustlsFuture
}.

Class TlsLaws (T : TlsLibraries) : Prop :=
  no_tls_refuses : ∀ (f f' : NoTlsFuture) (s : NoTlsStream), poll f ≠ (Some (Ok s), f').

Section Tls.
Context {T : TlsLibraries}.

(** ** The connector *)

Inductive PgConnector : Type :=
| PgPlain
| PgRustls (inner : MakeRustlsConnect).

(** [make_pg_tls], with the connector it builds from the root certificates. *)
Definition make_pg_connector (new : MakeRustlsConnect) (usable_root_certs : Z)
    (connection_string : string) : result PgConnector string :=
  let? choice := make_pg_tls usable_root_certs connection_string in
  Ok (match choice with Plain => PgPlain | Rustls => PgRustls new end).

Inductive PgTlsConnectInner : Type :=
| InnerPlain
| InnerRustls (inner : RustlsTc).

Definition make_tls_connect (domain : string) (self : PgConnector)
    : result PgTlsConnectInner string * PgConnector :=
  match self with
  | PgPlain => (Ok InnerPlain, PgPlain)
  | PgRustls inner =>
      let '(res, inner') := make_rustls_connect domain inner in
      ((let? tc := res in Ok (InnerRustls tc)), PgRustls inner')
  end.

(** ** The stream *)

Inductive PgTlsStream : Type :=
| StreamPlain (s : NoTlsStream)
| StreamRustls (s : RustlsSt).

#[global] Instance pg_tls_stream : AsyncStream ChannelBinding PgTlsStream := {|
  poll_read buf self :=
    match self with
    | StreamPlain s => let '(r, buf', s') := poll_read buf s in (r, buf', StreamPlain s')
    | StreamRustls s => let '(r, buf', s') := poll_read buf s in (r, buf', StreamRustls s')
    end;
  poll_write buf self :=
    match self with
    | StreamPlain s => let '(r, s') := poll_write buf s in (r, StreamPlain s')
    | StreamRustls s => let '(r, s') := poll_write buf s in (r, StreamRustls s')
    end;
  poll_flush self :=
    match self with
    | StreamPlain s => let '(r, s') := poll_flush s in (r, StreamPlain s')
    | StreamRustls s => let '(r, s') := poll_flush s in (r, StreamRustls s')
    end;
  poll_shutdown self :=
    match self with
    | StreamPlain s => let '(r, s') := poll_shutdown s in (r, StreamPlain s')
    | StreamRustls s => let '(r, s') := poll_shutdown s in (r, StreamRustls s')
    end;
  channel_binding self :=
    match self with
    | StreamPlain s => channel_binding s
    | StreamRustls s => channel_binding s
    end
|}.

(** ** The future of the handshake *)

(** The [async] block of [connect]: it awaits the future of the chosen side. *)
Inductive PgTlsFuture : Type :=
| FuturePlain (f : NoTlsFuture)
| FutureRustls (f : RustlsFuture).

Definition connect (self : PgTlsConnectInner) (stream : Socket) : PgTlsFuture :=
  match self with
  | InnerPlain => FuturePlain (no_tls_connect stream)
  | InnerRustls inner => FutureRustls (rustls_connect inner stream)
  end.

Definition wrap_stream {S : Type} (wrap : S → PgTlsStream) (r : result S string)
    : result PgTlsStream string :=
  match r with Ok s => Ok (wrap s) | Err e => Err e end.

#[global] Instance pg_tls_future : Future (result PgTlsStream string) PgTlsFuture :=
  λ self, match self with
  | FuturePlain f => let '(r, f') := poll f in (wrap_stream StreamPlain <$> r, FuturePlain f')
  | FutureRustls f => let '(r, f') := poll f in (wrap_stream StreamRustls <$> r, FutureRustls f')
  end.
End Tls.

(** ** Awaiting a future, using a stream *)

(** At most [n] polls. *)
Fixpoint await {A F : Type} `{!Future A F} (n : nat) (f : F) : option A :=
  match n with
  | O => None
  | S n' => let '(r, f') := poll f in match r with Some a => Some a | None => await n' f' end
  end.

Inductive StreamOp : Type :=
| OpRead (buf : ReadBuf)
| OpWrite (bytes : list byte)
| OpFlush
| OpShutdown
| OpBinding.

Inductive StreamAnswer (Binding : Type) : Type :=
| ARead (r : option (result unit string)) (buf : ReadBuf)
| AWritten (r : option (result Z string))
| ADone (r : option (result unit string))
| ABinding (b : Binding).
Arguments ARead {Binding} r buf.
Arguments AWritten {Binding} r.
Arguments ADone {Binding} r.
Arguments ABinding {Binding} b.

Definition stream_op {B S : Type} `{!AsyncStream B S} (op : StreamOp) (s : S) : StreamAnswer B * S :=
  match op with
  | OpRead buf => let '(r, buf', s') := poll_read buf s in (ARead r buf', s')
  | OpWrite bytes => let '(r, s') := poll_write bytes s in (AWritten r, s')
  | OpFlush => let '(r, s') := poll_flush s in (ADone r, s')
  | OpShutdown => let '(r, s') := poll_shutdown s in (ADone r, s')
  | OpBinding => (ABinding (channel_binding s), s)
  end.

Fixpoint stream_script {B S : Type} `{!AsyncStream B S} (ops : list StreamOp) (s : S)
    : list (StreamAnswer B) :=
  match ops with
  | [] => []
  | op :: ops' => let '(a, s') := stream_op op s in a :: stream_script ops' s'
  end.

(** * Lemmas *)

Section TlsLemmas.
Context {T : TlsLibraries}.

(** Forwarding is invisible. *)
Lemma stream_op_rustls op (s : RustlsSt) :
  stream_op op (StreamRustls s) = let '(a, s') := stream_op op s in (a, StreamRustls s').
Proof.
  destruct op; simpl; try done.
  - by destruct (poll_read buf s) as [[r buf'] s'].
  - by destruct (poll_write bytes s).
  - by destruct (poll_flush s).
  - by destruct (poll_shutdown s).
Qed.

Lemma script_rustls ops (s : RustlsSt) :
  stream_script ops (StreamRustls s) = stream_script ops s.
Proof.
  revert s. induction ops as [|op ops IH]; intros s; [done|]. simpl.
  rewrite stream_op_rustls. destruct (stream_op op s) as [a s']. by rewrite IH.
Qed.

Lemma await_rustls n (f : RustlsFuture) :
  await n (FutureRustls f) = wrap_stream StreamRustls <$> await n f.
Proof.
  revert f. induction n as [|n IH]; intros f; [done|]. cbn [await].
  unfold poll at 1, pg_tls_future. destruct (poll f) as [[r|] f']; [done|]. apply IH.
Qed.

Lemma await_plain `{!TlsLaws T} n (f : NoTlsFuture) s : await n (FuturePlain f) ≠ Some (Ok s).
Proof.
  revert f. induction n as [|n IH]; intros f; [done|]. cbn [await].
  unfold poll at 1, pg_tls_future. destruct (poll f) as [[[s'|e]|] f'] eqn:E; simpl; [|done|apply IH].
  by destruct (no_tls_refuses _ _ _ E).
Qed.

(** * Properties *)

(** C37: a connection that is to be encrypted is never downgraded.  A stream that
    comes out of the connector of a connection string - for any host, any socket,
    after any number of polls - means that the string has an [sslmode] other than
    "disable"; the stream is the one rustls made for that host and socket, and any
    sequence of reads, writes, flushes and shutdowns on it gets rustls's own
    answers.  A connector without TLS never makes a stream. *)
Theorem tls_stream_is_rustls `{!TlsLaws T} new certs conn connector domain tc connector' socket
    n stream :
  make_pg_connector new certs conn = Ok connector →
  make_tls_connect domain connector = (Ok tc, connector') →
  await n (connect tc socket) = Some (Ok stream) →
  (∃ mode, parse_ssl_mode conn = Some mode ∧ mode ≠ "disable")
  ∧ ∃ rustls_tc inner s, connector = PgRustls new ∧ make_rustls_connect domain new = (Ok rustls_tc, inner)
    ∧ await n (rustls_connect rustls_tc socket) = Some (Ok s)
    ∧ ∀ ops, stream_script ops stream = stream_script ops s.
Proof.
  intros Hc Hm Ha. unfold make_pg_connector in Hc. revert Hc. unfold make_pg_tls.
  assert (connector ≠ PgPlain) as Hnp.
  { intros ->. injection Hm as <- _. by apply await_plain in Ha. }
  destruct (parse_ssl_mode conn) as [mode|]; simpl; [|intros [= <-]; done].
  destruct (String.eqb_spec mode "disable") as [->|Hne]; simpl; [intros [= <-]; done|].
  destruct (0 <? certs); simpl; [|done]. intros [= <-]. split; [by exists mode|].
  simpl in Hm. destruct (make_rustls_connect domain new) as [[rtc|e] inner]; [|done].
  simpl in Hm. injection Hm as <- _. simpl in Ha. rewrite await_rustls in Ha.
  apply fmap_Some in Ha as ([s|e] & Ha & Hs); [|done]. injection Hs as ->.
  exists rtc, inner, s. split; [done|]. split; [done|]. split; [done|]. intros ops. apply script_rustls.
Qed.
End TlsLemmas.

(** * Witness: a handshake that is pending once, and a stream that echoes *)

Definition void_stream : AsyncStream unit Empty_set := {|
  poll_read buf s := (None, buf, s); poll_write _ s := (None, s); poll_flush s := (None, s);
  poll_shutdown s := (None, s); channel_binding _ := tt
|}.

Definition echo_stream : AsyncStream unit (list byte) := {|
  poll_read buf s :=
    (Some (Ok tt), {| rb_capacity := rb_capacity buf; rb_filled := rb_filled buf ++ s |}, []);
  poll_write bytes s := (Some (Ok (Z.of_nat (length bytes))), s ++ bytes);
  poll_flush s := (Some (Ok tt), s); poll_shutdown s := (Some (Ok tt), s);
  channel_binding _ := tt
|}.

Definition demo_libraries : TlsLibraries := {|
  Socket := unit; ChannelBinding := unit; NoTlsStream := Empty_set; NoTlsFuture := unit;
  RustlsSt := list byte; RustlsTc := string; RustlsFuture := bool; MakeRustlsConnect := unit;
  no_tls_stream := void_stream;
  no_tls_future := (λ f, (Some (Err "no TLS implementation configured"), f));
  no_tls_connect _ := tt;
  rustls_stream := echo_stream;
  rustls_future := (λ pending, if pending then (None, false) else (Some (Ok []), false));
  make_rustls_connect domain self := (Ok domain, self);
  rustls_connect _ _ := true
|}.

#[local] Existing Instance demo_libraries.

Lemma demo_libraries_laws : TlsLaws demo_libraries.
Proof. intros f f' s. destruct s. Qed.

Definition demo_stream : PgTlsStream := StreamRustls (T := demo_libraries) ([] : list byte).

Lemma tls_stream_is_rustls_witness :
  await 2 (connect (InnerRustls (T := demo_libraries) "db") tt) = Some (Ok demo_stream)
  ∧ ∃ s : RustlsSt, ∀ ops, stream_script ops demo_stream = stream_script ops s.
Proof.
  split; [reflexivity|].
  destruct (tls_stream_is_rustls (T := demo_libraries) (TlsLaws0 := demo_libraries_laws) tt 1
              "host=db sslmode=require" (PgRustls (T := demo_libraries) tt) "db"
              (InnerRustls (T := demo_libraries) "db") (PgRustls (T := demo_libraries) tt) tt 2
              demo_stream eq_refl eq_refl eq_refl) as (_ & tc & inner & s & _ & _ & _ & H).
  exists s. exact H.
Defined.
