(* ===== verification/Startup.v ===== *)
(** * [src/main.rs]: from the environment to the running servers

    [start] is [main] up to the point where every task is spawned: each step may
    end the process with an error, whose causes [anyhow] chains.  What the host
    answers - the database, the resolver of URLs, the ports - is a [Host].
    [servers_joined] is the end of [main]: what the process reports of its three
    servers, and when.  Left out: log records; how the servers are asked to stop
    is in Shutdown, what they do while they run in Grpc, Access, Health and
    Verifier. *)

From Stdlib Require Import String Ascii Strings.Byte ZArith Lia.
From stdpp Require Import base tactics numbers strings list gmap sorting.
From S2P Require Import Prelude Platform Crypto Repository Config World Service.
From S2P Require Import Outbox Access.

(** ** Errors of [anyhow]: the outermost context first *)

Definition Anyhow : Type := list string.

(** [.map_err(anyhow::Error::msg)], and [?] on an error with a [Display]. *)
Definition message {T E : Type} (display : E → string) (r : result T E) : result T Anyhow :=
  map_err (λ e, [display e]) r.

(** [.context(..)] *)
Definition context {T : Type} (text : string) (r : result T Anyhow) : result T Anyhow :=
  map_err (cons text) r.

Definition same_text (s : string) : string := s.

Definition config_error_display (e : ConfigError) : string :=
  match e with
  | Missing name => "missing required environment variable: " +:+ name
  | InvalidInteger name => "invalid integer value for " +:+ name
  end.

Definition db_permission_display (e : DbPermissionError) : string :=
  match e with
  | Connect m => "failed to connect to postgres: " +:+ m
  | QueryFailed m => "failed to query postgres privileges: " +:+ m
  | MissingReadWritePrivileges =>
      "ledger role must have INSERT and SELECT on are_ledger.ledger_entries"
  | LedgerEntriesMutable =>
      "ledger role must NOT have UPDATE or DELETE on are_ledger.ledger_entries"
  end.

(** ** The host *)

Section Startup.
Context {P : Platform} {H : HttpClient}.

Record Host := {
  host_env : string → option string;
  host_root_certs : Z;                              (* usable root certificates *)
  host_connect : PgTlsConnector → result unit string;
  host_privileges : result Privileges string;
  host_parse_pg : string → result unit string;      (* tokio_postgres::Config::from_str *)
  host_build_pool : Z → result unit string;         (* Pool::builder(..).max_size(..).build() *)
  host_net : net;
  host_bind : Z → result unit string                (* TcpListener::bind *)
}.

(** What runs when [main] waits for its servers. *)
Record Running := {
  rn_config : AppConfig;
  rn_tls : PgTlsConnector;                          (* of the pool *)
  rn_publisher : HttpEventPublisher;
  rn_outbox_processor : bool;
  rn_verifier : option (Z * Z);                     (* interval, entries per chain *)
  rn_interceptor : option string                    (* the API token it checks *)
}.

Definition build_pool (h : Host) (config : AppConfig) : result PgTlsConnector Anyhow :=
  let conn := db_connection_string config in
  let? _ := context ("parsing db_connection_string: " +:+ conn)
              (message same_text (host_parse_pg h conn)) in
  let? tls := context "configuring postgres TLS"
                (message same_text (make_pg_tls (host_root_certs h) conn)) in
  let? _ := context "building connection pool"
              (message same_text (host_build_pool h (pool_max_size config))) in
  Ok tls.

(** [if config.verify_interval_seconds > 0] *)
Definition background_verifier (config : AppConfig) : option (Z * Z) :=
  if 0 <? verify_interval_seconds config then
    Some (verify_interval_seconds config, verify_max_entries_per_chain config)
  else None.

(** Up to the construction of the service: no task is spawned yet. *)
Definition configured (h : Host) : result (AppConfig * PgTlsConnector * HttpEventPublisher) Anyhow :=
  let? config := context "failed to load config"
                   (message config_error_display (from_env (host_env h))) in
  let? _ := message (λ err, "db permission verification failed: " +:+ db_permission_display err)
              (verify_ledger_entries_immutable (host_root_certs h) (db_connection_string config)
                 (host_connect h) (host_privileges h)) in
  let? tls := context "postgres pool creation" (build_pool h config) in
  let? publisher := context "failed to configure outbox HTTP publisher"
                      (message same_text
                         (http_publisher_new (outbox_http_endpoint config)
                            (outbox_http_bearer_token config)
                            (outbox_http_timeout_seconds config) (host_net h))) in
  Ok (config, tls, publisher).

Definition start (h : Host) : result Running Anyhow :=
  let? parts := configured h in
  let '(config, tls, publisher) := parts in
  let? _ := context "failed to bind health listener"
              (message same_text (host_bind h (health_port config))) in
  let? _ := context "failed to bind metrics listener"
              (message same_text (host_bind h (metrics_port config))) in
  Ok {| rn_config := config; rn_tls := tls; rn_publisher := publisher;
        rn_outbox_processor := publisher_is_enabled publisher;
        rn_verifier := background_verifier config;
        rn_interceptor := api_token config |}.

(** What [tokio::spawn] was called for, in order.  The gRPC server is spawned, and
    may bind its port and serve, before the two other ports are bound; a bind that
    fails ends [main], and with it the process and its tasks. *)
Inductive Spawned : Type :=
| OutboxProcessor | BackgroundVerifier | SignalTask | GrpcServer | HealthServer | MetricsServer.

Definition spawned (h : Host) : list Spawned :=
  match configured h with
  | Err _ => []
  | Ok (config, _, publisher) =>
      (if publisher_is_enabled publisher then [OutboxProcessor] else [])
      ++ match background_verifier config with Some _ => [BackgroundVerifier] | None => [] end
      ++ [SignalTask; GrpcServer]
      ++ (if is_ok (host_bind h (health_port config)) then
            HealthServer
            :: (if is_ok (host_bind h (metrics_port config)) then [MetricsServer] else [])
          else [])
  end.

(** ** The end of [main] *)

(** A spawned server: it runs, it has panicked (or was aborted), or it returned. *)
Inductive Server : Type :=
| Serving
| Panicked (message : string)
| Finished (res : result unit string).

(** [tokio::try_join!] over the three handles, then the three results; [None]:
    [main] still waits.  The order in which handles are looked at only matters
    for two panics at once. *)
Definition servers_joined (grpc health metrics : Server) : option (result unit Anyhow) :=
  match grpc, health, metrics with
  | Panicked m, _, _ | _, Panicked m, _ | _, _, Panicked m => Some (Err [m])
  | Finished grpc_result, Finished health_result, Finished metrics_result =>
      Some (let? _ := context "gRPC server failed" (message same_text grpc_result) in
            let? _ := context "health server failed" (message same_text health_result) in
            context "metrics server failed" (message same_text metrics_result))
  | _, _, _ => None
  end.

(** * Lemmas *)

Lemma message_ok {T E} (display : E → string) (r : result T E) (t : T) :
  message display r = Ok t ↔ r = Ok t.
Proof. unfold message. destruct r; simpl; split; intros [=]; by subst. Qed.

Lemma context_ok {T} (text : string) (r : result T Anyhow) (t : T) :
  context text r = Ok t ↔ r = Ok t.
Proof. unfold context. destruct r; simpl; split; intros [=]; by subst. Qed.

Lemma rbind_ok {T U E} (r : result T E) (k : T → result U E) (u : U) :
  rbind r k = Ok u ↔ ∃ t, r = Ok t ∧ k t = Ok u.
Proof. destruct r as [t|e]; simpl; [naive_solver|]. split; [done|by intros (? & ? & _)]. Qed.

Lemma step_ok {T E} (text : string) (display : E → string) (r : result T E) (t : T) :
  context text (message display r) = Ok t ↔ r = Ok t.
Proof. by rewrite context_ok, message_ok. Qed.

Lemma build_pool_ok h config tls :
  build_pool h config = Ok tls ↔
  host_parse_pg h (db_connection_string config) = Ok tt
  ∧ make_pg_tls (host_root_certs h) (db_connection_string config) = Ok tls
  ∧ host_build_pool h (pool_max_size config) = Ok tt.
Proof.
  unfold build_pool. split.
  - intros ([] & H1%step_ok & Hs)%rbind_ok. apply rbind_ok in Hs as (tls' & H2%step_ok & Hs).
    by apply rbind_ok in Hs as ([] & H3%step_ok & [= <-]).
  - intros (H1 & H2 & H3). apply rbind_ok. exists tt. split; [by apply step_ok|].
    apply rbind_ok. exists tls. split; [by apply step_ok|].
    apply rbind_ok. exists tt. split; [by apply step_ok|done].
Qed.

Definition append_only : Privileges :=
  {| can_insert := true; can_select := true; can_update := false; can_delete := false |}.

Lemma permissions_ok certs s connect query u :
  verify_ledger_entries_immutable certs s connect query = Ok u ↔
  ∃ tls, make_pg_tls certs s = Ok tls ∧ connect tls = Ok tt ∧ query = Ok append_only.
Proof.
  unfold verify_ledger_entries_immutable, append_only. destruct u.
  destruct (make_pg_tls certs s) as [tls|]; simpl; [|by split; [|intros (? & ? & _)]].
  destruct (connect tls) as [[]|] eqn:Hc; simpl.
  2: { split; [done|]. intros (tls' & [= <-] & H1 & _). congruence. }
  destruct query as [[[] [] [] []]|]; simpl;
    (split; [intros [=]; by eauto|by intros (? & ? & ? & [=])]).
Qed.

Lemma publisher_enabled endpoint bearer timeout n pub :
  http_publisher_new endpoint bearer timeout n = Ok pub →
  (publisher_is_enabled pub = true ↔ is_Some endpoint).
Proof.
  unfold http_publisher_new. destruct endpoint as [value|]; simpl.
  - destruct (url_parse (trim value)) as [url|]; simpl; [|done].
    destruct (client_build timeout); simpl; [|done]. intros [= <-]. simpl.
    split; [by eexists|done].
  - destruct (client_build timeout); simpl; [|done]. intros [= <-]. simpl.
    split; [done|by intros [? ?]].
Qed.

Lemma configured_ok h config tls pub :
  configured h = Ok (config, tls, pub) ↔
  from_env (host_env h) = Ok config
  ∧ make_pg_tls (host_root_certs h) (db_connection_string config) = Ok tls
  ∧ host_connect h tls = Ok tt ∧ host_privileges h = Ok append_only
  ∧ host_parse_pg h (db_connection_string config) = Ok tt
  ∧ host_build_pool h (pool_max_size config) = Ok tt
  ∧ http_publisher_new (outbox_http_endpoint config) (outbox_http_bearer_token config)
      (outbox_http_timeout_seconds config) (host_net h) = Ok pub.
Proof.
  split.
  - intros (c & Hc%step_ok & Hs)%rbind_ok.
    apply rbind_ok in Hs as ([] & (tls' & Htls & Hconn & Hpriv)%message_ok%permissions_ok & Hs).
    apply rbind_ok in Hs as (tls'' & (Hparse & Htls' & Hpool)%context_ok%build_pool_ok & Hs).
    apply rbind_ok in Hs as (pub' & Hpub%step_ok & [= <- <- <-]).
    assert (tls'' = tls') as -> by congruence. by split_and!.
  - intros (Hc & Htls & Hconn & Hpriv & Hparse & Hpool & Hpub).
    apply rbind_ok. exists config. split; [by apply step_ok|].
    apply rbind_ok. exists tt. split; [apply message_ok, permissions_ok; eauto|].
    apply rbind_ok. exists tls. split; [by apply context_ok, build_pool_ok|].
    apply rbind_ok. exists pub. split; [by apply step_ok|done].
Qed.

(** * Properties *)

(** C40: start-up fails closed: the servers come up only when the configuration is
    valid, the role of the connection string can read and append but not change
    entries, the pool, its TLS and the publisher could be set up and the two ports
    are free (the gRPC server is spawned just before these are bound; when one is
    taken, [main] returns and the process ends with it) - and then the process runs
    exactly what the configuration says: an outbox processor when an endpoint is
    set, a background verifier unless its interval is 0, and the bearer check when
    there is an API token. *)
Theorem start_fails_closed (h : Host) (rn : Running) :
  start h = Ok rn ↔
  from_env (host_env h) = Ok (rn_config rn)
  ∧ make_pg_tls (host_root_certs h) (db_connection_string (rn_config rn)) = Ok (rn_tls rn)
  ∧ host_connect h (rn_tls rn) = Ok tt ∧ host_privileges h = Ok append_only
  ∧ host_parse_pg h (db_connection_string (rn_config rn)) = Ok tt
  ∧ host_build_pool h (pool_max_size (rn_config rn)) = Ok tt
  ∧ http_publisher_new (outbox_http_endpoint (rn_config rn))
      (outbox_http_bearer_token (rn_config rn))
      (outbox_http_timeout_seconds (rn_config rn)) (host_net h) = Ok (rn_publisher rn)
  ∧ host_bind h (health_port (rn_config rn)) = Ok tt
  ∧ host_bind h (metrics_port (rn_config rn)) = Ok tt
  ∧ (rn_outbox_processor rn = true ↔ is_Some (outbox_http_endpoint (rn_config rn)))
  ∧ rn_verifier rn = background_verifier (rn_config rn)
  ∧ rn_interceptor rn = api_token (rn_config rn).
Proof.
  split.
  - intros ([[c tls] pub] & Hc & Hs)%rbind_ok.
    apply configured_ok in Hc as (Hc & Htls & Hconn & Hpriv & Hparse & Hpool & Hpub).
    apply rbind_ok in Hs as ([] & Hh%step_ok & Hs).
    apply rbind_ok in Hs as ([] & Hm%step_ok & [= <-]). simpl. split_and!; try done.
    by eapply publisher_enabled.
  - intros (Hc & Htls & Hconn & Hpriv & Hparse & Hpool & Hpub & Hh & Hm & Ho & Hv & Hi).
    apply rbind_ok. exists (rn_config rn, rn_tls rn, rn_publisher rn).
    split; [by apply configured_ok|].
    apply rbind_ok. exists tt. split; [by apply step_ok|].
    apply rbind_ok. exists tt. split; [by apply step_ok|].
    pose proof (publisher_enabled _ _ _ _ _ Hpub) as He.
    assert (publisher_is_enabled (rn_publisher rn) = rn_outbox_processor rn) as ->
      by (apply eq_true_iff_eq; by rewrite Ho).
    rewrite <- Hv, <- Hi. by destruct rn.
Qed.

(** What runs when [main] gives up: nothing when the configuration, the role, the
    pool or the publisher is refused; the gRPC server and the tasks before it when
    only a port was taken; and everything exactly when it does not give up. *)
Theorem spawned_tasks (h : Host) :
  (GrpcServer ∈ spawned h ↔ is_ok (configured h) = true)
  ∧ (MetricsServer ∈ spawned h ↔ is_ok (start h) = true)
  ∧ (host_privileges h ≠ Ok append_only → spawned h = []).
Proof.
  assert (∀ c tls pub, configured h = Ok (c, tls, pub) → host_privileges h = Ok append_only) as Hp
    by (intros c tls pub Hc; apply configured_ok in Hc; tauto).
  unfold spawned, start. destruct (configured h) as [[[c tls] pub]|err]; simpl.
  2: { split; [|split; [|done]]; split; try done; by intros ?%elem_of_nil. }
  pose proof (Hp c tls pub eq_refl) as Hpriv. unfold context, message.
  split; [|split; [|done]].
  - split; [done|]. intros _. rewrite !elem_of_app, !elem_of_cons. auto 6.
  - destruct (bool_decide _), (background_verifier c), (host_bind h (health_port c)) as [[]|]; simpl;
      try destruct (host_bind h (metrics_port c)) as [[]|]; simpl; set_solver.
Qed.

(** A server that has failed is not reported while another one serves: [try_join!]
    looks at the handles, whose tasks have not panicked, and not at their results. *)
Theorem failed_server_not_reported (err : string) (health metrics : Server) :
  health = Serving ∨ metrics = Serving →
  (∀ m, health ≠ Panicked m) → (∀ m, metrics ≠ Panicked m) →
  servers_joined (Finished (Err err)) health metrics = None.
Proof. intros Hs Hh Hm. destruct health, metrics; naive_solver. Qed.
End Startup.

(** * A host on which the service starts, and one whose role could rewrite history *)

#[local] Existing Instance Toy.platform.

Definition demo_client : HttpClient := {|
  Url := string; url_parse s := Ok s; net := unit; client_build _ := Ok tt;
  http_post _ _ _ n := (Ok 200, n); status_error _ _ := "error"
|}.
#[local] Existing Instance demo_client.

Definition demo_host (privileges : Privileges) : Host := {|
  host_env := env_of_config test_config; host_root_certs := 1; host_connect _ := Ok tt;
  host_privileges := Ok privileges; host_parse_pg _ := Ok tt; host_build_pool _ := Ok tt;
  host_net := tt; host_bind _ := Ok tt
|}.

Lemma demo_start : is_ok (start (demo_host append_only)) = true.
Proof. by_compute. Qed.

Lemma demo_start_refused :
  start (demo_host {| can_insert := true; can_select := true; can_update := true;
                      can_delete := false |})
  = Err ["db permission verification failed: ledger role must NOT have UPDATE or DELETE on are_ledger.ledger_entries"].
Proof. vm_compute. reflexivity. Qed.
