(* ===== verification/Shutdown.v ===== *)
(** * [src/main.rs]: how the process stops

    [main] spawns three servers, one after the other, and hands each a receiver of
    the channel on which a signal, or [/shutdownz], asks for the shutdown; it then
    waits for all three.  A run is a list of events ([Event]): [main] goes on to
    its next server (whose listener is bound: Startup has the failures), a signal
    arrives or cannot be waited for, a request to [/shutdownz] is answered, a
    server returns.  [tokio::sync::watch] is the class [WatchLibrary], its
    documented behaviour [WatchLaws]: a sent value reaches every receiver there
    is, and a new receiver counts the values before it as seen. *)

From Stdlib Require Import String Strings.Byte ZArith Lia.
From stdpp Require Import base tactics numbers strings list gmap sorting.
From S2P Require Import Prelude Platform Crypto Repository Config World Service.
From S2P Require Import Outbox Access Startup.

Class WatchLibrary := {
  Watch : Type;
  Receiver : Type;
  watch_channel : Watch;                       (* its first receiver is dropped *)
  subscribe : Watch → Receiver * Watch;
  send : Watch → Watch;                        (* [let _ = shutdown_tx.send(true)] *)
  changed : Receiver → Watch → bool;           (* has [changed().await] something to return *)
  listens : Receiver → Watch → Prop            (* a receiver of this channel *)
}.

Class WatchLaws (W : WatchLibrary) : Prop := {
  subscribe_listens w : listens (subscribe w).1 (subscribe w).2;
  subscribe_seen w : changed (subscribe w).1 (subscribe w).2 = false;
  subscribe_others rx w : listens rx w →
    listens rx (subscribe w).2 ∧ changed rx (subscribe w).2 = changed rx w;
  send_reaches rx w : listens rx w → listens rx (send w) ∧ changed rx (send w) = true
}.

Inductive ServerName : Type := GrpcServer | HealthServer | MetricsServer.

#[global] Instance ServerName_eq_decision : EqDecision ServerName.
Proof. solve_decision. Defined.

Section Shutdown.
Context {W : WatchLibrary} (to_str : list byte → option string) (shutdown_token : option string).

(** A spawned server, with the receiver it was given. *)
Record Task := { tk_rx : Receiver; tk_state : Server }.

Record Main := {
  mn_watch : Watch;
  mn_task : ServerName → option Task;
  mn_waits_for_signal : bool                   (* the task of [wait_for_shutdown_signal] *)
}.

Definition main_begins : Main :=
  {| mn_watch := watch_channel; mn_task := λ _, None; mn_waits_for_signal := true |}.

Inductive Event : Type :=
| Advance                                      (* [main] spawns its next server *)
| Signal
| ShutdownRequest (header : option (list byte))
| Returned (s : ServerName) (res : result unit string).

Definition next_server (m : Main) : option ServerName :=
  match mn_task m GrpcServer, mn_task m HealthServer, mn_task m MetricsServer with
  | None, _, _ => Some GrpcServer
  | _, None, _ => Some HealthServer
  | _, _, None => Some MetricsServer
  | _, _, _ => None
  end.

Definition set_task (s : ServerName) (t : Task) (m : Main) : Main := {|
  mn_watch := mn_watch m;
  mn_task := λ s', if decide (s' = s) then Some t else mn_task m s';
  mn_waits_for_signal := mn_waits_for_signal m
|}.

Definition is_serving (m : Main) (s : ServerName) : bool :=
  match mn_task m s with Some {| tk_state := Serving |} => true | _ => false end.

(** Does the event ask for the shutdown: a signal that is waited for, or a request
    that [/shutdownz] accepts. *)
Definition asks (m : Main) (ev : Event) : bool :=
  match ev with
  | Signal => mn_waits_for_signal m
  | ShutdownRequest header => is_serving m HealthServer && (shutdownz to_str shutdown_token header).2
  | _ => false
  end.

Definition heard (m : Main) (s : ServerName) : bool :=
  match mn_task m s with Some t => changed (tk_rx t) (mn_watch m) | None => false end.

Definition is_signal (ev : Event) : bool := match ev with Signal => true | _ => false end.

(** A server returns [Ok] only once its [changed().await] has. *)
Definition main_event (m : Main) (ev : Event) : Main :=
  match ev with
  | Advance =>
      match next_server m with
      | Some s =>
          let '(rx, w) := subscribe (mn_watch m) in
          set_task s {| tk_rx := rx; tk_state := Serving |}
            {| mn_watch := w; mn_task := mn_task m; mn_waits_for_signal := mn_waits_for_signal m |}
      | None => m
      end
  | Returned s res =>
      match mn_task m s with
      | Some {| tk_rx := rx; tk_state := Serving |} =>
          if is_ok res && negb (heard m s) then m
          else set_task s {| tk_rx := rx; tk_state := Finished res |} m
      | _ => m
      end
  | _ =>
      {| mn_watch := if asks m ev then send (mn_watch m) else mn_watch m;
         mn_task := mn_task m;
         mn_waits_for_signal := mn_waits_for_signal m && negb (is_signal ev) |}
  end.

Definition main_run (evs : list Event) : Main := foldl main_event main_begins evs.

(** What [main] returns, if it does. *)
Definition main_result (m : Main) : option (result unit Anyhow) :=
  match mn_task m GrpcServer, mn_task m HealthServer, mn_task m MetricsServer with
  | Some g, Some h, Some e => servers_joined (tk_state g) (tk_state h) (tk_state e)
  | _, _, _ => None
  end.

(** * Lemmas *)

Context {WL : WatchLaws W}.
Implicit Types (m : Main) (s : ServerName).

Definition spawned m s : Prop := is_Some (mn_task m s).

Definition listening m : Prop := ∀ s t, mn_task m s = Some t → listens (tk_rx t) (mn_watch m).

(** From [m] to [m'], the servers there are hear what was asked for. *)
Definition hears m m' (asked : bool) : Prop :=
  listening m'
  ∧ (∀ s, spawned m s → spawned m' s ∧ heard m' s = heard m s || asked)
  ∧ ∀ s, ¬ spawned m s → heard m' s = false.

Lemma not_spawned m s : ¬ spawned m s → mn_task m s = None.
Proof. intros Hs. destruct (mn_task m s) eqn:E; [|done]. destruct Hs. by eexists. Qed.

Lemma next_server_new m s : next_server m = Some s → mn_task m s = None.
Proof. unfold next_server. repeat case_match; intros [=]; by subst. Qed.

Lemma hears_nothing m : listening m → hears m m false.
Proof.
  intros Hl. split; [done|]. split.
  - intros s Hs. by rewrite orb_false_r.
  - intros s Hs%not_spawned. unfold heard. by rewrite Hs.
Qed.

Lemma hears_advance m : listening m → hears m (main_event m Advance) false.
Proof.
  intros Hl. cbn [main_event]. destruct (next_server m) as [s0|] eqn:Hn; [|by apply hears_nothing].
  apply next_server_new in Hn.
  pose proof (subscribe_listens (mn_watch m)) as H1. pose proof (subscribe_seen (mn_watch m)) as H2.
  pose proof (λ rx, subscribe_others rx (mn_watch m)) as H3.
  destruct (subscribe (mn_watch m)) as [rx w]. simpl in *.
  split; [|split]; unfold listening, spawned, heard; simpl.
  - intros s t. case_decide; [intros [= <-]; done|]. intros Ht. by apply H3, (Hl s).
  - intros s [t Ht]. case_decide as Hd; [subst; congruence|]. rewrite Ht, orb_false_r.
    split; [by eexists|]. by apply H3, (Hl s).
  - intros s Hs. case_decide; [done|]. by rewrite (not_spawned m s Hs).
Qed.

Lemma hears_request m ev :
  listening m → match ev with Signal | ShutdownRequest _ => True | _ => False end →
  hears m (main_event m ev) (asks m ev).
Proof.
  intros Hl Hev.
  assert (main_event m ev
          = {| mn_watch := if asks m ev then send (mn_watch m) else mn_watch m;
               mn_task := mn_task m;
               mn_waits_for_signal := mn_waits_for_signal m && negb (is_signal ev) |}) as ->
    by (by destruct ev).
  destruct (asks m ev).
  - split; [|split]; unfold listening, spawned, heard; simpl.
    + intros s t Ht. by apply send_reaches, (Hl s).
    + intros s [t Ht]. rewrite Ht, orb_true_r. split; [by eexists|]. by apply send_reaches, (Hl s).
    + intros s Hs. by rewrite (not_spawned m s Hs).
  - destruct (hears_nothing m Hl) as (H1 & H2 & H3). by split; [|split].
Qed.

Lemma set_finished_heard m s0 rx res s :
  mn_task m s0 = Some {| tk_rx := rx; tk_state := Serving |} →
  heard (set_task s0 {| tk_rx := rx; tk_state := Finished res |} m) s = heard m s.
Proof. intros Ht. unfold heard. simpl. case_decide; [subst; by rewrite Ht|done]. Qed.

Lemma hears_return m s0 res : listening m → hears m (main_event m (Returned s0 res)) false.
Proof.
  intros Hl. cbn [main_event]. destruct (mn_task m s0) as [[rx []]|] eqn:Ht;
    try by apply hears_nothing.
  destruct (_ && _); [by apply hears_nothing|]. split; [|split].
  - intros s t. simpl. case_decide; [intros [= <-]; apply (Hl s0 _ Ht)|apply Hl].
  - intros s Hs. rewrite set_finished_heard, orb_false_r by done. split; [|done].
    unfold spawned in *. simpl. case_decide; [by eexists|done].
  - intros s Hs. rewrite set_finished_heard by done. unfold heard. by rewrite (not_spawned m s Hs).
Qed.

Lemma hears_event m ev : listening m → hears m (main_event m ev) (asks m ev).
Proof.
  intros Hl. destruct ev as [| |header|s res];
    [by apply hears_advance|by apply hears_request|by apply hears_request|by apply hears_return].
Qed.

(** A server that has returned [Ok] had heard of the shutdown. *)
Definition orderly m : Prop :=
  ∀ s t, mn_task m s = Some t → tk_state t = Finished (Ok tt) → heard m s = true.

Lemma orderly_event m ev : listening m → orderly m → orderly (main_event m ev).
Proof.
  intros Hl Ho. destruct (hears_event m ev Hl) as (_ & Hh & _).
  assert (∀ s t, mn_task m s = Some t → tk_state t = Finished (Ok tt) →
            heard (main_event m ev) s = true) as Hkeep.
  { intros s t Ht Hf. destruct (Hh s) as [_ ->]; [by eexists|]. by rewrite (Ho s t Ht Hf). }
  intros s t Ht Hf. destruct ev as [| |header|s0 res]; try by apply (Hkeep s t).
  - revert Ht Hf Hkeep. cbn [main_event]. destruct (next_server m) as [s0|]; [|by intros; eapply Hkeep].
    destruct (subscribe _) as [rx w]. simpl. case_decide; [by intros [= <-]|]. intros Ht Hf Hkeep.
    by apply (Hkeep s t).
  - destruct (mn_task m s0) as [[rx []]|] eqn:H0;
      try (apply (Hkeep s t); [|done]; revert Ht; cbn [main_event]; by rewrite H0).
    revert Ht Hkeep. cbn [main_event]. rewrite H0. destruct (is_ok res && negb (heard m s0)) eqn:Hb;
      intros Ht Hkeep; [by apply (Hkeep s t)|].
    rewrite set_finished_heard by done. simpl in Ht. case_decide as Hd; [|by apply (Ho s t)].
    subst s0. injection Ht as <-. simpl in Hf. injection Hf as ->. simpl in Hb.
    by destruct (heard m s).
Qed.

Lemma run_invariant evs : listening (main_run evs) ∧ orderly (main_run evs).
Proof.
  unfold main_run. induction evs as [|ev evs [Hl Ho]] using rev_ind; [by split|].
  rewrite foldl_app. simpl. split; [apply hears_event, Hl|by apply orderly_event].
Qed.

(** What a server hears of the events that follow its start. *)
Lemma run_heard m evs s : listening m → spawned m s →
  spawned (foldl main_event m evs) s
  ∧ (heard (foldl main_event m evs) s = true ↔
     heard m s = true ∨ ∃ before ev after, evs = before ++ ev :: after
                          ∧ asks (foldl main_event m before) ev = true).
Proof.
  revert m. induction evs as [|ev evs IH]; intros m Hl Hs.
  { split; [done|]. simpl. split; [by left|]. intros [H|(before & ev & after & H & _)]; [done|].
    by destruct before. }
  destruct (hears_event m ev Hl) as (Hl' & Hh & _). destruct (Hh s Hs) as [Hs' He].
  simpl. destruct (IH _ Hl' Hs') as [H1 H2]. split; [done|]. rewrite H2, He, orb_true_iff. split.
  - intros [[H|H]|(before & ev' & after & -> & H)]; [by left| |].
    + right. by exists [], ev, evs.
    + right. by exists (ev :: before), ev', after.
  - intros [H|(before & ev' & after & Heq & H)]; [by left; left|].
    destruct before as [|ev0 before]; injection Heq as <- ->; [by left; right|].
    right. by exists before, ev', after.
Qed.

Lemma run_app before after : main_run (before ++ after) = foldl main_event (main_run before) after.
Proof. unfold main_run. by rewrite foldl_app. Qed.

Lemma advance_spawns m s : next_server m = Some s → spawned (main_event m Advance) s.
Proof.
  intros Hn. cbn [main_event]. rewrite Hn. destruct (subscribe _) as [rx w]. unfold spawned. simpl.
  rewrite decide_True by done. by eexists.
Qed.

(** A server hears exactly what is asked for after its start. *)
Lemma heard_since_start before after s : next_server (main_run before) = Some s →
  let m := main_run (before ++ [Advance]) in
  heard (foldl main_event m after) s = true ↔
  ∃ between ev rest, after = between ++ ev :: rest ∧ asks (foldl main_event m between) ev = true.
Proof.
  intros Hn m. assert (m = main_event (main_run before) Advance) as Hm by (unfold m; by rewrite run_app).
  destruct (run_invariant before) as [Hl _].
  destruct (hears_event _ Advance Hl) as (Hl' & _ & Hnew). rewrite <- Hm in Hl', Hnew.
  destruct (run_heard m after s Hl') as [_ ->]; [rewrite Hm; by apply advance_spawns|].
  rewrite Hnew; [naive_solver|]. intros [t Ht]. by rewrite (next_server_new _ _ Hn) in Ht.
Qed.

(** [main] returns [Ok] only when every server had heard. *)
Lemma result_heard m : orderly m → main_result m = Some (Ok tt) → ∀ s, heard m s = true.
Proof.
  intros Ho. unfold main_result. intros Hr s.
  destruct (mn_task m GrpcServer) as [g|] eqn:Hg; [|done].
  destruct (mn_task m HealthServer) as [h|] eqn:Hh; [|done].
  destruct (mn_task m MetricsServer) as [e|] eqn:He; [|done].
  assert (tk_state g = Finished (Ok tt) ∧ tk_state h = Finished (Ok tt)
          ∧ tk_state e = Finished (Ok tt)) as (F1 & F2 & F3).
  { destruct (tk_state g) as [| |[[]|]], (tk_state h) as [| |[[]|]], (tk_state e) as [| |[[]|]]; done. }
  destruct s; [by apply (Ho _ g)|by apply (Ho _ h)|by apply (Ho _ e)].
Qed.

Definition all_serving m : Prop := ∀ s, is_serving m s = true.

Definition all_return : list Event :=
  [Returned GrpcServer (Ok tt); Returned HealthServer (Ok tt); Returned MetricsServer (Ok tt)].

Lemma return_when_heard m s0 s :
  is_serving m s0 = true → heard m s0 = true →
  let m' := main_event m (Returned s0 (Ok tt)) in
  heard m' s = heard m s
  ∧ (s ≠ s0 → mn_task m' s = mn_task m s)
  ∧ ∃ rx, mn_task m' s0 = Some {| tk_rx := rx; tk_state := Finished (Ok tt) |}.
Proof.
  unfold is_serving. destruct (mn_task m s0) as [[rx []]|] eqn:Ht; try done. intros _ Hh.
  cbn [main_event]. rewrite Ht, Hh. simpl. split; [by apply set_finished_heard|].
  split; [intros Hne; by rewrite decide_False|]. rewrite decide_True by done. by exists rx.
Qed.

Lemma request_then_return m ev : listening m → all_serving m → asks m ev = true →
  main_result (foldl main_event (main_event m ev) all_return) = Some (Ok tt).
Proof.
  intros Hl Hs Ha. destruct (hears_event m ev Hl) as (_ & Hh & _). rewrite Ha in Hh.
  assert (mn_task (main_event m ev) = mn_task m) as Ht by (destruct ev; [discriminate Ha| | |discriminate Ha]; reflexivity).
  assert (∀ s, heard (main_event m ev) s = true) as Hall.
  { intros s. destruct (Hh s) as [_ ->]; [|by rewrite orb_true_r]. specialize (Hs s).
    unfold is_serving in Hs. unfold spawned. destruct (mn_task m s); [by eexists|done]. }
  assert (all_serving (main_event m ev)) as Hs' by (intros s; unfold is_serving; rewrite Ht; apply Hs).
  clear Ht Hh Hs Ha Hl. revert Hall Hs'. generalize (main_event m ev). clear m ev. intros m Hall Hs.
  unfold all_return. cbn [foldl].
  set (m1 := main_event m (Returned GrpcServer (Ok tt))).
  set (m2 := main_event m1 (Returned HealthServer (Ok tt))).
  set (m3 := main_event m2 (Returned MetricsServer (Ok tt))).
  assert (∀ s, heard m1 s = true) as H1 by (intros s; unfold m1; by rewrite (proj1 (return_when_heard m _ s (Hs _) (Hall _)))).
  destruct (return_when_heard m GrpcServer HealthServer (Hs _) (Hall _)) as (_ & T12 & rx1 & G1).
  destruct (return_when_heard m GrpcServer MetricsServer (Hs _) (Hall _)) as (_ & T13 & _).
  fold m1 in T12, T13, G1.
  assert (is_serving m1 HealthServer = true) as S12 by (unfold is_serving; rewrite T12 by done; apply Hs).
  assert (is_serving m1 MetricsServer = true) as S13 by (unfold is_serving; rewrite T13 by done; apply Hs).
  destruct (return_when_heard m1 HealthServer MetricsServer S12 (H1 _)) as (E2 & T23 & rx2 & G2).
  destruct (return_when_heard m1 HealthServer GrpcServer S12 (H1 _)) as (_ & T21 & _).
  fold m2 in E2, T23, G2, T21.
  assert (is_serving m2 MetricsServer = true) as S23 by (unfold is_serving; rewrite T23 by done; apply S13).
  rewrite H1 in E2.
  destruct (return_when_heard m2 MetricsServer GrpcServer S23 E2) as (_ & T31 & rx3 & G3).
  destruct (return_when_heard m2 MetricsServer HealthServer S23 E2) as (_ & T32 & _).
  fold m3 in T31, G3, T32. unfold main_result. by rewrite T31, T21, G1, T32, G2, G3 by done.
Qed.

(** * Properties *)

(** C38: a shutdown is heard by the servers that are there.  In any run of the
    process, a server hears exactly the requests - the signal, or an authorized
    call of [/shutdownz] - that come after it was started; [main] returns [Ok]
    only when all three servers have heard one, so a signal that arrives before
    the last of them was started does not stop the process; and once all three
    serve, a request lets them all return and [main] with them. *)
Theorem shutdown_reaches_started_servers before after s :
  next_server (main_run before) = Some s →
  let m := main_run (before ++ [Advance]) in
  (heard (foldl main_event m after) s = true ↔
     ∃ between ev rest, after = between ++ ev :: rest ∧ asks (foldl main_event m between) ev = true)
  ∧ ((∀ between ev rest, after = between ++ ev :: rest →
        asks (foldl main_event m between) ev = false) →
     main_result (foldl main_event m after) ≠ Some (Ok tt))
  ∧ ∀ ev, all_serving (foldl main_event m after) → asks (foldl main_event m after) ev = true →
      main_result (foldl main_event m (after ++ ev :: all_return)) = Some (Ok tt).
Proof.
  intros Hn m. pose proof (heard_since_start before after s Hn) as Hheard. fold m in Hheard.
  assert (foldl main_event m after = main_run (before ++ [Advance] ++ after)) as Hm
    by (rewrite app_assoc; exact (eq_sym (run_app _ after))).
  destruct (run_invariant (before ++ [Advance] ++ after)) as [Hl Ho]. rewrite <- Hm in Hl, Ho.
  split; [exact Hheard|]. split.
  - intros Hno Hr. pose proof (result_heard _ Ho Hr s) as (between & ev & rest & Heq & Ha)%Hheard.
    by rewrite (Hno _ _ _ Heq) in Ha.
  - intros ev Hs Ha. rewrite foldl_app. cbn [foldl]. by apply request_then_return.
Qed.
End Shutdown.

(** * Witness: a channel that counts, and a signal that comes too early *)

Definition counting_watch : WatchLibrary := {|
  Watch := nat * bool; Receiver := nat;              (* values sent; are there receivers *)
  watch_channel := (0%nat, false);
  subscribe w := (w.1, (w.1, true));
  send w := if w.2 then (S w.1, true) else w;
  changed rx w := (rx <? w.1)%nat;
  listens rx w := w.2 = true ∧ (rx ≤ w.1)%nat
|}.

#[local] Existing Instance counting_watch.

#[local] Instance counting_laws : WatchLaws counting_watch.
Proof.
  split; simpl.
  - intros w. split; [done|lia].
  - intros w. apply Nat.ltb_irrefl.
  - intros rx w [_ H]. split; [by split|done].
  - intros rx [n b] [Hb Hle]. simpl in *. subst b. simpl. split; [split; [done|lia]|].
    apply Nat.ltb_lt. lia.
Qed.

Definition no_header (raw : list byte) : option string := None.

(** The signal arrives when only the gRPC server has been started. *)
Definition early_signal : list Event := [Advance; Signal; Advance; Advance] ++ all_return.
(** It arrives when all three serve. *)
Definition late_signal : list Event := [Advance; Advance; Advance; Signal] ++ all_return.

Lemma early_signal_lost :
  main_result (main_run no_header None early_signal) = None
  ∧ main_result (main_run no_header None late_signal) = Some (Ok tt).
Proof. split; reflexivity. Qed.

Lemma shutdown_reaches_started_servers_witness :
  heard (main_run no_header None [Advance; Advance; Advance; Signal]) MetricsServer = true
  ∧ main_result (main_run no_header None ([Advance; Advance; Advance] ++ Signal :: all_return))
    = Some (Ok tt).
Proof.
  destruct (shutdown_reaches_started_servers (W := counting_watch) no_header None
              [Advance; Advance] [] MetricsServer eq_refl)
    as (_ & _ & H).
  split; [reflexivity|]. apply (H Signal); [|reflexivity]. intros []; reflexivity.
Defined.
