(* ===== verification/Gateway.v ===== *)
(** * [demo/praxis-audit/gateway]: the classification filter and the start of the gateway

    [mcp_classify.rs] reads the method and the name of a JSON-RPC call from the
    buffered body and stamps them as metadata, on which the policy filter routes;
    [main.rs] finds the configuration file.  The JSON values and the request
    context come from their libraries and are the classes [JsonLibrary] and
    [FilterLibrary]; the proxy, its filters and its plugins are not in the
    repository ([PraxisLibrary]), and neither is what becomes of the metadata. *)

From Stdlib Require Import String Strings.Byte ZArith Lia.
From stdpp Require Import base tactics numbers strings list gmap sorting.
From S2P Require Import Prelude.

(** [serde_json]: [from_slice] with its error dropped, [Value::get] with a name,
    and [Value::as_str]. *)
Class JsonLibrary := {
  Value : Type;
  from_slice : list byte → option Value;
  value_get : string → Value → option Value;
  as_str : Value → option string
}.

(** [HttpFilterContext], of which the filter writes the metadata. *)
Class FilterLibrary := {
  FilterContext : Type;
  set_metadata : string → string → FilterContext → FilterContext;
  metadata : FilterContext → string → option string
}.

Class FilterLaws (F : FilterLibrary) : Prop := {
  metadata_set key value ctx key' :
    metadata (set_metadata key value ctx) key' = if String.eqb key' key then Some value else metadata ctx key'
}.

(** [Option::or_else] *)
Definition or_else {A : Type} (o o' : option A) : option A :=
  match o with Some a => Some a | None => o' end.

(** ** [McpClassify] *)

(** The answers of the filter. *)
Inductive FilterAction : Type := Continue | Release.

Definition MAX_BODY_BYTES : Z := 256 * 1024.

(** What the filter tells the proxy of itself. *)
Inductive BodyAccess : Type := ReadOnly.
Inductive BodyMode : Type := StreamBuffer (max_bytes : option Z).

Definition name : string := "mcp_classify".
Definition request_body_access : BodyAccess := ReadOnly.
Definition request_body_mode : BodyMode := StreamBuffer (Some MAX_BODY_BYTES).

Section Classify.
Context {J : JsonLibrary} {F : FilterLibrary}.

(** The headers pass. *)
Definition on_request (ctx : FilterContext) : FilterAction * FilterContext := (Continue, ctx).

Definition stamp_method (rpc : Value) (ctx : FilterContext) : FilterContext :=
  match value_get "method" rpc ≫= as_str with
  | Some method => set_metadata "mcp.method" method (set_metadata "json_rpc.method" method ctx)
  | None => ctx
  end.

Definition call_name (rpc : Value) : option string :=
  (value_get "params" rpc ≫= λ p, or_else (value_get "name" p) (value_get "uri" p)) ≫= as_str.

Definition on_request_body (ctx : FilterContext) (body : option (list byte)) (end_of_stream : bool)
    : FilterAction * FilterContext * option (list byte) :=
  if negb end_of_stream then (Continue, ctx, body)
  else
    match body ≫= from_slice with
    | None => (Release, ctx, body)
    | Some rpc =>
        let ctx := stamp_method rpc ctx in
        (Release,
         match call_name rpc with Some name => set_metadata "mcp.name" name ctx | None => ctx end,
         body)
    end.

(** A request: its headers, the chunks of its body, then the whole body at the end
    of the stream. *)
Fixpoint on_chunks (ctx : FilterContext) (chunks : list (option (list byte))) (body : option (list byte))
    : FilterAction * FilterContext * option (list byte) :=
  match chunks with
  | [] => on_request_body ctx body true
  | chunk :: chunks' => on_chunks (on_request_body ctx chunk false).1.2 chunks' body
  end.

(** ** Properties *)

Definition on_call (ctx : FilterContext) (chunks : list (option (list byte)))
    (body : option (list byte)) : FilterAction * FilterContext * option (list byte) :=
  on_chunks (on_request ctx).2 chunks body.

Context {FL : FilterLaws F}.

Lemma stamp_method_metadata rpc ctx key :
  metadata (stamp_method rpc ctx) key
  = match value_get "method" rpc ≫= as_str with
    | Some method =>
        if String.eqb key "mcp.method" || String.eqb key "json_rpc.method" then Some method
        else metadata ctx key
    | None => metadata ctx key
    end.
Proof.
  unfold stamp_method. destruct (value_get "method" rpc ≫= as_str) as [m|]; [|done].
  rewrite !metadata_set. by repeat case_match.
Qed.

(** The metadata the policy filter routes on is that of the call: for a request
    that brings none of its own and however its body is cut, [mcp.method] and
    [json_rpc.method] are the text of [method] in the JSON value of the whole body,
    if it has one; [mcp.name] is the text of [name] in its [params], or of [uri]
    when there is no [name] (a [name] that is not a text hides the [uri]); nothing
    else is set, the body is released as it came, and a body that is not JSON sets
    nothing. *)
Theorem classification_exact (ctx : FilterContext) (chunks : list (option (list byte)))
    (body : option (list byte)) :
  (∀ key, metadata ctx key = None) →
  let '(action, ctx', body') := on_call ctx chunks body in
  action = Release ∧ body' = body
  ∧ ∀ key, metadata ctx' key
      = rpc ← body ≫= from_slice;
        if String.eqb key "mcp.method" || String.eqb key "json_rpc.method" then
          value_get "method" rpc ≫= as_str
        else if String.eqb key "mcp.name" then
          p ← value_get "params" rpc;
          match value_get "name" p with
          | Some name => as_str name
          | None => value_get "uri" p ≫= as_str
          end
        else None.
Proof.
  intros Hctx. unfold on_call. simpl.
  assert (on_chunks ctx chunks body = on_request_body ctx body true) as ->.
  { induction chunks as [|chunk chunks IH]; [done|exact IH]. }
  unfold on_request_body. simpl. destruct (body ≫= from_slice) as [rpc|]; [|by simpl].
  split; [done|]. split; [done|]. intros key. simpl.
  assert (call_name rpc = p ← value_get "params" rpc;
            match value_get "name" p with
            | Some name => as_str name
            | None => value_get "uri" p ≫= as_str
            end) as Hname.
  { unfold call_name. destruct (value_get "params" rpc) as [p|]; [|done]. simpl.
    by destruct (value_get "name" p). }
  rewrite <- Hname. destruct (call_name rpc) as [name|].
  - rewrite metadata_set, stamp_method_metadata, Hctx.
    destruct (String.eqb_spec key "mcp.name") as [->|]; [done|].
    destruct (_ || _); by destruct (value_get "method" rpc ≫= as_str).
  - rewrite stamp_method_metadata, Hctx.
    destruct (_ || _); destruct (String.eqb key "mcp.name");
      by destruct (value_get "method" rpc ≫= as_str).
Qed.
End Classify.

(** ** [main]: the configuration file *)

Fixpoint skip_while {A : Type} (p : A → bool) (l : list A) : list A :=
  match l with
  | [] => []
  | a :: l' => if p a then skip_while p l' else l
  end.

Definition is_config_flag (a : string) : bool := String.eqb a "-c" || String.eqb a "--config".

(** The argument after the first flag, or the variable [PRAXIS_CONFIG]. *)
Definition explicit_config (args : list string) (env : option string) : option string :=
  or_else (skip_while (λ a, negb (is_config_flag a)) args !! 1%nat) env.

(** A path that follows a flag is taken, whatever the environment says; a flag
    that ends the command line counts as none. *)
Theorem explicit_config_spec (before : list string) (flag : string) (rest : list string)
    (env : option string) :
  forallb (λ a, negb (is_config_flag a)) before = true → is_config_flag flag = true →
  explicit_config (before ++ flag :: rest) env = or_else (head rest) env
  ∧ explicit_config before env = env.
Proof.
  intros Hb Hf. unfold explicit_config.
  assert (skip_while (λ a, negb (is_config_flag a)) (before ++ flag :: rest) = flag :: rest
          ∧ skip_while (λ a, negb (is_config_flag a)) before = []) as [-> ->].
  { induction before as [|a before IH]; simpl in *; [by rewrite Hf|].
    apply andb_true_iff in Hb as [-> Hb]. by apply IH. }
  by destruct rest.
Qed.

(** ** [main]: the start of the gateway *)

Class PraxisLibrary := {
  PxError : Type;
  ConfigFile : Type;
  GatewayConfig : Type;
  FilterRegistry : Type;
  ExitCode : Type;
  SUCCESS : ExitCode;
  DEFAULT_CONFIG : string;
  ocsf_audit_KIND : string;
  pii_scanner_KIND : string;
  resolve_config_path : option string → option string;
  read_config_file : string → result ConfigFile PxError;
  from_config_file_or : option ConfigFile → string → result GatewayConfig PxError;
  init_tracing : GatewayConfig → result unit PxError;
  with_builtins : FilterRegistry;
  register_http : string → FilterRegistry → FilterRegistry;
  (* the plugins that were registered, then the arguments of the call *)
  try_run_server_with_registry :
    list string → GatewayConfig → FilterRegistry → option ConfigFile → result unit PxError;
  report_fatal : PxError → GatewayConfig → ExitCode
}.

Section Main.
Context {X : PraxisLibrary}.

(** [praxis::fatal] ends the process. *)
Inductive Exit : Type :=
| Fatal (e : PxError)
| Exited (code : ExitCode).

(** [Option<Result>::transpose] *)
Definition transpose {T E : Type} (o : option (result T E)) : result (option T) E :=
  match o with Some (Ok t) => Ok (Some t) | Some (Err e) => Err e | None => Ok None end.

(** [unwrap_or_else(|e| praxis::fatal(&e))] *)
Definition or_fatal {T : Type} (r : result T PxError) (k : T → Exit) : Exit :=
  match r with Ok t => k t | Err e => Fatal e end.

Definition gateway_main (args : list string) (PRAXIS_CONFIG : option string) : Exit :=
  let plugins := [ocsf_audit_KIND; pii_scanner_KIND] in
  let config_path := resolve_config_path (explicit_config args PRAXIS_CONFIG) in
  or_fatal (transpose (read_config_file <$> config_path)) (λ config_file,
  or_fatal (from_config_file_or config_file DEFAULT_CONFIG) (λ config,
  or_fatal (init_tracing config) (λ _,
    let registry := register_http name with_builtins in
    Exited (match try_run_server_with_registry plugins config registry config_file with
            | Ok _ => SUCCESS
            | Err e => report_fatal e config
            end)))).

(** The gateway never runs on a configuration nobody chose: when a file was named
    (or found) and cannot be read, or does not make a configuration, the process
    ends before any server is started; the default is for no file at all.  When it
    runs, it runs with both plugins and the classification filter registered. *)
Theorem gateway_main_exits (args : list string) (env : option string) :
  let path := resolve_config_path (explicit_config args env) in
  (∀ p e, path = Some p → read_config_file p = Err e → gateway_main args env = Fatal e)
  ∧ ∀ code, gateway_main args env = Exited code →
      ∃ file config, from_config_file_or file DEFAULT_CONFIG = Ok config
        ∧ match path with Some p => ∃ f, file = Some f ∧ read_config_file p = Ok f | None => file = None end
        ∧ init_tracing config = Ok tt
        ∧ code = match try_run_server_with_registry [ocsf_audit_KIND; pii_scanner_KIND] config
                         (register_http "mcp_classify" with_builtins) file with
                 | Ok _ => SUCCESS
                 | Err e => report_fatal e config
                 end.
Proof.
  intros path. unfold gateway_main. fold path. split.
  - intros p e -> He. simpl. by rewrite He.
  - intros code. destruct (transpose (read_config_file <$> path)) as [file|e] eqn:Hf; [|done]. simpl.
    destruct (from_config_file_or file DEFAULT_CONFIG) as [config|e] eqn:Hc; [|done]. simpl.
    destruct (init_tracing config) as [[]|e] eqn:Hi; [|done]. simpl. intros [= <-].
    exists file, config. split; [done|]. split; [|by split].
    destruct path as [p|]; simpl in Hf; [|by injection Hf as <-].
    destruct (read_config_file p) as [f|e]; [|done]. injection Hf as <-. by exists f.
Qed.
End Main.
