(* ===== verification/Health.v ===== *)
(** * [src/main.rs]: the answers of the health server

    The routes of the health server and their handlers, over the state they share
    with the rest of the process: the pool, the last status of the background
    verifier, and the channel of the shutdown ([main_event] of Shutdown sends on
    it when [shutdownz] says so).  [/verifyz] shows the status as JSON, field by
    field as [serde] derives it for the structures of [src/verifier.rs].  The JSON
    values are those of [serde_json] ([JsonLibrary], here with their constructors),
    and the text of a time is [chrono]'s. *)

From Stdlib Require Import String Strings.Byte ZArith Lia.
From stdpp Require Import base tactics numbers strings list gmap sorting.
From S2P Require Import Prelude Platform Crypto Repository Config World Service.
From S2P Require Import LedgerSpec InMemory Chain Examples ServiceWrite ServiceVerify Verifier.
From S2P Require Import Access Gateway.

(** Building a value, and reading the shapes that Gateway does not. *)
Class JsonBuild (J : JsonLibrary) := {
  json_bool : bool → Value;
  json_int : Z → Value;
  json_string : string → Value;
  json_array : list Value → Value;
  json_object : list (string * Value) → Value;
  as_bool : Value → option bool;
  as_i64 : Value → option Z;
  as_array : Value → option (list Value)
}.

Fixpoint field {A : Type} (key : string) (fields : list (string * A)) : option A :=
  match fields with
  | [] => None
  | (k, v) :: fields' => if String.eqb k key then Some v else field key fields'
  end.

Class JsonLaws (J : JsonLibrary) (B : JsonBuild J) : Prop := {
  get_object key fields : NoDup fields.*1 → value_get key (json_object fields) = field key fields;
  get_array key vs : value_get key (json_array vs) = None;
  as_bool_bool b : as_bool (json_bool b) = Some b;
  as_i64_int n : i64_min ≤ n ≤ i64_max → as_i64 (json_int n) = Some n;
  as_str_string s : as_str (json_string s) = Some s;
  as_array_array vs : as_array (json_array vs) = Some vs
}.

Section Health.
Context {P : Platform} {J : JsonLibrary} {B : JsonBuild J}.
Context (time_text : DateTime → string).             (* chrono's Serialize *)

(** ** [#[derive(Serialize)]] *)

Definition json_of_chain_result (c : ChainResult) : Value :=
  json_object [("entry_type", json_string (cr_entry_type c));
               ("valid", json_bool (cr_valid c));
               ("entries_checked", json_int (cr_entries_checked c));
               ("failure_reason", json_string (cr_failure_reason c))].

Definition json_of_status (v : VerificationStatus) : Value :=
  json_object [("all_valid", json_bool (vs_all_valid v));
               ("chains_checked", json_int (vs_chains_checked v));
               ("last_run", json_string (time_text (vs_last_run v)));
               ("duration_ms", json_int (vs_duration_ms v));
               ("chain_results", json_array (json_of_chain_result <$> vs_chain_results v))].

(** ** The handlers *)

Inductive Body : Type := BText (s : string) | BJson (v : Value) | BEmpty.

Inductive Endpoint : Type := Healthz | Readyz | Verifyz | Shutdownz.

(** The routes, as the router is given them. *)
Definition health_routes : list (string * string * Endpoint) :=
  [("GET", "/healthz", Healthz); ("GET", "/readyz", Readyz); ("GET", "/verifyz", Verifyz);
   ("POST", "/shutdownz", Shutdownz)].

Definition verifyz (status : option VerificationStatus) : Value :=
  match status with
  | Some v => json_of_status v
  | None => json_object [("status", json_string "not_yet_run")]
  end.

(** The status, the body, and whether the shutdown is asked for. *)
Definition health_answer (to_str : list byte → option string) (shutdown_token : option string)
    (pool_available : bool) (status : option VerificationStatus) (header : option (list byte))
    (e : Endpoint) : Z * Body * bool :=
  match e with
  | Healthz => (200, BText "ok", false)
  | Readyz => let '(code, text) := readyz pool_available status in (code, BText text, false)
  | Verifyz => (200, BJson (verifyz status), false)
  | Shutdownz => let '(code, asked) := shutdownz to_str shutdown_token header in (code, BEmpty, asked)
  end.

(** ** Reading [/verifyz]: what a client does with the value *)

Definition read_chain_result (v : Value) : option ChainResult :=
  t ← value_get "entry_type" v ≫= as_str;
  valid ← value_get "valid" v ≫= as_bool;
  n ← value_get "entries_checked" v ≫= as_i64;
  reason ← value_get "failure_reason" v ≫= as_str;
  Some {| cr_entry_type := t; cr_valid := valid; cr_entries_checked := n;
          cr_failure_reason := reason |}.

Definition read_verdict (v : Value) : option (bool * list ChainResult) :=
  all_valid ← value_get "all_valid" v ≫= as_bool;
  results ← value_get "chain_results" v ≫= as_array;
  results ← mapM read_chain_result results;
  Some (all_valid, results).

(** * Lemmas *)

Context {L : JsonLaws J B}.

Lemma read_json_of_chain_result c :
  i64_min ≤ cr_entries_checked c ≤ i64_max → read_chain_result (json_of_chain_result c) = Some c.
Proof.
  intros Hn. unfold read_chain_result, json_of_chain_result.
  rewrite !get_object by (apply (bool_decide_unpack _); reflexivity). simpl.
  rewrite !as_str_string. simpl. rewrite as_bool_bool. simpl. rewrite as_i64_int by done. simpl.
  by destruct c.
Qed.

Lemma read_json_of_status v :
  Forall (λ c, i64_min ≤ cr_entries_checked c ≤ i64_max) (vs_chain_results v) →
  read_verdict (json_of_status v) = Some (vs_all_valid v, vs_chain_results v).
Proof.
  intros Hn. unfold read_verdict, json_of_status.
  rewrite !get_object by (apply (bool_decide_unpack _); reflexivity). simpl.
  rewrite as_bool_bool. simpl. rewrite as_array_array. simpl.
  assert (mapM read_chain_result (json_of_chain_result <$> vs_chain_results v)
          = Some (vs_chain_results v)) as ->; [|done].
  induction Hn as [|c cs Hc _ IH]; [done|]. rewrite fmap_cons. cbn [mapM].
  by rewrite read_json_of_chain_result, IH.
Qed.

(** A client reads from [/verifyz] exactly the results of the last round, and what
    it reads agrees with [/readyz]: the service is ready when the database answers
    and every listed chain is valid, and before the first round. *)
Theorem verifyz_agrees_with_readyz (status : option VerificationStatus) :
  (∀ v, status = Some v →
     vs_all_valid v = forallb cr_valid (vs_chain_results v)
     ∧ Forall (λ c, i64_min ≤ cr_entries_checked c ≤ i64_max) (vs_chain_results v)) →
  (read_verdict (verifyz status)
   = (v ← status; Some (forallb cr_valid (vs_chain_results v), vs_chain_results v)))
  ∧ ∀ to_str token pool header,
      (health_answer to_str token pool status header Readyz).1.1 = 200 ↔
      pool = true ∧ ∀ all_valid results,
        read_verdict (verifyz status) = Some (all_valid, results) → ∀ c, c ∈ results → cr_valid c = true.
Proof.
  intros Hs. assert (read_verdict (verifyz status)
    = (v ← status; Some (forallb cr_valid (vs_chain_results v), vs_chain_results v))) as Hr.
  { destruct status as [v|]; simpl.
    - destruct (Hs v eq_refl) as [<- Hn]. by apply read_json_of_status.
    - unfold read_verdict. rewrite !get_object by (apply (bool_decide_unpack _); reflexivity). reflexivity. }
  split; [done|]. intros to_str token pool header. rewrite Hr. simpl. unfold readyz.
  destruct pool; simpl; [|by split; [|intros []]]. destruct status as [v|]; simpl; [|naive_solver].
  destruct (Hs v eq_refl) as [-> _]. destruct (forallb cr_valid (vs_chain_results v)) eqn:Hv; simpl.
  - split; [|done]. intros _. split; [done|]. intros a rs [= <- <-] c Hc.
    rewrite forallb_forall in Hv. apply Hv. by apply list_elem_of_In.
  - split; [done|]. intros [_ H]. specialize (H _ _ eq_refl).
    assert (forallb cr_valid (vs_chain_results v) = true); [|congruence].
    apply forallb_forall. intros c Hc. apply H. by apply list_elem_of_In.
Qed.

(** Only an authorized [POST] asks for the shutdown; [/healthz] always answers. *)
Theorem only_shutdownz_asks to_str token pool status header e :
  (health_answer to_str token pool status header e).2 = true ↔
  e = Shutdownz ∧ ∃ secret, token = Some secret ∧ authorized_http to_str header secret = true.
Proof.
  destruct e; simpl; try (by split; [|intros []]).
  - destruct (readyz pool status). by split; [|intros []].
  - unfold shutdownz. destruct token as [secret|]; simpl; [|naive_solver].
    destruct (authorized_http to_str header secret) eqn:E; simpl; naive_solver.
Qed.
End Health.

(** * The laws hold of the values themselves *)

Inductive Json : Type :=
| JBool (b : bool) | JInt (n : Z) | JString (s : string) | JArray (vs : list Json)
| JObject (fields : list (string * Json)).

Definition json_values : JsonLibrary := {|
  Value := Json;
  from_slice _ := None;
  value_get key v := match v with JObject fields => field key fields | _ => None end;
  as_str v := match v with JString s => Some s | _ => None end
|}.

Definition json_builds : JsonBuild json_values := {|
  json_bool := JBool : _ → Value (JsonLibrary := json_values);
  json_int := JInt; json_string := JString; json_array := JArray; json_object := JObject;
  as_bool v := match v with JBool b => Some b | _ => None end;
  as_i64 v := match v with JInt n => Some n | _ => None end;
  as_array v := match v with JArray vs => Some vs | _ => None end
|}.

#[local] Instance json_laws : JsonLaws json_values json_builds.
Proof. split; done. Qed.

Example first_verifyz :
  verifyz (P := Toy.platform) (J := json_values) (B := json_builds) (λ _, "") None
  = JObject [("status", JString "not_yet_run")].
Proof. reflexivity. Qed.
