(* ===== verification/Integration.v ===== *)
(** * The integration tests, run on the model

    The tests of [src/tests/*.rs], with the combinators of Conformance: one
    definition per test and its assertions, evaluated on [Platform.Toy].  The
    number of writes of the two load tests is an argument, since every digest is
    computed by the kernel: 51 entries (two batches of the walk) stand for the
    1000 of [it002], and ten chains of 2 for the ten of 100 of [it003].  The gRPC
    smoke test calls the handlers; the transport is tonic's. *)

From Stdlib Require Import String Ascii Strings.Byte ZArith Lia.
From stdpp Require Import base tactics numbers strings list gmap sorting.
From S2P Require Import Prelude Platform Crypto Repository Config World Service LedgerSpec.
From S2P Require Import InMemory Concurrency Outbox Grpc Conformance.

Section IntegrationTests.
Context {P : Platform}.

Notation write := (write_entry test_service).

(** ** [integration_lifecycle.rs] *)

Definition it001_write_read_verify_cycle : T Inner unit :=
  test! w := expect (write (request "LEDGER_ENTRY_TYPE_ACTION_RECEIPT" "agent-a" "content"
                              "ARE-FOUNDATION-PROOF" None None)) in
  test! entry := expect (service_get_entry (wo_entry_id w)) in
  test! _ := t_assert (String.eqb (le_entry_hash entry) (wo_entry_hash w)) in
  test! verify := expect (verify_entry test_service (wo_entry_id w)) in
  test! _ := t_assert (ve_hash_valid verify) in
  t_assert (ve_chain_link_valid verify).

Definition it002_chain_integrity_for_many_entries (n : nat) : T Inner unit :=
  let chain := "LEDGER_ENTRY_TYPE_AGENT_LIFECYCLE" in
  test! _ := t_each (seq 0 n) (λ i,
    test! _ := expect (write (request chain (numbered "agent-" i) (numbered "payload-" i)
                                "ARE-A-S0-001" None (Some (numbered "idem-" i)))) in
    t_ret tt) in
  test! verify := expect_some (verify_chain test_service (S n) chain None None) in
  test! _ := t_assert (vc_chain_valid verify) in
  t_assert (vc_entries_checked verify =? Z.of_nat n).

Definition it003_entry_types : list string :=
  ["LEDGER_ENTRY_TYPE_ACTION_RECEIPT"; "LEDGER_ENTRY_TYPE_POLICY_EVAL";
   "LEDGER_ENTRY_TYPE_AGENT_LIFECYCLE"; "LEDGER_ENTRY_TYPE_CREDENTIAL_LIFECYCLE";
   "LEDGER_ENTRY_TYPE_PASSPORT_LIFECYCLE"; "LEDGER_ENTRY_TYPE_ESCALATION";
   "LEDGER_ENTRY_TYPE_DRIFT_EVENT"; "LEDGER_ENTRY_TYPE_GATE_DECISION";
   "DELEGATION_ADMITTED"; "CONSTRAINT_DRIFT_DETECTED"].

(** One write of every job, interleaved: the jobs take turns until all have their
    answer. *)
Definition it003_round (c : Config Inner) (i : nat) : Config Inner :=
  let jobs := length it003_entry_types in
  let input t := request t (numbered "agent-" i) (t +:+ numbered "-payload-" i) "ARE-A-S0-003" None
                   (Some (t +:+ numbered "-idem-" i)) in
  run_turns test_service (mjoin (replicate 6 (seq (jobs * i) jobs)))
    (receive (jobs * i) (map input it003_entry_types) c).

Definition it003_concurrent_multi_type_writes (writes : nat) : bool :=
  let c := foldl it003_round (server_init (world_init inner_default)) (seq 0 writes) in
  forallb (λ i, match th_phase <$> c_threads c !! i with
                | Some (Finished (Ok _)) => true
                | _ => false
                end) (seq 0 (length it003_entry_types * writes))
  && forallb (λ t, match (verify_chain test_service (S writes) t None None (c_world c)).1 with
                   | Some (Ok verify) =>
                       vc_chain_valid verify && (vc_entries_checked verify =? Z.of_nat writes)
                   | _ => false
                   end) it003_entry_types.

(** JSON, with an apostrophe for a quotation mark. *)
Definition json_text (s : string) : string :=
  string_of_list_ascii
    (map (λ a, if Ascii.eqb a "'"%char then "034"%char else a) (list_ascii_of_string s)).

Definition it004_delegation_admitted_entry_type_chain : T Inner unit :=
  test! w1 := expect (write (request "DELEGATION_ADMITTED" "leaf-agent"
    (json_text "{'chain_depth':2,'root_agent_id':'r','leaf_agent_id':'l'}")
    "ARE-A-S1-NTA" None (Some "idem-deleg-1"))) in
  test! tip := expect (service_get_chain_tip "DELEGATION_ADMITTED") in
  test! _ := t_assert (bool_decide (ct_entry_id tip = wo_entry_id w1)) in
  test! verify := expect_some (verify_chain test_service 2 "DELEGATION_ADMITTED" None None) in
  t_assert (vc_chain_valid verify).

(** ** [fleet_ecosystem_contract.rs] *)

Definition fleet_entry (entry_type agent_id source_id correlation_id idempotency_key content : string)
    : WriteEntryInput := {|
  wi_entry_type := entry_type; wi_agent_id := agent_id; wi_content := as_bytes content;
  wi_content_type := "application/json"; wi_source_id := source_id;
  wi_correlation_id := Some correlation_id; wi_idempotency_key := Some idempotency_key;
  wi_input_hash := Some (sha256_hex (as_bytes content)); wi_writer_signature := None;
  wi_signer_key_reference := None; wi_attestation_report := None
|}.

Definition fleet_correlation : string := "fleet-decision-01HZXK5QY4D3M8T7J2P6N9R0AV".

Definition fleet_forecast (revision : string) : string :=
  json_text ("{'specversion':'1.0','type':'io.srex.deepfield.forecast.v1','dataschema':'urn:srex:deepfield:schema:forecast:v1','risk':'capacity','revision':" +:+ revision +:+ "}").

Definition fleet_decision : string :=
  json_text "{'specversion':'1.0','type':'ai.llm-d.gcl.decision-package.v1','schema_version':'gcl.llm-d.ai/decision-package/v1','action_class':'fleet.scale','confidence':0.91}".

Definition fleet_outcome : string :=
  json_text "{'apiVersion':'fleet.llm-d.ai/v1beta1','kind':'FleetOperation','phase':'VERIFIED','observedReplicas':2}".

Definition fleet_entries : list WriteEntryInput :=
  let forecast_entry key content :=
    fleet_entry "io.srex.deepfield.forecast.v1" "fleet-evidence-publisher"
      "urn:fleet-llm-d:evidence/deepfield" fleet_correlation key content in
  [forecast_entry "deepfield:forecast:01HZXK5QY4D3M8T7J2P6N9R0AV" (fleet_forecast "1");
   forecast_entry "deepfield:forecast:01HZXK5QY4D3M8T7J2P6N9R0AV:revision-2" (fleet_forecast "2");
   fleet_entry "ai.llm-d.gcl.decision-package.v1" "governed-cognitive-loop"
     "urn:governed-cognitive-loop:decision" fleet_correlation
     "gcl:decision:01HZXK5QY4D3M8T7J2P6N9R0AV" fleet_decision;
   fleet_entry "fleet.operation.verified" "fleet-controller" "urn:fleet-llm-d:controller"
     fleet_correlation "fleet:operation:01HZXK5QY4D3M8T7J2P6N9R0AV:verified" fleet_outcome].

Fixpoint issue_receipts (inputs : list WriteEntryInput) : T Inner (list ProofReceiptOutput) :=
  match inputs with
  | [] => t_ret []
  | input :: inputs' =>
      test! receipt := expect (issue_receipt test_service input) in
      test! receipts := issue_receipts inputs' in
      t_ret (receipt :: receipts)
  end.

Definition core_four_entries_are_correlated_receipted_and_chain_verifiable : T Inner unit :=
  test! receipts := issue_receipts fleet_entries in
  test! _ := t_each receipts (λ receipt,
    test! proof := expect (verify_proof (pr_entry_type receipt) (pr_entry_hash receipt)) in
    test! _ := t_assert (vp_valid proof) in
    test! _ := t_assert (String.eqb (vp_correlation_id proof) fleet_correlation) in
    test! _ := t_assert (String.eqb (vp_input_hash proof) (pr_input_hash receipt)) in
    test! _ := t_assert (String.eqb (pr_hash_version receipt) ENTRY_HASH_VERSION) in
    t_assert (String.eqb (vp_hash_version proof) ENTRY_HASH_VERSION)) in
  test! answer := expect (service_query_entries {|
    qi_entry_type := None; qi_agent_id := None; qi_source_id := None;
    qi_correlation_id := Some fleet_correlation; qi_from_ts := None; qi_to_ts := None;
    qi_page_size := 10; qi_page_token := None |}) in
  let '(timeline, next_page, total_count) := answer in
  test! _ := t_assert (total_count =? 4) in
  test! _ := t_assert (length timeline =? 4)%nat in
  test! _ := t_assert (negb (bool_decide (is_Some next_page))) in
  test! _ := t_assert (forallb (λ e, bool_decide (le_correlation_id e = Some fleet_correlation)) timeline) in
  test! _ := t_each [("io.srex.deepfield.forecast.v1", 2); ("ai.llm-d.gcl.decision-package.v1", 1);
                     ("fleet.operation.verified", 1)] (λ expected : string * Z,
    test! verification := expect_some (verify_chain test_service 3 expected.1 None None) in
    test! _ := t_assert (vc_chain_valid verification) in
    t_assert (vc_entries_checked verification =? expected.2)) in
  t_assert (bool_decide (pr_chain_position <$> take 2 receipts = [1; 2])).

(** ** [grpc_contract.rs] *)

Definition ig006_grpc_contract_smoke : T Inner unit :=
  let chain := "LEDGER_ENTRY_TYPE_GATE_DECISION" in
  test! write := expect (grpc_write_entry test_service {|
    wq_entry_type := chain; wq_agent_id := "agent-x"; wq_content := as_bytes "payload";
    wq_content_type := "application/json"; wq_source_id := "ARE-FOUNDATION-PROOF";
    wq_correlation_id := ""; wq_idempotency_key := "grpc-smoke"; wq_input_hash := "";
    wq_writer_signature := []; wq_signer_key_reference := ""; wq_attestation_report := [] |}) in
  test! _ := t_assert (String.eqb (wp_hash_version write) ENTRY_HASH_VERSION) in
  test! entry := expect (grpc_get_entry (wp_entry_id write)) in
  test! _ := t_assert (String.eqb (pe_hash_version entry) ENTRY_HASH_VERSION) in
  test! verify := expect (grpc_verify_entry test_service (wp_entry_id write)) in
  test! _ := t_assert (vr_hash_valid verify) in
  test! _ := t_assert (vr_chain_link_valid verify) in
  test! query := expect (grpc_query_entries {|
    qq_entry_type := chain; qq_agent_id := ""; qq_source_id := ""; qq_correlation_id := "";
    qq_from_ts := 0; qq_to_ts := 0; qq_page_size := 10; qq_page_token := "" |}) in
  test! _ := t_assert (qs_total_count query =? 1) in
  test! _ := t_assert (bool_decide (pe_hash_version <$> qs_entries query = [ENTRY_HASH_VERSION])) in
  test! chain_tip := expect (grpc_get_chain_tip chain) in
  test! _ := t_assert (negb (is_empty (tp_entry_id chain_tip))) in
  test! _ := t_assert (String.eqb (tp_hash_version chain_tip) ENTRY_HASH_VERSION) in
  test! chain_verify := expect_some (grpc_verify_chain test_service 2 {|
    cq_entry_type := chain; cq_start_entry_id := ""; cq_end_entry_id := "" |}) in
  test! _ := t_assert (cs_chain_valid chain_verify) in
  test! _ := expect_err (grpc_get_entry "11111111-1111-1111-1111-111111111111") in
  t_ret tt.

Definition integration_suite : list bool :=
  map (λ t, passes t inner_default)
    [it001_write_read_verify_cycle; it002_chain_integrity_for_many_entries 51;
     it004_delegation_admitted_entry_type_chain;
     core_four_entries_are_correlated_receipted_and_chain_verifiable; ig006_grpc_contract_smoke]
  ++ [it003_concurrent_multi_type_writes 2].
End IntegrationTests.

Definition integration_outcomes : list bool := integration_suite (P := Toy.platform).

(** Every integration test passes on the model. *)
Theorem integration_tests_pass : all_pass integration_outcomes = true.
Proof. by_compute. Qed.
